(* ===== verification/_CoqProject ===== *)
-Q . S2P
Prelude.v
GoStd.v
Utf8.v
PathMatch.v
GoTime.v
Float64.v
GoStrings.v
GoFmt.v
Topics.v
Glob.v
Json.v
JsonCodec.v
Const.v
Message.v
Stored.v
SampleText.v
Storage.v
MemoryStorage.v
RedisServer.v
History.v
Config.v
Durations.v
Logging.v
Main.v
RedisStorage.v
SampleRedis.v
Client.v
Http.v
RateLimit.v
Limiter.v
Authorizer.v
Prog.v
Engine.v
Server.v
System.v
Logic.v
Programs.v
Registry.v
Invariants.v
Causes.v
Discipline.v
Concurrency.v
Simulate.v
Delivery.v
Operations.v
Fanout.v
Reading.v
Drain.v
RedisGateway.v
Cluster.v
Metrics.v
Instruments.v
Subscriber.v
Interop.v
EndToEnd.v
Reconnect.v
Relay.v
Process.v
Shutdown.v
