(* ===== verification/Prelude.v ===== *)
(** * Goctopus: a verification library for the websocket push gateway

    Goctopus ([src/src], Go) accepts messages over an authenticated HTTP API,
    queues them per key, pushes them to the websocket connections subscribed to
    the key, and removes them when a connection acknowledges them, when they
    expire or when the backend deletes them.  A Go subscriber library
    ([src/clients/go]) reads and acknowledges them.  This library models both
    from their source and proves what they promise.

    ** How the program is modelled

    A Go function that acts on shared state is a program ([Prog.prog]): a tree of
    atomic actions ([Prog.op]).  An action is one critical section of the source
    (under [g.mu], under the mutex of the storage, of a connection, of the
    history, of the limiter) or one reading of the world (clock, network, random
    uuid, map iteration order), which an [Env] answers.  The same text runs in
    two ways: [Prog.run] runs it alone, and [System.step] interleaves the actions
    of any number of goroutines: request handlers, a worker pool draining the
    queue of tasks, read and ping loops of connections, the sweeper, the
    reconciler, notifications and [Stop].  A configuration carries the trace of
    what happened.  [Simulate.drive] executes the transition system on a
    schedule; the witnesses of the theorems are runs of a small scenario.

    ** Files, in dependency order

    - [Prelude]: errors, int64 wrap-around, first-occurrence lists, hints.
    - [GoStd], [Utf8], [PathMatch], [GoTime], [Float64], [GoStrings], [GoFmt],
      [Json], [JsonCodec], [Http]: what the program uses of Go's standard library:
      bytes, UTF-8, FNV-1a; [path.Match]; float64 and its rounding, instants,
      [time.ParseDuration]; splitting, trimming and decimal integers;
      [fmt.Sprintf]; the decoding of JSON trees into Go values and the laws of
      their text; requests and responses.
    - [Topics] ([topics.go]), [Glob] (the matcher decides a declarative grammar of
      globs), [Const] ([const.go]), [Config] ([config.go]), [Main]
      ([main.go]: flags, configuration file, the body of [main] up to [Start];
      the rest is in [Process]).
    - [Logging]: [Log] ([engine.go]), the log line of a DELETE ([server.go]), the
      banner and the address ([main.go]).  [Durations]: durations as settings and
      messages write them, and what is read from them.
    - [Message] ([message.go]): the struct, target keys, JSON forms, validation,
      expiry; [Stored]: its stored form, [encode] and [decodeMessage].
    - [Storage] ([storage.go]): the interface as the class [Storage], its contract
      as the class [StorageSpec] over tables of queued messages;
      [MemoryStorage] ([memory_storage.go]) and [RedisStorage]
      ([redis_storage.go]) implement and refine it.  [RedisServer] is what the
      Redis storage relies on: a server given by its keyspace and laws.
      [SampleText] and [SampleRedis] are concrete instances of the parameters.
    - [History] ([history.go]), [Client] ([client.go], the connection),
      [RateLimit] ([ratelimit.go]) and [Limiter] (its verdicts over time),
      [Authorizer] ([authorization.go],
      [dummy_authorizer.go], [proxy_authorizer.go]).
    - [Prog] (the [Goctopus] struct of [engine.go], its registry, the meaning of
      every action), [Engine] ([engine.go], the loops of [client.go], the
      closures of [server.go]), [Server] ([server.go], [version.go], the
      endpoints of [metrics.go]), [System] ([Start], goroutines, steps).
    - [Logic], [Programs]: a program logic over traces, and the proof that every
      program establishes what its actions require.
    - [Registry]: the connection registry as a relation.
    - [Invariants], [Causes]: induction over runs; every event has its cause.
    - [Discipline], [Concurrency]: locks and marks as ghost state of goroutines.
    - [Simulate]: the executable scheduler and the scenario.
    - [Delivery]: the theorems over every interleaving; [Drain]: termination.
    - [Operations], [Fanout], [Reading]: what each operation does when it runs
      alone; a flush and the reading API over any storage.
    - [RedisGateway]: the gateway over the Redis storage; [Cluster]: any number of
      gateways over one storage, joining over time.
    - [Metrics]: the two gauges of [metrics.go]; [Instruments]: [newMetrics], the
      registration of all instruments, and a scrape.
    - [Subscriber] ([clients/go/goctopus.go]): sessions, the window of ids,
      back-off; [Interop]: its texts and the gateway's; [EndToEnd]: a flush, a
      session and the read loop on its acknowledgements; [Reconnect]: the same
      over connections that break; [Relay]: from a message one instance delivers to
      the connections of another one.
    - [Process] (the end of [main] in [main.go]): the server, the goroutine that
      waits for a signal, and the shutdown, over the running gateway.
    - [Shutdown]: what a stop leaves in the worker queue, and a process that exits
      without it.

    ** What the theorems show

    Over every interleaving, clock, network and storage failure: a stored message
    stays queued until it is acknowledged, expires, is deleted or is replaced
    (C1); a frame only reaches a connection whose subscription selects the key,
    and only for a message an authorised POST put there (C2), over Redis too,
    through the stored form (C18); a connection gets at most one copy more than
    it acknowledged (C3); single deletions, stored copies and clearings are
    entitled (C7, C8); left alone the gateway comes to rest, in finitely many
    steps and without deadlock, its workers returned if it was stopped (C9), and
    by then every message whose delivery was queued while a worker was left was
    stored and offered (C10); deliveries of a key exclude each other (C16);
    the registry is sound (C36).  The first two hold of clusters as well: no
    message is lost between gateways that share a storage (C11), and frames
    carry messages that one of them received (C12).  Operations alone: a flush
    delivers everything it should, in order (C4); publishing stores every copy
    (C5); acknowledging, posting, rejecting, sweeping and deleting on every
    branch, and so does reading (C6, C25, C26, C27, C30, C31).  The whole round
    trip, with a subscriber at the other end of a connection, hands over and removes exactly the live
    messages (C14), and a subscriber whose connections break any number of times
    is still handed each message once (C15).  A message one instance delivers
    reaches each listening connection of another one exactly once (C13).  The
    process runs this gateway and nothing else (C22), ends well only after a
    signal and [Stop] (C23), and does end after a signal (C24).  Components:
    refinement of the table by the storages (C17, C28), what the Redis storage
    does with foreign entries and with the iteration of keys (C37,
    [GetKeys_answers]), the stored form (C32), the history (C33), fan-out (C34),
    the glob topics against their grammar (C35), settings (C38, C39).
    The limiter over time: what it admits at most (C19) and at least (C21), and
    that clients do not affect each other (C20).  The subscriber: de-duplication
    (C29, [Subscriber.Run_hands_over_once]), back-off (C40).  Theorems without a
    number state further
    properties of the components, among them the worker pool, startup, payload
    limits, validation, the authorizer cache, target keys, expiry, written durations
    ([Durations.ParseDuration_write]), origins, the
    gauges, the registration of the instruments, and what goes wrong: a second
    delivery of a message posted to two keys
    ([Delivery.second_key_is_redelivered]), an infinite rate
    ([Limiter.infinite_rate_locks_out]), work that is queued once the workers have
    returned ([Shutdown.work_after_stop_is_stranded]), a clean exit without a
    message that was accepted ([Shutdown.DemoShutdown.clean_exit_drops_accepted]),
    a log line that formats
    the id of a request ([Logging.delete_line_formats_id]), a listing that differs
    between the storages ([RedisGateway.empty_listing_differs]).

    ** Bounds and fuel

    int64 arithmetic is in [Z] with [wrap64] where the source can overflow.  The
    loops of [path.Match], [ParseDuration] and [TrimSpace] consume a byte a turn:
    the length of the string is fuel enough ([PathMatch.Match_fuel_enough],
    [GoTime.ParseDuration_sound]).  The SCAN loop of [GetKeys] has the number of
    calls the server's cursor leaves as fuel, enough by [GetKeys_answers].
    Background loops take the number of their ticks, read loops and sessions the
    list of what they meet, ping loops the list of their wake-ups, [Run] the list
    of its turns: any of them, so every prefix of an endless run is covered.
    float64 is Stdlib's [SpecFloat], computed to the bit; [Float64] gives the value
    of a nonnegative number as a multiple of 2^-1074 and bounds every rounding.

    ** What is not modelled, and why

    - The Redis server: it is outside the repository, given by the laws of
      [RedisServer].  The theorems over [StorageSpec] assume that only this
      instance writes to the storage, those of [Cluster] that only instances of
      the same configuration do; for Redis, that no key has a time to live
      ([ttl_backstop] is the other case).  An instance sees of the others the
      requests they receive and what they write; an action on the storage is
      atomic for all.  The arrivals of [Subscribe] are the notification steps of
      [System], which come at any time, lost ones included.
    - Of [net/http] only what [Process] says of [ListenAndServe] and [Shutdown]: the
      listener, TLS and which connections are active are left open.  The text
      of [/metrics], response headers, debug lines other than the one of [Logging];
      the JavaScript and Python clients.
    - [Limiter] takes the clock readings in the order of the calls; [Allow] reads
      the clock before it takes the mutex, so two calls at once may swap.
    - Third-party and scanner code is a parameter: [uuid.Parse] and its [String]
      ([UuidLib]), the JSON text scanner and printer ([JsonText], [JsonPrint]),
      the text of a time ([TimeText], [TimeParse]), [yaml.Unmarshal],
      [strconv.ParseFloat], [net.SplitHostPort], [url.Parse], the HTTP call of
      the proxy authorizer, the websocket library and the decompressor, the
      Prometheus library ([Prometheus], with laws).
    - Limits of the Go runtime: memory, the size of a channel, and the panic of
      [time.NewTicker] on an interval that is not positive, which the settings
      [main] starts with never are (C39).
    - [strings.ToLower] acts on ASCII.  The monotonic clock
      reading is not told apart from the wall clock.
    - A write deadline only shows as a write that fails.

    ** Possible extensions

    - Fractions in the durations of [Durations].
    - Broken connections under other keys and goroutines that run meanwhile. *)
From stdpp Require Export base numbers list gmap strings sorting.
From Stdlib Require Export Ascii.

(** ** Errors *)

(** A Go [error] value that is not [nil]: only its text can be told apart. *)
Inductive error := Error (text : string).

(** A call that returns [(value, error)]: [Err] when the error is not nil. *)
Inductive result (A : Type) :=
| Ok (a : A)
| Err (e : error).
Arguments Ok {A} a.
Arguments Err {A} e.

(** A slice that was declared with [var] is nil until something is appended; one
    that was made is not. *)
Inductive slice (A : Type) :=
| NilSlice
| Slice (l : list A).
Arguments NilSlice {A}.
Arguments Slice {A} l.

Definition elems {A} (s : slice A) : list A :=
  match s with NilSlice => [] | Slice l => l end.

(** A nil slice after the elements [l] were appended to it. *)
Definition appended {A} (l : list A) : slice A :=
  match l with [] => NilSlice | _ => Slice l end.

Lemma elems_appended {A} (l : list A) : elems (appended l) = l.
Proof. by destruct l. Qed.

(** ** Machine integers *)

#[local] Open Scope Z_scope.

Definition two63 : Z := 2 ^ 63.
Definition two64 : Z := 2 ^ 64.
Definition max_int64 : Z := two63 - 1.
Definition min_int64 : Z := - two63.

(** The value an int64 holds after an operation whose exact result is [z]. *)
Definition wrap64 (z : Z) : Z := (z + two63) `mod` two64 - two63.

Definition in_int64 (z : Z) : Prop := min_int64 ≤ z ≤ max_int64.

#[local] Close Scope Z_scope.

(** ** Lists *)

(** The first occurrences of the elements of [l] that are not in [seen], in
    order: what the Go idiom [if !seen[x] { seen[x] = true; out = append(out, x) }]
    computes. *)
Fixpoint dedup_from {A} `{Countable A} (seen : gset A) (l : list A) : list A :=
  match l with
  | [] => []
  | x :: l => if decide (x ∈ seen) then dedup_from seen l
              else x :: dedup_from ({[x]} ∪ seen) l
  end.

Abbreviation dedup := (dedup_from ∅).

(** ** Hints *)

Create HintDb goctopus.

(** ** Lemmas *)

#[local] Open Scope Z_scope.

Lemma wrap64_bounds z : in_int64 (wrap64 z).
Proof.
  unfold in_int64, wrap64, min_int64, max_int64, two63, two64.
  pose proof (Z.mod_pos_bound (z + 2 ^ 63) (2 ^ 64)). lia.
Qed.

Lemma wrap64_id z : in_int64 z → wrap64 z = z.
Proof.
  unfold in_int64, wrap64, min_int64, max_int64, two63, two64. intros Hz.
  rewrite Z.mod_small; lia.
Qed.

#[local] Close Scope Z_scope.

Section dedup.
Context {A : Type} `{Countable A}.
Implicit Types (l : list A) (seen : gset A).

Lemma elem_of_dedup_from seen l x :
  x ∈ dedup_from seen l ↔ x ∈ l ∧ x ∉ seen.
Proof.
  revert seen. induction l as [|y l IH]; intros seen; simpl; [set_solver|].
  case_decide; [set_solver|].
  rewrite elem_of_cons, IH. destruct (decide (x = y)); set_solver.
Qed.

Lemma elem_of_dedup l x : x ∈ dedup l ↔ x ∈ l.
Proof. rewrite elem_of_dedup_from. set_solver. Qed.

Lemma NoDup_dedup_from seen l : NoDup (dedup_from seen l).
Proof.
  revert seen. induction l as [|y l IH]; intros seen; simpl; [constructor|].
  case_decide; [done|]. constructor; [|done].
  rewrite elem_of_dedup_from. set_solver.
Qed.

Lemma dedup_from_sublist seen l : dedup_from seen l `sublist_of` l.
Proof.
  revert seen. induction l as [|y l IH]; intros seen; simpl; [constructor|].
  case_decide; by constructor.
Qed.
End dedup.

Section filter.
Context {A : Type} (P : A → Prop) `{!∀ x, Decision (P x)}.

Lemma filter_id (l : list A) : (∀ x, x ∈ l → P x) → filter P l = l.
Proof.
  induction l as [|x l IH]; intros Hl; [done|].
  rewrite filter_cons_True by set_solver. f_equal. apply IH. set_solver.
Qed.

Lemma filter_none (l : list A) : (∀ x, x ∈ l → ¬ P x) → filter P l = [].
Proof.
  induction l as [|x l IH]; intros Hl; [done|].
  rewrite filter_cons_False by set_solver. apply IH. set_solver.
Qed.
End filter.

Lemma filter_fmap {A B} (f : A → B) (P : B → Prop) `{∀ x, Decision (P x)} (l : list A) :
  filter P (f <$> l) = f <$> filter (λ x, P (f x)) l.
Proof.
  induction l as [|x l IH]; [done|]. rewrite fmap_cons, !filter_cons, IH.
  by destruct (decide (P (f x))).
Qed.

Lemma filter_ext_in {A} (P Q : A → Prop) `{∀ x, Decision (P x), ∀ x, Decision (Q x)} (l : list A) :
  (∀ x, x ∈ l → P x ↔ Q x) → filter P l = filter Q l.
Proof.
  induction l as [|x l IH]; intros Hl; [done|]. rewrite !filter_cons, IH by (intros y Hy; apply Hl; by right).
  specialize (Hl x ltac:(by left)). do 2 case_decide; done || tauto.
Qed.

Lemma dedup_from_app {A} `{Countable A} (seen : gset A) l1 l2 seen2 :
  (∀ x, x ∈ seen2 ↔ x ∈ seen ∨ x ∈ l1) →
  dedup_from seen (l1 ++ l2) = dedup_from seen l1 ++ dedup_from seen2 l2.
Proof.
  revert seen. induction l1 as [|x l1 IH]; intros seen Hs; simpl.
  - replace seen2 with seen by set_solver. done.
  - case_decide; [apply IH; set_solver|]. simpl. f_equal. apply IH. set_solver.
Qed.

Lemma elem_of_concat {A} (x : A) (ls : list (list A)) : x ∈ concat ls ↔ ∃ l, l ∈ ls ∧ x ∈ l.
Proof. induction ls as [|l ls IH]; simpl; [set_solver|]. rewrite elem_of_app, IH. set_solver. Qed.

Lemma lookup_split {A} (l : list A) i x :
  l !! i = Some x → ∃ l1 l2, l = l1 ++ x :: l2 ∧ ∀ y, <[i := y]> l = l1 ++ y :: l2.
Proof.
  intros Hi. exists (take i l), (drop (1 + i)%nat l).
  split; [by rewrite take_drop_middle|].
  intros y. apply insert_take_drop. by eapply lookup_lt_Some.
Qed.

(** An element of a list, with what precedes and follows it. *)
Lemma split_at {A} (l : list A) i x : l !! i = Some x → l = take i l ++ x :: drop (S i) l.
Proof. intros Hi. symmetry. by apply take_drop_middle. Qed.

Lemma NoDup_omap_lookup {A B} (f : A → option B) (l : list A) i j x y b :
  NoDup (omap f l) → l !! i = Some x → l !! j = Some y → f x = Some b → f y = Some b → i = j.
Proof.
  revert i j. induction l as [|a l IH]; intros i j Hnd Hi Hj Hx Hy; [done|].
  assert (∀ i z, l !! i = Some z → f z = Some b → b ∈ omap f l) as Hin.
  { intros n z Hn Hz. apply list_elem_of_omap. exists z. split; [|done].
    by eapply list_elem_of_lookup_2. }
  cbn [omap list_omap] in Hnd. destruct i as [|i], j as [|j]; simpl in *; [done|..].
  - injection Hi as ->. rewrite Hx, NoDup_cons in Hnd. destruct Hnd as [Hnot _].
    destruct Hnot. by eapply Hin.
  - injection Hj as ->. rewrite Hy, NoDup_cons in Hnd. destruct Hnd as [Hnot _].
    destruct Hnot. by eapply Hin.
  - f_equal. apply IH; [|done..]. destruct (f a); [by apply NoDup_cons in Hnd as [_ ?]|done].
Qed.

#[export] Hint Resolve wrap64_bounds NoDup_dedup_from : goctopus.
