(* ===== verification/GoStd.v ===== *)
(** * The parts of Go's standard library the gateway computes with

    A Go [string] is a byte string, here a [string] of [ascii] bytes.  This file
    holds byte and UTF-8 access, the [strings] functions the gateway calls, and
    the FNV-1a hashes of [hash/fnv].  [path.Match] and [time.ParseDuration] have
    files of their own. *)
From stdpp Require Import base numbers list strings.
From S2P Require Import Prelude.

#[local] Open Scope Z_scope.

(** ** Bytes *)

Definition byte_of (c : ascii) : Z := Z.of_N (N_of_ascii c).

Definition str_len (s : string) : Z := Z.of_nat (String.length s).

(** [s[n:]], with [n] within the string. *)
Fixpoint str_drop (n : nat) (s : string) : string :=
  match n, s with
  | O, _ => s
  | S n, String _ s => str_drop n s
  | S _, EmptyString => EmptyString
  end.

(** [s[:n]], with [n] within the string. *)
Fixpoint str_take (n : nat) (s : string) : string :=
  match n, s with
  | S n, String c s => String c (str_take n s)
  | _, _ => EmptyString
  end.

Fixpoint str_bytes (s : string) : list ascii :=
  match s with EmptyString => [] | String c s => c :: str_bytes s end.

Fixpoint str_of (l : list ascii) : string :=
  match l with [] => EmptyString | c :: l => String c (str_of l) end.

(** [strings.IndexByte] *)
Fixpoint IndexByte (s : string) (b : ascii) : option nat :=
  match s with
  | EmptyString => None
  | String c s => if decide (c = b) then Some O else S <$> IndexByte s b
  end.

(** [strings.ContainsAny s chars] for a [chars] of ASCII characters: some byte
    of [s] is one of them (a byte of a multi-byte character never is). *)
Fixpoint ContainsAny (s chars : string) : bool :=
  match s with
  | EmptyString => false
  | String c s => bool_decide (c ∈ str_bytes chars) || ContainsAny s chars
  end.

(** [strings.ToLower] on the ASCII letters; a byte of a multi-byte character is
    left alone, so the model agrees with Go on strings whose non-ASCII
    characters have no lower case. *)
Definition lower_byte (c : ascii) : ascii :=
  let b := byte_of c in
  if (65 <=? b) && (b <=? 90) then ascii_of_N (Z.to_N (b + 32)) else c.

Definition ToLower (s : string) : string := str_of (lower_byte <$> str_bytes s).

(** ** UTF-8: [utf8.DecodeRuneInString] *)

Definition RuneError : Z := 65533.

Definition in_byte_range (lo hi : Z) (c : ascii) : bool :=
  (lo <=? byte_of c) && (byte_of c <=? hi).

Definition is_cont (c : ascii) : bool := in_byte_range 128 191 c.

(** The accepted range of the second byte, for a first byte of value [b]. *)
Definition second_range (b : Z) : Z * Z :=
  if b =? 224 then (160, 191) else if b =? 237 then (128, 159)
  else if b =? 240 then (144, 191) else if b =? 244 then (128, 143)
  else (128, 191).

(** The rune at the start of [s] and its width in bytes: [(RuneError, 0)] for
    the empty string, [(RuneError, 1)] for an invalid encoding. *)
Definition DecodeRune (s : string) : Z * nat :=
  match s with
  | EmptyString => (RuneError, 0%nat)
  | String c0 s1 =>
    let b0 := byte_of c0 in
    let '(lo, hi) := second_range b0 in
    if b0 <? 128 then (b0, 1%nat)
    else if (b0 <? 194) || (244 <? b0) then (RuneError, 1%nat)
    else match s1 with
    | EmptyString => (RuneError, 1%nat)
    | String c1 s2 =>
      if negb (in_byte_range lo hi c1) then (RuneError, 1%nat)
      else if b0 <? 224 then ((b0 - 192) * 64 + (byte_of c1 - 128), 2%nat)
      else match s2 with
      | EmptyString => (RuneError, 1%nat)
      | String c2 s3 =>
        if negb (is_cont c2) then (RuneError, 1%nat)
        else if b0 <? 240 then
          ((b0 - 224) * 4096 + (byte_of c1 - 128) * 64 + (byte_of c2 - 128), 3%nat)
        else match s3 with
        | EmptyString => (RuneError, 1%nat)
        | String c3 _ =>
          if negb (is_cont c3) then (RuneError, 1%nat)
          else ((b0 - 240) * 262144 + (byte_of c1 - 128) * 4096 +
                (byte_of c2 - 128) * 64 + (byte_of c3 - 128), 4%nat)
        end
      end
    end
  end.

(** ** [hash/fnv]: FNV-1a *)

Fixpoint fnv1a (bits prime h : Z) (s : string) : Z :=
  match s with
  | EmptyString => h
  | String c s => fnv1a bits prime ((Z.lxor h (byte_of c) * prime) `mod` 2 ^ bits) s
  end.

(** [fnv.New32a] and [fnv.New64a]: the hash of the bytes written, [Sum32]/[Sum64]. *)
Definition New32a_Sum32 (s : string) : Z := fnv1a 32 16777619 2166136261 s.
Definition New64a_Sum64 (s : string) : Z :=
  fnv1a 64 1099511628211 14695981039346656037 s.

(** ** Lemmas *)

Lemma byte_of_range c : 0 ≤ byte_of c < 256.
Proof. unfold byte_of. pose proof (N_ascii_bounded c). lia. Qed.

Lemma byte_of_inj c c' : byte_of c = byte_of c' → c = c'.
Proof.
  unfold byte_of. intros Heq%N2Z.inj.
  by rewrite <-(ascii_N_embedding c), <-(ascii_N_embedding c'), Heq.
Qed.

Lemma ContainsAny_true s chars :
  ContainsAny s chars = true ↔ ∃ c, c ∈ str_bytes s ∧ c ∈ str_bytes chars.
Proof.
  induction s as [|c s IH]; simpl; [set_solver|].
  rewrite orb_true_iff, bool_decide_eq_true, IH. set_solver.
Qed.

(** On a non-empty string the decoder consumes between one and four bytes. *)
Lemma DecodeRune_width s :
  s ≠ EmptyString →
  (1 ≤ (DecodeRune s).2 ≤ 4)%nat ∧ ((DecodeRune s).2 ≤ String.length s)%nat.
Proof.
  destruct s as [|c0 [|c1 [|c2 [|c3 s]]]]; [done|..]; intros _; unfold DecodeRune;
    destruct (second_range (byte_of c0)) as [lo hi]; repeat case_match; simpl; lia.
Qed.

(** An ASCII byte is its own rune. *)
Lemma DecodeRune_ascii c s : byte_of c < 128 → DecodeRune (String c s) = (byte_of c, 1%nat).
Proof.
  intros Hc. unfold DecodeRune. destruct (second_range _).
  by rewrite (proj2 (Z.ltb_lt _ _) Hc).
Qed.

Lemma str_drop_length n s : String.length (str_drop n s) = (String.length s - n)%nat.
Proof. revert s. induction n as [|n IH]; intros [|c s]; simpl; auto with lia. Qed.

Lemma str_prefix_split p s :
  String.prefix p s = true ↔ ∃ t, s = String.append p t.
Proof.
  revert s. induction p as [|c p IH]; intros s; cbn [String.prefix].
  { split; [intros _; by exists s|]. intros _. by destruct s. }
  destruct s as [|c0 s]; [split; [done|by intros [t [=]]]|].
  assert (∀ t, String.append (String c p) t = String c (String.append p t)) as Happ by done.
  assert (String.prefix (String c p) (String c0 s) =
    if ascii_dec c c0 then String.prefix p s else false) as -> by done.
  setoid_rewrite Happ. destruct (ascii_dec c c0) as [->|Hne].
  - rewrite IH. split; intros [t Ht]; exists t; congruence.
  - split; [done|]. intros [t [=]]; congruence.
Qed.

Lemma str_drop_append p t : str_drop (String.length p) (String.append p t) = t.
Proof. induction p as [|c p IH]; [by destruct t|exact IH]. Qed.

Lemma fnv1a_range bits prime h s :
  0 ≤ bits → 0 ≤ h < 2 ^ bits → 0 ≤ fnv1a bits prime h s < 2 ^ bits.
Proof.
  intros Hb. revert h. induction s as [|c s IH]; intros h Hh; simpl; [done|].
  apply IH, Z.mod_pos_bound. by apply Z.pow_pos_nonneg.
Qed.

Lemma New32a_range s : 0 ≤ New32a_Sum32 s < 2 ^ 32.
Proof. by apply fnv1a_range. Qed.

Lemma New64a_range s : 0 ≤ New64a_Sum64 s < 2 ^ 64.
Proof. by apply fnv1a_range. Qed.

#[export] Hint Resolve byte_of_range New32a_range New64a_range : goctopus.
