(* ===== verification/Utf8.v ===== *)
(** * Valid UTF-8

    [encoding/json] writes strings as UTF-8 and replaces each byte that does not
    belong to a valid encoding by U+FFFD.  [utf8_clean] is that replacement, and
    the strings it leaves alone are the valid ones. *)
From stdpp Require Import base numbers list strings.
From S2P Require Import Prelude GoStd.

#[local] Open Scope Z_scope.

(** The three bytes of U+FFFD. *)
Definition replacement : string := "�".

(** [utf8.DecodeRuneInString] met an invalid encoding. *)
Definition invalid_rune (s : string) : bool :=
  (fst (DecodeRune s) =? RuneError) && Nat.eqb (snd (DecodeRune s)) 1.

(** Each step consumes a byte: the length is fuel enough. *)
Fixpoint clean_from (fuel : nat) (s : string) : string :=
  match fuel, s with
  | S fuel, String _ _ =>
    if invalid_rune s then String.append replacement (clean_from fuel (str_drop 1 s))
    else String.append (str_take (snd (DecodeRune s)) s)
                       (clean_from fuel (str_drop (snd (DecodeRune s)) s))
  | _, _ => EmptyString
  end.

Definition utf8_clean (s : string) : string := clean_from (String.length s) s.

Fixpoint valid_from (fuel : nat) (s : string) : bool :=
  match fuel, s with
  | _, EmptyString => true
  | O, _ => false
  | S fuel, _ => negb (invalid_rune s) && valid_from fuel (str_drop (snd (DecodeRune s)) s)
  end.

(** [utf8.ValidString] *)
Definition valid_utf8 (s : string) : bool := valid_from (String.length s) s.

(** ** Lemmas *)

Lemma str_take_drop n s : String.append (str_take n s) (str_drop n s) = s.
Proof.
  revert s. induction n as [|n IH]; intros [|c s]; try done.
  cbn [str_take str_drop]. change (String c (String.append (str_take n s) (str_drop n s)) =
    String c s). by rewrite IH.
Qed.

Lemma DecodeRune_pos s : s ≠ EmptyString → (0 < (DecodeRune s).2)%nat.
Proof. intros Hs. destruct (DecodeRune_width s Hs). lia. Qed.

Lemma drop_rune_shorter n s :
  s ≠ EmptyString → (String.length s ≤ S n)%nat →
  (String.length (str_drop (DecodeRune s).2 s) ≤ n)%nat.
Proof. intros Hs Hn. rewrite str_drop_length. pose proof (DecodeRune_pos s Hs). lia. Qed.

Lemma clean_from_valid fuel s :
  (String.length s ≤ fuel)%nat → valid_from fuel s = true → clean_from fuel s = s.
Proof.
  revert s. induction fuel as [|fuel IH]; intros [|c s] Hf; try done; try (simpl in Hf; lia).
  cbn [valid_from clean_from]. rewrite andb_true_iff, negb_true_iff.
  intros [-> Hv]. rewrite IH; [apply str_take_drop|by apply drop_rune_shorter|exact Hv].
Qed.

(** A valid string is left alone. *)
Lemma utf8_clean_valid s : valid_utf8 s = true → utf8_clean s = s.
Proof. by apply clean_from_valid. Qed.

Lemma valid_from_fuel fuel fuel' s :
  (String.length s ≤ fuel)%nat → (String.length s ≤ fuel')%nat →
  valid_from fuel s = valid_from fuel' s.
Proof.
  revert fuel' s. induction fuel as [|fuel IH]; intros [|fuel'] [|c s];
    intros Hf Hf'; try done; try (simpl in *; lia).
  cbn [valid_from]. f_equal.
  apply IH; by apply drop_rune_shorter.
Qed.

(** Validity, one rune at a time. *)
Lemma valid_utf8_step c s :
  valid_utf8 (String c s) =
  negb (invalid_rune (String c s)) && valid_utf8 (str_drop (DecodeRune (String c s)).2 (String c s)).
Proof.
  unfold valid_utf8 at 1. cbn [String.length valid_from]. f_equal.
  apply valid_from_fuel; [by apply drop_rune_shorter|done].
Qed.


Lemma DecodeRune_take s t :
  s ≠ EmptyString → invalid_rune s = false →
  DecodeRune (String.append (str_take (DecodeRune s).2 s) t) = DecodeRune s.
Proof.
  unfold invalid_rune.
  destruct s as [|c0 s]; [done|]; intros _.
  destruct (DecodeRune (String c0 s)) as [r n] eqn:Hd. simpl.
  revert Hd. unfold DecodeRune. destruct (second_range (byte_of c0)) as [lo hi] eqn:Hr.
  destruct (byte_of c0 <? 128) eqn:H0.
  { intros [= <- <-]. intros _. simpl. by rewrite Hr, H0. }
  destruct (_ || _) eqn:H1; [by intros [= <- <-]|].
  destruct s as [|c1 s]; [by intros [= <- <-]|].
  destruct (negb (in_byte_range lo hi c1)) eqn:H2; [by intros [= <- <-]|].
  destruct (byte_of c0 <? 224) eqn:H3.
  { intros [= <- <-]. intros _. simpl. by rewrite Hr, H0, H1, H2, H3. }
  destruct s as [|c2 s]; [by intros [= <- <-]|].
  destruct (negb (is_cont c2)) eqn:H4; [by intros [= <- <-]|].
  destruct (byte_of c0 <? 240) eqn:H5.
  { intros [= <- <-]. intros _. simpl. by rewrite Hr, H0, H1, H2, H3, H4, H5. }
  destruct s as [|c3 s]; [by intros [= <- <-]|].
  destruct (negb (is_cont c3)) eqn:H6; [by intros [= <- <-]|].
  intros [= <- <-] _. simpl. by rewrite Hr, H0, H1, H2, H3, H4, H5, H6.
Qed.

Lemma str_take_length n s :
  (n ≤ String.length s)%nat → String.length (str_take n s) = n.
Proof.
  revert s. induction n as [|n IH]; intros [|c s] Hn; try done; simpl in *; [lia|].
  rewrite IH; lia.
Qed.

Lemma valid_utf8_app a b :
  a ≠ EmptyString → invalid_rune a = false → (DecodeRune a).2 = String.length a →
  (DecodeRune (String.append a b)) = DecodeRune a → valid_utf8 (String.append a b) = valid_utf8 b.
Proof.
  intros Ha Hi Hl Hd. destruct a as [|c a]; [done|].
  change (String.append (String c a) b) with (String c (String.append a b)) in *.
  rewrite valid_utf8_step. unfold invalid_rune in *. rewrite Hd, Hi, Hl. simpl.
  by rewrite str_drop_append.
Qed.

Lemma clean_from_is_valid fuel s : valid_utf8 (clean_from fuel s) = true.
Proof.
  revert s. induction fuel as [|fuel IH]; intros [|c s]; try done. cbn [clean_from].
  destruct (invalid_rune (String c s)) eqn:Hi.
  - rewrite valid_utf8_app; [apply IH|done..].
  - destruct (DecodeRune_width (String c s)) as [Hw Hl]; [done|].
    pose proof (DecodeRune_take (String c s)) as Ht.
    set (n := (DecodeRune (String c s)).2) in *.
    set (a := str_take n (String c s)) in *.
    assert (String.length a = n) as Ha by by apply str_take_length.
    assert (DecodeRune a = DecodeRune (String c s)) as Hda.
    { rewrite <-(Ht EmptyString); [|done|done]. f_equal. clear. induction a as [|x a IH]; [done|].
      change (String x (String.append a EmptyString)) with (String.append (String x a) EmptyString) in *.
      change (String.append (String x a) EmptyString) with (String x (String.append a EmptyString)).
      by rewrite <-IH. }
    rewrite valid_utf8_app; [apply IH|..].
    + intros Hn. rewrite Hn in Ha. simpl in Ha. lia.
    + unfold invalid_rune in *. by rewrite Hda.
    + by rewrite Hda.
    + rewrite Hda. by apply Ht.
Qed.

(** What the replacement leaves is valid. *)
Lemma valid_utf8_clean s : valid_utf8 (utf8_clean s) = true.
Proof. apply clean_from_is_valid. Qed.
