(* ===== verification/PathMatch.v ===== *)
(** * [path.Match]

    The glob matcher of Go's [path] package, byte for byte: chunks, character
    classes, escapes, and the greedy treatment of a star.  [None] is
    [ErrBadPattern].  Loops whose argument does not shrink structurally carry
    fuel, one unit per byte of the pattern, which is never exhausted because
    every turn consumes a byte. *)
From stdpp Require Import base numbers list strings.
From S2P Require Import Prelude GoStd.

#[local] Open Scope Z_scope.

(** ** Definitions *)

(** [getEsc]: a possibly escaped character of a class, and what follows it. *)
Definition getEsc (chunk : string) : option (Z * string) :=
  match chunk with
  | EmptyString => None
  | String c chunk' =>
    if decide (c = "-"%char ∨ c = "]"%char) then None else
    let chunk1 := if decide (c = "\"%char) then chunk' else chunk in
    if decide (chunk1 = EmptyString) then None else
    let '(r, n) := DecodeRune chunk1 in
    if (r =? RuneError) && (n =? 1)%nat then None else
    let nchunk := str_drop n chunk1 in
    if decide (nchunk = EmptyString) then None else Some (r, nchunk)
  end.

(** The range loop of a class: whether [r] is in one of the ranges, and the
    chunk after the closing bracket. *)
Fixpoint class_ranges (fuel : nat) (r : Z) (chunk : string) (nonfirst mtch : bool)
  : option (bool * string) :=
  match fuel with
  | O => None
  | S fuel =>
    match chunk with
    | String c chunk' =>
      if decide (c = "]"%char) then
        if nonfirst then Some (mtch, chunk') else None
      else
        '(lo, chunk1) ← getEsc chunk;
        '(hi, chunk2) ←
          match chunk1 with
          | String c1 chunk1' =>
            if decide (c1 = "-"%char) then getEsc chunk1' else Some (lo, chunk1)
          | EmptyString => Some (lo, chunk1)
          end;
        class_ranges fuel r chunk2 true (mtch || ((lo <=? r) && (r <=? hi)))
    | EmptyString => None
    end
  end.

Fixpoint matchChunk_loop (fuel : nat) (chunk s : string) (failed : bool)
  : option (string * bool) :=
  match chunk with
  | EmptyString => Some (if failed then EmptyString else s, negb failed)
  | String c chunk' =>
    match fuel with
    | O => None
    | S fuel =>
      let failed := failed || bool_decide (s = EmptyString) in
      if decide (c = "["%char) then
        let '(r, s) :=
          if failed then (0, s) else
          let '(r, n) := DecodeRune s in (r, str_drop n s) in
        let '(negated, chunk1) :=
          match chunk' with
          | String c1 chunk'' =>
            if decide (c1 = "^"%char) then (true, chunk'') else (false, chunk')
          | EmptyString => (false, chunk')
          end in
        '(mtch, chunk2) ← class_ranges (S (String.length chunk1)) r chunk1 false false;
        matchChunk_loop fuel chunk2 s (failed || Bool.eqb mtch negated)
      else if decide (c = "?"%char) then
        let '(failed, s) :=
          match s with
          | String c0 _ =>
            if failed then (failed, s) else
            (bool_decide (c0 = "/"%char), str_drop (DecodeRune s).2 s)
          | EmptyString => (failed, s)
          end in
        matchChunk_loop fuel chunk' s failed
      else
        (* an escape makes the next byte a literal *)
        '(lit, chunk') ←
          (if decide (c = "\"%char) then
             match chunk' with
             | EmptyString => None
             | String c' chunk'' => Some (c', chunk'')
             end
           else Some (c, chunk'));
        let '(failed, s) :=
          match s with
          | String c0 s' =>
            if failed then (failed, s) else (bool_decide (lit ≠ c0), s')
          | EmptyString => (failed, s)
          end in
        matchChunk_loop fuel chunk' s failed
    end
  end.

(** [matchChunk]: whether [chunk] matches the start of [s], and the rest of
    [s]. *)
Definition matchChunk (chunk s : string) : option (string * bool) :=
  matchChunk_loop (String.length chunk) chunk s false.

(** The scan of [scanChunk] for the end of a chunk. *)
Fixpoint scan (inrange : bool) (pattern : string) : string * string :=
  match pattern with
  | EmptyString => (EmptyString, EmptyString)
  | String c p =>
    if decide (c = "*"%char ∧ inrange = false) then (EmptyString, pattern) else
    if decide (c = "\"%char) then
      match p with
      | EmptyString => (pattern, EmptyString)
      | String c' p' =>
        let '(chunk, rest) := scan inrange p' in (String c (String c' chunk), rest)
      end
    else
      let '(chunk, rest) :=
        scan (if decide (c = "["%char) then true
              else if decide (c = "]"%char) then false else inrange) p in
      (String c chunk, rest)
  end.

Fixpoint strip_stars (pattern : string) : bool * string :=
  match pattern with
  | String c p =>
    if decide (c = "*"%char) then (true, (strip_stars p).2) else (false, pattern)
  | EmptyString => (false, pattern)
  end.

(** [scanChunk]: leading stars, the chunk after them, the rest of the pattern. *)
Definition scanChunk (pattern : string) : bool * string * string :=
  let '(star, p) := strip_stars pattern in
  let '(chunk, rest) := scan false p in
  (star, chunk, rest).

(** The loop that tries a starred chunk at every later position of [name], up
    to a slash: the rest of [name] after the first accepted match. *)
Fixpoint star_skip (chunk : string) (last : bool) (name : string) : option (option string) :=
  match name with
  | EmptyString => Some None
  | String c name' =>
    if decide (c = "/"%char) then Some None else
    '(t, ok) ← matchChunk chunk name';
    if ok && negb (last && bool_decide (t ≠ EmptyString)) then Some (Some t)
    else star_skip chunk last name'
  end.

(** The loop that checks the syntax of what is left of a pattern that does not
    match. *)
Fixpoint check_rest (fuel : nat) (pattern : string) : option bool :=
  match fuel, pattern with
  | _, EmptyString => Some false
  | O, _ => None
  | S fuel, _ =>
    let '(_, chunk, rest) := scanChunk pattern in
    _ ← matchChunk chunk EmptyString;
    check_rest fuel rest
  end.

Fixpoint Match_loop (fuel : nat) (pattern name : string) : option bool :=
  match fuel, pattern with
  | _, EmptyString => Some (bool_decide (name = EmptyString))
  | O, _ => None
  | S fuel, _ =>
    let '(star, chunk, rest) := scanChunk pattern in
    if star && bool_decide (chunk = EmptyString) then
      Some (bool_decide (IndexByte name "/"%char = None))
    else
      '(t, ok) ← matchChunk chunk name;
      if ok && (bool_decide (t = EmptyString) || bool_decide (rest ≠ EmptyString))
      then Match_loop fuel rest t
      else
        found ← (if star then star_skip chunk (bool_decide (rest = EmptyString)) name
                 else Some None);
        match found with
        | Some t => Match_loop fuel rest t
        | None => check_rest (String.length rest) rest
        end
  end.

(** [path.Match] *)
Definition Match (pattern name : string) : option bool :=
  Match_loop (String.length pattern) pattern name.

(** ** Checks on the examples of the package documentation *)

Example match_star : Match "org.*" "org.sales" = Some true.
Proof. reflexivity. Qed.
Example match_slash : Match "team/*" "team/a/b" = Some false.
Proof. reflexivity. Qed.
Example match_mid : Match "*/alerts" "team/alerts" = Some true.
Proof. reflexivity. Qed.
Example match_class : Match "a[b-d^]*z" "acxyz" = Some true.
Proof. reflexivity. Qed.
Example match_neg : Match "a[^b-d]" "ac" = Some false.
Proof. reflexivity. Qed.
Example match_bad : Match "a[" "a" = None.
Proof. reflexivity. Qed.
Example match_bad_later : Match "x*[" "a" = None.
Proof. reflexivity. Qed.
Example match_question : Match "a?c" "abc" = Some true.
Proof. reflexivity. Qed.
Example match_escape : Match "a\*b" "a*b" = Some true.
Proof. reflexivity. Qed.
Example match_greedy : Match "*ab*b" "xaabab" = Some true.
Proof. reflexivity. Qed.

(** ** The fuel is enough *)

Lemma getEsc_shrinks chunk r rest :
  getEsc chunk = Some (r, rest) → (String.length rest < String.length chunk)%nat.
Proof.
  unfold getEsc. destruct chunk as [|c chunk']; [done|].
  destruct (decide (c = "-"%char ∨ c = "]"%char)) as [_|_]; [done|].
  set (chunk1 := if decide (c = "\"%char) then chunk' else String c chunk').
  assert (String.length chunk1 ≤ S (String.length chunk'))%nat as Hlen
    by (subst chunk1; destruct (decide (c = "\"%char)); simpl; lia).
  destruct (decide (chunk1 = EmptyString)) as [_|Hne]; [done|].
  destruct (DecodeRune_width chunk1 Hne) as [Hw _]. destruct (DecodeRune chunk1) as [r0 w].
  destruct ((r0 =? RuneError) && (w =? 1)%nat); [done|].
  destruct (decide (str_drop w chunk1 = EmptyString)) as [_|_]; [done|].
  intros [= _ <-]. rewrite str_drop_length. simpl in *. lia.
Qed.

(** The optional upper bound of a range consumes nothing or more. *)
Lemma range_end_shrinks (lo hi : Z) chunk1 chunk2 :
  match chunk1 with
  | String c1 chunk1' => if decide (c1 = "-"%char) then getEsc chunk1' else Some (lo, chunk1)
  | EmptyString => Some (lo, chunk1)
  end = Some (hi, chunk2) → (String.length chunk2 ≤ String.length chunk1)%nat.
Proof.
  destruct chunk1 as [|c1 chunk1']; [by intros [= _ <-]|].
  destruct (decide (c1 = "-"%char)); [|by intros [= _ <-]].
  intros He%getEsc_shrinks. simpl. lia.
Qed.

Lemma class_ranges_fuel n m r chunk nonfirst mtch :
  (String.length chunk < n)%nat → (String.length chunk < m)%nat →
  class_ranges n r chunk nonfirst mtch = class_ranges m r chunk nonfirst mtch.
Proof.
  revert m chunk nonfirst mtch.
  induction n as [|n IH]; intros [|m] chunk nonfirst mtch Hn Hm; try lia.
  cbn [class_ranges]. destruct chunk as [|c chunk']; [done|].
  destruct (decide (c = "]"%char)); [done|].
  destruct (getEsc (String c chunk')) as [[lo chunk1]|] eqn:He; [|done].
  apply getEsc_shrinks in He. cbn [mbind option_bind].
  destruct (match chunk1 with String _ _ => _ | EmptyString => _ end) as [[hi chunk2]|] eqn:Hr;
    [|done]. apply range_end_shrinks in Hr. cbn [mbind option_bind]. apply IH; lia.
Qed.

Lemma class_ranges_shrinks n r chunk nonfirst mtch b rest :
  class_ranges n r chunk nonfirst mtch = Some (b, rest) →
  (String.length rest < String.length chunk)%nat.
Proof.
  revert chunk nonfirst mtch. induction n as [|n IH]; intros chunk nonfirst mtch; [done|].
  cbn [class_ranges]. destruct chunk as [|c chunk']; [done|].
  destruct (decide (c = "]"%char)).
  { destruct nonfirst; [|done]. intros [= _ <-]. simpl. lia. }
  destruct (getEsc (String c chunk')) as [[lo chunk1]|] eqn:He; [|done].
  apply getEsc_shrinks in He. cbn [mbind option_bind].
  destruct (match chunk1 with String _ _ => _ | EmptyString => _ end) as [[hi chunk2]|] eqn:Hr;
    [|done]. apply range_end_shrinks in Hr. cbn [mbind option_bind]. intros Hc%IH. lia.
Qed.

Lemma matchChunk_loop_fuel n m chunk s failed :
  (String.length chunk ≤ n)%nat → (String.length chunk ≤ m)%nat →
  matchChunk_loop n chunk s failed = matchChunk_loop m chunk s failed.
Proof.
  revert m chunk s failed.
  induction n as [|n IH]; intros m [|c chunk'] s failed Hn Hm; simpl in Hn, Hm;
    try (destruct m; reflexivity); [lia|].
  destruct m as [|m]; [lia|]. cbn [matchChunk_loop].
  destruct (decide (c = "["%char)).
  - destruct (if failed || _ then _ else _) as [r s1].
    destruct (match chunk' with String _ _ => _ | EmptyString => _ end) as [neg chunk1] eqn:Hneg.
    assert (String.length chunk1 ≤ String.length chunk')%nat as Hlen.
    { destruct chunk' as [|c1 chunk'']; [by injection Hneg as <- <-|].
      destruct (decide (c1 = "^"%char)); injection Hneg as <- <-; simpl; lia. }
    destruct (class_ranges _ _ chunk1 _ _) as [[b chunk2]|] eqn:Hc; [|done].
    apply class_ranges_shrinks in Hc. cbn [mbind option_bind]. apply IH; lia.
  - destruct (decide (c = "?"%char)).
    + destruct (match s with String _ _ => _ | EmptyString => _ end) as [f s1]. apply IH; lia.
    + destruct (decide (c = "\"%char)).
      * destruct chunk' as [|c' chunk'']; [done|]. cbn [mbind option_bind].
        destruct (match s with String _ _ => _ | EmptyString => _ end) as [f s1].
        simpl in Hn, Hm. apply IH; lia.
      * cbn [mbind option_bind].
        destruct (match s with String _ _ => _ | EmptyString => _ end) as [f s1]. apply IH; lia.
Qed.

Lemma scan_length inrange p :
  (String.length (scan inrange p).1 + String.length (scan inrange p).2 = String.length p)%nat.
Proof.
  assert (∀ n p inrange, (String.length p ≤ n)%nat →
    (String.length (scan inrange p).1 + String.length (scan inrange p).2 = String.length p)%nat)
    as Hgen; [|by eapply Hgen].
  clear. induction n as [|n IH]; intros [|c p] inrange Hp; simpl in Hp; try done; [lia|].
  cbn [scan]. destruct (decide (c = "*"%char ∧ inrange = false)); [done|].
  destruct (decide (c = "\"%char)).
  - destruct p as [|c' p']; [done|]. simpl in Hp. specialize (IH p' inrange ltac:(lia)).
    destruct (scan inrange p') as [chunk rest]. simpl in *. lia.
  - set (inr := if decide (c = "["%char) then true else _).
    specialize (IH p inr ltac:(lia)). destruct (scan inr p) as [chunk rest]. simpl in *. lia.
Qed.

Lemma strip_stars_length p :
  (String.length (strip_stars p).2 ≤ String.length p)%nat ∧
  ((strip_stars p).1 = true → (String.length (strip_stars p).2 < String.length p)%nat).
Proof.
  induction p as [|c p IH]; simpl; [done|]. destruct (decide (c = "*"%char)); simpl; [lia|].
  split; [lia|done].
Qed.

(** A turn of the loop consumes at least a byte of the pattern. *)
Lemma scanChunk_shrinks c p star chunk rest :
  scanChunk (String c p) = (star, chunk, rest) →
  (String.length rest ≤ String.length p)%nat.
Proof.
  unfold scanChunk. destruct (strip_stars_length (String c p)) as [Hle Hlt].
  destruct (strip_stars (String c p)) as [st q] eqn:Hs. pose proof (scan_length false q) as Hq.
  destruct (scan false q) as [ch re] eqn:Hsc. intros [= <- <- <-]. simpl in *.
  destruct st; [specialize (Hlt eq_refl); lia|].
  simpl in Hs. destruct (decide (c = "*"%char)) as [|Hc]; [done|]. injection Hs as <-.
  assert (ch ≠ EmptyString) as Hch.
  { intros ->. cbn [scan] in Hsc. rewrite decide_False in Hsc by (by intros [? _]).
    destruct (decide (c = "\"%char)); [destruct p; [done|]|];
      destruct (scan _ _); discriminate. }
  destruct ch; [done|]. simpl in Hq. lia.
Qed.

Lemma check_rest_fuel n m p :
  (String.length p ≤ n)%nat → (String.length p ≤ m)%nat → check_rest n p = check_rest m p.
Proof.
  revert m p. induction n as [|n IH]; intros [|m] [|c p] Hn Hm; simpl in Hn, Hm; try lia;
    try reflexivity.
  cbn [check_rest]. destruct (scanChunk (String c p)) as [[star chunk] rest] eqn:Hs.
  apply scanChunk_shrinks in Hs. destruct (matchChunk chunk EmptyString); [|done].
  cbn [mbind option_bind]. apply IH; lia.
Qed.

Lemma Match_loop_fuel n m p name :
  (String.length p ≤ n)%nat → (String.length p ≤ m)%nat →
  Match_loop n p name = Match_loop m p name.
Proof.
  revert m p name. induction n as [|n IH]; intros [|m] [|c p] name Hn Hm; simpl in Hn, Hm;
    try lia; try reflexivity.
  cbn [Match_loop]. destruct (scanChunk (String c p)) as [[star chunk] rest] eqn:Hs.
  apply scanChunk_shrinks in Hs. destruct (star && _); [done|].
  destruct (matchChunk chunk name) as [[t ok]|]; [|done]. cbn [mbind option_bind].
  destruct (ok && _); [apply IH; lia|].
  destruct (if star then _ else _) as [[t'|]|]; [|done..]. cbn [mbind option_bind].
  apply IH; lia.
Qed.

(** Whatever more fuel the loop is given, the answer is the same: the length of
    the pattern is enough, and [None] always means a malformed pattern. *)
Theorem Match_fuel_enough n pattern name :
  (String.length pattern ≤ n)%nat → Match_loop n pattern name = Match pattern name.
Proof. intros Hn. by apply Match_loop_fuel. Qed.

Lemma Match_fuel_enough_witness : Match_loop 9 "a?[b-d]*" "axcyz" = Match "a?[b-d]*" "axcyz".
Proof. apply Match_fuel_enough. simpl. lia. Defined.

(** ** Literal chunks *)

(** No byte of [s] has a meaning in a pattern. *)
Definition literal (s : string) : Prop :=
  Forall (λ c, c ≠ "*"%char ∧ c ≠ "?"%char ∧ c ≠ "["%char ∧ c ≠ "\"%char) (str_bytes s).

Lemma matchChunk_loop_literal n p s failed :
  (String.length p ≤ n)%nat → literal p →
  matchChunk_loop n p s failed =
  if failed then Some (EmptyString, false) else
  if String.prefix p s then Some (str_drop (String.length p) s, true)
  else Some (EmptyString, false).
Proof.
  revert p s failed. induction n as [|n IH]; intros [|c p] s failed Hn Hp; simpl in Hn; try lia.
  - destruct failed, s; reflexivity.
  - destruct failed, s; reflexivity.
  - apply Forall_cons in Hp as [(H1 & H2 & H3 & H4) Hp]. cbn [matchChunk_loop].
    rewrite !decide_False by done. cbn [mbind option_bind].
    destruct s as [|c0 s].
    + rewrite IH by (done || lia). cbn. destruct failed; reflexivity.
    + rewrite (bool_decide_eq_false_2 (String c0 s = "")) by done. rewrite orb_false_r.
      destruct failed; [by rewrite IH by (done || lia)|].
      rewrite IH by (done || lia). cbn [String.prefix str_drop String.length].
      destruct (ascii_dec c c0) as [->|Hne].
      * by rewrite bool_decide_eq_false_2 by (intros ?; done).
      * by rewrite bool_decide_eq_true_2.
Qed.

Lemma scan_literal_star p :
  literal p → scan false (String.append p "*") = (p, "*").
Proof.
  induction p as [|c p IH]; intros Hp; [done|].
  apply Forall_cons in Hp as [(H1 & H2 & H3 & H4) Hp].
  change (String.append (String c p) "*") with (String c (String.append p "*")).
  cbn [scan]. rewrite decide_False by (by intros [? _]).
  rewrite !decide_False by done. destruct (decide (c = "]"%char)); by rewrite IH.
Qed.

(** A literal prefix followed by a star. *)
Lemma Match_prefix_star p name :
  literal p →
  Match (String.append p "*") name =
  Some (String.prefix p name &&
        bool_decide (IndexByte (str_drop (String.length p) name) "/"%char = None)).
Proof.
  intros Hp. unfold Match. destruct p as [|c p].
  { simpl. by destruct name. }
  change (String.append (String c p) "*") with (String c (String.append p "*")).
  cbn [String.length Match_loop].
  assert (scanChunk (String c (String.append p "*")) = (false, String c p, "*")) as Hs.
  { unfold scanChunk. cbn [strip_stars].
    rewrite decide_False by (by apply Forall_cons in Hp as [(? & _) _]).
    change (String c (String.append p "*")) with (String.append (String c p) "*").
    by rewrite scan_literal_star. }
  rewrite Hs. cbn [andb]. unfold matchChunk. rewrite matchChunk_loop_literal by (done || lia).
  destruct (String.prefix (String c p) name) eqn:Hpre; cbn [mbind option_bind andb].
  - rewrite (bool_decide_eq_true_2 ("*" ≠ EmptyString)) by done. rewrite orb_true_r.
    assert (∀ n t, Match_loop (S n) "*" t = Some (bool_decide (IndexByte t "/"%char = None)))
      as Hstar by done.
    destruct (String.length (String.append p "*")) as [|n] eqn:Hlen; [|apply Hstar].
    destruct p; discriminate.
  - reflexivity.
Qed.
