(* ===== verification/GoTime.v ===== *)
(** * [float64], [time.Duration] and [time.ParseDuration]

    A [time.Duration] is an int64 count of nanoseconds, an instant a [Z] count
    of nanoseconds since the Unix epoch (the monotonic reading Go adds to
    [time.Now] is not told apart from the wall clock).  A [float64] is the
    IEEE binary64 value of Rocq's [SpecFloat], with its rounding.
    [ParseDuration] follows the source of Go's [time] package, its overflow
    tests included. *)
From stdpp Require Import base numbers list strings.
From Corelib Require Import SpecFloat.
From S2P Require Import Prelude GoStd.

#[local] Open Scope Z_scope.

(** ** [float64] *)

Abbreviation float64 := spec_float.

(** [float64(z)] of an integer [z], rounded to nearest even. *)
Definition f64_of_Z (z : Z) : float64 := binary_normalize 53 1024 z 0 false.
Definition f64_add : float64 → float64 → float64 := SFadd 53 1024.
Definition f64_sub : float64 → float64 → float64 := SFsub 53 1024.
Definition f64_mul : float64 → float64 → float64 := SFmul 53 1024.
Definition f64_div : float64 → float64 → float64 := SFdiv 53 1024.
(** [x < y] and [x <= y], false when one is NaN. *)
Definition f64_ltb : float64 → float64 → bool := SFltb.
Definition f64_leb : float64 → float64 → bool := SFleb.

(** The integer part of a finite number, as the conversion [uint64(x)] takes it. *)
Definition f64_trunc (x : float64) : Z :=
  match x with
  | S754_finite s m e =>
    let a := if 0 <=? e then Z.pos m * 2 ^ e else Z.pos m / 2 ^ (- e) in
    if s then - a else a
  | _ => 0
  end.

(** ** Instants and durations *)

Definition Nanosecond : Z := 1.
Definition Microsecond : Z := 1000 * Nanosecond.
Definition Millisecond : Z := 1000 * Microsecond.
Definition Second : Z := 1000 * Millisecond.
Definition Minute : Z := 60 * Second.
Definition Hour : Z := 60 * Minute.

(** [t.Sub(u)]: saturates at the ends of int64. *)
Definition time_Sub (t u : Z) : Z := Z.max min_int64 (Z.min max_int64 (t - u)).

(** [time.Since(t)], read at instant [now]. *)
Definition time_Since (now t : Z) : Z := time_Sub now t.

(** [d.Seconds()] *)
Definition Seconds (d : Z) : float64 :=
  f64_add (f64_of_Z (Z.quot d Second))
          (f64_div (f64_of_Z (Z.rem d Second)) (f64_of_Z Second)).

(** ** [time.ParseDuration] *)

Definition digit_of (c : ascii) : option Z :=
  let b := byte_of c in
  if (48 <=? b) && (b <=? 57) then Some (b - 48) else None.

(** [leadingInt]: the leading decimal digits as a uint64, and the rest; [None]
    when the number passes 2^63. *)
Fixpoint leadingInt (x : Z) (s : string) : option (Z * string) :=
  match s with
  | String c s' =>
    match digit_of c with
    | Some v =>
      if two63 / 10 <? x then None else
      let x := x * 10 + v in
      if two63 <? x then None else leadingInt x s'
    | None => Some (x, s)
    end
  | EmptyString => Some (x, s)
  end.

(** [leadingFraction]: the digits after the point that fit, as [x / scale]; the
    digits past an overflow are dropped. *)
Fixpoint leadingFraction (x : Z) (scale : float64) (overflow : bool) (s : string)
  : Z * float64 * string :=
  match s with
  | String c s' =>
    match digit_of c with
    | Some v =>
      if overflow then leadingFraction x scale true s' else
      if max_int64 / 10 <? x then leadingFraction x scale true s' else
      let y := x * 10 + v in
      if two63 <? y then leadingFraction x scale true s'
      else leadingFraction y (f64_mul scale (f64_of_Z 10)) false s'
    | None => (x, scale, s)
    end
  | EmptyString => (x, scale, s)
  end.

(** The bytes before the next digit or point, and the rest. *)
Fixpoint leadingUnit (s : string) : string * string :=
  match s with
  | String c s' =>
    if bool_decide (c = "."%char) || bool_decide (is_Some (digit_of c)) then (EmptyString, s)
    else let '(u, r) := leadingUnit s' in (String c u, r)
  | EmptyString => (EmptyString, EmptyString)
  end.

(** [unitMap]; the two spellings of the micro sign are U+00B5 and U+03BC. *)
Definition unitMap (u : string) : option Z :=
  if decide (u = "ns") then Some Nanosecond
  else if decide (u = "us" ∨ u = "µs" ∨ u = "μs") then Some Microsecond
  else if decide (u = "ms") then Some Millisecond
  else if decide (u = "s") then Some Second
  else if decide (u = "m") then Some Minute
  else if decide (u = "h") then Some Hour
  else None.

(** One component (number, optional fraction, unit) in uint64 nanoseconds. *)
Definition parse_component (s : string) : option (Z * string) :=
  match s with
  | EmptyString => None
  | String c _ =>
    if negb (bool_decide (c = "."%char) || bool_decide (is_Some (digit_of c))) then None else
    '(v, s1) ← leadingInt 0 s;
    let pre := negb (bool_decide (s1 = s)) in
    let '(f, scale, s2, post) :=
      match s1 with
      | String c1 s1' =>
        if decide (c1 = "."%char) then
          let '(f, scale, s2) := leadingFraction 0 (f64_of_Z 1) false s1' in
          (f, scale, s2, negb (bool_decide (s2 = s1')))
        else (0, f64_of_Z 1, s1, false)
      | EmptyString => (0, f64_of_Z 1, s1, false)
      end in
    if negb pre && negb post then None else
    let '(u, s3) := leadingUnit s2 in
    if decide (u = EmptyString) then None else
    unit ← unitMap u;
    if two63 / unit <? v then None else
    let v := v * unit in
    let v := if 0 <? f
             then v + f64_trunc (f64_mul (f64_of_Z f) (f64_div (f64_of_Z unit) scale))
             else v in
    if two63 <? v then None else Some (v, s3)
  end.

(** The sum of the components; each one consumes a byte, so the length of the
    string is fuel enough. *)
Fixpoint parse_components (fuel : nat) (s : string) (d : Z) : option Z :=
  match s, fuel with
  | EmptyString, _ => Some d
  | _, O => None
  | _, S fuel =>
    '(v, s') ← parse_component s;
    let d := (d + v) `mod` two64 in
    if two63 <? d then None else parse_components fuel s' d
  end.

Definition parse_sign (s : string) : bool * string :=
  match s with
  | String c s' =>
    if decide (c = "-"%char) then (true, s')
    else if decide (c = "+"%char) then (false, s')
    else (false, s)
  | EmptyString => (false, s)
  end.

Definition ParseDuration (s : string) : option Z :=
  let '(neg, s1) := parse_sign s in
  if decide (s1 = "0") then Some 0 else
  if decide (s1 = EmptyString) then None else
  d ← parse_components (String.length s1) s1 0;
  if (neg : bool) then Some (wrap64 (- wrap64 d))
  else if max_int64 <? d then None else Some d.

(** ** Lemmas *)

Lemma time_Sub_bounds t u : in_int64 (time_Sub t u).
Proof. unfold time_Sub, in_int64, min_int64, max_int64, two63. lia. Qed.

Lemma time_Sub_exact t u : in_int64 (t - u) → time_Sub t u = t - u.
Proof. unfold time_Sub, in_int64. lia. Qed.

Lemma time_Sub_mono t t' u : t ≤ t' → time_Sub t u ≤ time_Sub t' u.
Proof. unfold time_Sub. lia. Qed.

Lemma leadingInt_shrinks s x v r :
  leadingInt x s = Some (v, r) → (String.length r ≤ String.length s)%nat.
Proof.
  revert x. induction s as [|c s IH]; intros x; simpl; [by intros [= <- <-]|].
  repeat case_match; intros Hs; simplify_eq/=; try lia. apply IH in Hs. lia.
Qed.

Lemma leadingFraction_shrinks s x scale o v sc r :
  leadingFraction x scale o s = (v, sc, r) → (String.length r ≤ String.length s)%nat.
Proof.
  revert x scale o. induction s as [|c s IH]; intros x scale o; simpl;
    [by intros [= <- <- <-]|].
  repeat case_match; intros Hs; simplify_eq/=; try lia; apply IH in Hs; lia.
Qed.

Lemma leadingUnit_shrinks s u r :
  leadingUnit s = (u, r) → u ≠ EmptyString → (String.length r < String.length s)%nat.
Proof.
  revert u r. induction s as [|c s IH]; intros u r; simpl; [by intros [= <- <-]|].
  case_match; [by intros [= <- <-]|].
  destruct (leadingUnit s) as [u' r'] eqn:Hu. intros [= <- <-] _.
  destruct (decide (u' = EmptyString)) as [->|Hne].
  - enough (r' = s) by (subst; simpl; lia).
    destruct s as [|c' s']; simpl in Hu; [by simplify_eq|].
    repeat case_match; by simplify_eq.
  - specialize (IH _ _ eq_refl Hne). lia.
Qed.

#[local] Arguments leadingInt _ _ : simpl never.
#[local] Arguments leadingFraction _ _ _ _ : simpl never.
#[local] Arguments leadingUnit _ : simpl never.

(** Every component consumes at least a byte. *)
Lemma parse_component_shrinks s v r :
  parse_component s = Some (v, r) → (String.length r < String.length s)%nat.
Proof.
  destruct s as [|c s]; [done|]. unfold parse_component. intros Hp.
  repeat (case_match; simplify_option_eq; try done);
  repeat match goal with
  | H : leadingInt _ _ = Some _ |- _ => apply leadingInt_shrinks in H
  | H : leadingFraction _ _ _ _ = _ |- _ => apply leadingFraction_shrinks in H
  | H : leadingUnit _ = _ |- _ => apply leadingUnit_shrinks in H; [|done]
  end; cbn [String.length] in *; lia.
Qed.

(** More fuel than the length of the string changes nothing. *)
Lemma parse_components_fuel n m s d :
  (String.length s ≤ n)%nat → (String.length s ≤ m)%nat →
  parse_components n s d = parse_components m s d.
Proof.
  revert m s d. induction n as [|n IH]; intros m s d Hn Hm.
  - destruct s; simpl in *; [by destruct m|lia].
  - destruct s as [|c s]; [by destruct m|]. destruct m as [|m]; [simpl in *; lia|].
    cbn [parse_components].
    destruct (parse_component (String c s)) as [[v r]|] eqn:Hp; [|done]; cbn.
    apply parse_component_shrinks in Hp. simpl in *.
    case_match; [done|]. apply IH; lia.
Qed.

Lemma parse_components_nonneg n s d d' :
  0 ≤ d → parse_components n s d = Some d' → 0 ≤ d'.
Proof.
  revert s d. induction n as [|n IH]; intros [|c s] d Hd; cbn [parse_components];
    [by intros [= <-]|done|by intros [= <-]|].
  destruct (parse_component _) as [[v r]|]; cbn; [|done].
  case_match; [done|]. apply IH, Z.mod_pos_bound. done.
Qed.

Lemma ParseDuration_bounds s d : ParseDuration s = Some d → in_int64 d.
Proof.
  unfold ParseDuration. destruct (parse_sign s) as [neg s1].
  case_decide; [by intros [= <-]|]. case_decide; [done|].
  destruct (parse_components _ _ _) as [d0|] eqn:Hp; cbn; [|done].
  apply parse_components_nonneg in Hp; [|done].
  destruct neg; [intros [= <-]; apply wrap64_bounds|].
  case_match eqn:Hlt; intros [= <-]. apply Z.ltb_ge in Hlt.
  unfold in_int64, min_int64, two63. lia.
Qed.

#[export] Hint Resolve time_Sub_bounds ParseDuration_bounds : goctopus.

(** ** Checks on concrete durations *)

Example parse_30m : ParseDuration "30m" = Some (30 * Minute).
Proof. reflexivity. Qed.
Example parse_mixed : ParseDuration "1h15m30.918273645s" = Some 4530918273645.
Proof. vm_compute. reflexivity. Qed.
Example parse_frac : ParseDuration "-1.5h" = Some (- (90 * Minute)).
Proof. vm_compute. reflexivity. Qed.
Example parse_micro : ParseDuration "3µs" = Some 3000.
Proof. reflexivity. Qed.
Example parse_banana : ParseDuration "banana" = None.
Proof. reflexivity. Qed.
Example parse_no_unit : ParseDuration "30" = None.
Proof. reflexivity. Qed.
Example parse_zero : ParseDuration "0" = Some 0.
Proof. reflexivity. Qed.
Example parse_overflow : ParseDuration "9223372036854775808ns" = None.
Proof. reflexivity. Qed.
Example parse_min : ParseDuration "-9223372036854775808ns" = Some min_int64.
Proof. reflexivity. Qed.

(** A duration that parses fits an int64 count of nanoseconds, and the loop over
    its components is not cut short by its fuel. *)
Theorem ParseDuration_sound s d :
  ParseDuration s = Some d →
  min_int64 ≤ d ≤ max_int64 ∧
  ∀ n, (String.length (parse_sign s).2 ≤ n)%nat →
    parse_components n (parse_sign s).2 0 =
    parse_components (String.length (parse_sign s).2) (parse_sign s).2 0.
Proof.
  intros Hd. split; [by apply ParseDuration_bounds in Hd|].
  intros n Hn. by apply parse_components_fuel.
Qed.

Lemma ParseDuration_sound_witness :
  min_int64 ≤ 4530918273645 ≤ max_int64 ∧
  ∀ n, (String.length (parse_sign "1h15m30.918273645s").2 ≤ n)%nat →
    parse_components n (parse_sign "1h15m30.918273645s").2 0 =
    parse_components (String.length (parse_sign "1h15m30.918273645s").2)
      (parse_sign "1h15m30.918273645s").2 0.
Proof. apply ParseDuration_sound. vm_compute. reflexivity. Defined.
