(* ===== verification/Float64.v ===== *)
(** * Rounding of [float64]

    What the arithmetic of [GoTime] computes on numbers that are not negative:
    the exact result, rounded to the nearest of the binary64 numbers.  Rounding
    is a relation on integers: [fval] counts a number in units of [2^-1074],
    which every finite number is a multiple of, and an exact result is a fraction
    in units of [2^-2148], so that products need no scaling. *)
From stdpp Require Import base numbers.
From Corelib Require Import SpecFloat.
From S2P Require Import Prelude GoTime.

#[local] Open Scope Z_scope.

(** ** Values *)

(** One, in units of a float. *)
Definition unit : Z := 2 ^ 1074.

(** Where infinity is counted: the first power of two past the numbers. *)
Definition top : Z := 2 ^ 2098.

(** A number that is not negative: zero, a canonical mantissa, or infinity. *)
Definition nonneg (x : float64) : Prop :=
  match x with
  | S754_zero s | S754_infinity s => s = false
  | S754_finite s m e => s = false ∧ bounded 53 1024 m e = true
  | S754_nan => False
  end.

Definition finite (x : float64) : Prop :=
  match x with S754_zero _ | S754_finite _ _ _ => True | _ => False end.

Definition fval (x : float64) : Z :=
  match x with
  | S754_finite _ m e => Z.pos m * 2 ^ (e + 1074)
  | S754_infinity _ => top
  | _ => 0
  end.

(** ** The specification of rounding

    [r] is the fraction [num / den] rounded to the nearest number, half-way cases
    to the even mantissa.  Near [num / den] the numbers are the multiples of
    [2^k]: [k] is 0, or the mantissas have 53 bits. *)

Definition grid (k num den : Z) : Prop :=
  0 ≤ k ∧ (k = 0 ∨ 2 ^ 52 * 2 ^ (k + 1074) * den ≤ num) ∧ num < 2 ^ 53 * 2 ^ (k + 1074) * den.

(** The integer next to [num / den], or the even one of the two. *)
Definition nearest (R num den : Z) : Prop :=
  2 * Z.abs (R * den - num) ≤ den ∧ (2 * Z.abs (R * den - num) = den → Z.Even R).

Definition rounds (num den r : Z) : Prop :=
  ∃ k R, grid k num den ∧ nearest R num (2 ^ (k + 1074) * den) ∧ r = R * 2 ^ k.

(** The float that holds it: infinity when it is too large. *)
Definition rounds_to (num den : Z) (x : float64) : Prop :=
  nonneg x ∧ ∃ r, rounds num den r ∧ fval x = Z.min r top.

Lemma unit_pos : 0 < unit.
Proof. done. Qed.

Lemma pow2_pos k : 0 ≤ k → 0 < 2 ^ k.
Proof. intros. by apply Z.pow_pos_nonneg. Qed.

(** *** It is monotone *)

Lemma nearest_mono R R' num num' den den' :
  0 < den → 0 < den' → nearest R num den → nearest R' num' den' →
  num * den' ≤ num' * den → R ≤ R'.
Proof.
  intros Hd Hd' [H1 E1] [H2 E2] Hle. destruct (decide (R ≤ R')) as [|Hgt]; [done|exfalso].
  assert ((2 * R - 1) * den ≤ 2 * num) as Ha by lia.
  assert (2 * num' ≤ (2 * R' + 1) * den') as Hb by lia.
  assert ((2 * R - 1) * (den * den') ≤ (2 * R' + 1) * (den * den')) as Hc by nia.
  apply Z.mul_le_mono_pos_r in Hc; [|nia].
  assert (R = R' + 1) as -> by lia. clear Hc Hgt.
  assert ((2 * R' + 1) * den ≤ 2 * num) as Ha' by lia.
  apply (Z.mul_le_mono_nonneg_r _ _ den') in Ha'; [|lia].
  apply (Z.mul_le_mono_nonneg_r _ _ den) in Hb; [|lia].
  assert (2 * num * den' = (2 * R' + 1) * den * den') as Hn%Z.mul_reg_r by lia; [|lia].
  assert (2 * num' * den = (2 * R' + 1) * den' * den) as Hn'%Z.mul_reg_r by lia; [|lia].
  destruct E1 as [a Ea]; [lia|]. destruct E2 as [b Eb]; lia.
Qed.

(** The mantissa of a grid. *)
Lemma nearest_bounds k R num den :
  0 < den → grid k num den → nearest R num (2 ^ (k + 1074) * den) →
  0 ≤ R ≤ 2 ^ 53 ∧ (k = 0 ∨ 2 ^ 52 ≤ R) ∨ num < 0.
Proof.
  intros Hd (Hk & Hlow & Hup) [Hn _]. destruct (decide (num < 0)); [by right|left].
  pose proof (pow2_pos (k + 1074) ltac:(lia)) as Hg. set (g := 2 ^ (k + 1074)) in *.
  change (2 ^ 53) with (2 * 2 ^ 52) in *. set (P := 2 ^ 52) in *. clearbody g P.
  rewrite <-!Z.mul_assoc in Hup, Hlow. assert (0 < g * den) as HG by nia.
  set (G := g * den) in *. clearbody G.
  assert (0 < (2 * R + 1) * G + 1) by lia. assert ((2 * R - 1) * G ≤ 2 * num) by lia.
  split; [split; [nia|]|].
  - assert ((2 * R - 1) * G < (4 * P) * G) as Hlt by lia. apply Z.mul_lt_mono_pos_r in Hlt; lia.
  - destruct Hlow as [->|Hlow]; [by left|right].
    assert ((2 * P) * G ≤ (2 * R + 1) * G) as Hle by lia. apply Z.mul_le_mono_pos_r in Hle; lia.
Qed.

Lemma rounds_mono num den r num' den' r' :
  0 < den → 0 < den' → 0 ≤ num → rounds num den r → rounds num' den' r' →
  num * den' ≤ num' * den → r ≤ r'.
Proof.
  intros Hd Hd' Hnum (k & R & Hg & Hn & ->) (k' & R' & Hg' & Hn' & ->) Hle.
  assert (0 ≤ num') as Hnum' by nia.
  destruct (nearest_bounds k R num den Hd Hg Hn) as [[HR Hlow]|]; [|lia].
  destruct (nearest_bounds k' R' num' den' Hd' Hg' Hn') as [[HR' Hlow']|]; [|lia].
  destruct Hg as (Hk & Hgl & Hgu), Hg' as (Hk' & Hgl' & Hgu').
  destruct (Z.lt_trichotomy k k') as [Hlt|[->|Hgt]].
  - destruct Hlow' as [|Hlow']; [lia|].
    transitivity (2 ^ 53 * 2 ^ k); [apply Z.mul_le_mono_nonneg_r; lia|].
    transitivity (2 ^ 52 * 2 ^ k'); [|apply Z.mul_le_mono_nonneg_r; lia].
    rewrite <-!Z.pow_add_r by lia. apply Z.pow_le_mono_r; lia.
  - apply Z.mul_le_mono_nonneg_r; [lia|].
    pose proof (pow2_pos (k' + 1074) ltac:(lia)) as Hg.
    set (g := 2 ^ (k' + 1074)) in *. clearbody g.
    apply (nearest_mono R R' num num' (g * den) (g * den')); [nia|nia|done|done|].
    apply (Z.mul_le_mono_nonneg_l _ _ g) in Hle; lia.
  - exfalso. destruct Hgl as [|Hgl]; [lia|].
    assert (2 ^ 53 * 2 ^ (k' + 1074) ≤ 2 ^ 52 * 2 ^ (k + 1074)) as Hpow.
    { rewrite <-!Z.pow_add_r by lia. apply Z.pow_le_mono_r; lia. }
    set (a := 2 ^ 53 * 2 ^ (k' + 1074)) in *. set (b := 2 ^ 52 * 2 ^ (k + 1074)) in *.
    clearbody a b. apply (Z.mul_le_mono_nonneg_r _ _ den') in Hgl; [|lia].
    apply (Z.mul_lt_mono_pos_r den) in Hgu'; [|lia].
    assert (b * (den * den') < a * (den * den')) as Hlt%Z.mul_lt_mono_pos_r by lia; nia.
Qed.

(** *** What [SpecFloat] computes *)

Lemma digits2_pos_bounds p :
  2 ^ (Z.pos (digits2_pos p) - 1) ≤ Z.pos p < 2 ^ Z.pos (digits2_pos p).
Proof.
  induction p as [p IH|p IH|]; cbn [digits2_pos]; [| |done];
    rewrite Pos2Z.inj_succ, Z.pow_succ_r by lia;
    (replace (Z.succ (Z.pos (digits2_pos p)) - 1) with (Z.succ (Z.pos (digits2_pos p) - 1)) by lia);
    rewrite Z.pow_succ_r by lia; lia.
Qed.

Lemma Zdigits2_bounds q : 0 ≤ q → 0 ≤ Zdigits2 q ∧ q < 2 ^ Zdigits2 q ∧
  (0 < q → 0 < Zdigits2 q ∧ 2 ^ (Zdigits2 q - 1) ≤ q).
Proof.
  destruct q as [|p|p]; [done| |lia]. intros _. pose proof (digits2_pos_bounds p).
  simpl Zdigits2. split_and!; lia.
Qed.

Lemma Zdigits2_unique q d : 0 < d → 2 ^ (d - 1) ≤ q < 2 ^ d → Zdigits2 q = d.
Proof.
  intros Hd Hq. assert (0 < q) as H0 by (pose proof (pow2_pos (d - 1)); lia).
  destruct (Zdigits2_bounds q) as (? & Hu & Hl); [lia|]. destruct (Hl H0) as [? Hl'].
  assert (d - 1 < Zdigits2 q) by (apply (Z.pow_lt_mono_r_iff 2); lia).
  assert (Zdigits2 q - 1 < d) by (apply (Z.pow_lt_mono_r_iff 2); lia). lia.
Qed.

(** The truncated fraction [num / den] with its round and sticky bits. *)
Definition shifted (num den : Z) : shr_record :=
  Build_shr_record (num / den) (den <=? 2 * (num `mod` den))
    (negb (2 * (num `mod` den) =? 0) && negb (2 * (num `mod` den) =? den)).

Lemma shr_1_shifted num den : 0 ≤ num → 0 < den → shr_1 (shifted num den) = shifted num (2 * den).
Proof.
  intros Hn Hd. unfold shifted.
  assert (num / (2 * den) = (num / den) / 2) as Hq by (rewrite Z.mul_comm, Z.div_div; lia).
  assert (num `mod` (2 * den) = num `mod` den + den * ((num / den) `mod` 2)) as Hr
    by (rewrite (Z.mul_comm 2), Z.rem_mul_r; lia).
  pose proof (Z.div_pos num den Hn Hd) as Hpos. pose proof (Z.mod_pos_bound num den Hd) as Hb.
  set (m := num / den) in *. set (c := num `mod` den) in *. rewrite Hq, Hr. clearbody m c.
  assert (∃ h b, m = 2 * h + b ∧ (b = 0 ∨ b = 1) ∧ 0 ≤ h) as (h & b & Hm & Hbit & Hh).
  { exists (m / 2), (m `mod` 2). pose proof (Z.mod_pos_bound m 2).
    split_and!; [apply Z.div_mod; lia|lia|apply Z.div_pos; lia]. }
  assert (m / 2 = h) as -> by (symmetry; apply (Z.div_unique m 2 h b); lia).
  assert (m `mod` 2 = b) as -> by (symmetry; apply (Z.mod_unique m 2 h b); lia).
  assert (shr_1 (Build_shr_record m (den <=? 2 * c) (negb (2 * c =? 0) && negb (2 * c =? den))) =
    Build_shr_record h (b =? 1)
      ((den <=? 2 * c) || negb (2 * c =? 0) && negb (2 * c =? den))) as ->.
  { subst m. destruct h as [|h|], Hbit as [-> | ->]; try lia; reflexivity. }
  f_equal.
  - destruct Hbit as [-> | ->]; simpl; symmetry; [apply Z.leb_gt|apply Z.leb_le]; lia.
  - apply eq_true_iff_eq. rewrite orb_true_iff, !andb_true_iff, !negb_true_iff, Z.leb_le, !Z.eqb_neq.
    destruct Hbit as [-> | ->]; lia.
Qed.

Lemma iter_shifted p num den :
  0 ≤ num → 0 < den → SpecFloat.iter_pos shr_1 p (shifted num den) = shifted num (den * 2 ^ Z.pos p).
Proof.
  revert den. induction p as [p IH|p IH|]; intros den Hn Hd; cbn [SpecFloat.iter_pos];
    [pose proof (pow2_pos (Z.pos p) ltac:(lia)) as Hp..|].
  - rewrite shr_1_shifted by lia. rewrite IH by lia. rewrite IH by nia.
    f_equal. rewrite (Pos2Z.inj_xI p), Z.add_1_r, Z.pow_succ_r, Z.pow_twice_r by lia. lia.
  - rewrite IH by lia. rewrite IH by nia. f_equal. rewrite (Pos2Z.inj_xO p), Z.pow_twice_r. lia.
  - rewrite shr_1_shifted by done. f_equal. lia.
Qed.

Lemma shr_shifted num den e n :
  0 ≤ num → 0 < den → 0 ≤ n → shr (shifted num den) e n = (shifted num (den * 2 ^ n), e + n).
Proof.
  intros Hn Hd Hpos. destruct n as [|p|p]; [|by simpl; rewrite iter_shifted|lia].
  simpl. by rewrite Z.mul_1_r, Z.add_0_r.
Qed.

Lemma nearest_even num den :
  0 ≤ num → 0 < den →
  nearest (round_nearest_even (shr_m (shifted num den)) (loc_of_shr_record (shifted num den))) num den.
Proof.
  intros Hn Hd. unfold shifted. simpl shr_m. pose proof (Z.div_mod num den ltac:(lia)) as Hdm.
  pose proof (Z.mod_pos_bound num den Hd) as Hb.
  set (q := num / den) in *. set (c := num `mod` den) in *. clearbody q c. subst num.
  unfold nearest.
  replace (q * den - (den * q + c)) with (- c) by lia.
  replace ((q + 1) * den - (den * q + c)) with (den - c) by lia.
  destruct (Z.leb_spec den (2 * c)); destruct (Z.eqb_spec (2 * c) 0);
    destruct (Z.eqb_spec (2 * c) den); simpl loc_of_shr_record; cbn [round_nearest_even]; try lia;
    try (split; [|intros]; lia).
  destruct (Z.even q) eqn:Heven.
  - split; [lia|]. intros _. by apply Z.even_spec.
  - split; [lia|]. intros _. apply Z.Even_succ, Z.odd_spec. by rewrite <-Z.negb_even, Heven.
Qed.

Lemma nearest_scale c R num den : 0 < c → nearest R num den → nearest R (num * c) (den * c).
Proof.
  intros Hc [H1 H2]. unfold nearest.
  replace (R * (den * c) - num * c) with ((R * den - num) * c) by lia.
  rewrite Z.abs_mul, (Z.abs_eq c) by lia. split; [nia|]. intros He. apply H2. nia.
Qed.

(** The exponent the rounding of a [q] at exponent [e] takes. *)
Abbreviation fexp64 := (fexp 53 1024).

Lemma fexp64_cases e : fexp64 e = Z.max (e - 53) (-1074).
Proof. reflexivity. Qed.

(** The truncation of [num / den] at exponent [e] lies on the grid of the
    exponent [fexp64] gives it. *)
Lemma fexp_grid num den e e' :
  0 ≤ num → 0 < den → e' = fexp64 (Zdigits2 (num / den) + e) → -2148 ≤ e ≤ e' →
  grid (e' + 1074) (num * 2 ^ (e + 2148)) den.
Proof.
  intros Hn Hd He' He. rewrite fexp64_cases in He'.
  pose proof (Z.div_pos num den Hn Hd) as Hq. pose proof (Z.div_mod num den ltac:(lia)) as Hdm.
  pose proof (Z.mod_pos_bound num den Hd) as Hr.
  destruct (Zdigits2_bounds (num / den) Hq) as (Hd0 & Hup & Hlow).
  assert (num / den = 0 → Zdigits2 (num / den) = 0) as H0 by (by intros ->).
  set (q := num / den) in *. set (d := Zdigits2 q) in *. clearbody q d.
  pose proof (pow2_pos (e + 2148) ltac:(lia)) as Hc.
  assert (2 ^ (e' + 1074 + 1074) = 2 ^ (e' - e) * 2 ^ (e + 2148)) as Hpow
    by (rewrite <-Z.pow_add_r by lia; f_equal; lia).
  unfold grid. rewrite Hpow. set (c := 2 ^ (e + 2148)) in *. clearbody c.
  split_and!; [lia| |].
  - destruct (decide (e' = -1074)) as [->|Hne]; [by left|right].
    destruct (Hlow ltac:(lia)) as [Hdpos Hl].
    assert (2 ^ (d - 1) = 2 ^ 52 * 2 ^ (e' - e)) as Hd1
      by (rewrite <-Z.pow_add_r by lia; f_equal; lia).
    assert (2 ^ (d - 1) * den ≤ num) by nia. rewrite Z.mul_assoc, <-Hd1. nia.
  - assert (2 ^ d ≤ 2 ^ 53 * 2 ^ (e' - e)) as Hd1
      by (rewrite <-Z.pow_add_r by lia; apply Z.pow_le_mono_r; lia).
    set (w := 2 ^ 53 * 2 ^ (e' - e)) in *. rewrite Z.mul_assoc. fold w. clearbody w.
    assert (num < w * den) by nia. nia.
Qed.

(** The second shift of the rounding only renames the mantissa [2 ^ 53]. *)
Lemma renormalise R e' :
  0 ≤ R ≤ 2 ^ 53 → -1074 ≤ e' → (e' = -1074 ∨ 2 ^ 52 ≤ R) →
  ∃ R2 e2, shr_fexp 53 1024 R e' loc_Exact = (Build_shr_record R2 false false, e2) ∧
    0 ≤ R2 ∧ R2 * 2 ^ (e2 + 1074) = R * 2 ^ (e' + 1074) ∧ -1074 ≤ e2 ∧
    fexp64 (Zdigits2 R2 + e2) = e2 ∧ R2 < 2 ^ 53 ∧ (e2 = -1074 ∨ 2 ^ 52 ≤ R2).
Proof.
  intros HR He Hnorm. unfold shr_fexp. simpl shr_record_of_loc.
  destruct (decide (R = 2 ^ 53)) as [->|Hne].
  - exists (2 ^ 52), (e' + 1). change (Zdigits2 (2 ^ 53)) with 54.
    replace (fexp64 (54 + e') - e') with 1 by (rewrite fexp64_cases; lia).
    change (Zdigits2 (2 ^ 52)) with 53. rewrite fexp64_cases.
    split_and!; [reflexivity|lia| |lia|lia|lia|lia].
    replace (e' + 1 + 1074) with (Z.succ (e' + 1074)) by lia. rewrite Z.pow_succ_r by lia. lia.
  - destruct (Zdigits2_bounds R) as (Hd & Hup & Hlow); [lia|].
    assert (Zdigits2 R ≤ 53) as Hle.
    { destruct (decide (0 < R)) as [HR0|]; [|by replace R with 0 by lia].
      destruct (Hlow HR0) as [Hdp Hl]. assert (Zdigits2 R - 1 < 53); [|lia].
      apply (Z.pow_lt_mono_r_iff 2); lia. }
    assert (fexp64 (Zdigits2 R + e') = e') as Hf.
    { rewrite fexp64_cases. destruct Hnorm as [->|Hn]; [lia|].
      assert (Zdigits2 R = 53) as ->; [|lia]. apply Zdigits2_unique; [lia|]. simpl (53 - 1). lia. }
    exists R, e'. rewrite Hf, Z.sub_diag. split_and!; [reflexivity|lia..|done|lia|done].
Qed.

Lemma round_aux_spec num den e loc :
  0 ≤ num → 0 < den → shr_record_of_loc (num / den) loc = shifted num den →
  -2148 ≤ e ≤ fexp64 (Zdigits2 (num / den) + e) →
  rounds_to (num * 2 ^ (e + 2148)) den (binary_round_aux 53 1024 false (num / den) e loc).
Proof.
  intros Hn Hd Hrec He. set (e' := fexp64 (Zdigits2 (num / den) + e)) in *.
  pose proof (fexp_grid num den e e' Hn Hd eq_refl He) as Hgrid.
  assert (-1074 ≤ e') as He' by (subst e'; rewrite fexp64_cases; lia).
  unfold binary_round_aux. unfold shr_fexp at 1. fold e'.
  rewrite Hrec, shr_shifted by lia. replace (e + (e' - e)) with e' by lia.
  pose proof (pow2_pos (e' - e) ltac:(lia)) as Hs.
  pose proof (nearest_even num (den * 2 ^ (e' - e)) Hn ltac:(nia)) as Hnear.
  set (rec := shifted num (den * 2 ^ (e' - e))) in *.
  set (R := round_nearest_even (shr_m rec) (loc_of_shr_record rec)) in *. clearbody R. clear rec.
  apply (nearest_scale (2 ^ (e + 2148))) in Hnear; [|apply pow2_pos; lia].
  replace (den * 2 ^ (e' - e) * 2 ^ (e + 2148)) with (2 ^ (e' + 1074 + 1074) * den) in Hnear
    by (rewrite <-Z.mul_assoc, <-Z.pow_add_r by lia; rewrite Z.mul_comm; do 2 f_equal; lia).
  destruct (nearest_bounds _ _ _ _ Hd Hgrid Hnear) as [[HR Hnorm]|Hneg];
    [|pose proof (pow2_pos (e + 2148)); nia].
  destruct (renormalise R e') as (R2 & e2 & -> & HR2 & Heq & He2 & Hcan & Hlt & Hnorm2);
    [done|done|destruct Hnorm; [left; lia|by right]|].
  assert (rounds (num * 2 ^ (e + 2148)) den (R2 * 2 ^ (e2 + 1074))) as Hr
    by (rewrite Heq; by exists (e' + 1074), R).
  simpl shr_m. destruct R2 as [|p|p]; [| |lia].
  - split; [done|]. exists 0. split; [done|]. reflexivity.
  - pose proof (pow2_pos (e2 + 1074) ltac:(lia)) as Hp. destruct (Z.leb_spec e2 (1024 - 53)).
    + split.
      { split; [done|]. unfold bounded, canonical_mantissa. apply andb_true_iff.
        split; [by apply Z.eqb_eq|by apply Z.leb_le]. }
      eexists; split; [exact Hr|]. simpl fval. symmetry. apply Z.min_l. unfold top.
      transitivity (2 ^ 53 * 2 ^ (e2 + 1074)); [apply Z.mul_le_mono_nonneg_r; lia|].
      rewrite <-Z.pow_add_r by lia. apply Z.pow_le_mono_r; lia.
    + split; [done|]. eexists; split; [exact Hr|]. simpl fval. symmetry. apply Z.min_r. unfold top.
      transitivity (2 ^ 52 * 2 ^ (e2 + 1074)); [|apply Z.mul_le_mono_nonneg_r; lia].
      rewrite <-Z.pow_add_r by lia. apply Z.pow_le_mono_r; lia.
Qed.

(** ** The operations *)

Lemma bounded_facts m e :
  bounded 53 1024 m e = true →
  -1074 ≤ e ≤ 971 ∧ Z.pos m < 2 ^ 53 ∧ (e = -1074 ∨ 2 ^ 52 ≤ Z.pos m).
Proof.
  unfold bounded, canonical_mantissa. intros [Hc%Z.eqb_eq He%Z.leb_le]%andb_true_iff.
  rewrite fexp64_cases in Hc. destruct (digits2_pos_bounds m) as [Hl Hu].
  set (d := Z.pos (digits2_pos m)) in *. split_and!; [lia|lia| |].
  - apply (Z.lt_le_trans _ _ _ Hu). apply Z.pow_le_mono_r; lia.
  - destruct (decide (e = -1074)) as [|Hne]; [by left|right].
    etransitivity; [|exact Hl]. apply Z.pow_le_mono_r; lia.
Qed.

Lemma shifted_exact m : shr_record_of_loc (m / 1) loc_Exact = shifted m 1.
Proof. unfold shifted. by rewrite Z.mod_1_r. Qed.

Lemma round_exact_spec m e :
  0 ≤ m → -2148 ≤ e ≤ fexp64 (Zdigits2 m + e) →
  rounds_to (m * 2 ^ (e + 2148)) 1 (binary_round_aux 53 1024 false m e loc_Exact).
Proof.
  intros Hm He. pose proof (round_aux_spec m 1 e loc_Exact) as H. rewrite Z.div_1_r in H.
  apply H; [done|done| |done]. by rewrite <-shifted_exact, Z.div_1_r.
Qed.

Lemma shl_align_spec m e e' :
  (shl_align m e e').2 = Z.min e e' ∧ Z.pos (shl_align m e e').1 = Z.pos m * 2 ^ (e - Z.min e e').
Proof.
  unfold shl_align. destruct (e' - e) as [|p|p] eqn:Hd; simpl.
  - replace (Z.min e e') with e by lia. rewrite Z.sub_diag. lia.
  - replace (Z.min e e') with e by lia. rewrite Z.sub_diag. lia.
  - replace (Z.min e e') with e' by lia. split; [done|]. replace (e - e') with (Z.pos p) by lia.
    clear Hd. rewrite <-Z.shiftl_mul_pow2 by lia. simpl.
    by rewrite (Pos.iter_swap_gen _ _ Z.pos xO (Z.mul 2)).
Qed.

Lemma Zdigits2_shift m n : 0 < m → 0 ≤ n → Zdigits2 (m * 2 ^ n) = Zdigits2 m + n.
Proof.
  intros Hm Hn. destruct (Zdigits2_bounds m) as (Hd & Hu & Hl); [lia|].
  destruct (Hl Hm) as [Hdp Hl']. pose proof (pow2_pos n Hn) as Hp.
  apply Zdigits2_unique; [lia|].
  replace (Zdigits2 m + n - 1) with (Zdigits2 m - 1 + n) by lia.
  rewrite !Z.pow_add_r by lia. nia.
Qed.

Lemma binary_round_spec m e :
  -1074 ≤ e → rounds_to (Z.pos m * 2 ^ (e + 2148)) 1 (binary_round 53 1024 false m e).
Proof.
  intros He. unfold binary_round.
  destruct (shl_align_spec m e (fexp64 (Z.pos (digits2_pos m) + e))) as [Hez Hmz].
  destruct (shl_align _ _ _) as [mz ez]. simpl in Hez, Hmz.
  set (e' := fexp64 (Z.pos (digits2_pos m) + e)) in *.
  assert (-1074 ≤ e') by (subst e'; rewrite fexp64_cases; lia).
  replace (Z.pos m * 2 ^ (e + 2148)) with (Z.pos mz * 2 ^ (ez + 2148)).
  - apply round_exact_spec; [lia|]. split; [lia|].
    rewrite Hmz, Zdigits2_shift by lia. simpl (Zdigits2 (Z.pos m)).
    replace (Z.pos (digits2_pos m) + (e - Z.min e e') + ez) with (Z.pos (digits2_pos m) + e) by lia.
    fold e'. lia.
  - rewrite Hmz, <-Z.mul_assoc, <-Z.pow_add_r by lia. do 2 f_equal. lia.
Qed.

Lemma rounds_zero den : 0 < den → rounds 0 den 0.
Proof.
  intros Hd. exists 0, 0. split_and!; [|split; [lia|]|done].
  - split; [done|]. split; [by left|]. apply Z.mul_pos_pos; [|done]. done.
  - intros _. by exists 0.
Qed.

Lemma normalize_spec m e :
  0 ≤ m → -1074 ≤ e → rounds_to (m * 2 ^ (e + 2148)) 1 (binary_normalize 53 1024 m e false).
Proof.
  intros Hm He. destruct m as [|p|p]; [|by apply binary_round_spec|lia].
  split; [done|]. exists 0. split; [by apply rounds_zero|done].
Qed.

Lemma f64_of_Z_spec n : 0 ≤ n → rounds_to (n * 2 ^ 2148) 1 (f64_of_Z n).
Proof. intros Hn. by apply (normalize_spec n 0). Qed.

Lemma fval_nonneg x : 0 ≤ fval x.
Proof.
  destruct x as [s|s| |s m e]; cbn [fval]; [done|done|done|].
  apply Z.mul_nonneg_nonneg; [lia|apply Z.pow_nonneg; lia].
Qed.

Lemma rounds_scale c num den r : 0 < c → rounds num den r → rounds (num * c) (den * c) r.
Proof.
  intros Hc (k & R & (Hk & Hl & Hu) & Hn & ->). exists k, R. split_and!; [|..|done].
  - split_and!; [done| |nia]. destruct Hl as [|Hl]; [by left|right; nia].
  - rewrite Z.mul_assoc. by apply nearest_scale.
Qed.

(** A number is its own rounding. *)
Lemma rounds_self x : nonneg x → finite x → rounds (fval x * unit) 1 (fval x).
Proof.
  destruct x as [s|s| |s m e]; simpl; try done; [intros _ _; by apply rounds_zero|].
  intros [_ Hb] _. apply bounded_facts in Hb as (He & Hm & Hl).
  exists (e + 1074), (Z.pos m). unfold unit.
  assert (2 ^ (e + 1074 + 1074) = 2 ^ (e + 1074) * 2 ^ 1074) as Hp by (apply Z.pow_add_r; lia).
  pose proof (pow2_pos (e + 1074) ltac:(lia)). set (g := 2 ^ (e + 1074)) in *.
  split_and!; [|split|done].
  - unfold grid. rewrite Hp. clearbody g. split_and!; [lia| |].
    + destruct Hl as [->|Hl]; [by left|right]. nia.
    + set (u := 2 ^ 1074) in *. assert (0 < u) by done. clearbody u. nia.
  - rewrite Hp. clearbody g. lia.
  - rewrite Hp. clearbody g. lia.
Qed.

Lemma rounds_to_self x : nonneg x → finite x → rounds_to (fval x * unit) 1 x.
Proof.
  intros Hx Hf. split; [done|]. exists (fval x). split; [by apply rounds_self|].
  symmetry. apply Z.min_l. destruct x as [s|s| |s m e]; simpl; try done.
  destruct Hx as [_ Hb]. apply bounded_facts in Hb as (He & Hm & _). unfold top.
  transitivity (2 ^ 53 * 2 ^ (e + 1074)); [apply Z.mul_le_mono_nonneg_r; lia|].
  rewrite <-Z.pow_add_r by lia. apply Z.pow_le_mono_r; lia.
Qed.

(** The mantissas of a sum, at the smaller exponent. *)
Lemma aligned m e e' :
  -1074 ≤ e → -1074 ≤ e' →
  Z.pos (shl_align m e (Z.min e e')).1 * 2 ^ (Z.min e e' + 1074) = Z.pos m * 2 ^ (e + 1074).
Proof.
  intros He He'. destruct (shl_align_spec m e (Z.min e e')) as [_ ->].
  rewrite Z.min_assoc, Z.min_id, <-Z.mul_assoc, <-Z.pow_add_r by lia. do 2 f_equal. lia.
Qed.

Lemma f64_add_spec x y :
  nonneg x → nonneg y → finite x → finite y →
  rounds_to ((fval x + fval y) * unit) 1 (f64_add x y).
Proof.
  intros Hx Hy Fx Fy. destruct x as [s|s| |s m e]; try done; destruct y as [s'|s'| |s' m' e']; try done.
  - simpl in Hx, Hy. subst. by apply rounds_to_self.
  - simpl in Hx. subst. by apply rounds_to_self.
  - simpl in Hy. subst. simpl fval. rewrite Z.add_0_r. by apply (rounds_to_self (S754_finite s m e)).
  - destruct Hx as [-> Hx], Hy as [-> Hy].
    apply bounded_facts in Hx as (He & _), Hy as (He' & _).
    pose proof (aligned m e e') as H1. pose proof (aligned m' e' e) as H2. rewrite (Z.min_comm e' e) in H2.
    unfold f64_add. cbn [SFadd cond_Zopp]. simpl fval.
    rewrite <-H1, <-H2 by lia. rewrite <-Z.mul_add_distr_r, <-Z.mul_assoc. unfold unit.
    rewrite <-Z.pow_add_r by lia. replace (Z.min e e' + 1074 + 1074) with (Z.min e e' + 2148) by lia.
    apply normalize_spec; lia.
Qed.

Lemma f64_sub_spec x y :
  nonneg x → nonneg y → finite x → finite y → fval y ≤ fval x →
  rounds_to ((fval x - fval y) * unit) 1 (f64_sub x y).
Proof.
  intros Hx Hy Fx Fy Hle.
  destruct x as [s|s| |s m e]; try done; destruct y as [s'|s'| |s' m' e']; try done.
  - simpl in Hx, Hy. subst. by apply (rounds_to_self (S754_zero false)).
  - exfalso. simpl in Hle. destruct Hy as [_ Hy]. apply bounded_facts in Hy as (He' & _).
    pose proof (pow2_pos (e' + 1074)). lia.
  - simpl in Hy. subst. simpl fval. rewrite Z.sub_0_r. by apply (rounds_to_self (S754_finite s m e)).
  - destruct Hx as [-> Hx], Hy as [-> Hy].
    apply bounded_facts in Hx as (He & _), Hy as (He' & _).
    pose proof (aligned m e e') as H1. pose proof (aligned m' e' e) as H2. rewrite (Z.min_comm e' e) in H2.
    unfold f64_sub. cbn [SFsub cond_Zopp]. simpl fval in *.
    rewrite <-H1, <-H2 in * by lia. pose proof (pow2_pos (Z.min e e' + 1074) ltac:(lia)).
    rewrite <-Z.mul_sub_distr_r, <-Z.mul_assoc. unfold unit.
    rewrite <-Z.pow_add_r by lia. replace (Z.min e e' + 1074 + 1074) with (Z.min e e' + 2148) by lia.
    apply normalize_spec; [|lia]. apply Z.mul_le_mono_pos_r in Hle; lia.
Qed.

Lemma f64_mul_spec x y :
  nonneg x → nonneg y → finite x → finite y → rounds_to (fval x * fval y) 1 (f64_mul x y).
Proof.
  intros Hx Hy Fx Fy.
  assert (∀ z, z = 0 → rounds_to z 1 (S754_zero false)) as H0.
  { intros z ->. split; [done|]. exists 0. split; [by apply rounds_zero|done]. }
  destruct x as [s|s| |s m e]; try done; destruct y as [s'|s'| |s' m' e']; try done;
    [simpl in Hx, Hy; destruct_and?; subst; apply H0; cbn [fval]; lia..|].
  destruct Hx as [-> Hx], Hy as [-> Hy].
  apply bounded_facts in Hx as (He & Hm & Hl), Hy as (He' & Hm' & Hl').
  simpl fval. replace (Z.pos m * 2 ^ (e + 1074) * (Z.pos m' * 2 ^ (e' + 1074)))
    with (Z.pos (m * m') * 2 ^ (e + e' + 2148)).
  - apply round_exact_spec; [done|]. split; [lia|]. rewrite fexp64_cases.
    destruct (Zdigits2_bounds (Z.pos (m * m'))) as (Hd0 & Hu & _); [lia|].
    destruct (decide (e = -1074 ∧ e' = -1074)) as [[-> ->]|Hne]; [lia|].
    assert (52 < Zdigits2 (Z.pos (m * m'))); [|lia].
    apply (Z.pow_lt_mono_r_iff 2); [lia|lia|]. apply (Z.le_lt_trans _ (Z.pos (m * m'))); [|done].
    set (P := 2 ^ 52) in *. assert (0 < P) by done. clearbody P. rewrite Pos2Z.inj_mul.
    destruct Hl as [->|Hl]; [destruct Hl' as [->|Hl']; [by destruct Hne|]|]; nia.
  - rewrite Pos2Z.inj_mul. replace (e + e' + 2148) with (e + 1074 + (e' + 1074)) by lia.
    rewrite Z.pow_add_r by lia. lia.
Qed.

Lemma div_location num den :
  0 ≤ num → 0 < den →
  shr_record_of_loc (num / den) (new_location den (num `mod` den)) = shifted num den.
Proof.
  intros Hn Hd. unfold shifted. pose proof (Z.mod_pos_bound num den Hd) as Hb.
  set (c := num `mod` den) in *. set (q := num / den). clearbody c q.
  unfold new_location, new_location_even, new_location_odd. cbv beta.
  destruct c as [|c|c]; [| |lia].
  { assert ((den <=? 2 * 0) = false) as -> by (apply Z.leb_gt; lia). by destruct (Z.even den). }
  destruct (Z.even den) eqn:Heven.
  - destruct (Z.compare_spec (2 * Z.pos c) den); destruct (Z.leb_spec den (2 * Z.pos c));
      destruct (Z.eqb_spec (2 * Z.pos c) den); try lia; reflexivity.
  - assert (2 * Z.pos c ≠ den) as Hodd by (by intros <-).
    destruct (Z.compare_spec (2 * Z.pos c + 1) den); destruct (Z.leb_spec den (2 * Z.pos c));
      destruct (Z.eqb_spec (2 * Z.pos c) den); try lia; reflexivity.
Qed.

(** A quotient has as many digits as its operands say, or one more. *)
Lemma quotient_digits m1 m2 s :
  0 ≤ s → Zdigits2 (Z.pos m1) - Zdigits2 (Z.pos m2) + s ≤ Zdigits2 (Z.pos m1 * 2 ^ s / Z.pos m2).
Proof.
  intros Hs. pose proof (pow2_pos s Hs) as Hp.
  destruct (Zdigits2_bounds (Z.pos m1)) as (_ & _ & H1); [lia|]. destruct H1 as [Hd1 Hl1]; [lia|].
  destruct (Zdigits2_bounds (Z.pos m2)) as (Hd2 & Hu2 & _); [lia|].
  set (d1 := Zdigits2 (Z.pos m1)) in *. set (d2 := Zdigits2 (Z.pos m2)) in *.
  assert (0 ≤ Z.pos m1 * 2 ^ s / Z.pos m2) as Hq0 by (apply Z.div_pos; nia).
  destruct (Zdigits2_bounds (Z.pos m1 * 2 ^ s / Z.pos m2)) as (Hd & Hu & _); [done|].
  set (d := Zdigits2 (Z.pos m1 * 2 ^ s / Z.pos m2)) in *. destruct (decide (d1 - d2 + s ≤ 0)) as [|Hgt]; [lia|].
  assert (d1 - 1 + s < d + d2); [|lia]. apply (Z.pow_lt_mono_r_iff 2); [lia|lia|].
  pose proof (Z.mul_succ_div_gt (Z.pos m1 * 2 ^ s) (Z.pos m2) ltac:(lia)) as Hq.
  rewrite !Z.pow_add_r by lia. set (q := Z.pos m1 * 2 ^ s / Z.pos m2) in *. clearbody q d d1 d2.
  apply (Z.le_lt_trans _ (Z.pos m1 * 2 ^ s)); [apply Z.mul_le_mono_nonneg_r; lia|].
  apply (Z.lt_le_trans _ (Z.pos m2 * (q + 1))); [lia|]. rewrite Z.mul_comm.
  apply Z.mul_le_mono_nonneg; lia.
Qed.

Lemma f64_div_spec x y :
  nonneg x → nonneg y → finite x → finite y → 0 < fval y →
  rounds_to (fval x * 2 ^ 2148) (fval y) (f64_div x y).
Proof.
  intros Hx Hy Fx Fy Hpos.
  destruct y as [s'|s'| |s' m2 e2]; try done. destruct Hy as [-> Hy].
  destruct x as [s|s| |s m1 e1]; try done.
  { simpl in Hx. subst. split; [done|]. exists 0. split; [by apply rounds_zero|done]. }
  destruct Hx as [-> Hx]. apply bounded_facts in Hx as (He1 & _), Hy as (He2 & _).
  unfold f64_div. cbn [SFdiv xorb]. unfold SFdiv_core_binary.
  set (F := fexp64 (Zdigits2 (Z.pos m1) + e1 - (Zdigits2 (Z.pos m2) + e2))).
  set (e' := Z.min F (e1 - e2)). set (s := e1 - e2 - e').
  assert (0 ≤ s) as Hs by (subst s e'; lia).
  assert (-2148 ≤ e') as He'
    by (assert (-1074 ≤ F) by (subst F; rewrite fexp64_cases; lia); subst e'; lia).
  replace (match s with Z0 => Z.pos m1 | Zpos _ => Z.shiftl (Z.pos m1) s | Zneg _ => 0 end)
    with (Z.pos m1 * 2 ^ s)
    by (destruct s; [lia|by rewrite <-Z.shiftl_mul_pow2 by lia|lia]).
  set (num := Z.pos m1 * 2 ^ s). pose proof (pow2_pos s Hs) as Hp.
  assert (0 < num) as Hnum by (subst num; nia).
  destruct (Z.div_eucl num (Z.pos m2)) as [q r] eqn:Hdiv.
  assert (q = num / Z.pos m2 ∧ r = num `mod` Z.pos m2) as [-> ->]
    by (unfold Z.div, Z.modulo; by rewrite Hdiv).
  pose proof (round_aux_spec num (Z.pos m2) e' (new_location (Z.pos m2) (num `mod` Z.pos m2)))
    as [Hnn (r0 & Hr0 & Hv)]; [lia|done|apply div_location; lia| |].
  { split; [done|]. etransitivity; [apply Z.le_min_l|]. subst F. rewrite !fexp64_cases.
    assert (Zdigits2 (Z.pos m1) - Zdigits2 (Z.pos m2) + s ≤ Zdigits2 (num / Z.pos m2)); [|subst s; lia].
    by apply quotient_digits. }
  split; [done|]. exists r0. split; [|done]. simpl fval.
  apply (rounds_scale (2 ^ (e2 + 1074))) in Hr0; [|apply pow2_pos; lia].
  replace (Z.pos m1 * 2 ^ (e1 + 1074) * 2 ^ 2148) with (num * 2 ^ (e' + 2148) * 2 ^ (e2 + 1074)); [done|].
  subst num. rewrite <-!Z.mul_assoc, <-!Z.pow_add_r by lia. do 2 f_equal. subst s. lia.
Qed.

(** ** Comparisons *)

Lemma fval_finite_bounds m e :
  bounded 53 1024 m e = true → 0 < fval (S754_finite false m e) < top.
Proof.
  intros (He & Hm & _)%bounded_facts. simpl. pose proof (pow2_pos (e + 1074) ltac:(lia)) as Hp.
  split; [nia|]. unfold top. apply (Z.lt_le_trans _ (2 ^ 53 * 2 ^ (e + 1074))).
  - by apply Z.mul_lt_mono_pos_r.
  - rewrite <-Z.pow_add_r by lia. apply Z.pow_le_mono_r; lia.
Qed.

Lemma fval_exponent m e m' e' :
  bounded 53 1024 m e = true → bounded 53 1024 m' e' = true → e < e' →
  Z.pos m * 2 ^ (e + 1074) < Z.pos m' * 2 ^ (e' + 1074).
Proof.
  intros (He & Hm & _)%bounded_facts (He' & _ & Hl)%bounded_facts Hlt.
  destruct Hl as [|Hl]; [lia|]. pose proof (pow2_pos (e + 1074) ltac:(lia)) as Hp.
  apply (Z.lt_le_trans _ (2 ^ 53 * 2 ^ (e + 1074))); [by apply Z.mul_lt_mono_pos_r|].
  transitivity (2 ^ 52 * 2 ^ (e' + 1074)); [|apply Z.mul_le_mono_nonneg_r; lia].
  rewrite <-!Z.pow_add_r by lia. apply Z.pow_le_mono_r; lia.
Qed.

Lemma compare_spec x y :
  nonneg x → nonneg y → SFcompare x y = Some (fval x ?= fval y).
Proof.
  intros Hx Hy. destruct x as [s|s| |s m e]; try done; destruct y as [s'|s'| |s' m' e']; try done;
    simpl in Hx, Hy; subst; cbn [SFcompare]; f_equal; try done;
    try (destruct Hx as [-> Hx]); try (destruct Hy as [-> Hy]);
    try (pose proof (fval_finite_bounds m e Hx)); try (pose proof (fval_finite_bounds m' e' Hy));
    symmetry; try (apply Z.compare_lt_iff; simpl in *; lia);
    try (apply Z.compare_gt_iff; simpl in *; lia).
  change (Pos.compare_cont Eq m m') with (Z.pos m ?= Z.pos m'). simpl fval.
  destruct (Z.compare_spec e e') as [->|Hlt|Hgt].
  - symmetry. apply Zmult_compare_compat_r, Z.lt_gt, pow2_pos. apply bounded_facts in Hx. lia.
  - apply Z.compare_lt_iff. by apply fval_exponent.
  - apply Z.compare_gt_iff. by apply fval_exponent.
Qed.

Lemma f64_leb_spec x y : nonneg x → nonneg y → f64_leb x y = (fval x <=? fval y).
Proof.
  intros Hx Hy. unfold f64_leb, SFleb. rewrite compare_spec by done. unfold Z.leb.
  by destruct (_ ?= _).
Qed.

Lemma f64_ltb_spec x y : nonneg x → nonneg y → f64_ltb x y = (fval x <? fval y).
Proof.
  intros Hx Hy. unfold f64_ltb, SFltb. rewrite compare_spec by done. unfold Z.ltb.
  by destruct (_ ?= _).
Qed.

(** ** Consequences *)

Lemma rounds_to_mono num den x num' den' x' :
  0 < den → 0 < den' → 0 ≤ num → rounds_to num den x → rounds_to num' den' x' →
  num * den' ≤ num' * den → fval x ≤ fval x'.
Proof.
  intros Hd Hd' Hn (_ & r & Hr & ->) (_ & r' & Hr' & ->) Hle.
  apply Z.min_le_compat_r. by apply (rounds_mono num den r num' den' r').
Qed.

(** A number below or above the exact result is below or above its rounding. *)
Lemma rounds_to_ge num den x y :
  0 < den → rounds_to num den x → nonneg y → finite y → fval y * unit * den ≤ num → fval y ≤ fval x.
Proof.
  intros Hd Hx Hy Fy Hle. pose proof (fval_nonneg y).
  pose proof unit_pos.
  apply (rounds_to_mono (fval y * unit) 1 y num den x); [done|done|nia|by apply rounds_to_self|done|lia].
Qed.

Lemma rounds_to_le num den x y :
  0 < den → 0 ≤ num → rounds_to num den x → nonneg y → finite y → num ≤ fval y * unit * den →
  fval x ≤ fval y.
Proof.
  intros Hd Hn Hx Hy Fy Hle.
  apply (rounds_to_mono num den x (fval y * unit) 1 y); [done|done|done|done|by apply rounds_to_self|lia].
Qed.

Lemma fval_finite x : nonneg x → finite x ↔ fval x < top.
Proof.
  destruct x as [s|s| |s m e]; intros Hx; simpl in Hx; cbn [finite fval]; try done.
  destruct Hx as [-> Hb]. split; [|done]. intros _. apply (fval_finite_bounds m e Hb).
Qed.

Lemma finite_below x y : nonneg x → nonneg y → finite y → fval x ≤ fval y → finite x.
Proof. intros Hx Hy Fy Hle. apply fval_finite; [done|]. apply fval_finite in Fy; [lia|done]. Qed.

(** How far rounding up goes: half a unit of the last place. *)
Lemma rounds_to_upper num den x :
  0 < den → 0 ≤ num → rounds_to num den x →
  2 ^ 53 * (fval x * unit * den) ≤ (2 ^ 53 + 1) * num + 2 ^ 52 * unit * den.
Proof.
  intros Hd Hnum (_ & r & (k & R & (Hk & Hl & Hu) & [Hn _] & ->) & ->).
  assert (2 ^ (k + 1074) = 2 ^ k * unit) as Hp by (apply Z.pow_add_r; lia). rewrite Hp in *.
  pose proof unit_pos as Hunit. pose proof (pow2_pos k Hk) as Hg.
  assert (Z.min (R * 2 ^ k) top * (unit * den) ≤ R * 2 ^ k * (unit * den)) as Hmin
    by (apply Z.mul_le_mono_nonneg_r; [nia|lia]).
  rewrite <-(Z.mul_assoc (Z.min _ _)), <-(Z.mul_assoc (2 ^ 52)). set (D := unit * den) in *.
  replace (R * (2 ^ k * unit * den)) with (R * 2 ^ k * D) in Hn by (subst D; lia).
  replace (2 ^ k * unit * den) with (2 ^ k * D) in Hn by (subst D; lia).
  change (2 ^ 53) with (2 * 2 ^ 52) in *. set (P := 2 ^ 52) in *.
  assert (0 < P) by done. assert (0 < D) by (subst D; nia).
  set (v := Z.min _ _ * D) in *. set (w := R * 2 ^ k * D) in *.
  assert (P * (2 * w - 2 * num) ≤ P * (2 ^ k * D)) by (apply Z.mul_le_mono_nonneg_l; lia).
  assert (P * (2 ^ k * D) ≤ num + P * D); [|nia].
  destruct Hl as [->|Hl]; [lia|]. replace (P * (2 ^ k * D)) with (P * (2 ^ k * unit) * den) by (subst D; lia). nia.
Qed.

(** Sums and differences lose nothing among the smallest numbers. *)
Lemma rounds_to_upper_sum c x :
  0 ≤ c → rounds_to (c * unit) 1 x → 2 ^ 53 * fval x ≤ (2 ^ 53 + 1) * c.
Proof.
  intros Hc (_ & r & (k & R & (Hk & Hl & Hu) & [Hn _] & ->) & ->).
  assert (2 ^ (k + 1074) = 2 ^ k * unit) as Hp by (apply Z.pow_add_r; lia). rewrite Hp in *.
  pose proof unit_pos as HU. set (U := unit) in *. clearbody U.
  pose proof (pow2_pos k Hk) as Hg. rewrite Z.mul_1_r in *.
  replace (R * (2 ^ k * U) - c * U) with ((R * 2 ^ k - c) * U) in Hn by lia.
  rewrite Z.abs_mul, (Z.abs_eq U), Z.mul_assoc in Hn by lia. apply Z.mul_le_mono_pos_r in Hn; [|done].
  change (2 ^ 53) with (2 * 2 ^ 52) in *. set (P := 2 ^ 52) in *. assert (0 < P) by done. clearbody P.
  assert (P * Z.min (R * 2 ^ k) top ≤ P * (R * 2 ^ k)) by (apply Z.mul_le_mono_nonneg_l; lia).
  set (v := Z.min _ _) in *. set (w := R * 2 ^ k) in *. clearbody v w.
  destruct Hl as [->|Hl].
  - rewrite Z.pow_0_r in Hn. assert (w = c) as -> by lia. lia.
  - rewrite !Z.mul_assoc in Hl. apply Z.mul_le_mono_pos_r in Hl; [|done].
    assert (P * (2 * w - 2 * c) ≤ P * 2 ^ k) by (apply Z.mul_le_mono_nonneg_l; lia). lia.
Qed.

(** Integers below [2 ^ 53] are numbers. *)
Lemma rounds_integer n : 0 ≤ n < 2 ^ 53 → rounds (n * 2 ^ 2148) 1 (n * unit).
Proof.
  intros [Hn Hlt]. destruct (decide (n = 0)) as [->|H0]; [by apply rounds_zero|].
  destruct (Zdigits2_bounds n Hn) as (Hd & Hu & Hl). destruct Hl as [Hdp Hl]; [lia|].
  set (d := Zdigits2 n) in *.
  assert (d ≤ 53) by (assert (d - 1 < 53); [apply (Z.pow_lt_mono_r_iff 2); lia|lia]).
  assert (n * 2 ^ 2148 = n * 2 ^ (53 - d) * 2 ^ (d + 1021 + 1074)) as Heq
    by (rewrite <-Z.mul_assoc, <-Z.pow_add_r by lia; do 2 f_equal; lia).
  pose proof (pow2_pos (d + 1021 + 1074) ltac:(lia)) as Hg.
  exists (d + 1021), (n * 2 ^ (53 - d)). split_and!.
  - unfold grid. rewrite Heq, !Z.mul_1_r. split_and!; [lia|right|].
    + apply Z.mul_le_mono_pos_r; [done|].
      replace (2 ^ 52) with (2 ^ (d - 1) * 2 ^ (53 - d)) by (rewrite <-Z.pow_add_r by lia; f_equal; lia).
      apply Z.mul_le_mono_nonneg_r; lia.
    + apply Z.mul_lt_mono_pos_r; [done|].
      replace (2 ^ 53) with (2 ^ d * 2 ^ (53 - d)) by (rewrite <-Z.pow_add_r by lia; f_equal; lia).
      apply Z.mul_lt_mono_pos_r; [|done]. apply pow2_pos. lia.
  - split; rewrite Heq; lia.
  - unfold unit. rewrite <-Z.mul_assoc, <-Z.pow_add_r by lia. do 2 f_equal. lia.
Qed.

Lemma f64_of_Z_exact n :
  0 ≤ n < 2 ^ 53 → nonneg (f64_of_Z n) ∧ finite (f64_of_Z n) ∧ fval (f64_of_Z n) = n * unit.
Proof.
  intros Hn. destruct (f64_of_Z_spec n) as [Hnn (r & Hr & Hv)]; [lia|].
  pose proof (rounds_integer n Hn) as Hi.
  assert (r = n * unit) as ->.
  { apply Z.le_antisymm; apply (rounds_mono (n * 2 ^ 2148) 1 _ (n * 2 ^ 2148) 1); done || lia. }
  assert (n * unit < top).
  { apply (Z.lt_le_trans _ (2 ^ 53 * unit)); [|done]. apply Z.mul_lt_mono_pos_r; [done|lia]. }
  rewrite Z.min_l in Hv by lia. split_and!; [done| |done]. apply fval_finite; [done|]. by rewrite Hv.
Qed.

Lemma f64_of_Z_mono n n' : 0 ≤ n ≤ n' → fval (f64_of_Z n) ≤ fval (f64_of_Z n').
Proof.
  intros Hn. apply (rounds_to_mono (n * 2 ^ 2148) 1 _ (n' * 2 ^ 2148) 1);
    [done|done|lia|apply f64_of_Z_spec; lia..|lia].
Qed.

(** ** Seconds *)

Section seconds.
Context (d : Z) (Hd : 0 ≤ d ≤ max_int64).

Abbreviation whole := (d / Second).
Abbreviation part := (d `mod` Second).
Abbreviation fraction := (f64_div (f64_of_Z part) (f64_of_Z Second)).

Lemma whole_part : d = Second * whole + part ∧ 0 ≤ part < Second ∧ 0 ≤ whole < 2 ^ 53 - 1.
Proof.
  split_and!; [apply Z.div_mod; done|by apply Z.mod_pos_bound|apply Z.mod_pos_bound; done| |].
  - apply Z.div_pos; [lia|done].
  - apply Z.div_lt_upper_bound; [done|]. unfold max_int64, two63 in Hd. unfold Second, Millisecond, Microsecond, Nanosecond. lia.
Qed.

Lemma fraction_spec :
  rounds_to (part * unit * 2 ^ 2148) (Second * unit) fraction ∧
  finite fraction ∧ fval fraction ≤ unit.
Proof.
  destruct whole_part as (_ & Hp & _). assert (Second < 2 ^ 53) by done.
  destruct (f64_of_Z_exact part) as (N1 & F1 & E1); [lia|].
  destruct (f64_of_Z_exact Second) as (N2 & F2 & E2); [lia|].
  pose proof unit_pos as HU. assert (0 < Second) as HS by done.
  pose proof (f64_div_spec _ _ N1 N2 F1 F2) as Hdiv. rewrite E1, E2 in Hdiv.
  specialize (Hdiv ltac:(nia)). split; [done|].
  destruct (f64_of_Z_exact 1) as (N3 & F3 & E3); [lia|]. rewrite Z.mul_1_l in E3.
  assert (fval fraction ≤ fval (f64_of_Z 1)) as Hle.
  { eapply rounds_to_le; [|..|exact Hdiv|done|done|]; [nia|nia|]. rewrite E3.
    change (2 ^ 2148) with (unit * unit). set (U := unit) in *. clearbody U.
    replace (U * U * (Second * U)) with (Second * U * (U * U)) by lia.
    apply Z.mul_le_mono_nonneg_r; [nia|]. apply Z.mul_le_mono_nonneg_r; lia. }
  rewrite E3 in Hle. split; [|done].
  apply (finite_below fraction (f64_of_Z 1)); [apply Hdiv|done|done|by rewrite E3].
Qed.

Lemma Seconds_unfold : Seconds d = f64_add (f64_of_Z whole) fraction.
Proof. unfold Seconds. by rewrite Z.quot_div_nonneg, Z.rem_mod_nonneg by (done || lia). Qed.

Lemma Seconds_spec :
  rounds_to ((whole * unit + fval fraction) * unit) 1 (Seconds d) ∧
  finite (Seconds d) ∧ whole * unit ≤ fval (Seconds d) ≤ (whole + 1) * unit.
Proof.
  destruct whole_part as (_ & _ & Hw). destruct fraction_spec as (Hf & Ff & Hle).
  destruct (f64_of_Z_exact whole) as (N1 & F1 & E1); [lia|].
  destruct (f64_of_Z_exact (whole + 1)) as (N2 & F2 & E2); [lia|].
  pose proof (fval_nonneg fraction) as Hf0. pose proof unit_pos as HU.
  pose proof (f64_add_spec (f64_of_Z whole) fraction N1 (proj1 Hf) F1 Ff) as Hadd.
  rewrite <-Seconds_unfold, E1 in Hadd. split; [done|].
  assert (fval (Seconds d) ≤ fval (f64_of_Z (whole + 1))) as Hup.
  { eapply rounds_to_le; [|..|exact Hadd|done|done|]; [done|nia|]. rewrite E2. nia. }
  split; [|split].
  - eapply finite_below; [apply Hadd|exact N2|done|done].
  - rewrite <-E1. eapply rounds_to_ge; [|exact Hadd|done|done|]; [done|]. rewrite E1. nia.
  - by rewrite <-E2.
Qed.

(** Converting a duration to seconds adds four units of the last place at most. *)
Lemma Seconds_upper : 2 ^ 53 * Second * fval (Seconds d) ≤ (2 ^ 53 + 4) * d * unit.
Proof.
  destruct whole_part as (Hd0 & Hp & Hw). destruct fraction_spec as (Hf & Ff & _).
  destruct Seconds_spec as (Hs & _). pose proof unit_pos as HU. pose proof (fval_nonneg fraction) as Hf0.
  assert (0 < Second) as HS by done.
  apply rounds_to_upper_sum in Hs; [|nia].
  assert (2 ^ 53 * Second * fval fraction ≤ (2 ^ 53 + 2) * part * unit) as Hfr.
  { destruct (decide (part = 0)) as [H0|H0].
    - assert (fval fraction = 0) as ->; [|lia]. destruct Hf as [_ (r & Hr & ->)].
      assert (part * unit * 2 ^ 2148 = 0) as Hz by (rewrite H0; lia). rewrite Hz in Hr.
      pose proof (rounds_zero (Second * unit) ltac:(nia)) as Hr0.
      assert (r = 0) as ->; [|done].
      apply Z.le_antisymm; apply (rounds_mono 0 (Second * unit) _ 0 (Second * unit)); done || nia.
    - apply rounds_to_upper in Hf; [|nia|nia].
      assert (2 ^ 52 * Second ≤ 2 ^ 1074) as Hbig by done. change (2 ^ 1074) with unit in Hbig.
      change (2 ^ 2148) with (unit * unit) in Hf. set (U := unit) in *. clearbody U.
      set (y := fval fraction) in *. clearbody y.
      set (c := 2 ^ 53) in *. assert (0 < c) by done.
      assert ((c * Second * y) * (U * U) ≤ ((c + 2) * part * U) * (U * U)) as Hmul.
      { assert (2 ^ 52 * Second * (U * U) ≤ U * (U * U)) by (apply Z.mul_le_mono_nonneg_r; nia). nia. }
      apply Z.mul_le_mono_pos_r in Hmul; [done|nia]. }
  set (y := fval fraction) in *. set (z := fval (Seconds d)) in *. clearbody y z.
  set (U := unit) in *. clearbody U.
  assert (2 ^ 53 * (2 ^ 53 * Second * z) ≤ 2 ^ 53 * ((2 ^ 53 + 4) * d * U)) as Hm; [|lia].
  set (D := Second) in *. clearbody D.
  apply (Z.mul_le_mono_nonneg_l _ _ (2 ^ 53 * D)) in Hs; [|lia].
  apply (Z.mul_le_mono_nonneg_l _ _ (2 ^ 53 + 1)) in Hfr; [|lia].
  rewrite Hd0. set (w := d / D) in *. set (p := d `mod` D) in *. clearbody w p.
  assert (0 ≤ D * w * U ∧ 0 ≤ p * U) as [? ?] by nia. nia.
Qed.
End seconds.

Lemma Seconds_mono d d' : 0 ≤ d ≤ d' → d' ≤ max_int64 → fval (Seconds d) ≤ fval (Seconds d').
Proof.
  intros Hd Hd'. destruct (Seconds_spec d ltac:(lia)) as (Hs & _ & _ & Hup).
  destruct (Seconds_spec d' ltac:(lia)) as (Hs' & _ & Hlow & _).
  assert (d / Second ≤ d' / Second) as Hq by (apply Z.div_le_mono; [done|lia]).
  pose proof unit_pos as HU.
  destruct (decide (d / Second = d' / Second)) as [Heq|Hne]; [|nia].
  destruct (fraction_spec d ltac:(lia)) as (Hf & _), (fraction_spec d' ltac:(lia)) as (Hf' & _).
  destruct (whole_part d ltac:(lia)) as (E & Hp & Hw), (whole_part d' ltac:(lia)) as (E' & Hp' & _).
  pose proof (fval_nonneg (f64_div (f64_of_Z (d `mod` Second)) (f64_of_Z Second))).
  assert (0 < Second * unit) as HD by (apply Z.mul_pos_pos; done).
  assert (fval (f64_div (f64_of_Z (d `mod` Second)) (f64_of_Z Second)) ≤
          fval (f64_div (f64_of_Z (d' `mod` Second)) (f64_of_Z Second))) as Hle.
  { eapply rounds_to_mono; [exact HD|exact HD| |exact Hf|exact Hf'|].
    - apply Z.mul_nonneg_nonneg; [nia|done].
    - apply Z.mul_le_mono_nonneg_r; [lia|]. apply Z.mul_le_mono_nonneg_r; [done|].
      apply Z.mul_le_mono_nonneg_r; lia. }
  eapply rounds_to_mono; [| | |exact Hs|exact Hs'|]; [done|done|nia|]. rewrite Heq. nia.
Qed.
