(* ===== verification/GoStrings.v ===== *)
(** * [strings] and [strconv]: splitting, trimming and decimal integers

    [strings.Split] and [strings.Join] on a comma, [strings.TrimSpace] with the
    Unicode spaces, [strconv.ParseInt] in base 10 and the decimal text
    [fmt.Sprint] gives an integer. *)
From stdpp Require Import base numbers list strings pretty.
From S2P Require Import Prelude GoStd Utf8 GoTime.

#[local] Open Scope Z_scope.

(** ** Split and Join *)

(** [strings.Split(s, sep)] for a one-byte [sep]; [cur] is the piece so far. *)
Fixpoint split_from (sep : ascii) (cur : string) (s : string) : list string :=
  match s with
  | EmptyString => [cur]
  | String c s =>
    if decide (c = sep) then cur :: split_from sep EmptyString s
    else split_from sep (String.append cur (String c EmptyString)) s
  end.

Definition Split (s : string) (sep : ascii) : list string := split_from sep EmptyString s.

Fixpoint Join (l : list string) (sep : string) : string :=
  match l with
  | [] => EmptyString
  | [s] => s
  | s :: l => String.append s (String.append sep (Join l sep))
  end.

(** ** Trimming *)

(** [unicode.IsSpace] *)
Definition IsSpace (r : Z) : bool :=
  (r =? 32) || ((9 <=? r) && (r <=? 13)) || (r =? 133) || (r =? 160) || (r =? 5760) ||
  ((8192 <=? r) && (r <=? 8202)) || (r =? 8232) || (r =? 8233) || (r =? 8239) || (r =? 8287) ||
  (r =? 12288).

(** [utf8.RuneStart] of the byte [n] places before the end, if there is one. *)
Definition RuneStart_back (s : string) (n : nat) : bool :=
  match String.get (String.length s - n) s with
  | Some c => bool_decide (n ≤ String.length s)%nat && negb (is_cont c)
  | None => false
  end.

(** [utf8.DecodeLastRuneInString] *)
Definition DecodeLastRune (s : string) : Z * nat :=
  let len := String.length s in
  match String.get (len - 1) s with
  | None => (RuneError, 0%nat)
  | Some c =>
    if byte_of c <? 128 then (byte_of c, 1%nat) else
    let n := if RuneStart_back s 2 then 2%nat else if RuneStart_back s 3 then 3%nat
             else if RuneStart_back s 4 then 4%nat else Nat.min 5 len in
    let '(r, size) := DecodeRune (str_drop (len - n) s) in
    if decide (size = n) then (r, size) else (RuneError, 1%nat)
  end.

Fixpoint trim_left (fuel : nat) (s : string) : string :=
  match fuel with
  | O => s
  | S fuel =>
    let '(r, n) := DecodeRune s in
    if IsSpace r then trim_left fuel (str_drop n s) else s
  end.

Fixpoint trim_right (fuel : nat) (s : string) : string :=
  match fuel with
  | O => s
  | S fuel =>
    let '(r, n) := DecodeLastRune s in
    if IsSpace r then trim_right fuel (str_take (String.length s - n) s) else s
  end.

(** [strings.TrimSpace]: a space takes a byte at least, so the length is fuel
    enough. *)
Definition TrimSpace (s : string) : string :=
  let s := trim_left (String.length s) s in trim_right (String.length s) s.

(** ** Decimal integers *)

Inductive parse_error := ErrSyntax | ErrRange.

(** [strconv.ParseUint] in base 10 and 64 bits, on the digits. *)
Fixpoint parse_uint (s : string) (n : Z) : Z + parse_error :=
  match s with
  | EmptyString => inl n
  | String c s =>
    match digit_of c with
    | None => inr ErrSyntax
    | Some d => if two64 - 1 <? n * 10 + d then inr ErrRange else parse_uint s (n * 10 + d)
    end
  end.

(** [strconv.ParseInt(s, 10, 64)]: the value it returns and its error.  A value
    out of range is returned as the nearest bound. *)
Definition ParseInt (s : string) : Z * option parse_error :=
  let '(neg, s) :=
    match s with
    | String "+" s => (false, s)
    | String "-" s => (true, s)
    | _ => (false, s)
    end%char in
  match (match s with EmptyString => inr ErrSyntax | _ => parse_uint s 0 end) with
  | inr ErrSyntax => (0, Some ErrSyntax)
  | inr ErrRange => (if (neg : bool) then min_int64 else max_int64, Some ErrRange)
  | inl un =>
    if neg then if two63 <? un then (min_int64, Some ErrRange) else (wrap64 (- wrap64 un), None)
    else if two63 <=? un then (max_int64, Some ErrRange) else (un, None)
  end.

(** [strconv.Atoi], where an [int] has 64 bits. *)
Definition Atoi : string → Z * option parse_error := ParseInt.

(** ** Lemmas *)

(** stdpp keeps [String.append] folded. *)
Lemma append_cons c a b : String.append (String c a) b = String c (String.append a b).
Proof. reflexivity. Qed.

Lemma append_assoc a b c : String.append (String.append a b) c = String.append a (String.append b c).
Proof. induction a as [|x a IH]; [done|]. by rewrite !append_cons, IH. Qed.

Lemma append_nil_r a : String.append a EmptyString = a.
Proof. induction a as [|x a IH]; [done|]. by rewrite append_cons, IH. Qed.

Lemma split_from_piece sep cur p s :
  sep ∉ str_bytes p →
  split_from sep cur (String.append p s) = split_from sep (String.append cur p) s.
Proof.
  revert cur. induction p as [|c p IH]; intros cur Hp; [by rewrite append_nil_r|].
  rewrite append_cons. simpl. simpl in Hp. apply not_elem_of_cons in Hp as [Hc Hp].
  rewrite decide_False by (by intros ->). rewrite IH, append_assoc by done. reflexivity.
Qed.

(** Splitting what was joined gives the pieces back, when none holds the
    separator. *)
Lemma Split_Join sep l :
  l ≠ [] → (∀ p, p ∈ l → sep ∉ str_bytes p) → Split (Join l (String sep EmptyString)) sep = l.
Proof.
  intros Hl Hp. unfold Split. destruct l as [|p l]; [done|]. clear Hl.
  revert p Hp. induction l as [|q l IH]; intros p Hp.
  - simpl. rewrite <-(append_nil_r p) at 1. rewrite split_from_piece by (apply Hp; left). done.
  - change (Join (p :: q :: l) (String sep EmptyString)) with
      (String.append p (String sep (Join (q :: l) (String sep EmptyString)))).
    rewrite split_from_piece by (apply Hp; left). simpl split_from. rewrite decide_True by done.
    f_equal. apply IH. intros r Hr. apply Hp. by right.
Qed.

Lemma Split_pieces s sep p : p ∈ Split s sep → sep ∉ str_bytes p.
Proof.
  unfold Split. assert (sep ∉ str_bytes EmptyString) as Hcur by apply not_elem_of_nil.
  revert Hcur. generalize EmptyString as cur. induction s as [|c s IH]; intros cur Hcur; simpl.
  { by intros ->%list_elem_of_singleton. }
  destruct (decide (c = sep)) as [->|Hc].
  - intros [->|Hp]%elem_of_cons; [done|]. apply (IH EmptyString); [apply not_elem_of_nil|done].
  - apply IH. clear IH. induction cur as [|x cur IHc]; simpl in *.
    + by intros ->%list_elem_of_singleton.
    + apply not_elem_of_cons in Hcur as [Hx Hcur].
      apply not_elem_of_cons. auto.
Qed.

(** *** Decimal text *)

Lemma digit_of_pretty x : (x < 10)%N → digit_of (pretty_N_char x) = Some (Z.of_N x).
Proof.
  intros Hx.
  assert (x = 0 ∨ x = 1 ∨ x = 2 ∨ x = 3 ∨ x = 4 ∨ x = 5 ∨ x = 6 ∨ x = 7 ∨ x = 8 ∨ x = 9)%N
    as Hc by lia.
  by destruct Hc as [->|[->|[->|[->|[->|[->|[->|[->|[->| ->]]]]]]]]].
Qed.

Lemma parse_uint_pretty x s :
  Z.of_N x < two64 →
  parse_uint (pretty_N_go x s) 0 = parse_uint s (Z.of_N x).
Proof.
  revert s. induction (N.lt_wf_0 x) as [x _ IH]; intros s Hx.
  destruct (decide (0 < x)%N) as [Hpos|Hz]; [|by replace x with 0%N by lia].
  pose proof (N.div_lt x 10 Hpos eq_refl) as Hlt.
  rewrite pretty_N_go_step, IH by lia. simpl.
  rewrite digit_of_pretty by by apply N.mod_lt.
  assert (Z.of_N (x `div` 10) * 10 + Z.of_N (x `mod` 10) = Z.of_N x) as ->.
  { pose proof (N.div_mod x 10 ltac:(lia)). lia. }
  destruct (Z.ltb_spec (two64 - 1) (Z.of_N x)); [lia|done].
Qed.

Lemma parse_uint_Npos p :
  Z.pos p < two64 → pretty (Npos p) ≠ EmptyString ∧ parse_uint (pretty (Npos p)) 0 = inl (Z.pos p).
Proof.
  intros Hp. unfold pretty, pretty_N. rewrite decide_False by done.
  assert (parse_uint (pretty_N_go (Npos p) "") 0 = inl (Z.pos p)) as Hu
    by by rewrite parse_uint_pretty.
  split; [|done]. intros He. rewrite He in Hu. by injection Hu.
Qed.

(** A digit is neither a sign. *)
Lemma unsigned_text p :
  Z.pos p < two64 → ∃ c s, pretty (Npos p) = String c s ∧ c ≠ "+"%char ∧ c ≠ "-"%char.
Proof.
  intros Hp. destruct (parse_uint_Npos p Hp) as [Hne Hu].
  destruct (pretty (Npos p)) as [|c s]; [done|]. exists c, s. split; [done|].
  split; intros ->; simpl in Hu; done.
Qed.

(** The text of an int64 reads back as it. *)
Lemma ParseInt_pretty z : in_int64 z → ParseInt (pretty z) = (z, None).
Proof.
  unfold in_int64, min_int64, max_int64. intros Hz.
  destruct z as [|p|p]; [done| |].
  - assert (Z.pos p < two64) as Hp by (unfold two63, two64 in *; lia).
    change (pretty (Z.pos p)) with (pretty (Npos p)).
    destruct (parse_uint_Npos p Hp) as [_ Hu]. destruct (unsigned_text p Hp) as (c & s & Hs & H1 & H2).
    rewrite Hs in *. unfold ParseInt.
    assert (match String c s with
      | String "+" s => (false, s) | String "-" s => (true, s) | _ => (false, String c s) end%char
      = (false, String c s)) as -> by (destruct c as [[] [] [] [] [] [] [] []]; done).
    rewrite Hu. destruct (Z.leb_spec two63 (Z.pos p)); [lia|done].
  - assert (Z.pos p < two64) as Hp by (unfold two63, two64 in *; lia).
    change (pretty (Z.neg p)) with (String "-" (pretty (Npos p))).
    destruct (parse_uint_Npos p Hp) as [_ Hu]. destruct (unsigned_text p Hp) as (c & s & Hs & _).
    unfold ParseInt. rewrite Hs in *. rewrite Hu.
    destruct (Z.ltb_spec two63 (Z.pos p)); [lia|].
    f_equal. destruct (decide (Z.pos p = two63)) as [Hmin|].
    { rewrite Hmin. by replace (Z.neg p) with (- two63) by lia. }
    rewrite (wrap64_id (Z.pos p)) by (unfold in_int64, min_int64, max_int64; lia).
    rewrite wrap64_id by (unfold in_int64, min_int64, max_int64; lia). done.
Qed.

Lemma parse_uint_range s n m : parse_uint s n = inl m → 0 ≤ n < two64 → 0 ≤ m < two64.
Proof.
  revert n. induction s as [|c s IH]; intros n; simpl; [by intros [= ->]|].
  destruct (digit_of c) as [d|] eqn:Hd; [|done].
  destruct (Z.ltb_spec (two64 - 1) (n * 10 + d)) as [|Hle]; [done|]. intros Hp Hn.
  apply (IH _ Hp). unfold digit_of in Hd. case_match eqn:Hb; [|done].
  apply andb_true_iff in Hb as [Hb _]. apply Z.leb_le in Hb. injection Hd as <-. lia.
Qed.

(** Whatever the text, the value is an int64. *)
Lemma ParseInt_range s : in_int64 (ParseInt s).1.
Proof.
  unfold ParseInt. destruct (match s with EmptyString => _ | String c s => _ end) as [neg t].
  assert (∀ un, match t with EmptyString => inr ErrSyntax | String _ _ => parse_uint t 0 end = inl un →
    0 ≤ un) as Hun.
  { intros un. destruct t; [done|]. intros Hp. apply parse_uint_range in Hp; [lia|done]. }
  destruct (match t with EmptyString => inr ErrSyntax | String _ _ => parse_uint t 0 end)
    as [un|[]] eqn:Hm; simpl; [|done|by destruct neg].
  specialize (Hun un eq_refl). destruct neg.
  - destruct (two63 <? un); [done|]. apply wrap64_bounds.
  - destruct (Z.leb_spec two63 un); [done|]. unfold in_int64, min_int64, max_int64. simpl.
    unfold two63 in *. lia.
Qed.
