(* ===== verification/GoFmt.v ===== *)
(** * [fmt.Sprintf]

    Format strings with the plain verbs [%s], [%d], [%v] and the escape [%%], on
    strings and integers: a verb takes the next operand, and a format that does
    not fit its operands is reported inside the text.  Flags, widths and the
    other verbs are outside: a format that uses them has no text here. *)
From stdpp Require Import base numbers list strings pretty.
From S2P Require Import Prelude GoStd GoStrings.

#[local] Open Scope string_scope.

(** An operand, with its dynamic type. *)
Inductive operand := OStr (s : string) | OInt (z : Z).

Definition type_of (a : operand) : string :=
  match a with OStr _ => "string" | OInt _ => "int" end.

(** [printArg] under the verb [v]. *)
Definition print_v (a : operand) : string :=
  match a with OStr s => s | OInt z => pretty z end.

(** [badVerb] *)
Definition badVerb (verb : ascii) (a : operand) : string :=
  "%!" +:+ String verb ("(" +:+ type_of a +:+ "=" +:+ print_v a +:+ ")").

(** The verbs that are modelled. *)
Definition verb_ok (verb : ascii) : bool :=
  bool_decide (verb = "s"%char ∨ verb = "d"%char ∨ verb = "v"%char).

Definition printArg (verb : ascii) (a : operand) : string :=
  match a with
  | OStr _ => if decide (verb = "d"%char) then badVerb verb a else print_v a
  | OInt _ => if decide (verb = "s"%char) then badVerb verb a else print_v a
  end.

(** The report of the operands no verb took. *)
Fixpoint extra_list (args : list operand) : string :=
  match args with
  | [] => ""
  | [a] => type_of a +:+ "=" +:+ print_v a
  | a :: args => type_of a +:+ "=" +:+ print_v a +:+ ", " +:+ extra_list args
  end.

Definition extra (args : list operand) : string :=
  match args with [] => "" | _ => "%!(EXTRA " +:+ extra_list args +:+ ")" end.

Fixpoint Sprintf (format : string) (args : list operand) : option string :=
  match format with
  | EmptyString => Some (extra args)
  | String c rest =>
    if negb (bool_decide (c = "%"%char)) then String c <$> Sprintf rest args
    else match rest with
    | EmptyString => Some ("%!(NOVERB)" +:+ extra args)
    | String verb rest =>
      if bool_decide (verb = "%"%char) then String "%" <$> Sprintf rest args
      else if negb (verb_ok verb) then None
      else match args with
      | [] => String.append ("%!" +:+ String verb "(MISSING)") <$> Sprintf rest []
      | a :: args => String.append (printArg verb a) <$> Sprintf rest args
      end
    end
  end.

(** ** Text without verbs *)

(** Text with no percent sign. *)
Fixpoint plain (s : string) : bool :=
  match s with
  | EmptyString => true
  | String c s => negb (bool_decide (c = "%"%char)) && plain s
  end.

Lemma plain_app s1 s2 : plain (s1 +:+ s2) = plain s1 && plain s2.
Proof. induction s1 as [|c s1 IH]; [done|]. change (String c s1 +:+ s2) with (String c (s1 +:+ s2)).
  cbn [plain]. rewrite IH. by destruct (bool_decide _). Qed.

(** It is copied. *)
Lemma Sprintf_plain_app s format args :
  plain s = true → Sprintf (s +:+ format) args = String.append s <$> Sprintf format args.
Proof.
  induction s as [|c s IH]; intros Hs.
  - change (EmptyString +:+ format) with format. by destruct (Sprintf format args) as [t|].
  - change (String c s +:+ format) with (String c (s +:+ format)). cbn [plain Sprintf] in *.
    apply andb_prop in Hs. destruct Hs as [Hc Hs]. rewrite Hc, (IH Hs). by destruct (Sprintf format args).
Qed.

Lemma Sprintf_plain s : plain s = true → Sprintf s [] = Some s.
Proof.
  intros Hs. rewrite <-(append_nil_r s) at 1. rewrite Sprintf_plain_app by done.
  cbn. by rewrite append_nil_r.
Qed.

(** A verb of the right type takes its operand. *)
Lemma Sprintf_s s format args :
  Sprintf (String "%" (String "s" format)) (OStr s :: args) =
  String.append s <$> Sprintf format args.
Proof. done. Qed.

Lemma Sprintf_d z format args :
  Sprintf (String "%" (String "d" format)) (OInt z :: args) =
  String.append (pretty z) <$> Sprintf format args.
Proof. done. Qed.

(** The examples of the documentation of [fmt]. *)
Example Sprintf_wrong_verb : Sprintf "%d" [OStr "hi"] = Some "%!d(string=hi)".
Proof. reflexivity. Qed.

Example Sprintf_too_few : Sprintf "hi%d" [] = Some "hi%!d(MISSING)".
Proof. reflexivity. Qed.

Example Sprintf_too_many : Sprintf "hi%s" [OStr "guys"; OInt 2] = Some "higuys%!(EXTRA int=2)".
Proof. reflexivity. Qed.

Example Sprintf_noverb : Sprintf "100%" [] = Some "100%!(NOVERB)".
Proof. reflexivity. Qed.
