(* ===== verification/Topics.v ===== *)
(** * Wildcard topics ([src/src/topics.go])

    A connection may be registered under a pattern key; a concrete key reaches
    it when the pattern matches. *)
From stdpp Require Import base strings.
From S2P Require Import Prelude GoStd PathMatch.

(** Whether a key contains glob metacharacters. *)
Definition hasWildcard (key : string) : bool := ContainsAny key "*?[".

(** Whether a (possibly wildcard) subscription pattern matches a concrete key. *)
Definition keyMatches (pattern key : string) : bool :=
  if negb (hasWildcard pattern) then bool_decide (pattern = key)
  else match Match pattern key with Some ok => ok | None => false end.

Lemma keyMatches_concrete pattern key :
  hasWildcard pattern = false → keyMatches pattern key = true ↔ pattern = key.
Proof. intros Hw. unfold keyMatches. rewrite Hw. simpl. apply bool_decide_eq_true. Qed.

Lemma IndexByte_None s b : IndexByte s b = None ↔ b ∉ str_bytes s.
Proof.
  induction s as [|c s IH]; simpl; [set_solver|].
  destruct (decide (c = b)) as [->|Hne]; [split; [done|set_solver]|].
  rewrite fmap_None, IH. set_solver.
Qed.

Lemma hasWildcard_prefix_star p : hasWildcard (String.append p "*") = true.
Proof.
  apply ContainsAny_true. exists "*"%char. split; [|set_solver].
  induction p as [|c p IH]; [by left|by right].
Qed.

(** A subscription to a prefix followed by a star receives exactly the keys
    that begin with the prefix and have no slash after it. *)
Theorem prefix_subscription p key :
  literal p →
  keyMatches (String.append p "*") key = true ↔
  ∃ rest, key = String.append p rest ∧ "/"%char ∉ str_bytes rest.
Proof.
  intros Hp. unfold keyMatches. rewrite hasWildcard_prefix_star. cbn [negb].
  rewrite Match_prefix_star, andb_true_iff, bool_decide_eq_true, IndexByte_None,
    str_prefix_split by done. split.
  - intros [[t ->] Ht]. rewrite str_drop_append in Ht. by exists t.
  - intros (t & -> & Ht). rewrite str_drop_append. split; [by exists t|done].
Qed.

Lemma prefix_subscription_witness :
  keyMatches "org.*" "org.sales" = true ↔
  ∃ rest, "org.sales" = String.append "org." rest ∧ "/"%char ∉ str_bytes rest.
Proof. apply (prefix_subscription "org."). repeat constructor; done. Defined.
