(* ===== verification/Glob.v ===== *)
(** * Glob subscriptions against a declarative grammar

    [glob] says what the documentation of [path.Match] says of literals, [?] and
    [*]: a star stands for any run of bytes without a slash.  The matcher does
    not backtrack over its stars: it commits to the first place where the chunk
    after a star fits.  Here it is shown to decide [glob] all the same, on the
    patterns without classes and escapes. *)
From stdpp Require Import base numbers list strings.
From S2P Require Import Prelude GoStd GoStrings PathMatch Topics.

#[local] Open Scope Z_scope.

(** ** The grammar *)

Inductive glob : string → string → Prop :=
| glob_nil : glob "" ""
| glob_literal c p name :
  c ≠ "*"%char → c ≠ "?"%char → glob p name → glob (String c p) (String c name)
| glob_any c p name : c ≠ "/"%char → glob p name → glob (String "?" p) (String c name)
| glob_star_end p name : glob p name → glob (String "*" p) name
| glob_star_skip c p name :
  c ≠ "/"%char → glob (String "*" p) name → glob (String "*" p) (String c name).

(** A pattern without classes and escapes. *)
Definition simple (p : string) : Prop :=
  Forall (λ c, c ≠ "["%char ∧ c ≠ "\"%char) (str_bytes p).

(** A question mark stands for a character: the names it meets are ASCII. *)
Definition one_byte (p name : string) : Prop :=
  "?"%char ∈ str_bytes p → Forall (λ c, byte_of c < 128) (str_bytes name).

(** ** Chunks *)

Definition starless (p : string) : Prop := "*"%char ∉ str_bytes p.

(** The bytes of [chunk] accept the first bytes of [s], one by one. *)
Fixpoint fits (chunk s : string) : bool :=
  match chunk, s with
  | EmptyString, _ => true
  | String _ _, EmptyString => false
  | String c chunk, String c0 s =>
    (if decide (c = "?"%char) then negb (bool_decide (c0 = "/"%char)) else bool_decide (c = c0)) &&
    fits chunk s
  end.

Lemma one_byte_cons c p c0 name : one_byte (String c p) (String c0 name) → one_byte p name.
Proof. intros H Hq. apply (Forall_cons_1 _ c0). apply H. by right. Qed.

Lemma matchChunk_loop_failed n chunk s :
  (String.length chunk ≤ n)%nat → simple chunk →
  matchChunk_loop n chunk s true = Some (EmptyString, false).
Proof.
  revert chunk s. induction n as [|n IH]; intros [|c chunk] s Hn Hs; simpl in Hn; try lia; try done.
  apply Forall_cons in Hs as [(H1 & H2) Hs]. cbn [matchChunk_loop]. rewrite decide_False by done.
  cbn [orb]. destruct (decide (c = "?"%char)).
  - destruct s; by apply IH; [lia|].
  - rewrite decide_False by done. cbn [mbind option_bind]. destruct s; by apply IH; [lia|].
Qed.

Lemma matchChunk_loop_simple n chunk s :
  (String.length chunk ≤ n)%nat → simple chunk → one_byte chunk s →
  matchChunk_loop n chunk s false =
  Some (if fits chunk s then (str_drop (String.length chunk) s, true) else (EmptyString, false)).
Proof.
  revert chunk s. induction n as [|n IH]; intros [|c chunk] s Hn Hs Hb; simpl in Hn; try lia;
    try (by destruct s).
  pose proof Hs as Hs'. apply Forall_cons in Hs as [(H1 & H2) Hs].
  cbn [matchChunk_loop]. rewrite decide_False by done.
  destruct s as [|c0 s].
  { cbn [orb]. rewrite bool_decide_eq_true_2 by done. cbn [fits].
    destruct (decide (c = "?"%char)); [by apply matchChunk_loop_failed; [lia|]|].
    rewrite decide_False by done. cbn [mbind option_bind].
    by apply matchChunk_loop_failed; [lia|]. }
  rewrite (bool_decide_eq_false_2 (String c0 s = "")) by done. cbn [orb fits].
  destruct (decide (c = "?"%char)) as [->|Hc].
  - assert (byte_of c0 < 128) as Hc0.
    { assert (Forall (λ c, byte_of c < 128) (str_bytes (String c0 s))) as Hf by (apply Hb; left).
      by apply Forall_cons in Hf as [? _]. }
    rewrite DecodeRune_ascii by done. cbn [snd].
    assert (str_drop 1 (String c0 s) = s) as -> by by destruct s.
    destruct (bool_decide (c0 = "/"%char)); cbn [negb andb].
    + by apply matchChunk_loop_failed; [lia|].
    + rewrite IH; [done|lia|done|by eapply one_byte_cons].
  - rewrite decide_False by done. cbn [mbind option_bind].
    destruct (decide (c = c0)) as [->|Hne].
    + rewrite (bool_decide_eq_false_2 (c0 ≠ c0)) by (by intros ?).
      rewrite (bool_decide_eq_true_2 (c0 = c0)) by done. cbn [andb].
      rewrite IH; [done|lia|done|by eapply one_byte_cons].
    + rewrite (bool_decide_eq_true_2 (c ≠ c0)), (bool_decide_eq_false_2 (c = c0)) by done. cbn [andb].
      by apply matchChunk_loop_failed; [lia|].
Qed.

Lemma matchChunk_simple chunk s :
  simple chunk → one_byte chunk s →
  matchChunk chunk s =
  Some (if fits chunk s then (str_drop (String.length chunk) s, true) else (EmptyString, false)).
Proof. intros Hs Hb. by apply matchChunk_loop_simple. Qed.

(** A chunk in front of a pattern. *)
Lemma glob_chunk chunk rest name :
  starless chunk →
  glob (String.append chunk rest) name ↔
  fits chunk name = true ∧ glob rest (str_drop (String.length chunk) name).
Proof.
  revert name. induction chunk as [|c chunk IH]; intros name Hs.
  { simpl. split; [by intros|by intros [_ ?]]. }
  apply not_elem_of_cons in Hs as [Hc Hs]. rewrite append_cons. simpl.
  destruct name as [|c0 name].
  { split; [|by intros [? _]]. inversion 1; congruence. }
  simpl. rewrite andb_true_iff. specialize (IH name Hs). split.
  - intros Hg. inversion Hg as [|c1 p1 n1 H1 H2 Hg1|c1 p1 n1 H1 Hg1|p1 n1 Hg1|c1 p1 n1 H1 Hg1];
      subst; try congruence.
    + rewrite decide_False, bool_decide_eq_true_2 by done. by apply IH in Hg1 as [? ?].
    + rewrite decide_True, bool_decide_eq_false_2 by done. by apply IH in Hg1 as [? ?].
  - intros [[Hhd Hf] Hg]. destruct (decide (c = "?"%char)) as [->|Hq].
    + apply glob_any; [|by apply IH]. apply negb_true_iff, bool_decide_eq_false in Hhd. done.
    + apply bool_decide_eq_true in Hhd as <-. apply glob_literal; [by intros ->|done|by apply IH].
Qed.

(** ** Stars

    A star takes [k] bytes, none of them a slash; positions are counted on the
    bytes of the name. *)

(** No slash in the first [k] bytes. *)
Definition free (k : nat) (s : string) : Prop := ∀ i, (i < k)%nat → str_bytes s !! i ≠ Some "/"%char.

Lemma free_cons k c s : free (S k) (String c s) ↔ c ≠ "/"%char ∧ free k s.
Proof.
  split.
  - intros H. split; [intros ->; by apply (H 0%nat); [lia|]|]. intros i Hi. apply (H (S i)). lia.
  - intros [Hc H] [|i] Hi; simpl; [by intros [= ->]|]. apply H. lia.
Qed.

Lemma free_0 s : free 0 s.
Proof. intros i Hi. lia. Qed.

Lemma str_bytes_drop k s : str_bytes (str_drop k s) = drop k (str_bytes s).
Proof. revert s. induction k as [|k IH]; intros [|c s]; simpl; auto. Qed.

Lemma str_drop_drop a b s : str_drop a (str_drop b s) = str_drop (b + a) s.
Proof. revert s. induction b as [|b IH]; intros [|c s]; simpl; auto. by destruct a. Qed.

Lemma str_drop_S k c s : str_drop (S k) (String c s) = str_drop k s.
Proof. done. Qed.

Lemma str_drop_0 s : str_drop 0 s = s.
Proof. by destruct s. Qed.

(** The declarative reading of a star. *)
Lemma glob_star p name :
  glob (String "*" p) name ↔
  ∃ k, (k ≤ String.length name)%nat ∧ free k name ∧ glob p (str_drop k name).
Proof.
  split.
  - remember (String "*" p) as q eqn:Hq. intros Hg. revert Hq.
    induction Hg as [|c p' n Hc _ _ _|c p' n _ _ _|p' n Hg _|c p' n Hc Hg IH]; intros Hq;
      simplify_eq.
    + exists 0%nat. rewrite str_drop_0. split_and!; [lia|apply free_0|done].
    + destruct (IH eq_refl) as (k & Hk & Hf & Hg'). exists (S k). simpl.
      split_and!; [lia|by apply free_cons|done].
  - intros (k & Hk & Hf & Hg). revert name Hk Hf Hg.
    induction k as [|k IH]; intros name Hk Hf Hg.
    { rewrite str_drop_0 in Hg. by apply glob_star_end. }
    destruct name as [|c name]; simpl in *; [lia|]. apply free_cons in Hf as [Hc Hf].
    apply glob_star_skip; [done|]. apply IH; [lia|done..].
Qed.

Lemma glob_stars p name : glob (String "*" (String "*" p)) name ↔ glob (String "*" p) name.
Proof.
  split; [|by apply glob_star_end]. rewrite !glob_star.
  intros (k & Hk & Hf & Hg). apply glob_star in Hg as (k' & Hk' & Hf' & Hg).
  rewrite str_drop_length in Hk'. exists (k + k')%nat. rewrite str_drop_drop in Hg.
  split_and!; [lia| |done]. intros i Hi. destruct (decide (i < k)%nat); [by apply Hf|].
  specialize (Hf' (i - k)%nat ltac:(lia)). rewrite str_bytes_drop, lookup_drop in Hf'.
  by replace (k + (i - k))%nat with i in Hf' by lia.
Qed.

Lemma glob_strip_stars p name :
  (strip_stars p).1 = true → glob p name ↔ glob (String "*" (strip_stars p).2) name.
Proof.
  revert name. induction p as [|c p IH]; simpl; [done|]. intros name.
  destruct (decide (c = "*"%char)) as [->|]; [|done]. intros _. simpl. destruct (strip_stars p) as [[] q] eqn:Hs.
  - simpl in *. rewrite <-(glob_stars q), (glob_star p), (glob_star (String "*" q)).
    assert (∀ n, glob p n ↔ glob (String "*" q) n) as Hpq by (intros n; by apply IH).
    by setoid_rewrite Hpq.
  - assert (q = p) as ->; [|done]. destruct p as [|c p]; simpl in Hs; [by simplify_eq|].
    destruct (decide (c = "*"%char)); by simplify_eq.
Qed.

(** ** Patterns in chunks *)

Lemma scan_simple p chunk rest :
  simple p → scan false p = (chunk, rest) →
  p = String.append chunk rest ∧ starless chunk ∧ simple chunk ∧ simple rest ∧
  (rest = "" ∨ ∃ p', rest = String "*" p') ∧
  ∀ name, one_byte p name → one_byte chunk name ∧ one_byte rest name.
Proof.
  revert chunk rest. induction p as [|c p IH]; intros chunk rest Hs; cbn [scan].
  { intros [= <- <-]. split_and!; [done|by apply not_elem_of_nil|done|done|by left|done]. }
  pose proof Hs as Hs'. apply Forall_cons in Hs as [(H1 & H2) Hs].
  destruct (decide (c = "*"%char ∧ false = false)) as [[-> _]|Hc].
  { intros [= <- <-]. split_and!; [done|by apply not_elem_of_nil|constructor|done|by right; eexists|].
    intros name H. split; [by intros ?%elem_of_nil|done]. }
  rewrite (decide_False (P := c = "\"%char)), (decide_False (P := c = "["%char)) by done.
  replace (if decide (c = "]"%char) then false else false) with false
    by by destruct (decide (c = "]"%char)).
  destruct (scan false p) as [ch re]. intros [= <- <-].
  destruct (IH ch re Hs eq_refl) as (-> & Hst & Hsc & Hsr & Hr & Hb).
  split_and!; [done| |by constructor|done|done|].
  - apply not_elem_of_cons. split; [by intros <-; apply Hc|done].
  - intros name H. destruct (Hb name) as [Hb1 Hb2]; [intros Hq; apply H; by right|].
    split; [|done]. intros [<-|Hin]%elem_of_cons; [apply H; by left|by apply Hb1].
Qed.

Lemma strip_stars_simple p : simple p → simple (strip_stars p).2.
Proof.
  induction p as [|c p IH]; simpl; [done|]. intros Hs. pose proof Hs as Hs'.
  apply Forall_cons in Hs as [_ Hs]. destruct (decide _); [by apply IH|done].
Qed.

Lemma strip_stars_one_byte p name : one_byte p name → one_byte (strip_stars p).2 name.
Proof.
  induction p as [|c p IH]; simpl; [done|]. intros Hb. destruct (decide _); [|done].
  apply IH. intros Hq. apply Hb. by right.
Qed.

Lemma strip_stars_head p c q : (strip_stars p).2 = String c q → c ≠ "*"%char.
Proof.
  induction p as [|c' p IH]; simpl; [done|]. destruct (decide _) as [|Hne]; [done|].
  by intros [= <- <-].
Qed.

Lemma strip_stars_none p : (strip_stars p).1 = false → (strip_stars p).2 = p.
Proof. destruct p as [|c p]; simpl; [done|]. by destruct (decide _). Qed.

(** What a chunk scan gives on a simple pattern. *)
Lemma scanChunk_simple p star chunk rest :
  simple p → scanChunk p = (star, chunk, rest) →
  (∀ name, glob p name ↔
     glob (if star then String "*" (String.append chunk rest) else String.append chunk rest) name) ∧
  starless chunk ∧ simple chunk ∧ simple rest ∧
  (rest = "" ∨ ∃ p', rest = String "*" p') ∧ (chunk = "" → rest = "") ∧
  ∀ name, one_byte p name → one_byte chunk name ∧ one_byte rest name.
Proof.
  intros Hs. unfold scanChunk. pose proof (strip_stars_simple p Hs) as Hq.
  pose proof (strip_stars_head p) as Hh. pose proof (glob_strip_stars p) as Hg.
  pose proof (strip_stars_one_byte p) as Hb. pose proof (strip_stars_none p) as Hn.
  destruct (strip_stars p) as [st q]. destruct (scan false q) as [ch re] eqn:Hsc.
  intros [= <- <- <-]. apply scan_simple in Hsc as (-> & Hst & Hsc & Hsr & Hr & Hb'); [|done].
  cbn [fst snd] in *. split_and!; try done.
  - intros name. destruct st; [by apply Hg|]. by rewrite Hn.
  - intros ->. destruct Hr as [->|[p' ->]]; [done|]. by destruct (Hh _ _ eq_refl).
  - intros name H. by apply Hb', Hb.
Qed.

(** ** Committing to the first fit *)

Lemma str_bytes_length s : length (str_bytes s) = String.length s.
Proof. induction s as [|c s IH]; simpl; congruence. Qed.

(** The slashes of a name are where its chunk has them. *)
Lemma fits_slash chunk s i :
  fits chunk s = true → (i < String.length chunk)%nat →
  str_bytes s !! i = Some "/"%char ↔ str_bytes chunk !! i = Some "/"%char.
Proof.
  revert s i. induction chunk as [|c chunk IH]; intros [|c0 s] i Hf Hi; simpl in Hi; try lia;
    simpl in Hf; [done|]. apply andb_true_iff in Hf as [Hc Hf]. destruct i as [|i].
  - simpl. destruct (decide (c = "?"%char)) as [->|].
    + apply negb_true_iff, bool_decide_eq_false in Hc. split; [by intros [= ->]|done].
    + by apply bool_decide_eq_true in Hc as ->.
  - apply (IH s i); [done|lia].
Qed.

Lemma fits_length chunk s : fits chunk s = true → (String.length chunk ≤ String.length s)%nat.
Proof.
  revert s. induction chunk as [|c chunk IH]; intros [|c0 s] Hf; simpl in *; try done; [lia|].
  apply andb_true_iff in Hf as [_ Hf%IH]. lia.
Qed.

(** A chunk that fits at [k1], and again at a later [k] that no slash
    precedes, has no slash beyond [k1]. *)
Lemma free_fit chunk k1 k s :
  (k1 < k)%nat → free k s →
  fits chunk (str_drop k1 s) = true → fits chunk (str_drop k s) = true →
  free (k + String.length chunk) s.
Proof.
  intros Hlt Hfree H1 H2 i. induction i as [i IH] using lt_wf_ind. intros Hi Hs.
  destruct (decide (i < k)%nat) as [Hik|Hik]; [by apply (Hfree i)|].
  apply (IH (k1 + (i - k))%nat); [lia..|].
  rewrite <-lookup_drop, <-str_bytes_drop. apply (fits_slash chunk); [done|lia|].
  apply (fits_slash chunk (str_drop k s)); [done|lia|].
  rewrite str_bytes_drop, lookup_drop. by replace (k + (i - k))%nat with i by lia.
Qed.

Lemma glob_commit chunk p k1 k s :
  (k1 ≤ k)%nat → (k ≤ String.length s)%nat → free k s →
  fits chunk (str_drop k1 s) = true → fits chunk (str_drop k s) = true →
  glob (String "*" p) (str_drop (k + String.length chunk) s) →
  glob (String "*" p) (str_drop (k1 + String.length chunk) s).
Proof.
  intros Hle Hk Hfree H1 H2 Hg. destruct (decide (k1 = k)) as [->|]; [done|].
  pose proof (free_fit chunk k1 k s ltac:(lia) Hfree H1 H2) as Hf.
  apply glob_star in Hg as (k' & Hk' & Hf' & Hg). rewrite str_drop_drop in Hg.
  rewrite str_drop_length in Hk'. set (L := String.length chunk) in *.
  destruct (decide (k + L ≤ String.length s)%nat) as [HL|HL].
  - apply glob_star. exists (k - k1 + k')%nat. rewrite str_drop_drop, str_drop_length.
    replace (k1 + L + (k - k1 + k'))%nat with (k + L + k')%nat by lia.
    split_and!; [lia| |done]. intros i Hi. rewrite str_bytes_drop, lookup_drop.
    destruct (decide (k1 + L + i < k + L)%nat); [by apply Hf|].
    specialize (Hf' (k1 + L + i - (k + L))%nat ltac:(lia)).
    rewrite str_bytes_drop, lookup_drop in Hf'.
    by replace (k + L + (k1 + L + i - (k + L)))%nat with (k1 + L + i)%nat in Hf' by lia.
  - apply fits_length in H2. rewrite str_drop_length in H2. lia.
Qed.

(** ** The matcher *)

Lemma one_byte_drop p k name : one_byte p name → one_byte p (str_drop k name).
Proof. intros H Hq. rewrite str_bytes_drop. apply Forall_drop, H, Hq. Qed.

(** The matcher goes on from [s] after [chunk]: it fits, and it uses up the name
    when nothing follows it. *)
Definition accepts (chunk : string) (last : bool) (s : string) : bool :=
  fits chunk s && negb (last && bool_decide (str_drop (String.length chunk) s ≠ EmptyString)).

Lemma accepts_spec chunk last s :
  simple chunk → one_byte chunk s →
  ∃ t ok, matchChunk chunk s = Some (t, ok) ∧
    ok && negb (last && bool_decide (t ≠ EmptyString)) = accepts chunk last s ∧
    (accepts chunk last s = true → t = str_drop (String.length chunk) s).
Proof.
  intros Hs Hb. rewrite (matchChunk_simple chunk s Hs Hb). unfold accepts.
  destruct (fits chunk s); eexists _, _; by split_and!.
Qed.

(** The search of a starred chunk finds the first later place that is accepted. *)
Lemma star_skip_spec chunk last name :
  simple chunk → one_byte chunk name →
  ∃ r, star_skip chunk last name = Some r ∧
    match r with
    | Some t => ∃ k, (0 < k ≤ String.length name)%nat ∧ free k name ∧
        accepts chunk last (str_drop k name) = true ∧ t = str_drop (k + String.length chunk) name ∧
        ∀ j, (0 < j < k)%nat → accepts chunk last (str_drop j name) = false
    | None => ∀ k, (0 < k ≤ String.length name)%nat → free k name →
        accepts chunk last (str_drop k name) = false
    end.
Proof.
  intros Hs. induction name as [|c name IH]; intros Hb; cbn [star_skip].
  { exists None. split; [done|]. simpl. lia. }
  destruct (decide (c = "/"%char)) as [->|Hc].
  { exists None. split; [done|]. intros [|k] ? Hf; [lia|]. by apply free_cons in Hf as [? _]. }
  assert (one_byte chunk name) as Hb'
    by (apply (one_byte_drop chunk 1) in Hb; by destruct name).
  destruct (accepts_spec chunk last name Hs Hb') as (t & ok & -> & Hacc & Ht).
  cbn [mbind option_bind]. rewrite Hacc. destruct (accepts chunk last name) eqn:Ha.
  - exists (Some t). split; [done|]. exists 1%nat. cbn [Nat.add]. rewrite !str_drop_S, str_drop_0.
    split_and!; [lia|simpl; lia| |done|by apply Ht|lia]. apply free_cons. split; [done|apply free_0].
  - destruct (IH Hb') as (r & -> & Hr). exists r. split; [done|]. destruct r as [t'|].
    + destruct Hr as (k & Hk & Hf & Hak & -> & Hmin). exists (S k). cbn [Nat.add].
      rewrite !str_drop_S. split_and!; [lia|simpl; lia|by apply free_cons|done|done|].
      intros [|[|j]] Hj; rewrite ?str_drop_S; [lia|by rewrite str_drop_0|]. apply (Hmin (S j)). lia.
    + intros [|[|k]] Hk Hf; rewrite ?str_drop_S; simpl in Hk; [lia|by rewrite str_drop_0|].
      apply free_cons in Hf as [_ Hf]. apply (Hr (S k)); [lia|done].
Qed.

Lemma check_rest_simple n p :
  (String.length p ≤ n)%nat → simple p → check_rest n p = Some false.
Proof.
  revert p. induction n as [|n IH]; intros [|c p] Hn Hs; simpl in Hn; try done; [lia|].
  cbn [check_rest]. destruct (scanChunk (String c p)) as [[star chunk] rest] eqn:Hsc.
  pose proof (scanChunk_shrinks _ _ _ _ _ Hsc).
  apply scanChunk_simple in Hsc as (_ & _ & Hsch & Hsr & _); [|done].
  rewrite (matchChunk_simple chunk ""); [|done|by constructor].
  cbn [mbind option_bind]. apply IH; [lia|done].
Qed.

Lemma glob_empty name : glob "" name ↔ name = "".
Proof. split; [by inversion 1|intros ->; constructor]. Qed.

Lemma glob_accepts chunk rest s :
  fits chunk s = true → glob rest (str_drop (String.length chunk) s) →
  accepts chunk (bool_decide (rest = "")) s = true.
Proof.
  intros Hf Hg. unfold accepts. rewrite Hf. case_bool_decide as Hr; [|done]. subst rest.
  apply glob_empty in Hg. by rewrite Hg.
Qed.

Section star.
Context (chunk rest name : string).
Context (Hchunk : starless chunk) (Hrest : rest = "" ∨ ∃ p, rest = String "*" p).

Abbreviation last := (bool_decide (rest = "")).
Abbreviation pattern := (String "*" (String.append chunk rest)).

(** Only an accepted place leads to a match. *)
Lemma star_places :
  glob pattern name →
  ∃ k, (k ≤ String.length name)%nat ∧ free k name ∧
    accepts chunk last (str_drop k name) = true ∧ fits chunk (str_drop k name) = true ∧
    glob rest (str_drop (k + String.length chunk) name).
Proof.
  intros (k & Hk & Hf & Hg)%glob_star. apply glob_chunk in Hg as [Hc Hg]; [|done].
  exists k. rewrite <-str_drop_drop. split_and!; [done..| |done|done].
  by apply glob_accepts.
Qed.

(** The first accepted place leads to one if any does. *)
Lemma star_first k1 :
  (k1 ≤ String.length name)%nat → free k1 name →
  accepts chunk last (str_drop k1 name) = true →
  (∀ j, (j < k1)%nat → accepts chunk last (str_drop j name) = false) →
  glob rest (str_drop (k1 + String.length chunk) name) ↔ glob pattern name.
Proof.
  intros Hk1 Hf1 Ha1 Hmin. apply andb_true_iff in Ha1 as [Hc1 Hl1]. split.
  - intros Hg. apply glob_star. exists k1. split_and!; [done..|].
    apply glob_chunk; [done|]. by rewrite str_drop_drop.
  - intros (k & Hk & Hf & Ha & Hc & Hg)%star_places.
    assert (k1 ≤ k)%nat as Hle.
    { destruct (decide (k < k1)%nat) as [Hlt|]; [|lia]. by rewrite (Hmin k Hlt) in Ha. }
    destruct Hrest as [Hr|[p' Hr]]; rewrite Hr in *.
    + apply glob_empty. rewrite bool_decide_eq_true_2 in Hl1 by done. simpl in Hl1.
      apply negb_true_iff, bool_decide_eq_false, dec_stable in Hl1.
      by rewrite <-str_drop_drop.
    + by apply (glob_commit chunk p' k1 k).
Qed.
End star.

Lemma glob_lone_star name :
  glob "*" name ↔ IndexByte name "/"%char = None.
Proof.
  rewrite IndexByte_None, list_elem_of_lookup, glob_star. split.
  - intros (k & Hk & Hf & Hg%glob_empty) [i Hi]. apply (Hf i); [|done].
    apply (f_equal String.length) in Hg. rewrite str_drop_length in Hg. simpl in Hg.
    apply lookup_lt_Some in Hi. rewrite str_bytes_length in Hi. lia.
  - intros Hn. exists (String.length name). split_and!; [lia|by intros i _ Hi; apply Hn; exists i|].
    apply glob_empty. clear. by induction name.
Qed.

(** The two places where the matcher looks at what a chunk left agree. *)
Lemma commit_test ok t rest :
  ok && (bool_decide (t = EmptyString) || bool_decide (rest ≠ EmptyString)) =
  ok && negb (bool_decide (rest = EmptyString) && bool_decide (t ≠ EmptyString)).
Proof. destruct ok, t, rest; reflexivity. Qed.

(** The loop stops with a verdict, and the verdict is the grammar's. *)
Lemma Match_loop_simple n p name :
  (String.length p ≤ n)%nat → simple p → one_byte p name →
  ∃ b, Match_loop n p name = Some b ∧ (b = true ↔ glob p name).
Proof.
  revert p name. induction n as [|n IH]; intros [|c p] name Hn Hs Hb; simpl in Hn; try lia;
    [eexists; split; [done|]; by rewrite bool_decide_eq_true, glob_empty..|].
  cbn [Match_loop]. destruct (scanChunk (String c p)) as [[star chunk] rest] eqn:Hsc.
  pose proof (scanChunk_shrinks _ _ _ _ _ Hsc) as Hlen.
  apply scanChunk_simple in Hsc as (Hg & Hst & Hsch & Hsr & Hr & Hce & Hb'); [|done].
  destruct (Hb' name Hb) as [Hbc Hbr]. setoid_rewrite Hg. clear Hg.
  destruct (star && bool_decide (chunk = EmptyString)) eqn:Hlone.
  { apply andb_true_iff in Hlone as [-> ->%bool_decide_eq_true]. rewrite (Hce eq_refl).
    eexists. split; [done|]. by rewrite bool_decide_eq_true, glob_lone_star. }
  destruct (accepts_spec chunk (bool_decide (rest = "")) name Hsch Hbc)
    as (t & ok & -> & Hacc & Ht).
  cbn [mbind option_bind]. rewrite commit_test, Hacc.
  destruct (accepts chunk (bool_decide (rest = "")) name) eqn:Ha.
  - rewrite (Ht eq_refl).
    destruct (IH rest (str_drop (String.length chunk) name)) as (b & -> & Hiff);
      [lia|done|by apply one_byte_drop|].
    exists b. split; [done|]. rewrite Hiff. destruct star.
    + apply (star_first chunk rest name Hst Hr 0); [lia|apply free_0|by rewrite str_drop_0|lia].
    + apply andb_true_iff in Ha as [Hc _]. rewrite (glob_chunk chunk rest name Hst), Hc.
      split; [by split|by intros [_ ?]].
  - destruct star.
    + destruct (star_skip_spec chunk (bool_decide (rest = "")) name Hsch Hbc) as (r & -> & Hskip).
      cbn [mbind option_bind]. destruct r as [t'|].
      * destruct Hskip as (k & Hk & Hf & Hak & -> & Hmin).
        destruct (IH rest (str_drop (k + String.length chunk) name)) as (b & -> & Hiff);
          [lia|done|by apply one_byte_drop|].
        exists b. split; [done|]. rewrite Hiff.
        apply (star_first chunk rest name Hst Hr k); [lia|done..|].
        intros [|j] Hj; [by rewrite str_drop_0|apply Hmin; lia].
      * rewrite check_rest_simple by done. exists false. split; [done|]. split; [done|].
        intros ([|k] & Hk & Hf & Hak & _)%star_places; [| |done].
        -- rewrite str_drop_0 in Hak. congruence.
        -- rewrite Hskip in Hak; [done|lia|done].
    + cbn [mbind option_bind]. rewrite check_rest_simple by done. exists false. split; [done|].
      split; [done|]. intros [Hc Hg]%glob_chunk; [|done].
      apply glob_accepts in Hg; congruence.
Qed.

(** A pattern without metacharacters denotes itself. *)
Lemma glob_concrete p name : hasWildcard p = false → p = name ↔ glob p name.
Proof.
  intros Hw.
  assert (∀ c, c ∈ str_bytes p → c ∉ str_bytes "*?[") as Hp.
  { intros c Hc Hin. assert (hasWildcard p = true); [|congruence].
    apply ContainsAny_true. by exists c. }
  clear Hw. split.
  - intros <-. induction p as [|c p IH]; [constructor|].
    assert (c ∉ str_bytes "*?[") as Hc by (apply Hp; left).
    apply glob_literal; [set_solver..|]. apply IH. intros c' Hc'. apply Hp. by right.
  - induction 1 as [|c p n _ _ _ IH|c p n _ _ _|p n _ _|c p n _ _ _];
      [done| |by destruct (Hp "?"%char); [left|set_solver]
       |by destruct (Hp "*"%char); [left|set_solver]
       |by destruct (Hp "*"%char); [left|set_solver]].
    rewrite IH; [done|]. intros c' Hc'. apply Hp. by right.
Qed.

(** ** The promise *)

(** C35: On a pattern of literals, question marks and stars, the matcher always
    gives a verdict, and a subscription matches a key exactly when the grammar
    does.  Committing to the first fit of a chunk loses no match. *)
Theorem keyMatches_glob pattern key :
  simple pattern → one_byte pattern key → keyMatches pattern key = true ↔ glob pattern key.
Proof.
  intros Hs Hb. unfold keyMatches. destruct (hasWildcard pattern) eqn:Hw; cbn [negb].
  - destruct (Match_loop_simple (String.length pattern) pattern key) as (b & Hm & Hiff); [done..|].
    unfold Match. by rewrite Hm.
  - rewrite bool_decide_eq_true. by apply glob_concrete.
Qed.

(** Backing off: the first [ab] of the name is not the one the match ends with. *)
Lemma keyMatches_glob_witness : glob "org.*ab?d" "org.xababcd".
Proof.
  apply (keyMatches_glob "org.*ab?d" "org.xababcd").
  - repeat constructor; done.
  - intros _. repeat constructor.
  - reflexivity.
Defined.
