(* ===== verification/Json.v ===== *)
(** * JSON documents as [encoding/json] decodes them

    A document is the tree its text denotes ([json]).  The translation between
    text and tree (the scanner and the number formatter of [encoding/json]) is
    the parameter [json_parse] of the class [JsonText]; the type-directed part
    of [json.Unmarshal] (which member goes to which struct field, what [null]
    and a wrong type do) is defined here and in the files of the types it fills. *)
From stdpp Require Import base numbers list gmap strings sorting.
From S2P Require Import Prelude GoStd GoTime.

#[local] Set Warnings "-register-all".

(** A decoded document: also the contents of a Go [any] that [Unmarshal]
    filled, [JNull] being the nil interface. *)
Inductive json :=
| JNull
| JBool (b : bool)
| JNum (x : float64)
| JStr (s : string)
| JArr (l : list json)
| JObj (members : list (string * json)).

(** [v == nil] *)
Definition is_nil (v : json) : bool := match v with JNull => true | _ => false end.

(** The text of a document to its tree; [None] is a syntax error. *)
Class JsonText := json_parse : string → option json.

(** ** Struct fields

    A member goes to the field with exactly its name, or else to the field
    whose name is the same up to Unicode case folding.  Only two characters
    outside ASCII fold to an ASCII letter: the Kelvin sign (to K) and the long
    s (to S). *)
Definition upper_byte (c : ascii) : ascii :=
  let b := byte_of c in
  if ((97 <=? b) && (b <=? 122))%Z then ascii_of_N (Z.to_N (b - 32)) else c.

Fixpoint foldName (s : string) : string :=
  match s with
  | String c1 s1 =>
    match s1 with
    | String c2 s2 =>
      if decide (c1 = "197"%char ∧ c2 = "191"%char) then String "S" (foldName s2) else
      match s2 with
      | String c3 s3 =>
        if decide (c1 = "226"%char ∧ c2 = "132"%char ∧ c3 = "170"%char)
        then String "K" (foldName s3)
        else String (upper_byte c1) (foldName s1)
      | EmptyString => String (upper_byte c1) (foldName s1)
      end
    | EmptyString => String (upper_byte c1) (foldName s1)
    end
  | EmptyString => EmptyString
  end.

(** The field a member named [name] is decoded into. *)
Definition find_field (fields : list string) (name : string) : option string :=
  if decide (name ∈ fields) then Some name
  else List.find (λ f, bool_decide (foldName f = foldName name)) fields.

(** ** Decoding into a string, a slice of strings and an [any]

    A wrong type leaves the target as it is and is recorded: the flag is true
    when [Unmarshal] will return an error. *)
Definition decode_string (v : json) (old : string) : string * bool :=
  match v with
  | JStr s => (s, false)
  | JNull => (old, false)
  | _ => (old, true)
  end.

(** A [[]string] during decoding: the elements written to its backing array
    since it was allocated, and its length.  A [null] element keeps what the
    slot held. *)
Record strings := Strings { backing : list string; slice_len : nat }.

Definition slice_view (s : strings) : list string := take (slice_len s) (backing s).

Fixpoint decode_elements (i : nat) (l : list json) (backing : list string) (err : bool)
  : list string * bool :=
  match l with
  | [] => (backing, err)
  | v :: l =>
    let '(s, e) := decode_string v (default EmptyString (backing !! i)) in
    let backing := if decide (i < length backing) then <[i:=s]> backing else backing ++ [s] in
    decode_elements (S i) l backing (err || e)
  end.

Definition decode_strings (v : json) (old : strings) : strings * bool :=
  match v with
  | JArr [] => (Strings [] 0, false)
  | JArr l =>
    let '(b, err) := decode_elements 0 l (backing old) false in (Strings b (length l), err)
  | JNull => (Strings [] 0, false)
  | _ => (old, true)
  end.

(** An [any] holds objects as maps: of the members with the same name the last
    one stays. *)
Fixpoint assoc_set {A} (k : string) (v : A) (l : list (string * A)) : list (string * A) :=
  match l with
  | [] => [(k, v)]
  | (k', v') :: l => if decide (k = k') then (k, v) :: l else (k', v') :: assoc_set k v l
  end.

Fixpoint decode_any (v : json) : json :=
  match v with
  | JArr l => JArr (decode_any <$> l)
  | JObj ms =>
    JObj (fold_left (λ acc kv, assoc_set kv.1 kv.2 acc)
                    ((fix go (ms : list (string * json)) :=
                        match ms with
                        | [] => []
                        | (k, v) :: ms => (k, decode_any v) :: go ms
                        end) ms) [])
  | _ => v
  end.

(** [data[k]] of a decoded [map[string]any]: the last member named [k]. *)
Definition map_index (k : string) (members : list (string * json)) : json :=
  default JNull (snd <$> List.find (λ kv, bool_decide (kv.1 = k)) (rev members)).

(** ** Marshalling of the maps the gateway builds *)

Definition member_le (a b : string * json) : Prop := String.leb a.1 b.1 = true.

#[export] Instance member_le_dec : RelDecision member_le.
Proof. intros a b. unfold member_le. apply _. Defined.

(** The members of a map in the order [json.Marshal] writes them: sorted by
    name. *)
Definition marshal_members (m : gmap string json) : json :=
  JObj (merge_sort member_le (map_to_list m)).

(** The contents of an [any]: its maps are sorted the same way, at every depth. *)
Fixpoint marshal_any (v : json) : json :=
  match v with
  | JArr l => JArr (marshal_any <$> l)
  | JObj ms =>
    JObj (merge_sort member_le
            ((fix go (ms : list (string * json)) :=
                match ms with
                | [] => []
                | (k, v) :: ms => (k, marshal_any v) :: go ms
                end) ms))
  | _ => v
  end.

Example fold_exact : find_field ["key"; "keys"] "keys" = Some "keys".
Proof. reflexivity. Qed.
Example fold_upper : find_field ["key"; "keys"] "KEY" = Some "key".
Proof. reflexivity. Qed.
Example fold_kelvin : find_field ["key"; "keys"] "Keyſ" = Some "keys".
Proof. reflexivity. Qed.
