(* ===== verification/JsonCodec.v ===== *)
(** * JSON text: what printing and parsing promise each other

    The scanner and the printer of [encoding/json] are parameters ([JsonText],
    [JsonPrint]).  [JsonLaws] states what Go documents of them: a document that
    can be marshalled parses back to itself, with the bytes that are not UTF-8
    replaced, and what [Unmarshal] accepts holds valid strings and finite numbers
    only. *)
From stdpp Require Import base numbers list gmap strings sorting.
From Corelib Require Import SpecFloat.
From S2P Require Import Prelude GoStd GoTime Utf8 Json.

(** ** Documents *)

(** [f] on the members of an object. *)
Definition on_members (f : json → json) (ms : list (string * json)) : list (string * json) :=
  (λ kv, (kv.1, f kv.2)) <$> ms.

Definition finite_number (x : float64) : bool :=
  match x with S754_zero _ | S754_finite _ _ _ => true | _ => false end.

(** [json.Marshal] refuses a number that is infinite or not a number. *)
Fixpoint finite_json (v : json) : bool :=
  match v with
  | JNum x => finite_number x
  | JArr l => forallb finite_json l
  | JObj ms => forallb (λ kv, finite_json kv.2) ms
  | _ => true
  end.

(** The document with every string made valid UTF-8. *)
Fixpoint clean_json (v : json) : json :=
  match v with
  | JStr s => JStr (utf8_clean s)
  | JArr l => JArr (clean_json <$> l)
  | JObj ms => JObj ((λ kv, (utf8_clean kv.1, clean_json kv.2)) <$> ms)
  | _ => v
  end.

(** A document whose strings are valid and whose numbers are finite. *)
Fixpoint valid_json (v : json) : bool :=
  match v with
  | JNum x => finite_number x
  | JStr s => valid_utf8 s
  | JArr l => forallb valid_json l
  | JObj ms => forallb (λ kv, valid_utf8 kv.1 && valid_json kv.2) ms
  | _ => true
  end.

(** No object names a member twice: the documents an [any] can hold. *)
Fixpoint distinct_json (v : json) : bool :=
  match v with
  | JArr l => forallb distinct_json l
  | JObj ms => bool_decide (NoDup ms.*1) && forallb (λ kv, distinct_json kv.2) ms
  | _ => true
  end.

(** ** The laws of the text *)

Class JsonPrint := json_print : json → string.

Class JsonLaws `{JsonText, JsonPrint} := {
  parse_print v : finite_json v = true → json_parse (json_print v) = Some (clean_json v);
  parse_valid s v : json_parse s = Some v → valid_json v = true;
}.

(** [json.Marshal] of a document. *)
Definition json_Marshal `{JsonPrint} (v : json) : result string :=
  if finite_json v then Ok (json_print v) else Err (Error "json: unsupported value").

(** ** Induction *)

Section induction.
Context (P : json → Prop).
Context (Hnull : P JNull) (Hbool : ∀ b, P (JBool b)) (Hnum : ∀ x, P (JNum x)).
Context (Hstr : ∀ s, P (JStr s)) (Harr : ∀ l, Forall P l → P (JArr l)).
Context (Hobj : ∀ ms, Forall (λ kv, P kv.2) ms → P (JObj ms)).

Fixpoint json_nested_ind (v : json) : P v :=
  match v with
  | JNull => Hnull
  | JBool b => Hbool b
  | JNum x => Hnum x
  | JStr s => Hstr s
  | JArr l => Harr l ((fix go l : Forall P l :=
      match l with
      | [] => List.Forall_nil P
      | v :: l => List.Forall_cons P v l (json_nested_ind v) (go l)
      end) l)
  | JObj ms => Hobj ms ((fix go ms : Forall (λ kv, P kv.2) ms :=
      match ms with
      | [] => List.Forall_nil _
      | kv :: ms => List.Forall_cons _ kv ms (json_nested_ind kv.2) (go ms)
      end) ms)
  end.
End induction.

Ltac json_induction v :=
  induction v as [|? |? |? |? IH|? IH] using json_nested_ind; try done; simpl.

(** ** Lemmas *)

Lemma forallb_Forall {A} (f : A → bool) (l : list A) : forallb f l = true ↔ Forall (λ x, f x = true) l.
Proof. by rewrite forallb_forall, List.Forall_forall. Qed.

Lemma marshal_any_obj ms :
  marshal_any (JObj ms) = JObj (merge_sort member_le (on_members marshal_any ms)).
Proof. simpl. do 2 f_equal. induction ms as [|[k v] ms IH]; [done|]. simpl. by rewrite IH. Qed.

Lemma decode_any_obj ms :
  decode_any (JObj ms) =
  JObj (fold_left (λ acc kv, assoc_set kv.1 kv.2 acc) (on_members decode_any ms) []).
Proof. simpl. do 2 f_equal. induction ms as [|[k v] ms IH]; [done|]. simpl. by rewrite IH. Qed.

Lemma on_members_fst f ms : (on_members f ms).*1 = ms.*1.
Proof. unfold on_members. rewrite <-list_fmap_compose. by apply list_fmap_ext. Qed.

Lemma on_members_ext f g ms :
  Forall (λ kv, f kv.2 = g kv.2) ms → on_members f ms = on_members g ms.
Proof. induction 1 as [|kv ms Hkv _ IH]; [done|]. simpl. by rewrite Hkv, IH. Qed.

Lemma on_members_id f ms : Forall (λ kv, f kv.2 = kv.2) ms → on_members f ms = ms.
Proof. induction 1 as [|[k v] ms Hkv _ IH]; [done|]. simpl in *. by rewrite Hkv, IH. Qed.

Lemma fmap_id_on {A} (f : A → A) (l : list A) : (∀ x, x ∈ l → f x = x) → f <$> l = l.
Proof.
  intros Hf. induction l as [|x l IH]; [done|]. rewrite fmap_cons, Hf, IH by set_solver. done.
Qed.

(** Two facts that hold of every member, used together. *)
Lemma forallb_in {A} (f : A → bool) (l : list A) x : forallb f l = true → x ∈ l → f x = true.
Proof. rewrite forallb_forall. intros Hf Hx. by apply Hf, list_elem_of_In. Qed.

Lemma forallb_intro {A} (f : A → bool) (l : list A) : (∀ x, x ∈ l → f x = true) → forallb f l = true.
Proof. rewrite forallb_forall. intros Hf x Hx. by apply Hf, list_elem_of_In. Qed.

Lemma forallb_perm {A} (f : A → bool) (l l' : list A) : l ≡ₚ l' → forallb f l = true → forallb f l' = true.
Proof.
  intros Hp Hf. apply forallb_intro. intros x Hx. apply (forallb_in f l); [done|by rewrite Hp].
Qed.

Lemma clean_json_valid v : valid_json v = true → clean_json v = v.
Proof.
  json_induction v; intros Hv; try rewrite Forall_forall in IH.
  - by rewrite utf8_clean_valid.
  - f_equal. apply fmap_id_on. intros x Hx. apply IH; [done|]. by apply (forallb_in _ _ _ Hv).
  - f_equal. apply fmap_id_on. intros [k x] Hx.
    destruct (andb_prop _ _ (forallb_in _ _ _ Hv Hx)) as [Hk Hvx]. simpl in *.
    rewrite utf8_clean_valid by done. f_equal. by apply (IH _ Hx).
Qed.

Lemma valid_clean_json v : finite_json v = true → valid_json (clean_json v) = true.
Proof.
  json_induction v; intros Hv; try rewrite Forall_forall in IH.
  - apply valid_utf8_clean.
  - apply forallb_intro. intros y (x & -> & Hx)%list_elem_of_fmap. apply IH; [done|].
    by apply (forallb_in _ _ _ Hv).
  - apply forallb_intro. intros y (x & -> & Hx)%list_elem_of_fmap. simpl.
    rewrite valid_utf8_clean. apply IH; [done|]. exact (forallb_in _ _ _ Hv Hx).
Qed.

Lemma valid_finite v : valid_json v = true → finite_json v = true.
Proof.
  json_induction v; intros Hv; try rewrite Forall_forall in IH; apply forallb_intro;
    intros x Hx; apply IH; try done; apply (forallb_in _ _ _ Hv) in Hx; [done|].
  by apply andb_true_iff in Hx as [_ ?].
Qed.

(** ** Sorting the members *)

#[export] Instance member_le_trans : Transitive member_le.
Proof.
  intros a b c. unfold member_le. rewrite <-!Is_true_true. apply (transitivity (R:=String.le)).
Qed.

#[export] Instance member_le_total : Total member_le.
Proof. intros a b. unfold member_le. apply String.leb_total. Qed.

Lemma sort_perm (ms : list (string * json)) : merge_sort member_le ms ≡ₚ ms.
Proof. apply merge_sort_Permutation. Qed.

Lemma pair_unique {A B} (l : list (A * B)) k v1 v2 :
  NoDup l.*1 → (k, v1) ∈ l → (k, v2) ∈ l → v1 = v2.
Proof.
  intros Hnd (i & Hi)%list_elem_of_lookup (j & Hj)%list_elem_of_lookup.
  assert (i = j) as ->; [|congruence].
  eapply NoDup_lookup; [exact Hnd|..]; rewrite list_lookup_fmap, ?Hi, ?Hj; done.
Qed.

(** With distinct names there is only one sorted order. *)
Lemma sort_unique (ms ms' : list (string * json)) :
  NoDup ms.*1 → ms ≡ₚ ms' → merge_sort member_le ms = merge_sort member_le ms'.
Proof.
  intros Hnd Hp. apply (StronglySorted_unique_strong member_le).
  - intros [k1 v1] [k2 v2]. rewrite !sort_perm, <-Hp. unfold member_le. simpl.
    intros H1 H2 Hle Hge. assert (k1 = k2) as -> by by apply String.leb_antisym.
    f_equal. by eapply pair_unique.
  - apply (StronglySorted_merge_sort _).
  - apply (StronglySorted_merge_sort _).
  - by rewrite !sort_perm.
Qed.

(** ** An [any] that was decoded, printed and decoded again *)

Lemma distinct_obj ms :
  distinct_json (JObj ms) = true ↔ NoDup ms.*1 ∧ ∀ kv, kv ∈ ms → distinct_json kv.2 = true.
Proof.
  simpl. rewrite andb_true_iff, bool_decide_eq_true. split; intros [Hnd Hd]; split; try done.
  - intros kv. by apply (forallb_in (λ kv, distinct_json kv.2)).
  - by apply forallb_intro.
Qed.

Lemma assoc_set_elem {A} k v (l : list (string * A)) x :
  x ∈ assoc_set k v l → x = (k, v) ∨ x ∈ l.
Proof.
  induction l as [|[k' v'] l IH]; simpl; [set_solver|]. case_decide; set_solver.
Qed.

Lemma assoc_set_fst {A} k v (l : list (string * A)) :
  (assoc_set k v l).*1 = if decide (k ∈ l.*1) then l.*1 else l.*1 ++ [k].
Proof.
  induction l as [|[k' v'] l IH]; [done|]. cbn [assoc_set].
  destruct (decide (k = k')) as [->|Hk]; rewrite !fmap_cons; cbn [fst].
  - by rewrite decide_True by (apply elem_of_cons; by left).
  - rewrite IH. destruct (decide (k ∈ l.*1)) as [Hin|Hin].
    + rewrite decide_True; [done|]. apply elem_of_cons. by right.
    + rewrite decide_False; [done|]. rewrite elem_of_cons. tauto.
Qed.

Lemma assoc_set_new {A} k v (l : list (string * A)) : k ∉ l.*1 → assoc_set k v l = l ++ [(k, v)].
Proof.
  induction l as [|[k' v'] l IH]; [done|]. simpl. intros Hk.
  rewrite decide_False by set_solver. by rewrite IH by set_solver.
Qed.

Lemma assoc_fold_distinct {A} (l acc : list (string * A)) :
  NoDup acc.*1 → (∀ P : string * A → Prop, (∀ x, x ∈ acc ++ l → P x) →
    ∀ x, x ∈ fold_left (λ acc kv, assoc_set kv.1 kv.2 acc) l acc → P x) ∧
  NoDup (fold_left (λ acc kv, assoc_set kv.1 kv.2 acc) l acc).*1.
Proof.
  revert acc. induction l as [|[k v] l IH]; intros acc Hacc; simpl.
  { split; [|done]. intros P HP x Hx. apply HP. by rewrite app_nil_r. }
  destruct (IH (assoc_set k v acc)) as [Hin Hnd].
  - rewrite assoc_set_fst. case_decide; [done|]. apply NoDup_app.
    split_and!; [done|set_solver|apply NoDup_singleton].
  - split; [|done]. intros P HP. apply Hin. intros x [Hx|Hx]%elem_of_app; [|set_solver].
    apply assoc_set_elem in Hx. set_solver.
Qed.

Lemma assoc_fold_id {A} (l acc : list (string * A)) :
  NoDup (acc ++ l).*1 → fold_left (λ acc kv, assoc_set kv.1 kv.2 acc) l acc = acc ++ l.
Proof.
  revert acc. induction l as [|[k v] l IH]; intros acc Hnd; simpl; [by rewrite app_nil_r|].
  rewrite assoc_set_new.
  - rewrite IH; by rewrite <-(assoc_L (++)).
  - rewrite fmap_app, NoDup_app in Hnd. simpl in Hnd. set_solver.
Qed.

(** What [Unmarshal] puts in an [any] names no member twice. *)
Lemma distinct_decode_any v : distinct_json (decode_any v) = true.
Proof.
  induction v as [|? |? |? |? IH|ms IH] using json_nested_ind; try done.
  - simpl. apply forallb_intro. intros y (x & -> & Hx)%list_elem_of_fmap.
    rewrite Forall_forall in IH. by apply IH.
  - rewrite decode_any_obj. rewrite Forall_forall in IH. apply distinct_obj.
    destruct (assoc_fold_distinct (on_members decode_any ms) []) as [Hin Hnd]; [constructor|].
    split; [done|]. apply (Hin (λ kv, distinct_json kv.2 = true)). simpl.
    intros y (x & -> & Hx)%list_elem_of_fmap. by apply IH.
Qed.

Lemma decode_any_distinct v : distinct_json v = true → decode_any v = v.
Proof.
  induction v as [|? |? |? |? IH|ms IH] using json_nested_ind; try done;
    try rewrite Forall_forall in IH; intros Hd.
  - simpl in *. f_equal. apply fmap_id_on. intros x Hx. apply IH; [done|].
    by apply (forallb_in _ _ _ Hd).
  - apply distinct_obj in Hd as [Hnd Hd]. rewrite decode_any_obj, on_members_id.
    + f_equal. by rewrite assoc_fold_id.
    + apply Forall_forall. intros kv Hkv. apply IH; auto.
Qed.

Lemma valid_decode_any v : valid_json v = true → valid_json (decode_any v) = true.
Proof.
  induction v as [|? |? |? |? IH|ms IH] using json_nested_ind; try done;
    try rewrite Forall_forall in IH; intros Hv.
  - simpl in *. apply forallb_intro. intros y (x & -> & Hx)%list_elem_of_fmap.
    apply IH; [done|]. by apply (forallb_in _ _ _ Hv).
  - rewrite decode_any_obj. simpl in *. apply forallb_intro.
    destruct (assoc_fold_distinct (on_members decode_any ms) []) as [Hin _]; [constructor|].
    apply (Hin (λ kv, valid_utf8 kv.1 && valid_json kv.2 = true)). simpl.
    intros y (x & -> & Hx)%list_elem_of_fmap. destruct (andb_prop _ _ (forallb_in _ _ _ Hv Hx)) as [Hk Hvx]. simpl. rewrite Hk. simpl. by apply IH.
Qed.

Lemma valid_marshal_any v : valid_json v = true → valid_json (marshal_any v) = true.
Proof.
  induction v as [|? |? |? |? IH|ms IH] using json_nested_ind; try done;
    try rewrite Forall_forall in IH; intros Hv.
  - simpl in *. apply forallb_intro. intros y (x & -> & Hx)%list_elem_of_fmap.
    apply IH; [done|]. by apply (forallb_in _ _ _ Hv).
  - rewrite marshal_any_obj. simpl in *. eapply forallb_perm; [symmetry; apply sort_perm|].
    apply forallb_intro. intros y (x & -> & Hx)%list_elem_of_fmap.
    destruct (andb_prop _ _ (forallb_in _ _ _ Hv Hx)) as [Hk Hvx]. simpl. rewrite Hk. simpl. by apply IH.
Qed.

Lemma distinct_marshal_any v : distinct_json v = true → distinct_json (marshal_any v) = true.
Proof.
  induction v as [|? |? |? |? IH|ms IH] using json_nested_ind; try done;
    try rewrite Forall_forall in IH; intros Hv.
  - simpl in *. apply forallb_intro. intros y (x & -> & Hx)%list_elem_of_fmap.
    apply IH; [done|]. by apply (forallb_in _ _ _ Hv).
  - apply distinct_obj in Hv as [Hnd Hd]. rewrite marshal_any_obj. apply distinct_obj. split.
    + by rewrite sort_perm, on_members_fst.
    + intros y. rewrite sort_perm. intros (x & -> & Hx)%list_elem_of_fmap. simpl. by apply IH; auto.
Qed.

Lemma marshal_any_idemp v :
  distinct_json v = true → marshal_any (marshal_any v) = marshal_any v.
Proof.
  induction v as [|? |? |? |? IH|ms IH] using json_nested_ind; try done;
    try rewrite Forall_forall in IH; intros Hv.
  - simpl in *. f_equal. apply fmap_id_on. intros y (x & -> & Hx)%list_elem_of_fmap.
    apply IH; [done|]. by apply (forallb_in _ _ _ Hv).
  - apply distinct_obj in Hv as [Hnd Hd]. rewrite marshal_any_obj, marshal_any_obj.
    rewrite on_members_id.
    + f_equal. apply sort_unique; [by rewrite sort_perm, on_members_fst|apply sort_perm].
    + apply Forall_forall. intros y. rewrite sort_perm.
      intros (x & -> & Hx)%list_elem_of_fmap. simpl. by apply IH; auto.
Qed.

(** A decoded [any] survives being printed and decoded again, up to the order
    of the members, which [json.Marshal] sorts anyway. *)
Lemma any_round_trip v :
  valid_json v = true → distinct_json v = true →
  decode_any (clean_json (marshal_any v)) = marshal_any v.
Proof.
  intros Hv Hd. rewrite clean_json_valid by by apply valid_marshal_any.
  by apply decode_any_distinct, distinct_marshal_any.
Qed.
