(* ===== verification/Const.v ===== *)
(** * Constants ([src/src/const.go])

    The error texts the API returns, the engine names, the environment
    variables, the query parameters, the routes, the header names, and the texts
    the log line of a DELETE is put together from. *)
From stdpp Require Import base strings.

#[local] Open Scope string_scope.

(** ** Error texts *)

Definition AUTH_INVALID_CREDS : string := "invalid credentials".
Definition LIST_KEYS_ERR : string := "could not get list of keys for %s".
Definition INVALID_KEY : string := "invalid message key".
Definition INVALID_VALUE : string := "invalid message value".
Definition INVALID_EXPIRE : string := "invalid message expire duration".
Definition INVALID_MESSAGE_ID : string := "invalid message_id (must be a uuid)".
Definition WS_WORKERS_NOT_FOUND : string :=
  "Can not parse WS_WORKERS! The value has to be an integer.".

(** ** The log line of a DELETE *)

Definition MESSAGE : string := "message".
Definition MULTIPLE : string := "s".
Definition ALL : string := "all ".
Definition IN_STORAGE : string := " in storage".
Definition WITH_ID : string := " with id: %s".
Definition FROM_KEY : string := " from key: %s".
Definition DELETE_METHOD : string := "[DELETE] ".

(** ** Literals *)

Definition DEFAULT : string := "default".
Definition MEMORY : string := "memory".
Definition REDIS : string := "redis".
Definition DUMMY : string := "dummy".
Definition PROXY : string := "proxy".
Definition EMPTY_STR : string := "".

(** ** Environment variables *)

Definition WS_WORKERS : string := "WS_WORKERS".
Definition WS_VERBOSE : string := "WS_VERBOSE".
Definition WS_LOG_FORMAT : string := "WS_LOG_FORMAT".
Definition WS_HOST : string := "WS_HOST".
Definition WS_PORT : string := "WS_PORT".
Definition WS_MSG_EXPIRE : string := "WS_MSG_EXPIRE".
Definition WS_AUTHORIZER : string := "WS_AUTHORIZER".
Definition WS_STORAGE : string := "WS_STORAGE".
Definition WS_LOGIN : string := "WS_LOGIN".
Definition WS_PASSWORD : string := "WS_PASSWORD".
Definition WS_AUTH_URL : string := "WS_AUTH_URL".
Definition WS_INSECURE_NO_AUTH : string := "WS_INSECURE_NO_AUTH".
Definition WS_AUTH_TIMEOUT : string := "WS_AUTH_TIMEOUT".
Definition WS_AUTH_CACHE_TTL : string := "WS_AUTH_CACHE_TTL".
Definition WS_SWEEP_INTERVAL : string := "WS_SWEEP_INTERVAL".
Definition WS_PING_INTERVAL : string := "WS_PING_INTERVAL".
Definition WS_READ_TIMEOUT : string := "WS_READ_TIMEOUT".
Definition WS_WRITE_TIMEOUT : string := "WS_WRITE_TIMEOUT".
Definition WS_RECONCILE_INTERVAL : string := "WS_RECONCILE_INTERVAL".
Definition WS_HISTORY_SIZE : string := "WS_HISTORY_SIZE".
Definition WS_HISTORY_TTL : string := "WS_HISTORY_TTL".
Definition WS_REDIS_URL : string := "WS_REDIS_URL".
Definition WS_REDIS_KEY_TTL : string := "WS_REDIS_KEY_TTL".
Definition WS_TLS_CERT : string := "WS_TLS_CERT".
Definition WS_TLS_KEY : string := "WS_TLS_KEY".
Definition WS_ALLOWED_ORIGINS : string := "WS_ALLOWED_ORIGINS".
Definition WS_MAX_MESSAGE_SIZE : string := "WS_MAX_MESSAGE_SIZE".
Definition WS_COMPRESS : string := "WS_COMPRESS".
Definition WS_CONFIG : string := "WS_CONFIG".
Definition WS_RATE_LIMIT : string := "WS_RATE_LIMIT".
Definition WS_RATE_BURST : string := "WS_RATE_BURST".
Definition WS_TRUST_PROXY_HEADERS : string := "WS_TRUST_PROXY_HEADERS".

(** ** Query parameters *)

Definition KEY : string := "key".
Definition ID : string := "id".
Definition PRESENCE : string := "presence".
Definition HISTORY : string := "history".

(** ** Routes and headers *)

Definition ROOT : string := "/".
Definition WS : string := "/ws".
Definition WS_ : string := "/ws/".
Definition HEALTHZ : string := "/healthz".
Definition READYZ : string := "/readyz".
Definition METRICS : string := "/metrics".
Definition VERSION : string := "/version".
Definition ORIGIN : string := "Origin".
