(* ===== verification/Message.v ===== *)
(** * Messages ([src/src/message.go])

    The [Message] struct, its target keys, its JSON forms, the validation of a
    posted body and the expiry test.

    [github.com/google/uuid] is outside the repository: [uuid.Parse] and
    [UUID.String] are the parameters of the class [UuidLib].  The text of a
    [time.Time] depends on the zone of the process: it is the parameter
    [time_text]. *)
From stdpp Require Import base numbers list gmap strings.
From S2P Require Import Prelude GoStd GoTime Json Const.

#[local] Open Scope Z_scope.

(** ** Identifiers *)

(** [type UUID [16]byte]: compared byte by byte, usable as a map key. *)
Definition uuid : Set := {s : string | bool_decide (String.length s = 16%nat)}.

#[export] Instance uuid_eq_dec : EqDecision uuid.
Proof. unfold uuid. apply _. Defined.
#[export] Instance uuid_countable : Countable uuid.
Proof. unfold uuid. apply _. Defined.

Class UuidLib := {
  uuid_Parse : string → option uuid;
  uuid_String : uuid → string;
}.

(** RFC 3339 text of an instant, in the zone of the process. *)
Class TimeText := time_text : Z → string.

(** ** The struct *)

Record Message := MkMessage {
  m_id : uuid;
  m_Key : string;
  m_Keys : list string;
  m_MessageID : string;
  m_Value : json;
  m_Expire : string;
  m_date : Z;
}.

(** [mk := m; mk.Key = key] *)
Definition with_Key (m : Message) (key : string) : Message :=
  MkMessage (m_id m) key (m_Keys m) (m_MessageID m) (m_Value m) (m_Expire m) (m_date m).

(** The closure [add] of [targets]: [seen] and [out]. *)
Definition targets_add (st : gset string * list string) (k : string)
  : gset string * list string :=
  let '(seen, out) := st in
  if negb (bool_decide (k = EMPTY_STR)) && negb (bool_decide (k ∈ seen))
  then ({[k]} ∪ seen, out ++ [k]) else st.

Definition targets (key : string) (keys : list string) : list string :=
  (fold_left targets_add keys (targets_add (∅, []) key)).2.

Definition m_targets (m : Message) : list string := targets (m_Key m) (m_Keys m).

(** ** Marshalling *)

(** What the maps of [toMap] hold. *)
Inductive gval := VUuid (u : uuid) | VAny (v : json) | VString (s : string) | VTime (t : Z).

Definition toMap (m : Message) (extended : bool) : gmap string gval :=
  let payload := <["payload" := VAny (m_Value m)]> (<["id" := VUuid (m_id m)]> ∅) in
  if extended then
    <["date" := VTime (m_date m)]>
    (<["exp" := VString (m_Expire m)]> (<["key" := VString (m_Key m)]> payload))
  else payload.

(** The instants whose year [Time.MarshalJSON] accepts, [0000] to [9999]. *)
Definition year_ok (t : Z) : bool :=
  (-62167219200 * Second <=? t) && (t <? 253402300800 * Second).

Section marshal.
Context `{UuidLib, TimeText}.

Definition marshal_gval (v : gval) : option json :=
  match v with
  | VUuid u => Some (JStr (uuid_String u))
  | VAny v => Some (marshal_any v)
  | VString s => Some (JStr s)
  | VTime t => if year_ok t then Some (JStr (time_text t)) else None
  end.

(** [json.Marshal] of a [map[string]any]: an error of one member is an error
    of the whole. *)
Definition marshal_map (p : gmap string gval) : result json :=
  if decide (map_Forall (λ _ v, is_Some (marshal_gval v)) p)
  then Ok (marshal_members (omap marshal_gval p))
  else Err (Error "json: error calling MarshalJSON").

Definition marshal (m : Message) (extended : bool) : result json :=
  marshal_map (toMap m extended).
End marshal.

(** ** Validation of a posted body *)

(** What a call does: return, or panic. *)
Inductive outcome (A : Type) := Returned (a : A) | Panicked.
Arguments Returned {A} a.
Arguments Panicked {A}.

(** The exported fields of the struct while [json.Unmarshal] fills them, and
    whether it met a member of the wrong type. *)
Record decoding := Decoding {
  d_Key : string;
  d_Keys : strings;
  d_MessageID : string;
  d_Value : json;
  d_Expire : string;
  d_err : bool;
}.

Definition Message_fields : list string := ["key"; "keys"; "message_id"; "value"; "expire"].

Definition decode_member (d : decoding) (kv : string * json) : decoding :=
  let '(k, v) := kv in
  match find_field Message_fields k with
  | None => d
  | Some f =>
    if decide (f = "key") then
      let '(s, e) := decode_string v (d_Key d) in
      Decoding s (d_Keys d) (d_MessageID d) (d_Value d) (d_Expire d) (d_err d || e)
    else if decide (f = "keys") then
      let '(s, e) := decode_strings v (d_Keys d) in
      Decoding (d_Key d) s (d_MessageID d) (d_Value d) (d_Expire d) (d_err d || e)
    else if decide (f = "message_id") then
      let '(s, e) := decode_string v (d_MessageID d) in
      Decoding (d_Key d) (d_Keys d) s (d_Value d) (d_Expire d) (d_err d || e)
    else if decide (f = "value") then
      Decoding (d_Key d) (d_Keys d) (d_MessageID d) (decode_any v) (d_Expire d) (d_err d)
    else
      let '(s, e) := decode_string v (d_Expire d) in
      Decoding (d_Key d) (d_Keys d) (d_MessageID d) (d_Value d) s (d_err d || e)
  end.

Definition decode_members (members : list (string * json)) : decoding :=
  fold_left decode_member members (Decoding "" (Strings [] 0) "" JNull "" false).

(** The pointer [m] after [json.Unmarshal(b, &m)]: the text [null] makes it
    nil. *)
Inductive decoded := NilPointer | Struct (d : decoding) | DecodeError (e : error).

Definition decode_Message (v : json) : decoded :=
  match v with
  | JNull => NilPointer
  | JObj members =>
    let d := decode_members members in
    if d_err d then DecodeError (Error "json: cannot unmarshal into Go struct field")
    else Struct d
  | _ => DecodeError (Error "json: cannot unmarshal into Go value of type main.Message")
  end.

Section unmarshal.
Context `{UuidLib, JsonText}.

(** [m.unmarshal(data, defaultExpire)] on a zero [Message], where [data] is
    what [io.ReadAll] returns, [now] the reading of [time.Now] and [rnd] the
    result of [uuid.NewRandom].  On a nil [m] the selector [m.Key] panics. *)
Definition unmarshal (data : result string) (defaultExpire : string) (now : Z)
    (rnd : result uuid) : outcome (result Message) :=
  match data with
  | Err e => Returned (Err e)
  | Ok b =>
    match json_parse b with
    | None => Returned (Err (Error "invalid JSON"))
    | Some v =>
      match decode_Message v with
      | DecodeError e => Returned (Err e)
      | NilPointer => Panicked
      | Struct d =>
        let keys := slice_view (d_Keys d) in
        if decide (targets (d_Key d) keys = []) then Returned (Err (Error INVALID_KEY)) else
        if is_nil (d_Value d) then Returned (Err (Error INVALID_VALUE)) else
        let expire := if decide (d_Expire d = EMPTY_STR) then defaultExpire else d_Expire d in
        match ParseDuration expire with
        | None => Returned (Err (Error INVALID_EXPIRE))
        | Some _ =>
          let msg id :=
            MkMessage id (d_Key d) keys (d_MessageID d) (d_Value d) expire now in
          if negb (bool_decide (d_MessageID d = EMPTY_STR)) then
            match uuid_Parse (d_MessageID d) with
            | None => Returned (Err (Error INVALID_MESSAGE_ID))
            | Some id => Returned (Ok (msg id))
            end
          else
            match rnd with
            | Err e => Returned (Err e)
            | Ok id => Returned (Ok (msg id))
            end
        end
      end
    end
  end.
End unmarshal.

(** ** Expiry *)

(** [m.isExpired()] at instant [now]; an unparsable duration counts as zero. *)
Definition isExpired (m : Message) (now : Z) : bool :=
  default 0 (ParseDuration (m_Expire m)) <? time_Since now (m_date m).

(** ** Lemmas *)

Lemma targets_fold keys seen out :
  (fold_left targets_add keys (seen, out)).2 =
  out ++ dedup_from seen (filter (λ k, k ≠ EMPTY_STR) keys).
Proof.
  revert seen out. induction keys as [|k keys IH]; intros seen out; simpl;
    [by rewrite app_nil_r|].
  rewrite filter_cons.
  destruct (decide (k = EMPTY_STR)) as [->|Hk]; simpl.
  - apply IH.
  - rewrite bool_decide_eq_false_2, decide_True by done. simpl.
    destruct (decide (k ∈ seen)) as [Hs|Hs]; simpl.
    + rewrite bool_decide_eq_true_2 by done. apply IH.
    + rewrite bool_decide_eq_false_2 by done. simpl. by rewrite IH, <-(assoc_L (++)).
Qed.

(** The targets are the first occurrences of the non-empty keys, in order. *)
Lemma targets_dedup key keys :
  targets key keys = dedup (filter (λ k, k ≠ EMPTY_STR) (key :: keys)).
Proof.
  unfold targets.
  change (targets_add (∅, []) key) with (fold_left targets_add [key] (∅, [])).
  by rewrite <-fold_left_app, targets_fold.
Qed.

Lemma elem_of_targets key keys k :
  k ∈ targets key keys ↔ k ≠ EMPTY_STR ∧ k ∈ key :: keys.
Proof. by rewrite targets_dedup, elem_of_dedup, list_elem_of_filter. Qed.

Lemma NoDup_targets key keys : NoDup (targets key keys).
Proof. rewrite targets_dedup. apply NoDup_dedup_from. Qed.

Section marshal_lemmas.
Context `{UuidLib, TimeText}.

(** The short form sent to clients can always be marshalled. *)
Lemma marshal_short m :
  marshal m false =
  Ok (JObj [("id", JStr (uuid_String (m_id m))); ("payload", marshal_any (m_Value m))]).
Proof.
  unfold marshal, marshal_map. rewrite decide_True.
  - reflexivity.
  - intros i v. unfold toMap. rewrite !lookup_insert_Some, lookup_empty.
    intros [[<- <-]|[_ [[<- <-]|[_ [=]]]]]; simpl; eauto.
Qed.
End marshal_lemmas.

(** Expiry is final: the clock only moves forward. *)
Lemma isExpired_mono m t t' : t ≤ t' → isExpired m t = true → isExpired m t' = true.
Proof.
  unfold isExpired, time_Since. rewrite !Z.ltb_lt. intros Ht.
  pose proof (time_Sub_mono t t' (m_date m) Ht). lia.
Qed.

#[export] Hint Resolve NoDup_targets isExpired_mono : goctopus.

(** ** What the operations promise *)

(** The targets of a message are its non-empty keys, the single key first, each
    once, in the order of their first occurrence. *)
Theorem targets_spec m :
  NoDup (m_targets m) ∧ m_targets m `sublist_of` (m_Key m :: m_Keys m) ∧
  ∀ k, k ∈ m_targets m ↔ k ≠ EMPTY_STR ∧ k ∈ m_Key m :: m_Keys m.
Proof.
  split; [apply NoDup_targets|]. split; [|intros k; apply elem_of_targets].
  unfold m_targets. rewrite targets_dedup. etrans; [apply dedup_from_sublist|].
  apply sublist_filter.
Qed.

Section unmarshal_lemmas.
Context `{UuidLib, JsonText}.

(** A body that is accepted gives a message with a target, a value that is not
    null and a duration that parses (the default one when the body names
    none), dated now, and identified by the uuid the client chose or by a
    random one. *)
Theorem unmarshal_accepts data defaultExpire now rnd m :
  unmarshal data defaultExpire now rnd = Returned (Ok m) →
  m_targets m ≠ [] ∧ is_nil (m_Value m) = false ∧ is_Some (ParseDuration (m_Expire m)) ∧
  m_date m = now ∧
  (if decide (m_MessageID m = EMPTY_STR) then rnd = Ok (m_id m)
   else uuid_Parse (m_MessageID m) = Some (m_id m)).
Proof.
  unfold unmarshal. destruct data as [b|]; [|done]. destruct (json_parse b) as [v|]; [|done].
  destruct (decode_Message v) as [|d|e]; [done| |done].
  destruct (decide (targets _ _ = [])) as [|Ht]; [done|].
  destruct (is_nil (d_Value d)) eqn:Hv; [done|].
  set (expire := if decide (d_Expire d = EMPTY_STR) then defaultExpire else d_Expire d).
  destruct (ParseDuration expire) as [dur|] eqn:He; [|done].
  destruct (decide (d_MessageID d = EMPTY_STR)) as [Hid|Hid].
  - rewrite (bool_decide_eq_true_2 _ Hid). cbn [negb]. destruct rnd as [id|]; [|done].
    intros [= <-]. cbn. rewrite He, decide_True by done. split_and!; eauto.
  - rewrite (bool_decide_eq_false_2 _ Hid). cbn [negb].
    destruct (uuid_Parse (d_MessageID d)) as [id|] eqn:Hp; [|done].
    intros [= <-]. cbn. rewrite He, decide_False by done. split_and!; eauto.
Qed.

(** The handler panics on exactly the bodies whose JSON text is [null]. *)
Theorem unmarshal_panics data defaultExpire now rnd :
  unmarshal data defaultExpire now rnd = Panicked ↔
  ∃ b, data = Ok b ∧ json_parse b = Some JNull.
Proof.
  split.
  - unfold unmarshal. destruct data as [b|]; [|done]. destruct (json_parse b) as [v|] eqn:Hb;
      [|done]. intros Hp. exists b. split; [done|]. rewrite Hb. f_equal.
    destruct v; simpl in Hp; try done. revert Hp. destruct (d_err _); [done|].
    repeat case_match; done.
  - intros (b & -> & Hb). unfold unmarshal. by rewrite Hb.
Qed.
End unmarshal_lemmas.

(** A message expires at one instant: at every instant its age is compared
    with its duration, zero when that does not parse, and once expired it stays
    expired. *)
Theorem expiry_is_final m t t' :
  t ≤ t' →
  (in_int64 (t - m_date m) →
   isExpired m t = true ↔ m_date m + default 0 (ParseDuration (m_Expire m)) < t) ∧
  (isExpired m t = true → isExpired m t' = true).
Proof.
  intros Ht. split; [|by apply isExpired_mono]. intros Hin.
  unfold isExpired, time_Since. rewrite time_Sub_exact, Z.ltb_lt by done. lia.
Qed.

(** ** Examples *)

Module Sample.

Definition id : uuid := exist _ "0123456789abcdef" I.
Definition message : Message := MkMessage id "k" [] "" (JBool true) "1h" 7.
Definition lib : UuidLib := {| uuid_Parse := λ _, None; uuid_String := proj1_sig |}.
Definition text : JsonText := λ _, Some (JObj [("key", JStr "k"); ("value", JBool true)]).

End Sample.

Lemma expiry_is_final_witness :
  (in_int64 (2 * Hour - m_date Sample.message) →
   isExpired Sample.message (2 * Hour) = true ↔
   m_date Sample.message + default 0 (ParseDuration (m_Expire Sample.message)) < 2 * Hour) ∧
  (isExpired Sample.message (2 * Hour) = true → isExpired Sample.message (3 * Hour) = true).
Proof. apply expiry_is_final. vm_compute. discriminate. Defined.

Lemma unmarshal_accepts_witness :
  @unmarshal Sample.lib Sample.text (Ok "") "1h" 7 (Ok Sample.id)
    = Returned (Ok Sample.message) ∧
  m_targets Sample.message ≠ [] ∧ is_nil (m_Value Sample.message) = false ∧
  is_Some (ParseDuration (m_Expire Sample.message)) ∧ m_date Sample.message = 7 ∧
  (if decide (m_MessageID Sample.message = EMPTY_STR)
   then Ok Sample.id = Ok (m_id Sample.message)
   else @uuid_Parse Sample.lib (m_MessageID Sample.message) = Some (m_id Sample.message)).
Proof.
  split; [vm_compute; reflexivity|].
  apply (@unmarshal_accepts Sample.lib Sample.text (Ok "") "1h" 7).
  vm_compute. reflexivity.
Defined.
