(* ===== verification/Stored.v ===== *)
(** * The stored form of a message ([src/src/message.go], end)

    [storedMessage], [encode] and [decodeMessage]: what a persistent backend
    keeps of a message, and what reading it back gives. *)
From stdpp Require Import base numbers list gmap strings.
From S2P Require Import Prelude GoStd GoTime Utf8 Json JsonCodec Const Message.

#[local] Open Scope Z_scope.

(** The instant an RFC 3339 text denotes: [Time.UnmarshalJSON] on a string. *)
Class TimeParse := time_parse : string → option Z.

(** The laws of [google/uuid] and of [time]: printing then parsing. *)
Class TextLaws `{UuidLib, TimeText, TimeParse} := {
  parse_uuid u : uuid_Parse (uuid_String u) = Some u;
  parse_time t : year_ok t = true → time_parse (time_text t) = Some t;
  ascii_uuid u : valid_utf8 (uuid_String u) = true;
  ascii_time t : valid_utf8 (time_text t) = true;
}.

(** [uuid.UUID{}] and [time.Time{}], the first instant of year 1. *)
Definition zero_uuid : uuid :=
  exist _ (str_of (replicate 16 "000"%char)) I.
Definition zero_time : Z := -62135596800 * Second.

Record storedMessage := StoredMessage {
  s_ID : uuid;
  s_Key : string;
  s_Value : json;
  s_Expire : string;
  s_Date : Z;
}.

Definition zero_stored : storedMessage := StoredMessage zero_uuid EMPTY_STR JNull EMPTY_STR zero_time.

Definition stored_fields : list string := ["id"; "key"; "value"; "expire"; "date"].

Section codec.
Context `{UuidLib, TimeText, TimeParse, JsonText, JsonPrint}.

(** The document [json.Marshal] writes for the struct. *)
Definition stored_doc (s : storedMessage) : json :=
  JObj [("id", JStr (uuid_String (s_ID s))); ("key", JStr (s_Key s));
        ("value", marshal_any (s_Value s)); ("expire", JStr (s_Expire s));
        ("date", JStr (time_text (s_Date s)))].

(** [m.encode()] *)
Definition encode (m : Message) : result string :=
  let s := StoredMessage (m_id m) (m_Key m) (m_Value m) (m_Expire m) (m_date m) in
  if year_ok (s_Date s) then json_Marshal (stored_doc s)
  else Err (Error "Time.MarshalJSON: year outside of range [0,9999]").

(** Decoding one member of the text into the struct: the new struct, and
    whether [Unmarshal] will return an error.  A [null] leaves a field as it is,
    except an [any], which becomes nil. *)
Definition decode_stored_member (st : storedMessage * bool) (kv : string * json)
  : storedMessage * bool :=
  let '(s, err) := st in
  let '(k, v) := kv in
  match find_field stored_fields k with
  | None => st
  | Some f =>
    if decide (f = "id") then
      match v with
      | JNull => st
      | JStr t =>
        match uuid_Parse t with
        | Some u => (StoredMessage u (s_Key s) (s_Value s) (s_Expire s) (s_Date s), err)
        | None => (s, true)
        end
      | _ => (s, true)
      end
    else if decide (f = "key") then
      let '(t, e) := decode_string v (s_Key s) in
      (StoredMessage (s_ID s) t (s_Value s) (s_Expire s) (s_Date s), err || e)
    else if decide (f = "value") then
      (StoredMessage (s_ID s) (s_Key s) (decode_any v) (s_Expire s) (s_Date s), err)
    else if decide (f = "expire") then
      let '(t, e) := decode_string v (s_Expire s) in
      (StoredMessage (s_ID s) (s_Key s) (s_Value s) t (s_Date s), err || e)
    else
      match v with
      | JNull => st
      | JStr t =>
        match time_parse t with
        | Some d => (StoredMessage (s_ID s) (s_Key s) (s_Value s) (s_Expire s) d, err)
        | None => (s, true)
        end
      | _ => (s, true)
      end
  end.

(** [json.Unmarshal(b, &s)] on a zero struct; the text [null] leaves it zero. *)
Definition decode_stored (v : json) : storedMessage * bool :=
  match v with
  | JNull => (zero_stored, false)
  | JObj members => fold_left decode_stored_member members (zero_stored, false)
  | _ => (zero_stored, true)
  end.

(** [decodeMessage(b)]: the target keys and the identifier text are not stored. *)
Definition decodeMessage (b : string) : result Message :=
  match json_parse b with
  | None => Err (Error "invalid JSON")
  | Some v =>
    let '(s, err) := decode_stored v in
    if (err : bool) then Err (Error "json: cannot unmarshal into Go struct field")
    else Ok (MkMessage (s_ID s) (s_Key s) [] EMPTY_STR (s_Value s) (s_Expire s) (s_Date s))
  end.

(** What [encode] then [decodeMessage] make of a message. *)
Definition stored_form (m : Message) : Message :=
  MkMessage (m_id m) (utf8_clean (m_Key m)) [] EMPTY_STR
    (decode_any (clean_json (marshal_any (m_Value m)))) (utf8_clean (m_Expire m)) (m_date m).

Context `{!TextLaws, !JsonLaws}.

Lemma clean_stored_doc s :
  clean_json (stored_doc s) =
  JObj [("id", JStr (uuid_String (s_ID s))); ("key", JStr (utf8_clean (s_Key s)));
        ("value", clean_json (marshal_any (s_Value s))); ("expire", JStr (utf8_clean (s_Expire s)));
        ("date", JStr (time_text (s_Date s)))].
Proof.
  unfold stored_doc. cbn [clean_json]. rewrite !fmap_cons, fmap_nil. cbn [fst snd clean_json].
  rewrite (utf8_clean_valid (uuid_String _)) by apply ascii_uuid.
  by rewrite (utf8_clean_valid (time_text _)) by apply ascii_time.
Qed.

(** The five members, one at a time. *)
Lemma decode_id s t :
  decode_stored_member (s, false) ("id", JStr t) =
  match uuid_Parse t with
  | Some u => (StoredMessage u (s_Key s) (s_Value s) (s_Expire s) (s_Date s), false)
  | None => (s, true)
  end.
Proof. reflexivity. Qed.

Lemma decode_key s t :
  decode_stored_member (s, false) ("key", JStr t) =
  (StoredMessage (s_ID s) t (s_Value s) (s_Expire s) (s_Date s), false).
Proof. reflexivity. Qed.

Lemma decode_value s v :
  decode_stored_member (s, false) ("value", v) =
  (StoredMessage (s_ID s) (s_Key s) (decode_any v) (s_Expire s) (s_Date s), false).
Proof. reflexivity. Qed.

Lemma decode_expire s t :
  decode_stored_member (s, false) ("expire", JStr t) =
  (StoredMessage (s_ID s) (s_Key s) (s_Value s) t (s_Date s), false).
Proof. reflexivity. Qed.

Lemma decode_date s t :
  decode_stored_member (s, false) ("date", JStr t) =
  match time_parse t with
  | Some d => (StoredMessage (s_ID s) (s_Key s) (s_Value s) (s_Expire s) d, false)
  | None => (s, true)
  end.
Proof. reflexivity. Qed.

Lemma decode_stored_doc s :
  year_ok (s_Date s) = true →
  decode_stored (clean_json (stored_doc s)) =
  (StoredMessage (s_ID s) (utf8_clean (s_Key s))
     (decode_any (clean_json (marshal_any (s_Value s)))) (utf8_clean (s_Expire s)) (s_Date s),
   false).
Proof.
  intros Hy. rewrite clean_stored_doc. unfold decode_stored. cbn [fold_left].
  by rewrite decode_id, parse_uuid, decode_key, decode_value, decode_expire, decode_date,
    (parse_time _ Hy).
Qed.

(** A message that can be encoded: its year has four digits and its value is
    finite. *)
Definition storable (m : Message) : bool :=
  year_ok (m_date m) && finite_json (marshal_any (m_Value m)).

(** What was encoded decodes to the stored form. *)
Lemma encode_decodes m :
  match encode m with
  | Ok b => storable m = true ∧ decodeMessage b = Ok (stored_form m)
  | Err _ => storable m = false
  end.
Proof.
  unfold encode, storable, json_Marshal. cbn [s_Date].
  destruct (year_ok (m_date m)) eqn:Hy; [|done].
  assert (finite_json (stored_doc (StoredMessage (m_id m) (m_Key m) (m_Value m) (m_Expire m)
    (m_date m))) = finite_json (marshal_any (m_Value m))) as ->.
  { simpl. by rewrite andb_true_r. }
  destruct (finite_json (marshal_any _)) eqn:Hf; [|done]. split; [done|].
  unfold decodeMessage. rewrite parse_print by (simpl; by rewrite Hf).
  by rewrite decode_stored_doc.
Qed.

(** C32: Encoding a message fails exactly when its date or its value cannot be
    written; what was encoded decodes to a message of the same identifier and
    date, the same key, duration and value up to bytes that are not UTF-8, and
    no target keys, whose frame is the same when the value is valid. *)
Theorem stored_round_trip m :
  match encode m with
  | Ok b =>
    storable m = true ∧ ∃ m', decodeMessage b = Ok m' ∧
      m_id m' = m_id m ∧ m_date m' = m_date m ∧ m_Keys m' = [] ∧
      m_Key m' = utf8_clean (m_Key m) ∧ m_Expire m' = utf8_clean (m_Expire m) ∧
      (valid_json (m_Value m) = true → distinct_json (m_Value m) = true →
       marshal m' false = marshal m false)
  | Err _ => storable m = false
  end.
Proof.
  pose proof (encode_decodes m) as Hr. destruct (encode m) as [b|e]; [|exact Hr].
  destruct Hr as [Hs Hd]. split; [exact Hs|]. exists (stored_form m).
  split; [exact Hd|]. do 5 (split; [reflexivity|]). intros Hv Hdis.
  rewrite !marshal_short. simpl. rewrite any_round_trip by done. by rewrite marshal_any_idemp.
Qed.
(** ** A posted message is stored faithfully *)

(** The struct while it is filled from a document of valid strings. *)
Record valid_decoding (d : decoding) : Prop := {
  vd_Key : valid_utf8 (d_Key d) = true;
  vd_Keys : Forall (λ k, valid_utf8 k = true) (backing (d_Keys d));
  vd_Value : valid_json (d_Value d) = true;
  vd_distinct : distinct_json (d_Value d) = true;
  vd_Expire : valid_utf8 (d_Expire d) = true;
}.

Lemma decode_string_valid v old :
  valid_json v = true → valid_utf8 old = true → valid_utf8 (decode_string v old).1 = true.
Proof. by destruct v. Qed.

Lemma decode_elements_valid l i b err :
  (∀ v, v ∈ l → valid_json v = true) → Forall (λ k, valid_utf8 k = true) b →
  Forall (λ k, valid_utf8 k = true) (decode_elements i l b err).1.
Proof.
  revert i b err. induction l as [|v l IH]; intros i b err Hl Hb; [done|]. cbn [decode_elements].
  assert (valid_utf8 (decode_string v (default EmptyString (b !! i))).1 = true) as Hs.
  { apply decode_string_valid; [apply Hl; set_solver|].
    destruct (b !! i) eqn:Hi; [|done]. simpl. exact (Forall_lookup_1 _ _ _ _ Hb Hi). }
  destruct (decode_string _ _) as [t e]. apply IH; [set_solver|]. simpl in Hs.
  case_decide; [by apply Forall_insert|]. apply Forall_app. by rewrite Forall_singleton.
Qed.

Lemma decode_strings_valid v old :
  valid_json v = true → Forall (λ k, valid_utf8 k = true) (backing old) →
  Forall (λ k, valid_utf8 k = true) (backing (decode_strings v old).1).
Proof.
  intros Hv Ho. destruct v as [| | | |[|x l]|]; try done; try constructor.
  cbn [decode_strings].
  pose proof (decode_elements_valid (x :: l) 0 (backing old) false) as He.
  destruct (decode_elements _ _ _ _) as [b err]. apply He; [|done].
  intros y. by apply forallb_in.
Qed.

Lemma decode_member_valid d k v :
  valid_json v = true → valid_decoding d → valid_decoding (decode_member d (k, v)).
Proof.
  intros Hv Hd. pose proof (decode_string_valid v) as Hs. pose proof (decode_strings_valid v) as Hl.
  destruct Hd as [Hd1 Hd2 Hd3 Hd4 Hd5]. unfold decode_member.
  destruct (find_field _ k) as [f|]; [|by split].
  repeat case_decide.
  - specialize (Hs (d_Key d) Hv Hd1). destruct (decode_string _ _). by split.
  - specialize (Hl (d_Keys d) Hv Hd2). destruct (decode_strings _ _). by split.
  - destruct (decode_string _ _). by split.
  - split; try done; cbn; [by apply valid_decode_any|apply distinct_decode_any].
  - specialize (Hs (d_Expire d) Hv Hd5). destruct (decode_string _ _). by split.
Qed.

Lemma decode_members_valid ms :
  valid_json (JObj ms) = true → valid_decoding (decode_members ms).
Proof.
  unfold decode_members. intros Hms.
  assert (valid_decoding (Decoding EmptyString (Strings [] 0) EmptyString JNull EmptyString false))
    as Hd by by split.
  revert Hms Hd. generalize (Decoding EmptyString (Strings [] 0) EmptyString JNull EmptyString false).
  induction ms as [|[k v] ms IH]; intros d Hms Hd; [done|].
  simpl in Hms. apply andb_true_iff in Hms as [[_ Hv]%andb_true_iff Hms].
  apply IH; [exact Hms|]. by apply decode_member_valid.
Qed.

Lemma unmarshal_valid data defaultExpire now rnd m :
  unmarshal data defaultExpire now rnd = Returned (Ok m) → valid_utf8 defaultExpire = true →
  (∀ k, k ∈ m_targets m → valid_utf8 k = true) ∧ valid_json (m_Value m) = true ∧
  distinct_json (m_Value m) = true ∧ valid_utf8 (m_Expire m) = true ∧ m_date m = now.
Proof.
  unfold unmarshal. destruct data as [b|]; [|done]. destruct (json_parse b) as [v|] eqn:Hb; [|done].
  apply parse_valid in Hb. destruct v as [| | | | |ms]; try done. cbn [decode_Message].
  apply decode_members_valid in Hb as [Hk Hks Hv Hd He]. destruct (d_err _); [done|].
  set (d := decode_members ms) in *. intros Hm Hdef.
  assert (∀ k, k ∈ targets (d_Key d) (slice_view (d_Keys d)) → valid_utf8 k = true) as Ht.
  { intros k [_ Hin]%elem_of_targets. apply elem_of_cons in Hin as [->|Hin]; [done|].
    rewrite Forall_forall in Hks. apply Hks. 
    rewrite <-(take_drop (slice_len (d_Keys d)) (backing (d_Keys d))). apply elem_of_app. by left. }
  assert (valid_utf8 (if decide (d_Expire d = EMPTY_STR) then defaultExpire else d_Expire d) = true)
    as Hx.
  { by destruct (decide (d_Expire d = EMPTY_STR)). }
  revert Hm Ht Hx. generalize (if decide (d_Expire d = EMPTY_STR) then defaultExpire else d_Expire d).
  intros expire Hm Ht Hx. repeat (case_match; simplify_eq/=; try done).
Qed.

(** What reading back the stored form of a posted message gives. *)
Lemma stored_form_same data defaultExpire now rnd m key :
  unmarshal data defaultExpire now rnd = Returned (Ok m) →
  valid_utf8 defaultExpire = true → key ∈ m_targets m →
  let m' := stored_form (with_Key m key) in
  m_id m' = m_id m ∧ m_Key m' = key ∧ m_date m' = m_date m ∧
  marshal m' false = marshal m false ∧ ∀ t, isExpired m' t = isExpired m t.
Proof.
  intros Hu Hdef Hkey m'.
  destruct (unmarshal_valid _ _ _ _ _ Hu Hdef) as (Hk & Hv & Hd & He & _).
  split_and!; [done|by apply utf8_clean_valid, Hk|done| |].
  - rewrite !marshal_short. simpl. rewrite any_round_trip by done.
    by rewrite marshal_any_idemp.
  - intros t. unfold isExpired. simpl. by rewrite utf8_clean_valid.
Qed.

(** A message accepted by POST loses nothing a subscriber or the gateway
    uses when it is stored and read back: same identifier, key and date, the
    same frame, and it expires at the same instant. *)
Theorem stored_form_faithful data defaultExpire now rnd m key :
  unmarshal data defaultExpire now rnd = Returned (Ok m) →
  valid_utf8 defaultExpire = true → year_ok now = true → key ∈ m_targets m →
  ∃ b m', encode (with_Key m key) = Ok b ∧ decodeMessage b = Ok m' ∧
    m_id m' = m_id m ∧ m_Key m' = key ∧ m_date m' = m_date m ∧
    marshal m' false = marshal m false ∧ ∀ t, isExpired m' t = isExpired m t.
Proof.
  intros Hu Hdef Hy Hkey. pose proof (stored_form_same _ _ _ _ _ _ Hu Hdef Hkey) as Hsame.
  destruct (unmarshal_valid _ _ _ _ _ Hu Hdef) as (_ & Hv & _ & _ & Hdate).
  pose proof (encode_decodes (with_Key m key)) as Hr.
  assert (storable (with_Key m key) = true) as Hs.
  { unfold storable. simpl. rewrite Hdate, Hy. simpl. by apply valid_finite, valid_marshal_any. }
  destruct (encode _) as [b|]; [|by rewrite Hs in Hr]. destruct Hr as [_ Hr].
  exists b, (stored_form (with_Key m key)). auto.
Qed.
End codec.
