(* ===== verification/SampleText.v ===== *)
(** * A concrete text for documents, identifiers and instants

    An instance of the parameters [JsonText], [JsonPrint], [UuidLib], [TimeText]
    and [TimeParse] that satisfies their laws: the witnesses of the theorems that
    assume those laws are computed with it.  A document, an identifier
    and an instant are written as the binary digits of the number stdpp's
    [Countable] encodes them as. *)
From stdpp Require Import base numbers list gmap strings.
From Corelib Require Import SpecFloat.
From S2P Require Import Prelude GoStd GoTime Utf8 Json JsonCodec Const Message Stored.

#[local] Open Scope Z_scope.

Module SampleText.

(** ** Numbers as text *)

Fixpoint pos_text (p : positive) : string :=
  match p with
  | xH => "1"
  | xO p => String "a" (pos_text p)
  | xI p => String "b" (pos_text p)
  end.

Fixpoint text_pos (s : string) : option positive :=
  match s with
  | String c s =>
    if decide (c = "1"%char) then match s with EmptyString => Some xH | _ => None end
    else if decide (c = "a"%char) then xO <$> text_pos s
    else if decide (c = "b"%char) then xI <$> text_pos s
    else None
  | EmptyString => None
  end.

Lemma text_pos_text p : text_pos (pos_text p) = Some p.
Proof. induction p as [p IH|p IH|]; simpl; rewrite ?IH; done. Qed.

Lemma pos_text_valid p : valid_utf8 (pos_text p) = true.
Proof.
  induction p as [p IH|p IH|]; [| |done]; cbn [pos_text]; rewrite valid_utf8_step;
    unfold invalid_rune; rewrite DecodeRune_ascii by done; exact IH.
Qed.

(** ** Documents as numbers *)

#[local] Instance float_eq_dec : EqDecision float64.
Proof. solve_decision. Defined.

#[local] Instance float_countable : Countable float64.
Proof.
  refine (inj_countable'
    (λ x : float64, match x with
     | S754_zero s => inl s
     | S754_infinity s => inr (inl s)
     | S754_nan => inr (inr (inl ()))
     | S754_finite s m e => inr (inr (inr (s, m, e)))
     end : bool + (bool + (unit + (bool * positive * Z))))
    (λ y, match y with
     | inl s => S754_zero s
     | inr (inl s) => S754_infinity s
     | inr (inr (inl _)) => S754_nan
     | inr (inr (inr (s, m, e))) => S754_finite s m e
     end) _).
  by intros [].
Defined.

Inductive leaf := LBool (b : bool) | LNum (x : float64) | LStr (s : string).

#[local] Instance leaf_eq_dec : EqDecision leaf.
Proof. solve_decision. Defined.

#[local] Instance leaf_countable : Countable leaf.
Proof.
  refine (inj_countable'
    (λ l, match l with LBool b => inl b | LNum x => inr (inl x) | LStr s => inr (inr s) end)
    (λ y, match y with inl b => LBool b | inr (inl x) => LNum x | inr (inr s) => LStr s end) _).
  by intros [].
Defined.

Fixpoint to_tree (v : json) : gen_tree leaf :=
  match v with
  | JNull => GenNode 0 []
  | JBool b => GenLeaf (LBool b)
  | JNum x => GenLeaf (LNum x)
  | JStr s => GenLeaf (LStr s)
  | JArr l => GenNode 1 (to_tree <$> l)
  | JObj ms => GenNode 2 ((λ kv, GenNode 3 [GenLeaf (LStr kv.1); to_tree kv.2]) <$> ms)
  end.

Fixpoint of_tree (t : gen_tree leaf) : json :=
  match t with
  | GenLeaf (LBool b) => JBool b
  | GenLeaf (LNum x) => JNum x
  | GenLeaf (LStr s) => JStr s
  | GenNode 1 l => JArr (of_tree <$> l)
  | GenNode 2 l => JObj ((λ t, match t with
      | GenNode 3 [GenLeaf (LStr k); t] => (k, of_tree t)
      | _ => (EmptyString, JNull)
      end) <$> l)
  | _ => JNull
  end.

Lemma of_to_tree v : of_tree (to_tree v) = v.
Proof.
  json_induction v; rewrite Forall_forall in IH; f_equal; rewrite <-list_fmap_compose;
    apply fmap_id_on; [done|]. intros [k x] Hx. specialize (IH _ Hx). cbn in *. by rewrite IH.
Qed.

(** ** The instances *)

#[export] Instance sample_print : JsonPrint := λ v, pos_text (countable.encode (to_tree (clean_json v))).

#[export] Instance sample_parse : JsonText := λ s,
  p ← text_pos s; t ← decode p; if valid_json (of_tree t) then Some (of_tree t) else None.

#[export] Instance sample_json : JsonLaws.
Proof.
  split.
  - intros v Hv. unfold json_parse, sample_parse, json_print, sample_print.
    rewrite text_pos_text. cbn [mbind option_bind]. rewrite decode_encode. cbn [mbind option_bind].
    by rewrite of_to_tree, valid_clean_json.
  - intros s v. unfold json_parse, sample_parse.
    destruct (text_pos s) as [p|]; [|done]. cbn [mbind option_bind].
    destruct (decode p) as [t|]; [|done]. cbn [mbind option_bind].
    destruct (valid_json (of_tree t)) eqn:Hv; [|done]. by intros [= <-].
Qed.

#[export] Instance sample_uuid : UuidLib := {|
  uuid_String := λ u, pos_text (countable.encode u);
  uuid_Parse := λ s, p ← text_pos s; decode p;
|}.

#[export] Instance sample_time : TimeText := λ t, pos_text (countable.encode t).
#[export] Instance sample_time_parse : TimeParse := λ s, p ← text_pos s; decode p.

#[export] Instance sample_laws : TextLaws.
Proof.
  split.
  - intros u. simpl. rewrite text_pos_text. simpl. apply decode_encode.
  - intros t _. unfold time_parse, sample_time_parse, time_text, sample_time.
    rewrite text_pos_text. simpl. apply decode_encode.
  - intros u. apply pos_text_valid.
  - intros t. apply pos_text_valid.
Qed.

End SampleText.
