(* ===== verification/Storage.v ===== *)
(** * The storage interface ([src/src/storage.go]) and its contract

    [Storage] is the Go interface, one operation per method, each a critical
    section of the (self-synchronised) backend.  [StorageSpec] is the contract
    the engine's theorems are proved against: a backend denotes a table of
    queued messages, and every method changes the table or reads it as stated.
    A write that returns an error may or may not have been applied (a network
    failure can strike before or after the server acts). *)
From stdpp Require Import base list gmap strings.
From S2P Require Import Prelude GoStd Json Message.

(** ** The interface *)

(** [range] is the order in which a [range] over a Go map visits its keys, for
    the methods that may enumerate one; [as_Notifier] and [as_Pinger] are the type
    assertions to the optional interfaces. *)
Class Storage (S : Type) := {
  SetQueue : string → list Message → S → S * option error;
  GetQueue : (gset string → list string) → string → S → S * result (list Message);
  DeleteQueue : string → S → S * option error;
  AddMessage : string → Message → S → S * option error;
  DeleteMessage : string → uuid → S → S * option error;
  GetKeys : (gset string → list string) → S → S * result (slice string);
  as_Notifier : option (string → S → S * option error);
  as_Pinger : option (S → S * option error);
}.

(** An order in which a map with the given keys may be visited. *)
Definition is_range (range : gset string → list string) : Prop :=
  ∀ X, range X ≡ₚ elements X.

(** ** The table of queued messages *)

Definition queues : Type := string → uuid → option Message.

Definition q_empty : queues := λ _ _, None.

Definition q_add (key : string) (m : Message) (q : queues) : queues :=
  λ k id, if decide (k = key ∧ id = m_id m) then Some m else q k id.

Definition q_del (key : string) (id : uuid) (q : queues) : queues :=
  λ k i, if decide (k = key ∧ i = id) then None else q k i.

Definition q_clear (key : string) (q : queues) : queues :=
  λ k i, if decide (k = key) then None else q k i.

#[export] Instance queues_equiv : Equiv queues := λ q q', ∀ k id, q k id = q' k id.

#[export] Instance queues_equivalence : Equivalence (≡@{queues}).
Proof.
  split; [by intros q k i|by intros q q' Hq k i|].
  intros q1 q2 q3 H12 H23 k i. by rewrite (H12 k i).
Qed.

#[export] Instance q_add_proper key m : Proper ((≡) ==> (≡)) (q_add key m).
Proof. intros q q' Hq k i. unfold q_add. by rewrite (Hq k i). Qed.

#[export] Instance q_del_proper key id : Proper ((≡) ==> (≡)) (q_del key id).
Proof. intros q q' Hq k i. unfold q_del. by rewrite (Hq k i). Qed.

#[export] Instance q_clear_proper key : Proper ((≡) ==> (≡)) (q_clear key).
Proof. intros q q' Hq k i. unfold q_clear. by rewrite (Hq k i). Qed.

(** A write with result [err] that should turn [q] into [q2] left [q']. *)
Definition applied (err : option error) (q q2 q' : queues) : Prop :=
  match err with
  | None => q' ≡ q2
  | Some _ => q' ≡ q ∨ q' ≡ q2
  end.

(** [l] lists the queue of [key]: each of its messages once. *)
Definition lists_queue (q : queues) (key : string) (l : list Message) : Prop :=
  NoDup (m_id <$> l) ∧ ∀ m, m ∈ l ↔ q key (m_id m) = Some m.

(** ** Calls that change the storage *)

Inductive write :=
| WAdd (key : string) (m : Message)
| WDelete (key : string) (id : uuid)
| WClear (key : string).

Definition table_step (q : queues) (o : write) : queues :=
  match o with
  | WAdd key m => q_add key m q
  | WDelete key id => q_del key id q
  | WClear key => q_clear key q
  end.

#[export] Instance table_step_proper : Proper ((≡) ==> (=) ==> (≡)) table_step.
Proof. intros q q' Hq o ? <-. destruct o; simpl; by rewrite Hq. Qed.

(** ** The contract *)

(** [st_form m] is what reading [m] back gives: a backend that keeps an encoded
    form returns the message that form decodes to, under the same id. *)
Class StorageSpec (S : Type) `{Storage S} := {
  st_ok : S → Prop;
  queued : S → queues;
  st_form : Message → Message;
  st_form_id m : m_id (st_form m) = m_id m;
  queued_id s k id m : st_ok s → queued s k id = Some m → m_id m = id;
  GetQueue_spec range s k s' r :
    st_ok s → is_range range → GetQueue range k s = (s', r) →
    st_ok s' ∧ queued s' ≡ queued s ∧
    match r with Ok l => lists_queue (queued s) k l | Err _ => True end;
  GetKeys_spec range s s' r :
    st_ok s → is_range range → GetKeys range s = (s', r) →
    st_ok s' ∧ queued s' ≡ queued s ∧
    match r with
    | Ok ks => ∀ k, k ∈ elems ks ↔ ∃ id, is_Some (queued s k id)
    | Err _ => True
    end;
  AddMessage_spec s k m s' err :
    st_ok s → AddMessage k m s = (s', err) →
    st_ok s' ∧ applied err (queued s) (q_add k (st_form m) (queued s)) (queued s');
  DeleteMessage_spec s k id s' err :
    st_ok s → DeleteMessage k id s = (s', err) →
    st_ok s' ∧ applied err (queued s) (q_del k id (queued s)) (queued s');
  DeleteQueue_spec s k s' err :
    st_ok s → DeleteQueue k s = (s', err) →
    st_ok s' ∧ applied err (queued s) (q_clear k (queued s)) (queued s');
  Notify_spec notify s k s' err :
    as_Notifier = Some notify → st_ok s → notify k s = (s', err) →
    st_ok s' ∧ queued s' ≡ queued s;
  Ping_spec ping s s' err :
    as_Pinger = Some ping → st_ok s → ping s = (s', err) →
    st_ok s' ∧ queued s' ≡ queued s;
}.
