(* ===== verification/MemoryStorage.v ===== *)
(** * The in-process storage ([src/src/memory_storage.go])

    [map[string][]Message] under a mutex: every method is one critical section.
    The queues are values here: [GetQueue] copies, and no other slice of the
    program shares a backing array with the map. *)
From stdpp Require Import base list gmap strings.
From S2P Require Import Prelude GoStd Json Message Storage.

(** ** The state and its operations *)

Record MemoryStorage := MkMemoryStorage { storage : gmap string (list Message) }.

Module Memory.

Definition Init : MemoryStorage := MkMemoryStorage ∅.

Definition SetQueue (key : string) (queue : list Message) (s : MemoryStorage)
  : MemoryStorage * option error :=
  (MkMemoryStorage (<[key := queue]> (storage s)), None).

(** A missing key and an empty queue both give the nil slice. *)
Definition GetQueue (range : gset string → list string) (key : string) (s : MemoryStorage)
  : MemoryStorage * result (list Message) :=
  let src := default [] (storage s !! key) in
  (s, Ok src).

Definition DeleteQueue (key : string) (s : MemoryStorage) : MemoryStorage * option error :=
  (MkMemoryStorage (delete key (storage s)), None).

(** The loop of [AddMessage]: replace the message with the same id, or append. *)
Fixpoint upsert (queue : list Message) (m : Message) : list Message :=
  match queue with
  | [] => [m]
  | x :: queue => if decide (m_id x = m_id m) then m :: queue else x :: upsert queue m
  end.

Definition AddMessage (key : string) (m : Message) (s : MemoryStorage)
  : MemoryStorage * option error :=
  let queue := default [] (storage s !! key) in
  (MkMemoryStorage (<[key := upsert queue m]> (storage s)), None).

(** The loop of [DeleteMessage]: the queue without the first message with that
    id, if there is one. *)
Fixpoint cut (queue : list Message) (id : uuid) : option (list Message) :=
  match queue with
  | [] => None
  | x :: queue => if decide (m_id x = id) then Some queue else cons x <$> cut queue id
  end.

Definition DeleteMessage (key : string) (id : uuid) (s : MemoryStorage)
  : MemoryStorage * option error :=
  match cut (default [] (storage s !! key)) id with
  | Some [] => (MkMemoryStorage (delete key (storage s)), None)
  | Some queue => (MkMemoryStorage (<[key := queue]> (storage s)), None)
  | None => (s, None)
  end.

Definition GetKeys (range : gset string → list string) (s : MemoryStorage)
  : MemoryStorage * result (slice string) :=
  (s, Ok (Slice (range (dom (storage s))))).

End Memory.

#[export] Instance MemoryStorage_Storage : Storage MemoryStorage := {
  SetQueue := Memory.SetQueue;
  GetQueue := Memory.GetQueue;
  DeleteQueue := Memory.DeleteQueue;
  AddMessage := Memory.AddMessage;
  DeleteMessage := Memory.DeleteMessage;
  GetKeys := Memory.GetKeys;
  as_Notifier := None;
  as_Pinger := None;
}.

(** ** The contract *)

(** No queue is empty and no id occurs twice in a queue. *)
Definition mem_ok (s : MemoryStorage) : Prop :=
  map_Forall (λ _ q, q ≠ [] ∧ NoDup (m_id <$> q)) (storage s).

Definition find_id (id : uuid) (q : list Message) : option Message :=
  List.find (λ m, bool_decide (m_id m = id)) q.

Definition mem_queued (s : MemoryStorage) : queues :=
  λ k id, find_id id (default [] (storage s !! k)).

(** ** Lemmas on queues *)

Lemma find_id_Some id q m : find_id id q = Some m → m ∈ q ∧ m_id m = id.
Proof.
  unfold find_id. intros Hf. apply find_some in Hf as [Hin Hid%bool_decide_eq_true].
  by rewrite list_elem_of_In.
Qed.

Lemma find_id_elem_of id q m :
  NoDup (m_id <$> q) → m ∈ q → m_id m = id → find_id id q = Some m.
Proof.
  induction q as [|x q IH]; simpl; [set_solver|].
  rewrite NoDup_cons. intros [Hx Hq] Hm Hid. unfold find_id. simpl.
  case_bool_decide as Hxid.
  - apply elem_of_cons in Hm as [->|Hm]; [done|].
    exfalso. apply Hx. rewrite Hxid, <-Hid. by apply list_elem_of_fmap_2.
  - apply elem_of_cons in Hm as [->|Hm]; [done|]. by apply IH.
Qed.

Lemma find_id_None id q : find_id id q = None ↔ id ∉ m_id <$> q.
Proof.
  unfold find_id. induction q as [|x q IH]; simpl; [set_solver|].
  case_bool_decide as Hx; [set_solver|]. rewrite IH. set_solver.
Qed.

Lemma upsert_find id q m :
  find_id id (Memory.upsert q m) = if decide (id = m_id m) then Some m else find_id id q.
Proof.
  unfold find_id. induction q as [|x q IH]; simpl.
  - case_bool_decide; case_decide; congruence.
  - destruct (decide (m_id x = m_id m)) as [Hx|Hx]; simpl.
    + destruct (decide (id = m_id m)) as [->|]; [by rewrite bool_decide_eq_true_2|].
      by rewrite !bool_decide_eq_false_2 by congruence.
    + case_bool_decide as Hid; [|done]. by rewrite decide_False by congruence.
Qed.

Lemma upsert_ids q m :
  m_id <$> Memory.upsert q m =
  if decide (m_id m ∈ m_id <$> q) then m_id <$> q else (m_id <$> q) ++ [m_id m].
Proof.
  induction q as [|x q IH]; [done|]. cbn [Memory.upsert].
  destruct (decide (m_id x = m_id m)) as [Hx|Hx]; rewrite !fmap_cons.
  - rewrite decide_True by (rewrite Hx; set_solver). by rewrite Hx.
  - rewrite IH. repeat case_decide; set_solver.
Qed.

Lemma upsert_NoDup q m : NoDup (m_id <$> q) → NoDup (m_id <$> Memory.upsert q m).
Proof.
  intros Hq. rewrite upsert_ids. case_decide; [done|].
  apply NoDup_app. split_and!; [done|set_solver|apply NoDup_singleton].
Qed.

Lemma upsert_not_nil q m : Memory.upsert q m ≠ [].
Proof. destruct q; simpl; [done|]. by case_decide. Qed.

Lemma cut_None q id : Memory.cut q id = None ↔ id ∉ m_id <$> q.
Proof.
  induction q as [|x q IH]; simpl; [set_solver|].
  case_decide as Hx; [set_solver|]. rewrite fmap_None, IH. set_solver.
Qed.

Lemma cut_Some q id q' :
  NoDup (m_id <$> q) → Memory.cut q id = Some q' →
  q' = filter (λ m, m_id m ≠ id) q.
Proof.
  revert q'. induction q as [|x q IH]; intros q'; simpl; [done|].
  rewrite NoDup_cons, filter_cons. intros [Hx Hq]. case_decide as Hid.
  - intros [= <-]. destruct (decide (m_id x ≠ id)); [done|].
    symmetry. apply filter_id. intros m Hm Hmid.
    apply Hx. rewrite Hid, <-Hmid. by apply list_elem_of_fmap_2.
  - destruct (Memory.cut q id) as [q0|] eqn:Hcut; simpl; [|done]. intros [= <-].
    rewrite decide_True by done. by rewrite (IH q0).
Qed.

Lemma filter_ids_NoDup q id :
  NoDup (m_id <$> q) → NoDup (m_id <$> filter (λ m, m_id m ≠ id) q).
Proof.
  intros Hq. eapply sublist_NoDup; [done|]. apply fmap_sublist, sublist_filter.
Qed.

Lemma find_id_filter q id i :
  find_id i (filter (λ m, m_id m ≠ id) q) = if decide (i = id) then None else find_id i q.
Proof.
  unfold find_id. induction q as [|x q IH]; [by case_decide|].
  rewrite filter_cons. destruct (decide (m_id x ≠ id)) as [Hx|Hx]; simpl; rewrite IH.
  - destruct (decide (i = id)) as [->|]; [by rewrite bool_decide_eq_false_2|done].
  - apply dec_stable in Hx. destruct (decide (i = id)) as [->|]; [done|].
    by rewrite bool_decide_eq_false_2 by congruence.
Qed.

Lemma find_id_ok id k s m :
  mem_queued s k id = Some m → ∃ q, storage s !! k = Some q ∧ m ∈ q ∧ m_id m = id.
Proof.
  unfold mem_queued. destruct (storage s !! k) as [q|]; simpl; [|done].
  intros Hm%find_id_Some. eauto.
Qed.

Lemma mem_ok_default s k : mem_ok s → NoDup (m_id <$> default [] (storage s !! k)).
Proof.
  intros Hok. destruct (storage s !! k) as [q|] eqn:Hk; simpl; [|constructor].
  by apply (Hok k q).
Qed.

#[export] Hint Resolve mem_ok_default upsert_not_nil : goctopus.

(** ** Every method keeps the invariant and acts on the table as specified *)

Lemma Init_ok : mem_ok Memory.Init.
Proof. apply map_Forall_empty. Qed.

Lemma mem_insert_ok s k q :
  mem_ok s → q ≠ [] → NoDup (m_id <$> q) → mem_ok (MkMemoryStorage (<[k:=q]> (storage s))).
Proof. intros Hok Hq Hn. by apply map_Forall_insert_2. Qed.

Lemma mem_delete_ok s k : mem_ok s → mem_ok (MkMemoryStorage (delete k (storage s))).
Proof. apply map_Forall_delete. Qed.

Lemma mem_queued_insert s k q :
  mem_queued (MkMemoryStorage (<[k:=q]> (storage s))) ≡
  λ k' id, if decide (k' = k) then find_id id q else mem_queued s k' id.
Proof.
  intros k' id. unfold mem_queued. simpl. rewrite lookup_insert.
  repeat case_decide; naive_solver.
Qed.

Lemma mem_queued_delete s k :
  mem_queued (MkMemoryStorage (delete k (storage s))) ≡ q_clear k (mem_queued s).
Proof.
  intros k' id. unfold mem_queued, q_clear. simpl. rewrite lookup_delete.
  repeat case_decide; naive_solver.
Qed.

Lemma AddMessage_queued s k m :
  mem_ok s →
  mem_ok (Memory.AddMessage k m s).1 ∧
  mem_queued (Memory.AddMessage k m s).1 ≡ q_add k m (mem_queued s).
Proof.
  intros Hok. split.
  - apply mem_insert_ok; [done|apply upsert_not_nil|apply upsert_NoDup; auto with goctopus].
  - simpl. rewrite mem_queued_insert. intros k' id. unfold q_add.
    destruct (decide (k' = k)) as [->|]; [|by rewrite decide_False by naive_solver].
    rewrite upsert_find. repeat case_decide; naive_solver.
Qed.

Lemma DeleteMessage_queued s k id :
  mem_ok s →
  mem_ok (Memory.DeleteMessage k id s).1 ∧
  mem_queued (Memory.DeleteMessage k id s).1 ≡ q_del k id (mem_queued s).
Proof.
  intros Hok. unfold Memory.DeleteMessage.
  pose proof (mem_ok_default s k Hok) as Hn.
  destruct (Memory.cut _ id) as [q|] eqn:Hcut.
  - apply cut_Some in Hcut; [|done].
    assert (mem_queued s k = λ i, find_id i (default [] (storage s !! k))) as Hk by done.
    assert (∀ i, find_id i q = q_del k id (mem_queued s) k i) as Hq.
    { intros i. rewrite Hcut, find_id_filter. unfold q_del.
      repeat case_decide; naive_solver. }
    destruct q as [|x q]; simpl; split.
    + by apply mem_delete_ok.
    + rewrite mem_queued_delete. intros k' i. unfold q_clear.
      destruct (decide (k' = k)) as [->|]; [by rewrite <-Hq|].
      unfold q_del. by rewrite decide_False by naive_solver.
    + apply mem_insert_ok; [done|done|]. rewrite Hcut. by apply filter_ids_NoDup.
    + rewrite mem_queued_insert. intros k' i.
      destruct (decide (k' = k)) as [->|]; [by rewrite <-Hq|].
      unfold q_del. by rewrite decide_False by naive_solver.
  - split; [done|]. simpl. intros k' i. unfold q_del.
    destruct (decide (k' = k ∧ i = id)) as [[-> ->]|]; [|done].
    unfold mem_queued. by apply find_id_None, cut_None.
Qed.

Lemma mem_lists_queue s k : mem_ok s → lists_queue (mem_queued s) k (default [] (storage s !! k)).
Proof.
  intros Hok. pose proof (mem_ok_default s k Hok) as Hn. split; [done|].
  intros m. unfold mem_queued. split.
  - intros Hm. by apply find_id_elem_of.
  - by intros [Hm _]%find_id_Some.
Qed.

Lemma mem_keys s k : mem_ok s → k ∈ dom (storage s) ↔ ∃ id, is_Some (mem_queued s k id).
Proof.
  intros Hok. rewrite elem_of_dom. split.
  - intros [[|m q] Hq]; [by destruct (Hok _ _ Hq)|].
    exists (m_id m), m. unfold mem_queued. rewrite Hq. simpl. unfold find_id. simpl.
    by rewrite bool_decide_eq_true_2.
  - intros (id & m & (q & Hq & _)%find_id_ok). eauto.
Qed.

#[export] Instance MemoryStorage_Spec : StorageSpec MemoryStorage.
Proof.
  refine {| st_ok := mem_ok; queued := mem_queued; st_form := λ m, m |}.
  - done.
  - intros s k id m _ (q & _ & _ & Hid)%find_id_ok. done.
  - intros range s k s' r Hok _ [= <- <-]. split_and!; [done|done|by apply mem_lists_queue].
  - intros range s s' r Hok Hrange [= <- <-]. split_and!; [done|done|].
    intros k. cbn [elems]. rewrite (Hrange _), elem_of_elements. by apply mem_keys.
  - intros s k m s' err Hok [= <- <-]. by apply AddMessage_queued.
  - intros s k id s' err Hok Hd. destruct (DeleteMessage_queued s k id Hok) as [Hok' Hq].
    assert (err = None) as ->
      by (revert Hd; simpl; unfold Memory.DeleteMessage; repeat case_match; congruence).
    simpl in Hd. rewrite Hd in Hok', Hq. done.
  - intros s k s' err Hok [= <- <-]. split; [by apply mem_delete_ok|apply mem_queued_delete].
  - done.
  - done.
Defined.

(** ** The two contracts *)

Definition mem_step (s : MemoryStorage) (o : write) : MemoryStorage :=
  match o with
  | WAdd key m => (Memory.AddMessage key m s).1
  | WDelete key id => (Memory.DeleteMessage key id s).1
  | WClear key => (Memory.DeleteQueue key s).1
  end.

Lemma mem_step_table s o :
  mem_ok s → mem_ok (mem_step s o) ∧ mem_queued (mem_step s o) ≡ table_step (mem_queued s) o.
Proof.
  intros Hok. destruct o; simpl.
  - by apply AddMessage_queued.
  - by apply DeleteMessage_queued.
  - split; [by apply mem_delete_ok|apply mem_queued_delete].
Qed.

Lemma mem_run_table ops s q :
  mem_ok s → mem_queued s ≡ q →
  mem_ok (fold_left mem_step ops s) ∧
  mem_queued (fold_left mem_step ops s) ≡ fold_left table_step ops q.
Proof.
  revert s q. induction ops as [|o ops IH]; intros s q Hok Hq; [done|]. simpl.
  destruct (mem_step_table s o Hok) as [Hok' Hq']. apply IH; [done|]. by rewrite Hq', Hq.
Qed.

(** C28: After any sequence of calls the store holds exactly the table the calls
    specify: a read lists each message of its key once, the keys are those with
    messages, and a key without messages takes no space. *)
Theorem memory_refines_table ops range :
  is_range range →
  let s := fold_left mem_step ops Memory.Init in
  let q := fold_left table_step ops q_empty in
  (∀ range key, ∃ l, Memory.GetQueue range key s = (s, Ok l) ∧ lists_queue q key l) ∧
  (∃ ks, Memory.GetKeys range s = (s, Ok ks) ∧ ∀ k, k ∈ elems ks ↔ ∃ id, is_Some (q k id)) ∧
  ∀ key, storage s !! key ≠ Some [].
Proof.
  intros Hrange s q.
  destruct (mem_run_table ops Memory.Init q_empty Init_ok) as [Hok Hq].
  { intros k id. unfold mem_queued. simpl. by rewrite lookup_empty. }
  fold s in Hok, Hq. fold q in Hq. split_and!.
  - intros order key. eexists. split; [done|]. destruct (mem_lists_queue s key Hok) as [Hnd Hin].
    split; [done|]. intros m. by rewrite Hin, (Hq key (m_id m)).
  - eexists. split; [done|]. intros k. cbn [elems]. rewrite (Hrange _), elem_of_elements, mem_keys by done.
    by setoid_rewrite (Hq k).
  - intros key Hk. by destruct (Hok key [] Hk).
Qed.

Lemma memory_refines_table_witness :
  let s := fold_left mem_step [WClear "a"] Memory.Init in
  let q := fold_left table_step [WClear "a"] q_empty in
  (∀ range key, ∃ l, Memory.GetQueue range key s = (s, Ok l) ∧ lists_queue q key l) ∧
  (∃ ks, Memory.GetKeys elements s = (s, Ok ks) ∧ ∀ k, k ∈ elems ks ↔ ∃ id, is_Some (q k id)) ∧
  ∀ key, storage s !! key ≠ Some [].
Proof. apply (memory_refines_table [WClear "a"] elements). intros X. reflexivity. Defined.

(** Queues are first in, first out: adding appends unless the identifier is
    already queued, in which case the message takes the place of the old one;
    deleting keeps the order of the rest. *)
Theorem memory_keeps_order s key m id :
  mem_ok s →
  let ids s := m_id <$> default [] (storage s !! key) in
  ids (Memory.AddMessage key m s).1 =
    (if decide (m_id m ∈ ids s) then ids s else ids s ++ [m_id m]) ∧
  default [] (storage (Memory.DeleteMessage key id s).1 !! key) =
    filter (λ x, m_id x ≠ id) (default [] (storage s !! key)).
Proof.
  intros Hok. cbv zeta. split.
  - simpl. rewrite lookup_insert_eq. apply upsert_ids.
  - pose proof (mem_ok_default s key Hok) as Hnd. unfold Memory.DeleteMessage.
    destruct (Memory.cut _ id) as [q|] eqn:Hcut.
    + apply cut_Some in Hcut; [|done]. rewrite <-Hcut. destruct q as [|x q]; simpl.
      * by rewrite lookup_delete_eq.
      * by rewrite lookup_insert_eq.
    + apply cut_None in Hcut. simpl. symmetry. apply filter_id.
      intros x Hx Hid. apply Hcut. rewrite <-Hid. by apply list_elem_of_fmap_2.
Qed.

Lemma memory_keeps_order_witness :
  let ids s := m_id <$> default [] (storage s !! "k") in
  ids (Memory.AddMessage "k" Sample.message Memory.Init).1 =
    (if decide (m_id Sample.message ∈ ids Memory.Init) then ids Memory.Init
     else ids Memory.Init ++ [m_id Sample.message]) ∧
  default [] (storage (Memory.DeleteMessage "k" Sample.id Memory.Init).1 !! "k") =
    filter (λ x, m_id x ≠ Sample.id) (default [] (storage Memory.Init !! "k")).
Proof. apply memory_keeps_order, Init_ok. Defined.
