(* ===== verification/RedisServer.v ===== *)
(** * The Redis server, as its client sees it

    The server and the [go-redis] client are outside the repository.
    [RedisServer] is what [redis_storage.go] calls of them; [RedisLaws] states
    what the Redis documentation promises of those calls: each command of
    [apply_command] on its own, a transaction is atomic, a call that reports an
    error may or may not have been carried out, a key with a time to live can
    disappear at any moment, an iteration with SCAN ends and returns every key
    that was there throughout. *)
From stdpp Require Import base numbers list gmap strings.
From S2P Require Import Prelude GoStd.

#[local] Open Scope Z_scope.

(** ** Keyspace and commands *)

(** The hashes of the database, and the keys that have a time to live. *)
Record keyspace := Keyspace {
  ks_hash : gmap string (gmap string string);
  ks_volatile : gset string;
}.

Inductive command :=
| HSET (key field value : string)
| HDEL (key field : string)
| DEL (key : string)
| EXPIRE (key : string) (ttl : Z).

Definition hash_at (ks : keyspace) (key : string) : gmap string string :=
  default ∅ (ks_hash ks !! key).

Definition drop_key (key : string) (ks : keyspace) : keyspace :=
  Keyspace (delete key (ks_hash ks)) (ks_volatile ks ∖ {[key]}).

(** A hash whose last field is removed is removed; a key that is not there has
    no time to live. *)
Definition apply_command (c : command) (ks : keyspace) : keyspace :=
  match c with
  | HSET key f v => Keyspace (<[key := <[f := v]> (hash_at ks key)]> (ks_hash ks)) (ks_volatile ks)
  | HDEL key f =>
    match ks_hash ks !! key with
    | None => ks
    | Some h =>
      let h := delete f h in
      if decide (h = ∅) then drop_key key ks
      else Keyspace (<[key := h]> (ks_hash ks)) (ks_volatile ks)
    end
  | DEL key => drop_key key ks
  | EXPIRE key ttl =>
    match ks_hash ks !! key with
    | None => ks
    | Some _ =>
      if ttl <=? 0 then drop_key key ks
      else Keyspace (ks_hash ks) ({[key]} ∪ ks_volatile ks)
    end
  end.

Definition apply_commands (cs : list command) (ks : keyspace) : keyspace :=
  fold_left (λ ks c, apply_command c ks) cs ks.

(** Time passes: keys with a time to live may disappear, the others stay. *)
Definition drifts (ks ks' : keyspace) : Prop :=
  (∀ k, ks_hash ks' !! k = ks_hash ks !! k ∨ (k ∈ ks_volatile ks ∧ ks_hash ks' !! k = None)) ∧
  (∀ k, k ∈ ks_volatile ks' → k ∈ ks_volatile ks) ∧
  (∀ k, k ∈ ks_volatile ks → k ∈ ks_volatile ks' ∨ ks_hash ks' !! k = None).

(** A call with result [err] that should apply [f]. *)
Definition carried_out (err : option error) (f : keyspace → keyspace) (ks ks' : keyspace) : Prop :=
  drifts (f ks) ks' ∨ (is_Some err ∧ drifts ks ks').

(** ** The client *)

Class RedisServer (R : Type) := {
  redis_exec : list command → R → R * option error;
  redis_hgetall : string → R → R * result (gmap string string);
  redis_scan : Z → string → R → R * result (list string * Z);
  redis_ping : R → R * option error;
  redis_publish : string → string → R → R * option error;
  (** how many SCAN calls an iteration can still take *)
  scan_left : R → Z → nat;
}.

(** A string without the special characters of the glob patterns of SCAN. *)
Definition plain (s : string) : bool := negb (ContainsAny s "*?[]\^-").

Class RedisLaws (R : Type) `{RedisServer R} := {
  redis_ks : R → keyspace;
  (** the keys an iteration will still return if they stay *)
  scan_rest : R → Z → gset string;
  hash_not_empty r k : ks_hash (redis_ks r) !! k ≠ Some ∅;
  exec_law cs r r' err :
    redis_exec cs r = (r', err) →
    carried_out err (apply_commands cs) (redis_ks r) (redis_ks r');
  hgetall_law key r r' res :
    redis_hgetall key r = (r', res) →
    drifts (redis_ks r) (redis_ks r') ∧
    match res with Ok h => h = hash_at (redis_ks r') key | Err _ => True end;
  scan_all r k : k ∈ dom (ks_hash (redis_ks r)) → k ∈ scan_rest r 0;
  scan_law cursor p r r' res :
    plain p = true → redis_scan cursor (String.append p "*") r = (r', res) →
    drifts (redis_ks r) (redis_ks r') ∧
    match res with
    | Ok (batch, next) =>
        (∀ k, k ∈ batch → k ∈ dom (ks_hash (redis_ks r')) ∧ String.prefix p k = true) ∧
        (∀ k, k ∈ scan_rest r cursor → k ∈ dom (ks_hash (redis_ks r')) →
           String.prefix p k = true → k ∈ batch ∨ (next ≠ 0 ∧ k ∈ scan_rest r' next)) ∧
        (next ≠ 0 → (scan_left r' next < scan_left r cursor)%nat)
    | Err _ => True
    end;
  ping_law r r' err : redis_ping r = (r', err) → drifts (redis_ks r) (redis_ks r');
  publish_law chan s r r' err :
    redis_publish chan s r = (r', err) → drifts (redis_ks r) (redis_ks r');
}.

(** ** Lemmas *)

#[export] Instance drifts_refl : Reflexive drifts.
Proof. intros ks. split; [by left|]. split; auto. Qed.

(** Without times to live nothing disappears. *)
Lemma drifts_persistent ks ks' :
  ks_volatile ks = ∅ → drifts ks ks' → ks_hash ks' = ks_hash ks ∧ ks_volatile ks' = ∅.
Proof.
  intros Hv (Hh & Hs & _). rewrite Hv in *. split.
  - apply map_eq. intros k. destruct (Hh k) as [?|[Hk _]]; [done|set_solver].
  - apply set_eq. intros k. split; [apply Hs|set_solver].
Qed.

Lemma apply_commands_persistent cs ks :
  ks_volatile ks = ∅ → Forall (λ c, ∀ k t, c ≠ EXPIRE k t) cs →
  ks_volatile (apply_commands cs ks) = ∅.
Proof.
  intros Hv Hc. revert ks Hv. induction Hc as [|c cs Hc _ IH]; intros ks Hv; [done|].
  apply IH. destruct c; simpl; rewrite ?Hv; [done| |set_solver|by destruct (Hc key ttl)].
  repeat case_match; simpl; rewrite ?Hv; set_solver.
Qed.
