(* ===== verification/History.v ===== *)
(** * Message history ([src/src/history.go])

    A bounded, aged buffer of recently published messages per key.  Every
    method reads the clock once, before it takes the lock: the reading is the
    argument [now].  [g.history] is nil when the history is disabled, hence the
    option. *)
From stdpp Require Import base numbers list gmap strings sorting.
From S2P Require Import Prelude GoStd GoTime Json Message.

#[local] Open Scope Z_scope.

(** ** The state and its operations *)

Record histItem := HistItem { hi_m : Message; hi_at : Z }.

Record historyStore := HistoryStore {
  h_size : Z;
  h_ttl : Z;
  h_byKey : gmap string (list histItem);
}.

Definition newHistoryStore (size ttl : Z) : historyStore := HistoryStore size ttl ∅.

Definition h_items (h : historyStore) (key : string) : list histItem :=
  default [] (h_byKey h !! key).

Definition set_byKey (h : historyStore) (b : gmap string (list histItem)) : historyStore :=
  HistoryStore (h_size h) (h_ttl h) b.

(** The loop of [prune]: entries are dropped from the front while older than
    [cutoff]. *)
Fixpoint prune_loop (cutoff : Z) (items : list histItem) : list histItem :=
  match items with
  | it :: items' => if hi_at it <? cutoff then prune_loop cutoff items' else items
  | [] => []
  end.

Definition prune (h : historyStore) (items : list histItem) (now : Z) : list histItem :=
  if h_ttl h <=? 0 then items else prune_loop (now - h_ttl h) items.

(** [h == nil || h.size <= 0] *)
Definition disabled (h : option historyStore) : bool :=
  match h with None => true | Some h => h_size h <=? 0 end.

Definition history_add (key : string) (m : Message) (now : Z) (oh : option historyStore)
  : option historyStore :=
  match oh with
  | None => None
  | Some h =>
    if h_size h <=? 0 then oh else
    let items := prune h (h_items h key) now ++ [HistItem m now] in
    let items := if h_size h <? Z.of_nat (length items)
                 then drop (Z.to_nat (Z.of_nat (length items) - h_size h)) items
                 else items in
    Some (set_byKey h (<[key := items]> (h_byKey h)))
  end.

Definition history_get (key : string) (now : Z) (oh : option historyStore)
  : option historyStore * list Message :=
  match oh with
  | None => (None, [])
  | Some h =>
    if h_size h <=? 0 then (oh, []) else
    let items := prune h (h_items h key) now in
    if decide (items = []) then (Some (set_byKey h (delete key (h_byKey h))), [])
    else (Some (set_byKey h (<[key := items]> (h_byKey h))), hi_m <$> items)
  end.

(** The loop of [purge] treats every key on its own, in any order. *)
Definition purge_items (h : historyStore) (now : Z) (items : list histItem)
  : option (list histItem) :=
  let kept := prune h items now in
  if decide (kept = []) then None else Some kept.

Definition history_purge (now : Z) (oh : option historyStore) : option historyStore :=
  match oh with
  | None => None
  | Some h =>
    if (h_size h <=? 0) || (h_ttl h <=? 0) then oh else
    Some (set_byKey h (omap (purge_items h now) (h_byKey h)))
  end.

(** ** Specification: the log of everything added *)

(** A call to the store, with its clock reading. *)
Inductive hist_op := HAdd (key : string) (m : Message) | HGet (key : string) | HPurge.

Definition hist_step (oh : option historyStore) (o : Z * hist_op) : option historyStore :=
  match o.2 with
  | HAdd key m => history_add key m o.1 oh
  | HGet key => (history_get key o.1 oh).1
  | HPurge => history_purge o.1 oh
  end.

Definition hist_run (oh : option historyStore) (l : list (Z * hist_op)) : option historyStore :=
  fold_left hist_step l oh.

(** The items added under [key], oldest first. *)
Definition log_step (key : string) (o : Z * hist_op) : list histItem :=
  match o.2 with
  | HAdd k m => if decide (k = key) then [HistItem m o.1] else []
  | _ => []
  end.

Definition hist_log (key : string) (l : list (Z * hist_op)) : list histItem :=
  l ≫= log_step key.

Definition lastn {A} (n : nat) (l : list A) : list A := drop (length l - n) l.

(** Not older than the time to live, or no time to live is set. *)
Definition fresh (ttl now : Z) (it : histItem) : Prop := ttl ≤ 0 ∨ now - ttl ≤ hi_at it.

#[export] Instance fresh_dec ttl now it : Decision (fresh ttl now it).
Proof. unfold fresh. apply _. Defined.

(** What the history endpoint promises for [key] at [now]. *)
Definition hist_spec (size ttl now : Z) (log : list histItem) : list Message :=
  hi_m <$> filter (fresh ttl now) (lastn (Z.to_nat size) log).

(** ** Lemmas *)

Lemma lastn_all {A} n (l : list A) : (length l ≤ n)%nat → lastn n l = l.
Proof. intros Hl. unfold lastn. by replace (length l - n)%nat with 0%nat by lia. Qed.

Lemma lastn_snoc {A} n (l : list A) x :
  lastn (S n) (l ++ [x]) = lastn n l ++ [x].
Proof.
  unfold lastn. rewrite length_app. simpl.
  replace (length l + 1 - S n)%nat with (length l - n)%nat by lia.
  by rewrite drop_app_le by lia.
Qed.

Lemma lastn_shorter {A} n m (l : list A) :
  (n ≤ m)%nat → ∃ d, lastn m l = d ++ lastn n l.
Proof.
  intros Hnm. unfold lastn.
  exists (take (length l - n - (length l - m)) (drop (length l - m) l)).
  replace (length l - n)%nat with ((length l - m) + (length l - n - (length l - m)))%nat at 2 by lia.
  by rewrite <-drop_drop, take_drop.
Qed.

Lemma length_lastn {A} n (l : list A) : length (lastn n l) = Nat.min n (length l).
Proof. unfold lastn. rewrite length_drop. lia. Qed.

(** Dropping the stale prefix of a list in time order removes exactly the stale
    items. *)
Definition by_time (x y : histItem) : Prop := hi_at x ≤ hi_at y.

#[export] Instance by_time_trans : Transitive by_time.
Proof. intros x y z. unfold by_time. lia. Qed.

Lemma prune_filter h items now :
  StronglySorted by_time items → prune h items now = filter (fresh (h_ttl h) now) items.
Proof.
  intros Hs. unfold prune. destruct (Z.leb_spec (h_ttl h) 0).
  { symmetry. apply filter_id. by left. }
  induction items as [|it items IH]; [done|]. inversion_clear Hs as [|? ? Hs' Hit].
  simpl. destruct (Z.ltb_spec (hi_at it) (now - h_ttl h)).
  - rewrite filter_cons_False by (unfold fresh; lia). by apply IH.
  - symmetry. apply filter_id. intros x [->|Hx]%elem_of_cons; [right; lia|].
    rewrite Forall_forall in Hit. specialize (Hit x Hx). unfold by_time in Hit. right. lia.
Qed.

Lemma prune_suffix h items now :
  ∃ d, items = d ++ prune h items now ∧ Forall (λ it, ¬ fresh (h_ttl h) now it) d.
Proof.
  unfold prune. destruct (Z.leb_spec (h_ttl h) 0) as [|Hpos]; [by exists []|].
  induction items as [|it items (d & Hd & Hf)]; simpl; [by exists []|].
  destruct (Z.ltb_spec (hi_at it) (now - h_ttl h)); [|by exists []].
  exists (it :: d). split; [simpl; by f_equal|]. constructor; [unfold fresh; lia|done].
Qed.

Lemma length_prune h items now : (length (prune h items now) ≤ length items)%nat.
Proof.
  destruct (prune_suffix h items now) as (d & Hd & _).
  apply (f_equal length) in Hd. rewrite length_app in Hd. lia.
Qed.

(** *** The simulation between the store and the log *)

(** At time [T] the store holds, for every key, the last [size] entries of the
    log less a prefix that is stale. *)
Record hist_sim (size ttl T : Z) (log : string → list histItem) (h : historyStore) : Prop := {
  sim_size : h_size h = size;
  sim_ttl : h_ttl h = ttl;
  sim_sorted key : StronglySorted by_time (log key);
  sim_past key : Forall (λ it, hi_at it ≤ T) (log key);
  sim_items key : ∃ d, lastn (Z.to_nat size) (log key) = d ++ h_items h key ∧
                       Forall (λ it, ¬ fresh ttl T it) d;
}.

Lemma stale_mono ttl T T' (d : list histItem) :
  T ≤ T' → Forall (λ it, ¬ fresh ttl T it) d → Forall (λ it, ¬ fresh ttl T' it) d.
Proof. intros HT Hd. eapply Forall_impl; [exact Hd|]. unfold fresh. intros it. lia. Qed.

Lemma StronglySorted_app_inv {A} (R : A → A → Prop) l1 l2 :
  StronglySorted R (l1 ++ l2) → StronglySorted R l2.
Proof. induction l1 as [|x l1 IH]; [done|]. inversion 1; auto. Qed.

Lemma StronglySorted_lastn n l : StronglySorted by_time l → StronglySorted by_time (lastn n l).
Proof.
  intros Hl. unfold lastn. rewrite <-(take_drop (length l - n) l) in Hl.
  by eapply StronglySorted_app_inv.
Qed.

Lemma StronglySorted_snoc l it :
  StronglySorted by_time l → Forall (λ x, hi_at x ≤ hi_at it) l →
  StronglySorted by_time (l ++ [it]).
Proof.
  intros Hs Hl. induction Hs as [|x l Hs IH Hx]; simpl; [repeat constructor|].
  apply Forall_cons in Hl as [Hxi Hl]. constructor; [by apply IH|].
  apply Forall_app. split; [done|]. by apply Forall_singleton.
Qed.

Section sim.
Context {size ttl T : Z} {log : string → list histItem} {h : historyStore}.
Context (Hsim : hist_sim size ttl T log h).

(** Pruning at a later instant gives exactly the specified items. *)
Lemma sim_prune key now :
  T ≤ now →
  prune h (h_items h key) now = filter (fresh ttl now) (lastn (Z.to_nat size) (log key)).
Proof.
  intros HT. destruct (sim_items _ _ _ _ _ Hsim key) as (d & Hd & Hstale).
  apply (stale_mono _ _ now) in Hstale; [|done].
  rewrite Hd, filter_app, (filter_none _ d), <-(sim_ttl _ _ _ _ _ Hsim).
  - apply prune_filter. eapply StronglySorted_app_inv. rewrite <-Hd.
    apply StronglySorted_lastn, (sim_sorted _ _ _ _ _ Hsim).
  - by rewrite Forall_forall in Hstale.
Qed.

(** The items after pruning, and the stale prefix. *)
Lemma sim_pruned key now :
  T ≤ now →
  ∃ d, lastn (Z.to_nat size) (log key) = d ++ prune h (h_items h key) now ∧
       Forall (λ it, ¬ fresh ttl now it) d.
Proof.
  intros HT. destruct (sim_items _ _ _ _ _ Hsim key) as (d & Hd & Hstale).
  destruct (prune_suffix h (h_items h key) now) as (d' & Hd' & Hf).
  exists (d ++ d'). split; [by rewrite Hd, <-(assoc_L (++)), <-Hd'|].
  rewrite (sim_ttl _ _ _ _ _ Hsim) in Hf.
  apply Forall_app. split; [by eapply stale_mono|done].
Qed.
End sim.

(** Appending to the log and truncating to [size] entries keeps the relation
    between the two lists. *)
Lemma lastn_push (n : nat) (log d p : list histItem) (x : histItem) ttl now :
  (1 ≤ n)%nat →
  lastn n log = d ++ p → Forall (λ it, ¬ fresh ttl now it) d →
  ∃ d', lastn n (log ++ [x]) = d' ++
          (if (n <? length (p ++ [x]))%nat
           then drop (length (p ++ [x]) - n) (p ++ [x]) else p ++ [x]) ∧
        Forall (λ it, ¬ fresh ttl now it) d'.
Proof.
  intros Hn Hd Hf. destruct n as [|n]; [lia|]. rewrite lastn_snoc, length_app. simpl.
  destruct (lastn_shorter n (S n) log) as [e He]; [lia|].
  pose proof (length_lastn (S n) log) as Hlen. rewrite Hd, length_app in Hlen.
  pose proof (length_lastn n log) as Hlen'.
  pose proof (f_equal length He) as Hlen2. rewrite Hd, !length_app in Hlen2.
  rewrite Hd in He. destruct (Nat.ltb_spec (S n) (length p + 1)).
  - destruct d; cbn [length app] in *; [|lia]. exists []. split; [|constructor]. cbn [app].
    replace (length p + 1 - S n)%nat with (length e) by lia.
    rewrite drop_app_le by lia. by rewrite He, drop_app_length.
  - apply app_eq_inv in He as [(k & -> & Hk)|(k & -> & Hk)].
    + exists k. rewrite Hk, <-(assoc_L (++)). split; [done|].
      by apply Forall_app in Hf as [_ ?].
    + destruct k; [exists []; split; [by rewrite Hk|constructor]|].
      apply (f_equal length) in Hk. rewrite !length_app in *. cbn [length] in *. lia.
Qed.

Lemma hist_sim_add size ttl T now log h h' key m :
  0 < size → T ≤ now → hist_sim size ttl T log h →
  history_add key m now (Some h) = Some h' →
  hist_sim size ttl now (λ k, log k ++ log_step k (now, HAdd key m)) h'.
Proof.
  intros Hsize HT Hsim. simpl. pose proof (sim_size _ _ _ _ _ Hsim) as Hsz.
  destruct (Z.leb_spec (h_size h) 0); [lia|]. intros [= <-].
  assert (∀ k, Forall (λ it, hi_at it ≤ now) (log k)) as Hpast.
  { intros k. eapply Forall_impl; [apply (sim_past _ _ _ _ _ Hsim)|]. simpl. lia. }
  split; simpl; [done|apply (sim_ttl _ _ _ _ _ Hsim)|..]; intros k; unfold log_step; simpl.
  - case_decide; [|rewrite app_nil_r; apply (sim_sorted _ _ _ _ _ Hsim)].
    apply StronglySorted_snoc; [apply (sim_sorted _ _ _ _ _ Hsim)|apply Hpast].
  - case_decide; [|by rewrite app_nil_r].
    apply Forall_app. split; [done|]. apply Forall_singleton. simpl. lia.
  - unfold h_items at 1. simpl. rewrite lookup_insert.
    destruct (decide (key = k)) as [<-|]; simpl.
    + destruct (sim_pruned Hsim key now HT) as (d & Hd & Hf).
      destruct (lastn_push (Z.to_nat size) _ _ _ (HistItem m now) ttl now ltac:(lia) Hd Hf)
        as (d' & Hd' & Hf').
      exists d'. split; [|done]. rewrite Hd', Hsz. f_equal.
      destruct (Nat.ltb_spec (Z.to_nat size) (length (prune h (h_items h key) now ++ [HistItem m now])));
        destruct (Z.ltb_spec size (Z.of_nat (length (prune h (h_items h key) now ++ [HistItem m now]))));
        try lia; [|done].
      f_equal. lia.
    + rewrite app_nil_r. destruct (sim_items _ _ _ _ _ Hsim k) as (d & Hd & Hf).
      exists d. split; [done|]. by eapply stale_mono.
Qed.

Lemma hist_sim_get size ttl T now log h key :
  0 < size → T ≤ now → hist_sim size ttl T log h →
  ∃ h', history_get key now (Some h) = (Some h', hist_spec size ttl now (log key)) ∧
        hist_sim size ttl now log h'.
Proof.
  intros Hsize HT Hsim. pose proof (sim_size _ _ _ _ _ Hsim) as Hsz.
  assert (∀ h', h_size h' = h_size h → h_ttl h' = h_ttl h →
    (∀ k, h_items h' k = if decide (k = key) then prune h (h_items h key) now else h_items h k) →
    hist_sim size ttl now log h') as Hnew.
  { intros h' Hs Ht Hi. split; [congruence|by rewrite Ht; apply (sim_ttl _ _ _ _ _ Hsim)|..];
      intros k; [apply (sim_sorted _ _ _ _ _ Hsim)|..].
    - eapply Forall_impl; [apply (sim_past _ _ _ _ _ Hsim)|]. simpl. lia.
    - rewrite Hi. case_decide as Hk; [subst k; by apply (sim_pruned Hsim)|].
      destruct (sim_items _ _ _ _ _ Hsim k) as (d & Hd & Hf).
      exists d. split; [done|]. by eapply stale_mono. }
  simpl. destruct (Z.leb_spec (h_size h) 0); [lia|].
  pose proof (sim_prune Hsim key now HT) as Hp. unfold hist_spec. rewrite <-Hp.
  case_decide as Hnil.
  - eexists. rewrite Hnil. split; [done|]. apply Hnew; [done..|]. intros k. rewrite Hnil.
    unfold h_items at 1. simpl. rewrite lookup_delete. repeat case_decide; naive_solver.
  - eexists. split; [done|]. apply Hnew; [done..|]. intros k.
    unfold h_items at 1. simpl. rewrite lookup_insert. repeat case_decide; naive_solver.
Qed.

Lemma hist_sim_purge size ttl T now log h :
  0 < size → T ≤ now → hist_sim size ttl T log h →
  ∃ h', history_purge now (Some h) = Some h' ∧ hist_sim size ttl now log h'.
Proof.
  intros Hsize HT Hsim. pose proof (sim_size _ _ _ _ _ Hsim) as Hsz. simpl.
  destruct (Z.leb_spec (h_size h) 0); [lia|]. simpl.
  assert (∀ k, Forall (λ it, hi_at it ≤ now) (log k)) as Hpast.
  { intros k. eapply Forall_impl; [apply (sim_past _ _ _ _ _ Hsim)|]. simpl. lia. }
  destruct (Z.leb_spec (h_ttl h) 0); eexists; (split; [done|]).
  - split; [done|apply (sim_ttl _ _ _ _ _ Hsim)|apply (sim_sorted _ _ _ _ _ Hsim)|done|].
    intros k. destruct (sim_items _ _ _ _ _ Hsim k) as (d & Hd & Hf).
    exists d. split; [done|]. by eapply stale_mono.
  - split; [done|apply (sim_ttl _ _ _ _ _ Hsim)|apply (sim_sorted _ _ _ _ _ Hsim)|done|].
    intros k. destruct (sim_pruned Hsim k now HT) as (d & Hd & Hf). exists d. split; [|done].
    rewrite Hd. f_equal. unfold h_items, set_byKey. simpl. rewrite lookup_omap.
    destruct (h_byKey h !! k) as [items|]; simpl.
    + unfold purge_items. by case_decide as Hk; simpl.
    + unfold prune. simpl. by case_match.
Qed.

(** The log a run adds to, and the last clock reading. *)
Lemma hist_sim_run size ttl l : ∀ T log h,
  0 < size → hist_sim size ttl T log h → StronglySorted Z.le (T :: (fst <$> l)) →
  ∃ h', hist_run (Some h) l = Some h' ∧
        hist_sim size ttl (default T (last (fst <$> l))) (λ k, log k ++ hist_log k l) h'.
Proof.
  induction l as [|[now o] l IH]; intros T log h Hsize Hsim Hs.
  { exists h. split; [done|]. simpl. destruct Hsim as [? ? Hso Hpa Hit].
    split; [done|done|..]; intros k; rewrite app_nil_r; auto. }
  inversion_clear Hs as [|? ? Hs' HT]. apply Forall_cons in HT as [HT _]. simpl in HT, Hs'.
  assert (∃ h1, hist_step (Some h) (now, o) = Some h1 ∧
    hist_sim size ttl now (λ k, log k ++ log_step k (now, o)) h1) as (h1 & Hh1 & Hsim1).
  { destruct o as [key m|key|].
    - unfold hist_step. simpl. pose proof (sim_size _ _ _ _ _ Hsim).
      pose proof (λ h', hist_sim_add size ttl T now log h h' key m Hsize HT Hsim) as Hadd.
      simpl in Hadd. destruct (Z.leb_spec (h_size h) 0); [lia|]. eauto.
    - destruct (hist_sim_get size ttl T now log h key Hsize HT Hsim) as (h1 & Hg & Hs1).
      exists h1. unfold hist_step. cbn [fst snd]. rewrite Hg. split; [done|].
      destruct Hs1 as [? ? Hso Hpa Hit].
      split; [done|done|..]; intros k; unfold log_step; simpl; rewrite app_nil_r; auto.
    - destruct (hist_sim_purge size ttl T now log h Hsize HT Hsim) as (h1 & Hg & Hs1).
      exists h1. unfold hist_step. cbn [fst snd]. split; [done|].
      destruct Hs1 as [? ? Hso Hpa Hit].
      split; [done|done|..]; intros k; unfold log_step; simpl; rewrite app_nil_r; auto. }
  destruct (IH now _ h1 Hsize Hsim1 Hs') as (h' & Hrun & Hsim').
  exists h'. unfold hist_run in *. cbn [fold_left]. rewrite Hh1. split; [done|].
  rewrite fmap_cons. cbn [fst].
  assert (default T (last (now :: l.*1)) = default now (last l.*1)) as ->.
  { destruct (l.*1) eqn:?; [done|]. rewrite last_cons_cons.
    by destruct (last _) eqn:Hl; [|apply last_None in Hl]. }
  destruct Hsim' as [? ? Hso Hpa Hit].
  split; [done|done|..]; intros k; specialize (Hso k); specialize (Hpa k); specialize (Hit k);
    rewrite <-(assoc_L (++)) in *; auto.
Qed.

Lemma hist_sim_new size ttl T : hist_sim size ttl T (λ _, []) (newHistoryStore size ttl).
Proof.
  split; [done|done|constructor|constructor|]. intros k. exists []. split; [|constructor].
  unfold lastn. by rewrite drop_nil.
Qed.

(** *** The memory bound, whatever the clock does *)

Definition hist_bounded (h : historyStore) : Prop :=
  map_Forall (λ _ items, items ≠ [] ∧ Z.of_nat (length items) ≤ h_size h) (h_byKey h).

Lemma hist_bounded_items h key :
  hist_bounded h → 0 < h_size h → Z.of_nat (length (h_items h key)) ≤ h_size h.
Proof.
  intros Hb Hs. unfold h_items. destruct (h_byKey h !! key) eqn:Hk; simpl; [|lia].
  by apply (Hb _ _ Hk).
Qed.

Lemma hist_bounded_step h o oh :
  hist_bounded h → 0 < h_size h → hist_step (Some h) o = oh →
  ∃ h', oh = Some h' ∧ hist_bounded h' ∧ h_size h' = h_size h.
Proof.
  intros Hb Hs <-. destruct o as [now [key m|key|]]; unfold hist_step; simpl;
    (destruct (Z.leb_spec (h_size h) 0); [lia|]); simpl.
  - eexists. split_and!; [done| |done]. apply map_Forall_insert_2; [|done]. simpl.
    case_match eqn:Hlt; [|apply Z.ltb_ge in Hlt; split; [|done]].
    + apply Z.ltb_lt in Hlt. split.
      * intros Hnil%(f_equal length). rewrite length_drop in Hnil. simpl in Hnil. lia.
      * rewrite length_drop. lia.
    + by destruct (prune _ _ _).
  - pose proof (length_prune h (h_items h key) now).
    pose proof (hist_bounded_items h key Hb Hs).
    case_decide; eexists; (split_and!; [done| |done]).
    + by apply map_Forall_delete.
    + apply map_Forall_insert_2; [|done]. simpl. split; [done|]. lia.
  - case_match; eexists; (split_and!; [done| |done]); [done|].
    intros k items. simpl. rewrite lookup_omap_Some. unfold purge_items.
    intros (items0 & Hp & Hk). case_decide; simplify_eq. split; [done|].
    pose proof (length_prune h items0 now). pose proof (proj2 (Hb _ _ Hk)). lia.
Qed.

Lemma hist_bounded_run l : ∀ h,
  hist_bounded h → 0 < h_size h →
  ∃ h', hist_run (Some h) l = Some h' ∧ hist_bounded h' ∧ h_size h' = h_size h.
Proof.
  induction l as [|o l IH]; intros h Hb Hs; [by exists h|].
  destruct (hist_bounded_step h o _ Hb Hs eq_refl) as (h1 & Hh1 & Hb1 & Hs1).
  destruct (IH h1 Hb1 ltac:(lia)) as (h' & Hr & Hb' & Hs').
  exists h'. unfold hist_run in *. simpl. rewrite Hh1. split_and!; [done|done|congruence].
Qed.

(** *** The two contracts *)

(** C33: Whatever calls were made before, at clock readings that do not decrease, a
    read returns the last [size] messages added under the key that are not
    older than the time to live, oldest first. *)
Theorem history_refines_log size ttl l now key :
  0 < size → StronglySorted Z.le ((fst <$> l) ++ [now]) →
  (history_get key now (hist_run (Some (newHistoryStore size ttl)) l)).2 =
  hist_spec size ttl now (hist_log key l).
Proof.
  intros Hsize Hs. apply StronglySorted_app in Hs as (Hle & Hs & _).
  set (T := default now (head (fst <$> l))).
  assert (StronglySorted Z.le (T :: (fst <$> l)) ∧ default T (last (fst <$> l)) ≤ now)
    as [Hs1 Hlast].
  { subst T. destruct (fst <$> l) as [|t ts]; [by split; [repeat constructor|]|].
    simpl head. cbn [default]. split.
    - apply StronglySorted_cons. split; [|done]. apply StronglySorted_cons in Hs as [Hs _].
      by constructor.
    - destruct (last (t :: ts)) as [t'|] eqn:Ht; cbn [default from_option].
      + apply Hle; [by apply last_Some_elem_of|by left].
      + apply Hle; by left. }
  destruct (hist_sim_run size ttl l T (λ _, []) _ Hsize (hist_sim_new size ttl T) Hs1)
    as (h & -> & Hsim).
  by destruct (hist_sim_get size ttl _ now _ h key Hsize Hlast Hsim) as (h' & -> & _).
Qed.

Lemma history_refines_log_witness :
  (history_get "k" 30 (hist_run (Some (newHistoryStore 2 100))
     [(5, HAdd "k" Sample.message); (10, HAdd "k" Sample.message); (20, HGet "k")])).2 =
  hist_spec 2 100 30 (hist_log "k"
     [(5, HAdd "k" Sample.message); (10, HAdd "k" Sample.message); (20, HGet "k")]).
Proof. apply history_refines_log; [lia|]. cbn. repeat constructor; lia. Defined.

(** Whatever the calls and the clock, no key holds more than [size] messages
    and no key is kept without messages. *)
Theorem history_bounded size ttl l :
  0 < size →
  ∃ h, hist_run (Some (newHistoryStore size ttl)) l = Some h ∧
    map_Forall (λ _ items, items ≠ [] ∧ Z.of_nat (length items) ≤ size) (h_byKey h).
Proof.
  intros Hsize. destruct (hist_bounded_run l (newHistoryStore size ttl)) as (h & Hr & Hb & Hh).
  - apply map_Forall_empty.
  - done.
  - exists h. split; [done|]. unfold hist_bounded in Hb. by rewrite Hh in Hb.
Qed.

Lemma history_bounded_witness :
  ∃ h, hist_run (Some (newHistoryStore 1 0)) [(5, HAdd "k" Sample.message); (4, HAdd "k" Sample.message)]
       = Some h ∧
    map_Forall (λ _ items, items ≠ [] ∧ Z.of_nat (length items) ≤ 1) (h_byKey h).
Proof. apply history_bounded. lia. Defined.
