(* ===== verification/Config.v ===== *)
(** * Runtime configuration ([src/src/config.go])

    The [Config] struct, read once at startup, and the pure functions on it. *)
From stdpp Require Import base numbers list strings.
From S2P Require Import Prelude GoStd GoTime Const.

#[local] Open Scope Z_scope.

Record Config := MkConfig {
  Host : string;
  Port : string;
  Workers : Z;
  DefaultExpire : string;
  Verbose : bool;
  LogJSON : bool;
  Login : string;
  Password : string;
  InsecureNoAuth : bool;
  StorageEngine : string;
  AuthorizerEngine : string;
  AuthURL : string;
  AuthTimeout : Z;
  AuthCacheTTL : Z;
  RedisURL : string;
  RedisKeyTTL : Z;
  SweepInterval : Z;
  PingInterval : Z;
  ReadTimeout : Z;
  WriteTimeout : Z;
  HistorySize : Z;
  HistoryTTL : Z;
  ReconcileInterval : Z;
  MaxMessageBytes : Z;
  RateLimit : float64;
  RateBurst : Z;
  TrustProxyHeaders : bool;
  TLSCert : string;
  TLSKey : string;
  Compression : bool;
  AllowedOrigins : list string;
}.

(** The loop of [originAllowed] over the whitelist. *)
Fixpoint origin_listed (origins : list string) (origin : string) : bool :=
  match origins with
  | [] => false
  | a :: origins =>
    if bool_decide (a = "*") || bool_decide (a = origin) then true
    else origin_listed origins origin
  end.

Definition originAllowed (c : Config) (origin : string) : bool :=
  if bool_decide (origin = EMPTY_STR) || bool_decide (AllowedOrigins c = []) then true
  else origin_listed (AllowedOrigins c) origin.

Definition tlsEnabled (c : Config) : bool :=
  negb (bool_decide (TLSCert c = EMPTY_STR)) && negb (bool_decide (TLSKey c = EMPTY_STR)).

Definition parseDurationOr (s : string) (def : Z) : Z :=
  match ParseDuration s with
  | None => def
  | Some d => if d <=? 0 then def else d
  end.

(** [strconv.ParseBool]: the spellings it accepts. *)
Definition ParseBool (s : string) : option bool :=
  if decide (s ∈ ["1"; "t"; "T"; "TRUE"; "true"; "True"]) then Some true
  else if decide (s ∈ ["0"; "f"; "F"; "FALSE"; "false"; "False"]) then Some false
  else None.

(** An unparsable boolean counts as false. *)
Definition parseBool (s : string) : bool := default false (ParseBool s).

(** ** Lemmas *)

Lemma origin_listed_spec origins origin :
  origin_listed origins origin = true ↔ "*" ∈ origins ∨ origin ∈ origins.
Proof.
  induction origins as [|a l IH]; simpl; [set_solver|].
  case_match eqn:Ha.
  - apply orb_true_iff in Ha as [->%bool_decide_eq_true | ->%bool_decide_eq_true]; set_solver.
  - apply orb_false_iff in Ha as [?%bool_decide_eq_false ?%bool_decide_eq_false]. set_solver.
Qed.

(** A browser origin is admitted exactly when it is absent (a client that is not
    a browser), when no whitelist is configured, or when the whitelist lists it
    or a star. *)
Theorem originAllowed_spec c origin :
  originAllowed c origin = true ↔
  origin = EMPTY_STR ∨ AllowedOrigins c = [] ∨ "*" ∈ AllowedOrigins c ∨
  origin ∈ AllowedOrigins c.
Proof.
  unfold originAllowed. rewrite <-origin_listed_spec.
  destruct (decide (origin = EMPTY_STR)) as [Ho|Ho];
    [rewrite (bool_decide_eq_true_2 _ Ho)|rewrite (bool_decide_eq_false_2 _ Ho)];
    cbn [orb]; [by split; auto|].
  destruct (decide (AllowedOrigins c = [])) as [Ha|Ha];
    [rewrite (bool_decide_eq_true_2 _ Ha)|rewrite (bool_decide_eq_false_2 _ Ha)];
    [by split; auto|]. split; [auto|]. by intros [?|[?|?]].
Qed.

(** A duration setting is the one given when it parses to a positive duration,
    and the default otherwise: never zero or negative unless the default is. *)
Theorem parseDurationOr_spec s def :
  (∃ d, ParseDuration s = Some d ∧ 0 < d ∧ parseDurationOr s def = d) ∨
  ((∀ d, ParseDuration s = Some d → d ≤ 0) ∧ parseDurationOr s def = def).
Proof.
  unfold parseDurationOr. destruct (ParseDuration s) as [d|].
  - destruct (d <=? 0) eqn:Hd.
    + right. split; [|done]. intros d' [= <-]. lia.
    + left. exists d. split_and!; [done|lia|done].
  - right. split; [|done]. by intros d [=].
Qed.
