(* ===== verification/Durations.v ===== *)
(** * Durations as they are written

    The durations of the settings and of messages are texts such as [1h30m]: a
    sequence of whole numbers, each with a unit.  [ParseDuration] reads one as the
    sum it denotes, or refuses it when the sum passes int64. *)
From stdpp Require Import base numbers list strings pretty.
From S2P Require Import Prelude GoStd GoTime GoStrings Topics Json Const Message Config.

#[local] Open Scope Z_scope.

(** ** The grammar *)

Record part := Part { count : N; unit_name : string }.

Definition unit_value (p : part) : Z := default 0 (unitMap (unit_name p)).
Definition part_value (p : part) : Z := Z.of_N (count p) * unit_value p.
Definition part_text (p : part) : string := String.append (pretty (count p)) (unit_name p).

Definition write (l : list part) : string :=
  foldr (λ p s, String.append (pretty (count p)) (String.append (unit_name p) s)) EmptyString l.
Definition value (l : list part) : Z := foldr (λ p z, part_value p + z) 0 l.

(** A unit that exists, and a number of it that fits. *)
Definition part_ok (p : part) : Prop :=
  is_Some (unitMap (unit_name p)) ∧ part_value p ≤ max_int64.

(** ** Digits *)

(** Text that ends a number: its end, a unit or a point. *)
Definition stops_number (s : string) : Prop :=
  match s with EmptyString => True | String c _ => digit_of c = None end.

(** Text that ends a unit. *)
Definition stops_unit (s : string) : Prop :=
  match s with EmptyString => True | String c _ => is_Some (digit_of c) end.

Lemma pretty_N_go_append x s1 s2 :
  pretty_N_go x (String.append s1 s2) = String.append (pretty_N_go x s1) s2.
Proof.
  revert s1. induction (N.lt_wf_0 x) as [x _ IH]; intros s1.
  destruct (decide (0 < x)%N) as [Hpos|Hz]; [|by replace x with 0%N by lia].
  pose proof (N.div_lt x 10 Hpos eq_refl) as Hlt.
  rewrite (pretty_N_go_step x (String.append s1 s2)), (pretty_N_go_step x s1) by done.
  apply (IH _ Hlt (String (pretty_N_char (x `mod` 10)) s1)).
Qed.

Lemma leadingInt_digit x c s v :
  digit_of c = Some v →
  leadingInt x (String c s) =
  if two63 / 10 <? x then None else
  if two63 <? x * 10 + v then None else leadingInt (x * 10 + v) s.
Proof. intros Hc. simpl. by rewrite Hc. Qed.

Lemma leadingInt_stop x s : stops_number s → leadingInt x s = Some (x, s).
Proof. destruct s as [|c s]; [done|]. simpl. by intros ->. Qed.

Lemma leadingInt_go x s :
  leadingInt 0 (pretty_N_go x s) =
  if two63 <? Z.of_N x then None else leadingInt (Z.of_N x) s.
Proof.
  revert s. induction (N.lt_wf_0 x) as [x _ IH]; intros s.
  destruct (decide (0 < x)%N) as [Hpos|Hz]; [|by replace x with 0%N by lia].
  pose proof (N.div_lt x 10 Hpos eq_refl) as Hlt.
  rewrite pretty_N_go_step, IH by done.
  rewrite (leadingInt_digit _ _ _ (Z.of_N (x `mod` 10))) by (by apply digit_of_pretty, N.mod_lt).
  assert (Z.of_N (x `div` 10) * 10 + Z.of_N (x `mod` 10) = Z.of_N x) as Hx.
  { pose proof (N.div_mod x 10 ltac:(lia)). lia. }
  pose proof (N.mod_lt x 10 ltac:(lia)) as Hm. rewrite Hx. clear IH Hlt.
  generalize dependent (x `div` 10)%N. generalize dependent (x `mod` 10)%N. intros r Hm q Hx.
  change (two63 / 10) with 922337203685477580. unfold two63.
  repeat match goal with |- context [?a <? ?b] => destruct (Z.ltb_spec a b) end; done || lia.
Qed.

Lemma leadingInt_pretty (n : N) s :
  leadingInt 0 (String.append (pretty n) s) =
  if two63 <? Z.of_N n then None else leadingInt (Z.of_N n) s.
Proof.
  unfold pretty, pretty_N. destruct (decide (n = 0%N)) as [->|Hn]; [done|].
  rewrite <-pretty_N_go_append. apply leadingInt_go.
Qed.

(** A number starts with a digit. *)
Lemma pretty_first (n : N) : ∃ c s, pretty n = String c s ∧ is_Some (digit_of c).
Proof.
  unfold pretty, pretty_N. destruct (decide (n = 0%N)) as [->|Hn]; [by eexists _, _|].
  assert (∀ x s, (x ≠ 0)%N → ∃ c t, pretty_N_go x s = String c t ∧ is_Some (digit_of c)) as Hgo.
  { intros x. induction (N.lt_wf_0 x) as [x _ IH]; intros s Hx.
    pose proof (N.div_lt x 10 ltac:(lia) eq_refl) as Hlt. rewrite pretty_N_go_step by lia.
    destruct (decide (x `div` 10 = 0)%N) as [->|Hd]; [|by apply IH].
    eexists _, _. split; [done|]. rewrite digit_of_pretty by (by apply N.mod_lt). done. }
  by apply Hgo.
Qed.

(** ** Units *)

(** Text a unit is made of. *)
Fixpoint unit_bytes (u : string) : bool :=
  match u with
  | EmptyString => true
  | String c u => negb (bool_decide (c = "."%char) || bool_decide (is_Some (digit_of c))) && unit_bytes u
  end.

Lemma unitMap_bytes u n : unitMap u = Some n → unit_bytes u = true ∧ u ≠ EmptyString ∧ 0 < n.
Proof.
  unfold unitMap. repeat case_decide; intros [= <-]; subst;
    repeat match goal with H : _ ∨ _ |- _ => destruct H end; subst; done.
Qed.

Lemma leadingUnit_append u s :
  unit_bytes u = true → stops_unit s → leadingUnit (String.append u s) = (u, s).
Proof.
  induction u as [|c u IH]; intros Hu Hs.
  - destruct s as [|c s]; [done|]. simpl in *. by rewrite (bool_decide_true (is_Some _)), orb_true_r.
  - rewrite append_cons. cbn [unit_bytes] in Hu. apply andb_prop in Hu. destruct Hu as [Hc Hu].
    simpl. apply negb_true_iff in Hc. by rewrite Hc, IH.
Qed.

Lemma unit_stops u s : unit_bytes u = true → u ≠ EmptyString → stops_number (String.append u s).
Proof.
  destruct u as [|c u]; [done|]. cbn [unit_bytes]. intros Hu _. apply andb_prop in Hu as [Hc _].
  apply negb_true_iff, orb_false_iff in Hc as [_ Hc]. apply bool_decide_eq_false in Hc.
  simpl. by destruct (digit_of c); [destruct Hc|].
Qed.

(** ** One component *)

Lemma length_append a b :
  String.length (String.append a b) = (String.length a + String.length b)%nat.
Proof. induction a as [|c a IH]; [done|]. rewrite append_cons. simpl. by rewrite IH. Qed.

Lemma part_value_bounds p : part_ok p → 0 ≤ part_value p ≤ max_int64.
Proof.
  intros [[n Hu] Hv]. split; [|done]. unfold part_value, unit_value in *. rewrite Hu in *.
  apply unitMap_bytes in Hu. simpl in *. nia.
Qed.

Lemma parse_component_part p s :
  part_ok p → stops_unit s →
  parse_component (String.append (pretty (count p)) (String.append (unit_name p) s)) =
  Some (part_value p, s).
Proof.
  intros Hp Hs. pose proof (part_value_bounds p Hp) as Hv. destruct Hp as [[n Hu] _].
  destruct (unitMap_bytes _ _ Hu) as (Hb & Hne & Hn).
  unfold part_value, unit_value in *. rewrite Hu in *. change (default 0 (Some n)) with n in *.
  set (t := String.append (unit_name p) s). set (w := String.append (pretty (count p)) t).
  assert (stops_number t) as Ht by by apply unit_stops.
  assert (Z.of_N (count p) ≤ two63) as Hc by (unfold max_int64 in *; nia).
  assert (leadingInt 0 w = Some (Z.of_N (count p), t)) as Hl.
  { unfold w. rewrite leadingInt_pretty, leadingInt_stop by done. by destruct (Z.ltb_spec two63 (Z.of_N (count p))); [lia|]. }
  assert (t ≠ w) as Htw.
  { intros He. apply (f_equal String.length) in He. unfold w in He. rewrite length_append in He.
    destruct (pretty_first (count p)) as (c & s' & Hc' & _). rewrite Hc' in He. simpl in He. lia. }
  assert (leadingUnit t = (unit_name p, s)) as Hlu by by apply leadingUnit_append.
  assert (∃ c s', w = String c s' ∧ is_Some (digit_of c)) as (c & s' & Hw & Hd).
  { destruct (pretty_first (count p)) as (c & s' & Hc' & Hd). unfold w. rewrite Hc', append_cons. eauto. }
  assert (∃ c1 t', t = String c1 t' ∧ c1 ≠ "."%char) as (c1 & t' & Htc & Hdot).
  { unfold t. destruct (unit_name p) as [|c1 u]; [done|]. rewrite append_cons. eexists _, _. split; [done|].
    intros ->. done. }
  unfold parse_component. rewrite Hw at 1. rewrite (bool_decide_true _ Hd), orb_true_r. cbn [negb].
  rewrite Hl. cbn [mbind option_bind]. rewrite (bool_decide_false (t = w)) by done.
  rewrite Htc at 1. rewrite decide_False by done. cbn [negb andb].
  rewrite Hlu. rewrite decide_False by done. rewrite Hu. cbn [mbind option_bind].
  change (0 <? 0) with false. cbv iota.
  destruct (Z.ltb_spec (two63 `div` n) (Z.of_N (count p))) as [Hlt|_].
  - exfalso. pose proof (Z.mul_succ_div_gt two63 n Hn). unfold max_int64 in *. nia.
  - destruct (Z.ltb_spec two63 (Z.of_N (count p) * n)); [unfold max_int64 in *; lia|done].
Qed.

(** ** Sums *)

Lemma write_cons_first p l : ∃ c s, write (p :: l) = String c s ∧ is_Some (digit_of c).
Proof.
  destruct (pretty_first (count p)) as (c & s & Hc & Hd).
  unfold write. cbn [foldr]. rewrite Hc, append_cons. eauto.
Qed.

Lemma write_stops_unit l : stops_unit (write l).
Proof.
  destruct l as [|p l]; [done|]. by destruct (write_cons_first p l) as (c & s & -> & ?).
Qed.

Lemma value_nonneg l : Forall part_ok l → 0 ≤ value l.
Proof.
  induction 1 as [|p l Hp _ IH]; [done|]. pose proof (part_value_bounds p Hp).
  change (value (p :: l)) with (part_value p + value l). lia.
Qed.

Lemma parse_components_write l fuel d :
  Forall part_ok l → (String.length (write l) ≤ fuel)%nat → 0 ≤ d ≤ two63 →
  parse_components fuel (write l) d =
  if d + value l <=? two63 then Some (d + value l) else None.
Proof.
  intros Hl. revert fuel d. induction Hl as [|p l Hp Hl IH]; intros fuel d Hf Hd.
  - replace (d + value []) with d by (cbn; lia). destruct (Z.leb_spec d two63); [|lia].
    by destruct fuel.
  - pose proof (part_value_bounds p Hp) as Hv. pose proof (value_nonneg l Hl) as Hl0.
    pose proof (parse_component_part p (write l) Hp (write_stops_unit l)) as Hc.
    pose proof (parse_component_shrinks _ _ _ Hc) as Hs.
    change (String.append (pretty (count p)) _) with (write (p :: l)) in Hc, Hs.
    destruct (write_cons_first p l) as (c & s & Hw & _). rewrite Hw in *.
    destruct fuel as [|fuel]; [simpl in Hf; lia|]. cbn [parse_components]. rewrite Hc. cbn [mbind option_bind].
    change (value (p :: l)) with (part_value p + value l).
    rewrite Z.mod_small by (unfold max_int64, two64, two63 in *; lia).
    destruct (Z.ltb_spec two63 (d + part_value p)).
    + destruct (Z.leb_spec (d + (part_value p + value l)) two63); [lia|done].
    + rewrite IH by (simpl in *; lia). by rewrite Z.add_assoc.
Qed.

Lemma write_not_zero p l : part_ok p → write (p :: l) ≠ "0".
Proof.
  intros [[n Hu] _]. apply unitMap_bytes in Hu as (Hb & Hne & _). intros He.
  apply (f_equal String.length) in He. unfold write in He. cbn [foldr] in He.
  rewrite !length_append in He. destruct (pretty_first (count p)) as (c & s & Hc & _). rewrite Hc in He.
  destruct (unit_name p); [done|]. simpl in He. lia.
Qed.

Lemma parse_sign_digit c s : is_Some (digit_of c) → parse_sign (String c s) = (false, String c s).
Proof. intros Hd. simpl. rewrite !decide_False by (intros ->; by destruct Hd). done. Qed.

(** A written duration is read as the sum of its parts, and refused when the sum
    passes the largest int64. *)
Theorem ParseDuration_write l :
  l ≠ [] → Forall part_ok l →
  ParseDuration (write l) = if value l <=? max_int64 then Some (value l) else None.
Proof.
  intros Hne Hl. destruct l as [|p l]; [done|]. pose proof (Forall_inv Hl) as Hp.
  destruct (write_cons_first p l) as (c & s & Hw & Hd). unfold ParseDuration.
  rewrite Hw at 1. rewrite parse_sign_digit by done. rewrite <-Hw.
  rewrite (decide_False (P := write _ = "0")) by (by apply write_not_zero). rewrite (decide_False (P := write _ = EmptyString)) by (by rewrite Hw).
  rewrite (parse_components_write (p :: l)) by (done || unfold two63; lia). rewrite Z.add_0_l.
  unfold max_int64. destruct (Z.leb_spec (value (p :: l)) two63); cbn [mbind option_bind].
  - destruct (Z.ltb_spec (two63 - 1) (value (p :: l))), (Z.leb_spec (value (p :: l)) (two63 - 1)); done || lia.
  - destruct (Z.leb_spec (value (p :: l)) (two63 - 1)); [lia|done].
Qed.

(** With a minus sign it is read as the negated sum, down to the least int64. *)
Theorem ParseDuration_negative l :
  l ≠ [] → Forall part_ok l →
  ParseDuration (String "-" (write l)) = if value l <=? two63 then Some (- value l) else None.
Proof.
  intros Hne Hl. destruct l as [|p l]; [done|]. pose proof (Forall_inv Hl) as Hp.
  destruct (write_cons_first p l) as (c & s & Hw & _). unfold ParseDuration. cbn [parse_sign].
  rewrite decide_True by done. rewrite (decide_False (P := write _ = "0")) by (by apply write_not_zero).
  rewrite (decide_False (P := write _ = EmptyString)) by (by rewrite Hw).
  rewrite (parse_components_write (p :: l)) by (done || unfold two63; lia). rewrite Z.add_0_l.
  pose proof (value_nonneg _ Hl) as H0.
  destruct (Z.leb_spec (value (p :: l)) two63) as [Hle|]; cbn [mbind option_bind]; [|done].
  f_equal. destruct (decide (value (p :: l) = two63)) as [->|Hn]; [done|].
  rewrite (wrap64_id (value (p :: l))) by (unfold in_int64, min_int64, max_int64, two63 in *; lia).
  apply wrap64_id. unfold in_int64, min_int64, max_int64, two63 in *. lia.
Qed.

(** Parts whose numbers do not fit an int64 are read too, and their sum wraps
    around: two halves of 2^64 nanoseconds are no time at all. *)
Example wrapped_sum : ParseDuration "9223372036854775808ns9223372036854775808ns" = Some 0.
Proof. vm_compute. reflexivity. Qed.

(** ** What the program takes from it *)

(** A setting written as a duration that is positive and fits is that duration. *)
Theorem parseDurationOr_write l def :
  Forall part_ok l → 0 < value l ≤ max_int64 → parseDurationOr (write l) def = value l.
Proof.
  intros Hl Hv. assert (l ≠ []) as Hne by (intros ->; simpl in Hv; lia).
  unfold parseDurationOr. rewrite ParseDuration_write by done.
  destruct (Z.leb_spec (value l) max_int64); [|lia]. destruct (Z.leb_spec (value l) 0); [lia|done].
Qed.

Section expiry.
Context `{UuidLib, TimeText, JsonText}.

(** A message posted with a written duration as [expire] expires once that
    duration has passed. *)
Theorem isExpired_write m l now :
  m_Expire m = write l → l ≠ [] → Forall part_ok l → value l ≤ max_int64 →
  in_int64 (now - m_date m) →
  isExpired m now = (m_date m + value l <? now).
Proof.
  intros He Hne Hl Hv Hnow. unfold isExpired, time_Since. rewrite time_Sub_exact, He by done.
  rewrite ParseDuration_write by done. destruct (Z.leb_spec (value l) max_int64); [|lia].
  simpl. destruct (Z.ltb_spec (value l) (now - m_date m)), (Z.ltb_spec (m_date m + value l) now); done || lia.
Qed.
End expiry.

Example write_mixed : write [Part 1 "h"; Part 30 "m"] = "1h30m".
Proof. reflexivity. Qed.
