(* ===== verification/Logging.v ===== *)
(** * What is logged and printed

    [Log] ([engine.go]) hands a line to the structured logger at debug level; the
    line of a DELETE ([handleDelete] in [server.go]) is put together from pieces
    and formatted again with each piece; [main] prints a banner and listens on an
    address it formats ([main.go]). *)
From stdpp Require Import base numbers list strings pretty.
From S2P Require Import Prelude GoStd GoStrings GoFmt Const Config.

#[local] Open Scope string_scope.

(** ** [Log] *)

(** The line that reaches the handler of the logger, if any: it is filtered by
    the level [Start] chose.  A format outside [Sprintf] has no line here, either. *)
Definition Log (cfg : Config) (format : string) (v : list operand) : option string :=
  if Verbose cfg then
    match v with
    | [] => Some format
    | _ => Sprintf format v
    end
  else None.

(** A line without operands is logged as it is, percent signs included. *)
Lemma Log_raw cfg line : Log cfg line [] = if Verbose cfg then Some line else None.
Proof. done. Qed.

(** ** The line of a DELETE *)

(** The variable [m] of [handleDelete] after each assignment. *)
Definition delete_text (key id_ : string) : option string :=
  let m := MESSAGE in
  if bool_decide (key = EMPTY_STR) && bool_decide (id_ = EMPTY_STR)
  then Some (ALL +:+ m +:+ MULTIPLE +:+ IN_STORAGE)
  else
    let m :=
      if decide (id_ = EMPTY_STR) then Sprintf (ALL +:+ m +:+ MULTIPLE) []
      else Sprintf (m +:+ WITH_ID) [OStr id_] in
    match m with
    | None => None
    | Some m =>
      if decide (key = EMPTY_STR) then Some m else Sprintf (m +:+ FROM_KEY) [OStr key]
    end.

Definition delete_line (cfg : Config) (key id_ : string) : option string :=
  match delete_text key id_ with
  | None => None
  | Some m => Log cfg (DELETE_METHOD +:+ m) []
  end.

(** What the line is meant to say. *)
Definition delete_intent (key id_ : string) : string :=
  (if decide (id_ = EMPTY_STR) then "all messages" else "message with id: " +:+ id_) +:+
  (if decide (key = EMPTY_STR) then (if decide (id_ = EMPTY_STR) then " in storage" else EMPTY_STR)
   else " from key: " +:+ key).

Lemma from_key m key : plain m = true → Sprintf (m +:+ FROM_KEY) [OStr key] = Some (m +:+ " from key: " +:+ key).
Proof.
  intros Hm. rewrite Sprintf_plain_app by done.
  change FROM_KEY with (" from key: " +:+ "%s"). rewrite Sprintf_plain_app by done.
  simpl. by rewrite append_nil_r.
Qed.

(** The line says what it is meant to when the id has no percent sign or no key
    is named. *)
Theorem delete_line_spec cfg key id_ :
  plain id_ = true ∨ key = EMPTY_STR →
  delete_line cfg key id_ =
  if Verbose cfg then Some ("[DELETE] " +:+ delete_intent key id_) else None.
Proof.
  intros Hid. unfold delete_line, delete_intent, delete_text.
  change EMPTY_STR with EmptyString in *.
  destruct (decide (key = EmptyString)) as [->|Hk], (decide (id_ = EmptyString)) as [->|Hi];
    rewrite ?(bool_decide_true (EmptyString = EmptyString)), ?(bool_decide_false (key = EmptyString)),
      ?(bool_decide_false (id_ = EmptyString)) by done; cbn [andb].
  - rewrite Log_raw. by destruct (Verbose cfg).
  - change (MESSAGE +:+ WITH_ID) with ("message with id: " +:+ "%s"). rewrite Sprintf_plain_app by done.
    simpl. rewrite Log_raw. by destruct (Verbose cfg).
  - change (Sprintf (ALL +:+ MESSAGE +:+ MULTIPLE) []) with (Some "all messages").
    cbv iota. rewrite from_key by done. rewrite Log_raw. by destruct (Verbose cfg).
  - destruct Hid as [Hid|]; [|done].
    change (MESSAGE +:+ WITH_ID) with ("message with id: " +:+ "%s"). rewrite Sprintf_plain_app by done.
    change (Sprintf "%s" [OStr id_]) with (Some (id_ +:+ EmptyString)). rewrite append_nil_r.
    change (String.append "message with id: " <$> Some id_) with (Some ("message with id: " +:+ id_)).
    cbv iota. rewrite from_key by by rewrite plain_app. rewrite Log_raw. by destruct (Verbose cfg).
Qed.

(** An id is used as a format when a key is named, too: the verbs of the id take
    the key. *)
Theorem delete_line_formats_id cfg :
  Verbose cfg = true →
  delete_line cfg "a.b" "%s" = Some "[DELETE] message with id: a.b from key: %!s(MISSING)".
Proof. unfold delete_line, Log. intros ->. reflexivity. Qed.

(** ** The banner and the address *)

Definition banner_lines (cfg : Config) : list (string * list operand) :=
  [("----------------------------------", []);
   ("Goctopus websocket app has started", []);
   ("Listening to: %s:%s", [OStr (Host cfg); OStr (Port cfg)]);
   ("Num workers is: %d", [OInt (Workers cfg)]);
   ("Storage is: %s", [OStr (StorageEngine cfg)]);
   ("Authorizer engine: %s", [OStr (AuthorizerEngine cfg)]);
   ("Default message expiry is: %s", [OStr (DefaultExpire cfg)])] ++
  (if tlsEnabled cfg then [("TLS: enabled (wss://)", [])] else []) ++
  [("----------------------------------", []); (EmptyString, [])].

(** The lines [main] prints once [Start] returned, the empty last one included. *)
Definition banner (cfg : Config) : option (list string) :=
  mapM (λ line, Sprintf line.1 line.2) (banner_lines cfg).

(** [Addr] of the server. *)
Definition address (cfg : Config) : option string :=
  Sprintf "%s:%s" [OStr (Host cfg); OStr (Port cfg)].

Lemma address_spec cfg : address cfg = Some (Host cfg +:+ ":" +:+ Port cfg).
Proof.
  unfold address. simpl. by rewrite append_nil_r.
Qed.

(** Every operand of the banner meets its verb: the settings appear as they are,
    and nothing of the login, the password or the keys does. *)
Theorem banner_spec cfg :
  banner cfg = Some
    (["----------------------------------"; "Goctopus websocket app has started";
      "Listening to: " +:+ Host cfg +:+ ":" +:+ Port cfg;
      "Num workers is: " +:+ pretty (Workers cfg);
      "Storage is: " +:+ StorageEngine cfg;
      "Authorizer engine: " +:+ AuthorizerEngine cfg;
      "Default message expiry is: " +:+ DefaultExpire cfg] ++
     (if tlsEnabled cfg then ["TLS: enabled (wss://)"] else []) ++
     ["----------------------------------"; EmptyString])%list.
Proof.
  unfold banner, banner_lines. destruct (tlsEnabled cfg); simpl; by rewrite !append_nil_r.
Qed.
