(* ===== verification/Main.v ===== *)
(** * The command line ([src/src/main.go])

    From the environment, the arguments and the configuration file to a [Config]:
    the table of flags with their defaults, [flag.Parse], [loadConfigFile] and
    [applyConfigFile], [splitCSV] and the body of [main] up to [app.Start].

    [yaml.Unmarshal] is outside the repository: it is the parameter
    [yaml_Unmarshal], and [yaml] the values it yields.  [os.LookupEnv] and
    [os.ReadFile] are the parameters [lookup_env] and [read_file], and so is
    [strconv.ParseFloat], whose value is only handed on. *)
From stdpp Require Import base numbers list gmap strings pretty.
From S2P Require Import Prelude GoStd GoTime GoStrings Const Message Config.

#[local] Open Scope Z_scope.

(** ** Lists of values *)

(** [splitCSV(s)] *)
Definition splitCSV (s : string) : list string :=
  filter (λ p, p ≠ EMPTY_STR) (TrimSpace <$> Split s ",").

(** ** The flags *)

(** A [flag.FlagSet]: the text of the value of each flag, and the flags that were
    set on the command line. *)
Record FlagSet := MkFlagSet { fs_values : gmap string string; fs_actual : gset string }.

(** The boolean flags; the value of one is kept as [true] or [false]. *)
Definition bool_flags : list string := ["healthcheck"].

(** [f.Value.Set(v)]: an unparsable boolean sets false and is an error. *)
Definition set_text (name v : string) : string :=
  if decide (name ∈ bool_flags) then (if parseBool v then "true" else "false") else v.

Definition set_error (name v : string) : bool :=
  bool_decide (name ∈ bool_flags) && bool_decide (ParseBool v = None).

(** Setting a flag from the command line. *)
Definition flag_Set (fs : FlagSet) (name v : string) : FlagSet :=
  MkFlagSet (<[name := set_text name v]> (fs_values fs)) ({[name]} ∪ fs_actual fs).

(** The name of a flag argument and its [=value] when it has one; the [=] cannot
    be the first byte. *)
Definition name_value (name : string) : string * option string :=
  match IndexByte (str_drop 1 name) "=" with
  | Some i => (str_take (S i) name, Some (str_drop (S (S i)) name))
  | None => (name, None)
  end.

(** What an argument is: the end of the flags, a mistake, or a flag. *)
Inductive flag_arg := NoFlag | BadFlag | FlagNamed (name : string) (value : option string).

Definition read_arg (s : string) : flag_arg :=
  match s with
  | String d (String c s1) =>
    if decide (d ≠ "-"%char) then NoFlag else
    if decide (c = "-"%char ∧ s1 = EMPTY_STR) then NoFlag else
    let name := if decide (c = "-"%char) then s1 else String c s1 in
    match name with
    | EmptyString => BadFlag
    | String c _ =>
      if decide (c = "-"%char ∨ c = "="%char) then BadFlag
      else let '(name, v) := name_value name in FlagNamed name v
    end
  | _ => NoFlag
  end.

(** The outcome of [flag.Parse]: it goes on, or exits with a status. *)
Inductive parsed := Parsed (fs : FlagSet) | ParseExit (status : Z).

(** [flag.Parse()] with [ExitOnError]; the arguments after the flags are left
    alone. *)
Fixpoint parse_args (fs : FlagSet) (args : list string) : parsed :=
  match args with
  | [] => Parsed fs
  | s :: args =>
    match read_arg s with
    | NoFlag => Parsed fs
    | BadFlag => ParseExit 2
    | FlagNamed name v =>
      if decide (fs_values fs !! name = None) then
        ParseExit (if decide (name = "help" ∨ name = "h") then 0 else 2)
      else if decide (name ∈ bool_flags) then
        let v := default "true" v in
        if set_error name v then ParseExit 2 else parse_args (flag_Set fs name v) args
      else
        match v, args with
        | Some v, _ => parse_args (flag_Set fs name v) args
        | None, v :: args => parse_args (flag_Set fs name v) args
        | None, [] => ParseExit 2
        end
    end
  end.

(** ** The configuration file *)

(** A value [yaml.Unmarshal] puts in an [any]; of the kinds the program does not
    look into (a float, a date, a map) the text [fmt.Sprint] gives is kept. *)
Inductive yaml :=
| YNull
| YBool (b : bool)
| YInt (z : Z)
| YString (s : string)
| YList (l : list yaml)
| YOther (text : string).

(** [fmt.Sprint(v)] *)
Fixpoint Sprint (v : yaml) : string :=
  match v with
  | YNull => "<nil>"
  | YBool b => if b then "true" else "false"
  | YInt z => pretty z
  | YString s | YOther s => s
  | YList l => String.append "[" (String.append (Join (Sprint <$> l) " ") "]")
  end.

(** The text of one value of the file. *)
Definition config_text (v : yaml) : string :=
  match v with
  | YList l => Join (Sprint <$> l) ","
  | _ => Sprint v
  end.

Section main.
Context (lookup_env : string → option string).
Context (read_file : string → result string).
Context (yaml_Unmarshal : string → result (gmap string yaml)).
Context (ParseFloat : string → float64).

Definition envOr (name def : string) : string := default def (lookup_env name).
Definition Getenv (name : string) : string := default EMPTY_STR (lookup_env name).

(** The string flags of [main] with their default values. *)
Definition string_flags : list (string * string) := [
    ("host", envOr WS_HOST "0.0.0.0");
    ("port", envOr WS_PORT "7890");
    ("workers", envOr WS_WORKERS "1024");
    ("expire", envOr WS_MSG_EXPIRE "30m");
    ("login", Getenv WS_LOGIN);
    ("password", Getenv WS_PASSWORD);
    ("auth", Getenv WS_AUTH_URL);
    ("verbose", envOr WS_VERBOSE "false");
    ("log-format", envOr WS_LOG_FORMAT "text");
    ("storage", envOr WS_STORAGE DEFAULT);
    ("authorizer", envOr WS_AUTHORIZER DEFAULT);
    ("insecure-no-auth", envOr WS_INSECURE_NO_AUTH "false");
    ("auth-timeout", envOr WS_AUTH_TIMEOUT "10s");
    ("auth-cache-ttl", envOr WS_AUTH_CACHE_TTL "0");
    ("sweep-interval", envOr WS_SWEEP_INTERVAL "1m");
    ("ping-interval", envOr WS_PING_INTERVAL "30s");
    ("read-timeout", envOr WS_READ_TIMEOUT "70s");
    ("write-timeout", envOr WS_WRITE_TIMEOUT "10s");
    ("reconcile-interval", envOr WS_RECONCILE_INTERVAL "0");
    ("history-size", envOr WS_HISTORY_SIZE "0");
    ("history-ttl", envOr WS_HISTORY_TTL "1h");
    ("redis-url", envOr WS_REDIS_URL "redis://localhost:6379/0");
    ("redis-key-ttl", envOr WS_REDIS_KEY_TTL "24h");
    ("tls-cert", Getenv WS_TLS_CERT);
    ("tls-key", Getenv WS_TLS_KEY);
    ("allowed-origins", Getenv WS_ALLOWED_ORIGINS);
    ("max-message-size", envOr WS_MAX_MESSAGE_SIZE "1048576");
    ("compress", envOr WS_COMPRESS "false");
    ("rate-limit", envOr WS_RATE_LIMIT "0");
    ("rate-burst", envOr WS_RATE_BURST "0");
    ("trust-proxy-headers", envOr WS_TRUST_PROXY_HEADERS "false");
    ("config", Getenv WS_CONFIG)
  ].

Definition new_flags : FlagSet :=
  MkFlagSet (<["healthcheck" := "false"]> (list_to_map string_flags)) ∅.

Definition loadConfigFile (path : string) : result (gmap string string) :=
  match read_file path with
  | Err e => Err e
  | Ok b =>
    match yaml_Unmarshal b with
    | Err e => Err e
    | Ok raw => Ok (config_text <$> raw)
    end
  end.

(** The value of the flag [name] once the file is applied. *)
Definition overlay (fs : FlagSet) (file : gmap string string) (name v : string) : string :=
  if decide (name ∈ fs_actual fs) then v
  else match file !! name with Some w => set_text name w | None => v end.

(** [applyConfigFile(path)]; [None] when it ends the program. *)
Definition applyConfigFile (fs : FlagSet) (path : string) : option FlagSet :=
  match loadConfigFile path with
  | Err _ => None
  | Ok file => Some (MkFlagSet (map_imap (λ name v, Some (overlay fs file name v)) (fs_values fs))
                               (fs_actual fs))
  end.

(** ** [main] *)

(** The value a flag variable holds. *)
Definition flag_value (fs : FlagSet) (name : string) : string :=
  default EMPTY_STR (fs_values fs !! name).

(** The configuration [main] builds from the flags: [None] when it panics. *)
Definition build_config (fs : FlagSet) : option Config :=
  let val := flag_value fs in
  if decide (val "auth" = EMPTY_STR) then None else
  let '(nWorkers, err) := Atoi (val "workers") in
  match err with
  | Some _ => None
  | None =>
    let '(maxMsg, err) := ParseInt (val "max-message-size") in
    let maxMsg := if bool_decide (err ≠ None) || (maxMsg <=? 0) then 2 ^ 20 else maxMsg in
    let rl := ParseFloat (val "rate-limit") in
    let '(rb, _) := Atoi (val "rate-burst") in
    let '(histSize, _) := Atoi (val "history-size") in
    Some {|
      Host := val "host";
      Port := val "port";
      Workers := nWorkers;
      DefaultExpire := val "expire";
      Verbose := parseBool (val "verbose");
      LogJSON := bool_decide (val "log-format" = "json");
      Login := val "login";
      Password := val "password";
      InsecureNoAuth := parseBool (val "insecure-no-auth");
      StorageEngine := val "storage";
      AuthorizerEngine := val "authorizer";
      AuthURL := val "auth";
      AuthTimeout := parseDurationOr (val "auth-timeout") (10 * Second);
      AuthCacheTTL := parseDurationOr (val "auth-cache-ttl") 0;
      RedisURL := val "redis-url";
      RedisKeyTTL := parseDurationOr (val "redis-key-ttl") 0;
      SweepInterval := parseDurationOr (val "sweep-interval") Minute;
      PingInterval := parseDurationOr (val "ping-interval") (30 * Second);
      ReadTimeout := parseDurationOr (val "read-timeout") (70 * Second);
      WriteTimeout := parseDurationOr (val "write-timeout") (10 * Second);
      ReconcileInterval := parseDurationOr (val "reconcile-interval") 0;
      HistorySize := histSize;
      HistoryTTL := parseDurationOr (val "history-ttl") Hour;
      TLSCert := val "tls-cert";
      TLSKey := val "tls-key";
      AllowedOrigins := splitCSV (val "allowed-origins");
      MaxMessageBytes := maxMsg;
      Compression := parseBool (val "compress");
      RateLimit := rl;
      RateBurst := rb;
      TrustProxyHeaders := parseBool (val "trust-proxy-headers");
    |}
  end.

(** [validateConfig(cfg)]: whether it warns. *)
Definition validateConfig (cfg : Config) : bool := ReadTimeout cfg <=? PingInterval cfg.

(** [runHealthcheck(port)]: the exit status, where [get] is the status of the
    answer to a GET. *)
Definition healthcheck_url (port : string) : string :=
  String.append "http://127.0.0.1:" (String.append port "/healthz").

Definition runHealthcheck (get : string → result Z) (port : string) : Z :=
  match get (healthcheck_url port) with
  | Err _ => 1
  | Ok status => if decide (status = 200) then 0 else 1
  end.

(** What [main] does before it starts the gateway. *)
Inductive launch := Exits (status : Z) | Panics | Launches (cfg : Config) (warned : bool).

(** The flags once the arguments and the file are read: the first return value
    is the exit status of a program that ends there. *)
Definition read_flags (args : list string) : Z + FlagSet :=
  match parse_args new_flags args with
  | ParseExit status => inl status
  | Parsed fs =>
    if decide (flag_value fs "config" = EMPTY_STR) then inr fs else
    match applyConfigFile fs (flag_value fs "config") with
    | None => inl 1
    | Some fs => inr fs
    end
  end.

Definition main (get : string → result Z) (args : list string) : launch :=
  match read_flags args with
  | inl status => Exits status
  | inr fs =>
    if decide (flag_value fs "healthcheck" = "true") then
      Exits (runHealthcheck get (flag_value fs "port"))
    else
      match build_config fs with
      | None => Panics
      | Some cfg => Launches cfg (validateConfig cfg)
      end
  end.

(** ** The command line as a list of settings *)

(** [args] sets the flags of [sets], in order. *)
Inductive command_line : list string → list (string * string) → Prop :=
| CL_nil : command_line [] []
| CL_stop s args : read_arg s = NoFlag → command_line (s :: args) []
| CL_equal s name v args sets :
  read_arg s = FlagNamed name (Some v) → command_line args sets →
  command_line (s :: args) ((name, v) :: sets)
| CL_switch s name args sets :
  read_arg s = FlagNamed name None → name ∈ bool_flags → command_line args sets →
  command_line (s :: args) ((name, "true") :: sets)
| CL_next s name v args sets :
  read_arg s = FlagNamed name None → name ∉ bool_flags → command_line args sets →
  command_line (s :: v :: args) ((name, v) :: sets).

(** The last value given to [name]. *)
Definition last_set (name : string) (sets : list (string * string)) : option string :=
  foldl (λ acc kv, if decide (kv.1 = name) then Some kv.2 else acc) None sets.

Definition apply_sets (fs : FlagSet) (sets : list (string * string)) : FlagSet :=
  foldl (λ fs kv, flag_Set fs kv.1 kv.2) fs sets.

Lemma parse_args_sets fs args fs' :
  parse_args fs args = Parsed fs' → ∃ sets, command_line args sets ∧ fs' = apply_sets fs sets.
Proof.
  (* two arguments may go at once: strong induction on the length *)
  remember (length args) as n eqn:Hn. revert fs args Hn.
  induction n as [n IH] using lt_wf_ind. intros fs [|s args] ->; simpl.
  { intros [= <-]. exists []. split; [constructor|done]. }
  destruct (read_arg s) as [| |name v] eqn:Hs; [|done|].
  { intros [= <-]. exists []. split; [by constructor|done]. }
  destruct (decide (fs_values fs !! name = None)); [done|].
  destruct (decide (name ∈ bool_flags)) as [Hb|Hb].
  - destruct (set_error _ _); [done|]. intros Hp.
    destruct (IH (length args) ltac:(simpl; lia) _ args eq_refl Hp) as (sets & Hc & ->).
    exists ((name, default "true" v) :: sets). split; [|done].
    destruct v as [v|]; [by apply (CL_equal s)|by apply CL_switch].
  - destruct v as [v|]; [|destruct args as [|v args]; [done|]]; intros Hp.
    + destruct (IH (length args) ltac:(simpl; lia) _ args eq_refl Hp) as (sets & Hc & ->).
      exists ((name, v) :: sets). split; [by apply (CL_equal s)|done].
    + destruct (IH (length args) ltac:(simpl; lia) _ args eq_refl Hp) as (sets & Hc & ->).
      exists ((name, v) :: sets). split; [by apply CL_next|done].
Qed.

Lemma parse_exit_status fs args status : parse_args fs args = ParseExit status → 0 ≤ status ≤ 2.
Proof.
  remember (length args) as n eqn:Hn. revert fs args Hn.
  induction n as [n IH] using lt_wf_ind. intros fs [|s args] ->; simpl; [done|].
  assert (∀ fs args', (length args' ≤ length args)%nat → parse_args fs args' = ParseExit status →
    0 ≤ status ≤ 2) as Hrec by (intros; eapply IH; [|done|done]; simpl; lia).
  destruct (read_arg s); [done|by intros [= <-]|].
  case_decide; [intros [= <-]; by case_decide|].
  case_decide; [case_match; [by intros [= <-]|by apply Hrec]|].
  destruct value; [by apply Hrec|]. destruct args as [|v args]; [by intros [= <-]|].
  apply Hrec. simpl. lia.
Qed.

Lemma last_set_snoc name sets kv :
  last_set name (sets ++ [kv]) = if decide (kv.1 = name) then Some kv.2 else last_set name sets.
Proof. unfold last_set. by rewrite foldl_app. Qed.

Lemma apply_sets_value fs sets name :
  fs_values (apply_sets fs sets) !! name =
  match last_set name sets with
  | Some v => Some (set_text name v)
  | None => fs_values fs !! name
  end.
Proof.
  induction sets as [|[k v] sets IH] using rev_ind; [done|].
  rewrite last_set_snoc. unfold apply_sets in *. rewrite foldl_app. simpl.
  destruct (decide (k = name)) as [->|Hk]; [by rewrite lookup_insert_eq|].
  rewrite lookup_insert_ne by done. apply IH.
Qed.

Lemma apply_sets_actual fs sets name :
  name ∈ fs_actual (apply_sets fs sets) ↔ name ∈ fs_actual fs ∨ is_Some (last_set name sets).
Proof.
  induction sets as [|[k v] sets IH] using rev_ind.
  - split; [by left|]. intros [?|[v Hv]]; [done|]. unfold last_set in Hv. done.
  - rewrite last_set_snoc. unfold apply_sets in *. rewrite foldl_app. simpl.
    rewrite elem_of_union, elem_of_singleton, IH.
    destruct (decide (k = name)) as [->|Hk].
    + split; [right; eauto|by left].
    + split; [intros [?|?]; [done|done]|by right].
Qed.

(** ** What a flag ends up with *)

Lemma string_flags_names : NoDup (string_flags.*1) ∧ "healthcheck" ∉ string_flags.*1.
Proof.
  assert (string_flags.*1 = ["host"; "port"; "workers"; "expire"; "login"; "password"; "auth";
    "verbose"; "log-format"; "storage"; "authorizer"; "insecure-no-auth"; "auth-timeout";
    "auth-cache-ttl"; "sweep-interval"; "ping-interval"; "read-timeout"; "write-timeout";
    "reconcile-interval"; "history-size"; "history-ttl"; "redis-url"; "redis-key-ttl"; "tls-cert";
    "tls-key"; "allowed-origins"; "max-message-size"; "compress"; "rate-limit"; "rate-burst";
    "trust-proxy-headers"; "config"]) as -> by reflexivity.
  split; apply (bool_decide_unpack _); vm_compute; done.
Qed.

Lemma string_flag_default name d :
  (name, d) ∈ string_flags → name ∉ bool_flags ∧ fs_values new_flags !! name = Some d.
Proof.
  destruct string_flags_names as [Hnd Hh]. intros Hin.
  assert (name ≠ "healthcheck") as Hne.
  { intros ->. apply Hh. apply list_elem_of_fmap. by exists ("healthcheck", d). }
  split; [by intros ?%list_elem_of_singleton|].
  unfold new_flags. cbn [fs_values]. rewrite lookup_insert_ne by done. by apply elem_of_list_to_map.
Qed.

(** The file in force when the command line gave [sets]. *)
Definition config_file (sets : list (string * string)) (file : gmap string string) : Prop :=
  let path := default (Getenv WS_CONFIG) (last_set "config" sets) in
  if decide (path = EMPTY_STR) then file = ∅ else loadConfigFile path = Ok file.

(** The value of a flag before the file is read. *)
Lemma given_value sets name d :
  (name, d) ∈ string_flags →
  fs_values (apply_sets new_flags sets) !! name = Some (default d (last_set name sets)).
Proof.
  intros [Hb Hd]%string_flag_default. rewrite apply_sets_value, Hd. unfold set_text.
  destruct (last_set name sets); [|done]. by rewrite decide_False.
Qed.

Lemma overlay_value sets name d file :
  (name, d) ∈ string_flags →
  overlay (apply_sets new_flags sets) file name (default d (last_set name sets)) =
  default (default d (file !! name)) (last_set name sets).
Proof.
  intros [Hb _]%string_flag_default. unfold overlay.
  pose proof (apply_sets_actual new_flags sets name) as Ha.
  destruct (last_set name sets) as [v|].
  - rewrite decide_True; [done|]. apply Ha. by right; eexists.
  - rewrite decide_False; [|by intros [?|[? ?]]%Ha].
    destruct (file !! name); [|done]. unfold set_text. by rewrite decide_False.
Qed.

Lemma setting_value args fs :
  read_flags args = inr fs →
  ∃ sets file, command_line args sets ∧ config_file sets file ∧
    ∀ name d, (name, d) ∈ string_flags →
      flag_value fs name = default (default d (file !! name)) (last_set name sets).
Proof.
  unfold read_flags. destruct (parse_args new_flags args) as [fs0|] eqn:Hp; [|done].
  destruct (parse_args_sets _ _ _ Hp) as (sets & Hc & ->).
  assert (("config", Getenv WS_CONFIG) ∈ string_flags) as Hconfig by (unfold string_flags; set_solver +).
  set (path := default (Getenv WS_CONFIG) (last_set "config" sets)).
  assert (flag_value (apply_sets new_flags sets) "config" = path) as ->.
  { unfold flag_value. by rewrite (given_value _ _ _ Hconfig). }
  destruct (decide (path = EMPTY_STR)) as [Hpath|Hpath].
  - intros [= <-]. exists sets, ∅. split; [done|]. split.
    { unfold config_file. by rewrite decide_True. }
    intros name d Hin. unfold flag_value. by rewrite (given_value _ _ _ Hin), lookup_empty.
  - destruct (applyConfigFile _ path) as [fs'|] eqn:Ha; [|done]. intros [= <-].
    unfold applyConfigFile in Ha. destruct (loadConfigFile path) as [file|] eqn:Hf; [|done].
    injection Ha as <-. exists sets, file. split; [done|]. split.
    { unfold config_file. by rewrite decide_False. }
    intros name d Hin. unfold flag_value. cbn [fs_values].
    rewrite map_lookup_imap, (given_value _ _ _ Hin). cbn [mbind option_bind default].
    by apply overlay_value.
Qed.

(** C38: The value of a flag is the last one the command line gives it; failing
    that the one of the configuration file, when one is named; failing that the
    environment variable or the default.  The file is the one the command line
    names, else the one of the environment. *)
Theorem setting_precedence args fs :
  read_flags args = inr fs →
  ∃ sets file, command_line args sets ∧ config_file sets file ∧
    ∀ name d, (name, d) ∈ string_flags →
      flag_value fs name = default (default d (file !! name)) (last_set name sets).
Proof. apply setting_value. Qed.

(** ** The configuration is fit to start with *)

Lemma parseDurationOr_range s def :
  0 ≤ def ≤ max_int64 → 0 ≤ parseDurationOr s def ≤ max_int64 ∧ (0 < def → 0 < parseDurationOr s def).
Proof.
  intros Hdef. unfold parseDurationOr. destruct (ParseDuration s) as [d|] eqn:Hd; [|lia].
  apply ParseDuration_bounds in Hd. unfold in_int64 in Hd.
  destruct (Z.leb_spec d 0); lia.
Qed.

(** The settings the rest of the program relies on. *)
Record config_sane (cfg : Config) : Prop := {
  sane_auth : AuthURL cfg ≠ EMPTY_STR;
  sane_workers : in_int64 (Workers cfg);
  sane_limits : 0 < MaxMessageBytes cfg ≤ max_int64;
  sane_periods : Forall (λ d, 0 < d ≤ max_int64)
    [AuthTimeout cfg; SweepInterval cfg; PingInterval cfg; ReadTimeout cfg; WriteTimeout cfg;
     HistoryTTL cfg];
  sane_options : Forall (λ d, 0 ≤ d ≤ max_int64)
    [AuthCacheTTL cfg; RedisKeyTTL cfg; ReconcileInterval cfg];
  sane_sizes : in_int64 (HistorySize cfg) ∧ in_int64 (RateBurst cfg);
  sane_origins : EMPTY_STR ∉ AllowedOrigins cfg;
}.

Lemma build_config_sane fs cfg :
  build_config fs = Some cfg →
  config_sane cfg ∧ AuthURL cfg = flag_value fs "auth" ∧
  Atoi (flag_value fs "workers") = (Workers cfg, None) ∧
  AllowedOrigins cfg = splitCSV (flag_value fs "allowed-origins").
Proof.
  unfold build_config. destruct (decide (flag_value fs "auth" = EMPTY_STR)) as [|Hauth]; [done|].
  pose proof (ParseInt_range (flag_value fs "workers")) as Hw.
  unfold Atoi. destruct (ParseInt (flag_value fs "workers")) as [nw [err|]]; [done|].
  pose proof (ParseInt_range (flag_value fs "max-message-size")) as Hm.
  destruct (ParseInt (flag_value fs "max-message-size")) as [mm err].
  pose proof (ParseInt_range (flag_value fs "rate-burst")) as Hb.
  destruct (ParseInt (flag_value fs "rate-burst")) as [rb ?].
  pose proof (ParseInt_range (flag_value fs "history-size")) as Hh.
  destruct (ParseInt (flag_value fs "history-size")) as [hs ?].
  simpl in Hw, Hm, Hb, Hh. intros [= <-]. split; [|done]. split; simpl; try done.
  - unfold in_int64 in Hm. destruct (Z.leb_spec mm 0); rewrite ?orb_true_r, ?orb_false_r; [done|].
    case_bool_decide; [done|lia].
  - repeat constructor; eapply parseDurationOr_range; done.
  - repeat constructor; eapply parseDurationOr_range; done.
  - unfold splitCSV. rewrite list_elem_of_filter. by intros [? _].
Qed.


(** ** Values of the file *)

(** An entry that survives the list format: no comma, no space around it. *)
Definition csv_entry (p : string) : Prop :=
  p ≠ EMPTY_STR ∧ TrimSpace p = p ∧ ","%char ∉ str_bytes p.

Lemma splitCSV_Join ps : Forall csv_entry ps → splitCSV (Join ps ",") = ps.
Proof.
  intros Hps. destruct (decide (ps = [])) as [->|Hne]; [reflexivity|].
  unfold splitCSV. rewrite Forall_forall in Hps.
  rewrite (Split_Join "," ps Hne) by (intros p Hp; by apply Hps).
  rewrite (list_fmap_ext _ id) by (intros i p Hp%list_elem_of_lookup_2; by apply Hps).
  rewrite list_fmap_id. clear Hne. induction ps as [|p ps IH]; [done|].
  rewrite filter_cons_True by (apply Hps; left). f_equal. apply IH. intros q Hq. apply Hps. by right.
Qed.

Lemma command_line_det args sets sets' : command_line args sets → command_line args sets' → sets = sets'.
Proof.
  intros Hc. revert sets'.
  induction Hc; intros sets'; inversion 1; subst; try done;
    match goal with A : read_arg ?s = _, B : read_arg ?s = _ |- _ => rewrite A in B end;
    simplify_eq; try done; f_equal; auto.
Qed.

(** The file [raw] is the one in force. *)
Definition file_in_force (sets : list (string * string)) (raw : gmap string yaml) : Prop :=
  ∃ text, let path := default (Getenv WS_CONFIG) (last_set "config" sets) in
    path ≠ EMPTY_STR ∧ read_file path = Ok text ∧ yaml_Unmarshal text = Ok raw.

Lemma file_value args fs sets raw name d v :
  read_flags args = inr fs → command_line args sets → file_in_force sets raw →
  (name, d) ∈ string_flags → last_set name sets = None → raw !! name = Some v →
  flag_value fs name = config_text v.
Proof.
  intros Hr Hc (text & Hpath & Hread & Hyaml) Hin Hno Hv.
  destruct (setting_value args fs Hr) as (sets' & file & Hc' & Hf & Hval).
  rewrite (command_line_det _ _ _ Hc' Hc) in Hf, Hval.
  unfold config_file in Hf. rewrite decide_False in Hf by done.
  unfold loadConfigFile in Hf. rewrite Hread, Hyaml in Hf. injection Hf as <-.
  by rewrite (Hval _ _ Hin), Hno, lookup_fmap, Hv.
Qed.

(** A number of workers and a list of origins written in the configuration
    file reach the configuration as they were written, unless the command line
    sets the flag: the integer by its decimal text, the list by its
    comma-separated form. *)
Theorem file_settings_round_trip get args cfg warned sets raw n origins :
  main get args = Launches cfg warned → command_line args sets → file_in_force sets raw →
  (last_set "workers" sets = None → raw !! "workers" = Some (YInt n) → in_int64 n →
   Workers cfg = n) ∧
  (last_set "allowed-origins" sets = None →
   raw !! "allowed-origins" = Some (YList (YString <$> origins)) → Forall csv_entry origins →
   AllowedOrigins cfg = origins).
Proof.
  unfold main. destruct (read_flags args) as [|fs] eqn:Hr; [done|]. case_decide; [done|].
  destruct (build_config fs) as [cfg'|] eqn:Hb; [|done]. intros [= -> _] Hc Hf.
  destruct (build_config_sane fs cfg Hb) as (_ & _ & Hw & Ho). split.
  - intros Hno Hv Hn.
    rewrite (file_value args fs sets raw "workers" (envOr WS_WORKERS "1024") _ Hr Hc Hf) in Hw
      by (done || (unfold string_flags; set_solver +)).
    unfold Atoi in Hw. simpl in Hw. rewrite ParseInt_pretty in Hw by done. by injection Hw.
  - intros Hno Hv Hcsv.
    rewrite (file_value args fs sets raw "allowed-origins" (Getenv WS_ALLOWED_ORIGINS) _ Hr Hc Hf) in Ho
      by (done || (unfold string_flags; set_solver +)).
    rewrite Ho. simpl. rewrite <-list_fmap_compose.
    rewrite (list_fmap_ext _ id) by done. rewrite list_fmap_id. by apply splitCSV_Join.
Qed.

(** A key of the file with no value, such as [auth:] alone on a line, is not
    left out: its text is that of a nil interface. *)
Lemma blank_setting get args cfg warned sets raw :
  main get args = Launches cfg warned → command_line args sets → file_in_force sets raw →
  last_set "auth" sets = None → raw !! "auth" = Some YNull → AuthURL cfg = "<nil>".
Proof.
  unfold main. destruct (read_flags args) as [|fs] eqn:Hr; [done|]. case_decide; [done|].
  destruct (build_config fs) as [cfg'|] eqn:Hb; [|done]. intros [= -> _] Hc Hf Hno Hv.
  destruct (build_config_sane fs cfg Hb) as (_ & -> & _).
  by rewrite (file_value args fs sets raw "auth" (Getenv WS_AUTH_URL) YNull Hr Hc Hf)
    by (done || (unfold string_flags; set_solver +)).
Qed.
End main.

(** ** A concrete start *)

Module Launch.

Definition env (name : string) : option string :=
  if decide (name = WS_AUTH_URL) then Some "http://auth" else
  if decide (name = WS_PORT) then Some "80" else None.

Definition raw : gmap string yaml := list_to_map [
  ("workers", YInt 8);
  ("allowed-origins", YList (YString <$> ["https://a.example"; "https://b.example"]));
  ("port", YInt 9000); ("expire", YString "5m")].

Definition files (path : string) : result string :=
  if decide (path = "conf.yml") then Ok "the text of the file" else Err (Error "no such file").

Definition Unmarshal (_ : string) : result (gmap string yaml) := Ok raw.
Definition ParseFloat (_ : string) : float64 := SpecFloat.S754_zero false.
Definition get (_ : string) : result Z := Ok 200.

Definition args : list string := ["-config"; "conf.yml"; "--expire=1h"; "rest"].
Definition sets : list (string * string) := [("config", "conf.yml"); ("expire", "1h")].

Definition start : list string → launch := main env files Unmarshal ParseFloat get.

Definition flags : FlagSet :=
  match read_flags env files Unmarshal args with inr fs => fs | inl _ => MkFlagSet ∅ ∅ end.

Lemma flags_read : read_flags env files Unmarshal args = inr flags.
Proof. vm_compute. reflexivity. Qed.

Lemma args_sets : command_line args sets.
Proof.
  apply CL_next; [reflexivity|by intros ?%list_elem_of_singleton|].
  apply (CL_equal "--expire=1h" "expire" "1h"); [reflexivity|]. by apply CL_stop.
Qed.

Lemma raw_in_force : file_in_force env files Unmarshal sets raw.
Proof. by exists "the text of the file". Qed.

End Launch.

Lemma setting_precedence_witness :
  (flag_value Launch.flags "host", flag_value Launch.flags "port",
   flag_value Launch.flags "auth", flag_value Launch.flags "expire") =
    ("0.0.0.0", "9000", "http://auth", "1h") ∧
  ∃ sets file, command_line Launch.args sets ∧
    config_file Launch.env Launch.files Launch.Unmarshal sets file ∧
    ∀ name d, (name, d) ∈ string_flags Launch.env →
      flag_value Launch.flags name = default (default d (file !! name)) (last_set name sets).
Proof.
  split; [vm_compute; reflexivity|].
  apply (setting_precedence Launch.env Launch.files Launch.Unmarshal), Launch.flags_read.
Defined.

Lemma file_settings_round_trip_witness :
  ∃ cfg warned, Launch.start Launch.args = Launches cfg warned ∧
    Workers cfg = 8 ∧ AllowedOrigins cfg = ["https://a.example"; "https://b.example"].
Proof.
  eexists _, _. split; [vm_compute; reflexivity|].
  destruct (file_settings_round_trip Launch.env Launch.files Launch.Unmarshal Launch.ParseFloat
    Launch.get Launch.args _ _ Launch.sets Launch.raw 8 ["https://a.example"; "https://b.example"]
    ltac:(vm_compute; reflexivity) Launch.args_sets Launch.raw_in_force) as [Hw Ho].
  split.
  - apply Hw; [reflexivity|vm_compute; reflexivity|unfold in_int64, min_int64, max_int64, two63; lia].
  - apply Ho; [reflexivity|vm_compute; reflexivity|].
    repeat constructor; try (by vm_compute); apply (bool_decide_unpack _); vm_compute; done.
Defined.
