(* ===== verification/RedisStorage.v ===== *)
(** * Redis storage ([src/src/redis_storage.go])

    Each key has a hash on the server, from the text of an identifier to the
    encoded message.  Every method is the sequence of server calls the source
    makes.  [RedisStorage_Spec] shows that it meets the contract [StorageSpec]
    when no time to live is configured; what the time to live and undecodable
    entries do is stated apart. *)
From stdpp Require Import base numbers list gmap strings sorting.
From S2P Require Import Prelude GoStd GoTime Utf8 Json JsonCodec Const Message Stored.
From S2P Require Import Storage RedisServer Config.

#[local] Open Scope Z_scope.

Definition redisDefaultURL : string := "redis://localhost:6379/0".
Definition redisPrefix : string := "goctopus:".
Definition redisQueuePfx : string := String.append redisPrefix "q:".
Definition redisEvents : string := String.append redisPrefix "events".

Definition queueKey (key : string) : string := String.append redisQueuePfx key.

(** [strings.TrimPrefix] *)
Definition TrimPrefix (s prefix : string) : string :=
  if String.prefix prefix s then str_drop (String.length prefix) s else s.

(** Earlier messages first; a tie keeps the order of the map. *)
Definition date_le (a b : Message) : Prop := m_date a ≤ m_date b.
#[export] Instance date_le_dec : RelDecision date_le.
Proof. intros a b. unfold date_le. apply _. Defined.

Record RedisStorage (R : Type) := MkRedisStorage { rs_client : R; rs_keyTTL : Z }.
Arguments MkRedisStorage {R}.
Arguments rs_client {R}.
Arguments rs_keyTTL {R}.

Module Redis.

Section redis.
Context {R : Type} `{RedisServer R}.
Context `{UuidLib, TimeText, TimeParse, JsonText, JsonPrint}.
Implicit Types (s : RedisStorage R).

(** A call to the server. *)
Definition call {A} (f : R → R * A) s : RedisStorage R * A :=
  let '(r, a) := f (rs_client s) in (MkRedisStorage r (rs_keyTTL s), a).

(** [Init(cfg)]: [parse] is the error of [redis.ParseURL], [connect] a client
    for an address. *)
Definition Init (parse : string → option error) (connect : string → R) (cfg : Config)
  : result (RedisStorage R) :=
  let url := if decide (RedisURL cfg = EMPTY_STR) then redisDefaultURL else RedisURL cfg in
  match parse url with
  | Some e => Err e
  | None =>
    let '(r, err) := redis_ping (connect url) in
    match err with
    | Some e => Err e
    | None => Ok (MkRedisStorage r (RedisKeyTTL cfg))
    end
  end.

(** The commands of [SetQueue] that store the messages. *)
Fixpoint hset_all (qk : string) (queue : list Message) : result (list command) :=
  match queue with
  | [] => Ok []
  | m :: queue =>
    match encode m with
    | Err e => Err e
    | Ok b =>
      match hset_all qk queue with
      | Err e => Err e
      | Ok cs => Ok (HSET qk (uuid_String (m_id m)) b :: cs)
      end
    end
  end.

Definition expire_after (qk : string) (ttl : Z) : list command :=
  if 0 <? ttl then [EXPIRE qk ttl] else [].

Definition SetQueue (key : string) (queue : list Message) s : RedisStorage R * option error :=
  let qk := queueKey key in
  match hset_all qk queue with
  | Err e => (s, Some e)
  | Ok cs =>
    call (redis_exec (DEL qk :: cs ++
                      if bool_decide (queue = []) then [] else expire_after qk (rs_keyTTL s))) s
  end.

(** The loop of [GetQueue] over the entries: the messages that decode; the
    other entries are dropped from the hash, whether or not that works. *)
Fixpoint read_entries (qk : string) (fields : list string) (vals : gmap string string)
    (queue : list Message) s : RedisStorage R * list Message :=
  match fields with
  | [] => (s, queue)
  | field :: fields =>
    match decodeMessage (default EmptyString (vals !! field)) with
    | Err _ => let '(s, _) := call (redis_exec [HDEL qk field]) s in read_entries qk fields vals queue s
    | Ok m => read_entries qk fields vals (queue ++ [m]) s
    end
  end.

Definition GetQueue (range : gset string → list string) (key : string) s
  : RedisStorage R * result (list Message) :=
  let '(s, res) := call (redis_hgetall (queueKey key)) s in
  match res with
  | Err e => (s, Err e)
  | Ok vals =>
    let '(s, queue) := read_entries (queueKey key) (range (dom vals)) vals [] s in
    (s, Ok (merge_sort date_le queue))
  end.

Definition DeleteQueue (key : string) s : RedisStorage R * option error :=
  call (redis_exec [DEL (queueKey key)]) s.

Definition AddMessage (key : string) (m : Message) s : RedisStorage R * option error :=
  match encode m with
  | Err e => (s, Some e)
  | Ok b =>
    let qk := queueKey key in
    let set := HSET qk (uuid_String (m_id m)) b in
    if rs_keyTTL s <=? 0 then call (redis_exec [set]) s
    else call (redis_exec [set; EXPIRE qk (rs_keyTTL s)]) s
  end.

Definition DeleteMessage (key : string) (id : uuid) s : RedisStorage R * option error :=
  call (redis_exec [HDEL (queueKey key) (uuid_String id)]) s.

(** The SCAN loop: the keys of the batches, until the cursor is zero again. *)
Fixpoint scan_keys (fuel : nat) (cursor : Z) (keys : list string) s
  : RedisStorage R * option (result (list string)) :=
  match fuel with
  | O => (s, None)
  | S fuel =>
    let '(s, res) := call (redis_scan cursor (String.append redisQueuePfx "*")) s in
    match res with
    | Err e => (s, Some (Err e))
    | Ok (batch, next) =>
      let keys := keys ++ ((λ k, TrimPrefix k redisQueuePfx) <$> batch) in
      if next =? 0 then (s, Some (Ok keys)) else scan_keys fuel next keys s
    end
  end.

(** What [keys], declared and not made, is in the end. *)
Definition as_slice (res : result (list string)) : result (slice string) :=
  match res with Ok keys => Ok (appended keys) | Err e => Err e end.

(** The server bounds the iteration: [scan_keys_enough] shows that the fuel is
    never exhausted. *)
Definition GetKeys (range : gset string → list string) s
  : RedisStorage R * result (slice string) :=
  let '(s, res) := scan_keys (S (scan_left (rs_client s) 0)) 0 [] s in
  (s, as_slice (default (Ok []) res)).

Definition Notify (key : string) s : RedisStorage R * option error :=
  call (redis_publish redisEvents key) s.

Definition PingContext s : RedisStorage R * option error := call redis_ping s.

End redis.
End Redis.

#[export] Instance RedisStorage_Storage {R} `{RedisServer R}
    `{UuidLib, TimeText, TimeParse, JsonText, JsonPrint} : Storage (RedisStorage R) := {
  SetQueue := Redis.SetQueue;
  GetQueue := Redis.GetQueue;
  DeleteQueue := Redis.DeleteQueue;
  AddMessage := Redis.AddMessage;
  DeleteMessage := Redis.DeleteMessage;
  GetKeys := Redis.GetKeys;
  as_Notifier := Some Redis.Notify;
  as_Pinger := Some Redis.PingContext;
}.

(** ** The contract *)

Section contract.
Context {R : Type} `{!RedisServer R, !RedisLaws R}.
Context `{UuidLib, TimeText, TimeParse, JsonText, JsonPrint, !TextLaws, !JsonLaws}.
Implicit Types (s : RedisStorage R) (ks : keyspace).

#[local] Instance uuid_String_inj : Inj (=) (=) uuid_String.
Proof. intros x y Hxy. apply (inj Some). by rewrite <-!parse_uuid, Hxy. Qed.

#[local] Instance queueKey_inj : Inj (=) (=) queueKey.
Proof. intros x y. unfold queueKey. generalize redisQueuePfx. intros p.
  induction p as [|c p IH]; [done|]. intros Hxy. apply IH.
  change (String c (String.append p x) = String c (String.append p y)) in Hxy. congruence.
Qed.

(** An entry this storage wrote: an encoded message under its own identifier. *)
Definition entry_ok (f v : string) : Prop :=
  ∃ m, decodeMessage v = Ok m ∧ f = uuid_String (m_id m).

(** No key has a time to live, and the queues hold such entries only. *)
Record ks_ok ks : Prop := {
  ko_volatile : ks_volatile ks = ∅;
  ko_entries k : map_Forall entry_ok (hash_at ks (queueKey k));
}.

(** The table of a keyspace. *)
Definition ks_table ks : queues := λ k id,
  match hash_at ks (queueKey k) !! uuid_String id with
  | Some v => match decodeMessage v with Ok m => Some m | Err _ => None end
  | None => None
  end.

Definition redis_ok s : Prop := rs_keyTTL s ≤ 0 ∧ ks_ok (redis_ks (rs_client s)).

Definition redis_queued s : queues := ks_table (redis_ks (rs_client s)).

Lemma ks_table_hash ks ks' :
  ks_hash ks' = ks_hash ks → ks_table ks' ≡ ks_table ks.
Proof. intros Hh k id. unfold ks_table, hash_at. by rewrite Hh. Qed.

Lemma ks_drift ks ks' :
  ks_ok ks → drifts ks ks' → ks_ok ks' ∧ ks_table ks' ≡ ks_table ks.
Proof.
  intros [Hv He] Hd. destruct (drifts_persistent ks ks' Hv Hd) as [Hh Hv'].
  split; [|by apply ks_table_hash]. split; [done|]. intros k. unfold hash_at. rewrite Hh.
  apply He.
Qed.

Lemma ks_table_id ks k id m : ks_ok ks → ks_table ks k id = Some m → m_id m = id.
Proof.
  intros [_ He]. unfold ks_table. destruct (hash_at _ _ !! _) as [v|] eqn:Hv; [|done].
  destruct (He k _ v Hv) as (m' & -> & Hid%(inj uuid_String)). congruence.
Qed.

(** *** The commands act on the table *)

Lemma hash_at_HSET ks qk f v qk' :
  hash_at (apply_command (HSET qk f v) ks) qk' =
  if decide (qk' = qk) then <[f := v]> (hash_at ks qk) else hash_at ks qk'.
Proof.
  unfold hash_at at 1. simpl. case_decide as Hq; [subst; by rewrite lookup_insert_eq|].
  by rewrite lookup_insert_ne.
Qed.

Lemma hash_at_DEL ks qk qk' :
  hash_at (apply_command (DEL qk) ks) qk' = if decide (qk' = qk) then ∅ else hash_at ks qk'.
Proof.
  unfold hash_at at 1. simpl. case_decide as Hq; [subst; by rewrite lookup_delete_eq|].
  by rewrite lookup_delete_ne.
Qed.

Lemma hash_at_HDEL ks qk f qk' :
  hash_at (apply_command (HDEL qk f) ks) qk' =
  if decide (qk' = qk) then delete f (hash_at ks qk) else hash_at ks qk'.
Proof.
  unfold hash_at. simpl. destruct (ks_hash ks !! qk) as [h|] eqn:Hh; simpl.
  - case_decide as Hd; simpl.
    + case_decide as Hq; [subst; by rewrite lookup_delete_eq, Hd|].
      by rewrite lookup_delete_ne.
    + case_decide as Hq; [subst; by rewrite lookup_insert_eq|].
      by rewrite lookup_insert_ne.
  - case_decide as Hq; [subst; by rewrite Hh, delete_empty|done].
Qed.

Lemma add_table ks k m b :
  ks_ok ks → decodeMessage b = Ok m →
  let ks' := apply_command (HSET (queueKey k) (uuid_String (m_id m)) b) ks in
  ks_ok ks' ∧ ks_table ks' ≡ q_add k m (ks_table ks).
Proof.
  intros [Hv He] Hb ks'. split; [split; [done|]|].
  - intros k'. subst ks'. rewrite hash_at_HSET. case_decide; [|apply He].
    apply map_Forall_insert_2; [by exists m|]. apply He.
  - intros k' id. unfold ks_table, q_add. subst ks'. rewrite hash_at_HSET.
    destruct (decide (k' = k)) as [->|Hk].
    + rewrite decide_True by done. destruct (decide (id = m_id m)) as [->|Hid].
      * by rewrite lookup_insert_eq, Hb, decide_True.
      * rewrite lookup_insert_ne by (intros ?%(inj uuid_String); congruence).
        by rewrite decide_False by naive_solver.
    + rewrite decide_False by (intros ?%(inj queueKey); congruence).
      by rewrite decide_False by naive_solver.
Qed.

Lemma delete_table ks k id :
  ks_ok ks →
  let ks' := apply_command (HDEL (queueKey k) (uuid_String id)) ks in
  ks_ok ks' ∧ ks_table ks' ≡ q_del k id (ks_table ks).
Proof.
  intros [Hv He] ks'. split; [split|].
  - apply (apply_commands_persistent [HDEL (queueKey k) (uuid_String id)] _ Hv). repeat constructor; done.
  - intros k'. subst ks'. rewrite hash_at_HDEL. case_decide; [|apply He].
    apply map_Forall_delete, He.
  - intros k' i. unfold ks_table, q_del. subst ks'. rewrite hash_at_HDEL.
    destruct (decide (k' = k)) as [->|Hk].
    + rewrite decide_True by done. destruct (decide (i = id)) as [->|Hid].
      * by rewrite lookup_delete_eq, decide_True.
      * rewrite lookup_delete_ne by (intros ?%(inj uuid_String); congruence).
        by rewrite decide_False by naive_solver.
    + rewrite decide_False by (intros ?%(inj queueKey); congruence).
      by rewrite decide_False by naive_solver.
Qed.

Lemma clear_table ks k :
  ks_ok ks →
  let ks' := apply_command (DEL (queueKey k)) ks in
  ks_ok ks' ∧ ks_table ks' ≡ q_clear k (ks_table ks).
Proof.
  intros [Hv He] ks'. split; [split|].
  - apply (apply_commands_persistent [DEL (queueKey k)] _ Hv). repeat constructor; done.
  - intros k'. subst ks'. rewrite hash_at_DEL. case_decide; [apply map_Forall_empty|apply He].
  - intros k' i. unfold ks_table, q_clear. subst ks'. rewrite hash_at_DEL.
    destruct (decide (k' = k)) as [->|Hk]; [by rewrite decide_True|].
    by rewrite decide_False by (intros ?%(inj queueKey); congruence).
Qed.

(** A call that should change the table from [q] to [q2]. *)
Lemma carried_out_table err f ks ks' q2 :
  ks_ok ks → carried_out err f ks ks' → ks_ok (f ks) → ks_table (f ks) ≡ q2 →
  ks_ok ks' ∧ applied err (ks_table ks) q2 (ks_table ks').
Proof.
  intros Hok [Hd|[[e ->] Hd]] Hf Hq.
  - destruct (ks_drift _ _ Hf Hd) as [Hok' Ht]. split; [done|].
    assert (ks_table ks' ≡ q2) as Hq2 by by etrans. by destruct err; [right|].
  - destruct (ks_drift _ _ Hok Hd) as [Hok' Ht]. split; [done|]. by left.
Qed.

Lemma exec_table cs s s' err q2 :
  redis_ok s → Redis.call (redis_exec cs) s = (s', err) →
  (let ks' := apply_commands cs (redis_ks (rs_client s)) in ks_ok ks' ∧ ks_table ks' ≡ q2) →
  redis_ok s' ∧ applied err (redis_queued s) q2 (redis_queued s').
Proof.
  intros [Httl Hok] Hc [Hok2 Hq2]. unfold Redis.call in Hc.
  destruct (redis_exec cs (rs_client s)) as [r e] eqn:He. injection Hc as <- <-.
  apply exec_law in He.
  destruct (carried_out_table _ _ _ _ _ Hok He Hok2 Hq2) as [Hok' Ha]. by split.
Qed.
(** *** Reads *)

Lemma call_split {A} (f : R → R * A) s s' a :
  Redis.call f s = (s', a) →
  f (rs_client s) = (rs_client s', a) ∧ rs_keyTTL s' = rs_keyTTL s.
Proof. unfold Redis.call. destruct (f (rs_client s)) as [r b]. by intros [= <- <-]. Qed.

Lemma redis_ok_drift s s' :
  redis_ok s → rs_keyTTL s' = rs_keyTTL s →
  drifts (redis_ks (rs_client s)) (redis_ks (rs_client s')) →
  redis_ok s' ∧ redis_queued s' ≡ redis_queued s.
Proof.
  intros [Ht Hok] Hk Hd. destruct (ks_drift _ _ Hok Hd) as [Hok' Hq].
  split; [|done]. split; [by rewrite Hk|done].
Qed.

(** When every entry decodes the loop collects the messages in the order of the
    fields and leaves the server alone. *)
Lemma read_entries_ok qk fields vals queue s :
  map_Forall entry_ok vals → (∀ f, f ∈ fields → is_Some (vals !! f)) →
  ∃ l, Redis.read_entries qk fields vals queue s = (s, queue ++ l) ∧
       Forall2 (λ f m, ∃ v, vals !! f = Some v ∧ decodeMessage v = Ok m ∧ f = uuid_String (m_id m))
         fields l.
Proof.
  intros Hv. revert queue. induction fields as [|f fields IH]; intros queue Hf.
  { exists []. by rewrite app_nil_r. }
  cbn [Redis.read_entries]. destruct (Hf f) as [v Hfv]; [by left|]. rewrite Hfv. simpl.
  destruct (Hv f v Hfv) as (m & Hm & Hid). rewrite Hm.
  destruct (IH (queue ++ [m])) as (l & -> & Hl); [intros g Hg; apply Hf; by right|].
  exists (m :: l). rewrite <-(assoc_L (++)). split; [done|]. constructor; [|done]. eauto.
Qed.

Lemma entries_list_queue ks k fields l :
  ks_ok ks → fields ≡ₚ elements (dom (hash_at ks (queueKey k))) →
  Forall2 (λ f m, ∃ v, hash_at ks (queueKey k) !! f = Some v ∧ decodeMessage v = Ok m ∧
    f = uuid_String (m_id m)) fields l →
  lists_queue (ks_table ks) k l.
Proof.
  intros Hok Hp Hl. assert (uuid_String <$> (m_id <$> l) = fields) as Hids.
  { clear Hp. induction Hl as [|f m fields l (v & _ & _ & ->) _ IH]; [done|].
    rewrite !fmap_cons. by rewrite IH. }
  split.
  - apply (NoDup_fmap_1 uuid_String). rewrite Hids, Hp. apply NoDup_elements.
  - intros m. unfold ks_table. split.
    + intros (i & Hi)%list_elem_of_lookup.
      destruct (Forall2_lookup_r _ _ _ _ _ Hl Hi) as (f & _ & v & Hv & Hd & ->).
      by rewrite Hv, Hd.
    + destruct (hash_at _ _ !! _) as [v|] eqn:Hv; [|done].
      destruct (decodeMessage v) as [m'|] eqn:Hd; [|done]. intros [= ->].
      assert (uuid_String (m_id m) ∈ fields) as (i & Hi)%list_elem_of_lookup.
      { rewrite Hp, elem_of_elements. by apply elem_of_dom_2 in Hv. }
      destruct (Forall2_lookup_l _ _ _ _ _ Hl Hi) as (m' & Hm' & v' & Hv' & Hd' & _).
      rewrite Hv in Hv'. injection Hv' as <-. rewrite Hd in Hd'. injection Hd' as <-.
      by eapply list_elem_of_lookup_2.
Qed.

#[export] Instance date_le_total : Total date_le.
Proof. intros a b. unfold date_le. lia. Qed.
#[export] Instance date_le_trans : Transitive date_le.
Proof. intros a b c. unfold date_le. lia. Qed.

Lemma lists_queue_perm q k l l' : l ≡ₚ l' → lists_queue q k l → lists_queue q k l'.
Proof. intros Hp [Hn Hin]. split; [by rewrite <-Hp|]. intros m. by rewrite <-Hp, Hin. Qed.

Lemma GetQueue_ok range s k s' r :
  redis_ok s → is_range range → Redis.GetQueue range k s = (s', r) →
  redis_ok s' ∧ redis_queued s' ≡ redis_queued s ∧
  match r with
  | Ok l => lists_queue (redis_queued s) k l ∧ StronglySorted date_le l
  | Err _ => True
  end.
Proof.
  intros Hok Hrange Hg. unfold Redis.GetQueue in Hg.
  destruct (Redis.call (redis_hgetall (queueKey k)) s) as [s1 res] eqn:Hc.
  destruct (call_split _ _ _ _ Hc) as [Hget Hk]. apply hgetall_law in Hget as [Hd Hres].
  destruct (redis_ok_drift s s1 Hok Hk Hd) as [Hok1 Hq1].
  destruct res as [vals|e]; [|by injection Hg as <- <-].
  destruct Hok1 as [Ht1 Hks1]. rewrite Hres in Hg.
  destruct (read_entries_ok (queueKey k) (range (dom (hash_at (redis_ks (rs_client s1)) (queueKey k))))
    (hash_at (redis_ks (rs_client s1)) (queueKey k)) [] s1) as (l & Hl & Hf).
  { apply (ko_entries _ Hks1). }
  { intros f. rewrite (Hrange _), elem_of_elements. by intros ?%elem_of_dom. }
  rewrite Hl in Hg. simpl in Hg. injection Hg as <- <-.
  split; [by split|]. split; [done|]. split; [|apply (StronglySorted_merge_sort _)].
  apply (lists_queue_perm _ _ l); [by rewrite merge_sort_Permutation|].
  destruct (entries_list_queue _ k _ l Hks1 (Hrange _) Hf) as [Hn Hin]. split; [done|].
  intros m. rewrite Hin. by rewrite <-(Hq1 k (m_id m)).
Qed.
(** *** The iteration *)

Lemma prefix_append p x : String.prefix p (String.append p x) = true.
Proof. apply str_prefix_split. eauto. Qed.

Lemma TrimPrefix_append p x : TrimPrefix (String.append p x) p = x.
Proof. unfold TrimPrefix. rewrite prefix_append. apply str_drop_append. Qed.

Lemma prefix_split p k : String.prefix p k = true → k = String.append p (TrimPrefix k p).
Proof. intros [x ->]%str_prefix_split. by rewrite TrimPrefix_append. Qed.

(** Each call brings the iteration nearer to its end. *)
Lemma scan_keys_enough fuel cursor keys s :
  (scan_left (rs_client s) cursor < fuel)%nat →
  is_Some (Redis.scan_keys fuel cursor keys s).2.
Proof.
  revert cursor keys s. induction fuel as [|fuel IH]; intros cursor keys s Hf; [lia|].
  cbn [Redis.scan_keys]. destruct (Redis.call _ s) as [s1 res] eqn:Hc.
  destruct (call_split _ _ _ _ Hc) as [Hs _]. apply scan_law in Hs as [_ Hs]; [|done].
  destruct res as [[batch next]|]; [|by eexists]. destruct (next =? 0) eqn:Hn; [by eexists|].
  apply IH. destruct Hs as (_ & _ & Hlt). rewrite Z.eqb_neq in Hn. specialize (Hlt Hn). lia.
Qed.

Lemma scan_keys_ok fuel cursor keys s s' (found : list string) :
  redis_ok s → Redis.scan_keys fuel cursor keys s = (s', Some (Ok found)) →
  let D := dom (ks_hash (redis_ks (rs_client s))) in
  (∀ k, k ∈ keys → k ∈ found) ∧
  (∀ k, queueKey k ∈ scan_rest (rs_client s) cursor → queueKey k ∈ D → k ∈ found) ∧
  (∀ k, k ∈ found → k ∈ keys ∨ queueKey k ∈ D).
Proof.
  revert cursor keys s. induction fuel as [|fuel IH]; intros cursor keys s Hok; [done|].
  cbn [Redis.scan_keys]. destruct (Redis.call _ s) as [s1 res] eqn:Hc.
  destruct (call_split _ _ _ _ Hc) as [Hs Hk]. apply scan_law in Hs as [Hd Hs]; [|done].
  destruct (drifts_persistent _ _ (ko_volatile _ (proj2 Hok)) Hd) as [Hh _].
  destruct (redis_ok_drift s s1 Hok Hk Hd) as [Hok1 _].
  destruct res as [[batch next]|]; [|done]. destruct Hs as (Hin & Hall & _).
  rewrite Hh in Hin, Hall.
  assert (∀ k, k ∈ (λ q, TrimPrefix q redisQueuePfx) <$> batch → queueKey k ∈ dom (ks_hash (redis_ks (rs_client s)))) as Hb.
  { intros k (q & -> & Hq)%list_elem_of_fmap. destruct (Hin q Hq) as [Hdom Hp].
    unfold queueKey. by rewrite <-(prefix_split _ q Hp). }
  assert (∀ k, queueKey k ∈ batch → k ∈ (λ q, TrimPrefix q redisQueuePfx) <$> batch) as Hb'.
  { intros k Hq. apply list_elem_of_fmap. exists (queueKey k). split; [|done].
    symmetry. apply TrimPrefix_append. }
  destruct (next =? 0) eqn:Hn.
  - apply Z.eqb_eq in Hn. intros [= <- <-]. split_and!.
    + intros k Hk'. apply elem_of_app. by left.
    + intros k Hr HD. apply elem_of_app. right. apply Hb'.
      destruct (Hall _ Hr HD (prefix_append _ _)) as [?|[? _]]; done.
    + intros k [?|?]%elem_of_app; [by left|right; by apply Hb].
  - intros Hrec. destruct (IH _ _ _ Hok1 Hrec) as (Hkeys & Hrest & Hback). rewrite Hh in Hrest, Hback.
    split_and!.
    + intros k Hk'. apply Hkeys, elem_of_app. by left.
    + intros k Hr HD. destruct (Hall _ Hr HD (prefix_append _ _)) as [Hq|[_ Hq]].
      * apply Hkeys, elem_of_app. right. by apply Hb'.
      * by apply Hrest.
    + intros k Hk'. destruct (Hback k Hk') as [[?|?]%elem_of_app|?]; [by left|right; by apply Hb|by right].
Qed.

Lemma scan_keys_drift fuel cursor keys s s' r :
  redis_ok s → Redis.scan_keys fuel cursor keys s = (s', r) →
  redis_ok s' ∧ redis_queued s' ≡ redis_queued s.
Proof.
  revert cursor keys s. induction fuel as [|fuel IH]; intros cursor keys s Hok;
    [by intros [= <- _]|].
  cbn [Redis.scan_keys]. destruct (Redis.call _ s) as [s1 res] eqn:Hc.
  destruct (call_split _ _ _ _ Hc) as [Hs Hk]. apply scan_law in Hs as [Hd _]; [|done].
  destruct (redis_ok_drift s s1 Hok Hk Hd) as [Hok1 Hq1].
  destruct res as [[batch next]|]; [|by intros [= <- _]].
  destruct (next =? 0); [by intros [= <- _]|]. intros Hrec.
  destruct (IH _ _ _ Hok1 Hrec) as [? Hq2]. split; [done|]. by etrans.
Qed.

(** A key is on the server exactly when its queue holds a message. *)
Lemma dom_table ks k :
  ks_ok ks → (∀ k, ks_hash ks !! k ≠ Some ∅) →
  queueKey k ∈ dom (ks_hash ks) ↔ ∃ id, is_Some (ks_table ks k id).
Proof.
  intros Hok Hne. pose proof (ko_entries _ Hok k) as He. rewrite elem_of_dom.
  unfold ks_table, hash_at in *. split.
  - intros [h Hh]. rewrite Hh in *. simpl in *.
    destruct (map_choose h) as (f & v & Hv); [intros ->; by eapply Hne|].
    destruct (He f v Hv) as (m & Hm & ->). exists (m_id m). by rewrite Hv, Hm.
  - intros [id Hid]. destruct (ks_hash ks !! queueKey k); [done|].
    simpl in Hid. rewrite lookup_empty in Hid. by destruct Hid.
Qed.

Lemma GetKeys_ok range s s' r :
  redis_ok s → Redis.GetKeys range s = (s', r) →
  redis_ok s' ∧ redis_queued s' ≡ redis_queued s ∧
  match r with Ok ks => ∀ k, k ∈ elems ks ↔ ∃ id, is_Some (redis_queued s k id) | Err _ => True end.
Proof.
  intros Hok Hg. unfold Redis.GetKeys in Hg.
  destruct (scan_keys_enough (S (scan_left (rs_client s) 0)) 0 [] s) as [res Hres]; [lia|].
  destruct (Redis.scan_keys _ 0 [] s) as [s1 r1] eqn:Hs. simpl in Hres. subst r1.
  injection Hg as <- <-. destruct (scan_keys_drift _ _ _ _ _ _ Hok Hs) as [? ?].
  split_and!; [done..|]. destruct res as [ks|]; [|done]. simpl. rewrite elems_appended.
  destruct (scan_keys_ok _ _ _ _ _ _ Hok Hs) as (_ & Hall & Hback).
  intros k. unfold redis_queued.
  rewrite <-(dom_table _ k (proj2 Hok) (λ k, hash_not_empty (rs_client s) k)). split.
  - intros Hk. destruct (Hback k Hk) as [Hn|?]; [by apply not_elem_of_nil in Hn|done].
  - intros HD. apply Hall; [by apply scan_all|done].
Qed.

(** The Redis storage meets the contract: the engine's theorems hold over it. *)
#[export] Instance RedisStorage_Spec : StorageSpec (RedisStorage R).
Proof.
  refine {| st_ok := redis_ok; queued := redis_queued; st_form := stored_form |}.
  - done.
  - intros s k id m [_ Hok]. by apply ks_table_id.
  - intros range s k s' r Hok Hr Hg. destruct (GetQueue_ok _ _ _ _ _ Hok Hr Hg) as (? & ? & Hl).
    split_and!; [done..|]. destruct r; [by destruct Hl|done].
  - intros range s s' r Hok _. by apply GetKeys_ok.
  - intros s k m s' err Hok Ha. simpl in Ha. unfold Redis.AddMessage in Ha.
    pose proof (encode_decodes m) as Hrt. destruct (encode m) as [b|e].
    + destruct Hrt as [_ Hrt]. rewrite (proj2 (Z.leb_le _ 0) (proj1 Hok)) in Ha.
      eapply exec_table; [done|exact Ha|]. by apply (add_table _ k (stored_form m)), Hrt; apply Hok.
    + injection Ha as <- <-. split; [done|]. by left.
  - intros s k id s' err Hok Hd. eapply exec_table; [done|exact Hd|]. by apply delete_table, Hok.
  - intros s k s' err Hok Hd. eapply exec_table; [done|exact Hd|]. by apply clear_table, Hok.
  - intros notify s k s' err [= <-] Hok Hn. destruct (call_split _ _ _ _ Hn) as [Hp Hk].
    eapply redis_ok_drift; [done|done|]. by eapply publish_law.
  - intros ping s s' err [= <-] Hok Hn. destruct (call_split _ _ _ _ Hn) as [Hp Hk].
    eapply redis_ok_drift; [done|done|]. by eapply ping_law.
Defined.
(** ** Runs of writes *)

(** A call of the engine that changes the storage. *)
Definition redis_write s (o : write) : RedisStorage R * option error :=
  match o with
  | WAdd key m => Redis.AddMessage key m s
  | WDelete key id => Redis.DeleteMessage key id s
  | WClear key => Redis.DeleteQueue key s
  end.

(** The calls of [ops] in order, with what each returned. *)
Fixpoint redis_writes s (ops : list write) : RedisStorage R * list (write * option error) :=
  match ops with
  | [] => (s, [])
  | o :: ops =>
    let '(s, err) := redis_write s o in
    let '(s, log) := redis_writes s ops in (s, (o, err) :: log)
  end.

(** The write of the stored form. *)
Definition in_stored_form (o : write) : write :=
  match o with WAdd key m => WAdd key (stored_form m) | _ => o end.

(** What the log of the calls may have made of a table: a call that reported
    an error was carried out or not. *)
Inductive table_run : list (write * option error) → queues → queues → Prop :=
| table_run_nil q q' : q' ≡ q → table_run [] q q'
| table_run_cons o err log q q1 q2 :
    applied err q (table_step q (in_stored_form o)) q1 → table_run log q1 q2 →
    table_run ((o, err) :: log) q q2.

Lemma redis_write_ok s o s' err :
  redis_ok s → redis_write s o = (s', err) →
  redis_ok s' ∧ applied err (redis_queued s) (table_step (redis_queued s) (in_stored_form o))
                  (redis_queued s').
Proof.
  intros Hok. destruct o as [key m|key id|key]; simpl.
  - exact (AddMessage_spec (S:=RedisStorage R) s key m s' err Hok).
  - exact (DeleteMessage_spec (S:=RedisStorage R) s key id s' err Hok).
  - exact (DeleteQueue_spec (S:=RedisStorage R) s key s' err Hok).
Qed.

Lemma redis_writes_ok ops s s' log :
  redis_ok s → redis_writes s ops = (s', log) →
  redis_ok s' ∧ table_run log (redis_queued s) (redis_queued s').
Proof.
  revert s log. induction ops as [|o ops IH]; intros s log Hok; simpl.
  { intros [= <- <-]. split; [done|]. by constructor. }
  destruct (redis_write s o) as [s1 err] eqn:Hw.
  destruct (redis_writes s1 ops) as [s2 log2] eqn:Hws. intros [= <- <-].
  destruct (redis_write_ok _ _ _ _ Hok Hw) as [Hok1 Ha].
  destruct (IH _ _ Hok1 Hws) as [Hok2 Hr]. split; [done|]. by econstructor.
Qed.

End contract.

(** ** Beyond the contract: foreign entries and times to live *)

Section beyond.
Context {R : Type} `{!RedisServer R, !RedisLaws R}.
Context `{UuidLib, TimeText, TimeParse, JsonText, JsonPrint}.
Implicit Types (s : RedisStorage R).

(** Listing the keys always answers: the iteration ends within the number
    of calls the server announces, so the loop is never cut short. *)
Theorem GetKeys_answers range s :
  ∃ res, (Redis.scan_keys (S (scan_left (rs_client s) 0)) 0 [] s).2 = Some res ∧
         (Redis.GetKeys range s).2 = Redis.as_slice res.
Proof.
  destruct (scan_keys_enough (S (scan_left (rs_client s) 0)) 0 [] s) as [res Hres]; [lia|].
  exists res. split; [done|]. unfold Redis.GetKeys.
  destruct (Redis.scan_keys _ 0 [] s) as [s1 r1]. simpl in Hres. by subst r1.
Qed.

Definition decoded_entry (vals : gmap string string) (f : string) : option Message :=
  v ← vals !! f;
  match decodeMessage v with Ok m => Some m | Err _ => None end.

(** The hash [h] was [vals]; entries that decode are as they were, the others are
    gone unless the call that drops them failed. *)
Definition purged (vals h : gmap string string) (dropped : list string) : Prop :=
  ∀ f, h !! f = vals !! f ∨ (f ∈ dropped ∧ decoded_entry vals f = None ∧ h !! f = None).

Lemma drop_entry qk f s s' err :
  ks_volatile (redis_ks (rs_client s)) = ∅ →
  Redis.call (redis_exec [HDEL qk f]) s = (s', err) →
  let ks := redis_ks (rs_client s) in let ks' := redis_ks (rs_client s') in
  ks_volatile ks' = ∅ ∧ (∀ k, k ≠ qk → hash_at ks' k = hash_at ks k) ∧
  (hash_at ks' qk = delete f (hash_at ks qk) ∨ (is_Some err ∧ hash_at ks' qk = hash_at ks qk)).
Proof.
  intros Hv Hc ks ks'. destruct (call_split _ _ _ _ Hc) as [He _]. apply exec_law in He.
  destruct He as [Hd|[Herr Hd]].
  - destruct (drifts_persistent _ _ (apply_commands_persistent [HDEL qk f] _ Hv
      ltac:(repeat constructor; done)) Hd) as [Hh Hv'].
    split; [done|]. assert (∀ k, hash_at ks' k = hash_at (apply_command (HDEL qk f) ks) k) as Hk
      by (intros k; unfold hash_at; subst ks ks'; by rewrite Hh).
    split; [|left]; intros; rewrite Hk, hash_at_HDEL; [by rewrite decide_False|by rewrite decide_True].
  - destruct (drifts_persistent _ _ Hv Hd) as [Hh Hv']. unfold hash_at. subst ks ks'. rewrite Hh.
    auto.
Qed.

Lemma read_entries_purge qk fields vals queue s s' l :
  ks_volatile (redis_ks (rs_client s)) = ∅ →
  Redis.read_entries qk fields vals queue s = (s', l) →
  let ks := redis_ks (rs_client s) in let ks' := redis_ks (rs_client s') in
  (∀ f, f ∈ fields → is_Some (vals !! f)) →
  l = queue ++ omap (decoded_entry vals) fields ∧
  (∀ k, k ≠ qk → hash_at ks' k = hash_at ks k) ∧
  (∀ f, hash_at ks' qk !! f = hash_at ks qk !! f ∨
        (f ∈ fields ∧ decoded_entry vals f = None ∧ hash_at ks' qk !! f = None)).
Proof.
  revert queue s. induction fields as [|f fields IH]; intros queue s Hv; simpl.
  { intros [= <- <-] _. split_and!; [by rewrite app_nil_r|done|by left]. }
  intros Hr Hin. destruct (Hin f) as [v Hf]; [by left|]. rewrite Hf in Hr. simpl in Hr.
  assert (∀ f, f ∈ fields → is_Some (vals !! f)) as Hin' by (intros g Hg; apply Hin; by right).
  unfold decoded_entry at 1. rewrite Hf. cbn [mbind option_bind].
  destruct (decodeMessage v) as [m|e] eqn:Hm.
  - destruct (IH _ _ Hv Hr Hin') as (-> & Hk & Hh). split_and!; [by rewrite <-(assoc_L (++))|done|].
    intros g. destruct (Hh g) as [?|(? & ? & ?)]; [by left|right; split_and!; [by right|done..]].
  - destruct (Redis.call _ s) as [s1 err] eqn:Hc.
    destruct (drop_entry _ _ _ _ _ Hv Hc) as (Hv1 & Hk1 & Hh1).
    destruct (IH _ _ Hv1 Hr Hin') as (-> & Hk & Hh). split_and!; [done| |].
    + intros k Hne. by rewrite Hk, Hk1.
    + assert (decoded_entry vals f = None) as Hd by (unfold decoded_entry; by rewrite Hf; simpl; rewrite Hm).
      intros g. destruct (Hh g) as [Hg|(? & ? & ?)];
        [|right; split_and!; [by right|done..]]. rewrite Hg.
      destruct Hh1 as [Hh1|[_ Hh1]]; rewrite Hh1; [|by left].
      destruct (decide (g = f)) as [->|Hne].
      * right. split_and!; [by left|done|by rewrite lookup_delete_eq].
      * left. by rewrite lookup_delete_ne.
Qed.


(** With a time to live configured, a message the server accepted is either
    readable on a key that has a time to live, or gone with its key: no queue
    outlives its time to live for lack of one. *)
Theorem ttl_backstop key m s s' b :
  0 < rs_keyTTL s → encode m = Ok b → Redis.AddMessage key m s = (s', None) →
  let ks' := redis_ks (rs_client s') in
  ks_hash ks' !! queueKey key = None ∨
  (queueKey key ∈ ks_volatile ks' ∧ hash_at ks' (queueKey key) !! uuid_String (m_id m) = Some b).
Proof.
  intros Ht Hb Ha ks'. unfold Redis.AddMessage in Ha. rewrite Hb in Ha.
  rewrite (proj2 (Z.leb_gt _ _) Ht) in Ha. destruct (call_split _ _ _ _ Ha) as [He _].
  apply exec_law in He as [(Hh & _ & Hvol)|[[? [=]] _]]. subst ks'.
  set (qk := queueKey key) in *. specialize (Hh qk). specialize (Hvol qk).
  assert (apply_commands [HSET qk (uuid_String (m_id m)) b; EXPIRE qk (rs_keyTTL s)]
      (redis_ks (rs_client s)) =
    let ks := redis_ks (rs_client s) in
    Keyspace (<[qk := <[uuid_String (m_id m) := b]> (hash_at ks qk)]> (ks_hash ks))
             ({[qk]} ∪ ks_volatile ks)) as Heq.
  { unfold apply_commands. simpl. rewrite lookup_insert_eq.
    by rewrite (proj2 (Z.leb_gt _ _) Ht). }
  rewrite Heq in Hh, Hvol. cbn [ks_hash ks_volatile] in Hh, Hvol.
  rewrite lookup_insert_eq in Hh.
  destruct Hvol as [Hvol|Hgone]; [set_solver| |by left].
  destruct Hh as [Hh|[_ Hh]]; [|by left]. right. split; [done|].
  unfold hash_at. rewrite Hh. simpl. by rewrite lookup_insert_eq.
Qed.
End beyond.
