(* ===== verification/SampleRedis.v ===== *)
(** * A concrete Redis server

    A server that never fails, keeps its keyspace as it is until a command
    changes it and answers SCAN in one batch.  It satisfies [RedisLaws], and the
    witnesses of the theorems on the Redis storage run against it. *)
From stdpp Require Import base numbers list gmap strings sorting.
From S2P Require Import Prelude GoStd GoTime Utf8 Json JsonCodec Const Message Stored SampleText.
From S2P Require Import Storage RedisServer RedisStorage.

#[local] Open Scope Z_scope.

Module SampleRedis.

(** The keyspace without empty hashes. *)
Definition pruned (ks : keyspace) : keyspace :=
  Keyspace (filter (λ kh, kh.2 ≠ ∅) (ks_hash ks)) (ks_volatile ks).

(** The prefix of a pattern that ends with a star. *)
Definition pattern_prefix (p : string) : string := str_take (String.length p - 1) p.

Definition scan (p : string) (ks : keyspace) : list string :=
  filter (λ k, String.prefix (pattern_prefix p) k = true) (elements (dom (ks_hash (pruned ks)))).

#[export] Instance server : RedisServer keyspace := {|
  redis_exec := λ cs ks, (apply_commands cs (pruned ks), None);
  redis_hgetall := λ key ks, (ks, Ok (hash_at (pruned ks) key));
  redis_scan := λ _ p ks, (ks, Ok (scan p ks, 0));
  redis_ping := λ ks, (ks, None);
  redis_publish := λ _ _ ks, (ks, None);
  scan_left := λ _ _, 0%nat;
|}.

Lemma pruned_not_empty ks k : ks_hash (pruned ks) !! k ≠ Some ∅.
Proof. simpl. intros [_ Hne]%map_lookup_filter_Some. by apply Hne. Qed.

Lemma pruned_id ks : (∀ k, ks_hash ks !! k ≠ Some ∅) → pruned ks = ks.
Proof.
  destruct ks as [h v]. intros Hne. unfold pruned. simpl in *. f_equal.
  apply map_filter_id. intros k x Hx. cbn. intros ->. by eapply Hne.
Qed.

Lemma apply_not_empty c ks :
  (∀ k, ks_hash ks !! k ≠ Some ∅) → ∀ k, ks_hash (apply_command c ks) !! k ≠ Some ∅.
Proof.
  intros Hne k. destruct c as [key f v|key f|key|key ttl]; simpl.
  - rewrite lookup_insert_Some. intros [[_ He]|[_ He]]; [|by eapply Hne].
    by apply insert_non_empty in He.
  - destruct (ks_hash ks !! key) as [h|]; [|apply Hne].
    case_decide as Hd; simpl.
    + rewrite lookup_delete_Some. intros [_ He]. by eapply Hne.
    + rewrite lookup_insert_Some. intros [[_ He]|[_ He]]; [done|by eapply Hne].
  - rewrite lookup_delete_Some. intros [_ He]. by eapply Hne.
  - destruct (ks_hash ks !! key); [|apply Hne]. destruct (ttl <=? 0); [|apply Hne]. simpl.
    rewrite lookup_delete_Some. intros [_ He]. by eapply Hne.
Qed.

Lemma applied_not_empty cs ks :
  (∀ k, ks_hash ks !! k ≠ Some ∅) → ∀ k, ks_hash (apply_commands cs ks) !! k ≠ Some ∅.
Proof.
  revert ks. induction cs as [|c cs IH]; intros ks Hne; [done|].
  apply (IH (apply_command c ks)). by apply apply_not_empty.
Qed.

Lemma pattern_prefix_star p : pattern_prefix (String.append p "*") = p.
Proof.
  unfold pattern_prefix. assert (∀ t, str_take (String.length p) (String.append p t) = p) as Ht.
  { induction p as [|c p IH]; intros t; [by destruct t|].
    change (String c (str_take (String.length p) (String.append p t)) = String c p).
    by rewrite IH. }
  assert (String.length (String.append p "*") - 1 = String.length p)%nat as ->; [|done].
  clear Ht. induction p as [|c p IH]; [done|].
  change (S (String.length (String.append p "*")) - 1 = S (String.length p))%nat.
  assert (1 ≤ String.length (String.append p "*"))%nat; [|lia].
  destruct p; simpl; lia.
Qed.

#[export] Instance laws : RedisLaws keyspace.
Proof.
  refine {| redis_ks := pruned; scan_rest := λ r _, dom (ks_hash (pruned r)) |}.
  - apply pruned_not_empty.
  - intros cs r r' err [= <- <-]. left.
    rewrite (pruned_id (apply_commands cs (pruned r))); [reflexivity|].
    apply applied_not_empty, pruned_not_empty.
  - intros key r r' res [= <- <-]. by split.
  - done.
  - intros cursor p r r' res Hp [= <- <-]. split; [done|]. unfold scan.
    rewrite pattern_prefix_star. split_and!; [..|done].
    + intros k. rewrite list_elem_of_filter, elem_of_elements. tauto.
    + intros k _ Hk Hpre. left. by rewrite list_elem_of_filter, elem_of_elements.
  - intros r r' err [= <- <-]. done.
  - intros chan s r r' err [= <- <-]. done.
Defined.

End SampleRedis.

(** ** Witnesses *)

Import SampleText SampleRedis.

Definition sample_storage (ttl : Z) : RedisStorage keyspace :=
  MkRedisStorage (Keyspace ∅ ∅) ttl.

Lemma sample_ok : redis_ok (sample_storage 0).
Proof.
  split; [done|]. split; [done|]. intros k. unfold hash_at. simpl.
  rewrite map_filter_empty, lookup_empty. apply map_Forall_empty.
Qed.

Definition sample_ops : list write := [WAdd "k" Sample.message; WDelete "other" Sample.id].


(** A queue with a foreign entry. *)
Definition poisoned : RedisStorage keyspace :=
  MkRedisStorage (Keyspace {[ queueKey "k" := {[ "id" := "not a document" ]} ]} ∅) 0.


Lemma ttl_backstop_witness :
  ∃ s' b, encode Sample.message = Ok b ∧
  let ks' := redis_ks (rs_client s') in
  ks_hash ks' !! queueKey "k" = None ∨
  (queueKey "k" ∈ ks_volatile ks' ∧
   hash_at ks' (queueKey "k") !! uuid_String (m_id Sample.message) = Some b).
Proof.
  destruct (encode Sample.message) as [b|] eqn:Hb; [|vm_compute in Hb; discriminate].
  destruct (Redis.AddMessage "k" Sample.message (sample_storage 60)) as [s' err] eqn:Ha.
  assert (err = None) as ->.
  { unfold Redis.AddMessage in Ha. rewrite Hb in Ha. by injection Ha. }
  exists s', b. split; [reflexivity|].
  apply (ttl_backstop "k" Sample.message (sample_storage 60) s' b); [done|exact Hb|exact Ha].
Defined.

Lemma GetKeys_answers_witness :
  ∃ res, (Redis.scan_keys (S (scan_left (rs_client poisoned) 0)) 0 [] poisoned).2 = Some res ∧
         (Redis.GetKeys elements poisoned).2 = Redis.as_slice res.
Proof. apply (GetKeys_answers elements poisoned). Defined.

Lemma stored_round_trip_witness :
  ∃ b, encode Sample.message = Ok b ∧ storable Sample.message = true ∧
    ∃ m', decodeMessage b = Ok m' ∧
      m_id m' = m_id Sample.message ∧ m_date m' = m_date Sample.message ∧ m_Keys m' = [] ∧
      m_Key m' = utf8_clean (m_Key Sample.message) ∧
      m_Expire m' = utf8_clean (m_Expire Sample.message) ∧
      (valid_json (m_Value Sample.message) = true → distinct_json (m_Value Sample.message) = true →
       marshal m' false = marshal Sample.message false).
Proof.
  pose proof (stored_round_trip Sample.message) as Hr.
  destruct (encode Sample.message) as [b|] eqn:Hb; [|vm_compute in Hb; discriminate].
  exists b. split; [reflexivity|exact Hr].
Defined.
