(* ===== verification/Client.v ===== *)
(** * Websocket connections ([src/src/client.go])

    One record per connection.  The network below it is outside the
    repository: a write succeeds or fails as the environment decides, so the
    frame writers take the outcome as an argument, and [c_out] records the
    frames that went out.  Each operation is one critical section of the
    connection's [imu] or [wmu] mutex. *)
From stdpp Require Import base numbers list gmap strings.
From S2P Require Import Prelude GoStd GoTime Json Message.

(** ** The state *)

Inductive frame := FText (data : json) | FPing | FPong (payload : string).

Record client := MkClient {
  c_keys : list string;
  c_writeTimeout : Z;
  c_compress : bool;
  c_inflight : gmap uuid string;
  c_closed : bool;
  c_out : list frame;
}.

Definition newClient (keys : list string) (writeTimeout : Z) (compress : bool) : client :=
  MkClient keys writeTimeout compress ∅ false [].

Definition set_inflight (c : client) (i : gmap uuid string) : client :=
  MkClient (c_keys c) (c_writeTimeout c) (c_compress c) i (c_closed c) (c_out c).

(** ** Operations *)

(** A frame write: with a positive timeout the deadline of the connection is
    set first, which only matters to the network.  A closed connection refuses
    every write. *)
Definition write_frame (c : client) (f : frame) (net_ok : bool) : client * option error :=
  if net_ok && negb (c_closed c)
  then (MkClient (c_keys c) (c_writeTimeout c) (c_compress c) (c_inflight c) (c_closed c)
                 (c_out c ++ [f]), None)
  else (c, Some (Error "write failed")).

Definition writeMessage (c : client) (data : json) (net_ok : bool) : client * option error :=
  write_frame c (FText data) net_ok.
Definition writePing (c : client) (net_ok : bool) : client * option error :=
  write_frame c FPing net_ok.
Definition writePong (c : client) (payload : string) (net_ok : bool) : client * option error :=
  write_frame c (FPong payload) net_ok.

Definition markInflight (c : client) (id : uuid) (key : string) : client * bool :=
  if c_closed c then (c, false) else
  match c_inflight c !! id with
  | Some _ => (c, false)
  | None => (set_inflight c (<[id := key]> (c_inflight c)), true)
  end.

Definition takeInflight (c : client) (id : uuid) : client * option string :=
  match c_inflight c !! id with
  | Some key => (set_inflight c (delete id (c_inflight c)), Some key)
  | None => (c, None)
  end.

Definition clearInflight (c : client) (id : uuid) : client :=
  set_inflight c (delete id (c_inflight c)).

(** [closed], the [done] channel and the connection are closed together, once. *)
Definition close (c : client) : client :=
  if c_closed c then c else
  MkClient (c_keys c) (c_writeTimeout c) (c_compress c) (c_inflight c) true (c_out c).
