(* ===== verification/Http.v ===== *)
(** * HTTP requests and responses

    What the handlers read of an [http.Request] and what they write to an
    [http.ResponseWriter].  The request arrives parsed by [net/http] and
    [net/url]: its query as a list of parameters, its headers under canonical
    names, its Basic Auth credentials decoded. *)
From stdpp Require Import base numbers list strings.
From S2P Require Import Prelude GoStd Json.

#[local] Open Scope Z_scope.

Record Request := MkRequest {
  r_Method : string;
  r_Path : string;
  r_Query : list (string * string);
  r_Header : list (string * string);
  r_BasicAuth : option (string * string);
  r_RemoteAddr : string;
  r_Body : string;
}.

(** The first value under a name, the empty string when there is none: [Get] of
    [url.Values] and of [http.Header]. *)
Fixpoint values_Get (l : list (string * string)) (k : string) : string :=
  match l with
  | [] => EmptyString
  | (k', v) :: l => if decide (k' = k) then v else values_Get l k
  end.

(** [q.Has(k)] *)
Definition values_Has (l : list (string * string)) (k : string) : bool :=
  bool_decide (k ∈ l.*1).

Definition query_Get (r : Request) : string → string := values_Get (r_Query r).
Definition query_Has (r : Request) : string → bool := values_Has (r_Query r).
Definition header_Get (r : Request) : string → string := values_Get (r_Header r).

(** [io.ReadAll] of a body wrapped in [http.MaxBytesReader]. *)
Definition ReadAll_MaxBytes (body : string) (limit : Z) : result string :=
  if limit <? str_len body then Err (Error "http: request body too large") else Ok body.

(** ** Status codes *)

Definition StatusOK : Z := 200.
Definition StatusAccepted : Z := 202.
Definition StatusBadRequest : Z := 400.
Definition StatusUnauthorized : Z := 401.
Definition StatusForbidden : Z := 403.
Definition StatusNotFound : Z := 404.
Definition StatusMethodNotAllowed : Z := 405.
Definition StatusTooManyRequests : Z := 429.
Definition StatusInternalServerError : Z := 500.
Definition StatusServiceUnavailable : Z := 503.
(** The connection is handed over to the websocket protocol. *)
Definition StatusSwitchingProtocols : Z := 101.

(** ** Responses *)

Inductive body := NoBody | JsonBody (j : json) | TextBody (s : string).

(** A handler either responds or panics; [net/http] then drops the connection
    without a response. *)
Inductive response := Response (status : Z) (b : body) | Aborted.

Definition status_only (status : Z) : response := Response status NoBody.
