(* ===== verification/RateLimit.v ===== *)
(** * Rate limiting ([src/src/ratelimit.go])

    One token bucket per client address, in float64 arithmetic, under one
    mutex. *)
From stdpp Require Import base numbers list gmap strings.
From Corelib Require Import SpecFloat.
From S2P Require Import Prelude GoStd GoTime GoStrings Const Config Http.

#[local] Open Scope Z_scope.

(** ** The state *)

Record bucket := Bucket { b_tokens : float64; b_last : Z }.

Record rateLimiter := RateLimiter {
  rl_rate : float64;
  rl_burst : float64;
  rl_buckets : gmap string bucket;
  rl_ops : Z;
  rl_purgeEvr : Z;
}.

Definition f64_one : float64 := f64_of_Z 1.

Definition newRateLimiter (rate : float64) (burst : Z) : rateLimiter :=
  let b := f64_of_Z burst in
  let b := if f64_ltb b f64_one then f64_one else b in
  RateLimiter rate b ∅ 0 1024.

(** [cfg.RateLimit > 0]: otherwise [Start] leaves the limiter nil. *)
Definition limiter_on (cfg : Config) : bool := f64_ltb (f64_of_Z 0) (RateLimit cfg).

(** ** Operations *)

(** [b.tokens + now.Sub(b.last).Seconds()*rl.rate] *)
Definition refill (rl : rateLimiter) (b : bucket) (now : Z) : float64 :=
  f64_add (b_tokens b) (f64_mul (Seconds (time_Sub now (b_last b))) (rl_rate rl)).

(** The loop of [purge] keeps a bucket unless it has refilled; every bucket is
    treated on its own. *)
Definition purge_keep (rl : rateLimiter) (now : Z) (b : bucket) : option bucket :=
  if f64_leb (rl_burst rl) (refill rl b now) then None else Some b.

Definition rl_purge (rl : rateLimiter) (now : Z) : rateLimiter :=
  RateLimiter (rl_rate rl) (rl_burst rl) (omap (purge_keep rl now) (rl_buckets rl))
              (rl_ops rl) (rl_purgeEvr rl).

(** The bucket of a key at [now], created full or refilled up to the burst. *)
Definition current_bucket (rl : rateLimiter) (key : string) (now : Z) : bucket :=
  match rl_buckets rl !! key with
  | None => Bucket (rl_burst rl) now
  | Some b =>
    let t := refill rl b now in
    let t := if f64_ltb (rl_burst rl) t then rl_burst rl else t in
    Bucket t now
  end.

(** [rl.Allow(key)] with the clock reading taken before the lock. *)
Definition Allow (key : string) (now : Z) (rl : rateLimiter) : rateLimiter * bool :=
  let ops := wrap64 (rl_ops rl + 1) in
  let rl := RateLimiter (rl_rate rl) (rl_burst rl) (rl_buckets rl) ops (rl_purgeEvr rl) in
  let rl := if Z.rem ops (rl_purgeEvr rl) =? 0 then rl_purge rl now else rl in
  let b := current_bucket rl key now in
  let '(b, ok) :=
    if f64_leb f64_one (b_tokens b)
    then (Bucket (f64_sub (b_tokens b) f64_one) (b_last b), true) else (b, false) in
  (RateLimiter (rl_rate rl) (rl_burst rl) (<[key := b]> (rl_buckets rl)) ops (rl_purgeEvr rl), ok).

(** ** The client address *)

Section clientIP.
(** [net.SplitHostPort]: the host part, or an error. *)
Context (SplitHostPort : string → result string).

Definition clientIP (cfg : Config) (r : Request) : string :=
  let remote :=
    match SplitHostPort (r_RemoteAddr r) with
    | Err _ => r_RemoteAddr r
    | Ok host => host
    end in
  if TrustProxyHeaders cfg then
    let xff := header_Get r "X-Forwarded-For" in
    if negb (bool_decide (xff = EMPTY_STR)) then
      match IndexByte xff ","%char with
      | Some i => TrimSpace (str_take i xff)
      | None => TrimSpace xff
      end
    else
      let xr := header_Get r "X-Real-Ip" in
      if negb (bool_decide (xr = EMPTY_STR)) then TrimSpace xr else remote
  else remote.
End clientIP.

Section purge.
Context (rl : rateLimiter) (now : Z).

(** The bucket of [key] may be forgotten: it has refilled to the burst. *)
Definition refilled (key : string) : Prop :=
  ∃ b, rl_buckets rl !! key = Some b ∧ f64_leb (rl_burst rl) (refill rl b now) = true.

Lemma rl_purge_bucket key :
  rl_buckets (rl_purge rl now) !! key = rl_buckets rl !! key ∨
  rl_buckets (rl_purge rl now) !! key = None ∧ refilled key.
Proof.
  simpl. rewrite lookup_omap. destruct (rl_buckets rl !! key) as [b|] eqn:Hb; [|by left].
  simpl. unfold purge_keep.
  destruct (f64_leb (rl_burst rl) (refill rl b now)) eqn:Hf; [|by left].
  right. split; [done|]. by exists b.
Qed.
End purge.

(** A request is admitted exactly when its own bucket, refilled, holds a whole
    token (or was forgotten because it is full); it then costs one token.  The
    budget of every other address is left alone, up to forgetting a bucket
    that has refilled. *)
Theorem Allow_spec key now rl :
  let '(after, ok) := Allow key now rl in
  (∃ b, (b = current_bucket rl key now ∨
         (b = Bucket (rl_burst rl) now ∧ refilled rl now key)) ∧
     ok = f64_leb f64_one (b_tokens b) ∧
     rl_buckets after !! key =
       Some (if ok then Bucket (f64_sub (b_tokens b) f64_one) (b_last b) else b)) ∧
  (∀ key', key' ≠ key →
     rl_buckets after !! key' = rl_buckets rl !! key' ∨
     rl_buckets after !! key' = None ∧ refilled rl now key') ∧
  rl_rate after = rl_rate rl ∧ rl_burst after = rl_burst rl.
Proof.
  unfold Allow. cbv zeta. set (ops := wrap64 (rl_ops rl + 1)).
  set (rl1 := RateLimiter (rl_rate rl) (rl_burst rl) (rl_buckets rl) ops (rl_purgeEvr rl)).
  set (rl2 := if Z.rem ops (rl_purgeEvr rl1) =? 0 then rl_purge rl1 now else rl1).
  assert (∀ k, rl_buckets rl2 !! k = rl_buckets rl !! k ∨
    rl_buckets rl2 !! k = None ∧ refilled rl now k) as Hpurge.
  { intros k. subst rl2. destruct (_ =? 0); [|by left]. apply (rl_purge_bucket rl1 now k). }
  assert (rl_rate rl2 = rl_rate rl ∧ rl_burst rl2 = rl_burst rl) as [Hr Hb]
    by (subst rl2; by destruct (_ =? 0)).
  assert (current_bucket rl2 key now = current_bucket rl key now ∨
    (current_bucket rl2 key now = Bucket (rl_burst rl) now ∧ refilled rl now key)) as Hcur.
  { unfold current_bucket. destruct (Hpurge key) as [-> |[-> Hf]]; [|right; by rewrite Hb].
    left. destruct (rl_buckets rl !! key) as [b|]; [|by rewrite Hb].
    unfold refill. by rewrite Hr, Hb. }
  set (b := current_bucket rl2 key now) in *.
  destruct (f64_leb f64_one (b_tokens b)) eqn:Hok; simpl;
    (split; [exists b; rewrite lookup_insert_eq; auto|]);
    (split; [intros k Hne; rewrite lookup_insert_ne by done; apply Hpurge|done]).
Qed.
