(* ===== verification/Limiter.v ===== *)
(** * The rate limiter over time ([src/src/ratelimit.go])

    [RateLimit] says what one call does.  Here a limiter answers a sequence of
    calls, in the order of their clock readings, and is compared with one token
    bucket per client that is never forgotten ([bucket_run]). *)
From stdpp Require Import base numbers list gmap strings.
From Stdlib Require Import QArith.
From Corelib Require Import SpecFloat.
From S2P Require Import Prelude GoTime Float64 RateLimit.

#[local] Open Scope Z_scope.

(** ** Sequences of calls *)

(** The calls [(key, now)] one after the other: the verdicts, and the limiter
    they leave. *)
Fixpoint limiter_run (rl : rateLimiter) (calls : list (string * Z)) : list bool :=
  match calls with
  | [] => []
  | (key, now) :: calls =>
    let '(rl, ok) := Allow key now rl in ok :: limiter_run rl calls
  end.

Fixpoint limiter_after (rl : rateLimiter) (calls : list (string * Z)) : rateLimiter :=
  match calls with
  | [] => rl
  | (key, now) :: calls => limiter_after (Allow key now rl).1 calls
  end.

(** The entries of [key]. *)
Definition of_key {A} (key : string) (l : list (string * A)) : list A :=
  omap (λ '(k, x), if decide (k = key) then Some x else None) l.

(** The verdicts on the calls of [key]. *)
Definition verdicts (key : string) (calls : list (string * Z)) (rl : rateLimiter) : list bool :=
  of_key key (zip calls.*1 (limiter_run rl calls)).

(** Clock readings in the order of the calls. *)
Definition in_order (times : list Z) : Prop := StronglySorted Z.le times.

(** ** A bucket of its own *)

Section bucket.
Context (rate burst : float64).

(** The tokens of [b] at [now], before the cap. *)
Definition grown (b : bucket) (now : Z) : float64 :=
  f64_add (b_tokens b) (f64_mul (Seconds (time_Sub now (b_last b))) rate).

Definition bucket_at (ob : option bucket) (now : Z) : bucket :=
  match ob with
  | None => Bucket burst now
  | Some b => Bucket (if f64_ltb burst (grown b now) then burst else grown b now) now
  end.

Definition bucket_call (ob : option bucket) (now : Z) : bucket * bool :=
  let b := bucket_at ob now in
  if f64_leb f64_one (b_tokens b)
  then (Bucket (f64_sub (b_tokens b) f64_one) (b_last b), true) else (b, false).

Fixpoint bucket_run (ob : option bucket) (times : list Z) : list bool :=
  match times with
  | [] => []
  | now :: times => let '(b, ok) := bucket_call ob now in ok :: bucket_run (Some b) times
  end.

(** *** Its invariant *)

Definition wf_bucket (b : bucket) : Prop :=
  nonneg (b_tokens b) ∧ fval (b_tokens b) ≤ fval burst.

Context (Hrate : nonneg rate) (Frate : finite rate).
Context (Hburst : nonneg burst) (Fburst : finite burst) (Hone : unit ≤ fval burst).

Lemma one_spec : nonneg f64_one ∧ finite f64_one ∧ fval f64_one = unit.
Proof. unfold f64_one. destruct (f64_of_Z_exact 1) as (? & ? & ?); [lia|]. split_and!; [done..|lia]. Qed.

Lemma wf_finite b : wf_bucket b → finite (b_tokens b).
Proof. intros [H1 H2]. by apply (finite_below _ burst). Qed.

(** What a wait earns. *)
Abbreviation earned b now := (f64_mul (Seconds (time_Sub now (b_last b))) rate).

Lemma time_Sub_ordered t t' : t ≤ t' → 0 ≤ time_Sub t' t ≤ max_int64 ∧ time_Sub t' t ≤ t' - t.
Proof. intros Ht. unfold time_Sub, min_int64, max_int64, two63. lia. Qed.

Lemma earned_spec b now :
  b_last b ≤ now →
  rounds_to (fval (Seconds (time_Sub now (b_last b))) * fval rate) 1 (earned b now).
Proof.
  intros Hle. destruct (time_Sub_ordered (b_last b) now Hle) as [Hd _].
  destruct (Seconds_spec _ Hd) as (Hs & Fs & _). apply f64_mul_spec; [apply Hs|done..].
Qed.

Lemma infinite x : nonneg x → ¬ finite x → x = S754_infinity false.
Proof. destruct x as [s|s| |s m e]; simpl; try done. intros ->. done. Qed.

(** Adding to a finite number, also what is infinite. *)
Lemma add_cases t x :
  nonneg t → finite t → nonneg x →
  rounds_to ((fval t + fval x) * unit) 1 (f64_add t x) ∧ finite x ∨
  f64_add t x = S754_infinity false ∧ fval x = top.
Proof.
  intros Ht Ft Hx. destruct x as [s|s| |s m e] eqn:E; try done;
    [left|right|left]; try (split; [by apply f64_add_spec|done]).
  simpl in Hx. subst. by destruct t as [[]| | |].
Qed.

Lemma add_nonneg t x : nonneg t → finite t → nonneg x → nonneg (f64_add t x).
Proof. intros Ht Ft Hx. by destruct (add_cases t x Ht Ft Hx) as [[[? _] _]|[-> _]]. Qed.

Lemma fval_le_top x : nonneg x → fval x ≤ top.
Proof.
  destruct x as [s|s| |s m e]; simpl; try done. intros [-> Hb].
  pose proof (fval_finite_bounds m e Hb) as H. simpl in H. lia.
Qed.

Lemma add_mono t x x' :
  nonneg t → finite t → nonneg x → nonneg x' → fval x ≤ fval x' →
  fval (f64_add t x) ≤ fval (f64_add t x').
Proof.
  intros Ht Ft Hx Hx' Hle. pose proof unit_pos. pose proof (fval_nonneg t). pose proof (fval_nonneg x).
  destruct (add_cases t x' Ht Ft Hx') as [[Hr' Fx']|[-> _]];
    [|by apply fval_le_top, add_nonneg].
  destruct (add_cases t x Ht Ft Hx) as [[Hr Fx]|[-> Htop]].
  - eapply rounds_to_mono; [| | |exact Hr|exact Hr'|]; [done|done|nia|nia].
  - apply fval_finite in Fx'; [lia|done].
Qed.

Lemma add_above t x y :
  nonneg t → finite t → nonneg x → nonneg y → finite y → fval y ≤ fval t + fval x →
  fval y ≤ fval (f64_add t x).
Proof.
  intros Ht Ft Hx Hy Fy Hle. pose proof unit_pos.
  destruct (add_cases t x Ht Ft Hx) as [[Hr _]|[-> _]]; [|by apply fval_le_top].
  eapply rounds_to_ge; [|exact Hr|done|done|]; [done|nia].
Qed.

Lemma grown_nonneg b now : wf_bucket b → b_last b ≤ now → nonneg (grown b now).
Proof. intros Hb Hle. apply add_nonneg; [apply Hb|by apply wf_finite|by apply earned_spec]. Qed.

Lemma grown_mono b now now' :
  wf_bucket b → b_last b ≤ now → now ≤ now' → fval (grown b now) ≤ fval (grown b now').
Proof.
  intros Hb Hle Hle'. pose proof (earned_spec b now Hle) as He.
  pose proof (earned_spec b now' ltac:(lia)) as He'.
  destruct (time_Sub_ordered (b_last b) now Hle) as [Hd _].
  destruct (time_Sub_ordered (b_last b) now' ltac:(lia)) as [Hd' _].
  apply add_mono; [apply Hb|by apply wf_finite|apply He|apply He'|].
  pose proof (fval_nonneg rate). pose proof (fval_nonneg (Seconds (time_Sub now (b_last b)))).
  eapply rounds_to_mono; [| | |exact He|exact He'|]; [done|done|nia|]. rewrite !Z.mul_1_r.
  apply Z.mul_le_mono_nonneg_r; [done|]. apply Seconds_mono; [|lia].
  unfold time_Sub in *. lia.
Qed.

(** The bucket a call finds: what it had and earned, up to the burst. *)
Lemma bucket_at_spec b now :
  wf_bucket b → b_last b ≤ now →
  wf_bucket (bucket_at (Some b) now) ∧
  fval (b_tokens (bucket_at (Some b) now)) = Z.min (fval burst) (fval (grown b now)).
Proof.
  intros Hb Hle. pose proof (grown_nonneg b now Hb Hle) as Hg. unfold wf_bucket. simpl.
  rewrite f64_ltb_spec by done. destruct (Z.ltb_spec (fval burst) (fval (grown b now))).
  - split; [done|lia].
  - split; [split; [done|lia]|lia].
Qed.

Lemma bucket_fresh now : wf_bucket (bucket_at None now).
Proof. by split. Qed.

(** A call takes a token when there is a whole one. *)
Lemma bucket_call_spec ob now :
  wf_bucket (bucket_at ob now) →
  let '(b, ok) := bucket_call ob now in
  wf_bucket b ∧ b_last b = b_last (bucket_at ob now) ∧
  ok = (unit <=? fval (b_tokens (bucket_at ob now))) ∧
  if ok then rounds_to ((fval (b_tokens (bucket_at ob now)) - unit) * unit) 1 (b_tokens b)
  else b = bucket_at ob now.
Proof.
  intros Hb. unfold bucket_call. destruct one_spec as (N1 & F1 & E1).
  rewrite f64_leb_spec, E1 by (done || apply Hb).
  destruct (Z.leb_spec unit (fval (b_tokens (bucket_at ob now)))) as [Hle|]; [|done].
  pose proof (f64_sub_spec (b_tokens (bucket_at ob now)) f64_one) as Hs. rewrite E1 in Hs.
  specialize (Hs (proj1 Hb) N1 (wf_finite _ Hb) F1 Hle). split_and!; try done.
  split; [apply Hs|]. pose proof unit_pos. simpl.
  eapply rounds_to_le; [| |exact Hs|done|done|]; [done|nia|]. destruct Hb as [_ Hb]. nia.
Qed.

Lemma bucket_call_wf ob now :
  wf_bucket (bucket_at ob now) → wf_bucket (bucket_call ob now).1.
Proof.
  intros Hb. pose proof (bucket_call_spec ob now Hb) as H. destruct (bucket_call ob now). apply H.
Qed.

Lemma bucket_call_last ob now : b_last (bucket_call ob now).1 = now.
Proof. unfold bucket_call. destruct (f64_leb _ _); by destruct ob. Qed.

Lemma fval_inj x y : nonneg x → nonneg y → fval x = fval y → x = y.
Proof.
  intros Hx Hy He. destruct x as [s|s| |s m e]; try done; destruct y as [s'|s'| |s' m' e']; try done;
    simpl in Hx, Hy; destruct_and?; subst; try done;
    try (pose proof (fval_finite_bounds m e ltac:(done)); simpl in *; lia);
    try (pose proof (fval_finite_bounds m' e' ltac:(done)); simpl in *; lia).
  simpl in He. destruct (Z.lt_trichotomy e e') as [Hlt|[->|Hgt]].
  - pose proof (fval_exponent m e m' e'). naive_solver lia.
  - apply Z.mul_reg_r in He; [by injection He as ->|].
    pose proof (pow2_pos (e' + 1074)). assert (-1074 ≤ e') by (by eapply bounded_facts). lia.
  - pose proof (fval_exponent m' e' m e). naive_solver lia.
Qed.

(** A bucket that has refilled is as good as none. *)
Lemma bucket_at_refilled b t now :
  wf_bucket b → b_last b ≤ t → t ≤ now → fval burst ≤ fval (grown b t) →
  bucket_at (Some b) now = bucket_at None now.
Proof.
  intros Hb Ht Hle Hfull. pose proof (grown_mono b t now Hb Ht Hle).
  destruct (bucket_at_spec b now Hb ltac:(lia)) as [[Hn _] Hv]. simpl in *. f_equal.
  apply fval_inj; [done|done|lia].
Qed.
End bucket.

(** ** The limiter against its buckets *)

Section per_client.
Context (rate burst : float64).
Context (Hrate : nonneg rate) (Frate : finite rate).
Context (Hburst : nonneg burst) (Fburst : finite burst) (Hone : unit ≤ fval burst).

(** The limiter holds the bucket of [key], or has forgotten it since it
    refilled. *)
Definition tracks (rl : rateLimiter) (t : Z) (key : string) (ob : option bucket) : Prop :=
  (∀ b, ob = Some b → wf_bucket burst b ∧ b_last b ≤ t) ∧
  (rl_buckets rl !! key = ob ∨
   rl_buckets rl !! key = None ∧
   ∃ b t0, ob = Some b ∧ b_last b ≤ t0 ≤ t ∧ fval burst ≤ fval (grown rate b t0)).

Definition set_up (rl : rateLimiter) : Prop := rl_rate rl = rate ∧ rl_burst rl = burst.

Lemma tracks_later rl t t' key ob : tracks rl t key ob → t ≤ t' → tracks rl t' key ob.
Proof.
  intros [Hwf Ht] Hle. split.
  - intros b Hb. destruct (Hwf b Hb). split; [done|lia].
  - destruct Ht as [?|(? & b & t0 & ? & ? & ?)]; [by left|right].
    split; [done|]. exists b, t0. split_and!; [done|lia..|done].
Qed.

Lemma tracks_bucket rl t key ob :
  set_up rl → tracks rl t key ob → current_bucket rl key t = bucket_at rate burst ob t.
Proof.
  intros [Hr Hb] [Hwf Ht]. unfold current_bucket, refill. rewrite Hr, Hb.
  destruct Ht as [->|(-> & b & t0 & -> & Hle & Hfull)].
  - by destruct ob.
  - symmetry. destruct (Hwf b eq_refl).
    apply (bucket_at_refilled rate burst Hrate Frate Hburst Fburst b t0); [done|lia..|done].
Qed.

Lemma tracks_purge rl t key ob :
  set_up rl → tracks rl t key ob → tracks (rl_purge rl t) t key ob.
Proof.
  intros [Hr Hb] [Hwf Ht]. split; [done|].
  destruct (rl_purge_bucket rl t key) as [->|(-> & b & Hlook & Hfull)]; [done|right].
  split; [done|]. destruct Ht as [Hob|[? _]]; [|congruence]. exists b, t.
  rewrite Hlook in Hob. subst ob. destruct (Hwf b eq_refl) as [Hbw Hlast].
  unfold refill in Hfull. rewrite Hr, Hb in Hfull. fold (grown rate b t) in Hfull.
  rewrite f64_leb_spec in Hfull by (done || by apply (grown_nonneg rate burst)).
  apply Z.leb_le in Hfull. split_and!; [done|lia..|done].
Qed.

(** One call: the verdict is the bucket's, and every bucket is still tracked. *)
Lemma Allow_tracks rl now key obs :
  set_up rl → (∀ k, tracks rl now k (obs k)) →
  let '(rl', ok) := Allow key now rl in
  let '(b, ok') := bucket_call rate burst (obs key) now in
  ok = ok' ∧ set_up rl' ∧
  ∀ k, tracks rl' now k (if decide (k = key) then Some b else obs k).
Proof.
  intros Hset Htr. unfold Allow. cbv zeta. set (ops := wrap64 (rl_ops rl + 1)).
  set (rl1 := RateLimiter (rl_rate rl) (rl_burst rl) (rl_buckets rl) ops (rl_purgeEvr rl)).
  set (rl2 := if Z.rem ops (rl_purgeEvr rl1) =? 0 then rl_purge rl1 now else rl1).
  assert (set_up rl2 ∧ ∀ k, tracks rl2 now k (obs k)) as [Hset2 Htr2].
  { subst rl2. destruct (_ =? 0); [|done]. split; [done|]. intros k.
    apply (tracks_purge rl1); [exact Hset|exact (Htr k)]. }
  clearbody rl2. rewrite (tracks_bucket rl2 now key (obs key) Hset2 (Htr2 key)).
  assert (wf_bucket burst (bucket_at rate burst (obs key) now)) as Hat.
  { destruct (Htr key) as [Hw _]. destruct (obs key) as [b|] eqn:Hob; [|by apply bucket_fresh].
    destruct (Hw b eq_refl). by apply bucket_at_spec. }
  assert (wf_bucket burst (bucket_call rate burst (obs key) now).1) as Hwf by by apply bucket_call_wf.
  pose proof (bucket_call_last rate burst (obs key) now) as Hlast.
  unfold bucket_call in *. destruct (f64_leb f64_one _) eqn:Hok.
  all: split; [done|]; split; [exact Hset2|]; intros k.
  all: destruct (decide (k = key)) as [->|Hne].
  1,3: split; [intros b [= <-]|left; simpl; by rewrite lookup_insert_eq].
  1,2: split; [exact Hwf|simpl in *; lia].
  all: destruct (Htr2 k) as [Hw Ht]; split; [done|]; simpl; by rewrite lookup_insert_ne.
Qed.

Lemma of_key_cons {A} key k (x : A) l :
  of_key key ((k, x) :: l) = if decide (k = key) then x :: of_key key l else of_key key l.
Proof. unfold of_key. simpl. by destruct (decide (k = key)). Qed.

Lemma verdicts_cons key k now calls rl :
  verdicts key ((k, now) :: calls) rl =
  let '(rl', ok) := Allow k now rl in
  if decide (k = key) then ok :: verdicts key calls rl' else verdicts key calls rl'.
Proof.
  unfold verdicts. simpl. destruct (Allow k now rl) as [rl' ok]. simpl. apply of_key_cons.
Qed.

(** Any number of calls. *)
Lemma run_tracks calls rl t obs key :
  set_up rl → (∀ k, tracks rl t k (obs k)) → in_order calls.*2 → Forall (λ u, t ≤ u) calls.*2 →
  verdicts key calls rl = bucket_run rate burst (obs key) (of_key key calls).
Proof.
  revert rl t obs. induction calls as [|[k now] calls IH]; intros rl t obs Hset Htr Hord Hge; [done|].
  apply StronglySorted_inv in Hord as [Hord Hnow]. apply Forall_cons in Hge as [Hge _].
  rewrite verdicts_cons, of_key_cons.
  pose proof (Allow_tracks rl now k obs Hset) as Hstep. destruct (Allow k now rl) as [rl' ok].
  destruct (bucket_call rate burst (obs k) now) as [b ok'] eqn:Hcall.
  destruct Hstep as (<- & Hset' & Htr'); [intros k'; by apply (tracks_later _ t)|].
  rewrite (IH rl' now _ Hset' Htr' Hord Hnow).
  destruct (decide (k = key)) as [->|Hne].
  - simpl. by rewrite Hcall, decide_True.
  - by rewrite decide_False.
Qed.
End per_client.

(** ** How much a bucket admits *)

Definition admitted (vs : list bool) : Z := Z.of_nat (length (filter (λ ok, ok = true) vs)).

Lemma admitted_cons ok vs : admitted (ok :: vs) = (if ok then 1 else 0) + admitted vs.
Proof.
  unfold admitted. destruct ok; [rewrite filter_cons_True by done|by rewrite filter_cons_False].
  cbn [length]. lia.
Qed.

Section bound.
Context (rate burst : float64).
Context (Hrate : nonneg rate) (Frate : finite rate).
Context (Hburst : nonneg burst) (Fburst : finite burst) (Hone : unit ≤ fval burst).

(** What [d] nanoseconds earn, up to rounding, and what rounding may add to a
    call; both scaled by [scale]. *)
Definition scale : Z := 2 ^ 53 * Second.
Definition earnings (d : Z) : Z := (2 ^ 53 + 6) * d * fval rate.
Definition slack : Z := 2 * Second * fval burst + 2 ^ 53 * Second.

Lemma earned_upper b now :
  b_last b ≤ now →
  scale * fval (f64_mul (Seconds (time_Sub now (b_last b))) rate) ≤
  earnings (now - b_last b) + 2 ^ 53 * Second.
Proof.
  intros Hle. pose proof (earned_spec rate Hrate Frate b now Hle) as He.
  destruct (time_Sub_ordered (b_last b) now Hle) as [Hd Hd2].
  pose proof (Seconds_upper _ Hd) as Hs. set (d := time_Sub now (b_last b)) in *.
  pose proof (fval_nonneg rate) as Hr. pose proof (fval_nonneg (Seconds d)) as Hz.
  apply rounds_to_upper in He; [|done|nia]. rewrite !Z.mul_1_r in He.
  unfold scale, earnings. pose proof unit_pos as HU. assert (0 < Second) as HS by done.
  set (x := fval (f64_mul _ _)) in *. set (z := fval (Seconds d)) in *. set (r := fval rate) in *.
  set (U := unit) in *. set (S := Second) in *. clearbody x z r U S d.
  assert (2 ^ 53 * S * (2 ^ 53 * (x * U)) ≤ 2 ^ 53 * S * ((2 ^ 53 + 1) * (z * r) + 2 ^ 52 * U)) as H1
    by (apply Z.mul_le_mono_nonneg_l; lia).
  assert ((2 ^ 53 + 1) * r * (2 ^ 53 * S * z) ≤ (2 ^ 53 + 1) * r * ((2 ^ 53 + 4) * d * U)) as H2
    by (apply Z.mul_le_mono_nonneg_l; [nia|done]).
  assert (2 ^ 53 * (2 ^ 53 * S * x) * U ≤
    2 ^ 53 * ((2 ^ 53 + 6) * (d * r) + 2 ^ 53 * S) * U) as H3.
  { assert (0 ≤ d * r * U) by (apply Z.mul_nonneg_nonneg; nia). assert (0 ≤ S * U) by nia. lia. }
  apply Z.mul_le_mono_pos_r in H3; [|done]. apply Z.mul_le_mono_pos_l in H3; [|done].
  assert (d * r ≤ (now - b_last b) * r) by (apply Z.mul_le_mono_nonneg_r; lia). lia.
Qed.

(** A token taken from at most the burst. *)
Lemma taken_bound ob now :
  wf_bucket burst (bucket_at rate burst ob now) →
  let '(b, ok) := bucket_call rate burst ob now in
  scale * fval (b_tokens b) + (if ok then scale * unit else 0) ≤
  scale * fval (b_tokens (bucket_at rate burst ob now)) + Second * fval burst.
Proof.
  intros Hat. pose proof (bucket_call_spec rate burst Hburst Fburst ob now Hat) as Hc.
  destruct (bucket_call rate burst ob now) as [b ok]. destruct Hc as (_ & _ & Hok & Hb).
  pose proof (fval_nonneg burst) as HB. assert (0 < Second) as HS by done. unfold scale.
  destruct ok; [|subst b; nia]. symmetry in Hok. apply Z.leb_le in Hok.
  apply rounds_to_upper_sum in Hb; [|lia]. destruct Hat as [_ Hcap]. pose proof unit_pos as HU.
  set (t := fval (b_tokens (bucket_at rate burst ob now))) in *. set (t' := fval (b_tokens b)) in *.
  set (B := fval burst) in *. set (U := unit) in *. set (S := Second) in *. clearbody t t' B U S.
  assert (2 ^ 53 * t' + 2 ^ 53 * U ≤ 2 ^ 53 * t + B) by lia. nia.
Qed.

Lemma capped_bound b now :
  wf_bucket burst b → b_last b ≤ now →
  scale * fval (b_tokens (bucket_at rate burst (Some b) now)) ≤
  scale * fval (b_tokens b) + earnings (now - b_last b) + 2 ^ 53 * Second + Second * fval burst.
Proof.
  intros Hb Hle. destruct (bucket_at_spec rate burst Hrate Frate Hburst Fburst b now Hb Hle) as [_ ->].
  pose proof (earned_upper b now Hle) as Hx. pose proof (earned_spec rate Hrate Frate b now Hle) as He.
  pose proof (fval_nonneg (b_tokens b)) as Ht. pose proof (fval_nonneg burst) as HB.
  set (x := f64_mul (Seconds (time_Sub now (b_last b))) rate) in *.
  pose proof (fval_nonneg x) as Hx0. assert (0 < Second) as HS by done.
  assert (2 ^ 53 * Z.min (fval burst) (fval (grown rate b now)) ≤
    2 ^ 53 * (fval (b_tokens b) + fval x) + fval burst) as Hmin.
  { destruct (add_cases (b_tokens b) x) as [[Hr _]|[_ ->]];
      [apply Hb|by apply (wf_finite burst)|apply He| |].
    - apply rounds_to_upper_sum in Hr; [|lia]. change (f64_add (b_tokens b) x) with (grown rate b now) in Hr. lia.
    - pose proof (fval_le_top burst Hburst). lia. }
  unfold scale in *. set (m := Z.min _ _) in *. set (t := fval (b_tokens b)) in *.
  set (B := fval burst) in *. set (y := fval x) in *. set (S := Second) in *.
  set (e := earnings _) in *. clearbody m t B y S e. nia.
Qed.

Lemma bucket_run_bound b times t1 :
  wf_bucket burst b → in_order (b_last b :: times) → b_last b ≤ t1 → Forall (λ t, t ≤ t1) times →
  scale * unit * admitted (bucket_run rate burst (Some b) times) ≤
  scale * fval (b_tokens b) + earnings (t1 - b_last b) + Z.of_nat (length times) * slack.
Proof.
  revert b. induction times as [|now times IH]; intros b Hb Hord Hlast Hle.
  { unfold earnings. pose proof (fval_nonneg (b_tokens b)). pose proof (fval_nonneg rate).
    assert (0 ≤ scale) by done. simpl. change (admitted []) with 0. nia. }
  apply StronglySorted_inv in Hord as [Hord Hfa]. apply Forall_cons in Hfa as [Hnow _].
  apply Forall_cons in Hle as [Hnow1 Hle].
  destruct (bucket_at_spec rate burst Hrate Frate Hburst Fburst b now Hb Hnow) as [Hat _].
  pose proof (taken_bound (Some b) now Hat) as Htake. pose proof (capped_bound b now Hb Hnow) as Hcap.
  cbn [bucket_run]. pose proof (bucket_call_wf rate burst Hburst Fburst (Some b) now Hat) as Hwf.
  pose proof (bucket_call_last rate burst (Some b) now) as Hl.
  destruct (bucket_call rate burst (Some b) now) as [b' ok]. simpl in Hwf, Hl.
  rewrite admitted_cons. assert (in_order (b_last b' :: times)) as Hord' by by rewrite Hl.
  specialize (IH b' Hwf Hord' ltac:(lia) Hle). rewrite Hl in IH.
  assert (earnings (t1 - b_last b) = earnings (t1 - now) + earnings (now - b_last b)) as ->
    by (unfold earnings; lia).
  cbn [length]. rewrite Nat2Z.inj_succ, Z.mul_succ_l, Z.mul_add_distr_l.
  assert (scale * unit * (if ok then 1 else 0) = if ok then scale * unit else 0) as ->
    by (destruct ok; lia).
  unfold slack in *. lia.
Qed.

(** A window of calls, whatever the bucket held before. *)
Lemma bucket_window_bound ob times t0 t1 :
  (∀ b, ob = Some b → wf_bucket burst b ∧ b_last b ≤ t0) → t0 ≤ t1 →
  in_order times → Forall (λ t, t0 ≤ t ≤ t1) times →
  scale * unit * admitted (bucket_run rate burst ob times) ≤
  scale * fval burst + earnings (t1 - t0) + Z.of_nat (length times) * slack.
Proof.
  intros Hob Ht Hord Hin. pose proof (fval_nonneg rate). pose proof (fval_nonneg burst).
  assert (∀ d, 0 ≤ d → 0 ≤ earnings d) as Hpos by (unfold earnings; intros; nia).
  destruct times as [|now times].
  { specialize (Hpos (t1 - t0)). assert (0 ≤ scale) by done. simpl. change (admitted []) with 0. nia. }
  pose proof Hord as Hord'. apply StronglySorted_inv in Hord' as [_ Hfa].
  apply Forall_cons in Hin as [Hnow Hin].
  assert (wf_bucket burst (bucket_at rate burst ob now)) as Hat.
  { destruct ob as [b|]; [|by apply bucket_fresh]. destruct (Hob b eq_refl).
    apply bucket_at_spec; done || lia. }
  pose proof (taken_bound ob now Hat) as Htake. cbn [bucket_run].
  pose proof (bucket_call_wf rate burst Hburst Fburst ob now Hat) as Hwf.
  pose proof (bucket_call_last rate burst ob now) as Hl.
  destruct (bucket_call rate burst ob now) as [b' ok]. simpl in Hwf, Hl. rewrite admitted_cons.
  pose proof (bucket_run_bound b' times t1 Hwf) as Hrun. rewrite Hl in Hrun.
  specialize (Hrun Hord ltac:(lia)). rewrite Forall_forall in Hin.
  specialize (Hrun ltac:(apply Forall_forall; intros t Hin'; specialize (Hin t Hin'); lia)).
  specialize (Hpos (now - t0) ltac:(lia)).
  assert (earnings (t1 - t0) = earnings (t1 - now) + earnings (now - t0)) as ->
    by (unfold earnings; lia).
  cbn [length]. rewrite Nat2Z.inj_succ, Z.mul_succ_l, Z.mul_add_distr_l.
  assert (scale * unit * (if ok then 1 else 0) = if ok then scale * unit else 0) as ->
    by (destruct ok; lia).
  assert (scale * fval (b_tokens (bucket_at rate burst ob now)) ≤ scale * fval burst)
    by (apply Z.mul_le_mono_nonneg_l; [done|apply Hat]).
  assert (Second * fval burst ≤ slack) by (unfold slack; assert (0 < Second) by done; nia). lia.
Qed.
End bound.

(** ** What a bucket never refuses *)

(** Calls at least [gap] apart. *)
Fixpoint spaced (gap : Z) (times : list Z) : Prop :=
  match times with
  | t :: (t' :: _) as times => gap ≤ t' - t ∧ spaced gap times
  | _ => True
  end.

Section generous.
Context (rate burst : float64).
Context (Hrate : nonneg rate) (Frate : finite rate).
Context (Hburst : nonneg burst) (Fburst : finite burst) (Hone : unit ≤ fval burst).

Lemma call_with_tokens ob now m :
  wf_bucket burst (bucket_at rate burst ob now) → 1 ≤ m < 2 ^ 53 →
  m * unit ≤ fval (b_tokens (bucket_at rate burst ob now)) →
  (bucket_call rate burst ob now).2 = true ∧
  (m - 1) * unit ≤ fval (b_tokens (bucket_call rate burst ob now).1).
Proof.
  intros Hat Hm Hle. pose proof (bucket_call_spec rate burst Hburst Fburst ob now Hat) as Hc.
  destruct (bucket_call rate burst ob now) as [b ok]. destruct Hc as (_ & _ & -> & Hb).
  pose proof unit_pos as HU. rewrite (proj2 (Z.leb_le _ _)) in * by nia. split; [done|].
  destruct (f64_of_Z_exact (m - 1)) as (N1 & F1 & E1); [lia|]. rewrite <-E1. simpl.
  eapply rounds_to_ge; [|exact Hb|done|done|]; [done|]. rewrite E1. nia.
Qed.

Lemma tokens_keep b now m :
  wf_bucket burst b → b_last b ≤ now → 0 ≤ m < 2 ^ 53 → m * unit ≤ fval (b_tokens b) →
  m * unit ≤ fval (b_tokens (bucket_at rate burst (Some b) now)).
Proof.
  intros Hb Hle Hm Ht.
  destruct (bucket_at_spec rate burst Hrate Frate Hburst Fburst b now Hb Hle) as [_ ->].
  pose proof Hb as [_ Hcap]. apply Z.min_glb; [lia|].
  destruct (f64_of_Z_exact m) as (N1 & F1 & E1); [lia|]. rewrite <-E1.
  pose proof (earned_spec rate Hrate Frate b now Hle) as He.
  pose proof (fval_nonneg (f64_mul (Seconds (time_Sub now (b_last b))) rate)).
  apply add_above; [apply Hb|by apply (wf_finite burst)|apply He|done|done|]. rewrite E1. lia.
Qed.

(** As many calls as there are tokens, however fast. *)
Lemma run_with_tokens b times m :
  wf_bucket burst b → in_order (b_last b :: times) → Z.of_nat m < 2 ^ 53 →
  Z.of_nat m * unit ≤ fval (b_tokens b) →
  Forall (λ ok, ok = true) (take m (bucket_run rate burst (Some b) times)).
Proof.
  revert b times. induction m as [|m IH]; intros b [|now times] Hb Hord Hm Ht; [done..|].
  apply StronglySorted_inv in Hord as [Hord Hfa]. apply Forall_cons in Hfa as [Hnow _].
  destruct (bucket_at_spec rate burst Hrate Frate Hburst Fburst b now Hb Hnow) as [Hat _].
  pose proof (tokens_keep b now (Z.of_nat (S m)) Hb Hnow ltac:(lia) Ht) as Hkeep.
  destruct (call_with_tokens (Some b) now (Z.of_nat (S m)) Hat ltac:(lia) Hkeep) as [Hok Hleft].
  pose proof (bucket_call_wf rate burst Hburst Fburst (Some b) now Hat) as Hwf.
  pose proof (bucket_call_last rate burst (Some b) now) as Hl. cbn [bucket_run].
  destruct (bucket_call rate burst (Some b) now) as [b' ok]. simpl in Hok, Hleft, Hwf, Hl. subst ok.
  simpl. constructor; [done|]. apply IH; [done|by rewrite Hl|lia|].
  by replace (Z.of_nat m) with (Z.of_nat (S m) - 1) by lia.
Qed.

Lemma first_calls times m :
  in_order times → Z.of_nat m < 2 ^ 53 → Z.of_nat m * unit ≤ fval burst →
  Forall (λ ok, ok = true) (take m (bucket_run rate burst None times)).
Proof.
  destruct m as [|m], times as [|now times]; intros Hord Hm Ht; [done..|].
  pose proof (bucket_fresh rate burst Hburst now) as Hat.
  destruct (call_with_tokens None now (Z.of_nat (S m)) Hat ltac:(lia) Ht) as [Hok Hleft].
  pose proof (bucket_call_wf rate burst Hburst Fburst None now Hat) as Hwf.
  pose proof (bucket_call_last rate burst None now) as Hl. cbn [bucket_run].
  destruct (bucket_call rate burst None now) as [b' ok]. simpl in Hok, Hleft, Hwf, Hl. subst ok.
  simpl. constructor; [done|]. apply run_with_tokens; [done|by rewrite Hl|lia|].
  by replace (Z.of_nat m) with (Z.of_nat (S m) - 1) by lia.
Qed.

(** A wait that earns a token is enough. *)
Lemma call_after_wait b now gap :
  wf_bucket burst b → 0 ≤ gap ≤ max_int64 → gap ≤ now - b_last b →
  f64_leb f64_one (f64_mul (Seconds gap) rate) = true →
  wf_bucket burst (bucket_at rate burst (Some b) now) ∧
  (bucket_call rate burst (Some b) now).2 = true.
Proof.
  intros Hb Hgap Hwait Hearn. assert (b_last b ≤ now) as Hle by lia.
  destruct (bucket_at_spec rate burst Hrate Frate Hburst Fburst b now Hb Hle) as [Hat Hv].
  split; [done|]. destruct one_spec as (N1 & F1 & E1).
  destruct (Seconds_spec gap Hgap) as (Hs & Fs & _).
  pose proof (f64_mul_spec _ _ (proj1 Hs) Hrate Fs Frate) as Hg.
  rewrite f64_leb_spec, E1 in Hearn by (done || apply Hg). apply Z.leb_le in Hearn.
  pose proof (earned_spec rate Hrate Frate b now Hle) as He.
  destruct (time_Sub_ordered (b_last b) now Hle) as [Hd _].
  assert (fval (f64_mul (Seconds gap) rate) ≤
          fval (f64_mul (Seconds (time_Sub now (b_last b))) rate)) as Hmono.
  { pose proof (fval_nonneg rate). pose proof (fval_nonneg (Seconds gap)).
    eapply rounds_to_mono; [| | |exact Hg|exact He|]; [done|done|nia|]. rewrite !Z.mul_1_r.
    apply Z.mul_le_mono_nonneg_r; [done|]. apply Seconds_mono; [|lia].
    unfold time_Sub in *. lia. }
  apply (call_with_tokens (Some b) now 1 Hat); [lia|]. rewrite Hv, Z.mul_1_l.
  apply Z.min_glb; [done|]. rewrite <-E1. pose proof (fval_nonneg (b_tokens b)).
  apply add_above; [apply Hb|by apply (wf_finite burst)|apply He|done|done|]. rewrite E1. lia.
Qed.

Lemma run_spaced ob times gap :
  (∀ b, ob = Some b → wf_bucket burst b ∧ spaced gap (b_last b :: times)) →
  spaced gap times → 0 ≤ gap ≤ max_int64 →
  f64_leb f64_one (f64_mul (Seconds gap) rate) = true →
  Forall (λ ok, ok = true) (bucket_run rate burst ob times).
Proof.
  revert ob. induction times as [|now times IH]; intros ob Hob Hsp Hgap Hearn; [constructor|].
  assert (wf_bucket burst (bucket_at rate burst ob now) ∧ (bucket_call rate burst ob now).2 = true)
    as [Hat Hok].
  { destruct ob as [b|].
    - destruct (Hob b eq_refl) as [Hb [Hwait _]]. by apply (call_after_wait b now gap).
    - pose proof (bucket_fresh rate burst Hburst now) as Hat. split; [done|].
      apply (call_with_tokens None now 1 Hat); [lia|]. simpl. lia. }
  pose proof (bucket_call_wf rate burst Hburst Fburst ob now Hat) as Hwf.
  pose proof (bucket_call_last rate burst ob now) as Hl. cbn [bucket_run].
  destruct (bucket_call rate burst ob now) as [b' ok]. simpl in Hok, Hwf, Hl. subst ok.
  constructor; [done|]. apply IH; [|by destruct times; [|destruct Hsp]|done|done].
  intros b [= <-]. split; [done|]. by rewrite Hl.
Qed.
End generous.

(** ** The limiter of the gateway *)

Lemma binary_round_opp m e :
  binary_round 53 1024 true m e = SFopp (binary_round 53 1024 false m e).
Proof.
  unfold binary_round. destruct (shl_align _ _ _) as [mz ez]. unfold binary_round_aux.
  destruct (shr_fexp _ _ _ _ _) as [r1 e1]. destruct (shr_fexp _ _ _ _ _) as [r2 e2].
  destruct (shr_m r2); [done| |done]. by destruct (e2 <=? 1024 - 53).
Qed.

(** The capacity of a new limiter is a number, and at least one token. *)
Lemma newRateLimiter_burst rate burst :
  burst ≤ max_int64 →
  let b := rl_burst (newRateLimiter rate burst) in
  nonneg b ∧ finite b ∧ unit ≤ fval b ∧ (1 ≤ burst < 2 ^ 53 → fval b = burst * unit).
Proof.
  intros Hmax. cbv zeta. unfold newRateLimiter. cbn [rl_burst].
  destruct one_spec as (N1 & F1 & E1).
  destruct (Z.le_gt_cases 0 burst) as [Hpos|Hneg].
  - pose proof (f64_of_Z_spec burst Hpos) as [Hn _]. rewrite f64_ltb_spec, E1 by done.
    destruct (Z.ltb_spec (fval (f64_of_Z burst)) unit) as [Hlt|Hge].
    + split_and!; [done|done|lia|]. intros Hb. destruct (f64_of_Z_exact burst) as (_ & _ & Hv); [lia|].
      pose proof unit_pos. exfalso. nia.
    + split_and!; [done| |done|].
      * apply (finite_below _ (f64_of_Z max_int64)); [done|done|done|by apply f64_of_Z_mono].
      * intros Hb. by apply f64_of_Z_exact; lia.
  - destruct burst as [|p|p]; [lia|lia|].
    assert (f64_ltb (f64_of_Z (Z.neg p)) f64_one = true) as ->; [|split_and!; try done; lia].
    pose proof (f64_of_Z_spec (Z.pos p) ltac:(lia)) as [Hn _].
    unfold f64_of_Z in *. cbn [binary_normalize] in *. rewrite binary_round_opp.
    destruct (binary_round 53 1024 false p 0) as [s|s| |s m e]; try done; simpl in Hn.
    + by subst.
    + by destruct Hn as [-> _].
Qed.

Lemma of_key_forall (P : Z → Prop) key (calls : list (string * Z)) :
  Forall P calls.*2 → Forall P (of_key key calls).
Proof.
  induction calls as [|[k t] calls IH]; intros Hf; [constructor|].
  apply Forall_cons in Hf as [Ht Hf]. rewrite of_key_cons. destruct (decide (k = key)); [constructor|]; auto.
Qed.

Lemma of_key_in_order key calls : in_order calls.*2 → in_order (of_key key calls).
Proof.
  induction calls as [|[k t] calls IH]; intros Ho; [constructor|].
  apply StronglySorted_inv in Ho as [Ho Hf]. rewrite of_key_cons.
  destruct (decide (k = key)); [|by apply IH]. constructor; [by apply IH|by apply of_key_forall].
Qed.

Lemma limiter_run_app rl pre calls :
  limiter_run rl (pre ++ calls) = limiter_run rl pre ++ limiter_run (limiter_after rl pre) calls.
Proof.
  revert rl. induction pre as [|[k t] pre IH]; intros rl; [done|]. simpl.
  destruct (Allow k t rl) as [rl' ok]. simpl. by rewrite IH.
Qed.

Lemma limiter_run_length rl calls : length (limiter_run rl calls) = length calls.
Proof.
  revert rl. induction calls as [|[k t] calls IH]; intros rl; [done|]. simpl.
  destruct (Allow k t rl). simpl. by rewrite IH.
Qed.

Lemma of_key_app {A} key (l1 l2 : list (string * A)) : of_key key (l1 ++ l2) = of_key key l1 ++ of_key key l2.
Proof. apply omap_app. Qed.

Lemma verdicts_app key rl pre calls :
  verdicts key (pre ++ calls) rl = verdicts key pre rl ++ verdicts key calls (limiter_after rl pre).
Proof.
  unfold verdicts. rewrite limiter_run_app, fmap_app, zip_with_app, of_key_app; [done|].
  by rewrite length_fmap, limiter_run_length.
Qed.

Section bucket_after.
Context (rate burst : float64).

Fixpoint bucket_after (ob : option bucket) (times : list Z) : option bucket :=
  match times with
  | [] => ob
  | now :: times => bucket_after (Some (bucket_call rate burst ob now).1) times
  end.

Lemma bucket_run_app ob l1 l2 :
  bucket_run rate burst ob (l1 ++ l2) =
  bucket_run rate burst ob l1 ++ bucket_run rate burst (bucket_after ob l1) l2.
Proof.
  revert ob. induction l1 as [|t l1 IH]; intros ob; [done|]. cbn [app bucket_run bucket_after].
  destruct (bucket_call rate burst ob t) as [b ok]. simpl. by rewrite IH.
Qed.

Lemma bucket_after_wf ob times t :
  nonneg rate → finite rate → nonneg burst → finite burst →
  (∀ b, ob = Some b → wf_bucket burst b ∧ Forall (λ u, b_last b ≤ u) times ∧ b_last b ≤ t) →
  in_order times → Forall (λ u, u ≤ t) times →
  ∀ b, bucket_after ob times = Some b → wf_bucket burst b ∧ b_last b ≤ t.
Proof.
  intros Hrate Frate Hburst Fburst. revert ob.
  induction times as [|now times IH]; intros ob Hob Ho Hle b Hb.
  { destruct (Hob b Hb) as (? & _ & ?). done. }
  apply StronglySorted_inv in Ho as [Ho Hf]. apply Forall_cons in Hle as [Hnow Hle].
  revert b Hb. apply IH; [|done|done]. intros b [= <-]. rewrite bucket_call_last.
  split; [|done]. apply bucket_call_wf; [done|done|]. destruct ob as [b0|]; [|by apply bucket_fresh].
  destruct (Hob b0 eq_refl) as (Hw & [Hlast _]%Forall_cons & _). by apply bucket_at_spec.
Qed.
End bucket_after.

(** The limiter as its buckets. *)
Lemma fresh_run rate burst calls key :
  nonneg rate → finite rate → burst ≤ max_int64 → in_order calls.*2 →
  verdicts key calls (newRateLimiter rate burst) =
  bucket_run rate (rl_burst (newRateLimiter rate burst)) None (of_key key calls).
Proof.
  intros Hrate Frate Hmax Ho.
  destruct (newRateLimiter_burst rate burst Hmax) as (Hb & Fb & Hone & _).
  assert (∃ t, Forall (λ u, t ≤ u) calls.*2) as [t Ht].
  { destruct calls as [|[k t] calls]; [by exists 0|]. exists t.
    apply StronglySorted_inv in Ho as [_ Hf]. by constructor. }
  apply (run_tracks rate _ Hrate Frate Hb Fb _ _ t (λ _, None)); try done.
  intros k. split; [done|by left].
Qed.

Lemma bucket_run_length rate burst ob times : length (bucket_run rate burst ob times) = length times.
Proof.
  revert ob. induction times as [|t times IH]; intros ob; [done|]. simpl.
  destruct (bucket_call rate burst ob t). simpl. by rewrite IH.
Qed.

(** A limiter in use goes on with the buckets it has. *)
Lemma after_run rate burst pre calls key :
  nonneg rate → finite rate → burst ≤ max_int64 → in_order (pre ++ calls).*2 →
  let B := rl_burst (newRateLimiter rate burst) in
  verdicts key calls (limiter_after (newRateLimiter rate burst) pre) =
  bucket_run rate B (bucket_after rate B None (of_key key pre)) (of_key key calls).
Proof.
  intros Hrate Frate Hmax Ho. cbv zeta.
  pose proof (fresh_run rate burst (pre ++ calls) key Hrate Frate Hmax Ho) as Hall.
  rewrite fmap_app in Ho. apply StronglySorted_app_1_l in Ho.
  rewrite verdicts_app, of_key_app, bucket_run_app, fresh_run in Hall by done.
  by apply app_inv_head in Hall.
Qed.

(** C20: Every client is served by its own bucket: what the others do, and that
    refilled buckets are forgotten now and then, never shows in a verdict. *)
Theorem limiter_is_per_client rate burst calls key :
  nonneg rate → finite rate → burst ≤ max_int64 → in_order calls.*2 →
  verdicts key calls (newRateLimiter rate burst) =
  bucket_run rate (rl_burst (newRateLimiter rate burst)) None (of_key key calls).
Proof. apply fresh_run. Qed.

(** A number of tokens as a rational. *)
Definition f64_Q (x : float64) : Q := fval x # (2 ^ 1074)%positive.

(** The scaled bound, in tokens and seconds. *)
Lemma bound_in_tokens (a n d : Z) rate burst :
  scale * unit * a ≤ scale * fval burst + earnings rate d + n * slack burst →
  (inject_Z a <=
   f64_Q burst + f64_Q rate * (d # 10 ^ 9) * (1 + (6 # 2 ^ 53)) +
   inject_Z n * (f64_Q burst * (1 # 2 ^ 52) + (1 # 2 ^ 1074)))%Q.
Proof.
  unfold scale, earnings, slack. intros H.
  change Second with (Z.pos (10 ^ 9)) in H. change unit with (Z.pos (2 ^ 1074)) in H.
  change (2 ^ 53) with (Z.pos (2 ^ 53)) in H. unfold f64_Q.
  assert (Z.pos (2 ^ 53) = 2 * Z.pos (2 ^ 52)) as Hc by done.
  unfold Qle, Qplus, Qmult, inject_Z. cbn [Qnum Qden].
  rewrite ?Pos2Z.inj_mul. rewrite Hc in *.
  set (u := Z.pos (2 ^ 1074)) in *. set (c := Z.pos (2 ^ 52)) in *. set (g := Z.pos (10 ^ 9)) in *.
  assert (0 < u) by done. assert (0 < c) by done. assert (0 < g) by done. clearbody u c g.
  set (b := fval burst) in *. set (r := fval rate) in *. clearbody b r.
  apply (Z.mul_le_mono_nonneg_r _ _ (u * u * u * c)) in H; [lia|nia].
Qed.

(** C19: However the calls of a client fall, a stretch of time admits no more of them
    than the burst and what the rate earns in that time: up to six units of the
    last place of the earnings, and a rounding of each call. *)
Theorem limiter_bound rate burst pre calls key t0 t1 :
  nonneg rate → finite rate → burst ≤ max_int64 → in_order (pre ++ calls).*2 →
  Forall (λ t, t ≤ t0) pre.*2 → Forall (λ t, t0 ≤ t ≤ t1) calls.*2 → t0 ≤ t1 →
  let capacity := f64_Q (rl_burst (newRateLimiter rate burst)) in
  let verdicts := verdicts key calls (limiter_after (newRateLimiter rate burst) pre) in
  (inject_Z (admitted verdicts) <=
   capacity + f64_Q rate * (t1 - t0 # 10 ^ 9) * (1 + (6 # 2 ^ 53)) +
   inject_Z (Z.of_nat (length verdicts)) * (capacity * (1 # 2 ^ 52) + (1 # 2 ^ 1074)))%Q.
Proof.
  intros Hrate Frate Hmax Ho Hpre Hin Ht. cbv zeta.
  destruct (newRateLimiter_burst rate burst Hmax) as (Hb & Fb & Hone & _).
  rewrite (after_run rate burst pre calls key) by done.
  set (B := rl_burst (newRateLimiter rate burst)) in *. set (ob := bucket_after _ _ _ _) in *.
  apply bound_in_tokens.
  assert (∀ b, ob = Some b → wf_bucket B b ∧ b_last b ≤ t0) as Hob.
  { rewrite fmap_app in Ho. apply StronglySorted_app_1_l in Ho.
    apply bucket_after_wf; try done; [by apply of_key_in_order|by apply of_key_forall]. }
  rewrite bucket_run_length. rewrite fmap_app in Ho. apply StronglySorted_app_1_r in Ho.
  apply bucket_window_bound; try done; [by apply of_key_in_order|by apply of_key_forall].
Qed.

(** C21: The limiter is not too strict either: the first calls of a client are
    admitted as long as the burst lasts, however fast they come, and a client
    that always waits until it has earned a token is never refused. *)
Theorem limiter_admits rate burst calls key :
  nonneg rate → finite rate → 1 ≤ burst < 2 ^ 53 → in_order calls.*2 →
  Forall (λ ok, ok = true)
    (take (Z.to_nat burst) (verdicts key calls (newRateLimiter rate burst))) ∧
  ∀ gap, 0 ≤ gap ≤ max_int64 → f64_leb f64_one (f64_mul (Seconds gap) rate) = true →
    spaced gap (of_key key calls) →
    Forall (λ ok, ok = true) (verdicts key calls (newRateLimiter rate burst)).
Proof.
  intros Hrate Frate Hburst Ho.
  assert (burst ≤ max_int64) as Hmax by (unfold max_int64, two63; lia).
  destruct (newRateLimiter_burst rate burst Hmax) as (Hb & Fb & Hone & Hv).
  rewrite fresh_run by done. split.
  - apply first_calls; try done; [by apply of_key_in_order|lia|]. rewrite Hv by done.
    by rewrite Z2Nat.id by lia.
  - intros gap Hgap Hearn Hsp. by apply (run_spaced _ _ Hrate Frate Hb Fb Hone _ _ gap).
Qed.

(** ** A rate that is not a number of tokens *)

(** The bucket of [key] holds NaN. *)
Definition poisoned (key : string) (rl : rateLimiter) : Prop :=
  ∃ last, rl_buckets rl !! key = Some (Bucket S754_nan last).

Lemma poisoned_forget key rl now ops :
  poisoned key rl →
  let rl1 := RateLimiter (rl_rate rl) (rl_burst rl) (rl_buckets rl) ops (rl_purgeEvr rl) in
  poisoned key (if Z.rem ops (rl_purgeEvr rl) =? 0 then rl_purge rl1 now else rl1).
Proof.
  intros [last Hb]. destruct (_ =? 0); exists last; [|exact Hb].
  simpl. rewrite lookup_omap, Hb. simpl. unfold purge_keep, refill. simpl.
  by destruct (rl_burst rl).
Qed.

Lemma poisoned_call key k now rl :
  poisoned key rl → poisoned key (Allow k now rl).1 ∧ (k = key → (Allow k now rl).2 = false).
Proof.
  intros Hp. unfold Allow.
  pose proof (poisoned_forget key rl now (wrap64 (rl_ops rl + 1)) Hp) as [last Hb].
  cbv zeta in Hb |- *. cbn [rl_purgeEvr] in *. destruct (if Z.rem _ _ =? 0 then _ else _) as [r bu bs ops pe].
  simpl in Hb. destruct (decide (k = key)) as [->|Hne].
  - unfold current_bucket, refill. simpl. rewrite Hb. simpl.
    replace (if f64_ltb bu S754_nan then bu else S754_nan) with S754_nan by (by destruct bu).
    simpl. split; [|done]. exists now. simpl. by rewrite lookup_insert_eq.
  - destruct (f64_leb _ _); simpl; (split; [|done]); exists last; simpl; by rewrite lookup_insert_ne.
Qed.

Lemma poisoned_refuses key rl calls :
  poisoned key rl → Forall (λ ok, ok = false) (verdicts key calls rl).
Proof.
  revert rl. induction calls as [|[k now] calls IH]; intros rl Hp; [constructor|].
  rewrite verdicts_cons. destruct (poisoned_call key k now rl Hp) as [Hp' Hv].
  destruct (Allow k now rl) as [rl' ok]. simpl in Hp', Hv.
  destruct (decide (k = key)) as [->|]; [constructor; [by apply Hv|]|]; by apply IH.
Qed.

Lemma verdicts_length key rl calls : length (verdicts key calls rl) = length (of_key key calls).
Proof.
  revert rl. induction calls as [|[k now] calls IH]; intros rl; [done|].
  rewrite verdicts_cons, of_key_cons. destruct (Allow k now rl) as [rl' ok].
  destruct (decide (k = key)); simpl; by rewrite IH.
Qed.

(** [ParseFloat] accepts an infinite rate, also as what an overflow leaves, and
    [main] ignores its error.  With it a client that calls twice at one reading
    of the clock is refused for ever: its bucket holds 0 times infinity, which
    is not a number. *)
Theorem infinite_rate_locks_out burst key t calls :
  1 ≤ burst < 2 ^ 53 →
  ∃ refused, verdicts key ((key, t) :: (key, t) :: calls)
      (newRateLimiter (S754_infinity false) burst) = true :: refused ∧
    Forall (λ ok, ok = false) refused ∧
    length refused = (1 + length (of_key key calls))%nat.
Proof.
  intros Hburst. assert (burst ≤ max_int64) as Hmax by (unfold max_int64, two63; lia).
  destruct (newRateLimiter_burst (S754_infinity false) burst Hmax) as (Hb & Fb & Hone & _).
  assert (∃ B, newRateLimiter (S754_infinity false) burst =
      RateLimiter (S754_infinity false) B ∅ 0 1024 ∧ f64_leb f64_one B = true) as (B & -> & Hle).
  { eexists. split; [reflexivity|]. destruct one_spec as (N1 & _ & E1).
    rewrite f64_leb_spec, E1 by done. by apply Z.leb_le. }
  clear Hb Fb Hone. set (rl := RateLimiter _ B _ _ _).
  assert (Allow key t rl = (RateLimiter (S754_infinity false) B
    (<[key := Bucket (f64_sub B f64_one) t]> ∅) 1 1024, true)) as Hfirst.
  { unfold Allow, current_bucket. simpl. rewrite lookup_empty. cbn [b_tokens]. by rewrite Hle. }
  rewrite verdicts_cons, Hfirst, decide_True by done. clear Hfirst rl.
  set (rl1 := RateLimiter _ _ _ _ _).
  assert (poisoned key (Allow key t rl1).1 ∧ (Allow key t rl1).2 = false) as [Hp Hv].
  { unfold Allow, current_bucket, refill. simpl. rewrite lookup_insert_eq. simpl.
    replace (time_Sub t t) with 0 by (unfold time_Sub; rewrite Z.sub_diag; done).
    replace (f64_add (f64_sub B f64_one) _) with S754_nan by (by destruct (f64_sub B f64_one)).
    replace (if f64_ltb B S754_nan then B else S754_nan) with S754_nan by (by destruct B).
    simpl. split; [|done]. exists t. simpl. by rewrite lookup_insert_eq. }
  eexists. split; [done|]. rewrite verdicts_cons.
  destruct (Allow key t rl1) as [rl2 ok]. simpl in Hp, Hv. subst ok. rewrite decide_True by done. split.
  - constructor; [done|]. by apply poisoned_refuses.
  - simpl. by rewrite verdicts_length.
Qed.

(** ** A limiter at work *)

Definition two_per_second : float64 := f64_of_Z 2.

(** Two clients; the readings are in nanoseconds. *)
Definition calls : list (string * Z) :=
  [("a", 0); ("a", 1); ("b", 1); ("a", 2); ("a", 500000000); ("b", 500000002); ("a", 500000003)].

Lemma calls_in_order : in_order calls.*2.
Proof. repeat constructor; done. Qed.

Lemma limiter_is_per_client_witness :
  verdicts "a" calls (newRateLimiter two_per_second 2) = [true; true; false; true; false].
Proof.
  rewrite (limiter_is_per_client two_per_second 2 calls "a").
  - reflexivity.
  - done.
  - done.
  - done.
  - apply calls_in_order.
Defined.

(** From the second half of the first second on, the client gets two: what it
    has earned by then, and not more than the burst. *)
Lemma limiter_bound_witness :
  let capacity := f64_Q (rl_burst (newRateLimiter two_per_second 2)) in
  let verdicts :=
    verdicts "a" (drop 4 calls) (limiter_after (newRateLimiter two_per_second 2) (take 4 calls)) in
  verdicts = [true; false] ∧
  (inject_Z 1 <=
   capacity + f64_Q two_per_second * (3 # 10 ^ 9) * (1 + (6 # 2 ^ 53)) +
   inject_Z 2 * (capacity * (1 # 2 ^ 52) + (1 # 2 ^ 1074)))%Q.
Proof.
  split; [reflexivity|].
  apply (limiter_bound two_per_second 2 (take 4 calls) (drop 4 calls) "a" 500000000 500000003).
  - done.
  - done.
  - done.
  - rewrite take_drop. apply calls_in_order.
  - repeat constructor; done.
  - repeat constructor; done.
  - done.
Defined.

(** Half a second earns a token: calls that far apart are all admitted. *)
Definition patient : list (string * Z) := [("a", 0); ("a", 500000000); ("b", 500000001); ("a", 1000000000)].

Lemma limiter_admits_witness :
  Forall (λ ok, ok = true) (take 2 (verdicts "a" calls (newRateLimiter two_per_second 2))) ∧
  Forall (λ ok, ok = true) (verdicts "a" patient (newRateLimiter two_per_second 1)).
Proof.
  split.
  - apply (limiter_admits two_per_second 2 calls "a"); [done|done|done|apply calls_in_order].
  - apply (limiter_admits two_per_second 1 patient "a") with (gap := 500000000);
      [done|done|done| |done|done|done].
    repeat constructor; done.
Defined.

Lemma infinite_rate_locks_out_witness :
  ∃ refused, verdicts "a" [("a", 0); ("a", 0); ("a", Second); ("a", 1000 * Second)]
      (newRateLimiter (S754_infinity false) 5) = true :: refused ∧
    Forall (λ ok, ok = false) refused ∧ length refused = 3%nat.
Proof.
  apply (infinite_rate_locks_out 5 "a" 0 [("a", Second); ("a", 1000 * Second)]). lia.
Defined.
