(* ===== verification/Authorizer.v ===== *)
(** * Connection authorizers ([src/src/authorization.go],
      [src/src/dummy_authorizer.go], [src/src/proxy_authorizer.go])

    The two engines of the repository: a fixed key, and a call to an external
    endpoint whose answer names the keys, cached per credential.  The HTTP call
    itself is outside the model: its outcome (the body of the answer, or an
    error) is an argument. *)
From stdpp Require Import base numbers list gmap strings.
From S2P Require Import Prelude GoStd GoTime Json Const Config Http.

#[local] Open Scope Z_scope.

(** ** The answer of the endpoint *)

(** [AuthResponse.User] *)
Record AuthResponse := MkAuthResponse { Email : string; Ogranization : string }.

Definition Export_keys (r : AuthResponse) : list string :=
  filter (λ key, key ≠ EMPTY_STR) [Email r; Ogranization r].

Definition decode_user_member (st : AuthResponse * bool) (kv : string * json)
  : AuthResponse * bool :=
  let '(u, err) := st in
  match find_field ["email"; "organization_name"] kv.1 with
  | None => st
  | Some f =>
    if decide (f = "email") then
      let '(s, e) := decode_string kv.2 (Email u) in (MkAuthResponse s (Ogranization u), err || e)
    else
      let '(s, e) := decode_string kv.2 (Ogranization u) in (MkAuthResponse (Email u) s, err || e)
  end.

(** The members of the document: the field [User] has no tag. *)
Definition decode_auth_member (st : AuthResponse * bool) (kv : string * json)
  : AuthResponse * bool :=
  match find_field ["User"] kv.1 with
  | None => st
  | Some _ =>
    match kv.2 with
    | JNull => st
    | JObj ms => fold_left decode_user_member ms st
    | _ => (st.1, true)
    end
  end.

Definition decode_AuthResponse (v : json) : result AuthResponse :=
  match v with
  | JNull => Ok (MkAuthResponse "" "")
  | JObj ms =>
    let '(u, err) := fold_left decode_auth_member ms (MkAuthResponse "" "", false) in
    if err then Err (Error "json: cannot unmarshal into Go struct field") else Ok u
  | _ => Err (Error "json: cannot unmarshal into Go value of type main.AuthResponse")
  end.

(** ** The cache of the proxy authorizer *)

Record authCacheEntry := AuthCacheEntry { ce_keys : list string; ce_exp : Z }.

Record ProxyAuthorizer := MkProxyAuthorizer {
  cacheTTL : Z;
  cache : gmap Z authCacheEntry;
  puts : Z;
}.

(** The credentials of a request: its cookies and Authorization header. *)
Definition credentials (r : Request) : string * string :=
  (header_Get r "Cookie", header_Get r "Authorization").

(** The bytes hashed: cookie, a zero byte, authorization. *)
Definition cacheKey (r : Request) : option Z :=
  let '(cookie, authz) := credentials r in
  if bool_decide (cookie = EMPTY_STR) && bool_decide (authz = EMPTY_STR) then None
  else Some (New64a_Sum64 (String.append cookie (String "000" authz))).

Definition cacheGet (r : Request) (now : Z) (a : ProxyAuthorizer) : option (list string) :=
  match cacheKey r with
  | None => None
  | Some k =>
    match cache a !! k with
    | None => None
    | Some e => if ce_exp e <? now then None else Some (ce_keys e)
    end
  end.

(** The eviction loop keeps the entries that have not expired. *)
Definition evict_keep (now : Z) (e : authCacheEntry) : option authCacheEntry :=
  if ce_exp e <? now then None else Some e.

(** [now] and [now'] are the two clock readings under the lock. *)
Definition cachePut (r : Request) (keys : list string) (now now' : Z) (a : ProxyAuthorizer)
  : ProxyAuthorizer :=
  match cacheKey r with
  | None => a
  | Some k =>
    let c := <[k := AuthCacheEntry keys (now + cacheTTL a)]> (cache a) in
    let n := wrap64 (puts a + 1) in
    let c := if Z.rem n 256 =? 0 then omap (evict_keep now') c else c in
    MkProxyAuthorizer (cacheTTL a) c n
  end.

(** ** The engines *)

Inductive authorizer :=
| Dummy (keys : list string)
| Proxy (a : ProxyAuthorizer).

Definition DummyAuthorizer_Init (cfg : Config) : result authorizer := Ok (Dummy [AuthURL cfg]).

(** [url_err] is the error of [url.Parse] on an address. *)
Definition ProxyAuthorizer_Init (url_err : string → option error) (cfg : Config)
  : result authorizer :=
  match url_err (AuthURL cfg) with
  | Some e => Err e
  | None => Ok (Proxy (MkProxyAuthorizer (AuthCacheTTL cfg) ∅ 0))
  end.

(** The table [Authorizers]: a constructor and its [Init], by engine name. *)
Definition Authorizers (url_err : string → option error) (engine : string)
  : option (Config → result authorizer) :=
  if decide (engine = DEFAULT ∨ engine = PROXY) then Some (ProxyAuthorizer_Init url_err)
  else if decide (engine = DUMMY) then Some DummyAuthorizer_Init
  else None.

Section answer.
Context `{JsonText}.

(** From the outcome of the HTTP call to the keys of the connection. *)
Definition auth_keys (answer : result string) : result (list string) :=
  match answer with
  | Err e => Err e
  | Ok b =>
    match json_parse b with
    | None => Err (Error "invalid JSON")
    | Some v =>
      match decode_AuthResponse v with
      | Err e => Err e
      | Ok data =>
        let keys := Export_keys data in
        if decide (keys = []) then Err (Error AUTH_INVALID_CREDS) else Ok keys
      end
    end
  end.
End answer.

(** ** The cache *)

(** A verdict is remembered for the credentials it was given to until its time
    to live has passed, and only the entries of credentials with the same hash
    are touched: the other live entries answer as before.  Requests without
    credentials are never answered from the cache. *)
Theorem cache_remembers r keys now now' a t r' :
  now' ≤ t →
  (cacheKey r = None → cachePut r keys now now' a = a ∧ cacheGet r t a = None) ∧
  (cacheKey r ≠ None → t ≤ now + cacheTTL a →
     cacheGet r t (cachePut r keys now now' a) = Some keys) ∧
  (cacheKey r ≠ None → now + cacheTTL a < t →
     cacheGet r t (cachePut r keys now now' a) = None) ∧
  (cacheKey r' ≠ cacheKey r →
     cacheGet r' t (cachePut r keys now now' a) = cacheGet r' t a).
Proof.
  intros Ht. unfold cacheGet, cachePut. destruct (cacheKey r) as [k|]; [|by split_and!].
  set (c := <[k := AuthCacheEntry keys (now + cacheTTL a)]> (cache a)).
  set (c' := if Z.rem (wrap64 (puts a + 1)) 256 =? 0 then omap (evict_keep now') c else c).
  assert (∀ i, c' !! i = c !! i ∨ c' !! i = None ∧ ∃ e, c !! i = Some e ∧ ce_exp e < t) as Hc'.
  { intros i. subst c'. destruct (_ =? 0); [|by left]. rewrite lookup_omap.
    destruct (c !! i) as [e|]; [|by left]. simpl. unfold evict_keep.
    destruct (ce_exp e <? now') eqn:He; [|by left]. right. split; [done|]. exists e.
    split; [done|]. lia. }
  assert (c !! k = Some (AuthCacheEntry keys (now + cacheTTL a))) as Hk by apply lookup_insert_eq.
  split_and!; [done|..]; cbn [cache].
  - intros _ Hlive. destruct (Hc' k) as [-> |[_ (e & He & Hexp)]].
    + rewrite Hk. cbn [ce_exp ce_keys]. by rewrite (proj2 (Z.ltb_ge _ _) Hlive).
    + rewrite Hk in He. injection He as <-. simpl in Hexp. lia.
  - intros _ Hold. destruct (Hc' k) as [-> |[-> _]]; [|done].
    rewrite Hk. cbn [ce_exp]. by rewrite (proj2 (Z.ltb_lt _ _) Hold).
  - intros Hne. destruct (cacheKey r') as [k'|]; [|done].
    assert (c !! k' = cache a !! k') as Heq by (apply lookup_insert_ne; congruence).
    destruct (Hc' k') as [-> |[-> (e & He & Hexp)]]; [by rewrite Heq|].
    rewrite Heq in He. rewrite He. by rewrite (proj2 (Z.ltb_lt _ _) Hexp).
Qed.

(** A request with a cookie, and one without credentials. *)
Lemma cache_remembers_witness :
  let r := MkRequest "GET" "/ws" [] [("Cookie", "s=1")] None "127.0.0.1:1" "" in
  let r' := MkRequest "GET" "/ws" [] [] None "127.0.0.1:1" "" in
  let a := MkProxyAuthorizer 10 ∅ 0 in
  (cacheKey r = None → cachePut r ["k"] 5 5 a = a ∧ cacheGet r 12 a = None) ∧
  (cacheKey r ≠ None → 12 ≤ 5 + cacheTTL a → cacheGet r 12 (cachePut r ["k"] 5 5 a) = Some ["k"]) ∧
  (cacheKey r ≠ None → 5 + cacheTTL a < 12 → cacheGet r 12 (cachePut r ["k"] 5 5 a) = None) ∧
  (cacheKey r' ≠ cacheKey r →
     cacheGet r' 12 (cachePut r ["k"] 5 5 a) = cacheGet r' 12 a).
Proof. intros r r' a. apply cache_remembers. lia. Defined.
