(* ===== verification/Prog.v ===== *)
(** * Effects: one text for every Go function, two ways to run it

    A function of the gateway that acts on shared state is a [prog]: a tree of
    atomic actions ([op]) with a continuation for each result.  An action is
    one critical section of the source (what happens under [g.mu], under the
    mutex of the storage, of a connection, of the history, of the limiter), or
    one call to the world outside.  [run] executes a program alone;
    the file [System] interleaves the actions of many.

    The data other goroutines can reach are the [Goctopus] record; [exec] is
    the meaning of every action on it.  What Go leaves open (clock readings,
    the order of a [range] over a map, network outcomes) comes from an [Env],
    consulted with a counter that never repeats, so every theorem holds for
    every sequence of outcomes. *)
From stdpp Require Import base numbers list gmap strings.
From S2P Require Import Prelude GoStd GoTime Topics Json Message Storage History Config Client.
From S2P Require Import Http RateLimit Authorizer.

#[local] Open Scope Z_scope.

(** ** Programs *)

Inductive prog (E : Set → Type) (A : Type) : Type :=
| Ret (a : A)
| Vis {X : Set} (o : E X) (k : X → prog E A).
Arguments Ret {E A} a.
Arguments Vis {E A X} o k.

Fixpoint bind {E A B} (p : prog E A) (f : A → prog E B) : prog E B :=
  match p with
  | Ret a => f a
  | Vis o k => Vis o (λ x, bind (k x) f)
  end.

Definition act {E : Set → Type} {X : Set} (o : E X) : prog E X := Vis o Ret.

Declare Scope prog_scope.
Delimit Scope prog_scope with prog.
Notation "'let!' x := p 'in' q" := (bind p (λ x, q))
  (at level 200, x pattern, p at level 100, q at level 200, right associativity) : prog_scope.
Notation "p ;; q" := (bind p (λ _, q)) (at level 100, q at level 200, right associativity) : prog_scope.
#[local] Open Scope prog_scope.

(** [for _, x := range l { body x }] *)
Fixpoint for_each {E A} (l : list A) (body : A → prog E unit) : prog E unit :=
  match l with
  | [] => Ret tt
  | x :: l => body x ;; for_each l body
  end.

(** ** The shared state *)

(** A connection is a pointer: its address in the table of connections. *)
Definition cid : Set := nat.

(** The closures handed to [schedule], by the function that builds them. *)
Inductive task :=
| TDeliver (m : Message) (targets : list string)
| TBacklog (keys : list string)
| TFlush (key : string).

(** What a [go] statement starts. *)
Inductive goroutine :=
| GTask (t : task)
| GReadLoop (c : cid)
| GPingLoop (c : cid).

Inductive counter := Received | Delivered | Expired | AuthFail.

#[export] Instance counter_eq_dec : EqDecision counter.
Proof. solve_decision. Defined.

(** [g_work] is the buffer of the channel the workers read, [g_workers] counts
    those that have not returned, [g_cancelled] says whether the context is. *)
Record Goctopus (S : Type) := MkGoctopus {
  g_Conns : gmap string (list cid);
  g_patterns : gset string;
  g_sendLocks : gset Z;
  g_clients : gmap cid client;
  g_next : cid;
  g_storage : S;
  g_authorizer : authorizer;
  g_limiter : option rateLimiter;
  g_history : option historyStore;
  g_metrics : counter → Z;
  g_observed : Z;
  g_work : list task;
  g_spawned : list goroutine;
  g_workers : Z;
  g_cancelled : bool;
  g_tick : nat;
}.
Arguments MkGoctopus {S}.
Arguments g_Conns {S}. Arguments g_patterns {S}. Arguments g_sendLocks {S}.
Arguments g_clients {S}. Arguments g_next {S}. Arguments g_storage {S}.
Arguments g_authorizer {S}. Arguments g_limiter {S}. Arguments g_history {S}.
Arguments g_metrics {S}. Arguments g_observed {S}. Arguments g_work {S}.
Arguments g_spawned {S}. Arguments g_workers {S}. Arguments g_cancelled {S}. Arguments g_tick {S}.

(** ** Actions *)

Inductive op : Set → Type :=
(* the runtime *)
| ONow : op Z
| ONewRandom : op (result uuid)
| ORange (X : gset string) : op (list string)
| OGo (r : goroutine) : op unit
(* the per-key send locks *)
| OSendLock (key : string) : op unit
| OSendUnlock (key : string) : op unit
(* the connection registry, under g.mu *)
| OClientsForKey (key : string) : op (list cid)
| OConnKeys : op (list string)
| OPresence : op (gmap string Z)
| ORegister (keys : list string) (compress : bool) : op cid
| OUnregister (c : cid) : op unit
| OCloseAll : op unit
| OCancel : op unit
(* the storage *)
| OGetQueue (key : string) : op (result (list Message))
| ODeleteQueue (key : string) : op (option error)
| OAddMessage (key : string) (m : Message) : op (option error)
| ODeleteMessage (key : string) (id : uuid) : op (option error)
| OGetKeys : op (result (slice string))
| ONotify (key : string) : op (option error)
| OPing : op (option error)
(* the history *)
| OHistAdd (key : string) (m : Message) (now : Z) : op unit
| OHistGet (key : string) (now : Z) : op (list Message)
| OHistPurge (now : Z) : op unit
(* one connection *)
| OMarkInflight (c : cid) (id : uuid) (key : string) : op bool
| OTakeInflight (c : cid) (id : uuid) : op (option string)
| OClearInflight (c : cid) (id : uuid) : op unit
| OWriteMessage (c : cid) (data : json) : op (option error)
| OWritePing (c : cid) : op (option error)
| OWritePong (c : cid) (payload : string) : op (option error)
| OClose (c : cid) : op unit
(* metrics, the worker queue, the limiter, the authorizer, the handshake *)
| OInc (k : counter) (n : Z) : op unit
| OObserve : op unit
| OSchedule (t : task) : op unit
| OAllow (ip : string) (now : Z) : op bool
| OAuthorizer : op authorizer
| OCachePut (r : Request) (keys : list string) (now now' : Z) : op unit
| OAuthCall (r : Request) : op (result string)
| OUpgrade (r : Request) : op (result bool).

(** ** The world outside *)

Class Env := {
  env_clock : nat → Z;
  env_range : nat → gset string → list string;
  env_net : nat → bool;
  env_uuid : nat → result uuid;
  env_auth : nat → result string;
  env_upgrade : nat → result bool;
  env_url : string → option error;
  env_version : string;
  env_commit : string;
  env_go : string;
}.

(** [g.upgrade(w, r)]: the extension is offered when compression is configured;
    [handshake] is an error, or whether an offer was accepted. *)
Definition upgrade (cfg : Config) (handshake : result bool) : result bool :=
  if negb (Compression cfg) then
    match handshake with Err e => Err e | Ok _ => Ok false end
  else match handshake with Err e => Err e | Ok accepted => Ok accepted end.

(** The order of a [range] is some enumeration of the keys, whatever the
    environment proposes. *)
Definition range_order `{Env} (n : nat) (X : gset string) : list string :=
  if decide (env_range n X ≡ₚ elements X) then env_range n X else elements X.

(** ** Operations on the registry *)

(** [g.sendLocks[h.Sum32() % len(g.sendLocks)]]: the index of the mutex. *)
Definition sendShards : Z := 256.
Definition sendLock (key : string) : Z := New32a_Sum32 key `mod` sendShards.

(** The closure [add] of [clientsForKey]: [seen] and [out]. *)
Definition clients_add (st : gset cid * list cid) (clients : list cid) : gset cid * list cid :=
  fold_left (λ '(seen, out) c,
    if bool_decide (c ∈ seen) then (seen, out) else ({[c]} ∪ seen, out ++ [c])) clients st.

(** [clientsForKey(key)], with the patterns in the order they are visited. *)
Definition clientsForKey (Conns : gmap string (list cid)) (patterns : list string)
    (key : string) : list cid :=
  let st := clients_add (∅, []) (default [] (Conns !! key)) in
  (fold_left (λ st pattern,
     if keyMatches pattern key then clients_add st (default [] (Conns !! pattern)) else st)
   patterns st).2.

(** The loop of [handleWs] that registers a connection under its keys. *)
Definition register_key (c : cid) (st : gmap string (list cid) * gset string) (key : string)
  : gmap string (list cid) * gset string :=
  let '(Conns, patterns) := st in
  (<[key := default [] (Conns !! key) ++ [c]]> Conns,
   if hasWildcard key then {[key]} ∪ patterns else patterns).

(** The loop of [removeClient] over the keys of the connection. *)
Definition unregister_key (c : cid) (st : gmap string (list cid) * gset string) (key : string)
  : gmap string (list cid) * gset string :=
  let '(Conns, patterns) := st in
  let live := filter (λ x, x ≠ c) (default [] (Conns !! key)) in
  if decide (live = []) then (delete key Conns, patterns ∖ {[key]})
  else (<[key := live]> Conns, patterns).

(** ** Setters *)

Section setters.
Context {S : Type}.
Implicit Types (g : Goctopus S).

Definition set_registry g (st : gmap string (list cid) * gset string) : Goctopus S :=
  MkGoctopus st.1 st.2 (g_sendLocks g) (g_clients g) (g_next g) (g_storage g)
    (g_authorizer g) (g_limiter g) (g_history g) (g_metrics g) (g_observed g) (g_work g)
    (g_spawned g) (g_workers g) (g_cancelled g) (g_tick g).
Definition set_locks g (l : gset Z) : Goctopus S :=
  MkGoctopus (g_Conns g) (g_patterns g) l (g_clients g) (g_next g) (g_storage g)
    (g_authorizer g) (g_limiter g) (g_history g) (g_metrics g) (g_observed g) (g_work g)
    (g_spawned g) (g_workers g) (g_cancelled g) (g_tick g).
Definition set_clients g (t : gmap cid client) (n : cid) : Goctopus S :=
  MkGoctopus (g_Conns g) (g_patterns g) (g_sendLocks g) t n (g_storage g)
    (g_authorizer g) (g_limiter g) (g_history g) (g_metrics g) (g_observed g) (g_work g)
    (g_spawned g) (g_workers g) (g_cancelled g) (g_tick g).
Definition set_storage g (s : S) : Goctopus S :=
  MkGoctopus (g_Conns g) (g_patterns g) (g_sendLocks g) (g_clients g) (g_next g) s
    (g_authorizer g) (g_limiter g) (g_history g) (g_metrics g) (g_observed g) (g_work g)
    (g_spawned g) (g_workers g) (g_cancelled g) (g_tick g).
Definition set_authorizer g (a : authorizer) : Goctopus S :=
  MkGoctopus (g_Conns g) (g_patterns g) (g_sendLocks g) (g_clients g) (g_next g)
    (g_storage g) a (g_limiter g) (g_history g) (g_metrics g) (g_observed g) (g_work g)
    (g_spawned g) (g_workers g) (g_cancelled g) (g_tick g).
Definition set_limiter g (l : option rateLimiter) : Goctopus S :=
  MkGoctopus (g_Conns g) (g_patterns g) (g_sendLocks g) (g_clients g) (g_next g)
    (g_storage g) (g_authorizer g) l (g_history g) (g_metrics g) (g_observed g) (g_work g)
    (g_spawned g) (g_workers g) (g_cancelled g) (g_tick g).
Definition set_history g (h : option historyStore) : Goctopus S :=
  MkGoctopus (g_Conns g) (g_patterns g) (g_sendLocks g) (g_clients g) (g_next g)
    (g_storage g) (g_authorizer g) (g_limiter g) h (g_metrics g) (g_observed g) (g_work g)
    (g_spawned g) (g_workers g) (g_cancelled g) (g_tick g).
Definition set_metrics g (m : counter → Z) (n : Z) : Goctopus S :=
  MkGoctopus (g_Conns g) (g_patterns g) (g_sendLocks g) (g_clients g) (g_next g)
    (g_storage g) (g_authorizer g) (g_limiter g) (g_history g) m n (g_work g)
    (g_spawned g) (g_workers g) (g_cancelled g) (g_tick g).
Definition set_work g (w : list task) (s : list goroutine) : Goctopus S :=
  MkGoctopus (g_Conns g) (g_patterns g) (g_sendLocks g) (g_clients g) (g_next g)
    (g_storage g) (g_authorizer g) (g_limiter g) (g_history g) (g_metrics g) (g_observed g)
    w s (g_workers g) (g_cancelled g) (g_tick g).
Definition set_workers g (n : Z) : Goctopus S :=
  MkGoctopus (g_Conns g) (g_patterns g) (g_sendLocks g) (g_clients g) (g_next g)
    (g_storage g) (g_authorizer g) (g_limiter g) (g_history g) (g_metrics g) (g_observed g)
    (g_work g) (g_spawned g) n (g_cancelled g) (g_tick g).
Definition set_cancelled g : Goctopus S :=
  MkGoctopus (g_Conns g) (g_patterns g) (g_sendLocks g) (g_clients g) (g_next g)
    (g_storage g) (g_authorizer g) (g_limiter g) (g_history g) (g_metrics g) (g_observed g)
    (g_work g) (g_spawned g) (g_workers g) true (g_tick g).
Definition next_tick g : Goctopus S :=
  MkGoctopus (g_Conns g) (g_patterns g) (g_sendLocks g) (g_clients g) (g_next g)
    (g_storage g) (g_authorizer g) (g_limiter g) (g_history g) (g_metrics g) (g_observed g)
    (g_work g) (g_spawned g) (g_workers g) (g_cancelled g) (1 + g_tick g)%nat.
End setters.

(** ** The meaning of the actions *)

(** [cap(g.work)] as [Start] computes it. *)
Definition queueCap (cfg : Config) : Z :=
  let cap := wrap64 (Workers cfg * 64) in if cap <? 256 then 256 else cap.

Section exec.
Context {S : Type} `{Storage S} `{Env}.
Context (cfg : Config).
Implicit Types (g : Goctopus S).

(** [f] on the connection [c]; an address that was never allocated does not
    occur. *)
Definition with_client {X} (g : Goctopus S) (c : cid) (x : X) (f : client → client * X)
  : Goctopus S * X :=
  match g_clients g !! c with
  | None => (g, x)
  | Some cl =>
    let '(cl', y) := f cl in (set_clients g (<[c := cl']> (g_clients g)) (g_next g), y)
  end.

(** [f] on the storage. *)
Definition with_storage {X} (g : Goctopus S) (f : S → S * X) : Goctopus S * X :=
  let '(s, x) := f (g_storage g) in (set_storage g s, x).

Definition exec_op {X} (o : op X) : Goctopus S → Goctopus S * X :=
  match o in op X return Goctopus S → Goctopus S * X with
  | ONow => λ g, (g, env_clock (g_tick g))
  | ONewRandom => λ g, (g, env_uuid (g_tick g))
  | ORange K => λ g, (g, range_order (g_tick g) K)
  | OGo r => λ g, (set_work g (g_work g) (g_spawned g ++ [r]), tt)
  | OSendLock key => λ g, (set_locks g ({[sendLock key]} ∪ g_sendLocks g), tt)
  | OSendUnlock key => λ g, (set_locks g (g_sendLocks g ∖ {[sendLock key]}), tt)
  | OClientsForKey key => λ g,
      (g, clientsForKey (g_Conns g) (range_order (g_tick g) (g_patterns g)) key)
  | OConnKeys => λ g, (g, range_order (g_tick g) (dom (g_Conns g)))
  | OPresence => λ g, (g, (λ cs : list cid, Z.of_nat (length cs)) <$> g_Conns g)
  | ORegister keys compress => λ g,
      let c := g_next g in
      let cl := newClient keys (WriteTimeout cfg) compress in
      let g := set_clients g (<[c := cl]> (g_clients g)) (1 + c)%nat in
      (set_registry g (fold_left (register_key c) keys (g_Conns g, g_patterns g)), c)
  | OUnregister c => λ g,
      let keys := match g_clients g !! c with Some cl => c_keys cl | None => [] end in
      (set_registry g (fold_left (unregister_key c) keys (g_Conns g, g_patterns g)), tt)
  | OCloseAll => λ g,
      let all := concat (map_to_list (g_Conns g)).*2 in
      (set_clients g (map_imap (λ c cl, Some (if decide (c ∈ all) then close cl else cl))
                               (g_clients g)) (g_next g), tt)
  | OCancel => λ g, (set_cancelled g, tt)
  | OGetQueue key => λ g, with_storage g (GetQueue (range_order (g_tick g)) key)
  | ODeleteQueue key => λ g, with_storage g (DeleteQueue key)
  | OAddMessage key m => λ g, with_storage g (AddMessage key m)
  | ODeleteMessage key id => λ g, with_storage g (DeleteMessage key id)
  | OGetKeys => λ g, with_storage g (GetKeys (range_order (g_tick g)))
  | ONotify key => λ g,
      match as_Notifier with None => (g, None) | Some notify => with_storage g (notify key) end
  | OPing => λ g,
      match as_Pinger with None => (g, None) | Some ping => with_storage g ping end
  | OHistAdd key m now => λ g, (set_history g (history_add key m now (g_history g)), tt)
  | OHistGet key now => λ g,
      let '(h, l) := history_get key now (g_history g) in (set_history g h, l)
  | OHistPurge now => λ g, (set_history g (history_purge now (g_history g)), tt)
  | OMarkInflight c id key => λ g, with_client g c false (λ cl, markInflight cl id key)
  | OTakeInflight c id => λ g, with_client g c None (λ cl, takeInflight cl id)
  | OClearInflight c id => λ g, with_client g c tt (λ cl, (clearInflight cl id, tt))
  | OWriteMessage c data => λ g,
      with_client g c None (λ cl, writeMessage cl data (env_net (g_tick g)))
  | OWritePing c => λ g, with_client g c None (λ cl, writePing cl (env_net (g_tick g)))
  | OWritePong c p => λ g, with_client g c None (λ cl, writePong cl p (env_net (g_tick g)))
  | OClose c => λ g, with_client g c tt (λ cl, (close cl, tt))
  | OInc k n => λ g,
      (set_metrics g (λ k', if decide (k' = k) then g_metrics g k' + n else g_metrics g k')
                   (g_observed g), tt)
  | OObserve => λ g, (set_metrics g (g_metrics g) (g_observed g + 1), tt)
  | OSchedule t => λ g,
      if Z.of_nat (length (g_work g)) <? queueCap cfg
      then (set_work g (g_work g ++ [t]) (g_spawned g), tt)
      else (set_work g (g_work g) (g_spawned g ++ [GTask t]), tt)
  | OAllow ip now => λ g,
      match g_limiter g with
      | None => (g, true)
      | Some rl => let '(rl, ok) := Allow ip now rl in (set_limiter g (Some rl), ok)
      end
  | OAuthorizer => λ g, (g, g_authorizer g)
  | OCachePut r keys now now' => λ g,
      match g_authorizer g with
      | Proxy a => (set_authorizer g (Proxy (cachePut r keys now now' a)), tt)
      | Dummy _ => (g, tt)
      end
  | OAuthCall _ => λ g, (g, env_auth (g_tick g))
  | OUpgrade _ => λ g, (g, upgrade cfg (env_upgrade (g_tick g)))
  end.

(** An action, then the next reading of the environment. *)
Definition exec {X} (o : op X) (g : Goctopus S) : Goctopus S * X :=
  let '(g, x) := exec_op o g in (next_tick g, x).

(** A program alone. *)
Fixpoint run {A} (p : prog op A) (g : Goctopus S) : Goctopus S * A :=
  match p with
  | Ret a => (g, a)
  | Vis o k => let '(g, x) := exec o g in run (k x) g
  end.
End exec.
