(* ===== verification/Engine.v ===== *)
(** * The engine ([src/src/engine.go]) and the connection loops
      ([src/src/client.go])

    Every function as a program over the shared state: delivery, scheduling,
    the background loops, and what a connection's read and ping goroutines do.
    A loop that runs until the process ends is given the finite list of what it
    meets (frames read, ticks) as an argument; its body and its exits are the
    source's. *)
From stdpp Require Import base numbers list gmap strings.
From S2P Require Import Prelude GoStd GoTime Topics Json Const Message Storage History Config.
From S2P Require Import Client Http RateLimit Authorizer Prog.

#[local] Open Scope Z_scope.
#[local] Open Scope prog_scope.

(** ** Storage access *)

Definition getMsgQueue (key : string) : prog op (result (list Message)) :=
  act (OGetQueue key).

Definition deleteMsgQueue (key : string) : prog op unit :=
  act (ODeleteQueue key) ;; Ret tt.

Definition queueMessage (m : Message) : prog op unit :=
  act (OAddMessage (m_Key m) m) ;; Ret tt.

Definition deleteMsgById (key : string) (id : uuid) : prog op (option error) :=
  act (ODeleteMessage key id).

Definition notify (key : string) : prog op unit :=
  act (ONotify key) ;; Ret tt.

Definition storageKeysMatching (pattern : string) : prog op (list string) :=
  let! r := act OGetKeys in
  match r with
  | Err _ => Ret []
  | Ok keys => Ret (filter (λ k, keyMatches pattern k = true) (elems keys))
  end.

Section engine.
Context `{UuidLib, TimeText, JsonText}.
Context (cfg : Config).

(** ** Delivery *)

(** The body of the loop over the connections. *)
Definition send_one (key : string) (msg : Message) (data : json) (c : cid) : prog op unit :=
  let! fresh := act (OMarkInflight c (m_id msg) key) in
  if negb fresh then Ret tt else
  let! err := act (OWriteMessage c data) in
  match err with
  | Some _ => act (OClearInflight c (m_id msg)) ;; act (OClose c)
  | None => act OObserve
  end.

(** The body of the loop over the queue. *)
Definition send_message (key : string) (clients : list cid) (msg : Message) : prog op unit :=
  let! now := act ONow in
  if isExpired msg now then Ret tt else
  match marshal msg false with
  | Err _ => Ret tt
  | Ok data => for_each clients (send_one key msg data)
  end.

Definition sendMessages_locked (key : string) : prog op unit :=
  let! clients := act (OClientsForKey key) in
  if decide (clients = []) then Ret tt else
  let! r := getMsgQueue key in
  match r with
  | Err _ => Ret tt
  | Ok msgQueue => for_each msgQueue (send_message key clients)
  end.

(** The unlock is deferred: it follows every exit of the body. *)
Definition sendMessages (key : string) : prog op unit :=
  act (OSendLock key) ;; sendMessages_locked key ;; act (OSendUnlock key).

(** ** History access: a nil or empty store returns before the clock is read *)

Definition historyAdd (key : string) (m : Message) : prog op unit :=
  if HistorySize cfg <=? 0 then Ret tt else
  let! now := act ONow in act (OHistAdd key m now).

Definition historyGet (key : string) : prog op (list Message) :=
  if HistorySize cfg <=? 0 then Ret [] else
  let! now := act ONow in act (OHistGet key now).

Definition historyPurge : prog op unit :=
  if (HistorySize cfg <=? 0) || (HistoryTTL cfg <=? 0) then Ret tt else
  let! now := act ONow in act (OHistPurge now).

(** ** The scheduled closures *)

(** [handlePost]: deliver a message to each of its targets. *)
Definition deliver (m : Message) (targets : list string) : prog op unit :=
  for_each targets (λ key,
    let mk := with_Key m key in
    queueMessage mk ;;
    historyAdd key mk ;;
    notify key ;;
    sendMessages key).

(** [handleWs]: send a new connection the backlog of its keys. *)
Definition backlog (keys : list string) : prog op unit :=
  for_each keys (λ key,
    if hasWildcard key then
      let! ks := storageKeysMatching key in for_each ks sendMessages
    else sendMessages key).

Definition run_task (t : task) : prog op unit :=
  match t with
  | TDeliver m targets => deliver m targets
  | TBacklog keys => backlog keys
  | TFlush key => sendMessages key
  end.

Definition schedule (t : task) : prog op unit := act (OSchedule t).

(** The handler of cross-instance notifications. *)
Definition on_notification (key : string) : prog op unit := schedule (TFlush key).

(** ** Notifications *)

(** What the [select] of [Subscribe] receives: a published key, the end of the
    channel, or the end of the context. *)
Inductive sub_input := SubMessage (Payload : string) | SubClosed | SubDone.

(** [s.Subscribe(ctx, handler)], over what its [select] receives; it blocks when
    nothing more comes. *)
Fixpoint Subscribe (handler : string → prog op unit) (ins : list sub_input) : prog op unit :=
  match ins with
  | [] | SubDone :: _ | SubClosed :: _ => Ret tt
  | SubMessage key :: ins => handler key ;; Subscribe handler ins
  end.

(** ** The background loops *)

(** The loop of [sweepKey]: the number of messages removed. *)
Fixpoint sweep_queue (key : string) (queue : list Message) (removed : Z) : prog op Z :=
  match queue with
  | [] => Ret removed
  | m :: queue =>
    let! now := act ONow in
    if isExpired m now then
      deleteMsgById key (m_id m) ;; sweep_queue key queue (removed + 1)
    else sweep_queue key queue removed
  end.

Definition sweepKey (key : string) : prog op unit :=
  let! r := getMsgQueue key in
  match r with
  | Err _ => Ret tt
  | Ok queue =>
    let! removed := sweep_queue key queue 0 in
    if removed =? 0 then Ret tt else act (OInc Expired removed)
  end.

(** One turn of [sweepExpired], after a tick. *)
Definition sweep_turn : prog op unit :=
  let! r := act OGetKeys in
  match r with
  | Err _ => Ret tt
  | Ok keys => for_each (elems keys) sweepKey ;; historyPurge
  end.

(** [sweepExpired] over its first [n] ticks. *)
Fixpoint sweepExpired (n : nat) : prog op unit :=
  match n with
  | O => Ret tt
  | S n => sweep_turn ;; sweepExpired n
  end.

(** The keys the patterns match in the storage, added to the set. *)
Fixpoint reconcile_keys (patterns : list string) (keySet : gset string)
  : prog op (gset string) :=
  match patterns with
  | [] => Ret keySet
  | p :: patterns =>
    let! ks := storageKeysMatching p in
    reconcile_keys patterns (list_to_set ks ∪ keySet)
  end.

(** One turn of [reconcileLoop], after a tick. *)
Definition reconcile_turn : prog op unit :=
  let! keys := act OConnKeys in
  let patterns := filter (λ k, hasWildcard k = true) keys in
  let concrete := filter (λ k, hasWildcard k ≠ true) keys in
  let! keySet := reconcile_keys patterns (list_to_set concrete) in
  let! order := act (ORange keySet) in
  for_each order sendMessages.

(** [reconcileLoop] over its first [n] ticks. *)
Fixpoint reconcileLoop (n : nat) : prog op unit :=
  if ReconcileInterval cfg <=? 0 then Ret tt else
  match n with
  | O => Ret tt
  | S n => reconcile_turn ;; reconcileLoop n
  end.

(** [Stop]: cancel the context, then close every connection under the lock. *)
Definition Stop : prog op unit := act OCancel ;; act OCloseAll.

(** ** Connections *)

Definition removeClient (c : cid) : prog op unit :=
  act (OClose c) ;; act (OUnregister c).

(** The acknowledged id in a payload, if it is well formed. *)
Definition ack_id (payload : string) : option uuid :=
  match json_parse payload with
  | Some (JObj data) =>
    match map_index "id" data with
    | JStr idStr => uuid_Parse idStr
    | _ => None
    end
  | _ => None
  end.

Definition handleAck (c : cid) (payload : string) : prog op unit :=
  match ack_id payload with
  | None => Ret tt
  | Some id =>
    let! taken := act (OTakeInflight c id) in
    match taken with
    | Some key => deleteMsgById key id ;; Ret tt
    | None => Ret tt
    end ;;
    act (OInc Delivered 1)
  end.

Inductive opcode := OpText | OpBinary | OpPing | OpClose | OpOther.

(** What the reader meets: a read error (the deadline included), or a message
    with its opcode, its bytes and, when it came compressed, the bytes the
    decompressor yields and whether it fails after them. *)
Inductive input :=
| InError
| InMessage (op : opcode) (payload : string) (deflated : option (string * bool)).

(** [io.ReadAll(io.LimitReader(rd, n))]: a limit that is not positive reads
    nothing. *)
Definition read_limited (payload : string) (n : Z) : string :=
  str_take (Z.to_nat n) payload.

(** [inflate(b, max)]: at most [max+1] bytes are read from the decompressor,
    whose failure only counts when it comes before the limit. *)
Definition inflate (data : string) (fails : bool) (max : Z) : option string :=
  let limit := wrap64 (max + 1) in
  if fails && (str_len data <? limit) then None else Some (read_limited data limit).

(** The payload [readLoop] accepts from a message, [None] when it drops the
    connection. *)
Definition accept_payload (compress : bool) (payload : string)
    (deflated : option (string * bool)) : option string :=
  let max := MaxMessageBytes cfg in
  let limit := wrap64 (max + 1) in
  let payload := read_limited payload limit in
  if max <? str_len payload then None else
  match deflated with
  | Some (data, fails) =>
    if compress then
      match inflate data fails max with
      | None => None
      | Some data => if max <? str_len data then None else Some data
      end
    else Some payload
  | None => Some payload
  end.

(** The loop of [readLoop]; [removeClient] is deferred. *)
Fixpoint read_frames (c : cid) (compress : bool) (ins : list input) : prog op unit :=
  match ins with
  | [] | InError :: _ => Ret tt
  | InMessage opc payload deflated :: ins =>
    match accept_payload compress payload deflated with
    | None => Ret tt
    | Some payload =>
      match opc with
      | OpText | OpBinary => handleAck c payload ;; read_frames c compress ins
      | OpPing =>
        let! err := act (OWritePong c payload) in
        match err with Some _ => Ret tt | None => read_frames c compress ins end
      | OpClose => Ret tt
      | OpOther => read_frames c compress ins
      end
    end
  end.

Definition readLoop (c : cid) (compress : bool) (ins : list input) : prog op unit :=
  read_frames c compress ins ;; removeClient c.

(** What wakes [pingLoop]. *)
Inductive wakeup := WTick | WDone | WCancelled.

Fixpoint pingLoop (c : cid) (ws : list wakeup) : prog op unit :=
  match ws with
  | [] | WDone :: _ => Ret tt
  | WCancelled :: _ => act (OClose c)
  | WTick :: ws =>
    let! err := act (OWritePing c) in
    match err with Some _ => act (OClose c) | None => pingLoop c ws end
  end.
End engine.

(** ** What the reader accepts *)

Lemma str_len_take n s : String.length (str_take n s) = Nat.min n (String.length s).
Proof. revert s. induction n as [|n IH]; intros [|c s]; simpl; auto. Qed.

Lemma str_take_all n s : (String.length s ≤ n)%nat → str_take n s = s.
Proof.
  revert s. induction n as [|n IH]; intros [|c s]; simpl; intros Hs; try done; try lia.
  f_equal. apply IH. lia.
Qed.

(** Below the largest int64 the limit is exact: a plain payload is accepted
    whole when it is within the limit and dropped otherwise, and no accepted
    payload, inflated or not, is longer than the limit. *)
Theorem payload_limit cfg compress payload deflated :
  0 ≤ MaxMessageBytes cfg < max_int64 →
  (∀ p, accept_payload cfg compress payload deflated = Some p →
     str_len p ≤ MaxMessageBytes cfg) ∧
  accept_payload cfg compress payload None =
    if str_len payload <=? MaxMessageBytes cfg then Some payload else None.
Proof.
  intros Hmax. unfold accept_payload, read_limited.
  rewrite wrap64_id by (unfold in_int64, min_int64, max_int64, two63 in *; lia).
  set (max := MaxMessageBytes cfg) in *. unfold str_len. rewrite str_len_take. split.
  - intros p. destruct (max <? _) eqn:Hlen; [done|].
    assert (Z.of_nat (String.length (str_take (Z.to_nat (max + 1)) payload)) ≤ max) as Hp
      by (rewrite str_len_take; by apply Z.ltb_ge in Hlen).
    destruct deflated as [[data fails]|]; [|by intros [= <-]].
    destruct compress; [|by intros [= <-]].
    destruct (inflate data fails max) as [out|]; [|done].
    destruct (max <? Z.of_nat (String.length out)) eqn:Hout; [done|]. intros [= <-]. lia.
  - destruct (Z.of_nat (String.length payload) <=? max) eqn:Hle.
    + rewrite (proj2 (Z.ltb_ge _ _)) by lia. rewrite str_take_all by lia. done.
    + rewrite (proj2 (Z.ltb_lt _ _)) by lia. done.
Qed.

(** With the largest int64 as limit, [max+1] wraps around and every payload is
    read as empty. *)
Theorem payload_limit_overflow cfg compress payload :
  MaxMessageBytes cfg = max_int64 →
  accept_payload cfg compress payload None = Some EmptyString.
Proof.
  intros Hmax. unfold accept_payload. rewrite Hmax.
  assert (read_limited payload (wrap64 (max_int64 + 1)) = EmptyString) as ->
    by (unfold read_limited; change (Z.to_nat (wrap64 (max_int64 + 1))) with 0%nat;
        by destruct payload).
  done.
Qed.
