(* ===== verification/Server.v ===== *)
(** * The HTTP surface ([src/src/server.go], and the endpoints of
      [src/src/metrics.go])

    Every handler as a program that returns the response. *)
From stdpp Require Import base numbers list gmap strings sorting.
From S2P Require Import Prelude GoStd GoFmt GoTime Topics Json Const Message Storage History Config.
From S2P Require Import Client Http RateLimit Authorizer Prog Engine.

#[local] Open Scope Z_scope.
#[local] Open Scope prog_scope.

Section server.
Context `{UuidLib, TimeText, JsonText, Env}.
Context (cfg : Config) (SplitHostPort : string → result string).

(** ** Admission *)

(** [g.allow(r)]: a nil limiter admits everything. *)
Definition allow (r : Request) : prog op bool :=
  if negb (limiter_on cfg) then Ret true else
  let! now := act ONow in act (OAllow (clientIP SplitHostPort cfg r) now).

(** The verdict of [authorizeBackend]: [None] to go on, or the status that
    rejects the request. *)
Definition backend_verdict (r : Request) : option Z :=
  if InsecureNoAuth cfg then None else
  if bool_decide (Login cfg = EMPTY_STR) || bool_decide (Password cfg = EMPTY_STR)
  then Some StatusUnauthorized else
  match r_BasicAuth r with
  | None => Some StatusUnauthorized
  | Some (username, password) =>
    let userOK := bool_decide (username = Login cfg) in
    let passOK := bool_decide (password = Password cfg) in
    if negb userOK || negb passOK then Some StatusForbidden else None
  end.

Definition authorizeBackend (r : Request) : prog op (option Z) :=
  match backend_verdict r with
  | None => Ret None
  | Some status => act (OInc AuthFail 1) ;; Ret (Some status)
  end.

(** [g.authorizer.Authorize(g, r)], for the two engines. *)
Definition cacheGet_prog (r : Request) (a : ProxyAuthorizer) : prog op (option (list string)) :=
  if cacheTTL a <=? 0 then Ret None else
  let! now := act ONow in Ret (cacheGet r now a).

Definition Authorize (r : Request) : prog op (result (list string)) :=
  let! a := act OAuthorizer in
  match a with
  | Dummy keys => Ret (Ok keys)
  | Proxy a =>
    let! hit := cacheGet_prog r a in
    match hit with
    | Some keys => Ret (Ok keys)
    | None =>
      let! answer := act (OAuthCall r) in
      match auth_keys answer with
      | Err e => Ret (Err e)
      | Ok keys =>
        if cacheTTL a <=? 0 then Ret (Ok keys) else
        let! now := act ONow in
        let! now' := act ONow in
        act (OCachePut r keys now now') ;; Ret (Ok keys)
      end
    end
  end.

(** ** Publishing *)

Definition handlePost (r : Request) : prog op response :=
  let! now := act ONow in
  let! rnd := act ONewRandom in
  match unmarshal (ReadAll_MaxBytes (r_Body r) (MaxMessageBytes cfg)) (DefaultExpire cfg)
                  now rnd with
  | Panicked => Ret Aborted
  | Returned (Err _) => Ret (status_only StatusBadRequest)
  | Returned (Ok m) =>
    act (OInc Received 1) ;;
    schedule (TDeliver m (m_targets m)) ;;
    Ret (status_only StatusAccepted)
  end.

(** ** Reading *)

(** [json.Marshal] of the keys: a nil slice is written as null. *)
Definition keys_body (keys : slice string) : json :=
  match keys with NilSlice => JNull | Slice l => JArr (JStr <$> l) end.

Definition getMarshalledKeys : prog op (result json) :=
  let! r := act OGetKeys in
  match r with
  | Err e => Ret (Err e)
  | Ok keys => Ret (Ok (keys_body keys))
  end.

(** [json.Marshal] of a list of maps: one error is an error of the whole. *)
Fixpoint marshal_maps (ms : list Message) : result (list json) :=
  match ms with
  | [] => Ok []
  | m :: ms =>
    match marshal m true with
    | Err e => Err e
    | Ok j => match marshal_maps ms with Err e => Err e | Ok js => Ok (j :: js) end
    end
  end.

(** The messages of a queue that have not expired, each tested at its own
    clock reading. *)
Fixpoint live_messages (q : list Message) : prog op (list Message) :=
  match q with
  | [] => Ret []
  | m :: q =>
    let! now := act ONow in
    let! rest := live_messages q in
    Ret (if isExpired m now then rest else m :: rest)
  end.

Definition getMarshalledMessages (key : string) : prog op (result json) :=
  let! r := getMsgQueue key in
  match r with
  | Err _ => Ret (Err (Error (default EMPTY_STR (Sprintf LIST_KEYS_ERR [OStr key]))))
  | Ok q =>
    let! live := live_messages q in
    match marshal_maps live with
    | Err e => Ret (Err e)
    | Ok js => Ret (Ok (JArr js))
    end
  end.

(** An answer body, or the status of the error. *)
Definition respond (r : result json) (status : Z) : response :=
  match r with
  | Err _ => status_only status
  | Ok j => Response StatusOK (JsonBody j)
  end.

Definition handlePresence : prog op response :=
  let! counts := act OPresence in
  Ret (Response StatusOK (JsonBody (marshal_members (fmap (M:=gmap string) (λ n, JNum (f64_of_Z n)) counts)))).

Definition handleHistory (key : string) : prog op response :=
  let! msgs := historyGet cfg key in
  Ret (match marshal_maps msgs with
       | Err _ => status_only StatusInternalServerError
       | Ok js => Response StatusOK (JsonBody (JArr js))
       end).

Definition handleGet (r : Request) : prog op response :=
  let key := query_Get r KEY in
  if query_Has r PRESENCE then handlePresence else
  if negb (bool_decide (key = EMPTY_STR)) && query_Has r HISTORY then handleHistory key else
  if decide (key = EMPTY_STR) then
    let! b := getMarshalledKeys in Ret (respond b StatusBadRequest)
  else
    let! b := getMarshalledMessages key in Ret (respond b StatusBadRequest).

(** ** Deleting *)

Definition handleDelete (r : Request) : prog op response :=
  let key := query_Get r KEY in
  let id_ := query_Get r ID in
  if negb (bool_decide (id_ = EMPTY_STR)) && bool_decide (key = EMPTY_STR)
  then Ret (status_only StatusBadRequest) else
  let parsed :=
    if bool_decide (id_ = EMPTY_STR) then Some None else Some <$> uuid_Parse id_ in
  match parsed with
  | None => Ret (status_only StatusBadRequest)
  | Some id =>
    if decide (key = EMPTY_STR) then
      let! keys := act OGetKeys in
      match keys with
      | Err _ => Ret (status_only StatusBadRequest)
      | Ok keys => for_each (elems keys) deleteMsgQueue ;; Ret (status_only StatusOK)
      end
    else
      match id with
      | None => deleteMsgQueue key ;; Ret (status_only StatusOK)
      | Some id =>
        let! err := deleteMsgById key id in
        match err with
        | Some _ => Ret (status_only StatusBadRequest)
        | None => Ret (status_only StatusOK)
        end
      end
  end.

(** ** Dispatch *)

Definition handleMethodNotAllowed : response := status_only StatusMethodNotAllowed.

Definition handleHTTP (r : Request) : prog op response :=
  let! ok := allow r in
  if negb ok then Ret (status_only StatusTooManyRequests) else
  let! rejected := authorizeBackend r in
  match rejected with
  | Some status => Ret (status_only status)
  | None =>
    if decide (r_Method r = "POST") then handlePost r
    else if decide (r_Method r = "GET") then handleGet r
    else if decide (r_Method r = "DELETE") then handleDelete r
    else Ret handleMethodNotAllowed
  end.

(** A failed handshake answers for itself. *)
Definition handleWs (r : Request) : prog op response :=
  let! ok := allow r in
  if negb ok then Ret (status_only StatusTooManyRequests) else
  if negb (originAllowed cfg (header_Get r ORIGIN)) then Ret (status_only StatusForbidden) else
  let! auth := Authorize r in
  match auth with
  | Err _ => act (OInc AuthFail 1) ;; Ret (status_only StatusUnauthorized)
  | Ok keys =>
    let! conn := act (OUpgrade r) in
    match conn with
    | Err _ => Ret Aborted
    | Ok compress =>
      let! c := act (ORegister keys compress) in
      act (OGo (GReadLoop c)) ;;
      act (OGo (GPingLoop c)) ;;
      schedule (TBacklog keys) ;;
      Ret (status_only StatusSwitchingProtocols)
    end
  end.

(** [handleHealthz] and [handleReadyz]; storage and authorizer are set once
    [Start] has returned. *)
Definition handleHealthz : response := Response StatusOK (TextBody "ok").

Definition handleReadyz : prog op response :=
  let! err := act OPing in
  match err with
  | Some _ => Ret (status_only StatusServiceUnavailable)
  | None => Ret (Response StatusOK (TextBody "ready"))
  end.

(** [handleVersion]: the variables of the build and [runtime.Version()]. *)
Definition handleVersion : response :=
  Response StatusOK (JsonBody (marshal_members (list_to_map
    [("version", JStr env_version); ("commit", JStr env_commit); ("go", JStr env_go)]))).

(** The text of [/metrics] is printed by the Prometheus library; the routing to
    it is modelled here, what it reads in [Instruments]. *)
Definition ServeHTTP (r : Request) : prog op response :=
  let p := r_Path r in
  if decide (p = ROOT) then handleHTTP r
  else if decide (p = WS ∨ p = WS_) then handleWs r
  else if decide (p = HEALTHZ) then Ret handleHealthz
  else if decide (p = READYZ) then handleReadyz
  else if decide (p = METRICS) then Ret (status_only StatusOK)
  else if decide (p = VERSION) then Ret handleVersion
  else Ret (status_only StatusNotFound).
End server.
