(* ===== verification/System.v ===== *)
(** * The running gateway

    [Start], and the gateway as a transition system: goroutines that interleave
    at their atomic actions, a worker pool draining the queue, requests,
    notifications and a stop arriving at any time.  A configuration carries the
    trace of what happened, in which the safety theorems are stated. *)
From stdpp Require Import base numbers list gmap strings sorting relations.
From S2P Require Import Prelude GoStd GoTime Topics Json Const Message Storage History Config.
From S2P Require Import Client Http RateLimit Authorizer Prog Engine Server.

#[local] Open Scope Z_scope.
#[local] Open Scope prog_scope.

(** ** Start *)

(** The table [Storages]: the in-memory engine under two names, and Redis. A
    constructor and its [Init] are one function of the configuration. *)
Definition Storages {S} (memory redis : Config → result S) (engine : string)
  : option (Config → result S) :=
  if decide (engine = DEFAULT ∨ engine = MEMORY) then Some memory
  else if decide (engine = REDIS) then Some redis
  else None.

Section start.
Context {S : Type} `{Env}.

Definition getStorage (cfg : Config) (engines : string → option (Config → result S))
  : outcome S :=
  match engines (ToLower (StorageEngine cfg)) with
  | None => Panicked
  | Some factory => match factory cfg with Err _ => Panicked | Ok s => Returned s end
  end.

Definition getAuthorizer (cfg : Config) : outcome authorizer :=
  match Authorizers env_url (ToLower (AuthorizerEngine cfg)) with
  | None => Panicked
  | Some factory => match factory cfg with Err _ => Panicked | Ok a => Returned a end
  end.

(** [g.Start(cfg)], for a table of storage engines. *)
Definition Start (cfg : Config) (engines : string → option (Config → result S))
  : outcome (Goctopus S) :=
  match getStorage cfg engines with
  | Panicked => Panicked
  | Returned s =>
    match getAuthorizer cfg with
    | Panicked => Panicked
    | Returned a =>
      if Workers cfg <=? 0 then Panicked else
      Returned {|
        g_Conns := ∅; g_patterns := ∅; g_sendLocks := ∅; g_clients := ∅; g_next := 0%nat;
        g_storage := s;
        g_authorizer := a;
        g_limiter := if limiter_on cfg
                     then Some (newRateLimiter (RateLimit cfg) (RateBurst cfg)) else None;
        g_history := if 0 <? HistorySize cfg
                     then Some (newHistoryStore (HistorySize cfg) (HistoryTTL cfg)) else None;
        g_metrics := λ _, 0; g_observed := 0;
        g_work := []; g_spawned := []; g_workers := Workers cfg; g_cancelled := false; g_tick := 0%nat
      |}
    end
  end.
End start.

(** ** Events *)

Inductive event :=
| EvRequest (r : Request)
| EvNow (t : Z)
| EvClients (key : string) (clients : list cid)
| EvRead (key : string) (q : list Message)
| EvAdd (key : string) (m : Message) (err : option error)
| EvDelete (key : string) (id : uuid) (err : option error)
| EvDeleteQueue (key : string) (err : option error)
| EvMark (c : cid) (id : uuid) (key : string)
| EvTake (c : cid) (id : uuid) (key : string)
| EvClear (c : cid) (id : uuid)
| EvWrite (c : cid) (data : json) (err : option error)
| EvRegister (c : cid) (keys : list string)
| EvClose (c : cid).

(** What the trace keeps of an action and its result. *)
Definition event_of {X} (o : op X) : X → list event :=
  match o in op X return X → list event with
  | ONow => λ t, [EvNow t]
  | OClientsForKey key => λ cs, [EvClients key cs]
  | OGetQueue key => λ r, match r with Ok q => [EvRead key q] | Err _ => [] end
  | OAddMessage key m => λ err, [EvAdd key m err]
  | ODeleteMessage key id => λ err, [EvDelete key id err]
  | ODeleteQueue key => λ err, [EvDeleteQueue key err]
  | OMarkInflight c id key => λ b, if (b : bool) then [EvMark c id key] else []
  | OTakeInflight c id => λ r, match r with Some key => [EvTake c id key] | None => [] end
  | OClearInflight c id => λ _, [EvClear c id]
  | OWriteMessage c data => λ err, [EvWrite c data err]
  | ORegister keys _ => λ c, [EvRegister c keys]
  | OClose c => λ _, [EvClose c]
  | _ => λ _, []
  end.

(** ** Configurations and steps *)

(** A goroutine: one of the workers running a task, or one of its own. *)
Record thread := Thread { t_worker : bool; t_prog : prog op unit }.

Section system.
Context {S : Type} `{Storage S} `{UuidLib, TimeText, JsonText, Env}.
Context (cfg : Config) (SplitHostPort : string → result string).

Record sys := Sys {
  s_g : Goctopus S;
  s_threads : list thread;
  s_trace : list event;
}.

(** A lock is the only action that can block. *)
Definition enabled {X} (o : op X) (g : Goctopus S) : Prop :=
  match o with OSendLock key => sendLock key ∉ g_sendLocks g | _ => True end.

Definition busy_workers (ts : list thread) : Z :=
  Z.of_nat (length (filter (λ t, t_worker t = true) ts)).

(** The programs a [go] statement can start: a read loop over any input, a
    ping loop over any sequence of wake-ups. *)
Inductive starts (g : Goctopus S) : goroutine → prog op unit → Prop :=
| starts_task t : starts g (GTask t) (run_task cfg t)
| starts_read c cl ins :
    g_clients g !! c = Some cl →
    starts g (GReadLoop c) (readLoop cfg c (c_compress cl) ins)
| starts_ping c ws : starts g (GPingLoop c) (pingLoop c ws).

(** An idle worker takes the next task; once the context is cancelled it returns
    when it finds the queue empty, and takes no more. *)
Inductive step : sys → sys → Prop :=
| step_act g ts tr i w X (o : op X) k g' x :
    ts !! i = Some (Thread w (Vis o k)) →
    enabled o g →
    exec cfg o g = (g', x) →
    step (Sys g ts tr) (Sys g' (<[i := Thread w (k x)]> ts) (tr ++ event_of o x))
| step_end g ts1 w ts2 tr :
    step (Sys g (ts1 ++ Thread w (Ret tt) :: ts2) tr) (Sys g (ts1 ++ ts2) tr)
| step_worker g ts tr t work :
    g_work g = t :: work →
    busy_workers ts < g_workers g →
    step (Sys g ts tr)
         (Sys (set_work g work (g_spawned g)) (ts ++ [Thread true (run_task cfg t)]) tr)
| step_worker_exit g ts tr :
    g_cancelled g = true →
    g_work g = [] →
    busy_workers ts < g_workers g →
    step (Sys g ts tr) (Sys (set_workers g (g_workers g - 1)) ts tr)
| step_go g ts tr rs1 r rs2 p :
    g_spawned g = rs1 ++ r :: rs2 →
    starts g r p →
    step (Sys g ts tr)
         (Sys (set_work g (g_work g) (rs1 ++ rs2)) (ts ++ [Thread false p]) tr)
| step_request g ts tr r :
    step (Sys g ts tr)
         (Sys g (ts ++ [Thread false (ServeHTTP cfg SplitHostPort r ;; Ret tt)])
              (tr ++ [EvRequest r]))
| step_notification g ts tr key :
    step (Sys g ts tr) (Sys g (ts ++ [Thread false (on_notification key)]) tr)
| step_stop g ts tr :
    step (Sys g ts tr) (Sys g (ts ++ [Thread false Stop]) tr).

(** The gateway just started, its two background loops about to run for some
    number of ticks. *)
Definition initial (engines : string → option (Config → result S)) (s : sys) : Prop :=
  ∃ g sweeps reconciles,
    Start cfg engines = Returned g ∧
    s = Sys g [Thread false (sweepExpired cfg sweeps);
               Thread false (reconcileLoop cfg reconciles)] [].

Definition reachable (engines : string → option (Config → result S)) (s : sys) : Prop :=
  ∃ s0, initial engines s0 ∧ rtc step s0 s.
End system.
Arguments Sys {S}.
Arguments s_g {S}. Arguments s_threads {S}. Arguments s_trace {S}.

(** ** What [Start] leaves *)

Lemma getStorage_cases {S} cfg (memory redis : Config → result S) :
  let storage := ToLower (StorageEngine cfg) in
  match getStorage cfg (Storages memory redis) with
  | Panicked =>
      storage ∉ [DEFAULT; MEMORY; REDIS] ∨
      (storage ≠ REDIS ∧ ∃ e, memory cfg = Err e) ∨ (storage = REDIS ∧ ∃ e, redis cfg = Err e)
  | Returned s =>
      (storage ∈ [DEFAULT; MEMORY] ∧ memory cfg = Ok s) ∨ (storage = REDIS ∧ redis cfg = Ok s)
  end.
Proof.
  unfold getStorage, Storages. cbn zeta.
  generalize (ToLower (StorageEngine cfg)) as e. intros e.
  destruct (decide (e = DEFAULT ∨ e = MEMORY)) as [He|He].
  - destruct (memory cfg) as [s|err] eqn:Hm.
    + left. split; [rewrite !elem_of_cons; tauto|done].
    + right; left. split; [by destruct He as [-> | ->]|eauto].
  - destruct (decide (e = REDIS)) as [->|Hr]; [destruct (redis cfg) eqn:Hm; eauto 6|].
    left. rewrite !elem_of_cons, elem_of_nil. tauto.
Qed.

Lemma getAuthorizer_cases `{Env} cfg :
  let auth := ToLower (AuthorizerEngine cfg) in
  match getAuthorizer cfg with
  | Panicked =>
      auth ∉ [DEFAULT; PROXY; DUMMY] ∨ (auth ≠ DUMMY ∧ is_Some (env_url (AuthURL cfg)))
  | Returned a =>
      (auth = DUMMY ∧ a = Dummy [AuthURL cfg]) ∨
      (auth ∈ [DEFAULT; PROXY] ∧ env_url (AuthURL cfg) = None ∧
       a = Proxy (MkProxyAuthorizer (AuthCacheTTL cfg) ∅ 0))
  end.
Proof.
  unfold getAuthorizer, Authorizers. cbn zeta.
  generalize (ToLower (AuthorizerEngine cfg)) as e. intros e.
  destruct (decide (e = DEFAULT ∨ e = PROXY)) as [He|He].
  - unfold ProxyAuthorizer_Init. destruct (env_url (AuthURL cfg)) as [err|] eqn:Hu.
    + right. split; [by destruct He as [-> | ->]|eauto].
    + right. split; [rewrite !elem_of_cons; tauto|done].
  - destruct (decide (e = DUMMY)) as [->|Hd]; [by left|].
    left. rewrite !elem_of_cons, elem_of_nil. tauto.
Qed.

(** [Start] panics exactly when the storage engine is unknown or fails to
    initialise, when the authorizer is unknown or its address is malformed, or
    when there is no worker. A gateway that starts holds the storage and the
    authorizer its configuration names, whatever the case of the names, has no
    connection, no work and no lock taken, and has a limiter and a history
    exactly when they are configured. *)
Theorem Start_spec {S} `{Env} (cfg : Config) (memory redis : Config → result S) :
  let storage := ToLower (StorageEngine cfg) in
  let auth := ToLower (AuthorizerEngine cfg) in
  match Start cfg (Storages memory redis) with
  | Panicked =>
      storage ∉ [DEFAULT; MEMORY; REDIS] ∨
      (storage ≠ REDIS ∧ ∃ e, memory cfg = Err e) ∨ (storage = REDIS ∧ ∃ e, redis cfg = Err e) ∨
      auth ∉ [DEFAULT; PROXY; DUMMY] ∨ (auth ≠ DUMMY ∧ is_Some (env_url (AuthURL cfg))) ∨
      Workers cfg ≤ 0
  | Returned g =>
      ((storage ∈ [DEFAULT; MEMORY] ∧ memory cfg = Ok (g_storage g)) ∨
       (storage = REDIS ∧ redis cfg = Ok (g_storage g))) ∧
      ((auth = DUMMY ∧ g_authorizer g = Dummy [AuthURL cfg]) ∨
       (auth ∈ [DEFAULT; PROXY] ∧ env_url (AuthURL cfg) = None ∧
        g_authorizer g = Proxy (MkProxyAuthorizer (AuthCacheTTL cfg) ∅ 0))) ∧
      0 < Workers cfg ∧
      g_Conns g = ∅ ∧ g_clients g = ∅ ∧ g_sendLocks g = ∅ ∧ g_work g = [] ∧ g_spawned g = [] ∧
      (is_Some (g_limiter g) ↔ limiter_on cfg = true) ∧
      (is_Some (g_history g) ↔ 0 < HistorySize cfg)
  end.
Proof.
  generalize (getStorage_cases cfg memory redis), (getAuthorizer_cases cfg).
  unfold Start. cbn zeta.
  destruct (getStorage _ _) as [s|]; [|tauto]. destruct (getAuthorizer _) as [a|]; [|tauto].
  intros Hs Ha.
  destruct (Workers cfg <=? 0) eqn:Hw; [do 5 right; lia|]. cbn.
  split_and!; try done; [lia|..].
  - destruct (limiter_on cfg); split; (done || by eauto || by intros [? [=]]).
  - rewrite <-Z.ltb_lt. destruct (0 <? HistorySize cfg); split;
      (done || by eauto || by intros [? [=]]).
Qed.
