(* ===== verification/Logic.v ===== *)
(** * What goroutines may rely on, and what they must establish

    A small program logic over traces.  [wp p Q tr] says that the program [p],
    started when [tr] has happened and interrupted at will by other goroutines
    (which only extend the trace), meets the obligation [pre] of each of its
    actions and ends with [Q].  The obligations say, for every action that
    deletes, stores, marks, writes or schedules something, which earlier events
    entitle the gateway to it.  The theorems of the file show that every
    program of the gateway meets them. *)
From stdpp Require Import base numbers list gmap strings.
From S2P Require Import Prelude GoStd GoTime Topics Json Const Message Storage History Config.
From S2P Require Import Client Http RateLimit Authorizer Prog Engine Server System.

#[local] Open Scope Z_scope.

Section logic.
Context `{UuidLib, TimeText, JsonText}.
Context (cfg : Config) (SplitHostPort : string → result string).
Implicit Types (tr : list event).

(** ** Obligations *)

(** A request to the backend API that passed authentication. *)
Definition authorised (r : Request) : Prop :=
  r_Path r = ROOT ∧ backend_verdict cfg r = None.

(** [m] is what an authorised POST was parsed to. *)
Definition posted tr (m : Message) : Prop :=
  ∃ r now rnd, EvRequest r ∈ tr ∧ authorised r ∧ r_Method r = "POST" ∧
    unmarshal (ReadAll_MaxBytes (r_Body r) (MaxMessageBytes cfg)) (DefaultExpire cfg) now rnd
    = Returned (Ok m).

(** Storing [m] under [key]: a copy of a posted message, for a target of it. *)
Definition add_ok tr (key : string) (m : Message) : Prop :=
  ∃ m0, posted tr m0 ∧ key ∈ m_targets m0 ∧ m = with_Key m0 key.

(** An authorised DELETE that names this message. *)
Definition delete_requested tr (key : string) (id : uuid) : Prop :=
  ∃ r, EvRequest r ∈ tr ∧ authorised r ∧ r_Method r = "DELETE" ∧
    query_Get r KEY = key ∧ uuid_Parse (query_Get r ID) = Some id.

(** It was read from the queue, and expired at a reading of the clock. *)
Definition seen_expired tr (key : string) (id : uuid) : Prop :=
  ∃ q m t, EvRead key q ∈ tr ∧ m ∈ q ∧ m_id m = id ∧ EvNow t ∈ tr ∧ isExpired m t = true.

(** Deleting one message: acknowledged, expired, or requested. *)
Definition delete_ok tr (key : string) (id : uuid) : Prop :=
  (∃ c, EvTake c id key ∈ tr) ∨ seen_expired tr key id ∨ delete_requested tr key id.

(** Deleting a whole queue: an authorised DELETE of the key, or of all keys. *)
Definition clear_ok tr (key : string) : Prop :=
  ∃ r, EvRequest r ∈ tr ∧ authorised r ∧ r_Method r = "DELETE" ∧
    (query_Get r KEY = key ∨ query_Get r KEY = EMPTY_STR) ∧ query_Get r ID = EMPTY_STR.

(** [m] was read from the queue of [key], and [c] was found to subscribe to
    that key. *)
Definition deliverable tr (c : cid) (key : string) (m : Message) : Prop :=
  ∃ cs q, EvClients key cs ∈ tr ∧ c ∈ cs ∧ EvRead key q ∈ tr ∧ m ∈ q.

Definition mark_ok tr (c : cid) (id : uuid) (key : string) : Prop :=
  ∃ m, deliverable tr c key m ∧ m_id m = id.

(** The frame is the short form of a deliverable message that was marked in
    flight and had not expired when it was looked at. *)
Definition write_ok tr (c : cid) (data : json) : Prop :=
  ∃ key m t, deliverable tr c key m ∧ EvMark c (m_id m) key ∈ tr ∧
    marshal m false = Ok data ∧ EvNow t ∈ tr ∧ isExpired m t = false.

Definition task_ok tr (t : task) : Prop :=
  match t with
  | TDeliver m keys => posted tr m ∧ keys = m_targets m
  | TBacklog _ | TFlush _ => True
  end.

(** The connection was registered. *)
Definition registered tr (c : cid) : Prop := ∃ keys, EvRegister c keys ∈ tr.

(** What a goroutine that starts relies on. *)
Definition start_ok tr (r : goroutine) : Prop :=
  match r with
  | GTask t => task_ok tr t
  | GReadLoop c => registered tr c
  | GPingLoop _ => True
  end.

Definition pre {X} (o : op X) tr : Prop :=
  match o with
  | OAddMessage key m => add_ok tr key m
  | ODeleteMessage key id => delete_ok tr key id
  | ODeleteQueue key => clear_ok tr key
  | OMarkInflight c id key => mark_ok tr c id key
  | OWriteMessage c data => write_ok tr c data
  | OSchedule t => task_ok tr t
  | OGo r => start_ok tr r
  | _ => True
  end.

Fixpoint wp {A} (p : prog op A) (Q : A → list event → Prop) tr : Prop :=
  match p with
  | Ret a => Q a tr
  | Vis o k => pre o tr ∧ ∀ x tr', tr ⊆ tr' → event_of o x ⊆ tr' → wp (k x) Q tr'
  end.

Definition safe (p : prog op unit) tr : Prop := wp p (λ _ _, True) tr.

(** ** Rules *)

(** A predicate that later events do not invalidate. *)
Definition stable (P : list event → Prop) : Prop := ∀ tr tr', tr ⊆ tr' → P tr → P tr'.

Lemma posted_stable m : stable (λ tr, posted tr m).
Proof. intros tr tr' Ht (r & now & rnd & Hr & ?). exists r, now, rnd. eauto. Qed.

Lemma add_ok_stable key m : stable (λ tr, add_ok tr key m).
Proof. intros tr tr' Ht (m0 & Hp & ?). exists m0. split; [by eapply posted_stable|done]. Qed.

Lemma delete_ok_stable key id : stable (λ tr, delete_ok tr key id).
Proof.
  intros tr tr' Ht [[c Hc]|[(q & m & t & ? & ? & ? & ? & ?)|(r & ? & ?)]].
  - left. eauto.
  - right; left. exists q, m, t. eauto 10.
  - right; right. exists r. eauto.
Qed.

Lemma clear_ok_stable key : stable (λ tr, clear_ok tr key).
Proof. intros tr tr' Ht (r & ? & ?). exists r. eauto. Qed.

Lemma deliverable_stable c key m : stable (λ tr, deliverable tr c key m).
Proof. intros tr tr' Ht (cs & q & ? & ? & ? & ?). exists cs, q. eauto 10. Qed.

Lemma mark_ok_stable c id key : stable (λ tr, mark_ok tr c id key).
Proof. intros tr tr' Ht (m & Hd & ?). exists m. split; [by eapply deliverable_stable|done]. Qed.

Lemma write_ok_stable c data : stable (λ tr, write_ok tr c data).
Proof.
  intros tr tr' Ht (key & m & t & ? & ? & ? & ? & ?). exists key, m, t.
  split_and!; [by eapply deliverable_stable|auto..].
Qed.

Lemma task_ok_stable t : stable (λ tr, task_ok tr t).
Proof. intros tr tr' Ht. destruct t; [|done..]. intros [??]. split; [by eapply posted_stable|done]. Qed.

Lemma start_ok_stable r : stable (λ tr, start_ok tr r).
Proof.
  intros tr tr' Ht. destruct r; [by apply task_ok_stable| |done].
  intros [keys ?]. exists keys. auto.
Qed.

Lemma pre_stable {X} (o : op X) : stable (pre o).
Proof.
  intros tr tr' Ht. destruct o; try done; simpl;
    [by apply start_ok_stable|..].
  - by apply clear_ok_stable.
  - by apply add_ok_stable.
  - by apply delete_ok_stable.
  - by apply mark_ok_stable.
  - by apply write_ok_stable.
  - by apply task_ok_stable.
Qed.

Lemma wp_stable {A} (p : prog op A) Q tr tr' :
  (∀ a, stable (Q a)) → tr ⊆ tr' → wp p Q tr → wp p Q tr'.
Proof.
  intros HQ. destruct p as [a|X o k]; simpl; intros Ht; [by apply HQ|].
  intros [Hp Hk]. split; [by eapply pre_stable|]. intros x tr'' Ht' He.
  apply Hk; [by etrans|done].
Qed.

Lemma wp_mono {A} (p : prog op A) (Q Q' : A → list event → Prop) tr :
  (∀ a tr', tr ⊆ tr' → Q a tr' → Q' a tr') → wp p Q tr → wp p Q' tr.
Proof.
  revert tr. induction p as [a|X o k IH]; simpl; intros tr HQ; [by apply HQ|].
  intros [Hp Hk]. split; [done|]. intros x tr' Ht He. apply IH; [|by apply Hk].
  intros a tr'' Ht'. apply HQ. by etrans.
Qed.

Lemma wp_bind {A B} (p : prog op A) (f : A → prog op B) Q tr :
  wp p (λ a, wp (f a) Q) tr → wp (bind p f) Q tr.
Proof.
  revert tr. induction p as [a|X o k IH]; simpl; intros tr; [done|].
  intros [Hp Hk]. split; [done|]. intros x tr' Ht He. apply IH, Hk; done.
Qed.

(** Sequencing: what the second part may rely on is the trace as it was. *)
Lemma safe_bind {A} (p : prog op A) (f : A → prog op unit) tr :
  wp p (λ _ _, True) tr → (∀ a tr', tr ⊆ tr' → safe (f a) tr') → safe (bind p f) tr.
Proof.
  intros Hp Hf. apply wp_bind. eapply wp_mono; [|done]. intros a tr' Ht _. by apply Hf.
Qed.

Lemma safe_for_each {A} (l : list A) (body : A → prog op unit) tr :
  (∀ x tr', x ∈ l → tr ⊆ tr' → safe (body x) tr') → safe (for_each l body) tr.
Proof.
  revert tr. induction l as [|x l IH]; intros tr Hb; simpl; [done|].
  apply safe_bind; [apply Hb; [set_solver|done]|].
  intros _ tr' Ht. apply IH. intros y tr'' Hy Ht'. apply Hb; [set_solver|by etrans].
Qed.

(** An action first, then the rest. *)
Lemma wp_do {X B} (o : op X) (f : X → prog op B) Q tr :
  pre o tr → (∀ x tr', tr ⊆ tr' → event_of o x ⊆ tr' → wp (f x) Q tr') →
  wp (bind (act o) f) Q tr.
Proof. intros Hp HQ. by split. Qed.

Lemma wp_act {X} (o : op X) Q tr :
  pre o tr → (∀ x tr', tr ⊆ tr' → event_of o x ⊆ tr' → Q x tr') → wp (act o) Q tr.
Proof. intros Hp HQ. by split. Qed.
End logic.

Lemma ev_in (e : event) tr : [e] ⊆ tr → e ∈ tr.
Proof. intros He. apply He. by left. Qed.

(** An event is in the trace: it was just added, or an earlier trace has it. *)
Ltac ev :=
  first
    [ assumption
    | match goal with He : [?e] ⊆ ?tr |- ?e ∈ ?tr => exact (ev_in e tr He) end
    | match goal with Ht : ?tr0 ⊆ ?tr |- _ ∈ ?tr => apply Ht; solve [ev] end ].

#[global] Arguments wp : simpl never.
#[global] Arguments safe : simpl never.

(** The next action of a program without obligation, and its result. *)
Tactic Notation "wp_do" simple_intropattern(x) ident(tr) ident(Ht) ident(He) :=
  first [apply wp_do | apply wp_act]; [exact I|intros x tr Ht He; simpl in He].
(** A run of actions without obligations to the end. *)
Ltac wp_rest := repeat (first [apply wp_do | apply wp_act]; [exact I|intros ????]); exact I.
