(* ===== verification/Programs.v ===== *)
(** * Every program of the gateway meets its obligations

    One lemma per function of the engine and the server, in the logic of the
    file [Logic]. *)
From stdpp Require Import base numbers list gmap strings.
From S2P Require Import Prelude GoStd GoTime Topics Json Const Message Storage History Config.
From S2P Require Import Client Http RateLimit Authorizer Prog Engine Server System Logic.

#[local] Open Scope Z_scope.
#[local] Open Scope prog_scope.

Section programs.
Context `{UuidLib, TimeText, JsonText, Env}.
Context (cfg : Config) (SplitHostPort : string → result string).
Implicit Types (tr : list event).

Local Abbreviation wp := (wp cfg).
Local Abbreviation safe := (safe cfg).

(** ** Delivery *)

Lemma send_one_safe key m data c tr :
  deliverable tr c key m →
  (∀ tr', tr ⊆ tr' → EvMark c (m_id m) key ∈ tr' → write_ok tr' c data) →
  safe (send_one key m data c) tr.
Proof.
  intros Hd Hw. unfold send_one.
  apply wp_do; [by exists m|]. intros fresh tr1 Ht1 He1.
  destruct fresh; [|exact I]. simpl in He1.
  apply wp_do; [apply Hw; ev|intros [e|] tr2 Ht2 He2; wp_rest].
Qed.

Lemma send_message_safe key cs q m tr :
  EvClients key cs ∈ tr → EvRead key q ∈ tr → m ∈ q → safe (send_message key cs m) tr.
Proof.
  intros Hcs Hq Hm. unfold send_message. wp_do t tr1 Ht1 He1.
  destruct (isExpired m t) eqn:Hexp; [exact I|].
  destruct (marshal m false) as [data|] eqn:Hdata; [|exact I].
  apply safe_for_each. intros c tr2 Hc Ht2.
  assert (deliverable tr2 c key m) as Hd
    by (clear Hdata Hexp; exists cs, q; split_and!; [ev|done|ev|done]).
  apply send_one_safe; [exact Hd|]. intros tr3 Ht3 Hmark. exists key, m, t.
  split; [eapply deliverable_stable; [exact Ht3|exact Hd]|].
  split; [exact Hmark|]. split; [exact Hdata|]. split; [ev|exact Hexp].
Qed.

Lemma sendMessages_locked_safe key tr : safe (sendMessages_locked key) tr.
Proof.
  unfold sendMessages_locked, getMsgQueue. wp_do cs tr1 Ht1 He1.
  case_decide; [exact I|]. wp_do r tr2 Ht2 He2. destruct r as [q|]; [|exact I]. simpl in He2.
  apply safe_for_each. intros m tr3 Hm Ht3.
  apply (send_message_safe key cs q); [ev|ev|done].
Qed.

Lemma sendMessages_safe key tr : safe (sendMessages key) tr.
Proof.
  wp_do u tr1 Ht1 He1. apply safe_bind; [apply sendMessages_locked_safe|]. intros. wp_rest.
Qed.

Lemma historyAdd_safe key m tr : safe (historyAdd cfg key m) tr.
Proof. unfold historyAdd. case_match; wp_rest. Qed.

Lemma historyGet_safe key tr : wp (historyGet cfg key) (λ _ _, True) tr.
Proof. unfold historyGet. case_match; wp_rest. Qed.

Lemma historyPurge_safe tr : safe (historyPurge cfg) tr.
Proof. unfold historyPurge. case_match; wp_rest. Qed.

Lemma storageKeysMatching_safe p tr : wp (storageKeysMatching p) (λ _ _, True) tr.
Proof. wp_do r tr1 Ht1 He1. by destruct r. Qed.

(** ** Scheduled tasks *)

Lemma deliver_safe m tr : posted cfg tr m → safe (deliver cfg m (m_targets m)) tr.
Proof.
  intros Hp. apply safe_for_each. intros key tr1 Hkey Ht1.
  apply wp_do; [exists m; split; [by eapply posted_stable|done]|].
  intros err tr2 Ht2 _. apply safe_bind; [apply historyAdd_safe|].
  intros _ tr3 Ht3. wp_do e tr4 Ht4 He4. apply sendMessages_safe.
Qed.

Lemma backlog_safe keys tr : safe (backlog keys) tr.
Proof.
  apply safe_for_each. intros key tr1 Hkey Ht1. case_match; [|apply sendMessages_safe].
  apply safe_bind; [apply storageKeysMatching_safe|]. intros ks tr2 Ht2.
  apply safe_for_each. intros. apply sendMessages_safe.
Qed.

Lemma run_task_safe t tr : task_ok cfg tr t → safe (run_task cfg t) tr.
Proof.
  destruct t; simpl; [|intros _; apply backlog_safe|intros _; apply sendMessages_safe].
  intros [Hp ->]. by apply deliver_safe.
Qed.

Lemma on_notification_safe key tr : safe (on_notification key) tr.
Proof. wp_rest. Qed.

(** ** Background loops *)

Lemma sweep_queue_safe key q0 q n tr :
  EvRead key q0 ∈ tr → q ⊆ q0 → wp (sweep_queue key q n) (λ _ _, True) tr.
Proof.
  revert n tr. induction q as [|m q IH]; intros n tr Hr Hq; [exact I|].
  assert (q ⊆ q0) by (intros x Hx; apply Hq; by right).
  cbn [sweep_queue]. wp_do t tr1 Ht1 He1.
  destruct (isExpired m t) eqn:Hexp; [|apply IH; [ev|done]].
  apply wp_do; [|intros err tr2 Ht2 _; apply IH; [ev|done]].
  right; left. exists q0, m, t. split; [ev|]. split; [apply Hq; by left|].
  split; [done|]. split; [ev|done].
Qed.

Lemma sweepKey_safe key tr : safe (sweepKey key) tr.
Proof.
  wp_do r tr1 Ht1 He1. destruct r as [q|]; [|exact I]. simpl in He1.
  apply safe_bind; [apply (sweep_queue_safe key q); [ev|done]|].
  intros n tr2 Ht2. case_match; wp_rest.
Qed.

Lemma sweep_turn_safe tr : safe (sweep_turn cfg) tr.
Proof.
  wp_do r tr1 Ht1 He1. destruct r as [keys|]; [|exact I].
  apply safe_bind; [apply safe_for_each; intros; apply sweepKey_safe|].
  intros. apply historyPurge_safe.
Qed.

Lemma sweepExpired_safe n tr : safe (sweepExpired cfg n) tr.
Proof.
  revert tr. induction n as [|n IH]; intros tr; [exact I|].
  apply safe_bind; [apply sweep_turn_safe|]. auto.
Qed.

Lemma reconcile_keys_safe ps X tr : wp (reconcile_keys ps X) (λ _ _, True) tr.
Proof.
  revert X tr. induction ps as [|p ps IH]; intros X tr; [exact I|].
  apply wp_bind. eapply wp_mono; [|apply storageKeysMatching_safe]. intros. apply IH.
Qed.

Lemma reconcile_turn_safe tr : safe reconcile_turn tr.
Proof.
  wp_do keys tr1 Ht1 He1.
  apply safe_bind; [apply reconcile_keys_safe|]. intros X tr2 Ht2.
  wp_do order tr3 Ht3 He3. apply safe_for_each. intros. apply sendMessages_safe.
Qed.

Lemma reconcileLoop_safe n tr : safe (reconcileLoop cfg n) tr.
Proof.
  revert tr. induction n as [|n IH]; intros tr; cbn [reconcileLoop];
    (destruct (_ <=? _); [exact I|]); [exact I|].
  apply safe_bind; [apply reconcile_turn_safe|]. auto.
Qed.

Lemma Stop_safe tr : safe Stop tr.
Proof. unfold Stop. wp_rest. Qed.

(** ** Connections *)

Lemma removeClient_safe c tr : safe (removeClient c) tr.
Proof. unfold removeClient. wp_rest. Qed.

Lemma handleAck_safe c payload tr : safe (handleAck c payload) tr.
Proof.
  unfold handleAck. destruct (ack_id payload) as [id|]; [|exact I].
  wp_do taken tr1 Ht1 He1. destruct taken as [key|]; [|wp_rest]. simpl in He1.
  apply wp_do; [left; exists c; ev|]. intros. wp_rest.
Qed.

Lemma read_frames_safe c compress ins tr : safe (read_frames cfg c compress ins) tr.
Proof.
  revert tr. induction ins as [|[|opc payload deflated] ins IH]; intros tr; [exact I..|].
  cbn [read_frames]. destruct (accept_payload _ _ _ _) as [p|]; [|exact I].
  destruct opc; try exact I; [..|apply IH].
  - apply safe_bind; [apply handleAck_safe|]. auto.
  - apply safe_bind; [apply handleAck_safe|]. auto.
  - wp_do err tr1 Ht1 He1. destruct err; [exact I|]. apply IH.
Qed.

Lemma readLoop_safe c compress ins tr : safe (readLoop cfg c compress ins) tr.
Proof. apply safe_bind; [apply read_frames_safe|]. intros. apply removeClient_safe. Qed.

Lemma pingLoop_safe c ws tr : safe (pingLoop c ws) tr.
Proof.
  revert tr. induction ws as [|[] ws IH]; intros tr; cbn [pingLoop]; try exact I; [|wp_rest].
  wp_do err tr1 Ht1 He1. destruct err; [wp_rest|]. apply IH.
Qed.

(** ** Handlers: the response does not matter to the obligations *)

Local Abbreviation responds p tr := (wp p (λ _ _, True) tr).

Lemma handlePost_safe r tr :
  EvRequest r ∈ tr → authorised cfg r → r_Method r = "POST" →
  responds (handlePost cfg r) tr.
Proof.
  intros Hr Ha Hm. unfold handlePost. wp_do now tr1 Ht1 He1. wp_do rnd tr2 Ht2 He2.
  destruct (unmarshal _ _ _ _) as [[m|e]|] eqn:Hu; [|exact I..].
  wp_do u tr3 Ht3 He3. apply wp_do; [|intros; exact I].
  split; [|done]. exists r, now, rnd. split; [ev|]. done.
Qed.

Lemma live_messages_safe q tr : responds (live_messages q) tr.
Proof.
  revert tr. induction q as [|m q IH]; intros tr; [exact I|].
  cbn [live_messages]. wp_do t tr1 Ht1 He1. apply wp_bind. eapply wp_mono; [|apply IH]. done.
Qed.

Lemma handleGet_safe r tr : responds (handleGet cfg r) tr.
Proof.
  unfold handleGet. case_match; [unfold handlePresence; wp_rest|]. case_match.
  { apply wp_bind. eapply wp_mono; [|apply historyGet_safe]. done. }
  case_decide; apply wp_bind.
  - unfold getMarshalledKeys. wp_do ks tr1 Ht1 He1. by destruct ks.
  - unfold getMarshalledMessages, getMsgQueue. wp_do q tr1 Ht1 He1.
    destruct q as [q|]; [|exact I]. apply wp_bind.
    eapply wp_mono; [|apply live_messages_safe]. intros l tr2 _ _. by case_match.
Qed.

Lemma deleteMsgQueue_safe key tr : clear_ok cfg tr key → safe (deleteMsgQueue key) tr.
Proof. intros Hk. apply wp_do; [done|]. intros. exact I. Qed.

Lemma handleDelete_safe r tr :
  EvRequest r ∈ tr → authorised cfg r → r_Method r = "DELETE" → responds (handleDelete r) tr.
Proof.
  intros Hr Ha Hm. unfold handleDelete.
  destruct (decide (query_Get r ID = EMPTY_STR)) as [Hid|Hid].
  - rewrite (bool_decide_eq_true_2 (query_Get r ID = EMPTY_STR)) by done. cbn [negb andb].
    case_decide as Hkey.
    + wp_do ks tr1 Ht1 He1. destruct ks as [keys|]; [|exact I].
      apply wp_bind. eapply (wp_mono _ _ (λ _ _, True)); [done|].
      apply safe_for_each. intros k tr2 Hk Ht2. apply deleteMsgQueue_safe.
      exists r. split_and!; [ev|auto..].
    + apply wp_bind. eapply (wp_mono _ _ (λ _ _, True)); [done|].
      apply deleteMsgQueue_safe. exists r. split_and!; auto.
  - rewrite (bool_decide_eq_false_2 (query_Get r ID = EMPTY_STR)) by done. cbn [negb andb].
    case_bool_decide as Hkey; [exact I|]. destruct (uuid_Parse _) as [id|] eqn:Hp; [|exact I].
    cbn [fmap option_fmap option_map]. rewrite decide_False by done.
    apply wp_do; [|by intros []]. right; right. by exists r.
Qed.

Lemma allow_safe r tr : responds (allow cfg SplitHostPort r) tr.
Proof. unfold allow. case_match; wp_rest. Qed.

Lemma handleHTTP_safe r tr :
  EvRequest r ∈ tr → r_Path r = ROOT → responds (handleHTTP cfg SplitHostPort r) tr.
Proof.
  intros Hr Hp. apply wp_bind. eapply wp_mono; [|apply allow_safe].
  intros ok tr1 Ht1 _. destruct ok; [|exact I]. unfold authorizeBackend.
  destruct (backend_verdict cfg r) as [st|] eqn:Hv; cbn [negb]; [wp_rest|].
  assert (authorised cfg r) by done. assert (EvRequest r ∈ tr1) by ev. cbn [bind].
  repeat case_decide; [by apply handlePost_safe|apply handleGet_safe|
    by apply handleDelete_safe|exact I].
Qed.

Lemma Authorize_safe r tr : responds (Authorize r) tr.
Proof.
  unfold Authorize. wp_do au tr1 Ht1 He1. destruct au as [keys|a]; [exact I|].
  apply wp_bind. apply (wp_mono _ _ (λ _ _, True)).
  - intros hit tr2 _ _. destruct hit; [exact I|]. wp_do answer tr3 Ht3 He3.
    destruct (auth_keys answer); [|exact I]. case_match; wp_rest.
  - unfold cacheGet_prog. case_match; wp_rest.
Qed.

Lemma handleWs_safe r tr : responds (handleWs cfg SplitHostPort r) tr.
Proof.
  apply wp_bind. eapply wp_mono; [|apply allow_safe].
  intros ok tr1 Ht1 _. destruct ok; cbn [negb]; [|exact I]. case_match; [exact I|].
  apply wp_bind. eapply wp_mono; [|apply Authorize_safe].
  intros [keys|e] tr2 _ _; [|wp_rest]. wp_do conn tr3 Ht3 He3. destruct conn; [|wp_rest].
  wp_do c tr4 Ht4 He4. apply wp_do; [exists keys; ev|]. intros [] tr5 _ _. wp_rest.
Qed.

Lemma ServeHTTP_safe r tr : EvRequest r ∈ tr → responds (ServeHTTP cfg SplitHostPort r) tr.
Proof.
  intros Hr. unfold ServeHTTP. repeat case_decide; try exact I.
  - by apply handleHTTP_safe.
  - apply handleWs_safe.
  - unfold handleReadyz. wp_do err tr1 Ht1 He1. by destruct err.
Qed.

Lemma serve_thread_safe r tr :
  EvRequest r ∈ tr → safe (ServeHTTP cfg SplitHostPort r ;; Ret tt) tr.
Proof. intros Hr. apply safe_bind; [by apply ServeHTTP_safe|done]. Qed.
End programs.
