(* ===== verification/Registry.v ===== *)
(** * The connection registry: [clientsForKey], registration, removal

    The maps [Conns] and [patterns] of the engine as a relation between
    connections and keys: what the loops of [handleWs] and [removeClient] do to
    it, and which connections a delivery is fanned out to. *)
From stdpp Require Import base numbers list gmap strings.
From S2P Require Import Prelude GoStd Topics Prog.

Implicit Types (Conns : gmap string (list cid)) (patterns keys : list string)
  (st : gmap string (list cid) * gset string).

(** The connections registered under a key. *)
Definition conns_at (Conns : gmap string (list cid)) (k : string) : list cid :=
  default [] (Conns !! k).

(** No entry is empty, and the patterns are the registered keys that have
    wildcards. *)
Definition registry_ok (st : gmap string (list cid) * gset string) : Prop :=
  (∀ k, st.1 !! k ≠ Some []) ∧
  (∀ p, p ∈ st.2 ↔ hasWildcard p = true ∧ p ∈ dom st.1).

Lemma conns_at_insert Conns k k' cs :
  conns_at (<[k := cs]> Conns) k' = if decide (k = k') then cs else conns_at Conns k'.
Proof. unfold conns_at. rewrite lookup_insert. by case_decide. Qed.

Lemma conns_at_delete Conns k k' :
  conns_at (delete k Conns) k' = if decide (k = k') then [] else conns_at Conns k'.
Proof. unfold conns_at. rewrite lookup_delete. by case_decide. Qed.

(** ** Fan-out *)

Lemma clients_add_dedup seen out l :
  (∀ c, c ∈ seen ↔ c ∈ out) →
  (clients_add (seen, out) l).2 = out ++ dedup_from seen l ∧
  (∀ c, c ∈ (clients_add (seen, out) l).1 ↔ c ∈ (clients_add (seen, out) l).2).
Proof.
  unfold clients_add. revert seen out. induction l as [|c l IH]; intros seen out Hs; simpl.
  - by rewrite app_nil_r.
  - case_bool_decide as Hc.
    + rewrite decide_True by done. by apply IH.
    + rewrite decide_False by done.
      destruct (IH ({[c]} ∪ seen) (out ++ [c])) as [H1 H2]; [set_solver|].
      rewrite H1 at 1. by rewrite <-(assoc_L (++)).
Qed.

(** The fan-out list: the exact subscribers, then those of the matching
    patterns, each connection once, at its first occurrence. *)
Lemma clientsForKey_dedup Conns patterns key :
  clientsForKey Conns patterns key =
  dedup (conns_at Conns key ++
         concat (conns_at Conns <$> filter (λ p, keyMatches p key = true) patterns)).
Proof.
  unfold clientsForKey. fold (conns_at Conns key). generalize (conns_at Conns key) as l.
  assert (∀ seen out l, (∀ c, c ∈ seen ↔ c ∈ out) → out = dedup l →
    (fold_left (λ so pattern, if keyMatches pattern key
       then clients_add so (conns_at Conns pattern) else so) patterns (seen, out)).2 =
    dedup (l ++ concat (conns_at Conns <$> filter (λ p, keyMatches p key = true) patterns)))
    as Hgen.
  { induction patterns as [|p ps IH]; intros seen out l Hs Ho; simpl.
    - by rewrite app_nil_r.
    - rewrite filter_cons. destruct (keyMatches p key).
      + rewrite decide_True by done. rewrite fmap_cons. simpl. rewrite (assoc_L (++)).
        destruct (clients_add_dedup seen out (conns_at Conns p) Hs) as [H1 H2].
        destruct (clients_add (seen, out) (conns_at Conns p)) as [seen' out'] eqn:Heq.
        simpl in H1, H2. apply IH; [done|]. rewrite H1, Ho.
        rewrite (dedup_from_app ∅ l (conns_at Conns p) seen); [done|].
        intros x. rewrite Hs, Ho, elem_of_dedup. set_solver.
      + rewrite decide_False by done. by apply IH. }
  intros l. destruct (clients_add_dedup ∅ [] l) as [H1 H2]; [set_solver|].
  destruct (clients_add (∅, []) l) as [seen out]. simpl in H1, H2. by apply Hgen.
Qed.

Lemma NoDup_clientsForKey Conns patterns key : NoDup (clientsForKey Conns patterns key).
Proof. rewrite clientsForKey_dedup. apply NoDup_dedup_from. Qed.

Lemma elem_of_clientsForKey Conns patterns key c :
  c ∈ clientsForKey Conns patterns key ↔
  ∃ k, c ∈ conns_at Conns k ∧ (k = key ∨ k ∈ patterns ∧ keyMatches k key = true).
Proof.
  rewrite clientsForKey_dedup, elem_of_dedup, elem_of_app, elem_of_concat.
  setoid_rewrite list_elem_of_fmap. setoid_rewrite list_elem_of_filter. naive_solver.
Qed.

(** ** Registering a connection *)

Definition register_keys (c : cid) (keys : list string)
    (st : gmap string (list cid) * gset string) : gmap string (list cid) * gset string :=
  fold_left (register_key c) keys st.

Definition unregister_keys (c : cid) (keys : list string)
    (st : gmap string (list cid) * gset string) : gmap string (list cid) * gset string :=
  fold_left (unregister_key c) keys st.

Lemma register_key_ok c st key : registry_ok st → registry_ok (register_key c st key).
Proof.
  destruct st as [Conns ps]. intros [Hne Hps]. split; simpl in *.
  - intros k. rewrite lookup_insert. destruct (decide (key = k)); [|apply Hne].
    intros [= [_ [=]]%app_eq_nil].
  - intros p. rewrite dom_insert, elem_of_union, elem_of_singleton.
    destruct (hasWildcard key) eqn:Hw; rewrite ?elem_of_union, ?elem_of_singleton, Hps;
      intuition congruence.
Qed.

Lemma elem_of_register_key c st key c' k :
  c' ∈ conns_at (register_key c st key).1 k ↔ c' ∈ conns_at st.1 k ∨ (c' = c ∧ k = key).
Proof.
  destruct st as [Conns ps]. simpl. rewrite conns_at_insert.
  destruct (decide (key = k)) as [->|]; [|naive_solver].
  fold (conns_at Conns k). set_solver.
Qed.

Lemma register_keys_ok c keys st : registry_ok st → registry_ok (register_keys c keys st).
Proof. revert st. induction keys; intros st Hst; [done|]. by apply IHkeys, register_key_ok. Qed.

Lemma elem_of_register_keys c keys st c' k :
  c' ∈ conns_at (register_keys c keys st).1 k ↔ c' ∈ conns_at st.1 k ∨ (c' = c ∧ k ∈ keys).
Proof.
  revert st. induction keys as [|key keys IH]; intros st; simpl; [set_solver|].
  unfold register_keys in *. rewrite IH, elem_of_register_key. set_solver.
Qed.

(** ** Removing one *)

Lemma unregister_key_ok c st key : registry_ok st → registry_ok (unregister_key c st key).
Proof.
  destruct st as [Conns ps]. intros [Hne Hps]. unfold unregister_key. simpl in *.
  destruct (decide (filter (λ x, x ≠ c) (default [] (Conns !! key)) = [])) as [Hl|Hl];
    split; simpl.
  - intros k. rewrite lookup_delete. destruct (decide (key = k)); [done|apply Hne].
  - intros p. rewrite dom_delete, !elem_of_difference, elem_of_singleton, Hps.
    intuition congruence.
  - intros k. rewrite lookup_insert. destruct (decide (key = k)); [congruence|apply Hne].
  - intros p. rewrite dom_insert, elem_of_union, elem_of_singleton, Hps.
    assert (key ∈ dom Conns) as Hk; [|intuition congruence].
    rewrite elem_of_dom. destruct (Conns !! key); [by eauto|done].
Qed.

Lemma elem_of_unregister_key c st key c' k :
  c' ∈ conns_at (unregister_key c st key).1 k ↔ c' ∈ conns_at st.1 k ∧ ¬ (c' = c ∧ k = key).
Proof.
  destruct st as [Conns ps]. unfold unregister_key. fold (conns_at Conns key).
  assert (c' ∈ filter (λ x, x ≠ c) (conns_at Conns key) ↔ c' ∈ conns_at Conns key ∧ c' ≠ c)
    as Hf by (rewrite list_elem_of_filter; intuition congruence).
  destruct (decide (filter (λ x, x ≠ c) (conns_at Conns key) = [])) as [Hl|Hl]; simpl.
  - rewrite conns_at_delete. destruct (decide (key = k)) as [<-|]; [|intuition congruence].
    rewrite Hl in Hf. rewrite Hf. intuition congruence.
  - rewrite conns_at_insert. destruct (decide (key = k)) as [<-|]; [|intuition congruence].
    rewrite Hf. intuition congruence.
Qed.

Lemma unregister_keys_ok c keys st : registry_ok st → registry_ok (unregister_keys c keys st).
Proof. revert st. induction keys; intros st Hst; [done|]. by apply IHkeys, unregister_key_ok. Qed.

Lemma elem_of_unregister_keys c keys st c' k :
  c' ∈ conns_at (unregister_keys c keys st).1 k ↔
  c' ∈ conns_at st.1 k ∧ ¬ (c' = c ∧ k ∈ keys).
Proof.
  revert st. induction keys as [|key keys IH]; intros st; simpl; [set_solver|].
  unfold unregister_keys in *. rewrite IH, elem_of_unregister_key. set_solver.
Qed.

#[export] Hint Resolve register_keys_ok unregister_keys_ok NoDup_clientsForKey : goctopus.

(** ** What the registry promises *)

(** C34: A key fans out exactly to the connections registered under it and to those
    registered under a pattern that matches it, each once, whatever the order
    in which the patterns are visited. *)
Theorem fanout_exact Conns (patterns : gset string) order key :
  registry_ok (Conns, patterns) → order ≡ₚ elements patterns →
  NoDup (clientsForKey Conns order key) ∧
  ∀ c, c ∈ clientsForKey Conns order key ↔
    ∃ k, c ∈ conns_at Conns k ∧ (k = key ∨ keyMatches k key = true).
Proof.
  intros [_ Hps] Horder. split; [apply NoDup_clientsForKey|]. intros c.
  rewrite elem_of_clientsForKey. setoid_rewrite Horder. setoid_rewrite elem_of_elements.
  split; [intros (k & Hc & Hk); exists k; intuition|].
  intros (k & Hc & [->|Hk]); [exists key; auto|]. exists k. split; [done|].
  destruct (hasWildcard k) eqn:Hw.
  - right. split; [|done]. apply Hps. split; [done|]. apply elem_of_dom. unfold conns_at in Hc.
    simpl. destruct (Conns !! k); [by eauto|by apply not_elem_of_nil in Hc].
  - left. by apply keyMatches_concrete.
Qed.

Lemma fanout_exact_witness :
  let st := register_keys 0%nat ["a.b"] (register_keys 1%nat ["a.b"]
              (register_keys 0%nat ["a.*"] (∅, ∅))) in
  NoDup (clientsForKey st.1 ["a.*"] "a.b") ∧
  ∀ c, c ∈ clientsForKey st.1 ["a.*"] "a.b" ↔
    ∃ k, c ∈ conns_at st.1 k ∧ (k = "a.b" ∨ keyMatches k "a.b" = true).
Proof.
  intros st. apply (fanout_exact st.1 st.2).
  - rewrite <-surjective_pairing. do 3 apply register_keys_ok.
    split; [done|]. intros p. simpl. set_solver.
  - vm_compute. reflexivity.
Defined.

(** Removing a connection takes it out of every key it was registered under and
    leaves the others; registering and then removing it gives back the registry
    as a relation, with no empty entry and no stale pattern left behind. *)
Theorem disconnect_undoes_connect c keys st :
  registry_ok st →
  let st' := unregister_keys c keys (register_keys c keys st) in
  registry_ok st' ∧
  (∀ k, k ∈ keys → c ∉ conns_at st'.1 k) ∧
  ∀ c' k, c' ≠ c ∨ k ∉ keys → c' ∈ conns_at st'.1 k ↔ c' ∈ conns_at st.1 k.
Proof.
  intros Hst st'. split; [by apply unregister_keys_ok, register_keys_ok|]. subst st'. split.
  - intros k Hk. rewrite elem_of_unregister_keys. intros [_ Hnot]. by apply Hnot.
  - intros c' k Hne. rewrite elem_of_unregister_keys, elem_of_register_keys. naive_solver.
Qed.

Lemma disconnect_undoes_connect_witness :
  let st : gmap string (list cid) * gset string := (∅, ∅) in
  let st' := unregister_keys 3%nat ["a"; "b.*"] (register_keys 3%nat ["a"; "b.*"] st) in
  registry_ok st' ∧
  (∀ k, k ∈ ["a"; "b.*"] → 3%nat ∉ conns_at st'.1 k) ∧
  ∀ c' k, c' ≠ 3%nat ∨ k ∉ ["a"; "b.*"] → c' ∈ conns_at st'.1 k ↔ c' ∈ conns_at st.1 k.
Proof.
  apply disconnect_undoes_connect. split; [done|]. intros p. simpl. set_solver.
Defined.
