(* ===== verification/Invariants.v ===== *)
(** * Invariants of the running gateway

    Induction over the interleavings of [System]: every goroutine and every
    scheduled closure keeps meeting its obligations, and the shared state stays
    explained by the trace.  [cause] says, for every event, which earlier
    events account for it; the theorems of [Delivery] are drawn from it. *)
From stdpp Require Import base numbers list gmap strings relations.
From S2P Require Import Prelude GoStd GoTime Topics Json Const Message Storage History Config.
From S2P Require Import Client Http RateLimit Authorizer Prog Engine Server System Logic.
From S2P Require Import Programs Registry.

#[local] Open Scope Z_scope.

(** ** Properties of each event and what precedes it *)

Definition every (P : list event → event → Prop) (tr : list event) : Prop :=
  ∀ tr1 e tr2, tr = tr1 ++ e :: tr2 → P tr1 e.

Lemma every_nil P : every P [].
Proof. intros [] ? ?; discriminate. Qed.

Lemma every_snoc P tr e : every P tr → P tr e → every P (tr ++ [e]).
Proof.
  intros Htr He tr1 e' tr2. destruct tr2 as [|e2 tr2 _] using rev_ind.
  - intros [-> [= ->]]%app_inj_tail. done.
  - rewrite app_comm_cons, (assoc_L (++)). intros [-> _]%app_inj_tail. by eapply Htr.
Qed.

(** An event of the trace, accounted for by what precedes it. *)
Lemma every_in P tr e : every P tr → e ∈ tr → ∃ tr1, tr1 ⊆ tr ∧ P tr1 e.
Proof.
  intros Hc (tr1 & tr2 & Heq)%list_elem_of_split. exists tr1. subst tr. split; [set_solver|].
  by eapply Hc.
Qed.

(** What precedes an event, and its own account. *)
Lemma every_split P tr tr1 e tr2 : every P tr → tr = tr1 ++ e :: tr2 → P tr1 e ∧ every P tr1.
Proof.
  intros Hc ->. split; [by eapply Hc|]. intros tr0 e0 tr0' ->.
  apply (Hc _ _ (tr0' ++ e :: tr2)). by rewrite <-(assoc_L (++)).
Qed.

Lemma every_impl (P Q : list event → event → Prop) tr :
  (∀ tr1 e, P tr1 e → Q tr1 e) → every P tr → every Q tr.
Proof. intros HPQ Hc tr1 e tr2 Heq. by eapply HPQ, Hc. Qed.

Lemma event_of_cases {X} (o : op X) x : event_of o x = [] ∨ ∃ e, event_of o x = [e].
Proof. destruct o; simpl in *; try (by left); try (by right; eauto); case_match; eauto. Qed.

(** At most one event per action: a property of all its events is a property
    of that one. *)
Lemma every_app_event P tr {X} (o : op X) x :
  every P tr → (∀ e, event_of o x = [e] → P tr e) → every P (tr ++ event_of o x).
Proof.
  intros Htr He. destruct (event_of_cases o x) as [->|[e Heq]].
  - by rewrite app_nil_r.
  - rewrite Heq. apply every_snoc; auto.
Qed.

(** The meaning of an action, by cases, up to the frame of its state. *)
Ltac exec_frame :=
  simpl; unfold with_client, with_storage;
  repeat (case_match; simpl); simplify_eq/=.

Section invariants.
Context {S : Type} `{!Storage S, !StorageSpec S, UuidLib, TimeText, JsonText, Env}.
Context (cfg : Config) (SplitHostPort : string → result string).
Context (engines : string → option (Config → result S)).
Implicit Types (g : Goctopus S) (tr : list event).

Local Abbreviation reachable := (reachable cfg SplitHostPort engines).
Local Abbreviation sysstep := (step cfg SplitHostPort).

(** ** Goroutines keep their obligations *)

Definition queue_ok g tr : Prop :=
  (∀ t, t ∈ g_work g → task_ok cfg tr t) ∧ (∀ r, r ∈ g_spawned g → start_ok cfg tr r).

Definition threads_ok (ts : list thread) tr : Prop :=
  ∀ t, t ∈ ts → safe cfg (t_prog t) tr.

Lemma queue_ok_stable g tr tr' : tr ⊆ tr' → queue_ok g tr → queue_ok g tr'.
Proof.
  intros Ht [??]. split; intros; [eapply task_ok_stable|eapply start_ok_stable]; eauto.
Qed.

Lemma threads_ok_stable ts tr tr' : tr ⊆ tr' → threads_ok ts tr → threads_ok ts tr'.
Proof. intros Ht Hts t Hin. eapply wp_stable; [done|done|by apply Hts]. Qed.

(** What an action adds to the work of the gateway, it was entitled to. *)
Lemma exec_op_work {X} (o : op X) g t :
  t ∈ g_work (exec_op cfg o g).1 →
  t ∈ g_work g ∨ ∀ tr, pre cfg o tr → task_ok cfg tr t.
Proof.
  destruct o; exec_frame; try (intros Ht; by left).
  intros [Ht| ->%list_elem_of_singleton]%elem_of_app; [by left|by right].
Qed.

Lemma exec_op_spawned {X} (o : op X) g r :
  r ∈ g_spawned (exec_op cfg o g).1 →
  r ∈ g_spawned g ∨ ∀ tr, pre cfg o tr → start_ok cfg tr r.
Proof.
  destruct o; exec_frame; intros Ht; try (by left); apply elem_of_app in Ht as [Ht|Ht];
    try (by left); apply list_elem_of_singleton in Ht; simplify_eq; by right.
Qed.

Lemma exec_queue_ok {X} (o : op X) g tr g' x :
  pre cfg o tr → exec cfg o g = (g', x) → queue_ok g tr → queue_ok g' (tr ++ event_of o x).
Proof.
  unfold exec. intros Hp He [Hw Hs].
  pose proof (λ t, exec_op_work o g t) as Hw'. pose proof (λ t, exec_op_spawned o g t) as Hs'.
  destruct (exec_op cfg o g) as [g1 x1]. injection He as <- <-. simpl in *.
  assert (tr ⊆ tr ++ event_of o x1) as Ht by set_solver.
  split; simpl; intros t Hin.
  - destruct (Hw' t Hin); eapply task_ok_stable; eauto.
  - destruct (Hs' t Hin); eapply start_ok_stable; eauto.
Qed.

(** ** The shared state, step by step *)

(** What one step of the system does to the shared state and the trace. *)
Inductive evolves : Goctopus S → list event → Goctopus S → list event → Prop :=
| evolves_exec {X} (o : op X) g tr g' x :
    pre cfg o tr → exec cfg o g = (g', x) → evolves g tr g' (tr ++ event_of o x)
| evolves_work g tr w rs : evolves g tr (set_work g w rs) tr
| evolves_exit g tr n : evolves g tr (set_workers g n) tr
| evolves_request g tr r : evolves g tr g (tr ++ [EvRequest r])
| evolves_stay g tr : evolves g tr g tr.

Definition sys_ok (s : sys) : Prop :=
  threads_ok (s_threads s) (s_trace s) ∧ queue_ok (s_g s) (s_trace s).

Lemma sys_ok_initial s : initial cfg engines s → sys_ok s.
Proof.
  intros (g & n & n' & Hg & ->). split; simpl.
  - intros t Ht. rewrite elem_of_cons, list_elem_of_singleton in Ht. destruct Ht as [-> | ->].
    + apply sweepExpired_safe.
    + apply reconcileLoop_safe.
  - unfold Start in Hg. repeat case_match; simplify_eq;
      split; simpl; intros t Ht; by apply not_elem_of_nil in Ht.
Qed.

Lemma starts_safe g r p tr :
  starts cfg g r p → (∀ t, r = GTask t → task_ok cfg tr t) → safe cfg p tr.
Proof.
  intros [t|c cl ins _|c ws] Hr.
  - apply run_task_safe. apply Hr. reflexivity.
  - apply readLoop_safe.
  - apply pingLoop_safe.
Qed.

Lemma threads_ok_snoc ts t tr :
  threads_ok ts tr → safe cfg (t_prog t) tr → threads_ok (ts ++ [t]) tr.
Proof. intros Hts Ht t' [Hin| ->%list_elem_of_singleton]%elem_of_app; auto. Qed.

Lemma step_ok s s' :
  sys_ok s → sysstep s s' →
  sys_ok s' ∧ evolves (s_g s) (s_trace s) (s_g s') (s_trace s').
Proof.
  intros [Hts Hq]. destruct 1 as [g ts tr i w X o k g' x Hi _ He|g ts1 w ts2 tr
    |g ts tr t work Hw _|g ts tr _ _ _|g ts tr rs1 r rs2 p Hr Hp|g ts tr r|g ts tr key|g ts tr]; simpl in *.
  - assert (safe cfg (Vis o k) tr) as [Hpre Hk]
      by (apply (Hts (Thread w (Vis o k))); by eapply list_elem_of_lookup_2).
    assert (tr ⊆ tr ++ event_of o x) as Ht by set_solver.
    split; [|by apply evolves_exec]. split; simpl.
    + intros t Hin. apply list_elem_of_lookup in Hin as [j Hj].
      apply list_lookup_insert_Some in Hj as [(-> & <- & _)|[_ Hj]]; simpl.
      * apply Hk; set_solver.
      * eapply wp_stable; [done|done|]. apply Hts. by eapply list_elem_of_lookup_2.
    + by eapply exec_queue_ok.
  - split; [|apply evolves_stay]. split; [|done]. intros t Hin. apply Hts. set_solver.
  - split; [|apply evolves_work]. destruct Hq as [Hwk Hsp]. split; simpl.
    + apply threads_ok_snoc; [done|]. apply run_task_safe, Hwk. rewrite Hw. by left.
    + split; simpl; [|done]. intros t' Ht'. apply Hwk. rewrite Hw. by right.
  - split; [|apply evolves_exit]. by split.
  - split; [|apply evolves_work]. destruct Hq as [Hwk Hsp]. split; simpl.
    + apply threads_ok_snoc; [done|]. eapply starts_safe; [done|]. intros t ->.
      apply (Hsp (GTask t)). rewrite Hr. set_solver.
    + split; simpl; [done|]. intros t' Ht'. apply Hsp. rewrite Hr. set_solver.
  - split; [|apply evolves_request]. assert (tr ⊆ tr ++ [EvRequest r]) as Ht by set_solver.
    split; simpl; [|by eapply queue_ok_stable].
    apply threads_ok_snoc; [by eapply threads_ok_stable|]. apply serve_thread_safe. set_solver.
  - split; [|apply evolves_stay]. split; [|done]. apply threads_ok_snoc; [done|].
    apply on_notification_safe.
  - split; [|apply evolves_stay]. split; [|done]. apply threads_ok_snoc; [done|].
    apply Stop_safe.
Qed.

(** Induction over the runs of the gateway, for what only depends on the
    shared state and the trace. *)
Lemma reachable_ind (P : Goctopus S → list event → Prop) s :
  (∀ g, Start cfg engines = Returned g → P g []) →
  (∀ g tr g' tr', evolves g tr g' tr' → P g tr → P g' tr') →
  reachable s → P (s_g s) (s_trace s).
Proof.
  intros Hst Hstep (s0 & Hinit & Hsteps).
  assert (sys_ok s ∧ P (s_g s) (s_trace s)) as [_ ?]; [|done].
  assert (sys_ok s0 ∧ P (s_g s0) (s_trace s0)) as Hs0.
  { split; [by apply sys_ok_initial|]. destruct Hinit as (g & ? & ? & Hg & ->). by apply Hst. }
  clear Hinit. induction Hsteps as [s|s1 s2 s3 Hs12 _ IH]; [done|].
  apply IH. destruct Hs0 as [Hok HP]. destruct (step_ok _ _ Hok Hs12) as [Hok2 He].
  split; [done|]. by eapply Hstep.
Qed.

Lemma reachable_sys_ok s : reachable s → sys_ok s.
Proof.
  intros (s0 & Hinit & Hsteps). apply sys_ok_initial in Hinit.
  induction Hsteps as [s|s1 s2 s3 Hs12 _ IH]; [done|]. apply IH. by eapply step_ok.
Qed.
End invariants.
