(* ===== verification/Causes.v ===== *)
(** * What explains the shared state, and every event

    [explained] ties the shared state to the trace: in-flight entries to marks,
    registry entries to registrations, queued messages to stored copies.
    [cause] is the account every event can give of itself. *)
From stdpp Require Import base numbers list gmap strings relations.
From S2P Require Import Prelude GoStd GoTime Topics Json Const Message Storage History Config.
From S2P Require Import Client Http RateLimit Authorizer Prog Engine Server System Logic.
From S2P Require Import Programs Registry Invariants.

#[local] Open Scope Z_scope.

Section causes.
Context {S : Type} `{!Storage S, !StorageSpec S, UuidLib, TimeText, JsonText, Env}.
Context (cfg : Config) (SplitHostPort : string → result string).
Context (engines : string → option (Config → result S)).
Context (engines_ok : ∀ s0, getStorage cfg engines = Returned s0 → st_ok s0).
Implicit Types (g : Goctopus S) (tr : list event).

(** ** What an action does to the storage *)

(** The change of the table that an event reports. *)
Definition q_events (es : list event) (q q' : queues) : Prop :=
  match es with
  | [EvAdd k m err] => applied err q (q_add k (st_form m) q) q'
  | [EvDelete k id err] => applied err q (q_del k id q) q'
  | [EvDeleteQueue k err] => applied err q (q_clear k q) q'
  | _ => q' ≡ q
  end.

Lemma range_order_ok n : is_range (range_order n).
Proof. intros X. unfold range_order. by case_decide. Qed.

Lemma exec_op_storage {X : Set} (o : op X) g g' x :
  st_ok (g_storage g) → exec_op cfg o g = (g', x) →
  st_ok (g_storage g') ∧
  q_events (event_of o x) (queued (g_storage g)) (queued (g_storage g')).
Proof.
  intros Hok He.
  destruct o; simpl in He; unfold with_client, with_storage in He;
    repeat (case_match; simplify_eq/=); simplify_eq/=; try (split; [exact Hok|reflexivity]).
  all: first
    [ by eapply DeleteQueue_spec | by eapply AddMessage_spec | by eapply DeleteMessage_spec
    | by eapply Notify_spec | by eapply Ping_spec
    | match goal with Hq : GetQueue _ _ _ = _ |- _ =>
        destruct (GetQueue_spec _ _ _ _ _ Hok (range_order_ok _) Hq) as (? & ? & _);
        split; assumption end
    | match goal with Hq : GetKeys _ _ = _ |- _ =>
        destruct (GetKeys_spec _ _ _ _ Hok (range_order_ok _) Hq) as (? & ? & _);
        split; assumption end ].
Qed.

(** A queue that was read is the queue the table holds. *)
Lemma exec_op_read {X : Set} (o : op X) g g' x k q :
  st_ok (g_storage g) → exec_op cfg o g = (g', x) → event_of o x = [EvRead k q] →
  lists_queue (queued (g_storage g)) k q.
Proof.
  intros Hok He. destruct o; simpl; try discriminate; try (case_match; discriminate).
  destruct x as [l|]; [|discriminate]. intros [= <- <-]. simpl in He. unfold with_storage in He.
  destruct (GetQueue (range_order (g_tick g)) key (g_storage g)) as [s r] eqn:Hq. injection He as _ ->.
  by destruct (GetQueue_spec _ _ _ _ _ Hok (range_order_ok _) Hq) as (_ & _ & Hl).
Qed.

(** ** What an action does to the connections *)

(** A connection after an action: new, or the same with its keys, and any
    in-flight entry it gained was marked by the action. *)
Definition client_step (es : list event) c g (cl' : client) : Prop :=
  (c = g_next g ∧ es = [EvRegister c (c_keys cl')] ∧ c_inflight cl' = ∅) ∨
  ∃ cl, g_clients g !! c = Some cl ∧ c_keys cl' = c_keys cl ∧
    ∀ id key, c_inflight cl' !! id = Some key →
      c_inflight cl !! id = Some key ∨ es = [EvMark c id key].

Lemma write_frame_frame cl f net :
  c_keys (write_frame cl f net).1 = c_keys cl ∧
  c_inflight (write_frame cl f net).1 = c_inflight cl ∧
  c_closed (write_frame cl f net).1 = c_closed cl.
Proof. unfold write_frame. by case_match. Qed.

Lemma close_frame cl :
  c_keys (close cl) = c_keys cl ∧ c_inflight (close cl) = c_inflight cl.
Proof. unfold close. by case_match. Qed.

Lemma client_step_with es c c0 g cl' {X} (x0 : X) f g' x :
  with_client g c0 x0 f = (g', x) → g_clients g' !! c = Some cl' →
  (∀ cl, g_clients g !! c0 = Some cl → x = (f cl).2 → client_step es c0 g (f cl).1) →
  client_step es c g cl'.
Proof.
  unfold with_client. destruct (g_clients g !! c0) as [cl|] eqn:Hc.
  - destruct (f cl) as [cl1 x1] eqn:Hf. intros [= <- <-]. simpl.
    rewrite lookup_insert_Some. intros [[-> ->]|[Hne Hl]] Hs.
    + specialize (Hs cl eq_refl). rewrite Hf in Hs. exact (Hs eq_refl).
    + right. exists cl'. split; [done|]. split; [done|]. intros. by left.
  - intros [= <- <-] Hl _. right. exists cl'. split; [done|]. split; [done|]. intros. by left.
Qed.

Lemma client_step_frame es c g cl cl' :
  g_clients g !! c = Some cl → c_keys cl' = c_keys cl → c_inflight cl' ⊆ c_inflight cl →
  client_step es c g cl'.
Proof.
  intros Hc Hk Hi. right. exists cl. split; [done|]. split; [done|]. intros id key Hid.
  left. by eapply lookup_weaken.
Qed.

Lemma exec_op_client {X : Set} (o : op X) g g' x c cl' :
  exec_op cfg o g = (g', x) → g_clients g' !! c = Some cl' →
  client_step (event_of o x) c g cl'.
Proof.
  assert (∀ es cl, g_clients g !! c = Some cl → client_step es c g cl) as Hsame
    by (intros es cl Hc; eapply client_step_frame; done).
  intros He Hc. destruct o; cbn [exec_op] in He; unfold with_storage in He;
    try (repeat case_match; simplify_eq/=; by apply Hsame);
    try (eapply client_step_with; [exact He|exact Hc|]; intros cl Hcl Hx).
  - injection He as <- <-. simpl in Hc. apply lookup_insert_Some in Hc as [[<- <-]|[_ Hc]].
    + by left.
    + by apply Hsame.
  - injection He as <- <-. simpl in Hc. rewrite map_lookup_imap in Hc.
    destruct (g_clients g !! c) as [cl|] eqn:Hcl; [|done]. simpl in Hc. injection Hc as <-.
    destruct (close_frame cl) as [Hk Hi]. apply (client_step_frame _ _ _ cl); [done|..].
    + destruct (decide _); [exact Hk|reflexivity].
    + destruct (decide _); [by rewrite Hi|reflexivity].
  - revert Hx. unfold markInflight. destruct (c_closed cl).
    { intros ->. by apply (client_step_frame _ _ _ cl). }
    destruct (c_inflight cl !! id) as [k|] eqn:Hid; intros ->; simpl.
    { by apply (client_step_frame _ _ _ cl). }
    right. exists cl. split; [done|]. split; [done|]. intros id' key'. simpl.
    rewrite lookup_insert_Some. intros [[<- <-]|[_ Hi]]; [by right|by left].
  - unfold takeInflight. destruct (c_inflight cl !! id); apply (client_step_frame _ _ _ cl);
      try done. apply delete_subseteq.
  - apply (client_step_frame _ _ _ cl); [done|done|]. apply delete_subseteq.
  - destruct (write_frame_frame cl (FText data) (env_net (g_tick g))) as (Hk & Hi & _).
    apply (client_step_frame _ _ _ cl); [done|exact Hk|]. unfold writeMessage. by rewrite Hi.
  - destruct (write_frame_frame cl FPing (env_net (g_tick g))) as (Hk & Hi & _).
    apply (client_step_frame _ _ _ cl); [done|exact Hk|]. unfold writePing. by rewrite Hi.
  - destruct (write_frame_frame cl (FPong payload) (env_net (g_tick g))) as (Hk & Hi & _).
    apply (client_step_frame _ _ _ cl); [done|exact Hk|]. unfold writePong. by rewrite Hi.
  - destruct (close_frame cl) as [Hk Hi].
    apply (client_step_frame _ _ _ cl); [done|exact Hk|]. cbn [fst]. by rewrite Hi.
Qed.

Lemma with_client_keys c c0 g cl {X} (x0 : X) f g' x :
  with_client g c0 x0 f = (g', x) → g_clients g !! c = Some cl →
  (∀ cl0, c_keys (f cl0).1 = c_keys cl0) →
  ∃ cl', g_clients g' !! c = Some cl' ∧ c_keys cl' = c_keys cl.
Proof.
  unfold with_client. intros He Hc Hf. destruct (g_clients g !! c0) as [cl0|] eqn:Hc0.
  - specialize (Hf cl0). destruct (f cl0) as [cl1 x1]. injection He as <- _. simpl in *.
    destruct (decide (c0 = c)) as [->|].
    + rewrite lookup_insert_eq. exists cl1. split; [done|congruence].
    + rewrite lookup_insert_ne by done. eauto.
  - injection He as <- _. eauto.
Qed.

(** Connections are never forgotten, and addresses never reused. *)
Lemma exec_op_client_keys {X : Set} (o : op X) g g' x c cl :
  exec_op cfg o g = (g', x) → g_clients g !! c = Some cl → (c < g_next g)%nat →
  ∃ cl', g_clients g' !! c = Some cl' ∧ c_keys cl' = c_keys cl.
Proof.
  intros He Hc Hlt. destruct o; cbn [exec_op] in He; unfold with_storage in He;
    try (repeat case_match; simplify_eq/=; by eauto);
    try (eapply with_client_keys; [exact He|exact Hc|]; intros cl0).
  - injection He as <- _. simpl. exists cl. rewrite lookup_insert_ne by lia. done.
  - injection He as <- _. simpl. rewrite map_lookup_imap, Hc. simpl.
    eexists; split; [done|]. destruct (decide _); [apply close_frame|done].
  - unfold markInflight. by repeat case_match.
  - unfold takeInflight. by repeat case_match.
  - done.
  - apply write_frame_frame.
  - apply write_frame_frame.
  - apply write_frame_frame.
  - apply close_frame.
Qed.

Lemma exec_op_next {X : Set} (o : op X) g g' x :
  exec_op cfg o g = (g', x) →
  g_next g' = match event_of o x with [EvRegister _ _] => 1 + g_next g | _ => g_next g end%nat.
Proof.
  intros He. destruct o; simpl in He; unfold with_client, with_storage in He;
    repeat (case_match; simplify_eq/=); by simplify_eq/=.
Qed.

Lemma exec_op_register {X : Set} (o : op X) g g' x c keys :
  exec_op cfg o g = (g', x) → event_of o x = [EvRegister c keys] →
  ∃ cl, g_clients g' !! c = Some cl ∧ c_keys cl = keys.
Proof.
  intros He. destruct o; simpl; try discriminate; try (case_match; discriminate).
  intros [= <- <-]. injection He as <- <-. simpl. rewrite lookup_insert_eq. eauto.
Qed.

(** ** What an action does to the registry *)

Lemma exec_op_registry {X : Set} (o : op X) g g' x :
  registry_ok (g_Conns g, g_patterns g) → exec_op cfg o g = (g', x) →
  registry_ok (g_Conns g', g_patterns g') ∧
  ∀ c k, c ∈ conns_at (g_Conns g') k →
    c ∈ conns_at (g_Conns g) k ∨
    ∃ keys, event_of o x = [EvRegister c keys] ∧ k ∈ keys.
Proof.
  intros Hok He. destruct o; simpl in He; unfold with_client, with_storage in He;
    repeat (case_match; simplify_eq/=); simplify_eq/=; try (split; [exact Hok|by left]).
  - rewrite <-surjective_pairing. split; [by apply register_keys_ok|].
    intros c k. fold (register_keys (g_next g) keys (g_Conns g, g_patterns g)).
    rewrite elem_of_register_keys. intros [?|[-> ?]]; [by left|right; eauto].
  - rewrite <-surjective_pairing. split; [by apply unregister_keys_ok|].
    intros c' k. fold (unregister_keys c (c_keys c0) (g_Conns g, g_patterns g)).
    rewrite elem_of_unregister_keys. intros [? _]; by left.
Qed.

(** ** The invariant *)

(** A message a read of the queue of [key] may return: one that was in the
    storage at the start, or the stored form of a copy the gateway wrote. *)
Definition stored tr (key : string) (m : Message) : Prop :=
  (∃ s0, getStorage cfg engines = Returned s0 ∧ queued s0 key (m_id m) = Some m) ∨
  ∃ m0 err, m = st_form m0 ∧ EvAdd key m0 err ∈ tr.

(** [c] was registered under a key that selects [key]. *)
Definition subscribes tr (c : cid) (key : string) : Prop :=
  ∃ keys k, EvRegister c keys ∈ tr ∧ k ∈ keys ∧ (k = key ∨ keyMatches k key = true).

Record explained g tr : Prop := {
  ex_storage : st_ok (g_storage g);
  ex_queued k id m : queued (g_storage g) k id = Some m → stored tr k m;
  ex_client c cl : g_clients g !! c = Some cl →
    (c < g_next g)%nat ∧ EvRegister c (c_keys cl) ∈ tr ∧
    ∀ id key, c_inflight cl !! id = Some key → EvMark c id key ∈ tr;
  ex_registry : registry_ok (g_Conns g, g_patterns g);
  ex_conns c k : c ∈ conns_at (g_Conns g) k →
    ∃ cl, g_clients g !! c = Some cl ∧ k ∈ c_keys cl;
}.

Lemma stored_stable key m : stable (λ tr, stored tr key m).
Proof. intros tr tr' Ht [?|(m0 & err & -> & ?)]; [by left|right; eauto 6]. Qed.

Lemma subscribes_stable c key : stable (λ tr, subscribes tr c key).
Proof. intros tr tr' Ht (keys & k & ? & ?). exists keys, k. eauto. Qed.

Lemma explained_stable g : stable (explained g).
Proof.
  intros tr tr' Ht [Hs Hq Hc Hr Hcs]. split; [done| | |done|done].
  - intros k id m Hm. by eapply stored_stable, Hq.
  - intros c cl Hcl. destruct (Hc c cl Hcl) as (? & ? & Hi). split_and!; [done|auto|].
    intros id key Hid. auto.
Qed.

Lemma applied_cases err q q1 q' : applied err q q1 q' → q' ≡ q ∨ q' ≡ q1.
Proof. destruct err; [done|by right]. Qed.

(** Whatever a table holds after an event, it held before or the event added. *)
Lemma q_events_from es q q' k id m :
  q_events es q q' → q' k id = Some m →
  q k id = Some m ∨
  (id = m_id m ∧ ∃ m0 err, m = st_form m0 ∧ es = [EvAdd k m0 err]).
Proof.
  intros Hes Hm. destruct es as [|e [|e2 es]]; [left; by rewrite <-(Hes k id)| |].
  2: { destruct e; left; by rewrite <-(Hes k id). }
  destruct e; try (left; rewrite <-(Hes k id); exact Hm); apply applied_cases in Hes;
    destruct Hes as [Hes|Hes]; rewrite (Hes k id) in Hm; try (left; exact Hm).
  - unfold q_add in Hm. destruct (decide _) as [[-> ->]|]; [|by left].
    injection Hm as <-. right. eauto 6.
  - unfold q_del in Hm. destruct (decide _); [done|by left].
  - unfold q_clear in Hm. destruct (decide _); [done|by left].
Qed.

Lemma explained_exec {X : Set} (o : op X) g tr g' x :
  explained g tr → exec_op cfg o g = (g', x) → explained g' (tr ++ event_of o x).
Proof.
  intros [Hs Hq Hc Hr Hcs] He. assert (tr ⊆ tr ++ event_of o x) as Ht by set_solver.
  destruct (exec_op_storage o g g' x Hs He) as [Hs' Hes].
  destruct (exec_op_registry o g g' x Hr He) as [Hr' Hcs'].
  pose proof (exec_op_next o g g' x He) as Hnext.
  assert ((g_next g ≤ g_next g')%nat) as Hle by (rewrite Hnext; repeat case_match; lia).
  split; [done| | |done|].
  - intros k id m Hm. destruct (q_events_from _ _ _ _ _ _ Hes Hm) as [Hm'|(-> & m0 & err & Hform & Heq)].
    + by eapply stored_stable, Hq.
    + right. exists m0, err. rewrite Heq. set_solver.
  - intros c cl' Hcl'. destruct (exec_op_client o g g' x c cl' He Hcl')
      as [(-> & Heq & Hi)|(cl & Hcl & Hk & Hi)].
    + rewrite Hnext, Heq. split; [lia|]. split; [set_solver|]. intros id key. by rewrite Hi.
    + destruct (Hc c cl Hcl) as (Hlt & Hreg & Hmark). split; [lia|].
      split; [rewrite Hk; auto|]. intros id key Hid.
      destruct (Hi id key Hid) as [Hold| ->]; [auto|set_solver].
  - intros c k Hck. destruct (Hcs' c k Hck) as [Hold|(keys & Heq & Hk)].
    + destruct (Hcs c k Hold) as (cl & Hcl & Hkc).
      destruct (exec_op_client_keys o g g' x c cl He Hcl) as (cl' & Hcl' & Hkeys).
      { by apply (Hc c cl). }
      exists cl'. by rewrite Hkeys.
    + destruct (exec_op_register o g g' x c keys He Heq) as (cl' & Hcl' & Hkeys).
      exists cl'. by rewrite Hkeys.
Qed.

(** ** Every event has its cause *)

Definition cause tr (e : event) : Prop :=
  match e with
  | EvClients key cs => NoDup cs ∧ ∀ c, c ∈ cs → subscribes tr c key
  | EvRead key q => NoDup (m_id <$> q) ∧ ∀ m, m ∈ q → stored tr key m
  | EvAdd key m _ => add_ok cfg tr key m
  | EvDelete key id _ => delete_ok cfg tr key id
  | EvDeleteQueue key _ => clear_ok cfg tr key
  | EvMark c id key => mark_ok tr c id key
  | EvTake c id key => EvMark c id key ∈ tr
  | EvWrite c data _ => write_ok tr c data
  | EvRequest _ | EvNow _ | EvClear _ _ | EvRegister _ _ | EvClose _ => True
  end.

Lemma take_marked g tr c id g' key :
  explained g tr →
  exec_op cfg (OTakeInflight c id) g = (g', Some key) → EvMark c id key ∈ tr.
Proof.
  intros Hex. simpl. unfold with_client, takeInflight.
  destruct (g_clients g !! c) as [cl|] eqn:Hc; [|discriminate].
  destruct (c_inflight cl !! id) as [k|] eqn:Hid; [|discriminate].
  intros [= _ ->]. by eapply (ex_client _ _ Hex).
Qed.

Lemma found_subscribe g tr key n c :
  explained g tr →
  c ∈ clientsForKey (g_Conns g) (range_order n (g_patterns g)) key → subscribes tr c key.
Proof.
  intros Hex. rewrite elem_of_clientsForKey. intros (k & Hc & Hk).
  destruct (ex_conns _ _ Hex c k Hc) as (cl & Hcl & Hin).
  destruct (ex_client _ _ Hex c cl Hcl) as (_ & Hreg & _).
  exists (c_keys cl), k. split_and!; [done|done|]. destruct Hk as [->|[_ Hk]]; auto.
Qed.

Lemma exec_cause {X : Set} (o : op X) g tr g' x e :
  explained g tr → pre cfg o tr → exec_op cfg o g = (g', x) → event_of o x = [e] →
  cause tr e.
Proof.
  intros Hex Hpre He Hev.
  pose proof (exec_op_read o g g' x) as Hread.
  destruct o; simpl in Hev; try discriminate; try (case_match; simplify_eq; exact Hpre || done);
    try (injection Hev as <-; exact Hpre || exact I).
  - injection Hev as <-. injection He as <- <-. split; [apply NoDup_clientsForKey|].
    intros c. by eapply found_subscribe.
  - destruct x as [q|]; [|discriminate]. injection Hev as <-.
    destruct (Hread key q (ex_storage _ _ Hex) He eq_refl) as [Hnd Hq].
    split; [done|]. intros m Hm. by eapply (ex_queued _ _ Hex), Hq.
  - destruct x as [key|]; [|discriminate]. injection Hev as <-. by eapply take_marked.
Qed.

(** ** The causes of deliveries lie in the gateway itself *)

(** All but the deletions, which may also be another gateway's on the same
    storage. *)
Definition local_cause tr (e : event) : Prop :=
  match e with EvDelete _ _ _ => True | _ => cause tr e end.

Lemma every_local tr : every cause tr → every local_cause tr.
Proof. apply every_impl. by intros tr1 []. Qed.

(** What was deliverable was stored, and the connection subscribes to it. *)
Lemma deliverable_stored tr c key m :
  every local_cause tr → deliverable tr c key m →
  subscribes tr c key ∧
  ((∃ s0, getStorage cfg engines = Returned s0 ∧ queued s0 key (m_id m) = Some m) ∨
   ∃ m1, m = st_form m1 ∧ add_ok cfg tr key m1).
Proof.
  intros Hc (cs & q & Hcs & Hin & Hq & Hm).
  destruct (every_in _ _ _ Hc Hcs) as (tr1 & Ht1 & _ & Hsub).
  destruct (every_in _ _ _ Hc Hq) as (tr2 & Ht2 & _ & Hst).
  split; [eapply subscribes_stable; [exact Ht1|by apply Hsub]|].
  destruct (Hst m Hm) as [?|(m1 & err & -> & Hadd)]; [by left|right].
  exists m1. split; [done|]. assert (EvAdd key m1 err ∈ tr) as Hadd' by auto.
  destruct (every_in _ _ _ Hc Hadd') as (tr3 & Ht3 & Hok).
  eapply add_ok_stable; [exact Ht3|exact Hok].
Qed.

(** Where a frame comes from. *)
Definition frame_origin_in tr (c : cid) (data : json) : Prop :=
  ∃ key m t,
    data = JObj [("id", JStr (uuid_String (m_id m))); ("payload", marshal_any (m_Value m))] ∧
    EvNow t ∈ tr ∧ isExpired m t = false ∧
    EvMark c (m_id m) key ∈ tr ∧ subscribes tr c key ∧
    ((∃ s0, getStorage cfg engines = Returned s0 ∧ queued s0 key (m_id m) = Some m) ∨
     ∃ m0, posted cfg tr m0 ∧ key ∈ m_targets m0 ∧ m = st_form (with_Key m0 key)).

Lemma write_origin tr tr1 c data err tr2 :
  every local_cause tr → tr = tr1 ++ EvWrite c data err :: tr2 → frame_origin_in tr1 c data.
Proof.
  intros Hc Htr. destruct (every_split _ _ _ _ _ Hc Htr) as [Hw Hc1].
  destruct Hw as (key & m & t & Hd & Hmark & Hdata & Ht & Hexp).
  destruct (deliverable_stored _ _ _ _ Hc1 Hd) as [Hsub Hst].
  exists key, m, t. rewrite marshal_short in Hdata. injection Hdata as <-.
  split_and!; [done..|]. destruct Hst as [?|(m1 & -> & m0 & ? & ? & ->)]; [by left|right; eauto].
Qed.

(** ** A message stays queued until an event displaces it *)

Definition displaces (key : string) (id : uuid) (e : event) : Prop :=
  match e with
  | EvAdd k m _ => k = key ∧ m_id m = id
  | EvDelete k i _ => k = key ∧ i = id
  | EvDeleteQueue k _ => k = key
  | _ => False
  end.

#[global] Instance displaces_dec key id e : Decision (displaces key id e).
Proof. destruct e; simpl; apply _. Defined.

Lemma q_events_keep es q q' k id m :
  q_events es q q' → q k id = Some m → Forall (λ e, ¬ displaces k id e) es → q' k id = Some m.
Proof.
  intros Hes Hm Hd. destruct es as [|e [|e2 es]]; [by rewrite (Hes k id)| |].
  2: { destruct e; by rewrite (Hes k id). }
  rewrite Forall_singleton in Hd.
  destruct e; try (rewrite (Hes k id); exact Hm); apply applied_cases in Hes;
    destruct Hes as [Hes|Hes]; rewrite (Hes k id); try exact Hm; simpl in Hd.
  - unfold q_add. rewrite decide_False; [exact Hm|]. intros [-> ->]. apply Hd.
    by rewrite st_form_id.
  - unfold q_del. rewrite decide_False; [exact Hm|]. intros [-> ->]. apply Hd. split; reflexivity.
  - unfold q_clear. rewrite decide_False; [exact Hm|congruence].
Qed.

Definition kept g tr : Prop :=
  ∀ tr1 key m tr2, tr = tr1 ++ EvAdd key m None :: tr2 →
    Forall (λ e, ¬ displaces key (m_id m) e) tr2 →
    queued (g_storage g) key (m_id m) = Some (st_form m).

(** What is kept through a change of the storage that events report. *)
Lemma kept_events es g tr g' :
  (length es ≤ 1)%nat → kept g tr →
  q_events es (queued (g_storage g)) (queued (g_storage g')) → kept g' (tr ++ es).
Proof.
  intros Hlen Hk Hes tr1 key m tr2 Heq Hd. destruct es as [|e [|? ?]]; [| |simpl in Hlen; lia].
  - rewrite app_nil_r in Heq. rewrite (Hes key (m_id m)). by eapply Hk.
  - destruct tr2 as [|e2 tr2 _] using rev_ind.
    + apply app_inj_tail in Heq as [-> ->]. simpl in Hes. rewrite (Hes key (m_id m)).
      unfold q_add. by rewrite decide_True by (by rewrite st_form_id).
    + rewrite app_comm_cons, (assoc_L (++)) in Heq. apply app_inj_tail in Heq as [-> ->].
      apply Forall_app in Hd as [Hd He2].
      eapply q_events_keep; [exact Hes|by eapply Hk|exact He2].
Qed.

Lemma kept_exec {X : Set} (o : op X) g tr g' x :
  st_ok (g_storage g) → kept g tr → exec_op cfg o g = (g', x) → kept g' (tr ++ event_of o x).
Proof.
  intros Hs Hk He. destruct (exec_op_storage o g g' x Hs He) as [_ Hes].
  apply (kept_events _ g); [|done|done].
  destruct (event_of_cases o x) as [->|[e ->]]; simpl; lia.
Qed.

(** ** All of it, along every run *)

Record accounted g tr : Prop := {
  ac_explained : explained g tr;
  ac_causes : every cause tr;
  ac_kept : kept g tr;
}.

Lemma accounted_start g : Start cfg engines = Returned g → accounted g [].
Proof.
  unfold Start. intros Hg. destruct (getStorage cfg engines) as [s0|] eqn:Hinit; [|discriminate].
  destruct (getAuthorizer cfg); [|discriminate]. destruct (Workers cfg <=? 0); [discriminate|].
  injection Hg as <-. split; [split|apply every_nil|]; simpl.
  - by apply engines_ok.
  - intros k id m Hm. left. exists s0. split; [exact Hinit|].
    by rewrite (queued_id s0 k id m (engines_ok s0 eq_refl) Hm).
  - intros c cl Hc. by rewrite lookup_empty in Hc.
  - split; simpl; [done|]. intros p. rewrite dom_empty. set_solver.
  - intros c k Hc. unfold conns_at in Hc. rewrite lookup_empty in Hc.
    by apply not_elem_of_nil in Hc.
  - intros [] ? ? ?; discriminate.
Qed.

Lemma accounted_evolves g tr g' tr' :
  evolves cfg g tr g' tr' → accounted g tr → accounted g' tr'.
Proof.
  destruct 1 as [X o g tr g' x Hpre He|g tr w rs|g tr n|g tr r|g tr]; intros [Hex Hc Hk].
  - unfold exec in He. destruct (exec_op cfg o g) as [g1 x1] eqn:Ho. injection He as <- <-.
    assert (explained g1 (tr ++ event_of o x1)) as Hex1 by by eapply explained_exec.
    split.
    + destruct Hex1; by split.
    + apply every_app_event; [done|]. intros e Hev. by eapply exec_cause.
    + by eapply (kept_exec o g tr g1 x1); [apply Hex|..].
  - destruct Hex. by split.
  - destruct Hex. by split.
  - split.
    + eapply explained_stable; [|done]. set_solver.
    + by apply every_snoc.
    + intros tr1 key m tr2 Heq Hd. destruct tr2 as [|e2 tr2 _] using rev_ind.
      * by apply app_inj_tail in Heq as [_ [=]].
      * rewrite app_comm_cons, (assoc_L (++)) in Heq. apply app_inj_tail in Heq as [-> _].
        apply Forall_app in Hd as [Hd _]. by eapply Hk.
  - by split.
Qed.

Lemma reachable_accounted s :
  reachable cfg SplitHostPort engines s → accounted (s_g s) (s_trace s).
Proof. apply reachable_ind; [apply accounted_start|apply accounted_evolves]. Qed.
End causes.
