(* ===== verification/Discipline.v ===== *)
(** * The discipline of a goroutine: locks and frames

    What every program of the gateway respects whatever the actions return: a
    send lock is taken with no lock in hand and always given back, a message is
    marked in flight only under the lock of its key, and a mark is followed by
    exactly one of a successful write of that message to that connection or the
    removal of the mark.  [obeys] follows a program through its [phase]; every
    program of the engine and the server is shown to start and end idle. *)
From stdpp Require Import base numbers list gmap strings.
From S2P Require Import Prelude GoStd GoTime Topics Json Const Message Storage History Config.
From S2P Require Import Client Http RateLimit Authorizer Prog Engine Server System.

#[local] Open Scope Z_scope.
#[local] Open Scope prog_scope.

(** ** Phases *)

(** The shard whose lock is held, and the mark not yet accounted for. *)
Record phase := Phase { ph_lock : option Z; ph_mark : option (cid * uuid) }.

Definition idle : phase := Phase None None.

(** The [id] member of a frame. *)
Definition frame_id (data : json) : option string :=
  match data with
  | JObj members => match map_index "id" members with JStr s => Some s | _ => None end
  | _ => None
  end.

Section discipline.
Context `{UuidLib, TimeText, JsonText, Env}.
Context (cfg : Config) (SplitHostPort : string → result string).
Implicit Types (ph : phase).

Definition allowed {X : Set} (o : op X) ph : Prop :=
  match o with
  | OSendLock _ => ph = idle
  | OSendUnlock key => ph = Phase (Some (sendLock key)) None
  | OMarkInflight _ _ key => ph = Phase (Some (sendLock key)) None
  | OWriteMessage c data =>
      ∃ id, ph_mark ph = Some (c, id) ∧ frame_id data = Some (uuid_String id)
  | OClearInflight c id => ph_mark ph = Some (c, id)
  | _ => True
  end.

Definition next_phase {X : Set} (o : op X) : X → phase → phase :=
  match o in op X return X → phase → phase with
  | OSendLock key => λ _ ph, Phase (Some (sendLock key)) (ph_mark ph)
  | OSendUnlock _ => λ _ ph, Phase None (ph_mark ph)
  | OMarkInflight c id _ => λ fresh ph,
      if (fresh : bool) then Phase (ph_lock ph) (Some (c, id)) else ph
  | OWriteMessage _ _ => λ err ph,
      match err with None => Phase (ph_lock ph) None | Some _ => ph end
  | OClearInflight _ _ => λ _ ph, Phase (ph_lock ph) None
  | _ => λ _ ph, ph
  end.

Fixpoint obeys {A} (p : prog op A) (ph ph' : phase) : Prop :=
  match p with
  | Ret _ => ph = ph'
  | Vis o k => allowed o ph ∧ ∀ x, obeys (k x) (next_phase o x ph) ph'
  end.

(** Actions that any phase allows and none leaves. *)
Definition quiet {X : Set} (o : op X) : bool :=
  match o with
  | OSendLock _ | OSendUnlock _ | OMarkInflight _ _ _ | OWriteMessage _ _
  | OClearInflight _ _ => false
  | _ => true
  end.

(** ** Rules *)

Lemma obeys_ret {A} (a : A) ph : obeys (Ret a) ph ph.
Proof. done. Qed.

Lemma obeys_quiet {X : Set} (o : op X) ph : quiet o = true → obeys (act o) ph ph.
Proof. by destruct o. Qed.

Lemma obeys_bind {A B} (p : prog op A) (f : A → prog op B) ph1 ph2 ph3 :
  obeys p ph1 ph2 → (∀ a, obeys (f a) ph2 ph3) → obeys (bind p f) ph1 ph3.
Proof.
  intros Hp Hf. revert ph1 Hp. induction p as [a|X o k IH]; simpl; intros ph1.
  - by intros ->.
  - intros [Ha Hk]. split; [done|]. intros x. by apply IH.
Qed.

Lemma obeys_for_each {A} (l : list A) (body : A → prog op unit) ph :
  (∀ x, obeys (body x) ph ph) → obeys (for_each l body) ph ph.
Proof.
  intros Hb. induction l as [|x l IH]; simpl; [done|]. by eapply obeys_bind.
Qed.
End discipline.

#[global] Arguments obeys : simpl never.

Create HintDb discipline.

(** A program made of quiet actions and of programs known to obey. *)
Ltac obey :=
  intros;
  repeat lazymatch goal with
  | |- obeys (Ret _) _ _ => exact (obeys_ret _ _)
  | |- obeys (act _) _ _ => apply obeys_quiet; reflexivity
  | |- obeys (for_each _ _) _ _ => apply obeys_for_each; intros
  | |- obeys (bind _ _) ?ph _ => apply (obeys_bind _ _ ph ph); [|intros]
  | |- obeys (let _ := _ in _) _ _ => cbv zeta
  | |- obeys (match ?x with _ => _ end) _ _ => destruct x
  | |- obeys _ _ _ => solve [auto 2 with discipline]
  end.

Section programs.
Context `{UuidLib, TimeText, JsonText, Env}.
Context (cfg : Config) (SplitHostPort : string → result string).
Implicit Types (ph : phase).

(** ** Delivery *)

Lemma frame_id_marshal m data :
  marshal m false = Ok data → frame_id data = Some (uuid_String (m_id m)).
Proof. rewrite marshal_short. intros Hd. injection Hd as <-. reflexivity. Qed.

Lemma send_one_obeys key m data c :
  frame_id data = Some (uuid_String (m_id m)) →
  obeys (send_one key m data c) (Phase (Some (sendLock key)) None)
                                (Phase (Some (sendLock key)) None).
Proof.
  intros Hid. split; [done|]. intros [|]; [|exact eq_refl].
  split; [by exists (m_id m)|]. intros [e|]; [|split; [exact I|intros; exact eq_refl]].
  split; [exact eq_refl|]. intros ?. split; [exact I|]. intros ?. exact eq_refl.
Qed.

Lemma send_message_obeys key cs m :
  obeys (send_message key cs m) (Phase (Some (sendLock key)) None)
                                (Phase (Some (sendLock key)) None).
Proof.
  eapply obeys_bind; [by apply obeys_quiet|]. intros t.
  destruct (isExpired m t); [exact eq_refl|].
  destruct (marshal m false) as [data|] eqn:Hd; [|exact eq_refl].
  apply frame_id_marshal in Hd. apply obeys_for_each. intros c. by apply send_one_obeys.
Qed.

Lemma sendMessages_locked_obeys key :
  obeys (sendMessages_locked key) (Phase (Some (sendLock key)) None)
                                  (Phase (Some (sendLock key)) None).
Proof.
  unfold sendMessages_locked, getMsgQueue. obey. apply send_message_obeys.
Qed.

Lemma sendMessages_obeys key : obeys (sendMessages key) idle idle.
Proof.
  eapply (obeys_bind _ _ _ (Phase (Some (sendLock key)) None)); [by split|]. intros _.
  eapply obeys_bind; [apply sendMessages_locked_obeys|]. intros _. by split.
Qed.
Hint Resolve sendMessages_obeys : discipline.

Lemma getMsgQueue_obeys key ph : obeys (getMsgQueue key) ph ph.
Proof. by apply obeys_quiet. Qed.
Lemma deleteMsgQueue_obeys key ph : obeys (deleteMsgQueue key) ph ph.
Proof. unfold deleteMsgQueue. obey. Qed.
Lemma queueMessage_obeys m ph : obeys (queueMessage m) ph ph.
Proof. unfold queueMessage. obey. Qed.
Lemma deleteMsgById_obeys key id ph : obeys (deleteMsgById key id) ph ph.
Proof. by apply obeys_quiet. Qed.
Lemma notify_obeys key ph : obeys (notify key) ph ph.
Proof. unfold notify. obey. Qed.
Lemma storageKeysMatching_obeys p ph : obeys (storageKeysMatching p) ph ph.
Proof. unfold storageKeysMatching. obey. Qed.
Lemma historyAdd_obeys key m ph : obeys (historyAdd cfg key m) ph ph.
Proof. unfold historyAdd. obey. Qed.
Lemma historyGet_obeys key ph : obeys (historyGet cfg key) ph ph.
Proof. unfold historyGet. obey. Qed.
Lemma historyPurge_obeys ph : obeys (historyPurge cfg) ph ph.
Proof. unfold historyPurge. obey. Qed.
Lemma schedule_obeys t ph : obeys (schedule t) ph ph.
Proof. by apply obeys_quiet. Qed.
Hint Resolve getMsgQueue_obeys deleteMsgQueue_obeys queueMessage_obeys deleteMsgById_obeys
  notify_obeys storageKeysMatching_obeys historyAdd_obeys historyGet_obeys
  historyPurge_obeys schedule_obeys : discipline.

(** ** Tasks and background loops *)

Lemma run_task_obeys t : obeys (run_task cfg t) idle idle.
Proof. destruct t; unfold run_task, deliver, backlog; obey. Qed.

Lemma on_notification_obeys key : obeys (on_notification key) idle idle.
Proof. unfold on_notification. obey. Qed.

Lemma sweep_queue_obeys key q n ph : obeys (sweep_queue key q n) ph ph.
Proof. revert n. induction q as [|m q IH]; intros n; cbn [sweep_queue]; obey. Qed.
Hint Resolve sweep_queue_obeys : discipline.

Lemma sweepKey_obeys key ph : obeys (sweepKey key) ph ph.
Proof. unfold sweepKey. obey. Qed.
Hint Resolve sweepKey_obeys : discipline.

Lemma sweepExpired_obeys n : obeys (sweepExpired cfg n) idle idle.
Proof. induction n as [|n IH]; cbn [sweepExpired]; unfold sweep_turn; obey. Qed.

Lemma reconcile_keys_obeys ps X ph : obeys (reconcile_keys ps X) ph ph.
Proof. revert X. induction ps as [|p ps IH]; intros X; cbn [reconcile_keys]; obey. Qed.
Hint Resolve reconcile_keys_obeys : discipline.

Lemma reconcileLoop_obeys n : obeys (reconcileLoop cfg n) idle idle.
Proof. induction n as [|n IH]; cbn [reconcileLoop]; unfold reconcile_turn; obey. Qed.

Lemma Stop_obeys : obeys Stop idle idle.
Proof. unfold Stop. obey. Qed.

(** ** Connections *)

Lemma removeClient_obeys c ph : obeys (removeClient c) ph ph.
Proof. unfold removeClient. obey. Qed.
Lemma handleAck_obeys c payload ph : obeys (handleAck c payload) ph ph.
Proof. unfold handleAck. obey. Qed.
Hint Resolve removeClient_obeys handleAck_obeys : discipline.

Lemma read_frames_obeys c compress ins ph : obeys (read_frames cfg c compress ins) ph ph.
Proof. induction ins as [|[|opc payload d] ins IH]; cbn [read_frames]; obey. Qed.
Hint Resolve read_frames_obeys : discipline.

Lemma readLoop_obeys c compress ins : obeys (readLoop cfg c compress ins) idle idle.
Proof. unfold readLoop. obey. Qed.

Lemma pingLoop_obeys c ws : obeys (pingLoop c ws) idle idle.
Proof. induction ws as [|[] ws IH]; cbn [pingLoop]; obey. Qed.

(** ** Handlers *)

Lemma live_messages_obeys q ph : obeys (live_messages q) ph ph.
Proof. induction q as [|m q IH]; cbn [live_messages]; obey. Qed.
Hint Resolve live_messages_obeys : discipline.

Lemma handlePost_obeys r ph : obeys (handlePost cfg r) ph ph.
Proof. unfold handlePost. obey. Qed.
Lemma handleGet_obeys r ph : obeys (handleGet cfg r) ph ph.
Proof.
  unfold handleGet, handlePresence, handleHistory, getMarshalledKeys, getMarshalledMessages.
  obey.
Qed.
Lemma handleDelete_obeys r ph : obeys (handleDelete r) ph ph.
Proof. unfold handleDelete. obey. Qed.
Lemma allow_obeys r ph : obeys (allow cfg SplitHostPort r) ph ph.
Proof. unfold allow. obey. Qed.
Lemma Authorize_obeys r ph : obeys (Authorize r) ph ph.
Proof. unfold Authorize, cacheGet_prog. obey. Qed.
Lemma authorizeBackend_obeys r ph : obeys (authorizeBackend cfg r) ph ph.
Proof. unfold authorizeBackend. obey. Qed.
Hint Resolve handlePost_obeys handleGet_obeys handleDelete_obeys allow_obeys Authorize_obeys
  authorizeBackend_obeys : discipline.

Lemma serve_obeys r :
  obeys (ServeHTTP cfg SplitHostPort r ;; Ret tt) idle idle.
Proof. unfold ServeHTTP, handleHTTP, handleWs, handleReadyz. obey. Qed.
End programs.
