(* ===== verification/Concurrency.v ===== *)
(** * Interleavings: locks, marks and what they exclude

    The phases of the file [Discipline] as ghost state of the running system:
    every lock in the table is held by exactly one goroutine, and marks, writes
    and acknowledgements balance.  From it: mutual exclusion of deliveries,
    absence of deadlock, at most one unacknowledged copy per connection. *)
From stdpp Require Import base numbers list gmap strings relations.
From S2P Require Import Prelude GoStd GoTime Topics Json Const Message Storage History Config.
From S2P Require Import Client Http RateLimit Authorizer Prog Engine Server System Logic.
From S2P Require Import Programs Registry Invariants Causes Discipline.

#[local] Open Scope Z_scope.

(** ** Counting events *)

Section count.
Context `{UuidLib}.

(** The number of events of [tr] that satisfy [P]. *)
Definition count (P : event → Prop) `{!∀ e, Decision (P e)} (tr : list event) : nat :=
  length (filter P tr).

Definition is_mark (c : cid) (id : uuid) (e : event) : Prop :=
  match e with EvMark c' id' _ => c' = c ∧ id' = id | _ => False end.
Definition is_take (c : cid) (id : uuid) (e : event) : Prop :=
  match e with EvTake c' id' _ => c' = c ∧ id' = id | _ => False end.
Definition is_clear (c : cid) (id : uuid) (e : event) : Prop :=
  match e with EvClear c' id' => c' = c ∧ id' = id | _ => False end.
(** A frame of the message [id] that went out to [c]. *)
Definition is_delivery (c : cid) (id : uuid) (e : event) : Prop :=
  match e with
  | EvWrite c' data None => c' = c ∧ frame_id data = Some (uuid_String id)
  | _ => False
  end.

#[global] Instance is_mark_dec c id e : Decision (is_mark c id e).
Proof. destruct e; simpl; apply _. Defined.
#[global] Instance is_take_dec c id e : Decision (is_take c id e).
Proof. destruct e; simpl; apply _. Defined.
#[global] Instance is_clear_dec c id e : Decision (is_clear c id e).
Proof. destruct e; simpl; apply _. Defined.
#[global] Instance is_delivery_dec c id e : Decision (is_delivery c id e).
Proof. destruct e as [| | | | | | | | | |? ? []| |]; simpl; apply _. Defined.

Lemma count_app P `{!∀ e, Decision (P e)} tr1 tr2 :
  count P (tr1 ++ tr2) = (count P tr1 + count P tr2)%nat.
Proof. unfold count. by rewrite filter_app, length_app. Qed.
Lemma count_nil P `{!∀ e, Decision (P e)} : count P [] = 0%nat.
Proof. done. Qed.

Lemma count_one P `{!∀ e, Decision (P e)} e :
  count P [e] = if decide (P e) then 1%nat else 0%nat.
Proof. unfold count. rewrite filter_cons. by case_decide. Qed.
End count.

Section ghost.
Context {S : Type} `{!Storage S, !StorageSpec S, UuidLib, TimeText, JsonText, Env}.
Context (cfg : Config) (SplitHostPort : string → result string).
Context (engines : string → option (Config → result S)).
Implicit Types (g : Goctopus S) (tr : list event) (phs : list phase).

(** ** One action *)

(** One unit when the phase owes an account of the mark. *)
Definition owes (c : cid) (id : uuid) (ph : phase) : nat :=
  if decide (ph_mark ph = Some (c, id)) then 1 else 0.

(** One for the pair itself, nothing for another. *)
Definition same (c : cid) (id : uuid) (c' : cid) (id' : uuid) : nat :=
  if decide (c' = c ∧ id' = id) then 1 else 0.

Lemma owes_some c id ph c' id' : ph_mark ph = Some (c', id') → owes c id ph = same c id c' id'.
Proof.
  unfold owes, same. intros ->. destruct (decide (c' = c ∧ id' = id)) as [[-> ->]|Hne].
  - by rewrite decide_True.
  - rewrite decide_False; [done|]. intros [= -> ->]. by apply Hne.
Qed.

Lemma owes_none c id ph : ph_mark ph = None → owes c id ph = 0%nat.
Proof. unfold owes. by intros ->. Qed.

Lemma count_mark c id c' id' k : count (is_mark c id) [EvMark c' id' k] = same c id c' id'.
Proof. by rewrite count_one. Qed.
Lemma count_take c id c' id' k : count (is_take c id) [EvTake c' id' k] = same c id c' id'.
Proof. by rewrite count_one. Qed.
Lemma count_clear c id c' id' : count (is_clear c id) [EvClear c' id'] = same c id c' id'.
Proof. by rewrite count_one. Qed.
Lemma count_delivery `{!Inj (=) (=) uuid_String} c id c' id' data :
  frame_id data = Some (uuid_String id') →
  count (is_delivery c id) [EvWrite c' data None] = same c id c' id'.
Proof.
  intros Hid. rewrite count_one. unfold same. simpl. rewrite Hid.
  destruct (decide (c' = c ∧ id' = id)) as [[-> ->]|Hne].
  - by rewrite decide_True.
  - rewrite decide_False; [done|]. intros [-> [= Heq%(inj uuid_String)]]. by apply Hne.
Qed.

Lemma action_balance `{!Inj (=) (=) uuid_String} {X : Set} (o : op X) x ph c id :
  allowed o ph →
  (count (is_mark c id) (event_of o x) + owes c id ph =
   count (is_delivery c id) (event_of o x) + count (is_clear c id) (event_of o x) +
   owes c id (next_phase o x ph))%nat.
Proof.
  intros Ha. destruct o; cbn [event_of next_phase] in *;
    try (rewrite ?count_nil, ?count_one; simpl; lia);
    try (rewrite !count_nil; unfold owes; simpl; lia);
    try (destruct x; rewrite ?count_nil, ?count_one; simpl; lia).
  - destruct x; [|rewrite !count_nil; lia]. cbn [allowed] in Ha. subst ph.
    rewrite count_mark, owes_none, (owes_some _ _ _ c0 id0), !count_one by done. simpl. lia.
  - rewrite count_clear, (owes_some _ _ ph c0 id0), (owes_none _ _ (Phase _ _)), !count_one
      by done. simpl. lia.
  - destruct Ha as (id' & Hm & Hid). destruct x; [rewrite !count_one; simpl; lia|].
    rewrite (count_delivery _ _ _ id'), (owes_some _ _ ph c0 id'),
      (owes_none _ _ (Phase _ _)), !count_one by done. simpl. lia.
Qed.

(** What an action does to the table of locks, and to the lock in hand. *)
Lemma action_locks {X : Set} (o : op X) g g' x ph :
  allowed o ph → enabled o g → exec_op cfg o g = (g', x) →
  (∃ l, ph_lock ph = None ∧ ph_lock (next_phase o x ph) = Some l ∧
     l ∉ g_sendLocks g ∧ g_sendLocks g' = {[l]} ∪ g_sendLocks g) ∨
  (∃ l, ph_lock ph = Some l ∧ ph_lock (next_phase o x ph) = None ∧
     g_sendLocks g' = g_sendLocks g ∖ {[l]}) ∨
  (ph_lock (next_phase o x ph) = ph_lock ph ∧ g_sendLocks g' = g_sendLocks g).
Proof.
  intros Ha Hen He. destruct o; simpl in He; unfold with_client, with_storage in He;
    repeat (case_match; simplify_eq/=); simplify_eq/=; try (by right; right);
    try (right; right; split; [by case_match|done]).
  - left. exists (sendLock key). done.
  - right; left. exists (sendLock key). done.
Qed.

(** ** All goroutines *)

Definition owed (c : cid) (id : uuid) phs : nat := sum_list_with (owes c id) phs.

Record phases_ok (s : sys (S:=S)) phs : Prop := {
  po_threads : Forall2 (λ t ph, obeys (t_prog t) ph idle) (s_threads s) phs;
  po_locks_once : NoDup (omap ph_lock phs);
  po_locks l : l ∈ g_sendLocks (s_g s) ↔ l ∈ omap ph_lock phs;
  po_marks c id : Inj (=) (=) uuid_String → count (is_mark c id) (s_trace s) =
    (count (is_delivery c id) (s_trace s) + count (is_clear c id) (s_trace s) +
     owed c id phs)%nat;
}.

(** The locks in hand after one goroutine changed phase. *)
Lemma locks_change phs1 ph ph' phs2 (locks locks' : gset Z) :
  (∃ l, ph_lock ph = None ∧ ph_lock ph' = Some l ∧ l ∉ locks ∧ locks' = {[l]} ∪ locks) ∨
  (∃ l, ph_lock ph = Some l ∧ ph_lock ph' = None ∧ locks' = locks ∖ {[l]}) ∨
  (ph_lock ph' = ph_lock ph ∧ locks' = locks) →
  NoDup (omap ph_lock (phs1 ++ ph :: phs2)) →
  (∀ l, l ∈ locks ↔ l ∈ omap ph_lock (phs1 ++ ph :: phs2)) →
  NoDup (omap ph_lock (phs1 ++ ph' :: phs2)) ∧
  (∀ l, l ∈ locks' ↔ l ∈ omap ph_lock (phs1 ++ ph' :: phs2)).
Proof.
  rewrite !omap_app. intros [(l & Hl & Hl' & Hnew & ->)|[(l & Hl & Hl' & ->)|[Hl ->]]];
    cbn [omap list_omap]; rewrite ?Hl, ?Hl'; [| |done].
  - intros Hnd Hin. setoid_rewrite <-Permutation_middle. rewrite NoDup_cons, <-Hin.
    split; [done|]. intros l'. rewrite elem_of_union, elem_of_singleton, elem_of_cons, <-Hin.
    done.
  - setoid_rewrite <-Permutation_middle. rewrite NoDup_cons. intros [Hnot Hnd] Hin.
    split; [done|]. intros l'. rewrite elem_of_difference, elem_of_singleton, Hin, elem_of_cons.
    split; [intros [[->|?] ?]; done|]. intros Hl2. split; [by right|]. by intros ->.
Qed.

Lemma phases_act g ts tr phs i w {X : Set} (o : op X) k g' x :
  phases_ok (Sys g ts tr) phs →
  ts !! i = Some (Thread w (Vis o k)) → enabled o g → exec cfg o g = (g', x) →
  ∃ phs', phases_ok (Sys g' (<[i := Thread w (k x)]> ts) (tr ++ event_of o x)) phs'.
Proof.
  unfold exec. intros [Hts Hnd Hl Hm] Hi Hen He.
  destruct (exec_op cfg o g) as [g1 x1] eqn:Ho. injection He as <- <-. simpl in *.
  destruct (Forall2_lookup_l _ _ _ _ _ Hts Hi) as (ph & Hph & Ha & Hk). simpl in Ha, Hk.
  destruct (lookup_split phs i ph Hph) as (p1 & p2 & -> & Hins).
  exists (<[i := next_phase o x1 ph]> (p1 ++ ph :: p2)).
  destruct (locks_change p1 ph (next_phase o x1 ph) p2 (g_sendLocks g) (g_sendLocks g1))
    as [Hnd' Hl']; [by eapply action_locks|done|done|].
  split; simpl; rewrite ?Hins; [|done|done|].
  - rewrite <-Hins. apply Forall2_insert; [done|]. apply Hk.
  - intros c id Hinj. specialize (Hm c id Hinj). revert Hm. unfold owed.
    rewrite !count_app, !sum_list_with_app. simpl.
    pose proof (action_balance o x1 ph c id Ha). lia.
Qed.

(** A goroutine that starts is idle, whatever starts it. *)
Lemma phases_spawn g g' ts tr tr' phs t :
  phases_ok (Sys g ts tr) phs → g_sendLocks g' = g_sendLocks g →
  (tr' = tr ∨ ∃ r, tr' = tr ++ [EvRequest r]) →
  obeys (t_prog t) idle idle → phases_ok (Sys g' (ts ++ [t]) tr') (phs ++ [idle]).
Proof.
  intros [Hts Hnd Hl Hm] Hg Htr Ht. simpl in *. split; simpl.
  - apply Forall2_app; [done|]. by constructor.
  - rewrite omap_app. cbn [omap list_omap idle ph_lock]. by rewrite app_nil_r.
  - intros l. rewrite Hg, omap_app. cbn [omap list_omap idle ph_lock].
    by rewrite app_nil_r.
  - intros c id Hinj. unfold owed. rewrite sum_list_with_app. simpl.
    destruct Htr as [->|[r ->]]; [|rewrite !count_app, !count_one; simpl];
      rewrite (Hm c id Hinj); unfold owed; lia.
Qed.

Lemma phases_end g ts1 w ts2 tr phs :
  phases_ok (Sys g (ts1 ++ Thread w (Ret tt) :: ts2) tr) phs →
  ∃ phs', phases_ok (Sys g (ts1 ++ ts2) tr) phs'.
Proof.
  intros [Hts Hnd Hl Hm]. simpl in *.
  apply Forall2_app_inv_l in Hts as (p1 & p2' & Hp1 & Hp2 & ->).
  apply Forall2_cons_inv_l in Hp2 as (ph & p2 & Hph & Hp2 & ->).
  assert (ph = idle) as -> by exact Hph.
  exists (p1 ++ p2). split; simpl.
  - by apply Forall2_app.
  - revert Hnd. rewrite !omap_app. done.
  - intros l. rewrite Hl, !omap_app. done.
  - intros c id Hinj. rewrite (Hm c id Hinj). unfold owed. rewrite !sum_list_with_app. simpl.
     lia.
Qed.

Lemma starts_obeys g r p : starts cfg g r p → obeys p idle idle.
Proof.
  destruct 1; [apply run_task_obeys|apply readLoop_obeys|apply pingLoop_obeys].
Qed.

Lemma phases_step s s' phs :
  phases_ok s phs → step cfg SplitHostPort s s' → ∃ phs', phases_ok s' phs'.
Proof.
  intros Hok Hs. destruct Hs as [g ts tr i w X o k g' x Hi Hen He|g ts1 w ts2 tr
    |g ts tr t work Hw Hb|g ts tr _ _ _|g ts tr rs1 r rs2 p Hr Hp|g ts tr r|g ts tr key|g ts tr].
  - by eapply phases_act.
  - by eapply phases_end.
  - eexists. eapply phases_spawn; [done|done|by left|apply run_task_obeys].
  - exists phs. by destruct Hok; split.
  - eexists. eapply phases_spawn; [done|done|by left|by eapply starts_obeys].
  - eexists. eapply phases_spawn; [done|done|by right; eauto|apply serve_obeys].
  - eexists. eapply phases_spawn; [done|done|by left|apply on_notification_obeys].
  - eexists. eapply phases_spawn; [done|done|by left|apply Stop_obeys].
Qed.

Lemma phases_initial s : initial cfg engines s → ∃ phs, phases_ok s phs.
Proof.
  intros (g & n & n' & Hg & ->). exists [idle; idle]. split; simpl.
  - constructor; [apply sweepExpired_obeys|]. constructor; [apply reconcileLoop_obeys|done].
  - constructor.
  - intros l. unfold Start in Hg. repeat case_match; simplify_eq; simpl; set_solver.
  - done.
Qed.

Lemma reachable_phases s : reachable cfg SplitHostPort engines s → ∃ phs, phases_ok s phs.
Proof.
  intros (s0 & Hinit & Hsteps). apply phases_initial in Hinit.
  induction Hsteps as [s|s1 s2 s3 H12 _ IH]; [done|]. destruct Hinit as [phs Hphs].
  apply IH. by eapply phases_step.
Qed.

(** ** Marks in flight *)

Context (engines_ok : ∀ s0, getStorage cfg engines = Returned s0 → st_ok s0).

Definition in_flight (cl : client) (id : uuid) : nat := if c_inflight cl !! id then 1 else 0.

(** One when the message awaits the acknowledgement of the connection. *)
Definition awaiting g (c : cid) (id : uuid) : nat :=
  match g_clients g !! c with Some cl => in_flight cl id | None => 0 end.

Lemma awaiting_le g c id : (awaiting g c id ≤ 1)%nat.
Proof. unfold awaiting, in_flight. repeat case_match; lia. Qed.

(** Marks are acknowledged, removed, or still in flight. *)
Definition balanced g tr : Prop :=
  ∀ c id, (count (is_mark c id) tr ≤
    count (is_take c id) tr + count (is_clear c id) tr + awaiting g c id)%nat.

Lemma same_refl c id : same c id c id = 1%nat.
Proof. unfold same. by rewrite decide_True. Qed.

Lemma same_ne c id c' id' : ¬ (c' = c ∧ id' = id) → same c id c' id' = 0%nat.
Proof. unfold same. intros. by rewrite decide_False. Qed.

(** An operation on one connection, reported by [es]. *)
Lemma with_client_balance g c0 {X} (x0 : X) f g' x es c id :
  with_client g c0 x0 f = (g', x) →
  (∀ cl, g_clients g !! c0 = Some cl → x = (f cl).2 →
     (count (is_mark c id) es + (if decide (c = c0) then in_flight cl id else 0) ≤
      count (is_take c id) es + count (is_clear c id) es +
      (if decide (c = c0) then in_flight (f cl).1 id else 0))%nat) →
  (g_clients g !! c0 = None → x = x0 → count (is_mark c id) es = 0%nat) →
  (count (is_mark c id) es + awaiting g c id ≤
   count (is_take c id) es + count (is_clear c id) es + awaiting g' c id)%nat.
Proof.
  unfold with_client, awaiting. destruct (g_clients g !! c0) as [cl|] eqn:Hc0.
  - destruct (f cl) as [cl' x'] eqn:Hf. intros [= <- <-] Hle _.
    specialize (Hle cl eq_refl). rewrite Hf in Hle. specialize (Hle eq_refl). simpl in *.
    destruct (decide (c = c0)) as [->|Hne].
    + by rewrite Hc0, lookup_insert_eq.
    + rewrite lookup_insert_ne by done. lia.
  - intros [= <- <-] _ Hn. rewrite Hn by done. lia.
Qed.

(** An operation that reports nothing and leaves the marks. *)
Lemma with_client_silent g c0 {X} (x0 : X) f g' x es c id :
  with_client g c0 x0 f = (g', x) →
  count (is_mark c id) es = 0%nat →
  (∀ cl, c_inflight (f cl).1 = c_inflight cl) →
  (count (is_mark c id) es + awaiting g c id ≤
   count (is_take c id) es + count (is_clear c id) es + awaiting g' c id)%nat.
Proof.
  intros He Hm Hf. eapply with_client_balance; [done| |done].
  intros cl _ _. rewrite Hm. unfold in_flight. rewrite Hf. lia.
Qed.

Lemma exec_op_balance {X : Set} (o : op X) g tr g' x c id :
  explained cfg engines g tr → exec_op cfg o g = (g', x) →
  (count (is_mark c id) (event_of o x) + awaiting g c id ≤
   count (is_take c id) (event_of o x) + count (is_clear c id) (event_of o x) +
   awaiting g' c id)%nat.
Proof.
  intros Hex He. destruct o; cbn [exec_op event_of] in *; unfold with_storage in *;
    try (repeat case_match; simplify_eq/=; rewrite ?count_nil, ?count_one; simpl; done || lia).
  - injection He as <- <-. rewrite !count_one. unfold awaiting. simpl.
    destruct (decide (c = g_next g)) as [->|Hne].
    + destruct (g_clients g !! g_next g) as [cl|] eqn:Hcl; [|lia].
      destruct (ex_client _ _ _ _ Hex _ _ Hcl). lia.
    + by rewrite lookup_insert_ne.
  - injection He as <- <-. rewrite !count_nil. unfold awaiting. simpl.
    rewrite map_lookup_imap. destruct (g_clients g !! c) as [cl|]; [|done]. simpl.
    destruct (decide _); [|done]. unfold in_flight. by rewrite (proj2 (close_frame cl)).
  - eapply with_client_balance; [exact He| |by intros _ ->].
    intros cl _ Hx. revert Hx. unfold markInflight. destruct (c_closed cl); [by intros ->|].
    destruct (c_inflight cl !! id0) as [k|] eqn:Hid; intros ->; [done|]. simpl.
    rewrite count_mark.
    destruct (decide (c = c0)) as [->|Hne]; [|rewrite same_ne by naive_solver; lia].
    unfold in_flight. simpl. destruct (decide (id = id0)) as [->|Hne].
    + rewrite same_refl, Hid, lookup_insert_eq. lia.
    + rewrite same_ne, lookup_insert_ne by naive_solver. lia.
  - eapply with_client_balance; [exact He| |by intros _ ->].
    intros cl _ Hx. revert Hx. unfold takeInflight.
    destruct (c_inflight cl !! id0) as [k|] eqn:Hid; intros ->; [|done]. simpl.
    rewrite count_take.
    destruct (decide (c = c0)) as [->|Hne]; [|lia].
    unfold in_flight. simpl. destruct (decide (id = id0)) as [->|Hne].
    + rewrite same_refl, Hid. lia.
    + rewrite lookup_delete_ne by done. lia.
  - eapply with_client_balance; [exact He| |by rewrite count_one].
    intros cl _ _. rewrite count_clear, !count_one. simpl.
    destruct (decide (c = c0)) as [->|Hne]; [|lia].
    unfold in_flight. simpl. destruct (decide (id = id0)) as [->|Hne].
    + rewrite same_refl. destruct (c_inflight cl !! id0); lia.
    + rewrite lookup_delete_ne by done. lia.
  - eapply with_client_silent; [exact He|by rewrite count_one|].
    intros cl. apply write_frame_frame.
  - eapply with_client_silent; [exact He|done|]. intros cl. apply write_frame_frame.
  - eapply with_client_silent; [exact He|done|]. intros cl. apply write_frame_frame.
  - eapply with_client_silent; [exact He|by rewrite count_one|]. intros cl. apply close_frame.
Qed.

Lemma reachable_balanced s : reachable cfg SplitHostPort engines s → balanced (s_g s) (s_trace s).
Proof.
  intros Hr. assert (explained cfg engines (s_g s) (s_trace s) ∧ balanced (s_g s) (s_trace s))
    as [_ ?]; [|done]. revert Hr. apply (reachable_ind cfg SplitHostPort engines (λ g tr, explained cfg engines g tr ∧ balanced g tr)).
  - intros g Hg. split; [by eapply ac_explained, accounted_start|]. intros c id. unfold count. simpl. lia.
  - intros g tr g' tr' Hev. destruct Hev as [X o g tr g' x _ He|g tr w rs|g tr n|g tr r|g tr];
      intros [Hex Hb].
    + unfold exec in He. destruct (exec_op cfg o g) as [g1 x1] eqn:Ho. injection He as <- <-.
      split.
      * destruct (explained_exec cfg SplitHostPort engines engines_ok o g tr g1 x1 Hex Ho). by split.
      * intros c id. rewrite !count_app. specialize (Hb c id).
        pose proof (exec_op_balance o g tr g1 x1 c id Hex Ho).
        change (awaiting (next_tick g1) c id) with (awaiting g1 c id). lia.
    + split; [destruct Hex; by split|done].
    + split; [destruct Hex; by split|done].
    + split; [eapply explained_stable; [|done]; set_solver|].
      intros c id. rewrite !count_app, !count_one. simpl. specialize (Hb c id). lia.
    + done.
Qed.
End ghost.
