(* ===== verification/Simulate.v ===== *)
(** * Executing the gateway

    The transition system of the file [System] as a function: a schedule is a
    list of choices, [drive] performs those that are possible and skips the
    others.  A small scenario (a subscriber connects, a message is posted,
    delivered and acknowledged) is run by evaluation; the theorems about all
    runs are instantiated on it. *)
From stdpp Require Import base numbers list gmap strings relations.
From S2P Require Import Prelude GoStd GoTime Topics Json Const Message Storage MemoryStorage.
From S2P Require Import History Config Client Http RateLimit Authorizer Prog Engine Server.
From S2P Require Import System.

#[local] Open Scope Z_scope.
#[local] Open Scope prog_scope.

(** ** A scheduler *)

Inductive choice :=
| CAct (i : nat)
| CWorker
| CGo (ins : list input) (ws : list wakeup)
| CRequest (r : Request)
| CNotification (key : string)
| CStop.

Section drive.
Context {S : Type} `{!Storage S, UuidLib, TimeText, JsonText, Env}.
Context (cfg : Config) (SplitHostPort : string → result string).

#[global] Instance enabled_dec {X : Set} (o : op X) (g : Goctopus S) : Decision (enabled o g).
Proof. destruct o; simpl; apply _. Defined.

(** The program a [go] statement starts, on the given input. *)
Definition start_of (g : Goctopus S) (r : goroutine) (ins : list input) (ws : list wakeup)
  : option (prog op unit) :=
  match r with
  | GTask t => Some (run_task cfg t)
  | GReadLoop c => (λ cl, readLoop cfg c (c_compress cl) ins) <$> g_clients g !! c
  | GPingLoop c => Some (pingLoop c ws)
  end.

Definition step_by (s : sys (S:=S)) (ch : choice) : sys (S:=S) :=
  let '(Sys g ts tr) := s in
  match ch with
  | CAct i =>
    match ts !! i with
    | None => s
    | Some (Thread _ (Ret tt)) => Sys g (take i ts ++ drop (1 + i)%nat ts) tr
    | Some (Thread w (Vis o k)) =>
      if decide (enabled o g) then
        let '(g', x) := exec cfg o g in
        Sys g' (<[i := Thread w (k x)]> ts) (tr ++ event_of o x)
      else s
    end
  | CWorker =>
    match g_work g with
    | [] =>
      if decide (g_cancelled g = true ∧ busy_workers ts < g_workers g) then
        Sys (set_workers g (g_workers g - 1)) ts tr
      else s
    | t :: work =>
      if decide (busy_workers ts < g_workers g) then
        Sys (set_work g work (g_spawned g)) (ts ++ [Thread true (run_task cfg t)]) tr
      else s
    end
  | CGo ins ws =>
    match g_spawned g with
    | [] => s
    | r :: rs =>
      match start_of g r ins ws with
      | None => s
      | Some p => Sys (set_work g (g_work g) rs) (ts ++ [Thread false p]) tr
      end
    end
  | CRequest r =>
    Sys g (ts ++ [Thread false (ServeHTTP cfg SplitHostPort r ;; Ret tt)]) (tr ++ [EvRequest r])
  | CNotification key => Sys g (ts ++ [Thread false (on_notification key)]) tr
  | CStop => Sys g (ts ++ [Thread false Stop]) tr
  end.

Definition drive (s : sys (S:=S)) (l : list choice) : sys (S:=S) := fold_left step_by l s.

Lemma start_of_starts g r ins ws p : start_of g r ins ws = Some p → starts cfg g r p.
Proof.
  destruct r as [t|c|c]; simpl.
  - intros [= <-]. constructor.
  - intros (cl & Hc & ->)%fmap_Some. by constructor.
  - intros [= <-]. constructor.
Qed.

Lemma step_by_sound s ch : rtc (step cfg SplitHostPort) s (step_by s ch).
Proof.
  destruct s as [g ts tr], ch as [i| |ins ws|r|key|]; simpl; try (apply rtc_once; constructor).
  - destruct (ts !! i) as [[w [[]|X o k]]|] eqn:Hi; [| |done].
    + apply rtc_once. rewrite <-(take_drop_middle ts i _ Hi) at 1. constructor.
    + destruct (decide (enabled o g)); [|done]. destruct (exec cfg o g) as [g' x] eqn:He.
      apply rtc_once. by econstructor.
  - destruct (g_work g) as [|t work] eqn:Hw.
    { case_decide as Hd; [|done]. destruct Hd. apply rtc_once. by constructor. }
    destruct (decide (busy_workers ts < g_workers g)); [|done]. apply rtc_once. by constructor.
  - destruct (g_spawned g) as [|r rs] eqn:Hr; [done|].
    destruct (start_of g r ins ws) as [p|] eqn:Hp; [|done]. apply rtc_once.
    apply (step_go _ _ g ts tr [] r rs); [done|by eapply start_of_starts].
Qed.

Lemma drive_by_steps s l : rtc (step cfg SplitHostPort) s (drive s l).
Proof.
  revert s. induction l as [|ch l IH]; intros s; [done|]. etrans; [apply step_by_sound|apply IH].
Qed.

Lemma drive_reachable engines s l :
  reachable cfg SplitHostPort engines s → reachable cfg SplitHostPort engines (drive s l).
Proof.
  intros (s0 & Hinit & Hs). exists s0. split; [done|]. etrans; [exact Hs|apply drive_by_steps].
Qed.
End drive.

(** ** A scenario *)

Module Demo.

(** Identifiers written as their sixteen bytes. *)
Definition Parse (s : string) : option uuid :=
  (if bool_decide (String.length s = 16%nat) as b
     return (Is_true b → uuid) → option uuid
   then λ f, Some (f I) else λ _, None) (λ H, exist _ s H).

#[export] Instance demo_uuid : UuidLib := {| uuid_Parse := Parse; uuid_String := proj1_sig |}.

#[export] Instance demo_uuid_inj : Inj (=) (=) (uuid_String).
Proof. intros x y Hxy. by apply dsig_eq. Qed.

#[export] Instance demo_time : TimeText := λ _, "1970-01-01T00:00:00Z".

(** The documents of the scenarios. *)
Definition post_both_body : string := "{'keys':['a.x','a.y'],'value':1}".
Definition post_body : string := "{'key':'a.b','value':1}".
Definition ack_body : string := "{'id':'0123456789abcdef'}".

#[export] Instance demo_json : JsonText := λ s,
  if decide (s = post_body) then Some (JObj [("key", JStr "a.b"); ("value", JNum (f64_of_Z 1))])
  else if decide (s = post_both_body)
    then Some (JObj [("keys", JArr [JStr "a.x"; JStr "a.y"]); ("value", JNum (f64_of_Z 1))])
  else if decide (s = ack_body) then Some (JObj [("id", JStr "0123456789abcdef")])
  else None.

Definition mid : uuid := exist _ "0123456789abcdef" I.

(** A clock that ticks once a second, a network that works. *)
#[export] Instance demo_env : Env := {|
  env_clock := λ n, 1000000 * Second + Z.of_nat n * Second;
  env_range := λ _ X, elements X;
  env_net := λ _, true;
  env_uuid := λ _, Ok mid;
  env_auth := λ _, Err (Error "no backend");
  env_upgrade := λ _, Ok false;
  env_url := λ _, None;
  env_version := "dev";
  env_commit := "none";
  env_go := "go1.22";
  |}.

Lemma demo_clock_mono n : env_clock n ≤ env_clock (S n).
Proof. unfold env_clock, demo_env. change Second with 1000000000. lia. Qed.

Definition SplitHostPort (_ : string) : result string := Ok "127.0.0.1".

(** Two workers, a storage engine, the dummy authorizer under [a.*]; the backend
    API open or closed, and a limit on messages. *)
Definition cfg_on (engine : string) (open : bool) (limit : Z) : Config := {|
  Host := "0.0.0.0"; Port := "7890"; Workers := 2; DefaultExpire := "1h"; Verbose := false;
  LogJSON := false; Login := ""; Password := ""; InsecureNoAuth := open;
  StorageEngine := engine; AuthorizerEngine := "dummy"; AuthURL := "a.*"; AuthTimeout := 0;
  AuthCacheTTL := 0; RedisURL := ""; RedisKeyTTL := 0; SweepInterval := Second;
  PingInterval := Second; ReadTimeout := Second; WriteTimeout := Second; HistorySize := 0;
  HistoryTTL := 0; ReconcileInterval := 0; MaxMessageBytes := limit; RateLimit := f64_of_Z 0;
  RateBurst := 1; TrustProxyHeaders := false; TLSCert := ""; TLSKey := "";
  Compression := false; AllowedOrigins := [] |}.

Definition cfg_with (open : bool) (limit : Z) : Config := cfg_on "memory" open limit.

Definition cfg : Config := cfg_with true 1048576.

Definition engines : string → option (Config → result MemoryStorage) :=
  Storages (λ _, Ok Memory.Init) (λ _, Err (Error "no server")).

Lemma engines_ok s0 : getStorage cfg engines = Returned s0 → st_ok s0.
Proof. intros [= <-]. apply Init_ok. Qed.

Definition request (meth path body : string) : Request :=
  MkRequest meth path [] [] None "127.0.0.1:1" body.

Definition ws_request : Request := request "GET" "/ws" "".
Definition post_request : Request := request "POST" "/" post_body.

Definition start : Goctopus MemoryStorage :=
  match Start cfg engines with
  | Returned g => g
  | Panicked => MkGoctopus ∅ ∅ ∅ ∅ 0%nat Memory.Init (Dummy []) None None (λ _, 0) 0 [] [] 8 false 0%nat
  end.

Definition s0 : sys (S:=MemoryStorage) :=
  Sys start [Thread false (sweepExpired cfg 0); Thread false (reconcileLoop cfg 0)] [].

Lemma s0_reachable : reachable cfg SplitHostPort engines s0.
Proof. exists s0. split; [|done]. exists start, 0%nat, 0%nat. by split. Qed.

(** The background loops end; a subscriber connects and its backlog is sent;
    its read loop starts; a message is posted and delivered; the read loop
    receives the acknowledgement, then the end of the connection. *)
Definition connect : list choice :=
  [CAct 0; CAct 0; CRequest ws_request] ++ replicate 10 (CAct 0) ++
  [CWorker] ++ replicate 10 (CAct 0).
Definition publish : list choice :=
  [CRequest post_request] ++ replicate 10 (CAct 0) ++ [CWorker] ++ replicate 20 (CAct 0).
Definition acknowledge : list choice :=
  [CGo [InMessage OpText ack_body None] []] ++ replicate 10 (CAct 0).

Definition delivered : sys (S:=MemoryStorage) :=
  drive cfg SplitHostPort s0 (connect ++ publish).
Definition acknowledged : sys (S:=MemoryStorage) :=
  drive cfg SplitHostPort s0 (connect ++ publish ++ acknowledge).

Lemma delivered_reachable : reachable cfg SplitHostPort engines delivered.
Proof. apply drive_reachable, s0_reachable. Qed.
Lemma acknowledged_reachable : reachable cfg SplitHostPort engines acknowledged.
Proof. apply drive_reachable, s0_reachable. Qed.

(** A message posted to two keys that one subscription matches. *)
Definition publish_both : list choice :=
  [CRequest (request "POST" "/" post_both_body)] ++ replicate 10 (CAct 0) ++
  [CWorker] ++ replicate 30 (CAct 0).

(** A notification of a key, and the flush it schedules. *)
Definition flush (key : string) : list choice :=
  [CNotification key; CAct 1; CAct 1; CWorker] ++ replicate 20 (CAct 1).

(** The read loop acknowledges, and waits for more. *)
Definition acknowledge_once : list choice :=
  [CGo [InMessage OpText ack_body None] []] ++ replicate 3 (CAct 0).

End Demo.
