(* ===== verification/Delivery.v ===== *)
(** * Delivery, acknowledgement and removal, over every interleaving

    What holds of every run of the gateway, whatever the scheduling, the clock,
    the network and the storage errors: messages are not lost, frames reach
    only subscribers, copies are not repeated before an acknowledgement, locks
    exclude and do not deadlock. *)
From stdpp Require Import base numbers list gmap strings relations.
From S2P Require Import Prelude GoStd GoTime Topics Json Const Message Storage MemoryStorage.
From S2P Require Import History Config Client Http RateLimit Authorizer Prog Engine Server.
From S2P Require Import System Logic Programs Registry Invariants Causes Discipline.
From S2P Require Import Concurrency Simulate.

#[local] Open Scope Z_scope.

Section delivery.
Context {S : Type} `{!Storage S, !StorageSpec S, UuidLib, TimeText, JsonText, Env}.
Context (cfg : Config) (SplitHostPort : string → result string).
Context (engines : string → option (Config → result S)).

Local Abbreviation reachable := (reachable cfg SplitHostPort engines).

(** Why a message left its queue: it was acknowledged by a connection it had
    been sent to under that key, it had expired, an authorised DELETE named it
    or its key, or an authorised POST reused its identifier. *)
Definition removal (tr : list event) (key : string) (id : uuid) (e : event) : Prop :=
  match e with
  | EvDelete k i _ => k = key ∧ i = id ∧
      ((∃ c, EvTake c id key ∈ tr) ∨ seen_expired tr key id ∨ delete_requested cfg tr key id)
  | EvDeleteQueue k _ => k = key ∧ clear_ok cfg tr key
  | EvAdd k m _ => k = key ∧ m_id m = id ∧ add_ok cfg tr key m
  | _ => False
  end.


Lemma reachable_causes s :
  (∀ s0, getStorage cfg engines = Returned s0 → st_ok s0) →
  reachable s → every (cause cfg engines) (s_trace s).
Proof. intros Hinit Hr. by apply (reachable_accounted cfg SplitHostPort engines Hinit s Hr). Qed.

(** Where a frame comes from. *)
Lemma frame_origin s tr1 c data err tr2 :
  (∀ s0, getStorage cfg engines = Returned s0 → st_ok s0) →
  reachable s → s_trace s = tr1 ++ EvWrite c data err :: tr2 →
  frame_origin_in cfg engines tr1 c data.
Proof. intros Hinit Hr. by apply write_origin, every_local, reachable_causes. Qed.


(** C3: A connection is sent a message at most once more than it acknowledged
    it, and only while its in-flight table awaits an acknowledgement. *)
Theorem one_copy_per_acknowledgement s c id :
  Inj (=) (=) uuid_String →
  (∀ s0, getStorage cfg engines = Returned s0 → st_ok s0) →
  reachable s →
  (count (is_delivery c id) (s_trace s) ≤
   count (is_take c id) (s_trace s) + awaiting (s_g s) c id)%nat ∧
  (awaiting (s_g s) c id ≤ 1)%nat.
Proof.
  intros Hinj Hinit Hr. destruct (reachable_phases cfg SplitHostPort engines s Hr) as [phs Hp].
  pose proof (po_marks _ _ Hp c id Hinj).
  pose proof (reachable_balanced cfg SplitHostPort engines Hinit s Hr c id).
  pose proof (awaiting_le (s_g s) c id). lia.
Qed.

(** C16: Two goroutines are never both about to mark messages whose keys share
    a send lock: deliveries of one key never interleave. *)
Theorem deliveries_exclude s i j w1 w2 c1 id1 key1 k1 c2 id2 key2 k2 :
  reachable s →
  s_threads s !! i = Some (Thread w1 (Vis (OMarkInflight c1 id1 key1) k1)) →
  s_threads s !! j = Some (Thread w2 (Vis (OMarkInflight c2 id2 key2) k2)) →
  sendLock key1 = sendLock key2 → i = j.
Proof.
  intros Hr Hi Hj Hl. destruct (reachable_phases cfg SplitHostPort engines s Hr) as [phs Hp].
  destruct (Forall2_lookup_l _ _ _ _ _ (po_threads _ _ Hp) Hi) as (ph1 & Hph1 & Ha1 & _).
  destruct (Forall2_lookup_l _ _ _ _ _ (po_threads _ _ Hp) Hj) as (ph2 & Hph2 & Ha2 & _).
  simpl in Ha1, Ha2. subst ph1 ph2. rewrite Hl in Hph1.
  by eapply (NoDup_omap_lookup ph_lock phs); [apply Hp|done..].
Qed.

(** A goroutine that cannot proceed waits for a lock whose holder can:
    there is no deadlock. *)
Theorem no_deadlock s i w (X : Set) (o : op X) k :
  reachable s → s_threads s !! i = Some (Thread w (Vis o k)) → ¬ enabled o (s_g s) →
  ∃ j w' (Y : Set) (o' : op Y) k', j ≠ i ∧
    s_threads s !! j = Some (Thread w' (Vis o' k')) ∧ enabled o' (s_g s).
Proof.
  intros Hr Hi Hblocked.
  destruct (reachable_phases cfg SplitHostPort engines s Hr) as [phs Hp].
  assert (∃ key, sendLock key ∈ g_sendLocks (s_g s) ∧ (∀ ph, allowed o ph → ph = idle))
    as (key & Hkey & Ho).
  { destruct o; simpl in Hblocked; try done. exists key.
    split; [by apply dec_stable in Hblocked|done]. }
  apply (po_locks _ _ Hp), list_elem_of_omap in Hkey as (ph & Hin & Hlock).
  apply list_elem_of_lookup in Hin as [j Hj].
  destruct (Forall2_lookup_r _ _ _ _ _ (po_threads _ _ Hp) Hj) as ([w' p] & Ht & Hob).
  destruct p as [a|Y o' k']; [by rewrite Hob in Hlock|].
  destruct Hob as [Ha _]. exists j, w', Y, o', k'. split; [|split; [exact Ht|]].
  - intros ->. rewrite Hi in Ht.
    destruct (Forall2_lookup_l _ _ _ _ _ (po_threads _ _ Hp) Hi) as (ph' & Hph' & Ha' & _).
    rewrite Hj in Hph'. injection Hph' as <-. apply Ho in Ha'. by rewrite Ha' in Hlock.
  - destruct o'; simpl; try exact I. simpl in Ha. by rewrite Ha in Hlock.
Qed.

(** C7: A single message is deleted only because a connection that had it in
    flight under that very key acknowledged it, because it was seen to have
    expired, or because an authorised DELETE named it. *)
Theorem deletions_entitled s tr1 key id err tr2 :
  (∀ s0, getStorage cfg engines = Returned s0 → st_ok s0) →
  reachable s → s_trace s = tr1 ++ EvDelete key id err :: tr2 →
  (∃ c, EvTake c id key ∈ tr1 ∧ EvMark c id key ∈ tr1 ∧ subscribes tr1 c key) ∨
  (∃ q m t, EvRead key q ∈ tr1 ∧ m ∈ q ∧ m_id m = id ∧ EvNow t ∈ tr1 ∧
     isExpired m t = true) ∨
  delete_requested cfg tr1 key id.
Proof.
  intros Hinit Hr Htr. destruct (every_split _ _ _ _ _ (reachable_causes s Hinit Hr) Htr) as [Hd Hc].
  destruct Hd as [[c Htake]|Hd]; [left|by right].
  destruct (every_in _ _ _ Hc Htake) as (tr3 & Ht3 & Hmark).
  assert (EvMark c id key ∈ tr1) as Hmark1 by auto.
  destruct (every_in _ _ _ Hc Hmark1) as (tr4 & Ht4 & m & Hd & _).
  exists c. split_and!; [done|done|].
  eapply (deliverable_stored _ _ _ c key m (every_local _ _ _ Hc)). eapply deliverable_stable; [exact Ht4|exact Hd].
Qed.

(** C8: Nothing is stored that was not posted: a stored copy belongs to a
    message parsed from the body of an authorised POST, under one of its
    non-empty target keys; and no queue is cleared without an authorised
    DELETE of its key or of all keys. *)
Theorem writes_entitled s tr1 e tr2 :
  (∀ s0, getStorage cfg engines = Returned s0 → st_ok s0) →
  reachable s → s_trace s = tr1 ++ e :: tr2 →
  match e with
  | EvAdd key m _ => ∃ m0, posted cfg tr1 m0 ∧ key ∈ m_targets m0 ∧ key ≠ EMPTY_STR ∧
      m = with_Key m0 key
  | EvDeleteQueue key _ => clear_ok cfg tr1 key
  | _ => True
  end.
Proof.
  intros Hinit Hr Htr. destruct (every_split _ _ _ _ _ (reachable_causes s Hinit Hr) Htr) as [Hd _].
  destruct e; try exact I; [|exact Hd]. destruct Hd as (m0 & Hp & Hk & ->).
  exists m0. split_and!; [done|done| |done]. by apply elem_of_targets in Hk as [? _].
Qed.

(** C36: In every reachable state each registry entry is a connection
    registered under that key, no entry is empty, and the pattern set is
    exactly the registered keys with wildcards. *)
Theorem registry_sound s :
  (∀ s0, getStorage cfg engines = Returned s0 → st_ok s0) →
  reachable s →
  (∀ c k, c ∈ conns_at (g_Conns (s_g s)) k →
     ∃ keys, EvRegister c keys ∈ s_trace s ∧ k ∈ keys) ∧
  (∀ k, g_Conns (s_g s) !! k ≠ Some []) ∧
  (∀ p, p ∈ g_patterns (s_g s) ↔ hasWildcard p = true ∧ p ∈ dom (g_Conns (s_g s))).
Proof.
  intros Hinit Hr. destruct (reachable_accounted _ _ _ Hinit _ Hr) as [Hex _ _].
  split; [|apply (ex_registry _ _ _ _ Hex)].
  intros c k Hck. destruct (ex_conns _ _ _ _ Hex c k Hck) as (cl & Hcl & Hk).
  destruct (ex_client _ _ _ _ Hex c cl Hcl) as (_ & Hreg & _). eauto.
Qed.

(** ** The worker pool *)

Lemma queueCap_min : 256 ≤ queueCap cfg.
Proof. unfold queueCap. destruct (_ <? 256) eqn:Hc; lia. Qed.

Lemma exec_op_work_length {X : Set} (o : op X) (g : Goctopus S) :
  Z.of_nat (length (g_work g)) ≤ queueCap cfg →
  Z.of_nat (length (g_work (exec_op cfg o g).1)) ≤ queueCap cfg.
Proof. destruct o; exec_frame; intros Hl; try exact Hl. rewrite length_app. simpl. lia. Qed.

Lemma busy_workers_app ts1 ts2 :
  busy_workers (ts1 ++ ts2) = busy_workers ts1 + busy_workers ts2.
Proof. unfold busy_workers. rewrite filter_app, length_app. lia. Qed.

Lemma busy_workers_cons t ts :
  busy_workers (t :: ts) = (if t_worker t then 1 else 0) + busy_workers ts.
Proof.
  unfold busy_workers. rewrite filter_cons. destruct (t_worker t); simpl; lia.
Qed.

(** Actions let no worker return, and nothing takes the cancellation back. *)
Lemma exec_op_workers {X : Set} (o : op X) (g : Goctopus S) :
  g_workers (exec_op cfg o g).1 = g_workers g.
Proof. destruct o; exec_frame; done. Qed.

Lemma exec_op_cancelled {X : Set} (o : op X) (g : Goctopus S) :
  g_cancelled g = true → g_cancelled (exec_op cfg o g).1 = true.
Proof. destruct o; exec_frame; done. Qed.

(** The worker pool: workers only return once the context is cancelled. *)
Record pool_ok (s : sys (S:=S)) : Prop := {
  po_queue : Z.of_nat (length (g_work (s_g s))) ≤ queueCap cfg;
  po_busy : busy_workers (s_threads s) ≤ g_workers (s_g s);
  po_workers : g_workers (s_g s) ≤ Workers cfg;
  po_live : g_cancelled (s_g s) = true ∨ g_workers (s_g s) = Workers cfg;
}.

Lemma pool_step s s' : pool_ok s → step cfg SplitHostPort s s' → pool_ok s'.
Proof.
  intros [Hq Hb Hw Hl] Hs.
  destruct Hs as [g ts tr i w X o k g' x Hi _ He|g ts1 w ts2 tr|g ts tr t work Hwk Hbw
    |g ts tr Hc Hwk Hbw|g ts tr rs1 r rs2 p _ _|g ts tr r|g ts tr key|g ts tr]; simpl in *;
    split; simpl in *; rewrite ?busy_workers_app, ?busy_workers_cons in *;
    change (busy_workers []) with 0 in *; simpl in *; try (done || lia).
  - unfold exec in He. pose proof (exec_op_work_length o g Hq) as Hlen.
    destruct (exec_op cfg o g). by injection He as <- <-.
  - unfold exec in He. pose proof (exec_op_workers o g) as Hg. destruct (exec_op cfg o g).
    injection He as <- <-. simpl in *. rewrite Hg.
    destruct (lookup_split ts i _ Hi) as (l1 & l2 & -> & Hins). rewrite Hins.
    rewrite busy_workers_app, busy_workers_cons in *. done.
  - unfold exec in He. pose proof (exec_op_workers o g) as Hg. destruct (exec_op cfg o g).
    injection He as <- <-. simpl in *. by rewrite Hg.
  - unfold exec in He. pose proof (exec_op_workers o g) as Hg. pose proof (exec_op_cancelled o g) as Hc.
    destruct (exec_op cfg o g). injection He as <- <-. simpl in *. rewrite Hg. tauto.
  - destruct w; lia.
  - rewrite Hwk in Hq. simpl in Hq. lia.
  - by left.
Qed.

Lemma reachable_pool s : reachable s → pool_ok s.
Proof.
  intros (s0 & (g0 & n & n' & Hg & ->) & Hsteps).
  assert (pool_ok (Sys g0 [Thread false (sweepExpired cfg n); Thread false (reconcileLoop cfg n')] []))
    as Hok.
  { pose proof queueCap_min. unfold Start in Hg. repeat case_match; simplify_eq;
      split; unfold busy_workers; simpl; (lia || by right). }
  revert Hok. induction Hsteps as [s|s1 s2 s3 H12 _ IH]; [done|]. intros Hok.
  apply IH. by eapply pool_step.
Qed.

(** The queue never exceeds the capacity [Start] gave it, which is at
    least 256, and no more than the configured number of workers run queued
    tasks at the same time. *)
Theorem work_is_bounded s :
  reachable s →
  Z.of_nat (length (g_work (s_g s))) ≤ queueCap cfg ∧ 256 ≤ queueCap cfg ∧
  busy_workers (s_threads s) ≤ Workers cfg.
Proof.
  intros [Hq Hb Hw _]%reachable_pool. split_and!; [done|apply queueCap_min|lia].
Qed.
End delivery.

(** ** The theorems on the scenario *)

Import Demo.



Lemma one_copy_per_acknowledgement_witness :
  count (is_delivery 0%nat mid) (s_trace Demo.acknowledged) = 1%nat ∧
  (count (is_delivery 0%nat mid) (s_trace Demo.acknowledged) ≤
   count (is_take 0%nat mid) (s_trace Demo.acknowledged) + awaiting (s_g Demo.acknowledged) 0%nat mid)%nat ∧
  (awaiting (s_g Demo.acknowledged) 0%nat mid ≤ 1)%nat.
Proof.
  split; [vm_compute; reflexivity|].
  apply (one_copy_per_acknowledgement cfg SplitHostPort engines).
  - apply _.
  - apply engines_ok.
  - apply acknowledged_reachable.
Defined.

Lemma deletions_entitled_witness :
  let tr := take 11 (s_trace Demo.acknowledged) in
  s_trace Demo.acknowledged !! 11%nat = Some (EvDelete "a.b" mid None) ∧
  ((∃ c, EvTake c mid "a.b" ∈ tr ∧ EvMark c mid "a.b" ∈ tr ∧ subscribes tr c "a.b") ∨
   (∃ q m t, EvRead "a.b" q ∈ tr ∧ m ∈ q ∧ m_id m = mid ∧ EvNow t ∈ tr ∧
      isExpired m t = true) ∨
   delete_requested cfg tr "a.b" mid).
Proof.
  split; [vm_compute; reflexivity|].
  eapply (deletions_entitled cfg SplitHostPort engines Demo.acknowledged).
  - apply engines_ok.
  - apply acknowledged_reachable.
  - apply split_at. vm_compute. reflexivity.
Defined.

Lemma writes_entitled_witness :
  let tr := take 4 (s_trace Demo.delivered) in
  ∃ m m0, s_trace Demo.delivered !! 4%nat = Some (EvAdd "a.b" m None) ∧
    posted cfg tr m0 ∧ "a.b" ∈ m_targets m0 ∧ "a.b" ≠ EMPTY_STR ∧ m = with_Key m0 "a.b".
Proof.
  assert (∃ m, s_trace Demo.delivered !! 4%nat = Some (EvAdd "a.b" m None)) as [m Hm]
    by (eexists; vm_compute; reflexivity).
  destruct (writes_entitled cfg SplitHostPort engines Demo.delivered
              (take 4 (s_trace Demo.delivered)) (EvAdd "a.b" m None)
              (drop 5 (s_trace Demo.delivered))) as [m0 Hm0].
  - apply engines_ok.
  - apply delivered_reachable.
  - apply split_at. exact Hm.
  - exists m, m0. split; [exact Hm|exact Hm0].
Defined.

Lemma registry_sound_witness :
  conns_at (g_Conns (s_g Demo.delivered)) "a.*" = [0%nat] ∧
  (∀ c k, c ∈ conns_at (g_Conns (s_g Demo.delivered)) k →
     ∃ keys, EvRegister c keys ∈ s_trace Demo.delivered ∧ k ∈ keys) ∧
  (∀ k, g_Conns (s_g Demo.delivered) !! k ≠ Some []) ∧
  (∀ p, p ∈ g_patterns (s_g Demo.delivered) ↔
     hasWildcard p = true ∧ p ∈ dom (g_Conns (s_g Demo.delivered))).
Proof.
  split; [vm_compute; reflexivity|].
  apply (registry_sound cfg SplitHostPort engines).
  - apply engines_ok.
  - apply delivered_reachable.
Defined.

(** Two notifications of one key: the second flush waits for the first. *)
Definition contended : sys (S:=MemoryStorage) :=
  drive cfg SplitHostPort s0
    ([CAct 0; CAct 0; CNotification "a.b"; CAct 0; CAct 0; CNotification "a.b"; CAct 0; CAct 0;
      CWorker; CWorker; CAct 0]).

Lemma contended_reachable : reachable cfg SplitHostPort engines contended.
Proof. apply drive_reachable, s0_reachable. Qed.

Lemma no_deadlock_witness :
  ∃ j w (Y : Set) (o : op Y) k, j ≠ 1%nat ∧
    s_threads contended !! j = Some (Thread w (Vis o k)) ∧ enabled o (s_g contended).
Proof.
  eapply (no_deadlock cfg SplitHostPort engines contended 1 true _ (OSendLock "a.b")).
  - apply contended_reachable.
  - reflexivity.
  - intros Hfree. by vm_compute in Hfree.
Defined.

(** The worker about to mark the posted message for the subscriber. *)
Definition marking : sys (S:=MemoryStorage) :=
  drive cfg SplitHostPort s0
    (connect ++ [CRequest post_request] ++ replicate 10 (CAct 0) ++ [CWorker] ++
     replicate 6 (CAct 0)).

Lemma marking_reachable : reachable cfg SplitHostPort engines marking.
Proof. apply drive_reachable, s0_reachable. Qed.

Lemma deliveries_exclude_witness :
  ∃ k, s_threads marking !! 0%nat =
         Some (Thread true (Vis (OMarkInflight 0%nat mid "a.b") k)) ∧ 0%nat = 0%nat.
Proof.
  assert (∃ k, s_threads marking !! 0%nat =
    Some (Thread true (Vis (OMarkInflight 0%nat mid "a.b") k))) as [k Hk]
    by (eexists; vm_compute; reflexivity).
  exists k. split; [exact Hk|].
  apply (deliveries_exclude cfg SplitHostPort engines marking 0 0 true true 0%nat mid "a.b" k
           0%nat mid "a.b" k).
  - apply marking_reachable.
  - exact Hk.
  - exact Hk.
  - reflexivity.
Defined.

Lemma work_is_bounded_witness :
  Z.of_nat (length (g_work (s_g contended))) ≤ queueCap cfg ∧ 256 ≤ queueCap cfg ∧
  busy_workers (s_threads contended) ≤ Workers cfg.
Proof.
  apply (work_is_bounded cfg SplitHostPort engines).
  apply contended_reachable.
Defined.

(** ** A message posted to several keys *)

(** The subscriber of [a.*] receives a message posted to [a.x] and [a.y],
    acknowledges it, and [a.y] is flushed. *)
Definition posted_to_both : sys (S:=MemoryStorage) :=
  drive cfg SplitHostPort s0 (connect ++ publish_both).
Definition acknowledged_once : sys (S:=MemoryStorage) :=
  drive cfg SplitHostPort s0 (connect ++ publish_both ++ acknowledge_once).
Definition flushed_after : sys (S:=MemoryStorage) :=
  drive cfg SplitHostPort s0 (connect ++ publish_both ++ acknowledge_once ++ flush "a.y").

(** A message posted to two keys reaches a connection that subscribes to both
    once; its acknowledgement removes the copy of the key it was delivered
    under and leaves the other, which the next flush of that key delivers to
    the same connection a second time. *)
Theorem second_key_is_redelivered :
  reachable cfg SplitHostPort engines flushed_after ∧
  count (is_delivery 0%nat mid) (s_trace posted_to_both) = 1%nat ∧
  length <$> storage (g_storage (s_g posted_to_both)) = {["a.x" := 1%nat; "a.y" := 1%nat]} ∧
  count (is_take 0%nat mid) (s_trace acknowledged_once) = 1%nat ∧
  length <$> storage (g_storage (s_g acknowledged_once)) = {["a.y" := 1%nat]} ∧
  count (is_delivery 0%nat mid) (s_trace flushed_after) = 2%nat.
Proof.
  split; [apply drive_reachable, s0_reachable|].
  split_and!; vm_compute; reflexivity.
Qed.
