(* ===== verification/Operations.v ===== *)
(** * Functional behaviour of the operations

    What each operation does when it runs alone ([run]), on the in-memory
    storage: the state it leaves and the answer it gives, on every branch. *)
From stdpp Require Import base numbers list gmap strings.
From S2P Require Import Prelude GoStd GoTime Topics Json Const Message Storage MemoryStorage.
From S2P Require Import History Config Client Http RateLimit Authorizer Prog Engine Server.
From S2P Require Import System Registry Logic Programs Invariants Causes Simulate.

#[local] Open Scope Z_scope.
#[local] Open Scope prog_scope.

(** ** Running programs *)

Section run.
Context {S : Type} `{!Storage S, Env}.
Context (cfg : Config).
Implicit Types (g : Goctopus S).

Lemma run_bind {A B} (p : prog op A) (f : A → prog op B) g :
  run cfg (bind p f) g = run cfg (f (run cfg p g).2) (run cfg p g).1.
Proof.
  revert g. induction p as [a|X o k IH]; intros g; simpl; [done|].
  destruct (exec cfg o g) as [g' x]. apply IH.
Qed.

Lemma run_act {X : Set} (o : op X) g : run cfg (act o) g = exec cfg o g.
Proof. simpl. by destruct (exec cfg o g). Qed.

Lemma run_ret {A} (a : A) g : run cfg (Ret a) g = (g, a).
Proof. done. Qed.

Lemma exec_pair {X : Set} (o : op X) g :
  exec cfg o g = (next_tick (exec_op cfg o g).1, (exec_op cfg o g).2).
Proof. unfold exec. by destruct (exec_op cfg o g). Qed.

(** Induction over a loop: [I] holds of the elements done so far. *)
Lemma run_for_each {A} (I : list A → Goctopus S → Prop) (body : A → prog op unit) l g :
  (∀ done x g, (∃ rest, l = done ++ x :: rest) → I done g →
     I (done ++ [x]) (run cfg (body x) g).1) →
  I [] g → I l (run cfg (for_each l body) g).1.
Proof.
  intros Hbody. assert (∀ todo done g, l = done ++ todo → I done g →
    I l (run cfg (for_each todo body) g).1) as Hgen; [|by apply (Hgen l [])].
  induction todo as [|x todo IH]; intros acc g0 Hl Hacc.
  - simpl. by rewrite Hl, app_nil_r.
  - cbn [for_each]. rewrite run_bind. apply (IH (acc ++ [x])).
    + by rewrite Hl, <-(assoc_L (++)).
    + apply Hbody; eauto.
Qed.
End run.

#[export] Hint Rewrite @run_bind @run_act @run_ret @exec_pair : run.

(** Evaluate a program down to its actions. *)
Ltac run_simpl := repeat (progress (autorewrite with run; cbn [exec_op fst snd])).

(** ** Notifications *)

(** The goroutine of [Start]'s subscription schedules a flush for every key that
    is published, in order, until its context or the channel ends. *)
Lemma Subscribe_flushes {S : Type} `{!Storage S, Env} cfg (g : Goctopus S) keys e rest :
  (e = SubDone ∨ e = SubClosed) →
  run cfg (Subscribe on_notification ((SubMessage <$> keys) ++ e :: rest)) g =
  run cfg (for_each keys (λ key, schedule (TFlush key))) g.
Proof.
  intros He. revert g. induction keys as [|key keys IH]; intros g; [by destruct He as [->| ->]|].
  cbn [fmap list_fmap app Subscribe for_each]. rewrite !run_bind. apply IH.
Qed.

(** ** Programs that do not write to the storage *)

(** An action that leaves the queues alone. *)
Definition reads {X : Set} (o : op X) : bool :=
  match o with
  | OAddMessage _ _ | ODeleteMessage _ _ | ODeleteQueue _ => false
  | _ => true
  end.

Fixpoint no_write {A} (p : prog op A) : Prop :=
  match p with
  | Ret _ => True
  | Vis o k => reads o = true ∧ ∀ x, no_write (k x)
  end.

Lemma no_write_act {X : Set} (o : op X) : reads o = true → no_write (act o).
Proof. by split. Qed.

Lemma no_write_bind {A B} (p : prog op A) (f : A → prog op B) :
  no_write p → (∀ a, no_write (f a)) → no_write (bind p f).
Proof.
  intros Hp Hf. induction p as [a|X o k IH]; simpl; [done|].
  destruct Hp as [Ho Hk]. split; [done|]. intros x. by apply IH.
Qed.

Lemma no_write_for_each {A} (l : list A) (body : A → prog op unit) :
  (∀ x, no_write (body x)) → no_write (for_each l body).
Proof. intros Hb. induction l as [|x l IH]; [done|]. by apply no_write_bind. Qed.

#[global] Arguments no_write : simpl never.

Create HintDb no_write.

Ltac no_writes :=
  intros;
  repeat lazymatch goal with
  | |- no_write (Ret _) => exact I
  | |- no_write (act _) => apply no_write_act; reflexivity
  | |- no_write (for_each _ _) => apply no_write_for_each; intros
  | |- no_write (bind _ _) => apply no_write_bind; [|intros]
  | |- no_write (let _ := _ in _) => cbv zeta
  | |- no_write (match ?x with _ => _ end) => destruct x
  | |- no_write _ => solve [auto 2 with no_write]
  end.

Section no_write.
Context `{UuidLib, TimeText, JsonText}.
Context (cfg : Config).

Lemma sendMessages_no_write key : no_write (sendMessages key).
Proof.
  unfold sendMessages, sendMessages_locked, getMsgQueue, send_message, send_one. no_writes.
Qed.
Lemma historyAdd_no_write key m : no_write (historyAdd cfg key m).
Proof. unfold historyAdd. no_writes. Qed.
Lemma notify_no_write key : no_write (notify key).
Proof. unfold notify. no_writes. Qed.
Lemma historyPurge_no_write : no_write (historyPurge cfg).
Proof. unfold historyPurge. no_writes. Qed.
End no_write.

#[export] Hint Resolve sendMessages_no_write historyAdd_no_write notify_no_write
  historyPurge_no_write : no_write.

Section memory.
Context `{UuidLib, TimeText, JsonText, Env}.
Context (cfg : Config).
Implicit Types (g : Goctopus MemoryStorage).

Lemma exec_reads {X : Set} (o : op X) g :
  reads o = true → g_storage (exec_op cfg o g).1 = g_storage g.
Proof.
  destruct o; try discriminate; intros _; simpl; unfold with_client, with_storage;
    repeat (case_match; simpl); by simplify_eq/=.
Qed.

(** The in-memory storage is left as it is. *)
Lemma run_no_write {A} (p : prog op A) g :
  no_write p → g_storage (run cfg p g).1 = g_storage g.
Proof.
  revert g. induction p as [a|X o k IH]; intros g; [done|]. intros [Ho Hk].
  cbn [run]. pose proof (exec_reads o g Ho) as Hs. unfold exec.
  destruct (exec_op cfg o g) as [g1 x]. rewrite IH by apply Hk. exact Hs.
Qed.

(** ** Publishing *)

Definition stored_queues g : queues := mem_queued (g_storage g).

(** The copies of [m] under the keys [keys], over the table [q]. *)
Definition published (m : Message) (keys : list string) (q : queues) : queues :=
  λ k id, if decide (k ∈ keys ∧ id = m_id m) then Some (with_Key m k) else q k id.

Lemma deliver_one_run m key g :
  mem_ok (g_storage g) →
  let body := queueMessage (with_Key m key) ;; historyAdd cfg key (with_Key m key) ;;
              notify key ;; sendMessages key in
  let g' := (run cfg body g).1 in
  mem_ok (g_storage g') ∧ stored_queues g' ≡ q_add key (with_Key m key) (stored_queues g).
Proof.
  intros Hok body g'. subst body g'. rewrite run_bind.
  assert (∀ g0, g_storage (run cfg (historyAdd cfg key (with_Key m key) ;; notify key ;;
    sendMessages key) g0).1 = g_storage g0) as Hrest.
  { intros g0. apply run_no_write. no_writes. }
  cbv beta. unfold stored_queues. rewrite Hrest. unfold queueMessage. run_simpl. cbn. by apply AddMessage_queued.
Qed.

(** C5: Delivering a message leaves a copy of it under each of its target
    keys, in place of any message with the same identifier, and leaves every
    other queued message as it was. *)
Theorem deliver_stores_every_target m g :
  mem_ok (g_storage g) →
  let g' := (run cfg (run_task cfg (TDeliver m (m_targets m))) g).1 in
  mem_ok (g_storage g') ∧
  stored_queues g' ≡ published m (m_targets m) (stored_queues g).
Proof.
  intros Hok. cbn [run_task]. unfold deliver.
  apply (run_for_each cfg (λ keys g', mem_ok (g_storage g') ∧
    stored_queues g' ≡ published m keys (stored_queues g))).
  - intros keys key g0 _ [Hok0 Hq0]. destruct (deliver_one_run m key g0 Hok0) as [Hok1 Hq1].
    split; [exact Hok1|]. intros k id. rewrite (Hq1 k id). unfold q_add. simpl.
    rewrite (Hq0 k id). unfold published.
    destruct (decide (k = key ∧ id = m_id m)) as [[-> ->]|Hne].
    + rewrite decide_True; [done|]. split; [set_solver|done].
    + destruct (decide (k ∈ keys ∧ id = m_id m)) as [[Hk ->]|Hne2].
      * rewrite decide_True; [done|]. split; [set_solver|done].
      * rewrite decide_False; [done|]. intros [Hk ->]. apply elem_of_app in Hk as [Hk|Hk].
        { by apply Hne2. }
        apply list_elem_of_singleton in Hk. by apply Hne.
  - split; [done|]. intros k id. unfold published. rewrite decide_False; [done|].
    intros [Hk _]. by apply not_elem_of_nil in Hk.
Qed.

(** ** Acknowledging *)

(** What an acknowledgement leaves. *)
Lemma handleAck_run c cl payload g :
  mem_ok (g_storage g) → g_clients g !! c = Some cl →
  let g' := (run cfg (handleAck c payload) g).1 in
  mem_ok (g_storage g') ∧
  match ack_id payload with
  | None => g' = g
  | Some id =>
    g_metrics g' Delivered = g_metrics g Delivered + 1 ∧
    match c_inflight cl !! id with
    | None => g_storage g' = g_storage g ∧ g_clients g' = g_clients g
    | Some key =>
      stored_queues g' ≡ q_del key id (stored_queues g) ∧
      g_clients g' = <[c := set_inflight cl (delete id (c_inflight cl))]> (g_clients g)
    end
  end.
Proof.
  intros Hok Hc. unfold handleAck. destruct (ack_id payload) as [id|]; [|by split].
  unfold deleteMsgById. run_simpl. unfold with_client, takeInflight. rewrite Hc.
  destruct (c_inflight cl !! id) as [key|] eqn:Hid; run_simpl.
  - unfold with_storage. cbn.
    destruct (DeleteMessage_queued (g_storage g) key id Hok) as [Hok' Hq].
    destruct (Memory.DeleteMessage key id (g_storage g)) as [s' err]. by split_and!.
  - split; [done|]. split; [done|]. split; [done|]. by apply insert_id.
Qed.

(** C6: An acknowledgement deletes exactly the message the connection has in
    flight under that identifier, from the key it was delivered under and
    from no other; one that names nothing in flight deletes nothing; both are
    counted as delivered, and a payload without a well-formed identifier
    changes nothing. *)
Theorem handleAck_outcome c cl payload g :
  mem_ok (g_storage g) → g_clients g !! c = Some cl →
  let g' := (run cfg (handleAck c payload) g).1 in
  match ack_id payload with
  | None => g' = g
  | Some id =>
    g_metrics g' Delivered = g_metrics g Delivered + 1 ∧
    match c_inflight cl !! id with
    | None => g_storage g' = g_storage g ∧ g_clients g' = g_clients g
    | Some key =>
      stored_queues g' ≡ q_del key id (stored_queues g) ∧
      g_clients g' = <[c := set_inflight cl (delete id (c_inflight cl))]> (g_clients g)
    end
  end.
Proof. intros Hok Hc. apply (handleAck_run c cl payload g Hok Hc). Qed.

(** ** Sweeping *)

Lemma clock_mono :
  (∀ n, env_clock n ≤ env_clock (S n)) → ∀ n n', (n ≤ n')%nat → env_clock n ≤ env_clock n'.
Proof. intros Hc n n'. induction 1 as [|n' _ IH]; [done|]. specialize (Hc n'). lia. Qed.

Lemma exec_tick {X : Set} (o : op X) g : g_tick (exec_op cfg o g).1 = g_tick g.
Proof.
  destruct o; simpl; unfold with_client, with_storage;
    repeat (case_match; simpl); by simplify_eq/=.
Qed.

Lemma run_tick {A} (p : prog op A) g : (g_tick g ≤ g_tick (run cfg p g).1)%nat.
Proof.
  revert g. induction p as [a|X o k IH]; intros g; [done|]. cbn [run].
  pose proof (exec_tick o g) as Ht. unfold exec. destruct (exec_op cfg o g) as [g1 x].
  etrans; [|apply IH]. simpl in *. lia.
Qed.

(** The loop over the queue removes the expired messages it meets. *)
Lemma sweep_queue_run key q n g :
  (∀ n, env_clock n ≤ env_clock (S n)) →
  mem_ok (g_storage g) →
  let g' := (run cfg (sweep_queue key q n) g).1 in
  mem_ok (g_storage g') ∧
  ∀ k id, stored_queues g' k id = stored_queues g k id ∨
    (k = key ∧ stored_queues g' k id = None ∧
     ∃ m, m ∈ q ∧ m_id m = id ∧ isExpired m (env_clock (g_tick g')) = true).
Proof.
  intros Hclk. revert n g. induction q as [|m q IH]; intros n g Hok; [by split; auto|].
  cbn [sweep_queue]. rewrite run_bind, run_act, exec_pair. cbn [fst snd exec_op].
  destruct (isExpired m (env_clock (g_tick g))) eqn:Hexp.
  - unfold deleteMsgById. rewrite run_bind, run_act, exec_pair. cbn [exec_op].
    destruct (DeleteMessage_queued (g_storage g) key (m_id m) Hok) as [Hok1 Hq1].
    unfold with_storage. cbn [g_storage next_tick fst snd].
    destruct (DeleteMessage key (m_id m) (g_storage g)) as [s1 err] eqn:Hd.
    simpl in Hd. rewrite Hd in Hok1, Hq1. cbn [fst snd] in *.
    set (g2 := next_tick (set_storage (next_tick g) s1)).
    destruct (IH (n + 1) g2 Hok1) as [Hok' Hq']. split; [exact Hok'|]. intros k id.
    pose proof (run_tick (sweep_queue key q (n + 1)) g2) as Ht.
    assert (g_tick g ≤ g_tick g2)%nat as Ht2 by (simpl; lia).
    specialize (Hq1 k id). unfold q_del in Hq1.
    destruct (decide (k = key ∧ id = m_id m)) as [[-> ->]|Hne].
    + right. split; [done|].
      assert (isExpired m (env_clock (g_tick (run cfg (sweep_queue key q (n + 1)) g2).1))
              = true) as Hexp'.
      { eapply isExpired_mono; [|exact Hexp]. apply clock_mono; [done|lia]. }
      split; [|exists m; split; [by left|by split]].
      destruct (Hq' key (m_id m)) as [Heq|(_ & Hnone & _)]; [|exact Hnone].
      rewrite Heq. exact Hq1.
    + destruct (Hq' k id) as [Heq|(-> & Hnone & m' & Hm' & Hid' & He')].
      * left. rewrite Heq. exact Hq1.
      * right. split; [done|]. split; [exact Hnone|]. exists m'. split; [by right|by split].
  - destruct (IH n (next_tick g) Hok) as [Hok' Hq']. split; [exact Hok'|]. intros k id.
    destruct (Hq' k id) as [Heq|(-> & Hnone & m' & Hm' & Hid' & He')]; [by left|].
    right. split; [done|]. split; [exact Hnone|]. exists m'. split; [by right|by split].
Qed.

(** A message that had expired when the loop began is gone when it ends. *)
Lemma sweep_queue_removes key q n g m :
  (∀ n, env_clock n ≤ env_clock (S n)) →
  mem_ok (g_storage g) → m ∈ q → isExpired m (env_clock (g_tick g)) = true →
  stored_queues (run cfg (sweep_queue key q n) g).1 key (m_id m) = None.
Proof.
  intros Hclk. revert n g. induction q as [|x q IH]; intros n g Hok Hm Hexp;
    [by apply not_elem_of_nil in Hm|].
  cbn [sweep_queue]. rewrite run_bind, run_act, exec_pair. cbn [fst snd exec_op].
  assert (∀ g2, (g_tick g ≤ g_tick g2)%nat → isExpired m (env_clock (g_tick g2)) = true)
    as Hlater by (intros g2 Ht; eapply isExpired_mono; [by apply clock_mono|exact Hexp]).
  apply elem_of_cons in Hm as [<-|Hm].
  - rewrite Hexp. unfold deleteMsgById. rewrite run_bind, run_act, exec_pair. cbn [exec_op].
    destruct (DeleteMessage_queued (g_storage g) key (m_id m) Hok) as [Hok1 Hq1].
    unfold with_storage. cbn [g_storage next_tick fst snd].
    destruct (DeleteMessage key (m_id m) (g_storage g)) as [s1 err] eqn:Hd.
    simpl in Hd. rewrite Hd in Hok1, Hq1. cbn [fst snd] in *.
    destruct (sweep_queue_run key q (n + 1) (next_tick (set_storage (next_tick g) s1)) Hclk Hok1)
      as [_ Hq']. destruct (Hq' key (m_id m)) as [Heq|(_ & Hnone & _)]; [|exact Hnone].
    rewrite Heq. specialize (Hq1 key (m_id m)). unfold q_del in Hq1.
    rewrite decide_True in Hq1 by done. exact Hq1.
  - destruct (isExpired x (env_clock (g_tick g))).
    + unfold deleteMsgById. rewrite run_bind, run_act, exec_pair. cbn [exec_op].
      destruct (DeleteMessage_queued (g_storage g) key (m_id x) Hok) as [Hok1 _].
      unfold with_storage. cbn [g_storage next_tick fst snd].
      destruct (DeleteMessage key (m_id x) (g_storage g)) as [s1 err] eqn:Hd.
      simpl in Hd. rewrite Hd in Hok1. cbn [fst snd] in *.
      apply IH; [exact Hok1|exact Hm|]. apply Hlater. simpl. lia.
    + apply IH; [exact Hok|exact Hm|]. apply Hlater. simpl. lia.
Qed.


(** C30: Sweeping a key removes every message of its queue that had expired
    when the sweep began, removes no message that has not expired when it
    ends, and touches no other queue. *)
Theorem sweepKey_outcome key g k id m :
  (∀ n, env_clock n ≤ env_clock (S n)) →
  mem_ok (g_storage g) → stored_queues g k id = Some m →
  let g' := (run cfg (sweepKey key) g).1 in
  (k = key → isExpired m (env_clock (g_tick g)) = true → stored_queues g' k id = None) ∧
  (stored_queues g' k id = Some m ∨
   k = key ∧ stored_queues g' k id = None ∧ isExpired m (env_clock (g_tick g')) = true).
Proof.
  intros Hclk Hok Hm. unfold sweepKey, getMsgQueue. run_simpl.
  unfold with_storage. cbn [GetQueue MemoryStorage_Storage Memory.GetQueue fst snd].
  rewrite run_bind.
  set (q := default [] (storage (g_storage g) !! key)).
  set (g0 := next_tick (set_storage g (g_storage g))).
  set (p1 := sweep_queue key q 0). set (g1 := (run cfg p1 g0).1).
  assert (∀ n, let g2 := (run cfg (if n =? 0 then Ret tt else act (OInc Expired n)) g1).1 in
    g_storage g2 = g_storage g1 ∧ (g_tick g1 ≤ g_tick g2)%nat) as Hinc.
  { intros n. destruct (n =? 0); [done|]. run_simpl. split; [done|]. cbn. lia. }
  destruct (Hinc (run cfg p1 g0).2) as [Hst Ht]. unfold stored_queues. rewrite Hst.
  fold (stored_queues g1).
  destruct (sweep_queue_run key q 0 g0 Hclk Hok) as [_ Hq]. fold p1 g1 in Hq.
  destruct (mem_lists_queue (g_storage g) key Hok) as [_ Hlist]. fold q in Hlist.
  assert (m_id m = id) as Hid by (by apply find_id_ok in Hm as (? & _ & _ & ?)). split.
  - intros -> Hexp. rewrite <-Hid. apply sweep_queue_removes; [done|exact Hok| |].
    + apply Hlist. by rewrite Hid.
    + eapply isExpired_mono; [|exact Hexp]. apply clock_mono; [done|]. cbn. lia.
  - destruct (Hq k id) as [Heq|(-> & Hnone & m' & Hm' & Hid' & Hexp)].
    + left. by rewrite Heq.
    + right. split; [done|]. split; [exact Hnone|].
      apply Hlist in Hm'. rewrite Hid' in Hm'.
      assert (m' = m) as -> by (unfold stored_queues in Hm; congruence).
      eapply isExpired_mono; [|exact Hexp]. by apply clock_mono.
Qed.

(** ** Requests to the backend API *)

(** The backend API is open to a request exactly when authentication is
    switched off, or both credentials are configured and the request carries
    both of them. *)
Theorem backend_verdict_spec r :
  backend_verdict cfg r = None ↔
  InsecureNoAuth cfg = true ∨
  (Login cfg ≠ EMPTY_STR ∧ Password cfg ≠ EMPTY_STR ∧
   r_BasicAuth r = Some (Login cfg, Password cfg)).
Proof.
  unfold backend_verdict. destruct (InsecureNoAuth cfg); [by split; auto|].
  destruct (decide (Login cfg = EMPTY_STR)) as [Hl|Hl];
    [rewrite (bool_decide_eq_true_2 _ Hl)|rewrite (bool_decide_eq_false_2 _ Hl)];
    cbn [orb]; [split; [done|]; intros [?|(? & _)]; done|].
  destruct (decide (Password cfg = EMPTY_STR)) as [Hp|Hp];
    [rewrite (bool_decide_eq_true_2 _ Hp)|rewrite (bool_decide_eq_false_2 _ Hp)];
    [split; [done|]; intros [?|(_ & ? & _)]; done|].
  destruct (r_BasicAuth r) as [[u p]|]; [|split; [done|]; by intros [?|(_ & _ & ?)]].
  do 2 case_bool_decide; subst; cbn [negb orb]; split; try done; try (by right);
    intros [Hx|(_ & _ & Hx)]; congruence.
Qed.

(** What a rejected request must leave untouched. *)
Definition same_service g g' : Prop :=
  g_storage g' = g_storage g ∧ g_Conns g' = g_Conns g ∧ g_clients g' = g_clients g ∧
  g_history g' = g_history g ∧ g_work g' = g_work g ∧ g_spawned g' = g_spawned g.

Lemma allow_same_service SplitHostPort r g :
  same_service g (run cfg (allow cfg SplitHostPort r) g).1.
Proof.
  unfold allow. destruct (negb (limiter_on cfg)); [done|]. run_simpl.
  cbn. destruct (g_limiter g); [|done]. by destruct (Allow _ _ _).
Qed.


(** C25: A POST is answered 202 exactly when its body parses to a message,
    whose delivery to its targets is then handed to the worker queue, or to a
    goroutine of its own when the queue is full; a body that does not parse is
    answered 400, and the body [null] makes the handler panic; in no case do
    the queues or the connections change before the delivery runs. *)
Theorem handlePost_outcome r g :
  let res := run cfg (handlePost cfg r) g in
  let task m := TDeliver m (m_targets m) in
  match unmarshal (ReadAll_MaxBytes (r_Body r) (MaxMessageBytes cfg)) (DefaultExpire cfg)
          (env_clock (g_tick g)) (env_uuid (S (g_tick g))) with
  | Panicked => res.2 = Aborted ∧ same_service g res.1
  | Returned (Err _) => res.2 = status_only StatusBadRequest ∧ same_service g res.1
  | Returned (Ok m) =>
    res.2 = status_only StatusAccepted ∧
    g_metrics res.1 Received = g_metrics g Received + 1 ∧
    g_storage res.1 = g_storage g ∧ g_clients res.1 = g_clients g ∧
    ((Z.of_nat (length (g_work g)) < queueCap cfg ∧
      g_work res.1 = g_work g ++ [task m] ∧ g_spawned res.1 = g_spawned g) ∨
     (queueCap cfg ≤ Z.of_nat (length (g_work g)) ∧
      g_work res.1 = g_work g ∧ g_spawned res.1 = g_spawned g ++ [GTask (task m)]))
  end.
Proof.
  cbv zeta. unfold handlePost. run_simpl. cbn [g_tick next_tick].
  destruct (unmarshal _ _ _ _) as [[m|e]|]; [|by run_simpl..].
  unfold schedule. run_simpl. cbn [g_work set_metrics next_tick].
  destruct (Z.of_nat (length (g_work g)) <? queueCap cfg) eqn:Hcap; cbn.
  - apply Z.ltb_lt in Hcap. split_and!; auto.
  - apply Z.ltb_ge in Hcap. split_and!; auto.
Qed.

(** ** Deleting *)

Lemma deleteMsgQueue_run key g :
  mem_ok (g_storage g) →
  let g' := (run cfg (deleteMsgQueue key) g).1 in
  mem_ok (g_storage g') ∧ stored_queues g' ≡ q_clear key (stored_queues g).
Proof.
  intros Hok. unfold deleteMsgQueue. run_simpl. cbn.
  split; [by apply mem_delete_ok|apply mem_queued_delete].
Qed.

(** The table without the queues of [keys]. *)
Definition cleared (keys : list string) (q : queues) : queues :=
  λ k id, if decide (k ∈ keys) then None else q k id.

Lemma delete_all_run keys g :
  mem_ok (g_storage g) →
  let g' := (run cfg (for_each keys deleteMsgQueue) g).1 in
  mem_ok (g_storage g') ∧ stored_queues g' ≡ cleared keys (stored_queues g).
Proof.
  intros Hok. apply (run_for_each cfg (λ keys g', mem_ok (g_storage g') ∧
    stored_queues g' ≡ cleared keys (stored_queues g))).
  - intros ks key g0 _ [Hok0 Hq0]. destruct (deleteMsgQueue_run key g0 Hok0) as [Hok1 Hq1].
    split; [exact Hok1|]. intros k id. rewrite (Hq1 k id). unfold q_clear. rewrite (Hq0 k id).
    unfold cleared.
    destruct (decide (k = key)) as [->|Hne].
    + rewrite decide_True; [done|]. set_solver.
    + destruct (decide (k ∈ ks)); [rewrite decide_True; [done|]; set_solver|].
      rewrite decide_False; [done|]. set_solver.
  - split; [done|]. intros k id. unfold cleared. rewrite decide_False; [done|].
    apply not_elem_of_nil.
Qed.

End memory.

(** ** The theorems on the scenario *)

Import Demo.

Lemma delivered_ok : mem_ok (g_storage (s_g Demo.delivered)).
Proof.
  apply (ex_storage _ _ _ _ (ac_explained _ _ _ _
    (reachable_accounted cfg SplitHostPort engines engines_ok _ delivered_reachable))).
Qed.

Lemma deliver_stores_every_target_witness :
  let m := Sample.message in
  let g' := (run cfg (run_task cfg (TDeliver m (m_targets m))) start).1 in
  mem_ok (g_storage g') ∧ stored_queues g' ≡ published m (m_targets m) (stored_queues start).
Proof. apply deliver_stores_every_target. apply Init_ok. Defined.

Lemma handleAck_outcome_witness :
  ∃ cl, g_clients (s_g Demo.delivered) !! 0%nat = Some cl ∧
  c_inflight cl !! mid = Some "a.b" ∧ ack_id ack_body = Some mid ∧
  let g := s_g Demo.delivered in
  let g' := (run cfg (handleAck 0%nat ack_body) g).1 in
  match ack_id ack_body with
  | None => g' = g
  | Some id =>
    g_metrics g' Delivered = g_metrics g Delivered + 1 ∧
    match c_inflight cl !! id with
    | None => g_storage g' = g_storage g ∧ g_clients g' = g_clients g
    | Some key =>
      stored_queues g' ≡ q_del key id (stored_queues g) ∧
      g_clients g' = <[0%nat := set_inflight cl (delete id (c_inflight cl))]> (g_clients g)
    end
  end.
Proof.
  eexists. split; [vm_compute; reflexivity|]. split; [vm_compute; reflexivity|].
  split; [vm_compute; reflexivity|]. apply (handleAck_outcome cfg 0%nat _ ack_body).
  - apply delivered_ok.
  - vm_compute. reflexivity.
Defined.

Lemma sweepKey_outcome_witness :
  ∃ m, stored_queues (s_g Demo.delivered) "a.b" mid = Some m ∧
  let g := s_g Demo.delivered in
  let g' := (run cfg (sweepKey "a.b") g).1 in
  ("a.b" = "a.b" → isExpired m (env_clock (g_tick g)) = true →
   stored_queues g' "a.b" mid = None) ∧
  (stored_queues g' "a.b" mid = Some m ∨
   "a.b" = "a.b" ∧ stored_queues g' "a.b" mid = None ∧
   isExpired m (env_clock (g_tick g')) = true).
Proof.
  eexists. split; [vm_compute; reflexivity|].
  apply (sweepKey_outcome cfg "a.b" (s_g Demo.delivered)).
  - apply demo_clock_mono.
  - apply delivered_ok.
  - vm_compute. reflexivity.
Defined.



Lemma payload_limit_witness :
  (∀ p, accept_payload cfg true ack_body (Some (post_body, false)) = Some p →
     str_len p ≤ MaxMessageBytes cfg) ∧
  accept_payload cfg true ack_body None =
    if str_len ack_body <=? MaxMessageBytes cfg then Some ack_body else None.
Proof. apply payload_limit. split; [discriminate|reflexivity]. Defined.

Lemma payload_limit_overflow_witness :
  accept_payload (cfg_with true max_int64) false ack_body None = Some EmptyString.
Proof. apply payload_limit_overflow. reflexivity. Defined.
