(* ===== verification/Fanout.v ===== *)
(** * What a flush of a key delivers

    [sendMessages] alone, on a network that works: every open connection the key
    fans out to receives, in queue order, each message that has not expired and
    that it does not already have in flight; over any storage first, then over
    the in-memory one. *)
From stdpp Require Import base numbers list gmap strings.
From S2P Require Import Prelude GoStd GoTime Topics Json Const Message Storage MemoryStorage.
From S2P Require Import History Config Client Http RateLimit Authorizer Prog Engine Server.
From S2P Require Import System Registry Operations Simulate.

#[local] Open Scope Z_scope.
#[local] Open Scope prog_scope.

Section fanout.
Context {T : Type} `{!Storage T, UuidLib, TimeText, JsonText, Env}.
Context (cfg : Config).
Implicit Types (g : Goctopus T).

(** The frame of a message. *)
Definition short (m : Message) : json :=
  JObj [("id", JStr (uuid_String (m_id m))); ("payload", marshal_any (m_Value m))].

(** What a connection becomes when it is offered [m] under [key]. *)
Definition offer (key : string) (m : Message) (cl : client) : client :=
  if c_closed cl then cl else
  match c_inflight cl !! m_id m with
  | Some _ => cl
  | None => MkClient (c_keys cl) (c_writeTimeout cl) (c_compress cl)
              (<[m_id m := key]> (c_inflight cl)) false (c_out cl ++ [FText (short m)])
  end.

(** The frames of a list of messages offered in order. *)
Definition offer_all (key : string) (ms : list Message) (cl : client) : client :=
  fold_left (λ cl m, offer key m cl) ms cl.

(** Everything but the connections, the clock and the latencies observed. *)
Definition same_queues g g' : Prop :=
  g_storage g' = g_storage g ∧ g_Conns g' = g_Conns g ∧ g_patterns g' = g_patterns g ∧
  g_sendLocks g' = g_sendLocks g ∧ g_metrics g' = g_metrics g ∧ (g_tick g ≤ g_tick g')%nat.

Lemma same_queues_trans g1 g2 g3 : same_queues g1 g2 → same_queues g2 g3 → same_queues g1 g3.
Proof. unfold same_queues. intuition (try congruence; try lia). Qed.

Hypothesis net_ok : ∀ n, env_net n = true.

Lemma send_one_run key m c g :
  let g' := (run cfg (send_one key m (short m) c) g).1 in
  same_queues g g' ∧ g_clients g' = alter (offer key m) c (g_clients g).
Proof.
  unfold send_one. run_simpl. unfold with_client.
  destruct (g_clients g !! c) as [cl|] eqn:Hc.
  - unfold markInflight, offer.
    destruct (c_closed cl) eqn:Hcl; [|destruct (c_inflight cl !! m_id m) as [k|] eqn:Hid].
    + cbn. split; [split_and!; done || (cbn; lia)|]. rewrite insert_id by done.
      apply map_eq. intros c'. destruct (decide (c' = c)) as [->|].
      * rewrite lookup_alter_eq, Hc. simpl. by rewrite Hcl.
      * by rewrite lookup_alter_ne.
    + cbn. split; [split_and!; done || (cbn; lia)|]. rewrite insert_id by done.
      apply map_eq. intros c'. destruct (decide (c' = c)) as [->|].
      * rewrite lookup_alter_eq, Hc. simpl. by rewrite Hcl, Hid.
      * by rewrite lookup_alter_ne.
    + cbn [negb fst snd]. run_simpl. unfold with_client.
      cbn [next_tick set_clients g_clients g_tick g_next]. rewrite lookup_insert_eq.
      unfold writeMessage, write_frame. cbn [c_closed set_inflight]. rewrite net_ok, Hcl.
      cbn. split; [split_and!; done || (cbn; lia)|]. rewrite insert_insert_eq.
      apply map_eq. intros c'. destruct (decide (c' = c)) as [->|].
      * rewrite lookup_alter_eq, lookup_insert_eq, Hc. simpl. by rewrite Hcl, Hid.
      * by rewrite lookup_alter_ne, lookup_insert_ne.
  - cbn. split; [split_and!; done || (cbn; lia)|].
    apply map_eq. intros c'. destruct (decide (c' = c)) as [->|].
    + by rewrite lookup_alter_eq, Hc.
    + by rewrite lookup_alter_ne.
Qed.

(** The table after [m] was offered to the connections [cs]. *)
Definition offered (key : string) (m : Message) (cs : list cid) (t : gmap cid client)
  : gmap cid client := fold_left (λ t c, alter (offer key m) c t) cs t.

Lemma send_all_run key m cs g :
  let g' := (run cfg (for_each cs (send_one key m (short m))) g).1 in
  same_queues g g' ∧ g_clients g' = offered key m cs (g_clients g).
Proof.
  apply (run_for_each cfg (λ done g', same_queues g g' ∧
    g_clients g' = offered key m done (g_clients g))).
  - intros cs' c g0 _ [Hs Hc]. destruct (send_one_run key m c g0) as [Hs' Hc'].
    split; [by eapply same_queues_trans|]. rewrite Hc', Hc. unfold offered.
    by rewrite fold_left_app.
  - split; [split_and!; done|done].
Qed.

Lemma offered_lookup key m cs t c :
  NoDup cs → offered key m cs t !! c = if decide (c ∈ cs) then offer key m <$> t !! c else t !! c.
Proof.
  unfold offered. revert t. induction cs as [|x cs IH]; intros t Hnd; simpl; [done|].
  apply NoDup_cons in Hnd as [Hx Hnd]. rewrite IH by done.
  destruct (decide (c = x)) as [->|Hne].
  - rewrite decide_False, lookup_alter_eq by done. by rewrite decide_True by (by left).
  - rewrite lookup_alter_ne by done. destruct (decide (c ∈ cs)).
    + by rewrite decide_True by (by right).
    + rewrite decide_False; [done|]. by intros [?|?]%elem_of_cons.
Qed.

(** ** The queue *)

Lemma send_message_run key m cs g :
  NoDup cs →
  let g' := (run cfg (send_message key cs m) g).1 in
  same_queues g g' ∧
  ∀ c, g_clients g' !! c =
    if decide (c ∈ cs ∧ isExpired m (env_clock (g_tick g)) = false)
    then offer key m <$> g_clients g !! c else g_clients g !! c.
Proof.
  intros Hnd. unfold send_message. run_simpl.
  destruct (isExpired m (env_clock (g_tick g))) eqn:Hexp.
  - run_simpl. split; [split_and!; done || (cbn; lia)|]. intros c.
    rewrite decide_False; [reflexivity|]. by intros [_ ?].
  - rewrite marshal_short. destruct (send_all_run key m cs (next_tick g)) as [Hs Hc].
    fold (short m). split.
    + eapply same_queues_trans; [|exact Hs]. split_and!; done || (cbn; lia).
    + intros c. rewrite Hc, offered_lookup by done. cbn [next_tick g_clients].
      destruct (decide (c ∈ cs)) as [Hin|Hin].
      * by rewrite decide_True.
      * rewrite decide_False; [done|]. by intros [? _].
Qed.

Hypothesis clock_ok : ∀ n, env_clock n ≤ env_clock (S n).

(** [live] is what a pass over [q] offers, between two ticks. *)
Definition live_part (q live : list Message) (t t' : nat) : Prop :=
  live `sublist_of` q ∧
  (∀ m, m ∈ live → isExpired m (env_clock t) = false) ∧
  (∀ m, m ∈ q → isExpired m (env_clock t') = false → m ∈ live).

Lemma live_earlier m t t' :
  (t ≤ t')%nat → isExpired m (env_clock t') = false → isExpired m (env_clock t) = false.
Proof.
  intros Ht Hl. apply not_true_is_false. intros Htrue.
  rewrite (isExpired_mono m _ _ (clock_mono clock_ok _ _ Ht) Htrue) in Hl. discriminate.
Qed.

Lemma live_part_weaken q live t0 t1 t2 t3 :
  (t0 ≤ t1)%nat → (t2 ≤ t3)%nat → live_part q live t1 t2 → live_part q live t0 t3.
Proof.
  intros H01 H23 (Hsub & Hin & Hout). split_and!; [done| |].
  - intros m Hm. by eapply live_earlier, Hin.
  - intros m Hm Hl. apply Hout; [done|]. by eapply live_earlier.
Qed.

(** One more message, expired at the tick it is looked at or not. *)
Lemma live_part_snoc q live m t t1 t2 :
  (t ≤ t1 ≤ t2)%nat → live_part q live t t1 →
  live_part (q ++ [m]) (if isExpired m (env_clock t1) then live else live ++ [m]) t t2.
Proof.
  intros [Ht Ht2] (Hsub & Hin & Hout).
  destruct (isExpired m (env_clock t1)) eqn:Hexp; split_and!.
  - by apply sublist_inserts_r.
  - exact Hin.
  - intros m' [Hm'| ->%list_elem_of_singleton]%elem_of_app Hl%(live_earlier _ _ _ Ht2);
      [by apply Hout|congruence].
  - by apply sublist_app.
  - intros m' [Hm'| ->%list_elem_of_singleton]%elem_of_app; [by apply Hin|].
    by eapply live_earlier.
  - intros m' [Hm'| ->%list_elem_of_singleton]%elem_of_app Hl%(live_earlier _ _ _ Ht2);
      apply elem_of_app; [left; by apply Hout|right; by left].
Qed.

Lemma send_queue_run key cs q g :
  NoDup cs →
  let g' := (run cfg (for_each q (send_message key cs)) g).1 in
  same_queues g g' ∧
  ∃ live, live_part q live (g_tick g) (g_tick g') ∧
    ∀ c, g_clients g' !! c =
      if decide (c ∈ cs) then offer_all key live <$> g_clients g !! c else g_clients g !! c.
Proof.
  intros Hnd. apply (run_for_each cfg (λ q g', same_queues g g' ∧
    ∃ live, live_part q live (g_tick g) (g_tick g') ∧
    ∀ c, g_clients g' !! c = if decide (c ∈ cs)
      then offer_all key live <$> g_clients g !! c else g_clients g !! c)).
  - intros q' m g0 _ (Hs0 & live & Hlive & Hc0).
    destruct (send_message_run key m cs g0 Hnd) as [Hs1 Hc1].
    split; [by eapply same_queues_trans|].
    exists (if isExpired m (env_clock (g_tick g0)) then live else live ++ [m]).
    split; [apply live_part_snoc; [split; [apply Hs0|apply Hs1]|done]|].
    intros c. rewrite Hc1, Hc0. destruct (isExpired m (env_clock (g_tick g0))).
    + rewrite decide_False; [done|]. by intros [_ ?].
    + destruct (decide (c ∈ cs)) as [Hcs|Hcs].
      * rewrite decide_True by done. unfold offer_all. destruct (g_clients g !! c); [|done].
        simpl. by rewrite fold_left_app.
      * rewrite decide_False; [done|]. by intros [? _].
  - split; [split_and!; done|]. exists []. split; [split_and!|].
    + done.
    + intros m Hm. by apply not_elem_of_nil in Hm.
    + intros m Hm. by apply not_elem_of_nil in Hm.
    + intros c. destruct (decide (c ∈ cs)); [|done]. by destruct (g_clients g !! c).
Qed.

Lemma live_part_exists q t t' : (t ≤ t')%nat → ∃ live, live_part q live t t'.
Proof.
  intros Ht. exists (filter (λ m, isExpired m (env_clock t') = false) q).
  split_and!; [apply sublist_filter| |].
  - intros m [Hm _]%list_elem_of_filter. by eapply live_earlier.
  - intros m Hm Hl. by apply list_elem_of_filter.
Qed.
(** ** A flush *)

(** The registry, the locks and the counters are as they were. *)
Definition same_registry g g' : Prop :=
  g_Conns g' = g_Conns g ∧ g_patterns g' = g_patterns g ∧ g_sendLocks g' = g_sendLocks g ∧
  g_metrics g' = g_metrics g ∧ (g_tick g ≤ g_tick g')%nat.

(** A flush whose read of the queue gives [q] and leaves the storage at [st]; a
    key without connections is not read. *)
Lemma flush_read key g st q :
  sendLock key ∉ g_sendLocks g →
  GetQueue (range_order (S (S (g_tick g)))) key (g_storage g) = (st, Ok q) →
  let g' := (run cfg (sendMessages key) g).1 in
  let cs := clientsForKey (g_Conns g) (range_order (S (g_tick g)) (g_patterns g)) key in
  same_registry g g' ∧ g_storage g' = (if decide (cs = []) then g_storage g else st) ∧
  ∃ live, live_part q live (g_tick g) (g_tick g') ∧
    ∀ c, g_clients g' !! c =
      if decide (c ∈ cs) then offer_all key live <$> g_clients g !! c else g_clients g !! c.
Proof.
  intros Hfree Hq. cbv zeta.
  set (g1 := next_tick (set_locks g ({[sendLock key]} ∪ g_sendLocks g))).
  assert (({[sendLock key]} ∪ g_sendLocks g) ∖ {[sendLock key]} = g_sendLocks g) as Hl
    by set_solver.
  unfold sendMessages, sendMessages_locked, getMsgQueue. run_simpl. fold g1.
  change (g_tick g1) with (S (g_tick g)).
  change (g_Conns g1) with (g_Conns g). change (g_patterns g1) with (g_patterns g).
  set (cs := clientsForKey (g_Conns g) (range_order (S (g_tick g)) (g_patterns g)) key).
  unfold same_registry. destruct (decide (cs = [])) as [Hcs|Hcs].
  - run_simpl.
    cbn [fst g_storage g_Conns g_patterns g_sendLocks g_metrics g_clients g_tick next_tick set_locks].
    split; [split_and!; done || (cbn; lia)|]. split; [done|].
    destruct (live_part_exists q (g_tick g) (S (g_tick (next_tick g1))) ltac:(cbn; lia))
      as [live Hlive].
    exists live. split; [exact Hlive|]. intros c. rewrite decide_False; [done|].
    rewrite Hcs. apply not_elem_of_nil.
  - run_simpl. unfold with_storage.
    change (g_storage (next_tick g1)) with (g_storage g).
    change (g_tick (next_tick g1)) with (S (S (g_tick g))). rewrite Hq. cbn [fst snd].
    set (g2 := next_tick (set_storage (next_tick g1) st)).
    destruct (send_queue_run key cs q g2 (NoDup_clientsForKey _ _ _))
      as ((Hs & Hc & Hp & Hlk & Hm & Ht) & live & Hlive & Hcl).
    set (g3 := (run cfg (for_each q (send_message key cs)) g2).1) in *.
    cbn [fst g_storage g_Conns g_patterns g_sendLocks g_metrics g_clients g_tick next_tick set_locks].
    split; [split_and!; [exact Hc|exact Hp|rewrite Hlk; exact Hl|exact Hm|cbn in *; lia]|].
    split; [exact Hs|]. exists live. split; [|exact Hcl].
    eapply live_part_weaken; [| |exact Hlive]; cbn; lia.
Qed.
End fanout.

Section flush.
Context `{UuidLib, TimeText, JsonText, Env}.
Context (cfg : Config).
Implicit Types (g : Goctopus MemoryStorage).

(** A flush, with the counters. *)
Lemma flush_run key g :
  (∀ n, env_net n = true) → (∀ n, env_clock n ≤ env_clock (S n)) →
  sendLock key ∉ g_sendLocks g →
  let g' := (run cfg (sendMessages key) g).1 in
  let cs := clientsForKey (g_Conns g) (range_order (S (g_tick g)) (g_patterns g)) key in
  let q := default [] (storage (g_storage g) !! key) in
  same_queues g g' ∧
  ∃ live, live_part q live (g_tick g) (g_tick g') ∧
    ∀ c, g_clients g' !! c =
      if decide (c ∈ cs) then offer_all key live <$> g_clients g !! c else g_clients g !! c.
Proof.
  intros Hnet Hclk Hfree.
  assert (GetQueue (range_order (S (S (g_tick g)))) key (g_storage g) =
    (g_storage g, Ok (default [] (storage (g_storage g) !! key)))) as Hq by reflexivity.
  destruct (flush_read cfg Hnet Hclk key g _ _ Hfree Hq) as ((Hc & Hp & Hl & Hm & Ht) & Hs & Hlive).
  split; [|exact Hlive]. split_and!; [|done..]. rewrite Hs. by case_decide.
Qed.

(** C4: When the network works and the clock does not run backwards, a flush
    of a key offers, in queue order, every message that has not expired to
    every connection the key fans out to: an open connection receives those
    it does not have in flight already, as frames after the ones it received
    before, and has them in flight afterwards.  Messages that expire during
    the flush may or may not be offered; those expired before it are not.
    Queues, registry and locks are as before. *)
Theorem flush_delivers_in_order key g :
  (∀ n, env_net n = true) → (∀ n, env_clock n ≤ env_clock (S n)) →
  sendLock key ∉ g_sendLocks g →
  let g' := (run cfg (sendMessages key) g).1 in
  let cs := clientsForKey (g_Conns g) (range_order (S (g_tick g)) (g_patterns g)) key in
  let q := default [] (storage (g_storage g) !! key) in
  (g_storage g' = g_storage g ∧ g_Conns g' = g_Conns g ∧ g_patterns g' = g_patterns g ∧
   g_sendLocks g' = g_sendLocks g) ∧
  ∃ live, live_part q live (g_tick g) (g_tick g') ∧
    ∀ c, g_clients g' !! c =
      if decide (c ∈ cs) then offer_all key live <$> g_clients g !! c else g_clients g !! c.
Proof.
  intros Hnet Hclk Hfree. destruct (flush_run key g Hnet Hclk Hfree) as ((Hs & Hc & Hp & Hl & _) & Hlive).
  by split.
Qed.
End flush.

(** ** The theorem on the scenario *)

Import Demo.

Lemma flush_delivers_in_order_witness :
  let g := s_g Demo.delivered in
  let g' := (run cfg (sendMessages "a.b") g).1 in
  let cs := clientsForKey (g_Conns g) (range_order (S (g_tick g)) (g_patterns g)) "a.b" in
  let q := default [] (storage (g_storage g) !! "a.b") in
  (g_storage g' = g_storage g ∧ g_Conns g' = g_Conns g ∧ g_patterns g' = g_patterns g ∧
   g_sendLocks g' = g_sendLocks g) ∧
  ∃ live, live_part q live (g_tick g) (g_tick g') ∧
    ∀ c, g_clients g' !! c =
      if decide (c ∈ cs) then offer_all "a.b" live <$> g_clients g !! c else g_clients g !! c.
Proof.
  apply (flush_delivers_in_order cfg "a.b").
  - reflexivity.
  - apply demo_clock_mono.
  - intros Hin. by vm_compute in Hin.
Defined.
