(* ===== verification/Reading.v ===== *)
(** * What the backend reads

    [handleGet] ([server.go]) when it runs alone, on every branch and over any
    storage: presence, history, the keys, and the messages of a key. *)
From stdpp Require Import base numbers list gmap strings.
From S2P Require Import Prelude GoStd GoTime Topics Json Const Message Storage MemoryStorage.
From S2P Require Import History Config Client Http RateLimit Authorizer Prog Engine Server.
From S2P Require Import System Registry Causes Operations Fanout Simulate.

#[local] Open Scope Z_scope.
#[local] Open Scope prog_scope.

Section reading.
Context {T : Type} `{!Storage T, !StorageSpec T, UuidLib, TimeText, JsonText, Env}.
Context (cfg : Config).
Implicit Types (g : Goctopus T).

(** ** Documents *)

(** The extended form of a message. *)
Definition long (m : Message) : json :=
  JObj [("date", JStr (time_text (m_date m))); ("exp", JStr (m_Expire m));
        ("id", JStr (uuid_String (m_id m))); ("key", JStr (m_Key m));
        ("payload", marshal_any (m_Value m))].

Lemma marshal_long m :
  marshal m true =
  if year_ok (m_date m) then Ok (long m) else Err (Error "json: error calling MarshalJSON").
Proof.
  unfold marshal, marshal_map, toMap. destruct (year_ok (m_date m)) eqn:Hy.
  - rewrite decide_True.
    + unfold long. f_equal.
      assert (∀ a b c d e : json, marshal_members (<["date":=a]> (<["exp":=b]> (<["key":=c]>
        (<["payload":=d]> (<["id":=e]> ∅))))) =
        JObj [("date", a); ("exp", b); ("id", e); ("key", c); ("payload", d)]) as Hs by reflexivity.
      rewrite <-Hs. f_equal. rewrite !omap_insert_Some with (y := JStr (time_text (m_date m))) by (simpl; by rewrite Hy).
      done.
    + repeat apply map_Forall_insert_2; simpl; rewrite ?Hy; eauto. apply map_Forall_empty.
  - rewrite decide_False; [done|]. intros Hall.
    specialize (Hall "date" (VTime (m_date m)) (lookup_insert_eq _ _ _)). simpl in Hall.
    rewrite Hy in Hall. by destruct Hall.
Qed.

(** A list of messages is written when all their dates can be. *)
Lemma marshal_maps_long ms :
  marshal_maps ms =
  if forallb (year_ok ∘ m_date) ms then Ok (long <$> ms)
  else Err (Error "json: error calling MarshalJSON").
Proof.
  induction ms as [|m ms IH]; [done|]. cbn [marshal_maps forallb]. rewrite marshal_long, IH. simpl.
  destruct (year_ok (m_date m)); [|done]. simpl. by destruct (forallb _ ms).
Qed.

(** ** What reading leaves alone *)

Record only_read g g' : Prop := {
  or_storage : st_ok (g_storage g');
  or_queued : queued (g_storage g') ≡ queued (g_storage g);
  or_Conns : g_Conns g' = g_Conns g;
  or_patterns : g_patterns g' = g_patterns g;
  or_clients : g_clients g' = g_clients g;
  or_metrics : g_metrics g' = g_metrics g;
  or_work : g_work g' = g_work g;
  or_spawned : g_spawned g' = g_spawned g;
  or_tick : (g_tick g ≤ g_tick g')%nat;
}.

Lemma only_read_refl g : st_ok (g_storage g) → only_read g g.
Proof. by split. Qed.

Lemma only_read_trans g1 g2 g3 : only_read g1 g2 → only_read g2 g3 → only_read g1 g3.
Proof. intros [] []. split; (congruence || lia || by etrans || done). Qed.

(** ** The messages of a queue *)

Hypothesis clock_ok : ∀ n, env_clock n ≤ env_clock (S n).

Lemma live_part_cons m q live t t' :
  (S t ≤ t')%nat → live_part q live (S t) t' →
  live_part (m :: q) (if isExpired m (env_clock t) then live else m :: live) t t'.
Proof.
  intros Ht (Hsub & Hin & Hout).
  assert (∀ m', m' ∈ live → isExpired m' (env_clock t) = false) as Hin'.
  { intros m' Hm'. apply (live_earlier clock_ok m' t (S t)); [lia|by apply Hin]. }
  destruct (isExpired m (env_clock t)) eqn:Hm; split_and!.
  - by apply sublist_cons.
  - done.
  - intros m' [->|Hm']%elem_of_cons Hl; [|by apply Hout].
    apply (live_earlier clock_ok m t t') in Hl; [congruence|lia].
  - by apply sublist_skip.
  - intros m' [->|Hm']%elem_of_cons; [done|by apply Hin'].
  - intros m' [->|Hm']%elem_of_cons Hl; [by left|right; by apply Hout].
Qed.

Lemma live_messages_run q g :
  st_ok (g_storage g) →
  let res := run cfg (live_messages q) g in
  only_read g res.1 ∧ live_part q res.2 (g_tick g) (g_tick res.1).
Proof.
  revert g. induction q as [|m q IH]; intros g Hok; cbv zeta.
  { split; [by apply only_read_refl|]. split_and!; [done|by intros m ?%not_elem_of_nil..]. }
  cbn [live_messages]. run_simpl. destruct (IH (next_tick g) Hok) as [Hr Hl].
  destruct (run cfg (live_messages q) (next_tick g)) as [g1 live]. cbn [fst snd] in *.
  split; [|apply live_part_cons; [|done]].
  - eapply only_read_trans; [|exact Hr]. split; done || (cbn; lia).
  - apply (or_tick _ _ Hr).
Qed.

(** ** The answers *)

(** The array of the messages, or the status when a date cannot be written. *)
Definition listing (ms : list Message) (status : Z) : response :=
  if forallb (year_ok ∘ m_date) ms then Response StatusOK (JsonBody (JArr (long <$> ms)))
  else status_only status.

(** The members of the presence document: every key with connections, and how
    many it has. *)
Definition presence g : json :=
  marshal_members ((λ cs : list cid, JNum (f64_of_Z (Z.of_nat (length cs)))) <$> g_Conns g).

Lemma with_storage_read {X} (f : T → T * X) g s x :
  f (g_storage g) = (s, x) → st_ok s → queued s ≡ queued (g_storage g) →
  only_read g (next_tick (with_storage g f).1) ∧ (with_storage g f).2 = x ∧
  g_tick (next_tick (with_storage g f).1) = S (g_tick g).
Proof. intros Hf Hok Hq. unfold with_storage. rewrite Hf. split; [|done]. split; done || (cbn; lia). Qed.

End reading.

(** ** The theorem on the scenario *)

Import Demo.

(** A GET of the queue of [a.b], which holds one message. *)
Definition get_queue : Request :=
  MkRequest "GET" "/" [("key", "a.b")] [] None "127.0.0.1:1" "".

