(* ===== verification/Drain.v ===== *)
(** * The gateway comes to rest

    Left alone (no new request, no notification, no stop) a gateway runs for
    finitely many steps only, whatever the scheduler, the clock, the network and
    the storage do, and when no step is left every goroutine has returned, every
    goroutine that was to start has run, and the worker queue is empty, unless
    the gateway was stopped: then the workers have returned, and what came after
    is left in the queue.  A read or ping loop meets finitely many inputs; a task
    starts no other work. *)
From stdpp Require Import base numbers list gmap strings relations.
From S2P Require Import Prelude GoStd GoTime Topics Json Const Message Storage History Config.
From S2P Require Import Client Http RateLimit Authorizer Prog Engine Server System Logic.
From S2P Require Import Programs Registry Invariants Causes Discipline Concurrency Simulate.
From S2P Require Import MemoryStorage Delivery.

#[local] Open Scope Z_scope.
#[local] Open Scope prog_scope.

(** ** Programs that start no work *)

Definition calm {X : Set} (o : op X) : bool :=
  match o with OSchedule _ | OGo _ => false | _ => true end.

Fixpoint startless {A} (p : prog op A) : Prop :=
  match p with
  | Ret _ => True
  | Vis o k => calm o = true ∧ ∀ x, startless (k x)
  end.

Lemma startless_act {X : Set} (o : op X) : calm o = true → startless (act o).
Proof. by split. Qed.

Lemma startless_bind {A B} (p : prog op A) (f : A → prog op B) :
  startless p → (∀ a, startless (f a)) → startless (bind p f).
Proof.
  intros Hp Hf. induction p as [a|X o k IH]; simpl; [done|].
  destruct Hp as [Ho Hk]. split; [done|]. intros x. by apply IH.
Qed.

Lemma startless_for_each {A} (l : list A) (body : A → prog op unit) :
  (∀ x, startless (body x)) → startless (for_each l body).
Proof. intros Hb. induction l as [|x l IH]; simpl; [done|]. by apply startless_bind. Qed.

#[global] Arguments startless : simpl never.

Create HintDb startless.

Ltac start_less :=
  intros;
  repeat lazymatch goal with
  | |- startless (Ret _) => exact I
  | |- startless (act _) => apply startless_act; reflexivity
  | |- startless (for_each _ _) => apply startless_for_each; intros
  | |- startless (bind _ _) => apply startless_bind; [|intros]
  | |- startless (let _ := _ in _) => cbv zeta
  | |- startless (match ?x with _ => _ end) => destruct x
  | |- startless _ => solve [auto 2 with startless]
  end.

Section programs.
Context `{UuidLib, TimeText, JsonText, Env}.
Context (cfg : Config) (SplitHostPort : string → result string).

Lemma send_message_startless key cs m : startless (send_message key cs m).
Proof. unfold send_message, send_one. start_less. Qed.
Hint Resolve send_message_startless : startless.

Lemma sendMessages_startless key : startless (sendMessages key).
Proof. unfold sendMessages, sendMessages_locked, getMsgQueue. start_less. Qed.
Hint Resolve sendMessages_startless : startless.

Lemma run_task_startless t : startless (run_task cfg t).
Proof.
  destruct t; unfold run_task, deliver, backlog, historyAdd, queueMessage, notify,
    storageKeysMatching; start_less.
Qed.

Lemma removeClient_startless c : startless (removeClient c).
Proof. unfold removeClient. start_less. Qed.
Hint Resolve removeClient_startless : startless.

Lemma readLoop_startless c compress ins : startless (readLoop cfg c compress ins).
Proof.
  unfold readLoop. apply startless_bind; [|start_less].
  induction ins as [|[|opc payload d] ins IH]; cbn [read_frames]; unfold handleAck, deleteMsgById;
    start_less.
Qed.

Lemma pingLoop_startless c ws : startless (pingLoop c ws).
Proof. induction ws as [|[] ws IH]; cbn [pingLoop]; start_less. Qed.

Lemma starts_startless {S} (g : Goctopus S) r p : starts cfg g r p → startless p.
Proof.
  destruct 1; [apply run_task_startless|apply readLoop_startless|apply pingLoop_startless].
Qed.
End programs.

(** ** Several programs side by side *)

(** The first action of [p] is performed, and [p'] is left. *)
Definition proceeds (p p' : prog op unit) : Prop :=
  match p with Ret _ => False | Vis o k => ∃ x, p' = k x end.

(** One of the programs performs an action, or returns and goes. *)
Inductive moves : list (prog op unit) → list (prog op unit) → Prop :=
| moves_act l1 p p' l2 : proceeds p p' → moves (l1 ++ p :: l2) (l1 ++ p' :: l2)
| moves_end l1 a l2 : moves (l1 ++ Ret a :: l2) (l1 ++ l2).

Lemma moves_cons_inv p l l' :
  moves (p :: l) l' →
  (∃ a, p = Ret a ∧ l' = l) ∨
  (∃ p', proceeds p p' ∧ l' = p' :: l) ∨
  (∃ l2, moves l l2 ∧ l' = p :: l2).
Proof.
  inversion 1 as [[|q l1] p0 p' l2 Hp Hl Hl'|[|q l1] a l2 Hl Hl']; simpl in *; simplify_eq.
  - right; left. by exists p'.
  - right; right. eexists. split; [by apply moves_act|done].
  - left. by eexists.
  - right; right. eexists. split; [apply moves_end|done].
Qed.

(** Programs are finite trees: side by side they stop. *)
Lemma moves_stop l : Acc (flip moves) l.
Proof.
  induction l as [|p l IHl].
  { constructor. intros l' Hl. inversion Hl as [[] |[]]; discriminate. }
  revert l IHl. induction p as [a|X o k IHk]; intros l Hl;
    induction Hl as [l Hl IH]; constructor; intros l' Hm;
    destruct (moves_cons_inv _ _ _ Hm) as [(a' & Heq & ->)|[(p' & Hp & ->)|(l2 & Hl2 & ->)]].
  - exact (Acc_intro _ Hl).
  - destruct Hp.
  - exact (IH l2 Hl2).
  - discriminate.
  - destruct Hp as [x ->]. apply IHk. exact (Acc_intro _ Hl).
  - exact (IH l2 Hl2).
Qed.

(** ** The gateway left alone *)

Section drain.
Context {S : Type} `{!Storage S, !StorageSpec S, UuidLib, TimeText, JsonText, Env}.
Context (cfg : Config) (SplitHostPort : string → result string).
Context (engines : string → option (Config → result S)).
Implicit Types (g : Goctopus S) (ts : list thread).

(** The steps the gateway takes by itself: an action or the end of a goroutine, a
    worker that takes a task or returns, a goroutine that starts. *)
Inductive own_step : sys (S:=S) → sys (S:=S) → Prop :=
| own_act g ts tr i w (X : Set) (o : op X) k g' x :
    ts !! i = Some (Thread w (Vis o k)) → enabled o g → exec cfg o g = (g', x) →
    own_step (Sys g ts tr) (Sys g' (<[i := Thread w (k x)]> ts) (tr ++ event_of o x))
| own_end g ts1 w ts2 tr :
    own_step (Sys g (ts1 ++ Thread w (Ret tt) :: ts2) tr) (Sys g (ts1 ++ ts2) tr)
| own_worker g ts tr t work :
    g_work g = t :: work → busy_workers ts < g_workers g →
    own_step (Sys g ts tr)
      (Sys (set_work g work (g_spawned g)) (ts ++ [Thread true (run_task cfg t)]) tr)
| own_exit g ts tr :
    g_cancelled g = true → g_work g = [] → busy_workers ts < g_workers g →
    own_step (Sys g ts tr) (Sys (set_workers g (g_workers g - 1)) ts tr)
| own_go g ts tr rs1 r rs2 p :
    g_spawned g = rs1 ++ r :: rs2 → starts cfg g r p →
    own_step (Sys g ts tr)
      (Sys (set_work g (g_work g) (rs1 ++ rs2)) (ts ++ [Thread false p]) tr).

Lemma own_step_step s s' : own_step s s' → step cfg SplitHostPort s s'.
Proof. destruct 1; by econstructor. Qed.

Definition programs (ts : list thread) : list (prog op unit) := t_prog <$> ts.

(** The work that has not been given a goroutine, and the workers. *)
Definition pending g : nat :=
  (length (g_work g) + length (g_spawned g) + Z.to_nat (g_workers g))%nat.

Lemma exec_calm {X : Set} (o : op X) g g' x :
  calm o = true → exec cfg o g = (g', x) → pending g' = pending g.
Proof.
  unfold exec, pending. destruct o; simpl; unfold with_client, with_storage;
    try discriminate; intros _ He; repeat case_match; simplify_eq/=; done.
Qed.

(** A program of a list, up to its order. *)
Lemma perm_pick {A} (l1 : list A) x l2 a c :
  l1 ++ x :: l2 ≡ₚ a ++ c →
  (∃ a1 a2, a = a1 ++ x :: a2 ∧ l1 ++ l2 ≡ₚ (a1 ++ a2) ++ c) ∨
  (∃ c1 c2, c = c1 ++ x :: c2 ∧ l1 ++ l2 ≡ₚ a ++ c1 ++ c2).
Proof.
  intros Hp. assert (x ∈ a ++ c) as [Hx|Hx]%elem_of_app.
  { rewrite <-Hp. apply elem_of_app. right. left. }
  - left. apply list_elem_of_split in Hx as (a1 & a2 & ->). exists a1, a2. split; [done|].
    apply (Permutation_cons_inv (a:=x)). rewrite (Permutation_middle l1), Hp.
    solve_Permutation.
  - right. apply list_elem_of_split in Hx as (c1 & c2 & ->). exists c1, c2. split; [done|].
    apply (Permutation_cons_inv (a:=x)). rewrite (Permutation_middle l1), Hp.
    solve_Permutation.
Qed.

Lemma startless_proceeds p p' : startless p → proceeds p p' → startless p'.
Proof. destruct p as [|X o k]; [done|]. intros [_ Hk] [x ->]. apply Hk. Qed.

(** [a] are programs that may start work, [c] programs that do not. *)
Lemma own_steps_stop_from a :
  ∀ n c g ts tr, programs ts ≡ₚ a ++ c → Forall startless c → pending g = n →
    Acc (flip own_step) (Sys g ts tr).
Proof.
  induction (moves_stop a) as [a _ IHa].
  intros n. induction (lt_wf n) as [n _ IHn].
  intros c. induction (moves_stop c) as [c _ IHc].
  intros g ts tr Hts Hc Hn. constructor. intros s' Hs.
  inversion Hs as [g0 ts0 tr0 i w X o k g' x Hi Hen He|g0 ts1 w ts2 tr0
    |g0 ts0 tr0 t work Hw Hb|g0 ts0 tr0 Hcn Hw Hb|g0 ts0 tr0 rs1 r rs2 p Hr Hst]; clear Hs; subst.
  - destruct (list_elem_of_split_length _ _ _ Hi) as (t1 & t2 & -> & Hlen).
    rewrite (insert_app_r_alt t1) by lia. replace (i - length t1)%nat with 0%nat by lia.
    cbn [insert list_insert].
    unfold programs in Hts. rewrite fmap_app, fmap_cons in Hts. cbn [t_prog] in Hts.
    destruct (perm_pick _ _ _ _ _ Hts) as [(a1 & a2 & -> & Hp)|(c1 & c2 & -> & Hp)].
    + apply (IHa (a1 ++ k x :: a2)) with (c := c) (n := pending g'); [|clear IHa IHn IHc|done|done].
      * apply moves_act. by exists x.
      * unfold programs. rewrite fmap_app, fmap_cons. cbn [t_prog].
        rewrite <-Permutation_middle, Hp. solve_Permutation.
    + apply Forall_app in Hc as [Hc1 [Hpc Hc2]%Forall_cons].
      apply (IHc (c1 ++ k x :: c2)); [| | |].
      * apply moves_act. by exists x.
      * unfold programs. rewrite fmap_app, fmap_cons. cbn [t_prog].
        rewrite <-Permutation_middle, Hp. solve_Permutation.
      * apply Forall_app. split; [done|]. constructor; [|done]. apply Hpc.
      * destruct Hpc as [Hcalm _]. by apply (exec_calm _ _ _ _ Hcalm) in He.
  - unfold programs in Hts. rewrite fmap_app, fmap_cons in Hts. cbn [t_prog] in Hts.
    destruct (perm_pick _ _ _ _ _ Hts) as [(a1 & a2 & -> & Hp)|(c1 & c2 & -> & Hp)].
    + apply (IHa (a1 ++ a2)) with (c := c) (n := pending g); [apply moves_end| |done|done].
      unfold programs. by rewrite fmap_app.
    + apply Forall_app in Hc as [Hc1 [_ Hc2]%Forall_cons].
      apply (IHc (c1 ++ c2)); [apply moves_end| |by apply Forall_app|done].
      unfold programs. by rewrite fmap_app.
  - refine (IHn (pending (set_work g work (g_spawned g))) _ (c ++ [run_task cfg t]) _ _ _ _ _ eq_refl).
    + unfold pending. simpl. rewrite Hw. simpl. lia.
    + unfold programs. rewrite fmap_app, (assoc_L (++)). by rewrite Hts.
    + apply Forall_app. split; [done|]. constructor; [apply run_task_startless|done].
  - refine (IHn (pending (set_workers g (g_workers g - 1))) _ c _ _ _ Hts Hc eq_refl).
    unfold busy_workers in Hb. unfold pending. simpl. lia.
  - refine (IHn (pending (set_work g (g_work g) (rs1 ++ rs2))) _ (c ++ [p]) _ _ _ _ _ eq_refl).
    + unfold pending. simpl. rewrite Hr, !length_app. simpl. lia.
    + unfold programs. rewrite fmap_app, (assoc_L (++)). by rewrite Hts.
    + apply Forall_app. split; [done|]. constructor; [by eapply starts_startless|done].
Qed.

Lemma own_steps_stop s : Acc (flip own_step) s.
Proof.
  destruct s as [g ts tr].
  apply (own_steps_stop_from (programs ts) (pending g) []); [by rewrite app_nil_r|constructor|done].
Qed.

Lemma exec_keeps_client {X : Set} (o : op X) g g' x c :
  exec cfg o g = (g', x) → is_Some (g_clients g !! c) → is_Some (g_clients g' !! c).
Proof.
  unfold exec. intros He Hc. destruct o; simpl in He; unfold with_client, with_storage in He;
    repeat case_match; simplify_eq/=; try done;
    try (rewrite lookup_insert; by case_decide).
  rewrite map_lookup_imap. by destruct Hc as [cl ->].
Qed.

Lemma exec_registers {X : Set} (o : op X) g g' x c keys :
  exec cfg o g = (g', x) → EvRegister c keys ∈ event_of o x → is_Some (g_clients g' !! c).
Proof.
  unfold exec. intros He Hin.
  destruct o; simpl in Hin; repeat case_match; try (by apply not_elem_of_nil in Hin);
    apply list_elem_of_singleton in Hin; try discriminate.
  simpl in He. simplify_eq/=. by rewrite lookup_insert_eq.
Qed.

(** A connection that was registered is in the table. *)
Lemma registered_known s c :
  reachable cfg SplitHostPort engines s → registered (s_trace s) c →
  is_Some (g_clients (s_g s) !! c).
Proof.
  intros Hr. revert c.
  apply (reachable_ind cfg SplitHostPort engines
    (λ g tr, ∀ c, registered tr c → is_Some (g_clients g !! c)) s); [| |done].
  - intros g _ c [keys Hin]. by apply not_elem_of_nil in Hin.
  - intros g tr g' tr' He IH c. destruct He as [X o g tr g' x _ He|g tr w rs|g tr n|g tr r|g tr].
    + intros [keys Hin]. apply elem_of_app in Hin as [Hin|Hin].
      * destruct (IH c) as [cl Hcl]; [by exists keys|]. by eapply exec_keeps_client.
      * by eapply exec_registers.
    + apply IH.
    + apply IH.
    + intros [keys Hin]. apply IH. exists keys.
      apply elem_of_app in Hin as [Hin|Hin%list_elem_of_singleton]; [done|discriminate].
    + apply IH.
Qed.

(** At rest: no goroutine left and nothing to start; no work, or no worker after
    a stop. *)
Definition at_rest (s : sys (S:=S)) : Prop :=
  s_threads s = [] ∧ g_spawned (s_g s) = [] ∧
  if g_cancelled (s_g s) then g_workers (s_g s) = 0 else g_work (s_g s) = [].

(** A goroutine that has something to do can do it, or waits for one that can. *)
Lemma some_enabled s t :
  reachable cfg SplitHostPort engines s → t ∈ s_threads s → ∃ s', own_step s s'.
Proof.
  destruct s as [g ts tr]. intros Hr Hin. simpl in Hin.
  assert (∀ i w (X : Set) (o : op X) k, ts !! i = Some (Thread w (Vis o k)) → enabled o g →
    ∃ s', own_step (Sys g ts tr) s') as Hact.
  { intros i w X o k Hi Hen. destruct (exec cfg o g) as [g' x] eqn:He.
    eexists. by eapply own_act. }
  apply list_elem_of_lookup in Hin as [i Hi]. destruct t as [w [a|X o k]].
  - destruct a, (list_elem_of_split_length _ _ _ Hi) as (t1 & t2 & -> & _).
    eexists. apply own_end.
  - destruct (decide (enabled o g)) as [Hen|Hdis]; [by eapply Hact|].
    destruct (no_deadlock cfg SplitHostPort engines _ i w X o k Hr Hi Hdis)
      as (j & w' & Y & o' & k' & _ & Hj & Hen). by eapply Hact.
Qed.

(** The workers, with nothing else about. *)
Lemma idle_or_step g tr :
  0 < Workers cfg → reachable cfg SplitHostPort engines (Sys g [] tr) → g_spawned g = [] →
  at_rest (Sys g [] tr) ∨ ∃ s', own_step (Sys g [] tr) s'.
Proof.
  intros Hw [_ Hb _ Hl]%reachable_pool Hsp. simpl in Hb, Hl. change (busy_workers []) with 0 in Hb.
  unfold at_rest. simpl. destruct (g_work g) as [|t work] eqn:Hwork.
  - destruct (g_cancelled g) eqn:Hc; [|by left].
    destruct (decide (g_workers g = 0)) as [Hz|Hz]; [by left|]. right.
    eexists. apply own_exit; [done..|]. change (busy_workers []) with 0. lia.
  - destruct (decide (g_workers g = 0)) as [Hz|Hz].
    + left. destruct Hl as [->|Hl]; [done|lia].
    + right. eexists. eapply own_worker; [done|]. change (busy_workers []) with 0. lia.
Qed.

Lemma rest_or_step s :
  0 < Workers cfg → reachable cfg SplitHostPort engines s → at_rest s ∨ ∃ s', own_step s s'.
Proof.
  intros Hw Hr. destruct s as [g ts tr]. destruct ts as [|t ts].
  2: { right. eapply some_enabled; [done|]. simpl. left. }
  destruct (g_spawned g) as [|r rs] eqn:Hsp; [by apply idle_or_step|]. right.
  assert (∃ p, starts cfg g r p) as [p Hp].
  { destruct (reachable_sys_ok _ _ _ _ Hr) as [_ [_ Hq]]. simpl in Hq.
    destruct r as [t|c|c].
    - eexists. apply starts_task.
    - destruct (registered_known _ c Hr) as [cl Hcl].
      { apply (Hq (GReadLoop c)). rewrite Hsp. left. }
      exists (readLoop cfg c (c_compress cl) []). by apply starts_read.
    - exists (pingLoop c []). apply starts_ping. }
  eexists. by apply (own_go g [] tr [] r rs p).
Qed.

Lemma reachable_workers s : reachable cfg SplitHostPort engines s → 0 < Workers cfg.
Proof.
  intros (s0 & (g & ? & ? & Hg & _) & _). unfold Start in Hg. repeat case_match; simplify_eq; lia.
Qed.

Lemma own_steps_reachable s s' :
  reachable cfg SplitHostPort engines s → rtc own_step s s' → reachable cfg SplitHostPort engines s'.
Proof.
  intros (s0 & Hi & Hs) Hr. exists s0. split; [done|]. etrans; [done|].
  clear Hs. induction Hr as [|s s1 s' Hs _ IH]; [done|]. eapply rtc_l; [by apply own_step_step|done].
Qed.

End drain.

(** ** Accepted messages are stored and offered *)

Section accepted.
Context {S : Type} `{!Storage S, UuidLib, TimeText, JsonText, Env}.
Context (cfg : Config) (SplitHostPort : string → result string).
Implicit Types (g : Goctopus S) (P Q : event → Prop).

(** Whatever its actions return, [p] reports an event of [Q]. *)
Fixpoint emits Q {A} (p : prog op A) : Prop :=
  match p with
  | Ret _ => False
  | Vis o k => ∀ x, (∃ e, event_of o x = [e] ∧ Q e) ∨ emits Q (k x)
  end.

(** An event of [P], and an event of [Q] after it. *)
Fixpoint emits_then P Q {A} (p : prog op A) : Prop :=
  match p with
  | Ret _ => False
  | Vis o k => ∀ x, ((∃ e, event_of o x = [e] ∧ P e) ∧ emits Q (k x)) ∨ emits_then P Q (k x)
  end.

Lemma emits_bind_l {A B} Q (p : prog op A) (f : A → prog op B) : emits Q p → emits Q (bind p f).
Proof.
  induction p as [a|X o k IH]; simpl; [done|]. intros Hp x. destruct (Hp x); [by left|].
  right. by apply IH.
Qed.

Lemma emits_bind_r {A B} Q (p : prog op A) (f : A → prog op B) :
  (∀ a, emits Q (f a)) → emits Q (bind p f).
Proof.
  intros Hf. induction p as [a|X o k IH]; simpl; [apply Hf|]. intros x. right. apply IH.
Qed.

Lemma emits_then_bind_l {A B} P Q (p : prog op A) (f : A → prog op B) :
  emits_then P Q p → emits_then P Q (bind p f).
Proof.
  induction p as [a|X o k IH]; simpl; [done|]. intros Hp x. destruct (Hp x) as [[He Hq]|Hk].
  - left. split; [done|]. by apply emits_bind_l.
  - right. by apply IH.
Qed.

Lemma emits_then_bind_r {A B} P Q (p : prog op A) (f : A → prog op B) :
  (∀ a, emits_then P Q (f a)) → emits_then P Q (bind p f).
Proof.
  intros Hf. induction p as [a|X o k IH]; simpl; [apply Hf|]. intros x. right. apply IH.
Qed.

Lemma emits_then_for_each {A} P Q (l : list A) (body : A → prog op unit) x :
  x ∈ l → emits_then P Q (body x) → emits_then P Q (for_each l body).
Proof.
  intros Hin Hx. induction l as [|y l IH]; simpl; [by apply not_elem_of_nil in Hin|].
  apply elem_of_cons in Hin as [->|Hin]; [by apply emits_then_bind_l|].
  apply emits_then_bind_r. intros _. by apply IH.
Qed.

(** The copy of [m] under [key] is handed to the storage. *)
Definition is_stored (key : string) (m : Message) (e : event) : Prop :=
  ∃ err, e = EvAdd key (with_Key m key) err.

(** The connections [key] fans out to are looked up, for a flush of its queue. *)
Definition is_offered (key : string) (e : event) : Prop := ∃ cs, e = EvClients key cs.

Lemma sendMessages_offers key : emits (is_offered key) (sendMessages key).
Proof.
  unfold sendMessages. apply emits_bind_r. intros _. apply emits_bind_l.
  unfold sendMessages_locked. apply emits_bind_l. intros cs. left.
  exists (EvClients key cs). split; [done|]. by exists cs.
Qed.

Lemma run_task_emits m keys key :
  key ∈ keys →
  emits_then (is_stored key m) (is_offered key) (run_task cfg (TDeliver m keys)).
Proof.
  intros Hin. unfold run_task, deliver. eapply emits_then_for_each; [exact Hin|].
  intros err. left. split; [eexists; split; [done|]; by exists err|].
  change (emits (is_offered key)
    (Ret tt ;; historyAdd cfg key (with_Key m key) ;; notify key ;; sendMessages key)).
  do 3 (apply emits_bind_r; intros _). apply sendMessages_offers.
Qed.

(** *** What is owed *)

Definition then_later P Q (tr : list event) : Prop :=
  ∃ tr1 e tr2 e', tr = tr1 ++ e :: tr2 ∧ P e ∧ e' ∈ tr2 ∧ Q e'.

(** The task [t] waits for a goroutine, and will get one. *)
Definition waits (t : task) g : Prop :=
  (t ∈ g_work g ∧ 0 < g_workers g) ∨ GTask t ∈ g_spawned g.

(** Of the task [t] in a system whose trace since some state is [tr]: it is done,
    under way, or still to be given a goroutine. *)
Definition owed P Q (t : task) g (ts : list thread) (tr : list event) : Prop :=
  then_later P Q tr ∨
  ((∃ e, e ∈ tr ∧ P e) ∧ ∃ th, th ∈ ts ∧ emits Q (t_prog th)) ∨
  (∃ th, th ∈ ts ∧ emits_then P Q (t_prog th)) ∨
  waits t g.

Lemma then_later_app P Q tr es : then_later P Q tr → then_later P Q (tr ++ es).
Proof.
  intros (tr1 & e & tr2 & e' & -> & HP & Hin & HQ). exists tr1, e, (tr2 ++ es), e'.
  rewrite <-(assoc_L (++)). split_and!; [done|done| |done]. apply elem_of_app. by left.
Qed.

Lemma then_later_new P Q tr e e' es : e ∈ tr → P e → e' ∈ es → Q e' → then_later P Q (tr ++ es).
Proof.
  intros (tr1 & tr2 & ->)%list_elem_of_split HP Hin HQ. exists tr1, e, (tr2 ++ es), e'.
  rewrite <-(assoc_L (++)). split_and!; [done|done| |done]. apply elem_of_app. by right.
Qed.

(** More goroutines and more events leave what is owed. *)
Lemma owed_more P Q t g ts tr ts' es :
  owed P Q t g ts tr → owed P Q t g (ts ++ ts') (tr ++ es).
Proof.
  intros [H3|[[(e & He & HP) (th & Hth & HQ)]|[(th & Hth & HPQ)|Hw]]].
  - left. by apply then_later_app.
  - right; left. split; [exists e; split; [apply elem_of_app; by left|done]|].
    exists th. split; [apply elem_of_app; by left|done].
  - right; right; left. exists th. split; [apply elem_of_app; by left|done].
  - by do 3 right.
Qed.

Lemma exec_keeps_work {X : Set} (o : op X) g g' x t :
  exec cfg o g = (g', x) → waits t g → waits t g'.
Proof.
  unfold exec, waits. intros He Ht. destruct o; simpl in He; unfold with_client, with_storage in He;
    repeat case_match; simplify_eq/=; rewrite ?elem_of_app; tauto.
Qed.

(** A goroutine that is not the one that moved is still there. *)
Lemma thread_insert (ts : list thread) i th th' x :
  ts !! i = Some th → x ∈ ts → x = th ∨ x ∈ <[i := th']> ts.
Proof.
  intros Hi [j Hj]%list_elem_of_lookup. destruct (decide (i = j)) as [<-|Hne].
  - left. congruence.
  - right. apply list_elem_of_lookup. exists j. by rewrite list_lookup_insert_ne.
Qed.

Lemma owed_act P Q t g ts tr i w (X : Set) (o : op X) k g' x :
  ts !! i = Some (Thread w (Vis o k)) → exec cfg o g = (g', x) →
  owed P Q t g ts tr → owed P Q t g' (<[i := Thread w (k x)]> ts) (tr ++ event_of o x).
Proof.
  intros Hi He Hd.
  assert (Thread w (k x) ∈ <[i := Thread w (k x)]> ts) as Hnew.
  { apply list_elem_of_lookup. exists i. apply list_lookup_insert_eq. by eapply lookup_lt_Some. }
  assert (∀ e, e ∈ tr → e ∈ tr ++ event_of o x) as Hold by (intros; apply elem_of_app; by left).
  destruct Hd as [H3|[[(e & Hin & HP) (th & Hth & HQ)]|[(th & Hth & HPQ)|Hw]]].
  - left. by apply then_later_app.
  - destruct (thread_insert ts i _ (Thread w (k x)) th Hi Hth) as [->|Hth'].
    + destruct (HQ x) as [(e' & Hev & HQe)|Hk].
      * left. eapply then_later_new; [exact Hin|exact HP| |exact HQe]. rewrite Hev. left.
      * right; left. split; [by exists e; auto|]. by exists (Thread w (k x)).
    + right; left. split; [by exists e; auto|]. by exists th.
  - destruct (thread_insert ts i _ (Thread w (k x)) th Hi Hth) as [->|Hth'].
    + destruct (HPQ x) as [[(e & Hev & HPe) HQ]|Hk].
      * right; left. split; [|by exists (Thread w (k x))]. exists e. split; [|done].
        apply elem_of_app. right. rewrite Hev. left.
      * right; right; left. by exists (Thread w (k x)).
    + right; right; left. by exists th.
  - do 3 right. by eapply exec_keeps_work.
Qed.

Lemma owed_end P Q t g ts1 w ts2 tr :
  owed P Q t g (ts1 ++ Thread w (Ret tt) :: ts2) tr → owed P Q t g (ts1 ++ ts2) tr.
Proof.
  assert (∀ th, th ∈ ts1 ++ Thread w (Ret tt) :: ts2 → th = Thread w (Ret tt) ∨ th ∈ ts1 ++ ts2)
    as Hin.
  { intros th. rewrite !elem_of_app, elem_of_cons. tauto. }
  intros [H3|[[He (th & Hth & HQ)]|[(th & Hth & HPQ)|Hw]]].
  - by left.
  - destruct (Hin th Hth) as [->|Hth']; [destruct HQ|]. right; left. split; [done|]. by exists th.
  - destruct (Hin th Hth) as [->|Hth']; [destruct HPQ|]. right; right; left. by exists th.
  - by do 3 right.
Qed.

(** A goroutine that starts takes over what the queue owed. *)
Lemma owed_take P Q t g g' ts th tr :
  owed P Q t g ts tr →
  (waits t g → waits t g' ∨ emits_then P Q (t_prog th)) →
  owed P Q t g' (ts ++ [th]) tr.
Proof.
  intros Hd Hq. apply (owed_more P Q t g ts tr [th] []) in Hd. rewrite app_nil_r in Hd.
  destruct Hd as [H3|[H3|[H3|Hw]]]; [by left|by right; left|by right; right; left|].
  destruct (Hq Hw) as [Hw'|Hem]; [by do 3 right|].
  right; right; left. exists th. split; [apply elem_of_app; right; left|done].
Qed.

Lemma owed_step P Q t s s' tr0 ext :
  emits_then P Q (run_task cfg t) → step cfg SplitHostPort s s' → s_trace s = tr0 ++ ext →
  owed P Q t (s_g s) (s_threads s) ext →
  ∃ ext', s_trace s' = tr0 ++ ext' ∧ owed P Q t (s_g s') (s_threads s') ext'.
Proof.
  intros Hem Hs. destruct Hs as [g ts tr i w X o k g' x Hi _ He|g ts1 w ts2 tr
    |g ts tr t0 work Hw _|g ts tr _ Hw _|g ts tr rs1 r rs2 p Hr Hp|g ts tr r|g ts tr key|g ts tr];
    simpl; intros -> Hd.
  - exists (ext ++ event_of o x). split; [by rewrite (assoc_L (++))|]. by eapply owed_act.
  - exists ext. split; [done|]. by eapply owed_end.
  - exists ext. split; [done|]. eapply owed_take; [exact Hd|]. unfold waits. simpl.
    rewrite Hw, elem_of_cons. intros [[[->|?] ?]|?]; auto.
  - exists ext. split; [done|]. destruct Hd as [Hd|[Hd|[Hd|[[Hin _]|Hin]]]];
      [by left|by right; left|by right; right; left|
       rewrite Hw in Hin; by apply not_elem_of_nil in Hin|by do 4 right].
  - exists ext. split; [done|]. eapply owed_take; [exact Hd|]. unfold waits. simpl.
    rewrite Hr, !elem_of_app, elem_of_cons.
    intros [?|[?|[<-|?]]]; auto. right. by inversion Hp; subst.
  - exists (ext ++ [EvRequest r]). split; [by rewrite (assoc_L (++))|]. by apply owed_more.
  - exists ext. split; [done|]. rewrite <-(app_nil_r ext). by apply owed_more.
  - exists ext. split; [done|]. rewrite <-(app_nil_r ext). by apply owed_more.
Qed.

End accepted.
Import Demo.


(** A message posted to two keys waits for a worker; then everything runs, the
    read and ping loops of the subscriber meeting the end of the connection. *)
Definition waiting : sys (S:=MemoryStorage) :=
  drive cfg SplitHostPort s0
    (connect ++ [CRequest (request "POST" "/" post_both_body)] ++ replicate 10 (CAct 0)).
Definition resting : sys (S:=MemoryStorage) :=
  drive cfg SplitHostPort waiting
    ([CWorker] ++ replicate 60 (CAct 0) ++ [CGo [] []] ++ replicate 10 (CAct 0) ++
     [CGo [] []] ++ replicate 10 (CAct 0)).

Lemma drive_steps {S} `{Storage S} s l :
  rtc (step cfg SplitHostPort) s (drive (S:=S) cfg SplitHostPort s l).
Proof.
  revert s. induction l as [|ch l IH]; intros s; [done|]. etrans; [apply step_by_sound|apply IH].
Qed.

