(* ===== verification/RedisGateway.v ===== *)
(** * The gateway over Redis

    The delivery theorems hold over any storage that meets [StorageSpec].  Here
    they are applied to a gateway that keeps its messages in Redis, with no time
    to live: what a subscriber receives is what was posted, although every
    message went through its encoded form. *)
From stdpp Require Import base numbers list gmap strings relations.
From S2P Require Import Prelude GoStd GoTime Topics Utf8 Json JsonCodec Const Message Stored.
From S2P Require Import Storage RedisServer RedisStorage History Config Client Http RateLimit.
From S2P Require Import Authorizer Prog Engine Server System Logic Causes Simulate Delivery.
From S2P Require Import MemoryStorage SampleText SampleRedis.

#[local] Open Scope Z_scope.

(** The table [Storages] where only the Redis engine is available. *)
Definition redis_engines {R} `{RedisServer R} (parse : string → option error)
    (connect : string → R) : string → option (Config → result (RedisStorage R)) :=
  Storages (λ _, Err (Error "not this engine")) (Redis.Init parse connect).

Section gateway.
Context {R : Type} `{!RedisServer R, !RedisLaws R}.
Context `{UuidLib, TimeText, TimeParse, JsonText, JsonPrint, !TextLaws, !JsonLaws, Env}.
Context (cfg : Config) (SplitHostPort : string → result string).
Context (parse : string → option error) (connect : string → R).

(** No time to live is configured, and the server holds no queue yet. *)
Definition fresh_server : Prop :=
  RedisKeyTTL cfg ≤ 0 ∧ ∀ url,
    ks_volatile (redis_ks (connect url)) = ∅ ∧
    ∀ k, hash_at (redis_ks (connect url)) (queueKey k) = ∅.

Lemma fresh_storage s0 :
  fresh_server → getStorage cfg (redis_engines parse connect) = Returned s0 →
  redis_ok s0 ∧ ∀ k id, redis_queued s0 k id = None.
Proof.
  intros [Httl Hfresh]. unfold getStorage, redis_engines, Storages.
  repeat case_decide; try done. unfold Redis.Init. destruct (parse _); [done|].
  set (url := if decide (RedisURL cfg = EMPTY_STR) then redisDefaultURL else RedisURL cfg).
  destruct (redis_ping (connect url)) as [r err] eqn:Hp. destruct err; [done|]. intros [= <-].
  destruct (Hfresh url) as [Hv Hh]. apply ping_law in Hp.
  destruct (drifts_persistent _ _ Hv Hp) as [Hs Hv'].
  assert (∀ k, hash_at (redis_ks r) (queueKey k) = ∅) as He
    by (intros k; rewrite <-(Hh k); unfold hash_at; by rewrite Hs).
  split.
  - split; [done|]. split; [done|]. intros k. simpl. rewrite He. apply map_Forall_empty.
  - intros k id. unfold redis_queued, ks_table. simpl. by rewrite He, lookup_empty.
Qed.

(** C18: Over Redis, a frame written to a connection is the frame of a message
    exactly as an authorised POST to a key the connection subscribes to gave
    it, although it was encoded, kept on the server and decoded since; and that
    message had not expired. *)
Theorem redis_frames_are_posted s tr1 c data err tr2 :
  fresh_server → valid_utf8 (DefaultExpire cfg) = true →
  reachable cfg SplitHostPort (redis_engines parse connect) s →
  s_trace s = tr1 ++ EvWrite c data err :: tr2 →
  ∃ key m t, posted cfg tr1 m ∧ key ∈ m_targets m ∧ subscribes tr1 c key ∧
    marshal m false = Ok data ∧
    EvNow t ∈ tr1 ∧ isExpired m t = false ∧ EvMark c (m_id m) key ∈ tr1.
Proof.
  intros Hfresh Hdef Hr Htr.
  destruct (frame_origin cfg SplitHostPort (redis_engines parse connect)
    s tr1 c data err tr2) as (key & m & t & Hdata & Ht & Hexp & Hmark & Hsub & Hm).
  - intros s0 Hs0. by apply fresh_storage.
  - done.
  - done.
  - destruct Hm as [(s0 & Hs0 & Hq)|(m0 & Hp & Hk & ->)].
    { destruct (fresh_storage s0 Hfresh Hs0) as [_ Hnone].
      change (redis_queued s0 key (m_id m) = Some m) in Hq. by rewrite Hnone in Hq. }
    pose proof Hp as Hp'. destruct Hp' as (r & now & rnd & _ & _ & _ & Hu).
    destruct (stored_form_same _ _ _ _ _ _ Hu Hdef Hk) as (Hid & _ & _ & Hform & Hsame).
    exists key, m0, t.
    split; [exact Hp|]. split; [exact Hk|]. split; [exact Hsub|].
    split; [rewrite <-Hform, Hdata; exact (marshal_short _)|].
    split; [exact Ht|]. split; [rewrite <-Hsame; exact Hexp|exact Hmark].
Qed.
End gateway.

(** ** Listings *)

Section listings.
Context {R : Type} `{!RedisServer R}.

(** A listing without keys is an empty array over the in-memory storage, and null
    over Redis, where the slice of the keys is declared and not made. *)
Theorem empty_listing_differs :
  (∀ range (s : MemoryStorage) s' keys, Memory.GetKeys range s = (s', Ok keys) →
     keys_body keys = JArr (JStr <$> elems keys)) ∧
  (∀ range (s : RedisStorage R) s' keys, Redis.GetKeys range s = (s', Ok keys) →
     keys_body keys = if decide (elems keys = []) then JNull else JArr (JStr <$> elems keys)).
Proof.
  split.
  - by intros range s s' keys [= <- <-].
  - intros range s s' keys. unfold Redis.GetKeys. destruct (Redis.scan_keys _ _ _ s) as [s1 res].
    intros [= _ Hk]. destruct (default (Ok []) res) as [l|e]; [|done]. injection Hk as <-.
    by destruct l.
Qed.
End listings.

(** ** A run over Redis *)

Import SampleText SampleRedis.
#[local] Existing Instance Demo.demo_env.

Definition redis_cfg : Config := Demo.cfg_on "redis" true 1048576.
Definition sample_engines : string → option (Config → result (RedisStorage keyspace)) :=
  redis_engines (λ _, None) (λ _, Keyspace ∅ ∅).

Definition redis_start : Goctopus (RedisStorage keyspace) :=
  match Start redis_cfg sample_engines with
  | Returned g => g
  | Panicked => MkGoctopus ∅ ∅ ∅ ∅ 0%nat (sample_storage 0) (Dummy []) None None (λ _, 0) 0 [] []
                  8 false 0%nat
  end.

Definition redis_s0 : sys (S:=RedisStorage keyspace) :=
  Sys redis_start [Thread false (sweepExpired redis_cfg 0); Thread false (reconcileLoop redis_cfg 0)] [].

Lemma redis_s0_reachable :
  reachable redis_cfg Demo.SplitHostPort sample_engines redis_s0.
Proof. exists redis_s0. split; [|done]. exists redis_start, 0%nat, 0%nat. by split. Qed.

(** A message with a key, an array and an object whose members are not sorted. *)
Definition redis_post : Request :=
  Demo.request "POST" "/" (json_print (JObj [("key", JStr "a.b");
    ("value", JObj [("z", JArr [JNull]); ("b", JStr "x")])])).

Definition redis_delivered : sys (S:=RedisStorage keyspace) :=
  drive redis_cfg Demo.SplitHostPort redis_s0
    (Demo.connect ++ [CRequest redis_post] ++ replicate 10 (CAct 0) ++ [CWorker] ++
     replicate 20 (CAct 0)).

Lemma redis_delivered_reachable :
  reachable redis_cfg Demo.SplitHostPort sample_engines redis_delivered.
Proof. apply drive_reachable, redis_s0_reachable. Qed.

Lemma redis_frames_are_posted_witness :
  let tr := s_trace redis_delivered in
  ∃ data, tr !! 9%nat = Some (EvWrite 0%nat data None) ∧
    ∃ key m t, posted redis_cfg (take 9 tr) m ∧ key ∈ m_targets m ∧
      subscribes (take 9 tr) 0%nat key ∧ marshal m false = Ok data ∧
      EvNow t ∈ take 9 tr ∧ isExpired m t = false ∧ EvMark 0%nat (m_id m) key ∈ take 9 tr.
Proof.
  eexists. split; [vm_compute; reflexivity|].
  eapply (redis_frames_are_posted redis_cfg Demo.SplitHostPort (λ _, None) (λ _, Keyspace ∅ ∅)
    redis_delivered).
  - split; [vm_compute; congruence|]. intros url. split; [reflexivity|]. intros k. reflexivity.
  - reflexivity.
  - apply redis_delivered_reachable.
  - apply split_at. vm_compute. reflexivity.
Defined.

(** ** The stored form of the sample's message *)

Lemma stored_form_faithful_witness :
  let data := ReadAll_MaxBytes (r_Body redis_post) 1048576 in
  ∃ m, unmarshal data "10m" 0 (Ok Demo.mid) = Returned (Ok m) ∧
    ∃ b m', encode (with_Key m "a.b") = Ok b ∧ decodeMessage b = Ok m' ∧
      m_id m' = m_id m ∧ m_Key m' = "a.b" ∧ m_date m' = m_date m ∧
      marshal m' false = marshal m false ∧ ∀ t, isExpired m' t = isExpired m t.
Proof.
  eexists. split; [vm_compute; reflexivity|].
  eapply (stored_form_faithful (ReadAll_MaxBytes (r_Body redis_post) 1048576) "10m" 0 (Ok Demo.mid)).
  - vm_compute. reflexivity.
  - reflexivity.
  - reflexivity.
  - vm_compute. left.
Defined.
