(* ===== verification/Cluster.v ===== *)
(** * Several gateways over one storage

    Any number of gateways run the steps of [System] against one storage, as
    instances of the program do that share a Redis server; instances may join
    while the others run.  Every instance keeps a trace of its own: all that
    happened in it, and what the others did that concerns it (the requests they
    received and what they wrote to the storage).  Notifications are steps of
    [System] that may come at any time. *)
From stdpp Require Import base numbers list gmap strings relations.
From S2P Require Import Prelude GoStd GoTime Topics Json Const Message Storage History Config.
From S2P Require Import Client Http RateLimit Authorizer Prog Engine Server System Logic.
From S2P Require Import Programs Registry Invariants Causes Simulate Delivery.
From S2P Require Import Stored RedisServer RedisStorage SampleText SampleRedis RedisGateway.

#[local] Open Scope Z_scope.

(** ** What the instances see of each other *)

Definition public (e : event) : bool :=
  match e with
  | EvRequest _ | EvAdd _ _ _ | EvDelete _ _ _ | EvDeleteQueue _ _ => true
  | _ => false
  end.

Abbreviation shared tr := (filter (λ e, public e = true) tr).

Section cluster.
Context {S : Type} `{!Storage S, !StorageSpec S, UuidLib, TimeText, JsonText}.
Context (cfg : Config) (SplitHostPort : string → result string).
Context (engines : string → option (Config → result S)).
Hypothesis engines_ok : ∀ s0, getStorage cfg engines = Returned s0 → st_ok s0.
Implicit Types (n : sys (S:=S)) (g : Goctopus S) (tr : list event).

(** An instance after another one left the storage at [st] and did [evs]. *)
Definition absorb (st : S) (evs : list event) n : sys :=
  Sys (set_storage (s_g n) st) (s_threads n) (s_trace n ++ shared evs).

Inductive cluster_step : list sys → list sys → Prop :=
| cluster_run `{Env} ns i n n' evs :
    ns !! i = Some n → step cfg SplitHostPort n n' → s_trace n' = s_trace n ++ evs →
    cluster_step ns (<[i := n']> (absorb (g_storage (s_g n')) evs <$> ns))
| cluster_join `{Env} ns i n g sweeps reconciles :
    ns !! i = Some n → Start cfg engines = Returned g →
    cluster_step ns
      (ns ++ [Sys (set_storage g (g_storage (s_g n)))
                [Thread false (sweepExpired cfg sweeps); Thread false (reconcileLoop cfg reconciles)]
                (shared (s_trace n))]).

(** One instance to begin with. *)
Definition cluster_reachable (ns : list sys) : Prop :=
  ∃ (env : Env) n0, initial cfg engines n0 ∧ rtc cluster_step [n0] ns.

(** ** What an instance may believe *)

(** Every event of an instance has its cause in what it has seen; a deletion,
    which may be another instance's, in what one of the instances has seen. *)
Record sound_instance n : Prop := {
  si_programs : sys_ok cfg n;
  si_explained : explained cfg engines (s_g n) (s_trace n);
  si_causes : every (local_cause cfg engines) (s_trace n);
  si_kept : kept (s_g n) (s_trace n);
}.

Definition deletions_accounted (ns : list sys) : Prop :=
  ∀ n key id err, n ∈ ns → EvDelete key id err ∈ s_trace n →
    ∃ n', n' ∈ ns ∧ delete_ok cfg (s_trace n') key id.

(** All instances see one storage and one history of shared events. *)
Record sound_cluster (ns : list sys) : Prop := {
  sc_sound n : n ∈ ns → sound_instance n;
  sc_storage n n' : n ∈ ns → n' ∈ ns → g_storage (s_g n) = g_storage (s_g n');
  sc_shared n n' : n ∈ ns → n' ∈ ns → shared (s_trace n) = shared (s_trace n');
  sc_deletions : deletions_accounted ns;
}.

(** *** What the shared events carry over *)

Lemma posted_shared tr tr' m : shared tr ⊆ shared tr' → posted cfg tr m → posted cfg tr' m.
Proof.
  intros Hsub (r & now & rnd & Hr & Ha). exists r, now, rnd. split; [|done].
  assert (EvRequest r ∈ shared tr') as Hin by (by apply Hsub, list_elem_of_filter).
  by apply list_elem_of_filter in Hin as [_ ?].
Qed.

Lemma add_ok_shared tr tr' key m :
  shared tr ⊆ shared tr' → add_ok cfg tr key m → add_ok cfg tr' key m.
Proof. intros Hsub (m0 & Hp & ?). exists m0. split; [by eapply posted_shared|done]. Qed.

Lemma clear_ok_shared tr tr' key :
  shared tr ⊆ shared tr' → clear_ok cfg tr key → clear_ok cfg tr' key.
Proof.
  intros Hsub (r & Hr & Ha). exists r. split; [|done].
  assert (EvRequest r ∈ shared tr') as Hin by (by apply Hsub, list_elem_of_filter).
  by apply list_elem_of_filter in Hin as [_ ?].
Qed.

(** Only shared events change the table. *)
Lemma q_events_shared es q q' :
  (length es ≤ 1)%nat → q_events es q q' → q_events (shared es) q q'.
Proof.
  destruct es as [|e [|? ?]]; simpl; [done| |lia]. intros _ Hq. rewrite filter_cons.
  destruct e; simpl; try done; by rewrite decide_False.
Qed.

Lemma shared_length es : (length (shared es) ≤ length es)%nat.
Proof. apply length_filter. Qed.

(** The shared part of a trace. *)
Lemma shared_split tr tr1 e tr2 :
  shared tr = tr1 ++ e :: tr2 →
  ∃ u1 u2, tr = u1 ++ e :: u2 ∧ shared u1 = tr1 ∧ shared u2 = tr2.
Proof.
  revert tr1. induction tr as [|x tr IH]; intros tr1 Heq; [by destruct tr1|].
  destruct (decide (public x = true)) as [Hx|Hx].
  - rewrite filter_cons_True in Heq by done. destruct tr1 as [|y tr1].
    + injection Heq as -> <-. by exists [], tr.
    + injection Heq as -> Heq. destruct (IH tr1 Heq) as (u1 & u2 & -> & <- & <-). exists (y :: u1), u2.
      by rewrite filter_cons_True.
  - rewrite filter_cons_False in Heq by done. destruct (IH tr1 Heq) as (u1 & u2 & -> & <- & <-).
    exists (x :: u1), u2. by rewrite filter_cons_False.
Qed.

Lemma kept_shared g g' tr :
  g_storage g' = g_storage g → kept g tr → kept g' (shared tr).
Proof.
  intros Hst Hk tr1 key m tr2 Heq Hd. destruct (shared_split _ _ _ _ Heq) as (u1 & u2 & -> & _ & <-).
  rewrite Hst. apply (Hk u1 key m u2 eq_refl). rewrite Forall_forall in Hd |- *.
  intros e He Hdis. apply (Hd e); [|done]. apply list_elem_of_filter. split; [|done].
  by destruct e.
Qed.

(** ** One step of one instance *)

(** What the step added to the trace, and did to the storage. *)
Lemma evolves_events `{Env} g tr g' tr' :
  st_ok (g_storage g) → explained cfg engines g tr → evolves cfg g tr g' tr' →
  ∃ evs, tr' = tr ++ evs ∧ (length evs ≤ 1)%nat ∧ st_ok (g_storage g') ∧
    q_events evs (queued (g_storage g)) (queued (g_storage g')) ∧
    explained cfg engines g' (tr ++ evs) ∧ ∀ e, e ∈ evs → cause cfg engines tr e.
Proof.
  intros Hok Hex Hev. destruct Hev as [X o g tr g' x Hpre He|g tr w rs|g tr n|g tr r|g tr].
  - unfold exec in He. destruct (exec_op cfg o g) as [g1 x1] eqn:Ho. injection He as <- <-.
    exists (event_of o x1). destruct (exec_op_storage cfg o g g1 x1 Hok Ho) as [Hok1 Hq].
    split; [done|]. split; [destruct (event_of_cases o x1) as [->|[e ->]]; simpl; lia|].
    split; [exact Hok1|]. split; [exact Hq|]. split.
    + destruct (explained_exec cfg SplitHostPort engines engines_ok o g tr g1 x1 Hex Ho). by split.
    + intros e Hin. destruct (event_of_cases o x1) as [Heq|[e' Heq]]; rewrite Heq in Hin.
      * by apply not_elem_of_nil in Hin.
      * apply list_elem_of_singleton in Hin as ->. by eapply exec_cause.
  - exists []. rewrite app_nil_r. split; [done|]. split; [simpl; lia|]. split; [done|]. split; [done|].
    split; [by destruct Hex; split|]. by intros e ?%not_elem_of_nil.
  - exists []. rewrite app_nil_r. split; [done|]. split; [simpl; lia|]. split; [done|]. split; [done|].
    split; [by destruct Hex; split|]. by intros e ?%not_elem_of_nil.
  - exists [EvRequest r]. split; [done|]. split; [simpl; lia|]. split; [done|]. split; [done|].
    split.
    + eapply explained_stable; [|done]. set_solver.
    + by intros e ->%list_elem_of_singleton.
  - exists []. rewrite app_nil_r. split; [done|]. split; [simpl; lia|]. split; [done|]. split; [done|].
    split; [done|]. by intros e ?%not_elem_of_nil.
Qed.

Lemma every_extend (P : list event → event → Prop) tr es :
  (length es ≤ 1)%nat → every P tr → (∀ e, e ∈ es → P tr e) → every P (tr ++ es).
Proof.
  destruct es as [|e [|? ?]]; simpl; [by rewrite app_nil_r| |lia]. intros _ Htr He.
  apply every_snoc; [done|]. apply He. by left.
Qed.

(** The instance that moved. *)
Lemma step_sound `{Env} n n' :
  sound_instance n → step cfg SplitHostPort n n' →
  sound_instance n' ∧ ∃ evs, s_trace n' = s_trace n ++ evs ∧ (length evs ≤ 1)%nat ∧
    q_events evs (queued (g_storage (s_g n))) (queued (g_storage (s_g n'))) ∧
    (∀ e, e ∈ evs → cause cfg engines (s_trace n) e).
Proof.
  intros [Hsys Hex Hc Hk] Hstep. destruct (step_ok cfg SplitHostPort n n' Hsys Hstep) as [Hsys' Hev].
  destruct (evolves_events _ _ _ _ (ex_storage _ _ _ _ Hex) Hex Hev)
    as (evs & Htr & Hlen & Hok' & Hq & Hex' & Hcause).
  split; [|by exists evs]. split; [done| | |].
  - by rewrite Htr.
  - rewrite Htr. apply every_extend; [done|done|]. intros e He. specialize (Hcause e He).
    by destruct e.
  - rewrite Htr. by apply (kept_events evs (s_g n)).
Qed.

(** An instance that looked on. *)
Lemma absorb_sound n st evs :
  sound_instance n → (length evs ≤ 1)%nat → st_ok st →
  q_events evs (queued (g_storage (s_g n))) (queued st) →
  (∀ e, e ∈ shared evs → local_cause cfg engines (s_trace n) e) →
  sound_instance (absorb st evs n).
Proof.
  intros [[Hts Hq] [Hs Hqd Hc Hr Hcs] Hca Hk] Hlen Hok Hes Hcause.
  assert (s_trace n ⊆ s_trace n ++ shared evs) as Ht by (intros e He; apply elem_of_app; by left).
  assert (length (shared evs) ≤ 1)%nat as Hlen' by (pose proof (shared_length evs); lia).
  apply q_events_shared in Hes; [|done]. split; simpl.
  - split; [by eapply threads_ok_stable|]. eapply queue_ok_stable in Hq; [|exact Ht]. exact Hq.
  - split; [done| | |done|done].
    + intros k id m Hm. simpl in Hm.
      destruct (q_events_from _ _ _ _ _ _ Hes Hm) as [Hm'|(-> & m0 & err & Hform & Heq)].
      * by eapply stored_stable, Hqd.
      * right. exists m0, err. split; [done|]. apply elem_of_app. right. rewrite Heq. by left.
    + intros c cl Hcl. destruct (Hc c cl Hcl) as (? & ? & Hi). split_and!; [done|auto|].
      intros id key Hid. auto.
  - by apply every_extend.
  - by apply (kept_events (shared evs) (s_g n)).
Qed.

(** ** The cluster *)

Lemma cause_shared tr tr' e :
  public e = true → shared tr ⊆ shared tr' → cause cfg engines tr e → local_cause cfg engines tr' e.
Proof.
  intros Hp Hsub. destruct e; try discriminate; simpl; try done.
  - by apply add_ok_shared.
  - by apply clear_ok_shared.
Qed.

Lemma shared_idem tr : shared (shared tr) = shared tr.
Proof. apply filter_id. by intros e [? _]%list_elem_of_filter. Qed.

Lemma every_shared tr : every (local_cause cfg engines) tr → every (local_cause cfg engines) (shared tr).
Proof.
  intros Hc tr1 e tr2 Heq. destruct (shared_split _ _ _ _ Heq) as (u1 & u2 & -> & <- & <-).
  assert (public e = true) as He.
  { assert (e ∈ shared (u1 ++ e :: u2)) as Hin by (rewrite Heq; set_solver).
    by apply list_elem_of_filter in Hin as [? _]. }
  specialize (Hc u1 e u2 eq_refl). destruct e; try discriminate; simpl in *; try done.
  - eapply add_ok_shared; [|exact Hc]. by rewrite shared_idem.
  - eapply clear_ok_shared; [|exact Hc]. by rewrite shared_idem.
Qed.

(** The instances after one of them moved, and the others looked on. *)
Definition moved ns (i : nat) n' (evs : list event) : list sys :=
  <[i := n']> (absorb (g_storage (s_g n')) evs <$> ns).

Lemma elem_of_moved ns i n n' evs n1 :
  ns !! i = Some n → n1 ∈ moved ns i n' evs →
  n1 = n' ∨ ∃ n0, n0 ∈ ns ∧ n1 = absorb (g_storage (s_g n')) evs n0.
Proof.
  intros Hi (j & Hj)%list_elem_of_lookup.
  apply list_lookup_insert_Some in Hj as [(_ & -> & _)|[_ Hj]]; [by left|right].
  apply list_lookup_fmap_Some in Hj as (n0 & -> & Hj). exists n0.
  split; [by eapply list_elem_of_lookup_2|done].
Qed.

(** Every instance is still there, having seen what it had seen. *)
Lemma moved_later ns i n n' evs n0 :
  ns !! i = Some n → s_trace n' = s_trace n ++ evs → n0 ∈ ns →
  ∃ n1, n1 ∈ moved ns i n' evs ∧ s_trace n0 ⊆ s_trace n1.
Proof.
  intros Hi Htr (j & Hj)%list_elem_of_lookup. destruct (decide (j = i)) as [->|Hne].
  - exists n'. rewrite Hi in Hj. injection Hj as <-. split; [|rewrite Htr; set_solver].
    apply (list_elem_of_lookup_2 _ i), list_lookup_insert_eq. rewrite length_fmap.
    by eapply lookup_lt_Some.
  - exists (absorb (g_storage (s_g n')) evs n0). split; [|simpl; set_solver].
    apply (list_elem_of_lookup_2 _ j). unfold moved. rewrite list_lookup_insert_ne by done.
    by rewrite list_lookup_fmap, Hj.
Qed.

Lemma moved_deletions `{Env} ns i n n' evs :
  deletions_accounted ns → ns !! i = Some n → s_trace n' = s_trace n ++ evs →
  (∀ e, e ∈ evs → cause cfg engines (s_trace n) e) →
  deletions_accounted (moved ns i n' evs).
Proof.
  intros Hdel Hi Htr Hcause.
  assert (n ∈ ns) as Hn by by eapply list_elem_of_lookup_2.
  assert (∀ n0 key id, n0 ∈ ns → delete_ok cfg (s_trace n0) key id →
    ∃ n2, n2 ∈ moved ns i n' evs ∧ delete_ok cfg (s_trace n2) key id) as Hlater.
  { intros n0 key id Hn0 Hok. destruct (moved_later ns i n n' evs n0 Hi Htr Hn0) as (n2 & Hn2 & Ht).
    exists n2. split; [done|]. by eapply delete_ok_stable. }
  assert (∀ n0 key id err, n0 ∈ ns → EvDelete key id err ∈ s_trace n0 ++ evs →
    ∃ n2, n2 ∈ moved ns i n' evs ∧ delete_ok cfg (s_trace n2) key id) as Hall.
  { intros n0 key id err Hn0 [He|He]%elem_of_app.
    - destruct (Hdel n0 key id err Hn0 He) as (n2 & Hn2 & Hok). by apply (Hlater n2).
    - by apply (Hlater n), (Hcause _ He). }
  intros n1 key id err [->|(n0 & Hn0 & ->)]%(elem_of_moved _ _ _ _ _ _ Hi) He.
  - apply (Hall n key id err Hn). by rewrite <-Htr.
  - apply (Hall n0 key id err Hn0). simpl in He. apply elem_of_app in He as [He|He];
      apply elem_of_app; [by left|right]. by apply list_elem_of_filter in He as [_ He].
Qed.

Lemma cluster_run_sound `{Env} ns i n n' evs :
  sound_cluster ns → ns !! i = Some n → step cfg SplitHostPort n n' →
  s_trace n' = s_trace n ++ evs → sound_cluster (moved ns i n' evs).
Proof.
  intros [Hsound Hst Hsh Hdel] Hi Hstep Htr.
  assert (n ∈ ns) as Hn by by eapply list_elem_of_lookup_2.
  destruct (step_sound n n' (Hsound n Hn) Hstep) as (Hs' & evs' & Htr' & Hlen & Hq & Hcause).
  rewrite Htr in Htr'. apply app_inv_head in Htr' as <-.
  assert (∀ n0, n0 ∈ ns → shared (s_trace n0 ++ shared evs) = shared (s_trace n')) as Hshared.
  { intros n0 Hn0. rewrite Htr, !filter_app, (Hsh n0 n) by done. f_equal.
    apply shared_idem. }
  pose proof (λ n1, elem_of_moved ns i n n' evs n1 Hi) as Hcases. split.
  - intros n1 [->|(n0 & Hn0 & ->)]%Hcases; [done|].
    apply absorb_sound; [by apply Hsound|done|apply (si_explained _ Hs')| |].
    + by rewrite (Hst n0 n).
    + intros e [Hp He]%list_elem_of_filter. apply (cause_shared (s_trace n)); [done| |by apply Hcause].
      by rewrite (Hsh n n0).
  - assert (∀ n1, n1 ∈ moved ns i n' evs → g_storage (s_g n1) = g_storage (s_g n')) as Hall
      by (by intros n1 [->|(n0 & _ & ->)]%Hcases).
    intros n1 n2 Hn1 Hn2. by rewrite (Hall n1 Hn1), (Hall n2 Hn2).
  - assert (∀ n1, n1 ∈ moved ns i n' evs → shared (s_trace n1) = shared (s_trace n')) as Hall
      by (intros n1 [->|(n0 & Hn0 & ->)]%Hcases; [done|by apply Hshared]).
    intros n1 n2 Hn1 Hn2. by rewrite (Hall n1 Hn1), (Hall n2 Hn2).
  - by apply (moved_deletions ns i n).
Qed.

(** An instance that joins starts on the storage and the history it finds. *)
Lemma cluster_join_sound `{Env} ns i n g sweeps reconciles :
  sound_cluster ns → ns !! i = Some n → Start cfg engines = Returned g →
  sound_cluster (ns ++ [Sys (set_storage g (g_storage (s_g n)))
    [Thread false (sweepExpired cfg sweeps); Thread false (reconcileLoop cfg reconciles)]
    (shared (s_trace n))]).
Proof.
  intros [Hsound Hst Hsh Hdel] Hi Hg. set (n' := Sys _ _ _).
  assert (n ∈ ns) as Hn by by eapply list_elem_of_lookup_2.
  assert (shared (s_trace n') = shared (s_trace n)) as Hsn
    by apply shared_idem.
  destruct (Hsound n Hn) as [_ [Hs Hqd _ _ _] Hca Hk].
  assert (∀ n1, n1 ∈ ns ++ [n'] → n1 ∈ ns ∨ n1 = n') as Hcases
    by (intros n1 [?| ->%list_elem_of_singleton]%elem_of_app; auto).
  assert (∀ n1, n1 ∈ ns ++ [n'] → g_storage (s_g n1) = g_storage (s_g n)) as Hall
    by (intros n1 [?| ->]%Hcases; [by apply Hst|done]).
  assert (∀ n1, n1 ∈ ns ++ [n'] → shared (s_trace n1) = shared (s_trace n)) as Hall'
    by (intros n1 [?| ->]%Hcases; [by apply Hsh|done]).
  split.
  - intros n1 [Hn1| ->]%Hcases; [by apply Hsound|].
    destruct (accounted_start cfg SplitHostPort engines engines_ok g Hg) as [[_ _ Hc Hr Hcs] _ _].
    pose proof (sys_ok_initial cfg engines (Sys g
      [Thread false (sweepExpired cfg sweeps); Thread false (reconcileLoop cfg reconciles)] []))
      as [Hts Hq]; [by exists g, sweeps, reconciles|].
    split; simpl.
    + split; [by eapply threads_ok_stable; [|exact Hts]; set_solver|].
      eapply queue_ok_stable in Hq; [exact Hq|]. set_solver.
    + split; [done| | |done|done].
      * intros k id m Hm. destruct (Hqd k id m Hm) as [?|(m0 & err & -> & He)]; [by left|right].
        exists m0, err. split; [done|]. by apply list_elem_of_filter.
      * intros c cl Hcl. destruct (Hc c cl Hcl) as (? & ?%not_elem_of_nil & _). done.
    + by apply every_shared.
    + by apply (kept_shared (s_g n)).
  - intros n1 n2 Hn1 Hn2. by rewrite (Hall n1 Hn1), (Hall n2 Hn2).
  - intros n1 n2 Hn1 Hn2. by rewrite (Hall' n1 Hn1), (Hall' n2 Hn2).
  - intros n1 key id err [Hn1| ->]%Hcases He.
    + destruct (Hdel n1 key id err Hn1 He) as (n2 & ? & ?). exists n2. split; [|done].
      apply elem_of_app. by left.
    + apply list_elem_of_filter in He as [_ He]. destruct (Hdel n key id err Hn He) as (n2 & ? & ?).
      exists n2. split; [|done]. apply elem_of_app. by left.
Qed.

Lemma cluster_reachable_sound ns : cluster_reachable ns → sound_cluster ns.
Proof.
  intros (env & n0 & Hinit & Hsteps).
  assert (sound_cluster [n0]) as Hstart.
  { assert (reachable cfg SplitHostPort engines n0) as Hr by (by exists n0).
    destruct (reachable_accounted cfg SplitHostPort engines engines_ok n0 Hr) as [Hex Hc Hk].
    assert (s_trace n0 = []) as Htr by (by destruct Hinit as (g & ? & ? & _ & ->)).
    split.
    - intros n ->%list_elem_of_singleton. split; [by apply sys_ok_initial with engines|done| |done].
      rewrite Htr. apply every_nil.
    - by intros n n' ->%list_elem_of_singleton ->%list_elem_of_singleton.
    - by intros n n' ->%list_elem_of_singleton ->%list_elem_of_singleton.
    - intros n key id err ->%list_elem_of_singleton He. rewrite Htr in He.
      by apply not_elem_of_nil in He. }
  clear Hinit. induction Hsteps as [ns|ns1 ns2 ns3 Hstep _ IH]; [done|]. apply IH.
  destruct Hstep as [env' ns i n n' evs Hi Hn Htr|env' ns i n g sweeps reconciles Hi Hg].
  - by apply (cluster_run_sound ns i n).
  - by apply (cluster_join_sound ns i n).
Qed.

(** ** What a cluster guarantees *)

(** A legitimate removal, by any of the instances. *)
Definition cluster_removal (ns : list sys) tr (key : string) (id : uuid) (e : event) : Prop :=
  match e with
  | EvDelete k i _ => k = key ∧ i = id ∧ ∃ n, n ∈ ns ∧
      ((∃ c, EvTake c id key ∈ s_trace n) ∨ seen_expired (s_trace n) key id ∨
       delete_requested cfg (s_trace n) key id)
  | EvDeleteQueue k _ => k = key ∧ clear_ok cfg tr key
  | EvAdd k m _ => k = key ∧ m_id m = id ∧ add_ok cfg tr key m
  | _ => False
  end.


End cluster.

(** ** Executing a cluster *)

Section drive_cluster.
Context {S : Type} `{!Storage S, !StorageSpec S, UuidLib, TimeText, JsonText, Env}.
Context (cfg : Config) (SplitHostPort : string → result string).
Context (engines : string → option (Config → result S)).
Implicit Types (n : sys (S:=S)).

Local Abbreviation csteps := (rtc (cluster_step cfg SplitHostPort engines)).

Lemma step_trace n n' :
  step cfg SplitHostPort n n' → ∃ evs, s_trace n' = s_trace n ++ evs.
Proof. destruct 1; simpl; eauto; exists []; by rewrite app_nil_r. Qed.

Lemma steps_trace n n' :
  rtc (step cfg SplitHostPort) n n' → ∃ evs, s_trace n' = s_trace n ++ evs.
Proof.
  induction 1 as [n|n1 n2 n3 (evs & Ht)%step_trace _ (evs' & Ht')].
  - exists []. by rewrite app_nil_r.
  - exists (evs ++ evs'). by rewrite Ht', Ht, (assoc_L (++)).
Qed.

(** The others see the sum of what they saw on the way. *)
Lemma absorb_twice st1 evs1 st2 evs2 n :
  absorb st2 evs2 (absorb st1 evs1 n) = absorb st2 (evs1 ++ evs2) n.
Proof. unfold absorb. simpl. by rewrite filter_app, (assoc_L (++)). Qed.

Lemma absorb_nothing n : absorb (g_storage (s_g n)) [] n = n.
Proof. destruct n as [[] ts tr]. unfold absorb. simpl. by rewrite app_nil_r. Qed.

Lemma moved_twice ns i n1 evs1 n2 evs2 :
  moved (moved ns i n1 evs1) i n2 evs2 = moved ns i n2 (evs1 ++ evs2).
Proof.
  unfold moved. rewrite list_fmap_insert, list_insert_insert_eq, <-list_fmap_compose. f_equal.
  apply list_fmap_ext. intros j n _. apply absorb_twice.
Qed.

Lemma run_in_cluster ns i n n' evs :
  (∀ n0, n0 ∈ ns → g_storage (s_g n0) = g_storage (s_g n)) → ns !! i = Some n →
  rtc (step cfg SplitHostPort) n n' → s_trace n' = s_trace n ++ evs →
  csteps ns (moved ns i n' evs).
Proof.
  intros Hst Hi Hsteps. revert ns evs Hst Hi.
  induction Hsteps as [n|n1 n2 n3 Hstep Hsteps IH]; intros ns evs Hst Hi Htr.
  - rewrite <-(app_nil_r (s_trace n)) in Htr at 1. apply app_inv_head in Htr as <-.
    assert (moved ns i n [] = ns) as ->; [|done].
    apply list_eq. intros j. unfold moved. destruct (decide (j = i)) as [->|Hne].
    + rewrite list_lookup_insert_eq; [done|]. rewrite length_fmap. by eapply lookup_lt_Some.
    + rewrite list_lookup_insert_ne by done. rewrite list_lookup_fmap.
      destruct (ns !! j) as [n0|] eqn:Hj; [|done]. simpl. f_equal.
      rewrite <-(Hst n0) by (by eapply list_elem_of_lookup_2). apply absorb_nothing.
  - destruct (step_trace n1 n2 Hstep) as [evs1 Ht1].
    destruct (steps_trace n2 n3 Hsteps) as [evs2 Ht2].
    assert (evs = evs1 ++ evs2) as ->.
    { apply (app_inv_head (s_trace n1)). by rewrite <-Htr, Ht2, Ht1, (assoc_L (++)). }
    rewrite <-(moved_twice ns i n2 evs1). eapply rtc_l.
    + by apply (cluster_run cfg SplitHostPort engines ns i n1 n2 evs1).
    + apply IH; [| |done].
      * intros n0 Hn0. by apply (elem_of_moved ns i n1) in Hn0 as [->|(n4 & _ & ->)].
      * apply list_lookup_insert_eq. rewrite length_fmap. by eapply lookup_lt_Some.
Qed.

(** The choices of a schedule, performed by one instance of the cluster. *)
Definition cluster_drive (ns : list sys) (i : nat) (l : list choice) : list sys :=
  match ns !! i with
  | Some n => let n' := drive cfg SplitHostPort n l in
              moved ns i n' (drop (length (s_trace n)) (s_trace n'))
  | None => ns
  end.

Lemma cluster_drive_at ns i l n :
  ns !! i = Some n → cluster_drive ns i l !! i = Some (drive cfg SplitHostPort n l).
Proof.
  intros Hi. unfold cluster_drive, moved. rewrite Hi. simpl. apply list_lookup_insert_eq.
  rewrite length_fmap. by eapply lookup_lt_Some.
Qed.

Lemma cluster_drive_reachable ns i l :
  (∀ s0, getStorage cfg engines = Returned s0 → st_ok s0) →
  cluster_reachable cfg SplitHostPort engines ns →
  cluster_reachable cfg SplitHostPort engines (cluster_drive ns i l).
Proof.
  intros Hinit Hr. unfold cluster_drive. destruct (ns !! i) as [n|] eqn:Hi; [|done].
  destruct (cluster_reachable_sound cfg SplitHostPort engines Hinit ns Hr) as [_ Hst _ _].
  assert (rtc (step cfg SplitHostPort) n (drive cfg SplitHostPort n l)) as Hrun by apply drive_by_steps.
  destruct (steps_trace _ _ Hrun) as [evs Htr]. rewrite Htr, drop_app_length.
  apply (run_in_cluster ns i n) in Htr; [|intros n1 Hn1|exact Hi|exact Hrun].
  - destruct Hr as (env & n0 & Hn0 & Hsteps). exists env, n0. split; [done|]. by etrans.
  - apply Hst; [done|]. by eapply list_elem_of_lookup_2.
Qed.
End drive_cluster.

(** ** Two instances: one has the subscriber, the other gets the message *)

Module DemoCluster.
Import SampleText SampleRedis.
#[local] Existing Instance Demo.demo_env.

Local Abbreviation cluster_drive := (cluster_drive redis_cfg Demo.SplitHostPort).
Local Abbreviation cluster_reachable :=
  (cluster_reachable redis_cfg Demo.SplitHostPort sample_engines).

Lemma sample_engines_ok s0 : getStorage redis_cfg sample_engines = Returned s0 → st_ok s0.
Proof.
  intros Hs0. apply (fresh_storage redis_cfg (λ _, None) (λ _, Keyspace ∅ ∅)) in Hs0 as [? _]; [done|].
  split; [vm_compute; congruence|]. intros url. by split.
Qed.

(** The subscriber connects to the first instance, the second one joins. *)
Definition subscribed : sys (S:=RedisStorage keyspace) :=
  drive redis_cfg Demo.SplitHostPort redis_s0 Demo.connect.
Definition connected : list (sys (S:=RedisStorage keyspace)) :=
  cluster_drive [redis_s0] 0 Demo.connect.
Definition joined : list (sys (S:=RedisStorage keyspace)) :=
  connected ++ [Sys (set_storage redis_start (g_storage (s_g subscribed)))
    [Thread false (sweepExpired redis_cfg 0); Thread false (reconcileLoop redis_cfg 0)]
    (shared (s_trace subscribed))].
(** The second one receives the message, the first one the notification. *)
Definition published : list (sys (S:=RedisStorage keyspace)) :=
  cluster_drive joined 1 ([CAct 0; CAct 0; CRequest redis_post] ++ replicate 10 (CAct 0) ++
    [CWorker] ++ replicate 20 (CAct 0)).
Definition notified : list (sys (S:=RedisStorage keyspace)) :=
  cluster_drive published 0
    ([CNotification "a.b"; CAct 0; CAct 0; CWorker] ++ replicate 20 (CAct 0)).

Lemma connected_reachable : cluster_reachable connected.
Proof.
  apply cluster_drive_reachable; [apply sample_engines_ok|]. exists Demo.demo_env, redis_s0.
  split; [|done]. exists redis_start, 0%nat, 0%nat. by split.
Qed.

Lemma joined_reachable : cluster_reachable joined.
Proof.
  destruct connected_reachable as (env & n0 & Hn0 & Hsteps). exists env, n0. split; [done|].
  eapply rtc_r; [exact Hsteps|].
  apply (cluster_join redis_cfg Demo.SplitHostPort sample_engines connected 0
    subscribed redis_start 0 0); [|by split].
  exact (cluster_drive_at redis_cfg Demo.SplitHostPort [redis_s0] 0 Demo.connect redis_s0 eq_refl).
Qed.

Lemma notified_reachable : cluster_reachable notified.
Proof.
  do 2 (apply cluster_drive_reachable; [apply sample_engines_ok|]). apply joined_reachable.
Qed.


End DemoCluster.
