(* ===== verification/Metrics.v ===== *)
(** * The scrape gauges ([src/src/metrics.go])

    The callbacks [newMetrics] registers for [goctopus_connections] and
    [goctopus_keys].  The counters are part of the gateway's state ([Prog]); the
    text of [/metrics] is the Prometheus library's. *)
From stdpp Require Import base numbers list gmap strings.
From S2P Require Import Prelude GoStd GoTime Const Message Storage MemoryStorage Prog Registry.

#[local] Open Scope Z_scope.

(** ** Connections *)

(** The callback of [goctopus_connections]: the loop over [g.Conns]. *)
Definition connections_gauge (Conns : gmap string (list cid)) : Z :=
  map_fold (λ _ (c : list cid) n, n + Z.of_nat (length c)) 0 Conns.

Lemma connections_gauge_insert Conns k cs :
  connections_gauge (<[k := cs]> Conns) =
  connections_gauge Conns - Z.of_nat (length (default [] (Conns !! k))) + Z.of_nat (length cs).
Proof.
  unfold connections_gauge.
  assert (∀ Conns, Conns !! k = None → connections_gauge (<[k := cs]> Conns) =
    connections_gauge Conns + Z.of_nat (length cs)) as Hfresh.
  { intros C HC. unfold connections_gauge. rewrite map_fold_insert_L; [done|intros; lia|done]. }
  destruct (Conns !! k) as [old|] eqn:Hk; simpl.
  - rewrite <-insert_delete_eq.
    change (connections_gauge (<[k:=cs]> (delete k Conns)) =
      connections_gauge Conns - Z.of_nat (length old) + Z.of_nat (length cs)).
    rewrite Hfresh by apply lookup_delete_eq. unfold connections_gauge.
    rewrite (map_fold_delete_L _ _ k old Conns) by (done || (intros; lia)). lia.
  - change (connections_gauge (<[k:=cs]> Conns) = connections_gauge Conns - 0 + Z.of_nat (length cs)).
    rewrite Hfresh by done. lia.
Qed.

(** A connection adds one to the gauge for each of its keys, so the gauge
    counts subscriptions: it is the number of connections only when each has
    exactly one key. *)
Theorem connections_gauge_counts_keys c keys st :
  connections_gauge (register_keys c keys st).1 =
  connections_gauge st.1 + Z.of_nat (length keys).
Proof.
  revert st. induction keys as [|k keys IH]; intros [Conns patterns]; [simpl; lia|].
  change (register_keys c (k :: keys) (Conns, patterns)) with
    (register_keys c keys (register_key c (Conns, patterns) k)).
  rewrite IH. simpl. rewrite connections_gauge_insert, length_app. simpl. lia.
Qed.

(** ** Keys *)

(** The variables the callback of [goctopus_keys] closes over; [keysAt] is
    [None] while it is the zero time.  A count is held as a float64, exact up to
    2^53. *)
Record keys_cache := KeysCache { keysVal : Z; keysAt : option Z }.

Definition no_cache : keys_cache := KeysCache 0 None.

Definition keysTTL : Z := 10 * Second.

(** The callback: [now] is the reading of [time.Since], [after] the one of
    [time.Now]; the last component tells whether the storage was asked. *)
Definition keys_gauge {S} `{Storage S} (range : gset string → list string) (now after : Z)
    (kc : keys_cache) (s : S) : keys_cache * S * Z * bool :=
  let fresh := match keysAt kc with Some t => time_Since now t <? keysTTL | None => false end in
  if fresh then (kc, s, keysVal kc, false) else
  let '(s, r) := GetKeys range s in
  let val := match r with Ok k => Z.of_nat (length (elems k)) | Err _ => keysVal kc end in
  (KeysCache val (Some after), s, val, true).

Section scrapes.
Context {S : Type} `{Storage S}.

(** A scrape: the storage it meets and the two readings of the clock. *)
Record scrape := Scrape { sc_storage : S; sc_range : gset string → list string; sc_now : Z; sc_after : Z }.

(** What the scrapes report, and when the storage was asked. *)
Fixpoint scrapes (kc : keys_cache) (l : list scrape) : list (Z * bool) :=
  match l with
  | [] => []
  | x :: l =>
    let '(kc, _, val, asked) := keys_gauge (sc_range x) (sc_now x) (sc_after x) kc (sc_storage x) in
    (val, asked) :: scrapes kc l
  end.

(** The clock readings of the scrapes that asked the storage. *)
Definition asked_at (l : list scrape) (out : list (Z * bool)) : list Z :=
  omap (λ p : scrape * (Z * bool), if p.2.2 then Some (sc_now p.1) else None) (zip l out).

(** The readings do not go backwards, from [t] on. *)
Fixpoint clock_ok (t : Z) (l : list scrape) : Prop :=
  match l with
  | [] => True
  | x :: l => t ≤ sc_now x ∧ sc_now x ≤ sc_after x ∧ clock_ok (sc_after x) l
  end.

Fixpoint spaced (d : Z) (ts : list Z) : Prop :=
  match ts with
  | a :: (b :: _) as ts => a + d ≤ b ∧ spaced d ts
  | _ => True
  end.

(** The number of keys the storage last told before the end of [out], and 0
    when it never did. *)
Definition last_count (v : Z) (l : list scrape) (out : list (Z * bool)) : Z :=
  foldl (λ acc (p : scrape * (Z * bool)),
    if p.2.2 then match (GetKeys (sc_range p.1) (sc_storage p.1)).2 with
      | Ok k => Z.of_nat (length (elems k)) | Err _ => acc end
    else acc) v (zip l out).

Lemma asked_at_cons x l v b out :
  asked_at (x :: l) ((v, b) :: out) = (if b then [sc_now x] else []) ++ asked_at l out.
Proof. by destruct b. Qed.

Lemma time_Since_ttl now t : (time_Since now t <? keysTTL) = (now - t <? keysTTL).
Proof.
  unfold time_Since, time_Sub, keysTTL, min_int64, max_int64, two63.
  change Second with 1000000000.
  destruct (Z.ltb_spec (now - t) (10 * 1000000000)); [apply Z.ltb_lt|apply Z.ltb_ge]; lia.
Qed.

(** The next question to the storage comes after the cached value has aged. *)
Lemma asked_after kc t l :
  keysAt kc = Some t → clock_ok t l →
  match asked_at l (scrapes kc l) with [] => True | a :: _ => t + keysTTL ≤ a end ∧
  spaced keysTTL (asked_at l (scrapes kc l)).
Proof.
  assert (∀ t0 kc t, keysAt kc = Some t → t ≤ t0 → clock_ok t0 l →
    match asked_at l (scrapes kc l) with [] => True | a :: _ => t + keysTTL ≤ a end ∧
    spaced keysTTL (asked_at l (scrapes kc l))) as Hgen.
  2: { intros Ht Hc. by apply (Hgen t). }
  clear kc t. induction l as [|x l IH]; intros t0 kc t Ht Hle Hc; [done|].
  destruct Hc as (Hc1 & Hc2 & Hc). cbn [scrapes]. unfold keys_gauge. rewrite Ht, time_Since_ttl.
  destruct (Z.ltb_spec (sc_now x - t) keysTTL).
  - rewrite asked_at_cons. apply (IH (sc_after x) kc t Ht); [lia|done].
  - destruct (GetKeys (sc_range x) (sc_storage x)) as [s r].
    set (kc' := KeysCache _ _).
    destruct (IH (sc_after x) kc' (sc_after x) eq_refl ltac:(lia) Hc) as [Ha Hs].
    rewrite asked_at_cons. cbn [app]. split; [lia|].
    destruct (asked_at l (scrapes kc' l)) as [|a ts]; [exact I|]. split; [lia|exact Hs].
Qed.

(** Every report is the last count the storage told. *)
Lemma reports_last_count kc l i v asked :
  scrapes kc l !! i = Some (v, asked) →
  v = last_count (keysVal kc) (take (Datatypes.S i) l) (take (Datatypes.S i) (scrapes kc l)).
Proof.
  revert kc i. induction l as [|x l IH]; intros kc i; [done|]. cbn [scrapes].
  unfold keys_gauge. destruct (match keysAt kc with Some t => _ | None => false end).
  - destruct i as [|i]; cbn [lookup list_lookup]; [by intros [= <- <-]|]. apply IH.
  - destruct (GetKeys (sc_range x) (sc_storage x)) as [s r] eqn:Hg.
    destruct i as [|i]; cbn [lookup list_lookup].
    + intros [= <- <-]. unfold last_count. simpl. by rewrite Hg.
    + intros Hi. rewrite (IH _ _ Hi). unfold last_count. simpl. by rewrite Hg.
Qed.

(** However often [/metrics] is scraped, two questions to the storage are at
    least ten seconds apart, and each scrape reports the number of keys the
    storage last told, 0 before it told any. *)
Theorem keys_gauge_throttled t l :
  clock_ok t l →
  spaced keysTTL (asked_at l (scrapes no_cache l)) ∧
  ∀ i v asked, scrapes no_cache l !! i = Some (v, asked) →
    v = last_count 0 (take (Datatypes.S i) l) (take (Datatypes.S i) (scrapes no_cache l)).
Proof.
  intros Hc. split; [|intros i v asked; apply (reports_last_count no_cache)].
  destruct l as [|x l]; [done|]. destruct Hc as (_ & Hc1 & Hc). cbn [scrapes]. unfold keys_gauge.
  cbn [keysAt no_cache]. destruct (GetKeys (sc_range x) (sc_storage x)) as [s r].
  set (kc := KeysCache _ _).
  rewrite asked_at_cons. cbn [app].
  destruct (asked_after kc (sc_after x) l eq_refl Hc) as [Ha Hs].
  destruct (asked_at l (scrapes kc l)) as [|a ts]; [exact I|]. split; [lia|exact Hs].
Qed.
End scrapes.

(** Four scrapes in twenty-five seconds: three questions. *)
Definition sample_scrapes : list (scrape (S:=MemoryStorage)) :=
  (λ t, Scrape Memory.Init (λ X, elements X) (t * Second) (t * Second)) <$> [1; 5; 12; 25].

Lemma keys_gauge_throttled_witness :
  asked_at sample_scrapes (scrapes no_cache sample_scrapes) = [1 * Second; 12 * Second; 25 * Second] ∧
  spaced keysTTL (asked_at sample_scrapes (scrapes no_cache sample_scrapes)) ∧
  ∀ i v asked, scrapes no_cache sample_scrapes !! i = Some (v, asked) →
    v = last_count 0 (take (S i) sample_scrapes) (take (S i) (scrapes no_cache sample_scrapes)).
Proof.
  split; [vm_compute; reflexivity|]. apply (keys_gauge_throttled 0).
  vm_compute. repeat split; discriminate.
Defined.
