(* ===== verification/Instruments.v ===== *)
(** * The instruments of an instance ([src/src/metrics.go])

    [newMetrics] creates the counters, the histogram and the gauges and
    registers them; [/metrics] reads them all.  The Prometheus library is a
    class of operations with the laws its documentation gives: a registry
    refuses a collector that describes a name already registered. *)
From stdpp Require Import base numbers list gmap strings.
From S2P Require Import Prelude GoStd GoTime Const Message Storage MemoryStorage Config Http.
From S2P Require Import Authorizer Prog Metrics.

#[local] Open Scope Z_scope.

(** ** Instruments *)

(** The callbacks of the two gauges. *)
Inductive callback := cb_connections | cb_keys.

Inductive instrument :=
| NewCounter (Name Help : string) (k : counter)
| NewHistogram (Name Help : string)
| NewGauge (Name Help : string) (ConstLabels : list (string * string)) (v : Z)
| NewGaugeFunc (Name Help : string) (f : callback)
| NewGoCollector
| NewProcessCollector.

Class Prometheus (R : Type) := {
  NewRegistry : R;
  Register : R → instrument → result R;
  go_names : list string;
  process_names : list string;
}.

(** The names an instrument describes. *)
Definition described (go process : list string) (c : instrument) : list string :=
  match c with
  | NewCounter name _ _ | NewHistogram name _ | NewGauge name _ _ _ | NewGaugeFunc name _ _ =>
    [name]
  | NewGoCollector => go
  | NewProcessCollector => process
  end.

Definition fqNames {R} `{Prometheus R} : instrument → list string :=
  described go_names process_names.

(** [registered] is what a registry gathers from. *)
Class PrometheusLaws R `{Prometheus R} := {
  registered : R → list instrument;
  new_law : registered NewRegistry = [];
  register_law reg c :
    match Register reg c with
    | Ok reg' => registered reg' = registered reg ++ [c] ∧ NoDup (fqNames c) ∧
        ∀ name, name ∈ fqNames c → name ∉ concat (fqNames <$> registered reg)
    | Err _ => ¬ (NoDup (fqNames c) ∧
        ∀ name, name ∈ fqNames c → name ∉ concat (fqNames <$> registered reg))
    end;
  go_law : NoDup go_names ∧ Forall (λ name, String.prefix "go_" name = true) go_names;
  process_law :
    NoDup process_names ∧ Forall (λ name, String.prefix "process_" name = true) process_names;
}.

Section instruments.
Context {R : Type} `{!Prometheus R, Env}.

(** [reg.MustRegister(cs...)] *)
Fixpoint MustRegister (reg : R) (cs : list instrument) : outcome R :=
  match cs with
  | [] => Returned reg
  | c :: cs => match Register reg c with Ok reg => MustRegister reg cs | Err _ => Panicked end
  end.

(** One call after the other. *)
Fixpoint MustRegisters (reg : R) (calls : list (list instrument)) : outcome R :=
  match calls with
  | [] => Returned reg
  | cs :: calls =>
    match MustRegister reg cs with Returned reg => MustRegisters reg calls | Panicked => Panicked end
  end.

(** The fields of the struct. *)
Record metrics := MkMetrics {
  mt_registry : R;
  mt_received : instrument;
  mt_delivered : instrument;
  mt_expired : instrument;
  mt_authFail : instrument;
  mt_delivery : instrument;
}.

Definition buildInfo : instrument :=
  NewGauge "goctopus_build_info" "Build information; always 1, labelled with version and commit."
    [("version", env_version); ("commit", env_commit)] 1.

Definition newMetrics : outcome metrics :=
  let m := MkMetrics NewRegistry
    (NewCounter "goctopus_messages_received_total" "Messages accepted from backends." Received)
    (NewCounter "goctopus_messages_delivered_total" "Messages acknowledged by websocket clients."
       Delivered)
    (NewCounter "goctopus_messages_expired_total" "Messages dropped because they expired." Expired)
    (NewCounter "goctopus_auth_failures_total" "Failed authentication attempts." AuthFail)
    (NewHistogram "goctopus_delivery_seconds" "Time from enqueue to delivery.") in
  match MustRegisters (mt_registry m) [
    [mt_received m; mt_delivered m; mt_expired m; mt_authFail m; mt_delivery m];
    [buildInfo];
    [NewGoCollector];
    [NewProcessCollector];
    [NewGaugeFunc "goctopus_connections" "Current number of websocket connections." cb_connections];
    [NewGaugeFunc "goctopus_keys" "Current number of keys with queued messages." cb_keys]] with
  | Panicked => Panicked
  | Returned reg => Returned (MkMetrics reg (mt_received m) (mt_delivered m)
      (mt_expired m) (mt_authFail m) (mt_delivery m))
  end.

(** ** What a scrape reads *)

Context {S : Type} `{!Storage S}.

(** The value of an instrument: the counters and the number of observations are
    in the state, the gauges run their callbacks; [None] where it is the
    library's. *)
Definition read_instrument (kc : keys_cache) (now after : Z) (c : instrument) (g : Goctopus S)
  : keys_cache * Goctopus S * option Z :=
  match c with
  | NewCounter _ _ k => (kc, g, Some (g_metrics g k))
  | NewHistogram _ _ => (kc, g, Some (g_observed g))
  | NewGauge _ _ _ v => (kc, g, Some v)
  | NewGaugeFunc _ _ cb_connections => (kc, g, Some (connections_gauge (g_Conns g)))
  | NewGaugeFunc _ _ cb_keys =>
    let '(kc, s, v, _) := keys_gauge (range_order (g_tick g)) now after kc (g_storage g) in
    (kc, next_tick (set_storage g s), Some v)
  | NewGoCollector | NewProcessCollector => (kc, g, None)
  end.

(** [handleMetrics]: the handler of the library gathers from every instrument
    and prints what it read. *)
Fixpoint gather (kc : keys_cache) (now after : Z) (cs : list instrument) (g : Goctopus S)
  : keys_cache * Goctopus S * list (instrument * option Z) :=
  match cs with
  | [] => (kc, g, [])
  | c :: cs =>
    let '(kc, g, v) := read_instrument kc now after c g in
    let '(kc, g, vs) := gather kc now after cs g in
    (kc, g, (c, v) :: vs)
  end.

Definition handleMetrics (instruments_of : R → list instrument)
    (print : list (instrument * option Z) → string) (kc : keys_cache) (now after : Z)
    (m : metrics) (g : Goctopus S) : keys_cache * Goctopus S * response :=
  let '(kc, g, vs) := gather kc now after (instruments_of (mt_registry m)) g in
  (kc, g, Response StatusOK (TextBody (print vs))).

(** ** Registration *)

Context `{!PrometheusLaws R}.

Definition names (cs : list instrument) : list string := concat (fqNames <$> cs).

Lemma names_app cs1 cs2 : names (cs1 ++ cs2) = names cs1 ++ names cs2.
Proof. unfold names. by rewrite fmap_app, concat_app. Qed.

(** A call returns exactly when no name is described twice. *)
Lemma MustRegister_spec cs reg :
  NoDup (names (registered reg)) →
  match MustRegister reg cs with
  | Returned reg' => registered reg' = registered reg ++ cs ∧ NoDup (names (registered reg ++ cs))
  | Panicked => ¬ NoDup (names (registered reg ++ cs))
  end.
Proof.
  revert reg. induction cs as [|c cs IH]; intros reg Hreg; simpl.
  - by rewrite app_nil_r.
  - pose proof (register_law reg c) as Hlaw. destruct (Register reg c) as [reg1|].
    + destruct Hlaw as (Hr & Hc & Hdis). specialize (IH reg1). rewrite Hr, <-(assoc_L (++)) in IH.
      apply IH. rewrite names_app. apply NoDup_app. split; [done|].
      unfold names at 2 3. simpl. rewrite app_nil_r. split; [|done]. intros x Hx Hx'. by apply (Hdis x).
    + intros Hnd. apply Hlaw. rewrite names_app in Hnd. apply NoDup_app in Hnd as (_ & Hdis & Hnd).
      unfold names in Hnd, Hdis. simpl in Hnd, Hdis. apply NoDup_app in Hnd as [Hc _].
      split; [done|]. intros x Hx Hx'. apply (Hdis x Hx'). apply elem_of_app. by left.
Qed.

Lemma MustRegisters_concat calls reg : MustRegisters reg calls = MustRegister reg (concat calls).
Proof.
  assert (∀ cs1 cs2 reg, MustRegister reg (cs1 ++ cs2) =
    match MustRegister reg cs1 with Returned reg => MustRegister reg cs2 | Panicked => Panicked end)
    as Happ.
  { induction cs1 as [|c cs1 IH]; intros cs2 reg1; simpl; [done|].
    destruct (Register reg1 c); [apply IH|done]. }
  revert reg. induction calls as [|cs calls IH]; intros reg; simpl; [done|]. rewrite Happ.
  destruct (MustRegister reg cs); [apply IH|done].
Qed.

(** The names an operator is told of. *)
Definition own_names : list string := [
  "goctopus_messages_received_total"; "goctopus_messages_delivered_total";
  "goctopus_messages_expired_total"; "goctopus_auth_failures_total";
  "goctopus_delivery_seconds"; "goctopus_build_info"; "goctopus_connections"; "goctopus_keys"].

Definition is_own (name : string) : bool := String.prefix "goctopus_" name.

(** Two prefixes of one name are comparable. *)
Lemma prefixes_differ p q x :
  String.prefix p x = true → String.prefix q x = true →
  String.prefix p q = false → String.prefix q p = false → False.
Proof.
  revert q x. induction p as [|a p IH]; [by destruct q|]. intros q x Hp Hq Hpq Hqp.
  destruct q as [|b q]; [done|]. destruct x as [|e x]; [done|]. simpl in *.
  repeat case_match; simplify_eq; try done. by apply (IH q x).
Qed.

Lemma foreign_names p (l : list string) :
  Forall (λ name, String.prefix p name = true) l →
  String.prefix "goctopus_" p = false → String.prefix p "goctopus_" = false →
  filter (λ name, is_own name = true) l = [].
Proof.
  intros Hl Hp1 Hp2. induction Hl as [|x l Hx _ IH]; [done|]. rewrite filter_cons_False; [done|].
  intros Hown. by apply (prefixes_differ "goctopus_" p x).
Qed.

Lemma names_unique (l1 l2 go process : list string) :
  NoDup (l1 ++ l2) → Forall (λ name, is_own name = true) (l1 ++ l2) →
  NoDup go → Forall (λ name, String.prefix "go_" name = true) go →
  NoDup process → Forall (λ name, String.prefix "process_" name = true) process →
  NoDup (l1 ++ go ++ process ++ l2).
Proof.
  intros Hnd Hown Hgo Hgo' Hpr Hpr'. rewrite Forall_forall in Hown, Hgo', Hpr'.
  apply NoDup_app in Hnd as (H1' & H12 & H2').
  apply NoDup_app. split; [done|]. split.
  - intros x Hx. rewrite !elem_of_app. intros [Hx'|[Hx'|Hx']]; [| |by apply (H12 x)].
    + apply (prefixes_differ "goctopus_" "go_" x); [|by auto|done..]. apply Hown, elem_of_app. by left.
    + apply (prefixes_differ "goctopus_" "process_" x); [|by auto|done..]. apply Hown, elem_of_app. by left.
  - apply NoDup_app. split; [done|]. split.
    + intros x Hx. rewrite elem_of_app. intros [Hx'|Hx'].
      * apply (prefixes_differ "go_" "process_" x); by auto.
      * apply (prefixes_differ "go_" "goctopus_" x); [by auto| |done..]. apply Hown, elem_of_app. by right.
    + apply NoDup_app. split; [done|]. split; [|done]. intros x Hx Hx'.
      apply (prefixes_differ "process_" "goctopus_" x); [by auto| |done..]. apply Hown, elem_of_app. by right.
Qed.

(** A start never panics over its metrics: every instrument is registered once,
    no two describe the same name, and those of the program are the ones the
    documentation lists. *)
Theorem newMetrics_registers :
  ∃ m, newMetrics = Returned m ∧
    NoDup (names (registered (mt_registry m))) ∧
    mt_received m ∈ registered (mt_registry m) ∧ mt_delivered m ∈ registered (mt_registry m) ∧
    mt_expired m ∈ registered (mt_registry m) ∧ mt_authFail m ∈ registered (mt_registry m) ∧
    mt_delivery m ∈ registered (mt_registry m) ∧
    filter (λ name, is_own name = true) (names (registered (mt_registry m))) = own_names.
Proof.
  unfold newMetrics. rewrite MustRegisters_concat. cbn [concat app mt_registry].
  match goal with |- context [MustRegister ?r ?cs] => set (all := cs) end.
  assert (names all = take 6 own_names ++ go_names ++ process_names ++ drop 6 own_names) as Hall
    by done.
  destruct go_law as [Hgo Hgo'], process_law as [Hpr Hpr'].
  assert (NoDup (names all)) as Hnd.
  { rewrite Hall. apply names_unique; try done.
    - apply (bool_decide_unpack (NoDup own_names)). by vm_compute.
    - by repeat constructor. }
  pose proof (MustRegister_spec all NewRegistry) as Hreg. rewrite new_law in Hreg.
  specialize (Hreg (NoDup_nil_2)). cbn [app] in Hreg.
  destruct (MustRegister NewRegistry all) as [reg|]; [|done]. destruct Hreg as [Hreg _].
  eexists. split; [done|]. cbn [mt_registry mt_received mt_delivered mt_expired mt_authFail mt_delivery].
  rewrite Hreg. split; [done|]. split_and!; try (subst all; set_solver).
  rewrite Hall, !filter_app, (foreign_names "go_" go_names), (foreign_names "process_" process_names)
    by done. done.
Qed.
End instruments.
Arguments metrics : clear implicits.

(** ** A registry *)

(** The registry as the list of what was registered. *)
Definition sample_names : instrument → list string :=
  described ["go_goroutines"; "go_threads"] ["process_open_fds"].

#[local] Instance sample_prometheus : Prometheus (list instrument) := {|
  NewRegistry := [];
  Register reg c :=
    if decide (Forall (λ name, name ∉ concat (sample_names <$> reg)) (sample_names c))
    then Ok (reg ++ [c]) else Err (Error "duplicate metrics collector registration attempted");
  go_names := ["go_goroutines"; "go_threads"];
  process_names := ["process_open_fds"];
|}.

#[local, refine] Instance sample_laws : PrometheusLaws (list instrument) := {|
  registered reg := reg;
|}.
Proof.
  - done.
  - intros reg c. simpl. case_decide as Hnew; rewrite Forall_forall in Hnew.
    + split; [done|]. split; [|exact Hnew].
      destruct c; try apply NoDup_singleton. by apply (bool_decide_unpack _); vm_compute.
    + intros [_ Hfresh]. by apply Hnew.
  - split; [by apply (bool_decide_unpack _); vm_compute|by repeat constructor].
  - split; [apply NoDup_singleton|by repeat constructor].
Defined.

(** Ten collectors on one registry, and a second set on the same one panics. *)
Example sample_registers `{Env} :
  match newMetrics (R:=list instrument) with
  | Returned m => length (mt_registry m) = 10%nat ∧
      MustRegister (mt_registry m) [mt_received m] = Panicked
  | Panicked => False
  end.
Proof. by vm_compute. Qed.
