(* ===== verification/Subscriber.v ===== *)
(** * The Go subscriber ([src/clients/go/goctopus.go])

    The client library: a session reads frames, acknowledges each message by its
    id, drops the re-deliveries it remembers, and [Run] opens one session after
    another with a growing random delay.

    The websocket library is outside the repository.  What the client meets is an
    input: the outcome of [ws.Dial], and for each read an error, or a frame with
    the outcome of writing its acknowledgement.  A session whose inputs end is
    one that still waits for a frame.  The callback [OnMessage] is the event
    [Handed]; it is taken not to change the client.  Two programs that use one
    [Client] at a time, or change its fields while it runs, are not modelled. *)
From stdpp Require Import base numbers list gmap strings.
From S2P Require Import Prelude GoStd GoTime Utf8 Json JsonCodec Const Message.

#[local] Open Scope Z_scope.

(** ** The client *)

(** [seen] is [None] when the map is nil. *)
Record GoClient := MkGoClient {
  URL : string;
  MinBackoff : Z;
  MaxBackoff : Z;
  MaxRetries : Z;
  DedupeLimit : Z;
  seen : option (gset string);
  seenOrder : list string;
}.

Definition New (url : string) : GoClient := {|
  URL := url;
  MinBackoff := 500 * Millisecond;
  MaxBackoff := 10 * Second;
  MaxRetries := 0;
  DedupeLimit := 1000;
  seen := Some ∅;
  seenOrder := [];
|}.

Definition with_seen (c : GoClient) (s : gset string) (order : list string) : GoClient :=
  MkGoClient (URL c) (MinBackoff c) (MaxBackoff c) (MaxRetries c) (DedupeLimit c) (Some s) order.

(** [c.markSeen(id)]: whether the message is to be handed over.  Reading a nil
    map is allowed, writing it panics; [c.seenOrder[0]] is in range, since an
    element was just appended. *)
Definition markSeen (c : GoClient) (id : string) : outcome (GoClient * bool) :=
  if decide (id = EMPTY_STR) then Returned (c, true) else
  if decide (id ∈ default ∅ (seen c)) then Returned (c, false) else
  match seen c with
  | None => Panicked
  | Some s =>
    let s := {[id]} ∪ s in
    let order := seenOrder c ++ [id] in
    if DedupeLimit c <? Z.of_nat (length order) then
      match order with
      | [] => Panicked
      | oldest :: order => Returned (with_seen c (s ∖ {[oldest]}) order, true)
      end
    else Returned (with_seen c s order, true)
  end.

(** ** A session *)

Record ClientMessage := MkClientMessage { ID : string; Payload : json }.

Definition client_fields : list string := ["id"; "payload"].

Definition decode_client_member (st : ClientMessage * bool) (kv : string * json)
  : ClientMessage * bool :=
  let '(m, err) := st in
  let '(k, v) := kv in
  match find_field client_fields k with
  | None => st
  | Some f =>
    if decide (f = "id") then
      let '(s, e) := decode_string v (ID m) in (MkClientMessage s (Payload m), err || e)
    else (MkClientMessage (ID m) (decode_any v), err)
  end.

(** [json.Unmarshal(data, &m)] on a zero [Message]; [None] when it fails. *)
Definition decode_client `{JsonText} (data : string) : option ClientMessage :=
  let zero := MkClientMessage EMPTY_STR JNull in
  v ← json_parse data;
  match v with
  | JNull => Some zero
  | JObj members =>
    let '(m, err) := fold_left decode_client_member members (zero, false) in
    if (err : bool) then None else Some m
  | _ => None
  end.

(** The text of [json.Marshal(map[string]string{"id": id})]. *)
Definition ack_text `{JsonPrint} (id : string) : string := json_print (JObj [("id", JStr id)]).

(** One turn of the loop: what [ReadServerData] returns and, for a frame, what
    writing its acknowledgement returns. *)
Inductive received := ReadFails (e : error) | Frame (data : string) (written : option error).

Inductive client_event :=
| AckWritten (text : string) (err : option error)
| Handed (payload : json) (id : string).

(** How far a session went: waiting for a frame, or returned from. *)
Inductive session_state := Reading | SessionEnded (err : option error).

Section session.
Context `{JsonText, JsonPrint}.

Fixpoint read_loop (c : GoClient) (ins : list received)
  : outcome (GoClient * list client_event * session_state) :=
  match ins with
  | [] => Returned (c, [], Reading)
  | ReadFails e :: _ => Returned (c, [], SessionEnded (Some e))
  | Frame data written :: ins =>
    match decode_client data with
    | None => read_loop c ins
    | Some m =>
      let ack := AckWritten (ack_text (ID m)) written in
      match written with
      | Some e => Returned (c, [ack], SessionEnded (Some e))
      | None =>
        match markSeen c (ID m) with
        | Panicked => Panicked
        | Returned (c, fresh) =>
          match read_loop c ins with
          | Panicked => Panicked
          | Returned (c, evs, st) =>
            Returned (c, ack :: (if (fresh : bool) then [Handed (Payload m) (ID m)] else []) ++ evs, st)
          end
        end
      end
    end
  end.

Definition session (c : GoClient) (dial : option error) (ins : list received)
  : outcome (GoClient * list client_event * session_state) :=
  match dial with
  | Some e => Returned (c, [], SessionEnded (Some e))
  | None => read_loop c ins
  end.

(** ** Run *)

(** What one turn of [Run] meets: the context before the session, the dialling
    and the frames of the session, the context when the retries are exhausted,
    the source of [rand.Int63n], and whether the wait ends with the context
    ([Some]) or with the timer. *)
Record round := Round {
  ctx_before : option error;
  dial : option error;
  frames : list received;
  ctx_exhausted : option error;
  entropy : Z;
  ctx_waiting : option error;
}.

(** [rand.Int63n(n)]: any number in [0, n), by the choice of [src]; it panics when
    [n] is not positive. *)
Definition Int63n (src n : Z) : outcome Z :=
  if n <=? 0 then Panicked else Returned (src `mod` n).

(** The variables of [Run] between two turns, and the turns' results: [Run]
    waits in a session, goes on after a delay, or returns. *)
Record run_state := RunState { rs_client : GoClient; rs_backoff : Z; rs_retries : Z }.

Inductive turn := InSession (c : GoClient) | NextTurn (delay : Z) (s : run_state)
  | RunReturned (c : GoClient) (err : option error).

Definition run_turn (s : run_state) (r : round) : outcome (list client_event * turn) :=
  let c := rs_client s in
  match ctx_before r with
  | Some e => Returned ([], RunReturned c (Some e))
  | None =>
    match session c (dial r) (frames r) with
    | Panicked => Panicked
    | Returned (c, evs, Reading) => Returned (evs, InSession c)
    | Returned (c, evs, SessionEnded err) =>
      let '(backoff, retries) :=
        match err with None => (MinBackoff c, 0) | Some _ => (rs_backoff s, rs_retries s) end in
      if (0 <? MaxRetries c) && (MaxRetries c <=? retries)
      then Returned (evs, RunReturned c (ctx_exhausted r)) else
      let retries := wrap64 (retries + 1) in
      match Int63n (entropy r) (wrap64 (backoff + 1)) with
      | Panicked => Panicked
      | Returned delay =>
        match ctx_waiting r with
        | Some e => Returned (evs, RunReturned c (Some e))
        | None =>
          let backoff := wrap64 (backoff * 2) in
          let backoff := if MaxBackoff c <? backoff then MaxBackoff c else backoff in
          Returned (evs, NextTurn delay (RunState c backoff retries))
        end
      end
    end
  end.

(** The turns of a run so far: its events, the delays it waited for, and where
    it stands. *)
Fixpoint run_turns (s : run_state) (rs : list round)
  : outcome (list client_event * list Z * turn) :=
  match rs with
  | [] => Returned ([], [], NextTurn 0 s)
  | r :: rs =>
    match run_turn s r with
    | Panicked => Panicked
    | Returned (evs, NextTurn delay s) =>
      match run_turns s rs with
      | Panicked => Panicked
      | Returned (evs', delays, t) => Returned (evs ++ evs', delay :: delays, t)
      end
    | Returned (evs, t) => Returned (evs, [], t)
    end
  end.

Definition Run (c : GoClient) (rs : list round) : outcome (list client_event * list Z * turn) :=
  run_turns (RunState c (MinBackoff c) 0) rs.
End session.

(** ** What de-duplication means

    The reference keeps the whole list [kept] of the ids handed over so far: an
    id is fresh when it is empty, or not among the last [limit] of them. *)
Definition last_n {A} (n : nat) (l : list A) : list A := drop (length l - n) l.

Definition fresh (limit : nat) (kept : list string) (id : string) : bool :=
  bool_decide (id = EMPTY_STR) || negb (bool_decide (id ∈ last_n limit kept)).

Definition remember (limit : nat) (kept : list string) (id : string) : list string :=
  if bool_decide (id ≠ EMPTY_STR) && fresh limit kept id then kept ++ [id] else kept.

Fixpoint dedupe (limit : nat) (kept : list string) (ms : list ClientMessage) : list ClientMessage :=
  match ms with
  | [] => []
  | m :: ms =>
    (if fresh limit kept (ID m) then [m] else []) ++ dedupe limit (remember limit kept (ID m)) ms
  end.

Definition remembered (limit : nat) (kept : list string) (ms : list ClientMessage) : list string :=
  fold_left (λ kept m, remember limit kept (ID m)) ms kept.

(** The messages a session acknowledges successfully: the frames that decode,
    up to the first failure. *)
Section arrived.
Context `{JsonText}.

Fixpoint arrived (ins : list received) : list ClientMessage :=
  match ins with
  | [] | ReadFails _ :: _ => []
  | Frame data written :: ins =>
    match decode_client data, written with
    | None, _ => arrived ins
    | Some _, Some _ => []
    | Some m, None => m :: arrived ins
    end
  end.

Definition round_arrived (r : round) : list ClientMessage :=
  match ctx_before r, dial r with None, None => arrived (frames r) | _, _ => [] end.
End arrived.

Definition handed (evs : list client_event) : list ClientMessage :=
  omap (λ e, match e with Handed p id => Some (MkClientMessage id p) | _ => None end) evs.

(** The texts of the acknowledgements that were written. *)
Definition acknowledged (evs : list client_event) : list string :=
  omap (λ e, match e with AckWritten t None => Some t | _ => None end) evs.

(** The map and the queue agree, hold no id twice and never the empty one, and
    stay within the limit. *)
Definition window_ok (c : GoClient) : Prop :=
  seen c = Some (list_to_set (seenOrder c)) ∧ NoDup (seenOrder c) ∧
  EMPTY_STR ∉ seenOrder c ∧ Z.of_nat (length (seenOrder c)) ≤ Z.max 0 (DedupeLimit c).

Definition settings (c : GoClient) : string * Z * Z * Z * Z :=
  (URL c, MinBackoff c, MaxBackoff c, MaxRetries c, DedupeLimit c).

Definition window (c : GoClient) : nat := Z.to_nat (DedupeLimit c).

(** *** Lemmas *)

Lemma last_n_all {A} n (l : list A) : (length l ≤ n)%nat → last_n n l = l.
Proof. intros Hl. unfold last_n. by replace (length l - n)%nat with 0%nat by lia. Qed.

Lemma last_n_length {A} n (l : list A) : length (last_n n l) = Nat.min n (length l).
Proof. unfold last_n. rewrite length_drop. lia. Qed.

Lemma last_n_app {A} n (k l : list A) : (length l ≤ n)%nat → last_n n (k ++ l) = last_n (n - length l) k ++ l.
Proof.
  intros Hl. unfold last_n. rewrite length_app, drop_app_le by lia. do 2 f_equal. lia.
Qed.

Lemma last_n_idem {A} m n (l : list A) : (m ≤ n)%nat → last_n m (last_n n l) = last_n m l.
Proof. intros Hm. unfold last_n. rewrite drop_drop, length_drop. f_equal. lia. Qed.

(** Appending an element to the last [n] and keeping the last [n]. *)
Lemma last_n_snoc {A} n (l : list A) x : last_n n (last_n n l ++ [x]) = last_n n (l ++ [x]).
Proof.
  destruct n as [|n].
  - unfold last_n. rewrite !Nat.sub_0_r, !drop_all. done.
  - rewrite !last_n_app by (simpl; lia). f_equal. apply last_n_idem. simpl. lia.
Qed.

Lemma markSeen_window c id kept :
  window_ok c → seenOrder c = last_n (window c) kept →
  ∃ c', markSeen c id = Returned (c', fresh (window c) kept id) ∧ window_ok c' ∧
    settings c' = settings c ∧ seenOrder c' = last_n (window c) (remember (window c) kept id).
Proof.
  intros Hok Ho. pose proof Hok as (Hs & Hnd & Hne & Hlen). unfold markSeen, fresh, remember.
  destruct (decide (id = EMPTY_STR)) as [->|Hid].
  { exists c. rewrite (bool_decide_eq_true_2 (EMPTY_STR = EMPTY_STR)) by done.
    rewrite (bool_decide_eq_false_2 (EMPTY_STR ≠ EMPTY_STR)) by (intros Hn; by apply Hn). done. }
  rewrite (bool_decide_eq_false_2 (id = _)), (bool_decide_eq_true_2 (id ≠ _)) by done.
  rewrite Hs, <-Ho. simpl. unfold fresh.
  rewrite (bool_decide_eq_false_2 (id = _)), <-Ho by done. simpl.
  destruct (decide (id ∈ list_to_set (seenOrder c))) as [Hin|Hin]; rewrite elem_of_list_to_set in Hin.
  { exists c. by rewrite !bool_decide_eq_true_2. }
  rewrite bool_decide_eq_false_2 by done. simpl.
  assert (last_n (window c) (kept ++ [id]) = last_n (window c) (seenOrder c ++ [id])) as ->
    by by rewrite Ho, last_n_snoc.
  assert (NoDup (seenOrder c ++ [id])) as Hnd'.
  { apply NoDup_app. split_and!; [done| |apply NoDup_singleton]. by intros x Hx ->%list_elem_of_singleton. }
  assert (EMPTY_STR ∉ seenOrder c ++ [id]) as Hne'.
  { rewrite elem_of_app, list_elem_of_singleton. intros [?|<-]; done. }
  unfold window in *. rewrite length_app. simpl.
  destruct (Z.ltb_spec (DedupeLimit c) (Z.of_nat (length (seenOrder c) + 1))) as [Hl|Hl].
  - assert (length (seenOrder c) = Z.to_nat (DedupeLimit c)) as Heq by lia.
    assert (last_n (Z.to_nat (DedupeLimit c)) (seenOrder c ++ [id]) = drop 1 (seenOrder c ++ [id])) as ->.
    { unfold last_n. f_equal. rewrite length_app. simpl. lia. }
    assert (seenOrder c ++ [id] ≡ₚ id :: seenOrder c) as Hperm by by rewrite (comm (++)).
    assert ({[id]} ∪ list_to_set (seenOrder c) =@{gset string} list_to_set (seenOrder c ++ [id])) as ->
      by set_solver.
    assert (length (seenOrder c ++ [id]) = S (Z.to_nat (DedupeLimit c))) as Hlen' by (rewrite length_app; simpl; lia).
    destruct (seenOrder c ++ [id]) as [|oldest order]; [done|]. simpl in Hlen'.
    apply NoDup_cons in Hnd' as [Hold Hnd'].
    eexists. split; [done|]. split; [|by split].
    split_and!; simpl; [|done| |lia].
    + f_equal. set_solver +Hold.
    + set_solver +Hne'.
  - rewrite last_n_all by (rewrite length_app; simpl; lia).
    eexists. split; [done|]. split; [|by split].
    split_and!; simpl; [|done|done|rewrite length_app; simpl; lia].
    f_equal. set_solver +.
Qed.

(** ** Sessions and runs *)

Lemma remembered_app limit kept ms ms' :
  remembered limit kept (ms ++ ms') = remembered limit (remembered limit kept ms) ms'.
Proof. apply fold_left_app. Qed.

Lemma dedupe_app limit kept ms ms' :
  dedupe limit kept (ms ++ ms') = dedupe limit kept ms ++ dedupe limit (remembered limit kept ms) ms'.
Proof.
  revert kept. induction ms as [|m ms IH]; intros kept; [done|]. simpl.
  by rewrite IH, (assoc_L (++)).
Qed.

Lemma handed_app evs evs' : handed (evs ++ evs') = handed evs ++ handed evs'.
Proof. apply omap_app. Qed.

Lemma acknowledged_app evs evs' : acknowledged (evs ++ evs') = acknowledged evs ++ acknowledged evs'.
Proof. apply omap_app. Qed.

Section runs.
Context `{JsonText, JsonPrint}.

(** What a stretch of the client's work from [c] to [c'] did with the messages
    [ms], when the ids it had kept were [kept]. *)
Definition handles (kept : list string) (c c' : GoClient) (ms : list ClientMessage)
    (evs : list client_event) : Prop :=
  window_ok c' ∧ settings c' = settings c ∧
  seenOrder c' = last_n (window c) (remembered (window c) kept ms) ∧
  handed evs = dedupe (window c) kept ms ∧
  acknowledged evs = (λ m, ack_text (ID m)) <$> ms.

Lemma settings_window c c' : settings c' = settings c → window c' = window c.
Proof. unfold settings, window. by intros [= _ _ _ _ ->]. Qed.

Lemma handles_nil kept c :
  window_ok c → seenOrder c = last_n (window c) kept → handles kept c c [] [].
Proof. done. Qed.

Lemma handles_app kept c c1 c2 ms ms' evs evs' :
  handles kept c c1 ms evs → handles (remembered (window c) kept ms) c1 c2 ms' evs' →
  handles kept c c2 (ms ++ ms') (evs ++ evs').
Proof.
  intros (Hc1 & Hs1 & Ho1 & He1 & Ha1) (Hc2 & Hs2 & Ho2 & He2 & Ha2).
  rewrite (settings_window _ _ Hs1) in Ho2, He2.
  split_and!; [done|by rewrite Hs2|by rewrite remembered_app| |].
  - by rewrite handed_app, dedupe_app, He1, He2.
  - by rewrite acknowledged_app, fmap_app, Ha1, Ha2.
Qed.

Lemma read_loop_handles kept c ins :
  window_ok c → seenOrder c = last_n (window c) kept →
  ∃ c' evs st, read_loop c ins = Returned (c', evs, st) ∧ handles kept c c' (arrived ins) evs.
Proof.
  revert kept c. induction ins as [|[e|data written] ins IH]; intros kept c Hok Ho; simpl.
  - eexists _, _, _. split; [done|]. by apply handles_nil.
  - eexists _, _, _. split; [done|]. by apply handles_nil.
  - destruct (decode_client data) as [m|]; [|by apply IH].
    destruct written as [e|]; [eexists _, _, _; split; [done|]; by apply (handles_nil kept)|].
    destruct (markSeen_window c (ID m) kept Hok Ho) as (c1 & -> & Hok1 & Hs1 & Ho1).
    destruct (IH (remember (window c) kept (ID m)) c1 Hok1) as (c' & evs & st & -> & Hh).
    { by rewrite (settings_window _ _ Hs1). }
    eexists _, _, _. split; [done|].
    apply (handles_app kept c c1 c' [m] (arrived ins)
      (AckWritten _ None :: if fresh (window c) kept (ID m) then [Handed (Payload m) (ID m)] else [])); [|done].
    split_and!; [done..| |]; simpl; destruct (fresh _ _ _); try done. by destruct m.
Qed.

Lemma session_handles kept c d ins :
  window_ok c → seenOrder c = last_n (window c) kept →
  ∃ c' evs st, session c d ins = Returned (c', evs, st) ∧
    handles kept c c' (match d with None => arrived ins | Some _ => [] end) evs.
Proof.
  intros Hok Ho. destruct d as [e|]; simpl; [|by apply read_loop_handles].
  eexists _, _, _. split; [done|]. by apply handles_nil.
Qed.

(** No path of [session] returns a nil error. *)
Lemma session_never_succeeds c d ins c' evs err :
  session c d ins = Returned (c', evs, SessionEnded err) → is_Some err.
Proof.
  destruct d as [e|]; simpl; [by intros [= _ _ <-]|].
  revert c c' evs. induction ins as [|[e|data written] ins IH]; intros c c' evs; simpl; [done| |].
  { by intros [= _ _ <-]. }
  destruct (decode_client data) as [m|]; [|apply IH].
  destruct written as [e|]; [by intros [= _ _ <-]|].
  destruct (markSeen c (ID m)) as [[c1 ?]|]; [|done].
  destruct (read_loop c1 ins) as [[[c2 evs2] st]|] eqn:Hl; [|done]. intros [= -> _ ->].
  by apply (IH c1 _ _ Hl).
Qed.

(** The client a turn leaves. *)
Definition turn_client (t : turn) : GoClient :=
  match t with InSession c | RunReturned c _ => c | NextTurn _ s => rs_client s end.

Lemma run_turn_handles kept s r evs t :
  window_ok (rs_client s) → seenOrder (rs_client s) = last_n (window (rs_client s)) kept →
  run_turn s r = Returned (evs, t) →
  handles kept (rs_client s) (turn_client t) (round_arrived r) evs.
Proof.
  destruct s as [c backoff retries]. simpl. intros Hok Ho. unfold run_turn, round_arrived. simpl.
  destruct (ctx_before r) as [e|]; [intros [= <- <-]; by apply handles_nil|].
  destruct (session_handles kept c (dial r) (frames r) Hok Ho) as (c' & evs' & st & -> & Hh).
  assert (handles kept c c' match dial r with Some _ => [] | None => arrived (frames r) end evs') as Hh'
    by by destruct (dial r).
  destruct st as [|err]; [by intros [= <- <-]|]. destruct (match err with Some _ => _ | None => _ end).
  destruct (_ && _); [by intros [= <- <-]|]. destruct (Int63n _ _); [|done].
  destruct (ctx_waiting r); by intros [= <- <-].
Qed.

(** How many turns of [rs] a run took part in. *)
Definition turns_begun (delays : list Z) (t : turn) : nat :=
  match t with NextTurn _ _ => length delays | _ => S (length delays) end.

Lemma run_turns_handles kept s rs evs delays t :
  window_ok (rs_client s) → seenOrder (rs_client s) = last_n (window (rs_client s)) kept →
  run_turns s rs = Returned (evs, delays, t) →
  handles kept (rs_client s) (turn_client t)
    (concat (round_arrived <$> take (turns_begun delays t) rs)) evs.
Proof.
  revert kept s evs delays. induction rs as [|r rs IH]; intros kept s evs delays Hok Ho; simpl.
  { intros [= <- <- <-]. by apply handles_nil. }
  destruct (run_turn s r) as [[evs1 t1]|] eqn:Ht; [|done].
  pose proof (run_turn_handles kept s r evs1 t1 Hok Ho Ht) as Hh.
  destruct t1 as [c1|delay s1|c1 err].
  - intros [= <- <- <-]. simpl. by rewrite app_nil_r.
  - destruct (run_turns s1 rs) as [[[evs2 delays2] t2]|] eqn:Hr; [|done]. intros [= <- <- <-].
    pose proof Hh as (Hok1 & Hs1 & Ho1 & _). simpl in Hok1, Hs1, Ho1.
    rewrite <-(settings_window _ _ Hs1) in Ho1 at 1.
    specialize (IH _ s1 evs2 delays2 Hok1 Ho1 Hr).
    assert (turns_begun (delay :: delays2) t2 = S (turns_begun delays2 t2)) as -> by by destruct t2.
    simpl. by apply (handles_app kept _ (rs_client s1)).
  - intros [= <- <- <-]. simpl. by rewrite app_nil_r.
Qed.

(** *** The reference keeps ids apart, and loses none *)

Lemma remember_cases limit kept id :
  remember limit kept id = kept ∨ (id ≠ EMPTY_STR ∧ remember limit kept id = kept ++ [id]).
Proof.
  unfold remember. destruct (decide (id = EMPTY_STR)) as [->|Hid]; [by left|].
  rewrite bool_decide_eq_true_2 by done. destruct (fresh _ _ _); auto.
Qed.

Definition named (m : ClientMessage) : Prop := ID m ≠ EMPTY_STR.

#[export] Instance named_dec m : Decision (named m).
Proof. unfold named. apply _. Defined.

Lemma elem_of_last_n {A} n (k : list A) x l : (length l < n)%nat → x ∈ last_n n (k ++ x :: l).
Proof. intros Hl. rewrite last_n_app by (simpl; lia). apply elem_of_app. right. left. Qed.

(** Between [id] in [kept] and its next appearance lie [limit] other ids. *)
Lemma dedupe_gap limit k1 id k2 ms l2 m l3 :
  id ≠ EMPTY_STR → ID m = id → dedupe limit (k1 ++ id :: k2) ms = l2 ++ m :: l3 →
  (limit ≤ length k2 + length (filter named l2))%nat.
Proof.
  intros Hid Hm. revert k2 l2. induction ms as [|m1 ms IH]; intros k2 l2 Hd; simpl in Hd;
    [by destruct l2|].
  destruct (fresh limit (k1 ++ id :: k2) (ID m1)) eqn:Hf.
  - destruct l2 as [|m2 l2]; simpl in Hd; injection Hd as -> Hd.
    + rewrite Hm in Hf. unfold fresh in Hf. rewrite bool_decide_eq_false_2 in Hf by done. simpl in Hf.
      apply negb_true_iff, bool_decide_eq_false in Hf. simpl.
      destruct (decide (limit ≤ length k2)%nat); [lia|]. exfalso. apply Hf, elem_of_last_n. lia.
    + rewrite filter_cons. unfold remember in Hd. rewrite Hf, andb_true_r in Hd.
      destruct (decide (named m2)) as [Hn|Hn]; simpl.
      * rewrite bool_decide_eq_true_2, <-(assoc_L (++)) in Hd by done. apply (IH (k2 ++ [ID m2])) in Hd.
        rewrite length_app in Hd. simpl in Hd. lia.
      * rewrite bool_decide_eq_false_2 in Hd by done. by apply IH in Hd.
  - simpl in Hd. unfold remember in Hd. rewrite Hf, andb_false_r in Hd. by apply IH in Hd.
Qed.

Lemma dedupe_apart limit kept ms l1 m1 l2 m2 l3 :
  ID m1 ≠ EMPTY_STR → ID m2 = ID m1 → dedupe limit kept ms = l1 ++ m1 :: l2 ++ m2 :: l3 →
  (limit ≤ length (filter named l2))%nat.
Proof.
  intros Hid Hm. revert kept l1. induction ms as [|m ms IH]; intros kept l1; simpl; [by destruct l1|].
  destruct (fresh limit kept (ID m)) eqn:Hf; simpl; [|apply IH].
  destruct l1 as [|m0 l1]; simpl; intros [= -> Hd]; [|by apply IH in Hd].
  unfold remember in Hd. rewrite Hf, bool_decide_eq_true_2 in Hd by done. simpl in Hd.
  apply (dedupe_gap limit kept (ID m1) [] ms l2 m2 l3) in Hd; [simpl in Hd; lia|done..].
Qed.

Lemma dedupe_complete limit kept ms m :
  m ∈ ms → ID m ∈ kept ∨ ∃ m', m' ∈ dedupe limit kept ms ∧ ID m' = ID m.
Proof.
  revert kept. induction ms as [|m1 ms IH]; intros kept Hm; [by apply not_elem_of_nil in Hm|]. simpl.
  apply elem_of_cons in Hm as [<-|Hm].
  - destruct (fresh limit kept (ID m)) eqn:Hf; simpl; [right; exists m; split; [left|done]|].
    left. unfold fresh in Hf. apply orb_false_iff in Hf as [_ Hf].
    apply negb_false_iff, bool_decide_eq_true in Hf. unfold last_n in Hf.
    rewrite <-(take_drop (length kept - limit) kept). apply elem_of_app. by right.
  - destruct (IH (remember limit kept (ID m1)) Hm) as [Hin|(m' & Hin & Heq)].
    + destruct (remember_cases limit kept (ID m1)) as [Hr|[Hne Hr]]; rewrite Hr in Hin; [by left|].
      apply elem_of_app in Hin as [?|Hin%list_elem_of_singleton]; [by left|].
      destruct (decide (ID m1 ∈ kept)) as [Hk|Hk]; [left; by rewrite Hin|].
      right. exists m1. split; [|done].
      unfold fresh. rewrite (bool_decide_eq_false_2 (_ ∈ last_n _ _)).
      * rewrite orb_true_r. left.
      * intros Hl. apply Hk. unfold last_n in Hl.
        rewrite <-(take_drop (length kept - limit) kept). apply elem_of_app. by right.
    + right. exists m'. split; [|done]. apply elem_of_app. by right.
Qed.

(** *** The delays *)

(** The bound of the delay after turn [i]. *)
Definition ceiling (c : GoClient) (i : nat) : Z :=
  match i with O => MinBackoff c | S _ => Z.min (MaxBackoff c) (MinBackoff c * 2 ^ Z.of_nat i) end.

Definition backoff_ok (c : GoClient) : Prop :=
  0 ≤ MinBackoff c < 2 ^ 62 ∧ 0 ≤ MaxBackoff c < 2 ^ 62.

Lemma ceiling_bounds c i : backoff_ok c → 0 ≤ ceiling c i < 2 ^ 62.
Proof.
  intros [H1 H2]. destruct i as [|i]; [done|]. unfold ceiling.
  pose proof (Z.pow_pos_nonneg 2 (Z.of_nat (S i))). nia.
Qed.

Lemma ceiling_next c i :
  backoff_ok c →
  (if MaxBackoff c <? wrap64 (ceiling c i * 2) then MaxBackoff c else wrap64 (ceiling c i * 2)) =
  ceiling c (S i).
Proof.
  intros Hok. pose proof (ceiling_bounds c i Hok) as Hc. destruct Hok as [H1 H2].
  rewrite wrap64_id by (unfold in_int64, min_int64, max_int64, two63; lia).
  assert (ceiling c (S i) = Z.min (MaxBackoff c) (ceiling c i * 2)) as ->.
  { unfold ceiling at 1. rewrite Nat2Z.inj_succ, Z.pow_succ_r by lia. destruct i as [|i]; [simpl; lia|].
    unfold ceiling. lia. }
  destruct (Z.ltb_spec (MaxBackoff c) (ceiling c i * 2)); lia.
Qed.

Lemma Int63n_range src n : 0 < n → ∃ d, Int63n src n = Returned d ∧ 0 ≤ d < n.
Proof.
  intros Hn. unfold Int63n. destruct (Z.leb_spec n 0); [lia|].
  eexists. split; [done|]. by apply Z.mod_pos_bound.
Qed.

Lemma window_self c : window_ok c → seenOrder c = last_n (window c) (seenOrder c).
Proof. intros (_ & _ & _ & Hl). rewrite last_n_all; [done|]. unfold window. lia. Qed.

Lemma run_turn_total c i s r :
  backoff_ok c → window_ok (rs_client s) → settings (rs_client s) = settings c →
  rs_backoff s = ceiling c i →
  ∃ evs t, run_turn s r = Returned (evs, t) ∧
    window_ok (turn_client t) ∧ settings (turn_client t) = settings c ∧
    ∀ d s', t = NextTurn d s' →
      0 ≤ d ≤ ceiling c i ∧ rs_backoff s' = ceiling c (S i) ∧
      rs_retries s' = wrap64 (rs_retries s + 1) ∧
      (0 < MaxRetries c → rs_retries s < MaxRetries c).
Proof.
  destruct s as [c0 backoff retries]. simpl. intros Hok Hw Hset ->. unfold run_turn. simpl.
  destruct (ctx_before r) as [e|]; [by eexists _, (RunReturned _ _)|].
  destruct (session_handles (seenOrder c0) c0 (dial r) (frames r) Hw (window_self _ Hw))
    as (c' & evs & st & Hs & Hw' & Hset' & _).
  rewrite Hs. rewrite Hset in Hset'. destruct st as [|err]; [by eexists _, (InSession _)|].
  apply session_never_succeeds in Hs as [failure ->].
  assert (MaxRetries c' = MaxRetries c ∧ MaxBackoff c' = MaxBackoff c) as [-> ->]
    by (unfold settings in Hset'; by simplify_eq).
  destruct (_ && _) eqn:Hretry; [by eexists _, (RunReturned _ _)|].
  pose proof (ceiling_bounds c i Hok) as Hc.
  rewrite (wrap64_id (ceiling c i + 1)) by (unfold in_int64, min_int64, max_int64, two63; lia).
  destruct (Int63n_range (entropy r) (ceiling c i + 1)) as (d & -> & Hd); [lia|].
  destruct (ctx_waiting r) as [e|]; [by eexists _, (RunReturned _ _)|].
  rewrite ceiling_next by done. eexists _, (NextTurn _ _). split; [done|]. split; [done|]. split; [done|].
  intros d' s' [= <- <-]. simpl. split_and!; [lia|lia|done|done|].
  intros Hm. apply andb_false_iff in Hretry as [Hr|Hr]; [apply Z.ltb_ge in Hr|apply Z.leb_gt in Hr]; lia.
Qed.

(** The turns of a run from turn [i] on. *)
Lemma run_turns_total c i s rs :
  backoff_ok c → window_ok (rs_client s) → settings (rs_client s) = settings c →
  rs_backoff s = ceiling c i →
  ∃ evs delays t, run_turns s rs = Returned (evs, delays, t) ∧
    (∀ j d, delays !! j = Some d → 0 ≤ d ≤ ceiling c (i + j)) ∧
    (∀ d s', t = NextTurn d s' →
      length delays = length rs ∧ rs_backoff s' = ceiling c (i + length delays)) ∧
    (0 < MaxRetries c ≤ max_int64 → 0 ≤ rs_retries s ≤ MaxRetries c →
      rs_retries s + Z.of_nat (length delays) ≤ MaxRetries c).
Proof.
  intros Hok. revert i s. induction rs as [|r rs IH]; intros i s Hw Hset Hb; simpl.
  { eexists _, _, _. split; [done|]. split; [done|]. split.
    - intros d s' [= _ <-]. by rewrite Nat.add_0_r.
    - simpl. lia. }
  destruct (run_turn_total c i s r Hok Hw Hset Hb) as (evs & t & -> & Hw1 & Hset1 & Hnext).
  destruct t as [c1|d s1|c1 err].
  1, 3: eexists _, _, _; split; [done|]; split; [done|]; split; [done|]; simpl; lia.
  destruct (Hnext d s1 eq_refl) as (Hd & Hb1 & Hr1 & Hlt).
  destruct (IH (S i) s1 Hw1 Hset1 Hb1) as (evs2 & delays & t & -> & Hdel & Hlast & Hmax).
  eexists _, _, _. split; [done|]. split_and!.
  - intros [|j] d' Hj; simpl in Hj; [injection Hj as <-; by rewrite Nat.add_0_r|].
    rewrite <-Nat.add_succ_comm. by apply Hdel.
  - intros d' s' ->. destruct (Hlast d' s' eq_refl) as [Hl ->]. simpl. split; [by rewrite Hl|].
    by rewrite <-Nat.add_succ_comm.
  - intros Hm Hr. specialize (Hlt (proj1 Hm)). simpl length. rewrite Hr1 in Hmax.
    rewrite wrap64_id in Hmax by (unfold in_int64, min_int64, max_int64, two63 in *; lia). lia.
Qed.

(** ** The theorems *)

(** A client before its first session: what [New] gives, with any settings. *)
Definition unused (c : GoClient) : Prop := seen c = Some ∅ ∧ seenOrder c = [].

Lemma unused_window c : unused c → window_ok c ∧ seenOrder c = last_n (window c) [].
Proof.
  intros [Hs Ho]. unfold window_ok. rewrite Hs, Ho.
  split_and!; [done|apply NoDup_nil_2|apply not_elem_of_nil|simpl; lia|done].
Qed.

(** C29: Across all its sessions a client hands over exactly the messages the
    reference keeps, in order: each message that arrives, except one whose id is
    among the last [DedupeLimit] handed over; and it acknowledges every message
    that arrives, the re-deliveries included.  Its map and its queue agree. *)
Theorem Run_dedupes c rs evs delays t :
  unused c → Run c rs = Returned (evs, delays, t) →
  let ms := concat (round_arrived <$> take (turns_begun delays t) rs) in
  handed evs = dedupe (window c) [] ms ∧
  acknowledged evs = (λ m, ack_text (ID m)) <$> ms ∧
  window_ok (turn_client t) ∧
  seenOrder (turn_client t) = last_n (window c) (remembered (window c) [] ms).
Proof.
  intros [Hok Ho]%unused_window Hr. unfold Run in Hr.
  destruct (run_turns_handles [] (RunState c (MinBackoff c) 0) rs evs delays t Hok Ho Hr)
    as (Hw & _ & Hord & Hh & Ha). done.
Qed.

(** A client hands over two messages of the same id only when at least
    [DedupeLimit] others with an id came between them, and of every message with
    an id that arrives one with that id is handed over. *)
Theorem Run_hands_over_once c rs evs delays t :
  unused c → Run c rs = Returned (evs, delays, t) →
  (∀ l1 m1 l2 m2 l3, handed evs = l1 ++ m1 :: l2 ++ m2 :: l3 →
     ID m1 ≠ EMPTY_STR → ID m2 = ID m1 → (window c ≤ length (filter named l2))%nat) ∧
  (∀ m, m ∈ concat (round_arrived <$> take (turns_begun delays t) rs) →
     ∃ m', m' ∈ handed evs ∧ ID m' = ID m).
Proof.
  intros [Hok Ho]%unused_window Hr. unfold Run in Hr.
  destruct (run_turns_handles [] (RunState c (MinBackoff c) 0) rs evs delays t Hok Ho Hr)
    as (_ & _ & _ & Hh & _). simpl in Hh. rewrite Hh. split.
  - intros l1 m1 l2 m2 l3 Hd Hne Hid. by eapply dedupe_apart.
  - intros m Hm. destruct (dedupe_complete (window c) [] _ _ Hm) as [Hn|Hm']; [|done].
    by apply not_elem_of_nil in Hn.
Qed.

(** C40: With bounds below 2^62 ns a run never panics, whatever its sessions
    meet; the delay after turn [i] is at most [MinBackoff * 2^i], cut at
    [MaxBackoff] from the second on.  The bound depends on the number of the turn
    only: a session that worked does not reset it. *)
Theorem Run_backoff c rs :
  window_ok c → backoff_ok c →
  ∃ evs delays t, Run c rs = Returned (evs, delays, t) ∧
    (∀ i d, delays !! i = Some d → 0 ≤ d ≤ ceiling c i) ∧
    ∀ d s, t = NextTurn d s → rs_backoff s = ceiling c (length rs).
Proof.
  intros Hw Hok.
  destruct (run_turns_total c 0 (RunState c (MinBackoff c) 0) rs Hok Hw eq_refl eq_refl)
    as (evs & delays & t & Hr & Hd & Hlast & _).
  exists evs, delays, t. split; [done|]. split; [done|].
  intros d s Ht. destruct (Hlast d s Ht) as [<- ->]. done.
Qed.

(** With [MaxRetries] set, a run opens at most [MaxRetries + 1] sessions in
    its whole life, those that worked included: given more turns than that, it has
    returned or waits in a session. *)
Theorem Run_gives_up c rs :
  window_ok c → backoff_ok c → 0 < MaxRetries c ≤ max_int64 → MaxRetries c < Z.of_nat (length rs) →
  ∃ evs delays t, Run c rs = Returned (evs, delays, t) ∧
    Z.of_nat (turns_begun delays t) ≤ MaxRetries c + 1 ∧
    ((∃ c', t = InSession c') ∨ ∃ c' err, t = RunReturned c' err).
Proof.
  intros Hw Hok Hmax Hlen.
  destruct (run_turns_total c 0 (RunState c (MinBackoff c) 0) rs Hok Hw eq_refl eq_refl)
    as (evs & delays & t & Hr & _ & Hlast & Hbound).
  specialize (Hbound Hmax). simpl in Hbound.
  exists evs, delays, t. split; [done|]. destruct t as [c'|d s|c' err]; simpl.
  - split; [lia|]. left. by eexists.
  - destruct (Hlast d s eq_refl) as [Hl _]. lia.
  - split; [lia|]. right. by eexists _, _.
Qed.
End runs.
