(* ===== verification/Interop.v ===== *)
(** * The gateway and its Go subscriber

    What the gateway writes to a connection is what the client library reads,
    and the acknowledgement the library writes back is one the gateway's
    [handleAck] attributes to the message.  The second part runs the client on
    concrete inputs. *)
From stdpp Require Import base numbers list gmap strings.
From S2P Require Import Prelude GoStd GoTime Utf8 Json JsonCodec Const Message Stored.
From S2P Require Import SampleText Subscriber Storage Prog Engine Simulate.

#[local] Open Scope Z_scope.

Section interop.
Context `{UuidLib, TimeText, TimeParse, JsonText, JsonPrint, !TextLaws, !JsonLaws}.

(** A message that [unmarshal] accepted from a POST. *)
Definition accepted (defaultExpire : string) (m : Message) : Prop :=
  ∃ data now rnd, unmarshal data defaultExpire now rnd = Returned (Ok m).

(** The message a client makes of the frame of [m]. *)
Definition client_view (m : Message) : ClientMessage :=
  MkClientMessage (uuid_String (m_id m)) (marshal_any (m_Value m)).

Lemma decode_frame id v :
  valid_utf8 id = true → valid_json v = true → distinct_json v = true →
  decode_client (json_print (JObj [("id", JStr id); ("payload", marshal_any v)])) =
  Some (MkClientMessage id (marshal_any v)).
Proof.
  intros Hid Hv Hd. unfold decode_client. rewrite parse_print.
  - cbn [clean_json fmap list_fmap fst snd mbind option_bind fold_left].
    rewrite (utf8_clean_valid id) by done.
    change (utf8_clean "id") with "id". change (utf8_clean "payload") with "payload".
    unfold decode_client_member at 2. cbn [find_field].
    change (find_field client_fields "id") with (Some "id"). simpl.
    change (find_field client_fields "payload") with (Some "payload"). simpl.
    by rewrite any_round_trip.
  - simpl. rewrite valid_finite; [done|]. by apply valid_marshal_any.
Qed.

Lemma ack_id_text u : ack_id (ack_text (uuid_String u)) = Some u.
Proof.
  unfold ack_id, ack_text. rewrite parse_print by done.
  cbn [clean_json fmap list_fmap fst snd]. change (utf8_clean "id") with "id".
  rewrite utf8_clean_valid by apply ascii_uuid. simpl. apply parse_uuid.
Qed.

(** What the frame of a message needs to be read back. *)
Definition presentable (m : Message) : Prop :=
  valid_json (m_Value m) = true ∧ distinct_json (m_Value m) = true.

Lemma accepted_presentable defaultExpire m :
  valid_utf8 defaultExpire = true → accepted defaultExpire m → presentable m.
Proof.
  intros Hdef (data & now & rnd & Hm).
  by destruct (unmarshal_valid _ _ _ _ _ Hm Hdef) as (_ & Hv & Hd & _).
Qed.

Lemma arrived_frames ms docs :
  Forall presentable ms → Forall2 (λ m doc, marshal m false = Ok doc) ms docs →
  arrived ((λ doc, Frame (json_print doc) None) <$> docs) = client_view <$> ms.
Proof.
  intros Ha. induction 1 as [|m doc ms docs Hdoc _ IH]; [done|].
  apply Forall_cons in Ha as [[Hv Hd] Ha].
  rewrite marshal_short in Hdoc. injection Hdoc as <-. rewrite !fmap_cons. cbn [arrived].
  rewrite decode_frame; [by rewrite IH|apply ascii_uuid|exact Hv|exact Hd].
Qed.

(** What a session makes of the frames of messages. *)
Lemma frames_acknowledged c ms docs :
  unused c → Forall presentable ms → Forall2 (λ m doc, marshal m false = Ok doc) ms docs →
  ∃ c' evs st,
    session c None ((λ doc, Frame (json_print doc) None) <$> docs) = Returned (c', evs, st) ∧
    ack_id <$> acknowledged evs = Some ∘ m_id <$> ms ∧
    acknowledged evs = ack_text ∘ uuid_String ∘ m_id <$> ms ∧
    handed evs = dedupe (window c) [] (client_view <$> ms).
Proof.
  intros [Hok Ho]%unused_window Ha Hdocs.
  destruct (session_handles [] c None ((λ doc, Frame (json_print doc) None) <$> docs) Hok Ho)
    as (c' & evs & st & Hs & _ & _ & _ & Hh & Hack).
  rewrite (arrived_frames ms) in Hh, Hack by done. rewrite <-list_fmap_compose in Hack.
  exists c', evs, st. split; [exact Hs|]. split; [|by split].
  rewrite Hack, <-list_fmap_compose. apply list_fmap_ext. intros i m _.
  apply (ack_id_text (m_id m)).
Qed.

(** A subscriber that reads the frames of posted messages acknowledges each
    of them, in order, with a text the gateway attributes to that message, and
    hands over their ids and values, re-deliveries removed. *)
Theorem subscriber_acknowledges defaultExpire c ms docs :
  unused c → valid_utf8 defaultExpire = true → Forall (accepted defaultExpire) ms →
  Forall2 (λ m doc, marshal m false = Ok doc) ms docs →
  ∃ c' evs st,
    session c None ((λ doc, Frame (json_print doc) None) <$> docs) = Returned (c', evs, st) ∧
    ack_id <$> acknowledged evs = Some ∘ m_id <$> ms ∧
    handed evs = dedupe (window c) [] (client_view <$> ms).
Proof.
  intros Hc Hdef Ha Hdocs.
  destruct (frames_acknowledged c ms docs) as (c' & evs & st & ? & ? & _ & ?); [done| |done|].
  - eapply Forall_impl; [exact Ha|]. intros m. by apply accepted_presentable.
  - by exists c', evs, st.
Qed.
End interop.

(** ** The client on concrete inputs *)

Import SampleText.

Definition small_window : GoClient := MkGoClient "ws://gateway" 1 8 2 1 (Some ∅) [].

Definition frame_of (id : string) : received :=
  Frame (json_print (JObj [("id", JStr id); ("payload", JBool true)])) None.

(** Three sessions: a re-delivery, a cut after two messages, a refused dial. *)
Definition sample_rounds : list round := [
  Round None None [frame_of "a"; frame_of "a"; frame_of "b"; ReadFails (Error "cut")] None 0 None;
  Round None None [frame_of "a"; frame_of "c"; ReadFails (Error "cut")] None 5 None;
  Round None (Some (Error "refused")) [] None 2 None
].

Lemma Run_dedupes_witness :
  ∃ evs delays t, Run small_window sample_rounds = Returned (evs, delays, t) ∧
    (ID <$> handed evs) = ["a"; "b"; "a"; "c"] ∧
    let ms := concat (round_arrived <$> take (turns_begun delays t) sample_rounds) in
    handed evs = dedupe (window small_window) [] ms ∧
    acknowledged evs = (λ m, ack_text (ID m)) <$> ms ∧
    window_ok (turn_client t) ∧
    seenOrder (turn_client t) = last_n (window small_window) (remembered (window small_window) [] ms).
Proof.
  eexists _, _, _. split; [vm_compute; reflexivity|]. split; [vm_compute; reflexivity|].
  apply (Run_dedupes small_window sample_rounds); [by split|]. vm_compute. reflexivity.
Defined.

Lemma Run_hands_over_once_witness :
  ∃ evs delays t, Run small_window sample_rounds = Returned (evs, delays, t) ∧
  (∀ l1 m1 l2 m2 l3, handed evs = l1 ++ m1 :: l2 ++ m2 :: l3 →
     ID m1 ≠ EMPTY_STR → ID m2 = ID m1 → (window small_window ≤ length (filter named l2))%nat) ∧
  (∀ m, m ∈ concat (round_arrived <$> take (turns_begun delays t) sample_rounds) →
     ∃ m', m' ∈ handed evs ∧ ID m' = ID m).
Proof.
  eexists _, _, _. split; [vm_compute; reflexivity|].
  apply (Run_hands_over_once small_window sample_rounds); [by split|]. vm_compute. reflexivity.
Defined.

Lemma small_window_ok : window_ok small_window ∧ backoff_ok small_window.
Proof.
  split; [by apply unused_window|]. unfold backoff_ok. simpl. lia.
Qed.

Lemma Run_backoff_witness :
  ∃ evs delays t, Run small_window sample_rounds = Returned (evs, delays, t) ∧
    (∀ i d, delays !! i = Some d → 0 ≤ d ≤ ceiling small_window i) ∧
    ∀ d s, t = NextTurn d s → rs_backoff s = ceiling small_window (length sample_rounds).
Proof. apply Run_backoff; apply small_window_ok. Defined.

(** Two sessions that delivered messages count against [MaxRetries]. *)
Lemma Run_gives_up_witness :
  ∃ evs delays t, Run small_window sample_rounds = Returned (evs, delays, t) ∧
    Z.of_nat (turns_begun delays t) ≤ 2 + 1 ∧
    ((∃ c', t = InSession c') ∨ ∃ c' err, t = RunReturned c' err).
Proof.
  apply (Run_gives_up small_window); [apply small_window_ok..|split|]; vm_compute; congruence.
Defined.

Definition sample_message : Message :=
  MkMessage Demo.mid "a.b" [] "" (JArr [JStr "x"; JNull]) "10m" 0.

Definition sample_body : string :=
  json_print (JObj [("key", JStr "a.b"); ("value", JArr [JStr "x"; JNull])]).

Lemma subscriber_acknowledges_witness :
  ∃ c' evs st,
    session small_window None
      ((λ doc, Frame (json_print doc) None) <$>
       [JObj [("id", JStr (uuid_String Demo.mid)); ("payload", JArr [JStr "x"; JNull])]])
      = Returned (c', evs, st) ∧
    ack_id <$> acknowledged evs = [Some Demo.mid] ∧
    handed evs = dedupe (window small_window) [] [client_view sample_message].
Proof.
  apply (subscriber_acknowledges "10m" small_window [sample_message]).
  - by split.
  - reflexivity.
  - constructor; [|constructor]. exists (Ok sample_body), 0, (Ok Demo.mid).
    vm_compute. reflexivity.
  - constructor; [|constructor]. vm_compute. reflexivity.
Defined.
