(* ===== verification/EndToEnd.v ===== *)
(** * The gateway and its subscriber as one system

    A flush of the gateway ([engine.go]), a session of the Go subscriber
    ([clients/go/goctopus.go]) on the frames it wrote, and the gateway's read loop
    ([client.go]) on the acknowledgements that come back: the three
    programs, each on what the one before it sent. *)
From stdpp Require Import base numbers list gmap strings.
From S2P Require Import Prelude GoStd GoTime Utf8 Topics Json JsonCodec Const Message Stored Storage.
From S2P Require Import MemoryStorage SampleText Config Client Authorizer Prog Engine Server System.
From S2P Require Import Subscriber Simulate Operations Fanout Interop.

#[local] Open Scope Z_scope.

Section end_to_end.
Context `{UuidLib, TimeText, TimeParse, JsonText, JsonPrint, !TextLaws, !JsonLaws, Env}.
Context (cfg : Config).
Implicit Types (g : Goctopus MemoryStorage).

(** ** The wire *)

(** The text frames of a connection as the subscriber reads them. *)
Definition on_the_wire (fs : list frame) : list received :=
  omap (λ f, match f with FText doc => Some (Frame (json_print doc) None) | _ => None end) fs.

(** The acknowledgements as the read loop meets them. *)
Definition coming_back (texts : list string) : list input :=
  (λ t, InMessage OpText t None) <$> texts.

(** The queue of [key] without the messages [ids]. *)
Definition drained (key : string) (ids : list uuid) (q : queues) : queues :=
  λ k id, if decide (k = key ∧ id ∈ ids) then None else q k id.

(** ** What a connection that is free receives *)

Lemma offer_all_spec key ms cl :
  NoDup (m_id <$> ms) → c_closed cl = false → (∀ m, m ∈ ms → c_inflight cl !! m_id m = None) →
  let cl' := offer_all key ms cl in
  c_closed cl' = false ∧ c_compress cl' = c_compress cl ∧
  c_out cl' = c_out cl ++ (FText ∘ short <$> ms) ∧
  ∀ id, c_inflight cl' !! id = if decide (id ∈ m_id <$> ms) then Some key else c_inflight cl !! id.
Proof.
  revert cl. induction ms as [|m ms IH]; intros cl Hnd Hopen Hfree; cbv zeta.
  { simpl. by rewrite app_nil_r. }
  rewrite fmap_cons in Hnd. apply NoDup_cons in Hnd as [Hm Hnd].
  change (offer_all key (m :: ms) cl) with (offer_all key ms (offer key m cl)).
  assert (offer key m cl = MkClient (c_keys cl) (c_writeTimeout cl) (c_compress cl)
    (<[m_id m := key]> (c_inflight cl)) false (c_out cl ++ [FText (short m)])) as ->.
  { unfold offer. rewrite Hopen, Hfree by (by left). done. }
  set (cl1 := MkClient _ _ _ _ _ _). destruct (IH cl1 Hnd eq_refl) as (Ho & Hz & Hout & Hin).
  { intros m' Hm'. simpl. rewrite lookup_insert_ne; [apply Hfree; by right|].
    intros Heq. apply Hm. rewrite Heq. by apply list_elem_of_fmap_2. }
  split; [exact Ho|]. split; [exact Hz|]. split.
  - rewrite Hout. simpl. by rewrite <-(assoc_L (++)).
  - intros id. rewrite Hin. simpl.
    destruct (decide (id = m_id m)) as [->|Hne].
    + rewrite lookup_insert_eq, decide_False by done. by rewrite decide_True by (by left).
    + rewrite lookup_insert_ne by done.
      destruct (decide (id ∈ m_id <$> ms)) as [Hin'|Hin'].
      * by rewrite decide_True by (by right).
      * rewrite decide_False; [done|]. by intros [?|?]%elem_of_cons.
Qed.

(** ** What the subscriber hands over *)

Lemma uuid_String_inj u v : uuid_String u = uuid_String v → u = v.
Proof. intros Heq. assert (Some u = Some v) as [= ->]; [|done]. by rewrite <-!parse_uuid, Heq. Qed.

(** Messages with distinct ids are all new to an empty window. *)
Lemma dedupe_distinct limit kept ms :
  NoDup (ID <$> ms) → (∀ m, m ∈ ms → ID m ∉ kept) → dedupe limit kept ms = ms.
Proof.
  revert kept. induction ms as [|m ms IH]; intros kept Hnd Hout; [done|].
  rewrite fmap_cons in Hnd. apply NoDup_cons in Hnd as [Hm Hnd]. simpl.
  assert (fresh limit kept (ID m) = true) as Hf.
  { unfold fresh. apply orb_true_iff. right. apply negb_true_iff, bool_decide_eq_false.
    intros Hin. apply (Hout m); [by left|]. unfold last_n in Hin.
    rewrite <-(take_drop (length kept - limit) kept). apply elem_of_app. by right. }
  rewrite Hf. simpl. f_equal. apply IH; [done|]. intros m' Hm' Hin.
  unfold remember in Hin. rewrite Hf in Hin.
  destruct (bool_decide (ID m ≠ EMPTY_STR)); simpl in Hin; [|by apply (Hout m'); [right|]].
  apply elem_of_app in Hin as [Hin|Heq%list_elem_of_singleton]; [by apply (Hout m'); [right|]|].
  apply Hm. rewrite <-Heq. by apply list_elem_of_fmap_2.
Qed.

Lemma client_views_distinct ms :
  NoDup (m_id <$> ms) → NoDup (ID <$> (client_view <$> ms)).
Proof.
  intros Hnd. rewrite <-list_fmap_compose.
  change (ID ∘ client_view) with (uuid_String ∘ m_id). rewrite list_fmap_compose.
  by apply (NoDup_fmap_2_strong uuid_String); [intros u v _ _; apply uuid_String_inj|].
Qed.

(** ** What the acknowledgements do *)

Lemma accept_plain compress t :
  str_len t ≤ MaxMessageBytes cfg < max_int64 → accept_payload cfg compress t None = Some t.
Proof.
  intros [Ht Hmax]. unfold accept_payload, read_limited.
  assert (0 ≤ str_len t) by (unfold str_len; lia).
  rewrite wrap64_id by (unfold in_int64, min_int64, max_int64, two63 in *; lia).
  rewrite str_take_all by (unfold str_len in *; lia).
  destruct (Z.ltb_spec (MaxMessageBytes cfg) (str_len t)); [lia|done].
Qed.

Lemma acks_run c compress key ms texts cl g :
  mem_ok (g_storage g) → g_clients g !! c = Some cl →
  NoDup (m_id <$> ms) → (∀ m, m ∈ ms → c_inflight cl !! m_id m = Some key) →
  ack_id <$> texts = Some ∘ m_id <$> ms →
  Forall (λ t, str_len t ≤ MaxMessageBytes cfg) texts → MaxMessageBytes cfg < max_int64 →
  let g' := (run cfg (read_frames cfg c compress (coming_back texts)) g).1 in
  stored_queues g' ≡ drained key (m_id <$> ms) (stored_queues g) ∧
  g_metrics g' Delivered = g_metrics g Delivered + Z.of_nat (length ms) ∧
  ∃ cl', g_clients g' !! c = Some cl' ∧
    ∀ id, c_inflight cl' !! id = if decide (id ∈ m_id <$> ms) then None else c_inflight cl !! id.
Proof.
  revert texts cl g. induction ms as [|m ms IH]; intros [|t texts] cl g Hok Hc Hnd Hin Hacks Hlen Hmax;
    try discriminate; cbv zeta.
  { assert (∀ id : uuid, id ∉ m_id <$> []) as Hno by (intros id; apply not_elem_of_nil).
    split; [intros k id; unfold drained; by rewrite decide_False by (by intros [_ ?%Hno])|].
    split; [simpl; lia|]. exists cl. split; [done|]. intros id. by rewrite decide_False by apply Hno. }
  rewrite fmap_cons in Hnd. apply NoDup_cons in Hnd as [Hm Hnd].
  rewrite !fmap_cons in Hacks. injection Hacks as Hack Hacks. apply Forall_cons in Hlen as [Ht Hlen].
  unfold coming_back. rewrite fmap_cons. cbn [read_frames].
  rewrite accept_plain by done. rewrite run_bind.
  destruct (handleAck_run cfg c cl t g Hok Hc) as (Hok1 & Hack1).
  set (g1 := (run cfg (handleAck c t) g).1) in *. rewrite Hack in Hack1. simpl in Hack1.
  rewrite (Hin m) in Hack1 by (by left). destruct Hack1 as (Hmet & Hq & Hcl).
  assert (g_clients g1 !! c = Some (set_inflight cl (delete (m_id m) (c_inflight cl)))) as Hc1
    by (by rewrite Hcl, lookup_insert_eq).
  destruct (IH texts _ g1 Hok1 Hc1 Hnd) as (Hq' & Hmet' & cl' & Hc' & Hin'); try done.
  { intros m' Hm'. simpl. rewrite lookup_delete_ne; [apply Hin; by right|].
    intros Heq. apply Hm. rewrite Heq. by apply list_elem_of_fmap_2. }
  fold (coming_back texts). split; [|split].
  - intros k id. rewrite (Hq' k id). unfold drained. rewrite (Hq k id). unfold q_del. rewrite fmap_cons.
    destruct (decide (k = key ∧ id ∈ m_id <$> ms)) as [[-> Hid]|Hn].
    + by rewrite decide_True by (by split; [|right]).
    + destruct (decide (k = key ∧ id = m_id m)) as [[-> ->]|Hn'].
      * by rewrite decide_True by (by split; [|left]).
      * rewrite decide_False; [done|]. intros [-> [->|?]%elem_of_cons]; tauto.
  - rewrite Hmet', Hmet. cbn [length]. lia.
  - exists cl'. split; [done|]. intros id. rewrite Hin'. simpl.
    destruct (decide (id = m_id m)) as [->|Hne].
    + rewrite decide_False, lookup_delete_eq by done. by rewrite decide_True by (by left).
    + rewrite lookup_delete_ne by done. destruct (decide (id ∈ m_id <$> ms)) as [?|?].
      * by rewrite decide_True by (by right).
      * rewrite decide_False; [done|]. by intros [?|?]%elem_of_cons.
Qed.

(** ** The round trip *)

Lemma on_the_wire_short ms :
  on_the_wire (FText ∘ short <$> ms) = (λ doc, Frame (json_print doc) None) <$> (short <$> ms).
Proof.
  induction ms as [|m ms IH]; [done|]. rewrite !fmap_cons, <-IH. done.
Qed.

Lemma short_docs ms : Forall2 (λ m doc, marshal m false = Ok doc) ms (short <$> ms).
Proof. induction ms as [|m ms IH]; [constructor|]. constructor; [apply marshal_short|exact IH]. Qed.

(** C14: The network works, the clock does not run backwards, and an open connection
    that has none of the queue of [key] in flight has a new subscriber at its
    other end.  A flush of the key, a session of the subscriber on the frames
    that were written, and the read loop on the acknowledgements that come back
    make a round trip: the subscriber hands over the messages that were alive,
    each once, in queue order; exactly these are gone from the queue and from
    the in-flight table, and are counted as delivered. *)
Theorem subscriber_drains_queue key c cl gc defaultExpire g :
  (∀ n, env_net n = true) → (∀ n, env_clock n ≤ env_clock (S n)) →
  sendLock key ∉ g_sendLocks g → mem_ok (g_storage g) →
  g_clients g !! c = Some cl → c_closed cl = false →
  c ∈ clientsForKey (g_Conns g) (range_order (S (g_tick g)) (g_patterns g)) key →
  let q := default [] (storage (g_storage g) !! key) in
  (∀ m, m ∈ q → c_inflight cl !! m_id m = None) →
  valid_utf8 defaultExpire = true →
  Forall (λ m, ∃ m0, accepted defaultExpire m0 ∧ m = with_Key m0 key) q →
  unused gc → MaxMessageBytes cfg < max_int64 →
  Forall (λ m, str_len (ack_text (uuid_String (m_id m))) ≤ MaxMessageBytes cfg) q →
  let g1 := (run cfg (sendMessages key) g).1 in
  ∃ live cl1 gc' evs st,
    live_part q live (g_tick g) (g_tick g1) ∧ g_clients g1 !! c = Some cl1 ∧
    session gc None (on_the_wire (drop (length (c_out cl)) (c_out cl1))) = Returned (gc', evs, st) ∧
    handed evs = client_view <$> live ∧
    let g2 := (run cfg (read_frames cfg c (c_compress cl1) (coming_back (acknowledged evs))) g1).1 in
    stored_queues g2 ≡ drained key (m_id <$> live) (stored_queues g) ∧
    g_metrics g2 Delivered = g_metrics g Delivered + Z.of_nat (length live) ∧
    ∃ cl2, g_clients g2 !! c = Some cl2 ∧ c_inflight cl2 = c_inflight cl.
Proof.
  intros Hnet Hclk Hlock Hok Hc Hopen Hfan q Hfree Hdef Hq Hgc Hmax Hfit g1.
  destruct (flush_run cfg key g Hnet Hclk Hlock) as ((Hs & _ & _ & _ & Hmet & _) & live & Hlive & Hcl).
  fold g1 in Hs, Hmet, Hlive, Hcl. pose proof Hlive as (Hsub & _ & _).
  assert (NoDup (m_id <$> live)) as Hnd
    by (eapply sublist_NoDup; [apply (mem_ok_default _ key Hok)|by apply fmap_sublist]).
  assert (∀ m, m ∈ live → m ∈ q) as Hin by (intros m Hm; by eapply elem_of_sublist).
  specialize (Hcl c). rewrite decide_True, Hc in Hcl by done. simpl in Hcl.
  destruct (offer_all_spec key live cl Hnd Hopen) as (Ho1 & _ & Hout & Hinf); [by auto|].
  set (cl1 := offer_all key live cl) in *.
  destruct (frames_acknowledged gc live (short <$> live)) as (gc' & evs & st & Hsess & Hids & Htexts & Hh);
    [done| |apply short_docs|].
  { rewrite Forall_forall in Hq |- *. intros m Hm. destruct (Hq m (Hin m Hm)) as (m0 & Ha & ->).
    apply (accepted_presentable defaultExpire m0 Hdef Ha). }
  exists live, cl1, gc', evs, st. split; [done|]. split; [done|]. split; [|split].
  - by rewrite Hout, drop_app_length, on_the_wire_short.
  - rewrite Hh. apply dedupe_distinct; [by apply client_views_distinct|]. by intros m _ ?%elem_of_nil.
  - assert (Forall (λ t, str_len t ≤ MaxMessageBytes cfg) (acknowledged evs)) as Hlen.
    { rewrite Htexts. apply Forall_fmap, Forall_forall. intros m Hm.
      rewrite Forall_forall in Hfit. by apply (Hfit m), Hin. }
    destruct (acks_run c (c_compress cl1) key live (acknowledged evs) cl1 g1)
      as (Hq2 & Hmet2 & cl2 & Hc2 & Hinf2); try done.
    + by rewrite Hs.
    + intros m Hm. rewrite Hinf. by rewrite decide_True by (by apply list_elem_of_fmap_2).
    + split; [|split].
      * unfold stored_queues in *. by rewrite Hs in Hq2.
      * by rewrite Hmet2, Hmet.
      * exists cl2. split; [done|]. apply map_eq. intros id. rewrite Hinf2, Hinf.
        destruct (decide (id ∈ m_id <$> live)) as [(m & -> & Hm)%list_elem_of_fmap|]; [|done].
        symmetry. auto.
Qed.
End end_to_end.

(** ** The theorem on a scenario *)

Import SampleText.
#[local] Existing Instance Demo.demo_env.

Definition other_id : uuid := exist _ "fedcba9876543210" I.

(** Two messages as a POST at the start of the clock gave them. *)
Definition posted (id : uuid) (v : json) : Message :=
  MkMessage id "a.b" [] "" v "10m" (1000000 * Second).

Definition waiting : list Message := [posted Demo.mid (JBool true); posted other_id (JStr "x")].

(** One connection, subscribed to [a.*], and the two messages in the queue. *)
Definition busy : Goctopus MemoryStorage :=
  MkGoctopus {["a.*" := [0%nat]]} {["a.*"]} ∅ {[0%nat := newClient ["a.*"] Second false]} 1%nat
    (MkMemoryStorage {["a.b" := waiting]}) (Dummy []) None None (λ _, 0) 0 [] [] 8 false 0%nat.

Lemma busy_ok : mem_ok (g_storage busy).
Proof.
  apply map_Forall_singleton. split; [done|]. apply NoDup_ListNoDup.
  repeat constructor; rewrite ?elem_of_list_In; simpl; intuition discriminate.
Qed.

Definition body_of (v : json) : string := json_print (JObj [("key", JStr "a.b"); ("value", v)]).

Lemma waiting_accepted : Forall (λ m, ∃ m0, accepted "10m" m0 ∧ m = with_Key m0 "a.b") waiting.
Proof.
  repeat constructor.
  - exists (posted Demo.mid (JBool true)). split; [|done].
    exists (Ok (body_of (JBool true))), (1000000 * Second), (Ok Demo.mid). vm_compute. reflexivity.
  - exists (posted other_id (JStr "x")). split; [|done].
    exists (Ok (body_of (JStr "x"))), (1000000 * Second), (Ok other_id). vm_compute. reflexivity.
Qed.

Lemma subscriber_drains_queue_witness :
  let g1 := (run Demo.cfg (sendMessages "a.b") busy).1 in
  ∃ live cl1 gc' evs st,
    live_part waiting live (g_tick busy) (g_tick g1) ∧ g_clients g1 !! 0%nat = Some cl1 ∧
    session small_window None (on_the_wire (drop 0 (c_out cl1))) = Returned (gc', evs, st) ∧
    handed evs = client_view <$> live ∧
    let g2 := (run Demo.cfg
      (read_frames Demo.cfg 0%nat (c_compress cl1) (coming_back (acknowledged evs))) g1).1 in
    stored_queues g2 ≡ drained "a.b" (m_id <$> live) (stored_queues busy) ∧
    g_metrics g2 Delivered = 0 + Z.of_nat (length live) ∧
    ∃ cl2, g_clients g2 !! 0%nat = Some cl2 ∧ c_inflight cl2 = ∅.
Proof.
  apply (subscriber_drains_queue Demo.cfg "a.b" 0%nat (newClient ["a.*"] Second false) small_window
    "10m" busy).
  - done.
  - apply Demo.demo_clock_mono.
  - intros Hin. by vm_compute in Hin.
  - apply busy_ok.
  - reflexivity.
  - reflexivity.
  - vm_compute. left.
  - intros m _. reflexivity.
  - reflexivity.
  - apply waiting_accepted.
  - by split.
  - done.
  - repeat constructor; vm_compute; discriminate.
Defined.
