(* ===== verification/Reconnect.v ===== *)
(** * A subscriber whose connections break

    One attempt of a subscriber is a connection the gateway registers, the
    backlog it is sent, a session of the client library that is cut after some
    frames, and a read loop of the gateway that meets some of the
    acknowledgements before its read fails and the connection is removed.  What
    was handed over but not acknowledged comes again on the next connection, and
    the client's window drops it: over any number of attempts every message is
    handed over once, in queue order. *)
From stdpp Require Import base numbers list gmap strings.
From S2P Require Import Prelude GoStd GoTime Utf8 Topics Json JsonCodec Const Message Stored Storage.
From S2P Require Import MemoryStorage SampleText Config Client Authorizer Prog Engine Server System.
From S2P Require Import Registry Subscriber Simulate Operations Fanout Interop EndToEnd.

#[local] Open Scope Z_scope.

(** ** Windows that overlap *)

(** A window that never overflows hands over exactly what is new. *)
Lemma dedupe_within limit kept ms :
  NoDup (ID <$> ms) → Forall (λ m, ID m ≠ EMPTY_STR) ms →
  let new := filter (λ m, ID m ∉ kept) ms in
  (length kept + length new ≤ limit)%nat →
  dedupe limit kept ms = new ∧ remembered limit kept ms = kept ++ (ID <$> new).
Proof.
  revert kept. induction ms as [|m ms IH]; intros kept Hnd Hne; cbv zeta.
  { intros _. by rewrite app_nil_r. }
  rewrite fmap_cons in Hnd. apply NoDup_cons in Hnd as [Hm Hnd].
  apply Forall_cons in Hne as [Hm0 Hne]. intros Hl.
  assert (fresh limit kept (ID m) = bool_decide (ID m ∉ kept)) as Hf.
  { unfold fresh. rewrite bool_decide_eq_false_2, orb_false_l by done.
    rewrite last_n_all by lia. by rewrite <-bool_decide_not. }
  cbn [dedupe]. unfold remembered in *. cbn [fold_left]. unfold remember at 1 3. rewrite Hf.
  rewrite (bool_decide_eq_true_2 (ID m ≠ EMPTY_STR)) by done. cbn [andb].
  destruct (decide (ID m ∈ kept)) as [Hin|Hin].
  - rewrite filter_cons_False in Hl |- * by (intros Hn; by apply Hn).
    rewrite bool_decide_eq_false_2 by (intros Hn; by apply Hn). by apply IH.
  - rewrite filter_cons_True in Hl |- * by done. rewrite bool_decide_eq_true_2 by done.
    assert (filter (λ x, ID x ∉ kept ++ [ID m]) ms = filter (λ x, ID x ∉ kept) ms) as Heq.
    { apply filter_ext_in. intros x Hx.
      rewrite elem_of_app, list_elem_of_singleton. split; [tauto|]. intros Hk [?|Heq]; [done|].
      apply Hm. rewrite <-Heq. by apply list_elem_of_fmap_2. }
    destruct (IH (kept ++ [ID m]) Hnd Hne) as [Hd Hr].
    + rewrite Heq, length_app. simpl in Hl |- *. lia.
    + rewrite Hd, Hr, Heq. simpl. by rewrite <-(assoc_L (++)).
Qed.

(** The messages [k] to [k + a] of a list, of which [j] are known. *)
Lemma overlap (q : list Message) k j a :
  NoDup (m_id <$> q) → (k ≤ j ≤ length q)%nat →
  take j q ++ filter (λ m, m_id m ∉ m_id <$> take j q) (take a (drop k q)) =
  take (j `max` (k + a)) q.
Proof.
  intros Hnd [Hk Hj]. rewrite take_drop_commute.
  assert (∀ n m, (n ≤ j)%nat → m ∈ drop k (take n q) → m_id m ∈ m_id <$> take j q) as Hknown.
  { intros n m Hn Hm. apply list_elem_of_fmap_2.
    replace (take n q) with (take n (take j q)) in Hm by (by rewrite take_take, Nat.min_l by done).
    rewrite <-(take_drop n (take j q)). apply elem_of_app. left. rewrite <-(take_drop k (take n _)).
    apply elem_of_app. by right. }
  destruct (Nat.le_gt_cases (k + a) j) as [Hle|Hgt].
  - rewrite filter_none; [by rewrite app_nil_r, Nat.max_l by done|].
    intros m Hm Hn. by eapply Hn, Hknown.
  - rewrite Nat.max_r by lia. set (new := take (k + a - j) (drop j q)).
    assert (take (k + a) q = take j q ++ new) as Hq.
    { unfold new. rewrite take_drop_commute.
      replace (j + (k + a - j))%nat with (k + a)%nat by lia.
      rewrite <-(take_drop j (take (k + a) q)) at 1. f_equal. rewrite take_take. f_equal. lia. }
    rewrite Hq. rewrite drop_app_le by (rewrite length_take; lia). rewrite filter_app, filter_none.
    + simpl. f_equal. apply filter_id. intros m Hm Hin.
      rewrite <-(take_drop j q), fmap_app in Hnd. apply NoDup_app in Hnd as (_ & Hdis & _).
      apply (Hdis _ Hin). apply list_elem_of_fmap_2. unfold new in Hm.
      rewrite <-(take_drop (k + a - j) (drop j q)). apply elem_of_app. by left.
    + intros m Hm Hn. by eapply Hn, (Hknown j).
Qed.

Section reconnect.
Context `{UuidLib, TimeText, TimeParse, JsonText, JsonPrint, !TextLaws, !JsonLaws, Env}.
Context (cfg : Config).
Implicit Types (g : Goctopus MemoryStorage).

(** The queue of [key]. *)
Definition queue_of (key : string) g : list Message := default [] (storage (g_storage g) !! key).

(** The other queues, and the send locks. *)
Definition beside (key : string) g g' : Prop :=
  (∀ k, k ≠ key → storage (g_storage g') !! k = storage (g_storage g) !! k) ∧
  g_sendLocks g' = g_sendLocks g.

Lemma beside_trans key g1 g2 g3 : beside key g1 g2 → beside key g2 g3 → beside key g1 g3.
Proof. intros [Hk Hl] [Hk' Hl']. split; [|congruence]. intros k Hne. by rewrite Hk', Hk. Qed.

(** ** The gateway's side of a connection *)

(** The acknowledgement of the first message of the queue removes it. *)
Lemma ack_head c cl key m rest t g :
  mem_ok (g_storage g) → g_clients g !! c = Some cl → queue_of key g = m :: rest →
  ack_id t = Some (m_id m) → c_inflight cl !! m_id m = Some key →
  let g' := (run cfg (handleAck c t) g).1 in
  queue_of key g' = rest ∧ beside key g g' ∧
  g_clients g' = <[c := set_inflight cl (delete (m_id m) (c_inflight cl))]> (g_clients g).
Proof.
  intros Hok Hc Hq Ht Hin. unfold handleAck. rewrite Ht. unfold deleteMsgById. run_simpl.
  unfold with_client, takeInflight. rewrite Hc, Hin. run_simpl. unfold with_storage. cbn.
  destruct (memory_keeps_order (g_storage g) key m (m_id m) Hok) as [_ Hdel].
  pose proof (mem_ok_default (g_storage g) key Hok) as Hnd. fold (queue_of key g) in *.
  assert (∀ k, k ≠ key → storage (Memory.DeleteMessage key (m_id m) (g_storage g)).1 !! k =
    storage (g_storage g) !! k) as Hother.
  { intros k Hne. unfold Memory.DeleteMessage. repeat case_match; simpl; try done;
      [by rewrite lookup_delete_ne|by rewrite lookup_insert_ne]. }
  destruct (Memory.DeleteMessage key (m_id m) (g_storage g)) as [s' err]. simpl in Hdel, Hother.
  split; [|by split]. unfold queue_of. cbn. rewrite Hdel, Hq. rewrite Hq in Hnd.
  apply NoDup_cons in Hnd as [Hm _]. rewrite filter_cons_False by (intros Hn; by apply Hn).
  apply filter_id. intros x Hx Heq. apply Hm. rewrite <-Heq. by apply list_elem_of_fmap_2.
Qed.

(** The read loop on the acknowledgements of the first messages of the queue,
    before its read fails. *)
Lemma acks_drain c compress key ms rest texts cl g :
  mem_ok (g_storage g) → g_clients g !! c = Some cl → queue_of key g = ms ++ rest →
  (∀ m, m ∈ ms → c_inflight cl !! m_id m = Some key) → ack_id <$> texts = Some ∘ m_id <$> ms →
  Forall (λ t, str_len t ≤ MaxMessageBytes cfg) texts → MaxMessageBytes cfg < max_int64 →
  let g' := (run cfg (read_frames cfg c compress (coming_back texts ++ [InError])) g).1 in
  mem_ok (g_storage g') ∧ queue_of key g' = rest ∧ beside key g g'.
Proof.
  revert texts cl g. induction ms as [|m ms IH]; intros [|t texts] cl g Hok Hc Hq Hin Hacks Hlen Hmax;
    try discriminate; cbv zeta.
  { by split_and!. }
  rewrite !fmap_cons in Hacks. injection Hacks as Hack Hacks. apply Forall_cons in Hlen as [Ht Hlen].
  unfold coming_back. rewrite fmap_cons. cbn [read_frames app].
  rewrite accept_plain by done. rewrite run_bind.
  destruct (handleAck_run cfg c cl t g Hok Hc) as (Hok1 & _).
  destruct (ack_head c cl key m (ms ++ rest) t g Hok Hc Hq Hack) as (Hq1 & Hb1 & Hc1); [apply Hin; by left|].
  set (g1 := (run cfg (handleAck c t) g).1) in *.
  assert (m_id m ∉ m_id <$> ms) as Hm.
  { pose proof (mem_ok_default (g_storage g) key Hok) as Hnd. fold (queue_of key g) in Hnd.
    rewrite Hq in Hnd. simpl in Hnd. rewrite fmap_app in Hnd. apply NoDup_cons in Hnd as [Hm _].
    intros Hx. apply Hm, elem_of_app. by left. }
  destruct (IH texts (set_inflight cl (delete (m_id m) (c_inflight cl))) g1) as (Hok2 & Hq2 & Hb2);
    [done| |done| |done..|].
  { by rewrite Hc1, lookup_insert_eq. }
  { intros m' Hm'. simpl. rewrite lookup_delete_ne; [apply Hin; by right|].
    intros Heq. apply Hm. rewrite Heq. by apply list_elem_of_fmap_2. }
  split_and!; [done|done|]. by eapply beside_trans.
Qed.

Lemma removeClient_beside key c g :
  let g' := (run cfg (removeClient c) g).1 in g_storage g' = g_storage g ∧ beside key g g'.
Proof.
  unfold removeClient. run_simpl. unfold with_client.
  destruct (g_clients g !! c); by split_and!.
Qed.

(** Nothing has expired by the end of a flush: it offers the whole queue. *)
Lemma all_live (q live : list Message) t t' :
  NoDup (m_id <$> q) → live_part q live t t' →
  (∀ m, m ∈ q → isExpired m (env_clock t') = false) → live = q.
Proof.
  intros Hnd (Hsub & _ & Hall) Hlive. apply NoDup_fmap_1 in Hnd.
  assert (∀ m, m ∈ q → m ∈ live) as Hin by auto. clear Hall Hlive.
  induction Hsub as [|m l1 l2 Hsub IH|m l1 l2 Hsub IH]; [done| |];
    apply NoDup_cons in Hnd as [Hm Hnd].
  - f_equal. apply IH; [done|]. intros m' Hm'.
    destruct (proj1 (elem_of_cons _ _ _) (Hin m' ltac:(by right))) as [->|]; done.
  - exfalso. apply Hm. eapply elem_of_sublist; [|exact Hsub]. apply Hin. by left.
Qed.

(** ** One attempt *)

(** A connection under [key], cut after [a] of the frames of its backlog on the
    way out and after [b] acknowledgements on the way back. *)
Definition attempt (key : string) (compress : bool) (a b : nat) (gc : GoClient) g
  : outcome (GoClient * list client_event * Goctopus MemoryStorage) :=
  let '(g1, c) := run cfg (act (ORegister [key] compress)) g in
  let g2 := (run cfg (backlog [key]) g1).1 in
  let out := match g_clients g2 !! c with Some cl => c_out cl | None => [] end in
  match session gc None (take a (on_the_wire out) ++ [ReadFails (Error "cut")]) with
  | Panicked => Panicked
  | Returned (gc, evs, _) =>
    let ins := take b (coming_back (acknowledged evs)) ++ [InError] in
    Returned (gc, evs, (run cfg (readLoop cfg c compress ins) g2).1)
  end.

Fixpoint attempts (key : string) (compress : bool) (cuts : list (nat * nat)) (gc : GoClient) g
  : outcome (GoClient * list client_event * Goctopus MemoryStorage) :=
  match cuts with
  | [] => Returned (gc, [], g)
  | (a, b) :: cuts =>
    match attempt key compress a b gc g with
    | Panicked => Panicked
    | Returned (gc, evs, g) =>
      match attempts key compress cuts gc g with
      | Panicked => Panicked
      | Returned (gc, evs', g) => Returned (gc, evs ++ evs', g)
      end
    end
  end.

(** Attempts end, whatever the cuts, and time passes. *)
Lemma attempts_total key compress cuts kept gc g :
  window_ok gc → seenOrder gc = last_n (window gc) kept →
  ∃ gc' evs g', attempts key compress cuts gc g = Returned (gc', evs, g').
Proof.
  revert kept gc g. induction cuts as [|[a b] cuts IH]; intros kept gc g Hok Ho; simpl; [by eauto|].
  unfold attempt. destruct (run cfg (act (ORegister [key] compress)) g) as [g1 c].
  set (g2 := (run cfg (backlog [key]) g1).1).
  set (ins := take a (on_the_wire _) ++ _).
  destruct (session_handles kept gc None ins Hok Ho) as (gc' & evs & st & -> & Hok' & Hset & Ho' & _ & _).
  rewrite <-(settings_window _ _ Hset) in Ho'.
  destruct (IH _ gc' (run cfg (readLoop cfg c compress
    (take b (coming_back (acknowledged evs)) ++ [InError])) g2).1 Hok' Ho') as (gc2 & evs2 & g3 & ->).
  by eauto.
Qed.

Lemma attempt_tick key compress a b gc g gc' evs g' :
  attempt key compress a b gc g = Returned (gc', evs, g') → (g_tick g ≤ g_tick g')%nat.
Proof.
  unfold attempt. pose proof (run_tick cfg (act (ORegister [key] compress)) g) as Ht1.
  destruct (run cfg (act (ORegister [key] compress)) g) as [g1 c]. simpl in Ht1.
  pose proof (run_tick cfg (backlog [key]) g1) as Ht2.
  destruct (session _ _ _) as [[[gc1 evs1] st]|]; [|done]. intros [= _ _ <-].
  etrans; [exact Ht1|]. etrans; [exact Ht2|]. apply run_tick.
Qed.

Lemma attempts_tick key compress cuts gc g gc' evs g' :
  attempts key compress cuts gc g = Returned (gc', evs, g') → (g_tick g ≤ g_tick g')%nat.
Proof.
  revert gc g evs. induction cuts as [|[a b] cuts IH]; intros gc g evs; simpl; [by intros [= _ _ <-]|].
  destruct (attempt key compress a b gc g) as [[[gc1 evs1] g1]|] eqn:Ha; [|done].
  destruct (attempts key compress cuts gc1 g1) as [[[gc2 evs2] g2]|] eqn:Hb; [|done].
  intros [= <- <- <-]. etrans; [by eapply attempt_tick|by eapply IH].
Qed.

(** What a new connection is sent. *)
Lemma backlog_run key compress g :
  (∀ n, env_net n = true) → (∀ n, env_clock n ≤ env_clock (S n)) →
  hasWildcard key = false → sendLock key ∉ g_sendLocks g → mem_ok (g_storage g) →
  let r := run cfg (act (ORegister [key] compress)) g in
  let g2 := (run cfg (backlog [key]) r.1).1 in
  (∀ m, m ∈ queue_of key g → isExpired m (env_clock (g_tick g2)) = false) →
  g_storage g2 = g_storage g ∧ g_sendLocks g2 = g_sendLocks g ∧
  ∃ cl, g_clients g2 !! r.2 = Some cl ∧ c_out cl = FText ∘ short <$> queue_of key g ∧
    ∀ m, m ∈ queue_of key g → c_inflight cl !! m_id m = Some key.
Proof.
  intros Hnet Hclk Hw Hlock Hok. cbv zeta. rewrite run_act, exec_pair. cbn [exec_op fst snd].
  set (g1 := next_tick _). set (c := g_next g).
  unfold backlog. cbn [for_each]. rewrite run_bind, Hw. cbn [run fst]. intros Hlive.
  destruct (flush_run cfg key g1 Hnet Hclk Hlock) as ((Hs & _ & _ & Hl & _) & live & Hlp & Hcl).
  set (g2 := (run cfg (sendMessages key) g1).1) in *.
  change (g_storage g1) with (g_storage g) in *. fold (queue_of key g) in *.
  pose proof (mem_ok_default _ key Hok) as Hnd. fold (queue_of key g) in Hnd.
  rewrite (all_live _ _ _ _ Hnd Hlp Hlive) in Hcl.
  split; [done|]. split; [done|].
  specialize (Hcl c). rewrite decide_True in Hcl.
  2: { apply elem_of_clientsForKey. exists key. split; [|by left].
       unfold g1. simpl. unfold conns_at. rewrite lookup_insert_eq. simpl. apply elem_of_app. right. by left. }
  unfold g1 in Hcl. cbn [g_clients next_tick set_registry set_clients] in Hcl.
  rewrite lookup_insert_eq in Hcl. simpl in Hcl.
  destruct (offer_all_spec key (queue_of key g) (newClient [key] (WriteTimeout cfg) compress) Hnd)
    as (_ & _ & Hout & Hinf); [done..|].
  eexists. split; [exact Hcl|]. split; [exact Hout|]. intros m Hm. rewrite Hinf.
  by rewrite decide_True by (by apply list_elem_of_fmap_2).
Qed.

(** ** Any number of attempts *)

Lemma arrived_cut l e rest : arrived (l ++ ReadFails e :: rest) = arrived l.
Proof.
  induction l as [|[e0|data written] l IH]; [done..|]. simpl.
  destruct (decode_client data); [|exact IH]. destruct written; [done|]. by rewrite IH.
Qed.

(** The client's ids of messages. *)
Definition ids (ms : list Message) : list string := ID <$> (client_view <$> ms).

Lemma elem_of_ids m ms : ID (client_view m) ∈ ids ms ↔ m_id m ∈ m_id <$> ms.
Proof.
  unfold ids. rewrite <-list_fmap_compose, !list_elem_of_fmap. simpl. split.
  - intros (m' & Heq%uuid_String_inj & Hm'). eauto.
  - intros (m' & -> & Hm'). exists m'. split; [by rewrite Heq || done|done].
Qed.

Context (key : string) (compress : bool) (q : list Message).
Hypothesis net_ok : ∀ n, env_net n = true.
Hypothesis clock_ok : ∀ n, env_clock n ≤ env_clock (S n).
Hypothesis key_plain : hasWildcard key = false.
Hypothesis named : ∀ u, uuid_String u ≠ EMPTY_STR.
Hypothesis distinct : NoDup (m_id <$> q).
Context (last : nat).
Hypothesis lasting : ∀ m, m ∈ q → isExpired m (env_clock last) = false.
Hypothesis readable : Forall presentable q.
Hypothesis limit_ok : MaxMessageBytes cfg < max_int64.
Hypothesis fitting : Forall (λ m, str_len (ack_text (uuid_String (m_id m))) ≤ MaxMessageBytes cfg) q.

(** [k] messages of [q] were acknowledged, [j] handed over. *)
Record at_point (g0 : Goctopus MemoryStorage) (k j : nat) (gc : GoClient) g : Prop := {
  pt_bounds : (k ≤ j ≤ length q)%nat;
  pt_lock : sendLock key ∉ g_sendLocks g;
  pt_ok : mem_ok (g_storage g);
  pt_queue : queue_of key g = drop k q;
  pt_window : window_ok gc ∧ (length q ≤ window gc)%nat ∧
    seenOrder gc = last_n (window gc) (ids (take j q));
  pt_beside : beside key g0 g;
}.

(** A cut session on the frames from [k] on, with [j] messages in the window. *)
Lemma cut_session gc k j a :
  (k ≤ j ≤ length q)%nat → window_ok gc → (length q ≤ window gc)%nat →
  seenOrder gc = last_n (window gc) (ids (take j q)) →
  ∃ gc' evs st,
    session gc None (take a (on_the_wire (FText ∘ short <$> drop k q)) ++ [ReadFails (Error "cut")])
      = Returned (gc', evs, st) ∧
    window_ok gc' ∧ window gc' = window gc ∧
    seenOrder gc' = last_n (window gc) (ids (take (j `max` (k + a)) q)) ∧
    client_view <$> take (j `max` (k + a)) q = (client_view <$> take j q) ++ handed evs ∧
    acknowledged evs = ack_text ∘ uuid_String ∘ m_id <$> take a (drop k q).
Proof.
  intros Hb Hok Hlen Ho. rewrite on_the_wire_short, <-!fmap_take.
  destruct (session_handles (ids (take j q)) gc None
    (((λ doc, Frame (json_print doc) None) <$> (short <$> take a (drop k q))) ++
     [ReadFails (Error "cut")]) Hok Ho)
    as (gc' & evs & st & Hs & Hok' & Hset & Ho' & Hh & Hack).
  exists gc', evs, st. split; [exact Hs|]. split; [done|]. split; [by apply settings_window|].
  set (sent := take a (drop k q)) in *.
  assert (Forall presentable sent) as Hp by (by apply Forall_take, Forall_drop).
  rewrite arrived_cut, (arrived_frames sent) in Ho', Hh, Hack by (done || apply short_docs).
  assert (NoDup (m_id <$> sent)) as Hnd.
  { unfold sent. eapply sublist_NoDup; [exact distinct|]. apply fmap_sublist.
    etrans; [apply sublist_take|apply sublist_drop]. }
  set (new := filter (λ m, m_id m ∉ m_id <$> take j q) sent).
  assert (filter (λ m, ID m ∉ ids (take j q)) (client_view <$> sent) = client_view <$> new) as Hnew.
  { rewrite filter_fmap. f_equal. apply filter_ext_in. intros m _. simpl.
    by rewrite <-elem_of_ids. }
  pose proof (overlap q k j a distinct Hb) as Hov. fold sent new in Hov.
  destruct (dedupe_within (window gc) (ids (take j q)) (client_view <$> sent)) as [Hd Hr].
  - by apply client_views_distinct.
  - apply Forall_fmap, Forall_forall. intros m _. apply named.
  - rewrite Hnew. apply (f_equal length) in Hov. rewrite length_app, !length_take in Hov.
    unfold ids. rewrite !length_fmap, !length_take. lia.
  - rewrite Hnew in Hd, Hr. split_and!.
    + by rewrite Ho', Hr, <-Hov; unfold ids; rewrite !fmap_app.
    + by rewrite Hh, Hd, <-Hov, fmap_app.
    + by rewrite Hack, <-list_fmap_compose.
Qed.

Lemma attempt_run g0 k j a b gc g gc' evs g' :
  at_point g0 k j gc g → attempt key compress a b gc g = Returned (gc', evs, g') →
  (g_tick g' ≤ last)%nat →
  at_point g0 (k + (a `min` b) `min` (length q - k)) (j `max` (k + a) `min` length q) gc' g' ∧
  client_view <$> take (j `max` (k + a) `min` length q) q =
    (client_view <$> take j q) ++ handed evs.
Proof.
  intros [Hb Hl Hok Hq (Hw & Hlen & Ho) Hbe].
  pose proof (backlog_run key compress g net_ok clock_ok key_plain Hl Hok) as Hbl.
  unfold attempt. destruct (run cfg (act (ORegister [key] compress)) g) as [g1 c].
  cbn [fst snd] in Hbl. set (g2 := (run cfg (backlog [key]) g1).1) in *. intros Hrun Ht.
  destruct Hbl as (Hs2 & Hl2 & cl & Hcl & Hout & Hinf).
  { rewrite Hq. intros m Hm. eapply (live_earlier clock_ok); [|apply lasting].
    - etrans; [|exact Ht]. destruct (session gc None _) as [[[gc1 evs1] st]|]; [|done].
      injection Hrun as <- <- <-. apply run_tick.
    - rewrite <-(take_drop k q). apply elem_of_app. by right. }
  rewrite Hcl, Hout, Hq in Hrun.
  destruct (cut_session gc k j a Hb Hw Hlen Ho)
    as (gc1 & evs1 & st & Hs & Hw' & Hwin & Ho' & Hh & Hack).
  rewrite Hs in Hrun. injection Hrun as <- <- <-. clear Ht.
  assert (take (j `max` (k + a) `min` length q) q = take (j `max` (k + a)) q) as Htake.
  { destruct (Nat.le_gt_cases (k + a) (length q)); [f_equal; lia|].
    by rewrite !take_ge by lia. }
  rewrite Htake. set (n := (a `min` b)%nat).
  assert (take b (acknowledged evs1) = ack_text ∘ uuid_String ∘ m_id <$> take n (drop k q)) as Htexts.
  { rewrite Hack, <-fmap_take, take_take. f_equal. f_equal. unfold n. lia. }
  assert (queue_of key g2 = take n (drop k q) ++ drop (k + n `min` (length q - k)) q) as Hq2.
  { unfold queue_of in *. rewrite Hs2, Hq. rewrite <-(take_drop n (drop k q)) at 1. f_equal.
    rewrite drop_drop. destruct (Nat.le_gt_cases n (length q - k)); [f_equal; lia|].
    by rewrite !drop_ge by lia. }
  destruct (acks_drain c compress key (take n (drop k q)) (drop (k + n `min` (length q - k)) q) (take b (acknowledged evs1)) cl g2)
    as (Hok3 & Hq3 & Hbe3); [by rewrite Hs2|done|exact Hq2| | | |done|].
  { intros m Hm. apply Hinf. rewrite Hq, <-(take_drop n (drop k q)). apply elem_of_app. by left. }
  { rewrite Htexts, <-!list_fmap_compose. apply list_fmap_ext. intros i m _. apply (ack_id_text (m_id m)). }
  { rewrite Htexts. apply Forall_fmap. apply Forall_take, Forall_drop. exact fitting. }
  split; [|by rewrite Hh].
  unfold readLoop. rewrite run_bind. unfold coming_back in *. rewrite <-fmap_take.
  set (g3 := (run cfg (read_frames cfg c compress _) g2).1) in *.
  destruct (removeClient_beside key c g3) as [Hs4 Hbe4].
  assert (beside key g g2) as Hbe2 by (split; [by rewrite Hs2|done]).
  pose proof (beside_trans _ _ _ _ (beside_trans _ _ _ _ Hbe2 Hbe3) Hbe4) as Hbe'.
  split; [unfold n; lia| |by rewrite Hs4| | |by eapply beside_trans].
  - destruct Hbe' as [_ ->]. exact Hl.
  - unfold queue_of in *. by rewrite Hs4.
  - rewrite Hwin. split; [done|]. split; [done|]. by rewrite Htake.
Qed.

(** The acknowledgements that reach the gateway over some attempts. *)
Definition returned (cuts : list (nat * nat)) : nat :=
  sum_list ((λ ab, ab.1 `min` ab.2)%nat <$> cuts).

Lemma attempts_run g0 cuts k j gc g gc' evs g' :
  at_point g0 k j gc g → attempts key compress cuts gc g = Returned (gc', evs, g') →
  (g_tick g' ≤ last)%nat →
  ∃ j', at_point g0 (k + returned cuts `min` (length q - k)) j' gc' g' ∧ (j ≤ j')%nat ∧
    client_view <$> take j' q = (client_view <$> take j q) ++ handed evs.
Proof.
  revert k j gc g evs. induction cuts as [|[a b] cuts IH]; intros k j gc g evs Hp; simpl.
  - intros [= <- <- <-] _. exists j. unfold returned. simpl. rewrite Nat.add_0_r.
    split; [exact Hp|]. split; [done|]. simpl. by rewrite app_nil_r.
  - pose proof (pt_bounds _ _ _ _ _ Hp).
    destruct (attempt key compress a b gc g) as [[[gc1 evs1] g1]|] eqn:H1'; [|done].
    destruct (attempts key compress cuts gc1 g1) as [[[gc2 evs2] g2]|] eqn:H2'; [|done].
    intros [= <- <- <-] Ht. pose proof (attempts_tick _ _ _ _ _ _ _ _ H2') as Ht1.
    destruct (attempt_run g0 k j a b gc g gc1 evs1 g1 Hp H1') as (Hp1 & Hh1); [lia|].
    destruct (IH _ _ _ _ _ Hp1 H2' Ht) as (j2 & Hp2 & Hj2 & Hh2).
    exists j2. split; [|split; [lia|]].
    + change (returned ((a, b) :: cuts)) with (a `min` b + returned cuts)%nat.
      replace (k + (a `min` b + returned cuts) `min` (length q - k))%nat
        with (k + (a `min` b) `min` (length q - k) + returned cuts
          `min` (length q - (k + (a `min` b) `min` (length q - k))))%nat by lia.
      exact Hp2.
    + by rewrite Hh2, Hh1, handed_app, (assoc_L (++)).
Qed.
End reconnect.

Section theorem.
Context `{UuidLib, TimeText, TimeParse, JsonText, JsonPrint, !TextLaws, !JsonLaws, Env}.
Context (cfg : Config).
Implicit Types (g : Goctopus MemoryStorage).

(** C15: A subscriber whose connections break again and again, each after any
    number of frames on the way out and of acknowledgements on the way back, is
    handed every message once.  Unless one of the queue expires meanwhile, over
    all attempts it is handed a beginning of the queue, in order and without
    repetition; the queue has lost exactly as many messages as acknowledgements
    came back, all of them handed over; and no other queue has changed.  In
    particular all are handed over and the queue is empty once enough
    acknowledgements came back.  The queue fits the subscriber's window, and what
    the gateway writes is accepted by the network before it is lost. *)
Theorem reconnects_deliver_once key compress cuts gc defaultExpire g :
  (∀ n, env_net n = true) → (∀ n, env_clock n ≤ env_clock (S n)) →
  (∀ u, uuid_String u ≠ EMPTY_STR) → hasWildcard key = false →
  sendLock key ∉ g_sendLocks g → mem_ok (g_storage g) →
  let q := default [] (storage (g_storage g) !! key) in
  valid_utf8 defaultExpire = true →
  Forall (λ m, ∃ m0, accepted defaultExpire m0 ∧ m = with_Key m0 key) q →
  unused gc → (length q ≤ window gc)%nat → MaxMessageBytes cfg < max_int64 →
  Forall (λ m, str_len (ack_text (uuid_String (m_id m))) ≤ MaxMessageBytes cfg) q →
  let acked := (length q `min` sum_list ((λ ab, ab.1 `min` ab.2) <$> cuts))%nat in
  ∃ gc' evs g', attempts cfg key compress cuts gc g = Returned (gc', evs, g') ∧
    ((∀ m, m ∈ q → isExpired m (env_clock (g_tick g')) = false) →
     (∃ j, (acked ≤ j ≤ length q)%nat ∧ handed evs = client_view <$> take j q) ∧
     default [] (storage (g_storage g') !! key) = drop acked q ∧
     ∀ k, k ≠ key → storage (g_storage g') !! k = storage (g_storage g) !! k).
Proof.
  intros Hnet Hclk Hne Hw Hl Hok q Hdef Hq Hgc Hlen Hmax Hfit acked.
  assert (NoDup (m_id <$> q)) as Hnd by apply (mem_ok_default _ key Hok).
  assert (Forall presentable q) as Hp.
  { eapply Forall_impl; [exact Hq|]. intros m (m0 & Ha & ->).
    apply (accepted_presentable defaultExpire m0 Hdef Ha). }
  pose proof (unused_window gc Hgc) as [Hwin Ho].
  destruct (attempts_total cfg key compress cuts [] gc g Hwin Ho) as (gc' & evs & g' & Hrun).
  exists gc', evs, g'. split; [exact Hrun|]. intros Hlast.
  assert (at_point key q g 0 0 gc g) as Hstart.
  { split; [lia|done|done|done| |by split]. split; [done|]. split; [done|]. by rewrite Ho. }
  destruct (attempts_run cfg key compress q Hnet Hclk Hw Hne Hnd _ Hlast Hp Hmax Hfit
    g cuts 0 0 gc g gc' evs g' Hstart Hrun) as (j & [Hb _ _ Hq' _ [Hother _]] & _ & Hh); [done|].
  rewrite Nat.sub_0_r, Nat.add_0_l, (Nat.min_comm _ (length q)) in Hb, Hq'.
  split; [|by split]. exists j. split; [exact Hb|]. by rewrite Hh.
Qed.
End theorem.

(** Two connections: the first loses the second frame and the acknowledgement,
    the other one nothing. *)
Import SampleText.
#[local] Existing Instance Demo.demo_env.

Definition wide_window : GoClient := MkGoClient "ws://gateway" 1 8 2 10 (Some ∅) [].

Lemma reconnects_deliver_once_witness :
  ∃ gc' evs g', attempts Demo.cfg "a.b" false [(1, 0); (2, 2)]%nat wide_window busy =
      Returned (gc', evs, g') ∧
    ((∀ m, m ∈ waiting → isExpired m (env_clock (g_tick g')) = false) →
     (∃ j, (2 ≤ j ≤ 2)%nat ∧ handed evs = client_view <$> take j waiting) ∧
     default [] (storage (g_storage g') !! "a.b") = [] ∧
     ∀ k, k ≠ "a.b" → storage (g_storage g') !! k = storage (g_storage busy) !! k).
Proof.
  apply (reconnects_deliver_once Demo.cfg "a.b" false [(1, 0); (2, 2)]%nat wide_window "10m" busy).
  - done.
  - apply Demo.demo_clock_mono.
  - intros u. simpl. by destruct (countable.encode u).
  - reflexivity.
  - intros Hin. by vm_compute in Hin.
  - apply busy_ok.
  - reflexivity.
  - apply waiting_accepted.
  - by split.
  - vm_compute. repeat constructor.
  - done.
  - repeat constructor; vm_compute; discriminate.
Defined.
