(* ===== verification/Relay.v ===== *)
(** * Delivery from one instance to the connections of another

    Two gateways share a Redis server.  One of them receives a message and
    delivers it to its targets ([deliver] of [engine.go]): it stores a copy under
    every target and publishes the key.  The other one is told of each key
    ([Subscribe] of [redis_storage.go]), schedules a flush, and its workers send
    its own connections what the storage holds. *)
From stdpp Require Import base numbers list gmap strings.
From S2P Require Import Prelude GoStd GoTime Utf8 Topics Json JsonCodec Const Message Stored Storage.
From S2P Require Import RedisServer RedisStorage History Config Client Http RateLimit Authorizer.
From S2P Require Import Prog Engine Server System Registry Causes Operations Fanout Interop.
From S2P Require Import Simulate SampleText SampleRedis RedisGateway.

#[local] Open Scope Z_scope.
#[local] Open Scope prog_scope.

(** ** What a connection received *)

Section received.
Context `{UuidLib, TimeText, JsonText}.

(** The frames of [ms] came, of messages it did not have in flight, each once. *)
Record received (cl cl' : client) (ms : list Message) : Prop := {
  rc_open : c_closed cl' = false;
  rc_out : c_out cl' = c_out cl ++ (FText ∘ short <$> ms);
  rc_once : NoDup (m_id <$> ms);
  rc_new m : m ∈ ms → c_inflight cl !! m_id m = None;
  rc_inflight id : is_Some (c_inflight cl' !! id) ↔ is_Some (c_inflight cl !! id) ∨ id ∈ m_id <$> ms;
}.

Lemma received_nothing cl : c_closed cl = false → received cl cl [].
Proof.
  intros Ho. split; [done|by rewrite app_nil_r|constructor|by intros m ?%not_elem_of_nil|].
  intros id. split; [by left|]. by intros [?| ?%not_elem_of_nil].
Qed.

Lemma received_more cl cl1 cl2 ms1 ms2 :
  received cl cl1 ms1 → received cl1 cl2 ms2 → received cl cl2 (ms1 ++ ms2).
Proof.
  intros [_ Ho1 Hd1 Hn1 Hi1] [Hop Ho2 Hd2 Hn2 Hi2].
  assert (∀ m, m ∈ ms2 → c_inflight cl !! m_id m = None ∧ m_id m ∉ m_id <$> ms1) as Hnew.
  { intros m Hm. specialize (Hn2 m Hm). pose proof (proj2 (Hi1 (m_id m))) as Hi. rewrite Hn2 in Hi.
    split; [|intros Hin; by destruct (Hi (or_intror Hin))].
    destruct (c_inflight cl !! m_id m); [|done]. by destruct (Hi (or_introl (mk_is_Some _ _ eq_refl))). }
  split.
  - done.
  - by rewrite Ho2, Ho1, fmap_app, (assoc_L (++)).
  - rewrite fmap_app. apply NoDup_app. split_and!; [done| |done].
    intros id Hid (m & -> & Hm)%list_elem_of_fmap. by destruct (Hnew m Hm).
  - intros m [Hm|Hm]%elem_of_app; [by apply Hn1|by apply Hnew].
  - intros id. rewrite Hi2, Hi1, fmap_app, elem_of_app. tauto.
Qed.

Lemma offer_received key m cl :
  c_closed cl = false →
  ∃ ms, received cl (offer key m cl) ms ∧ (∀ m', m' ∈ ms → m' = m) ∧
    is_Some (c_inflight (offer key m cl) !! m_id m).
Proof.
  intros Ho. unfold offer. rewrite Ho. destruct (c_inflight cl !! m_id m) as [k|] eqn:Hm.
  { exists []. split; [by apply received_nothing|]. split; [by intros m' ?%not_elem_of_nil|eauto]. }
  exists [m]. split; [|split; [by intros m' ->%list_elem_of_singleton|]].
  - split; simpl; [done|done|apply NoDup_singleton|by intros m' ->%list_elem_of_singleton|].
    intros id. rewrite list_elem_of_singleton. destruct (decide (id = m_id m)) as [->|Hne].
    + rewrite lookup_insert_eq. split; eauto.
    + rewrite lookup_insert_ne by done. tauto.
  - simpl. rewrite lookup_insert_eq. eauto.
Qed.

Lemma offer_all_received key q cl :
  c_closed cl = false →
  ∃ ms, received cl (offer_all key q cl) ms ∧ (∀ m, m ∈ ms → m ∈ q) ∧
    ∀ m, m ∈ q → is_Some (c_inflight (offer_all key q cl) !! m_id m).
Proof.
  revert cl. induction q as [|m q IH]; intros cl Ho.
  { exists []. split; [by apply received_nothing|]. split; by intros m ?%not_elem_of_nil. }
  change (offer_all key (m :: q) cl) with (offer_all key q (offer key m cl)).
  destruct (offer_received key m cl Ho) as (ms1 & Hr1 & Hm1 & Hi1).
  destruct (IH (offer key m cl) (rc_open _ _ _ Hr1)) as (ms2 & Hr2 & Hm2 & Hi2).
  exists (ms1 ++ ms2). split; [by eapply received_more|]. split.
  - intros m' [->%Hm1|?%Hm2]%elem_of_app; [by left|by right].
  - intros m' [->|?]%elem_of_cons; [|by apply Hi2]. apply (rc_inflight _ _ _ Hr2). by left.
Qed.
End received.

(** ** The instance that receives the message *)

Section poster.
Context {T : Type} `{!Storage T, !StorageSpec T, UuidLib, TimeText, JsonText, Env}.
Context (cfg : Config).
Implicit Types (g : Goctopus T).

(** The storage holds the table [q]. *)
Definition holds (q : queues) g : Prop := st_ok (g_storage g) ∧ queued (g_storage g) ≡ q.

Lemma run_reads {A} (p : prog op A) q g : no_write p → holds q g → holds q (run cfg p g).1.
Proof.
  revert g. induction p as [a|X o k IH]; intros g; [done|]. intros [Ho Hk] [Hs Hq].
  cbn [run]. unfold exec. destruct (exec_op cfg o g) as [g1 x] eqn:He.
  destruct (exec_op_storage cfg o g g1 x Hs He) as [Hs1 Hes]. apply IH; [apply Hk|].
  split; [exact Hs1|]. cbn [next_tick g_storage]. rewrite <-Hq.
  destruct o; try discriminate; simpl in Hes; repeat case_match; exact Hes.
Qed.

(** The copies of [m] under [keys], in the form the storage keeps. *)
Definition published_form (m : Message) (keys : list string) (q : queues) : queues :=
  λ k id, if decide (k ∈ keys ∧ id = m_id m) then Some (st_form (with_Key m k)) else q k id.

Lemma deliver_publishes m keys q g :
  (∀ key s, key ∈ keys → st_ok s → (AddMessage key (with_Key m key) s).2 = None) →
  holds q g →
  holds (published_form m keys q) (run cfg (run_task cfg (TDeliver m keys)) g).1.
Proof.
  intros Hadd Hq. cbn [run_task]. unfold deliver.
  apply (run_for_each cfg (λ keys g', holds (published_form m keys q) g')).
  - intros keys' key g0 [rest ->] [Hs0 Hq0]. rewrite run_bind. apply run_reads.
    { no_writes. }
    unfold queueMessage. run_simpl. unfold with_storage. cbn [m_Key with_Key].
    specialize (Hadd key (g_storage g0)).
    destruct (AddMessage key (with_Key m key) (g_storage g0)) as [s' err] eqn:Ha.
    simpl in Hadd. rewrite Hadd in Ha; [|apply elem_of_app; right; by left|done]. apply AddMessage_spec in Ha as [Hs' Hq']; [|done].
    split; [exact Hs'|]. cbn. intros k id. rewrite (Hq' k id). unfold q_add. rewrite (Hq0 k id).
    unfold published_form. rewrite st_form_id. cbn [m_id with_Key].
    destruct (decide (k = key ∧ id = m_id m)) as [[-> ->]|Hne].
    + rewrite decide_True; [done|]. set_solver.
    + destruct (decide (k ∈ keys' ∧ id = m_id m)) as [[? ->]|n].
      * rewrite decide_True; [done|]. set_solver.
      * rewrite decide_False; [done|].
        intros [[?|Hk%list_elem_of_singleton]%elem_of_app ?]; [by apply n|by apply Hne].
  - destruct Hq as [Hs Hq]. split; [done|]. intros k id. rewrite (Hq k id). unfold published_form.
    rewrite decide_False; [done|]. by intros [?%not_elem_of_nil _].
Qed.
End poster.

(** ** The instance with the connections *)

Section receiver.
Context {T : Type} `{!Storage T, !StorageSpec T, UuidLib, TimeText, JsonText, Env}.
Context (cfg : Config).
Implicit Types (g : Goctopus T).

(** The connection [c] is registered under [key] or a pattern that matches it. *)
Definition listens g (c : cid) (key : string) : Prop :=
  ∃ k, c ∈ conns_at (g_Conns g) k ∧ (k = key ∨ keyMatches k key = true).

(** What the workers have yet to run: the queue, and the goroutines of the tasks
    that found it full. *)
Definition pending g : list task :=
  g_work g ++ omap (λ r, match r with GTask t => Some t | _ => None end) (g_spawned g).

(** The instance is told of [keys] and runs all that it has to run then. *)
Definition catch_up (keys : list string) g : Goctopus T :=
  let g1 := (run cfg (Subscribe on_notification (SubMessage <$> keys)) g).1 in
  (run cfg (for_each (pending g1) (run_task cfg)) (set_work g1 [] [])).1.

(** The handler schedules a flush for each key; nothing else changes. *)
Lemma told_of keys g :
  let g1 := (run cfg (Subscribe on_notification (SubMessage <$> keys)) g).1 in
  pending g1 ≡ₚ pending g ++ (TFlush <$> keys) ∧ g_clients g1 = g_clients g ∧
  g_storage g1 = g_storage g ∧ same_registry g g1.
Proof.
  revert g. induction keys as [|key keys IH]; intros g.
  { simpl. rewrite app_nil_r. unfold same_registry. by split_and!. }
  cbn [fmap list_fmap Subscribe]. cbv zeta. rewrite run_bind.
  set (g0 := (run cfg (on_notification key) g).1). destruct (IH g0) as (Hp & Hc & Hs & Hr1 & Hr2 & Hr3 & Hr4 & Ht).
  assert (pending g0 ≡ₚ pending g ++ [TFlush key] ∧ g_clients g0 = g_clients g ∧
    g_storage g0 = g_storage g ∧ same_registry g g0) as (Hp0 & Hc0 & Hs0 & Hr01 & Hr02 & Hr03 & Hr04 & Ht0).
  { subst g0. unfold on_notification, schedule, pending, same_registry. run_simpl.
    destruct (_ <? _); simpl.
    - split; [|split_and!; done || (cbn; lia)]. rewrite <-!(assoc_L (++)).
      apply Permutation_app_head, Permutation_app_comm.
    - split; [|split_and!; done || (cbn; lia)]. by rewrite omap_app, (assoc_L (++)). }
  unfold same_registry. split; [|split_and!; congruence || lia].
  rewrite Hp, Hp0, <-(assoc_L (++)). done.
Qed.

Hypothesis net_ok : ∀ n, env_net n = true.
Hypothesis clock_ok : ∀ n, env_clock n ≤ env_clock (S n).
Hypothesis answers : ∀ range key (s : T), st_ok s → is_range range →
  ∃ s' q, GetQueue range key s = (s', Ok q).

(** What a flush of the keys does: everything [flushed] so far. *)
Record flushed (keys : list string) g g' : Prop := {
  fl_registry : same_registry g g';
  fl_table : holds (queued (g_storage g)) g';
  fl_received c cl :
    g_clients g !! c = Some cl → c_closed cl = false →
    ∃ cl' ms, g_clients g' !! c = Some cl' ∧ received cl cl' ms ∧
      (∀ m, m ∈ ms → ∃ key, key ∈ keys ∧ listens g c key ∧
         queued (g_storage g) key (m_id m) = Some m) ∧
      (∀ key m, key ∈ keys → listens g c key → queued (g_storage g) key (m_id m) = Some m →
         isExpired m (env_clock (g_tick g')) = false → is_Some (c_inflight cl' !! m_id m));
}.

Lemma flush_one key g :
  st_ok (g_storage g) → registry_ok (g_Conns g, g_patterns g) → g_sendLocks g = ∅ →
  flushed [key] g (run cfg (sendMessages key) g).1.
Proof.
  intros Hok Hreg Hlocks.
  destruct (answers (range_order (S (S (g_tick g)))) key (g_storage g)) as (st & q & Hq);
    [done|apply range_order_ok|].
  destruct (flush_read cfg net_ok clock_ok key g st q) as (Hsame & Hst & live & (Hsub & _ & Hall) & Hcl);
    [rewrite Hlocks; set_solver|done|].
  apply GetQueue_spec in Hq as (Hok' & Heq & _ & Hlist); [|done|apply range_order_ok].
  set (g' := (run cfg (sendMessages key) g).1) in *.
  destruct (fanout_exact (g_Conns g) (g_patterns g) (range_order (S (g_tick g)) (g_patterns g)) key Hreg
    (range_order_ok _ _)) as [_ Hfan].
  split; [done| |].
  - split; rewrite Hst; by case_decide.
  - intros c cl Hc Ho. specialize (Hcl c). rewrite Hc in Hcl. case_decide as Hin.
    + destruct (offer_all_received key live cl Ho) as (ms & Hr & Hms & Hi).
      exists (offer_all key live cl), ms. split; [done|]. split; [done|]. apply Hfan in Hin. split.
      * intros m Hm%Hms. exists key. split; [by left|]. split; [done|].
        apply Hlist. by eapply elem_of_sublist.
      * intros key' m ->%list_elem_of_singleton _ Hm Hl. by apply Hi, Hall, Hl; apply Hlist.
    + exists cl, []. split; [done|]. split; [by apply received_nothing|]. split.
      * by intros m ?%not_elem_of_nil.
      * intros key' m ->%list_elem_of_singleton Hlis. by destruct Hin; apply Hfan.
Qed.

Lemma flushed_more keys key g g1 g2 :
  flushed keys g g1 → flushed [key] g1 g2 → flushed (keys ++ [key]) g g2.
Proof.
  intros [(Hc1 & Hp1 & Hl1 & Hm1 & Ht1) [_ Hq1] Hr1] [(Hc2 & Hp2 & Hl2 & Hm2 & Ht2) [Hok2 Hq2] Hr2].
  split.
  - unfold same_registry. split_and!; congruence || lia.
  - split; [done|]. by rewrite Hq2.
  - intros c cl Hc Ho. destruct (Hr1 c cl Hc Ho) as (cl1 & ms1 & Hcl1 & Hrec1 & Hfrom1 & Hall1).
    destruct (Hr2 c cl1 Hcl1 (rc_open _ _ _ Hrec1)) as (cl2 & ms2 & Hcl2 & Hrec2 & Hfrom2 & Hall2).
    exists cl2, (ms1 ++ ms2). split; [done|]. split; [by eapply received_more|]. split.
    + intros m [Hm|Hm]%elem_of_app.
      * destruct (Hfrom1 m Hm) as (k & ? & ? & ?). exists k. split; [|done]. apply elem_of_app. by left.
      * destruct (Hfrom2 m Hm) as (k & ? & Hlis & Hk). exists k.
        split; [apply elem_of_app; by right|]. unfold listens in *. rewrite Hc1 in Hlis.
        by rewrite <-(Hq1 k (m_id m)).
    + intros k m [Hk|Hk]%elem_of_app Hlis Hm Hlive.
      * apply (rc_inflight _ _ _ Hrec2). left. apply (Hall1 k); [done..|].
        by eapply live_earlier, Hlive.
      * apply (Hall2 k); [done| |by rewrite (Hq1 k (m_id m))|done]. unfold listens. by rewrite Hc1.
Qed.

Lemma flush_tasks keys : for_each (TFlush <$> keys) (run_task cfg) = for_each keys sendMessages.
Proof. induction keys as [|key keys IH]; [done|]. rewrite fmap_cons. cbn [for_each]. by rewrite IH. Qed.

Lemma flush_keys keys g :
  st_ok (g_storage g) → registry_ok (g_Conns g, g_patterns g) → g_sendLocks g = ∅ →
  flushed keys g (run cfg (for_each (TFlush <$> keys) (run_task cfg)) g).1.
Proof.
  intros Hok Hreg Hlocks. rewrite flush_tasks.
  apply (run_for_each cfg (λ keys g', flushed keys g g')).
  - intros done key g0 _ Hf. eapply flushed_more; [exact Hf|].
    destruct Hf as [(Hc & Hp & Hl & _) [Hs _] _].
    apply flush_one; [done|by rewrite Hc, Hp|by rewrite Hl].
  - split; [by split_and!|by split|]. intros c cl Hc Ho. exists cl, [].
    split; [done|]. split; [by apply received_nothing|]. split; [by intros m ?%not_elem_of_nil|].
    by intros k m ?%not_elem_of_nil.
Qed.

(** The flushes run in some order. *)
Lemma catch_up_run keys g :
  st_ok (g_storage g) → registry_ok (g_Conns g, g_patterns g) → g_sendLocks g = ∅ →
  pending g = [] →
  ∃ keys', keys' ≡ₚ keys ∧ flushed keys' g (catch_up keys g).
Proof.
  intros Hok Hreg Hlocks Hidle. unfold catch_up.
  destruct (told_of keys g) as (Hp & Hc & Hs & Hr1 & Hr2 & Hr3 & Hr4 & Ht).
  set (g1 := (run cfg (Subscribe on_notification (SubMessage <$> keys)) g).1) in *.
  rewrite Hidle in Hp. simpl in Hp.
  apply Permutation_map_inv in Hp as (keys' & -> & Hperm). exists keys'. split; [done|].
  change (map TFlush keys') with (TFlush <$> keys').
  set (g2 := set_work g1 [] []). change (g_clients g2 = g_clients g) in Hc.
  change (g_storage g2 = g_storage g) in Hs. change (g_Conns g2 = g_Conns g) in Hr1.
  change (g_patterns g2 = g_patterns g) in Hr2. change (g_sendLocks g2 = g_sendLocks g) in Hr3.
  change (g_metrics g2 = g_metrics g) in Hr4. change (g_tick g ≤ g_tick g2)%nat in Ht.
  clearbody g2. destruct (flush_keys keys' g2) as [(? & ? & ? & ? & ?) Htab Hrec];
    [by rewrite Hs|by rewrite Hr1, Hr2|by rewrite Hr3|].
  unfold listens in Hrec. rewrite Hs, Hr1, Hc in Hrec. rewrite Hs in Htab. split; [|done..].
  unfold same_registry. split_and!; congruence || lia.
Qed.
End receiver.

(** ** From one to the other, over Redis *)

Section relay.
Context {R : Type} `{!RedisServer R, !RedisLaws R}.
Context `{UuidLib, TimeText, TimeParse, JsonText, JsonPrint, !TextLaws, !JsonLaws}.
Context (here there : Env) (cfg cfg' : Config).
Implicit Types (g : Goctopus (RedisStorage R)).

(** What the instances run, each in its own surroundings. *)
Local Abbreviation run_here := (@run (RedisStorage R) _ here cfg unit).
Local Abbreviation catch_up_there := (@catch_up (RedisStorage R) _ _ _ there cfg').

(** The server answers every command. *)
Definition responsive : Prop :=
  (∀ cs r, (redis_exec (R:=R) cs r).2 = None) ∧
  (∀ key r, ∃ h, (redis_hgetall (R:=R) key r).2 = Ok h).

Lemma responsive_reads range key (s : RedisStorage R) :
  responsive → ∃ s' q, GetQueue range key s = (s', Ok q).
Proof.
  intros [_ Hget]. destruct (Hget (queueKey key) (rs_client s)) as [h Hh].
  cbn. unfold Redis.GetQueue, Redis.call.
  destruct (redis_hgetall (queueKey key) (rs_client s)) as [r res]. simpl in Hh. subst res.
  destruct (Redis.read_entries _ _ _ _ _) as [s' q]. eauto.
Qed.

Lemma responsive_writes m key (s : RedisStorage R) :
  responsive → storable m = true → (AddMessage key m s).2 = None.
Proof.
  intros [Hex _] Hst. cbn. unfold Redis.AddMessage, Redis.call.
  pose proof (encode_decodes m) as Hm. destruct (encode m); [|congruence].
  case_match; cbn; match goal with |- context [redis_exec ?cs ?r] =>
    specialize (Hex cs r); by destruct (redis_exec cs r) end.
Qed.

End relay.

(** ** The theorem on a scenario *)

Import SampleText SampleRedis.

(** The surroundings of the other instance: another clock. *)
Definition there : Env := {|
  env_clock := λ n, 1000030 * Second + 2 * Z.of_nat n * Second;
  env_range := λ _ X, elements X;
  env_net := λ _, true;
  env_uuid := λ _, Err (Error "not used");
  env_auth := λ _, Err (Error "no backend");
  env_upgrade := λ _, Ok false;
  env_url := λ _, None;
  env_version := "dev";
  env_commit := "none";
  env_go := "go1.22";
|}.

(** A message with two targets, as a POST gave it. *)
Definition a_value : json := JObj [("z", JNull); ("b", JStr "x")].
Definition two_targets : string :=
  json_print (JObj [("keys", JArr [JStr "a.x"; JStr "a.y"]); ("value", a_value)]).
Definition relayed : Message :=
  MkMessage Demo.mid "" ["a.x"; "a.y"] "" a_value "10m" (1000000 * Second).

(** An instance with two connections: one to all keys [a.*] and to the second
    target again, one to a key of no interest. *)
Definition listener : client := newClient ["a.*"; "a.y"] Second false.
Definition bystander : client := newClient ["b"] Second false.
Definition listening : Goctopus (RedisStorage keyspace) :=
  let st := register_keys 1%nat ["b"] (register_keys 0%nat ["a.*"; "a.y"] (∅, ∅)) in
  MkGoctopus st.1 st.2 ∅ {[0%nat := listener; 1%nat := bystander]} 2%nat
    (sample_storage 0) (Dummy []) None None (λ _, 0) 0 [] [] 8 false 0%nat.

Lemma listening_registry : registry_ok (g_Conns listening, g_patterns listening).
Proof.
  cbn [listening g_Conns g_patterns]. rewrite <-surjective_pairing. do 2 apply register_keys_ok.
  split; [done|]. intros p. simpl. set_solver.
Qed.

