(* ===== verification/Process.v ===== *)
(** * The process: serving, signals and shutdown

    The last part of [main]: the HTTP server and the goroutine that waits for a
    signal, shuts the server down, stops the gateway and lets [main] return.
    The two run against the gateway of [System], which goes on under them.  Of
    [net/http] the model has what the code relies on: [ListenAndServe] blocks
    while the server accepts requests and returns [ErrServerClosed] once
    [Shutdown] was called, at once when it was called before; [Shutdown] returns
    when no connection is active or when its context has expired.  Which
    connections are active, and how long, is left open; a connection handed over
    to the gateway as a websocket is not among them. *)
From stdpp Require Import base numbers list gmap strings relations.
From S2P Require Import Prelude GoStd GoTime Topics Json Const Message Storage History Config.
From S2P Require Import Client Http RateLimit Authorizer Prog Engine Server System.
From S2P Require Import Registry Invariants MemoryStorage Simulate Delivery.

#[local] Open Scope Z_scope.
#[local] Open Scope prog_scope.

(** ** The state of the process *)

(** What [ListenAndServe] or [ListenAndServeTLS] returned. *)
Inductive serve_error := ErrServerClosed | ServeError (e : error).

(** Where [main] is. *)
Inductive main_at :=
| M_listen
| M_serving
| M_served (serveErr : serve_error)
| M_wait.

(** Where the goroutine that handles signals is: before [signal.Notify], at
    [<-sigs], in [srv.Shutdown] under a deadline, in the rest of [app.Stop],
    or at its end. *)
Inductive handler_at :=
| H_install
| H_wait
| H_shutdown (deadline : Z)
| H_stopping (p : prog op unit)
| H_done.

Inductive ending := Exit (status : Z) | Killed.

(** [p_sigs]: the buffer of the channel of signals; [p_closing]: the server's
    mark that [Shutdown] was called; [p_active]: the connections it accepted and
    does not see idle; [p_idleClosed]: whether the channel is closed. *)
Record process (S : Type) := Process {
  p_sys : sys (S:=S);
  p_main : main_at;
  p_handler : handler_at;
  p_sigs : bool;
  p_closing : bool;
  p_active : nat;
  p_now : Z;
  p_idleClosed : bool;
  p_end : option ending;
}.
Arguments Process {S}.
Arguments p_sys {S}. Arguments p_main {S}. Arguments p_handler {S}. Arguments p_sigs {S}.
Arguments p_closing {S}. Arguments p_active {S}. Arguments p_now {S}.
Arguments p_idleClosed {S}. Arguments p_end {S}.

Definition shutdownTimeout : Z := 10 * Second.

(** [if serveErr != nil && serveErr != http.ErrServerClosed { log.Fatal }] *)
Definition after_serve (serveErr : serve_error) : main_at + ending :=
  match serveErr with ErrServerClosed => inl M_wait | ServeError _ => inr (Exit 1) end.

Section process.
Context {S : Type} `{!Storage S, UuidLib, TimeText, JsonText, Env}.
Context (cfg : Config) (SplitHostPort : string → result string).
Context (engines : string → option (Config → result S)).
Implicit Types (s : sys (S:=S)) (p : process S).

(** The goroutine of a request that arrives, and one that runs [Stop]. *)
Definition after_request s (r : Request) : sys :=
  Sys (s_g s) (s_threads s ++ [Thread false (ServeHTTP cfg SplitHostPort r ;; Ret tt)])
      (s_trace s ++ [EvRequest r]).
Definition after_stop s : sys :=
  Sys (s_g s) (s_threads s ++ [Thread false Stop]) (s_trace s).

(** The gateway moves by itself: neither a request nor a stop. *)
Definition inner_step s s' : Prop :=
  step cfg SplitHostPort s s' ∧ (∀ r, s' ≠ after_request s r) ∧ s' ≠ after_stop s.

(** ** What [main] and its goroutine do *)

Inductive own_step : process S → process S → Prop :=
(* main *)
| own_listen s h sg n t i :
    own_step (Process s M_listen h sg false n t i None)
             (Process s M_serving h sg false n t i None)
| own_listen_closed s h sg n t i :
    own_step (Process s M_listen h sg true n t i None)
             (Process s (M_served ErrServerClosed) h sg true n t i None)
| own_listen_fails e s h sg c n t i :
    own_step (Process s M_listen h sg c n t i None)
             (Process s (M_served (ServeError e)) h sg c n t i None)
| own_serve_closed s h sg n t i :
    own_step (Process s M_serving h sg true n t i None)
             (Process s (M_served ErrServerClosed) h sg true n t i None)
| own_serve_fails e s h sg n t i :
    own_step (Process s M_serving h sg false n t i None)
             (Process s (M_served (ServeError e)) h sg false n t i None)
| own_served e m s h sg c n t i :
    after_serve e = inl m →
    own_step (Process s (M_served e) h sg c n t i None) (Process s m h sg c n t i None)
| own_fatal e x s h sg c n t i :
    after_serve e = inr x →
    own_step (Process s (M_served e) h sg c n t i None)
             (Process s (M_served e) h sg c n t i (Some x))
| own_return s h sg c n t :
    own_step (Process s M_wait h sg c n t true None)
             (Process s M_wait h sg c n t true (Some (Exit 0)))
(* the goroutine *)
| own_install s m sg c n t i :
    own_step (Process s m H_install sg c n t i None) (Process s m H_wait sg c n t i None)
| own_receive s m c n t i :
    own_step (Process s m H_wait true c n t i None)
             (Process s m (H_shutdown (t + shutdownTimeout)) false true n t i None)
| own_drained s m d sg c t i :
    own_step (Process s m (H_shutdown d) sg c 0 t i None)
             (Process s m (H_stopping Stop) sg c 0 t i None)
| own_timeout s m d sg c n t i :
    d ≤ t →
    own_step (Process s m (H_shutdown d) sg c n t i None)
             (Process s m (H_stopping Stop) sg c n t i None)
| own_stop g ts tr m (X : Set) (o : op X) k g' x sg c n t i :
    enabled o g → exec cfg o g = (g', x) →
    own_step (Process (Sys g ts tr) m (H_stopping (Vis o k)) sg c n t i None)
             (Process (Sys g' ts (tr ++ event_of o x)) m (H_stopping (k x)) sg c n t i None)
| own_close s m sg c n t i :
    own_step (Process s m (H_stopping (Ret tt)) sg c n t i None)
             (Process s m H_done sg c n t true None).

(** ** What happens to the process *)

Inductive world_step : process S → process S → Prop :=
| world_gateway s s' m h sg c n t i :
    inner_step s s' →
    world_step (Process s m h sg c n t i None) (Process s' m h sg c n t i None)
| world_accept s h sg c n t i :
    world_step (Process s M_serving h sg c n t i None)
               (Process s M_serving h sg c (Datatypes.S n) t i None)
| world_request r s m h sg c n t i :
    world_step (Process s m h sg c (Datatypes.S n) t i None)
               (Process (after_request s r) m h sg c (Datatypes.S n) t i None)
| world_idle s m h sg c n t i :
    world_step (Process s m h sg c (Datatypes.S n) t i None) (Process s m h sg c n t i None)
| world_killed s m sg c n t i :
    world_step (Process s m H_install sg c n t i None)
               (Process s m H_install sg c n t i (Some Killed))
| world_signal s m h sg c n t i :
    h ≠ H_install →
    world_step (Process s m h sg c n t i None) (Process s m h true c n t i None)
| world_time s m h sg c n t t' i :
    t ≤ t' →
    world_step (Process s m h sg c n t i None) (Process s m h sg c n t' i None).

Definition proc_step p p' : Prop := own_step p p' ∨ world_step p p'.

(** [main] has started the gateway and the goroutine. *)
Definition launched p : Prop :=
  ∃ s t, initial cfg engines s ∧ p = Process s M_listen H_install false false 0 t false None.

Definition proc_reachable p : Prop := ∃ p0, launched p0 ∧ rtc proc_step p0 p.

(** ** The gateway under the process is the gateway of [System] *)

(** The same gateway, its goroutines in another order. *)
Definition reordered s s' : Prop :=
  s_g s = s_g s' ∧ s_trace s = s_trace s' ∧ s_threads s ≡ₚ s_threads s'.

#[local] Instance reordered_equiv : Equivalence reordered.
Proof.
  split.
  - intros s. by split_and!.
  - intros s s' (? & ? & ?). by split_and!.
  - intros s s' s2 (? & ? & Hp) (? & ? & Hp'). split_and!; [congruence..|]. by etrans.
Qed.

(** One goroutine replaced, wherever it stands. *)
Lemma reordered_at (ts1 : list thread) t ts2 ts :
  ts1 ++ t :: ts2 ≡ₚ ts → ∃ us1 us2, ts = us1 ++ t :: us2 ∧ ts1 ++ ts2 ≡ₚ us1 ++ us2.
Proof.
  intros Hp. assert (t ∈ ts) as (us1 & us2 & ->)%list_elem_of_split
    by (rewrite <-Hp; apply elem_of_app; right; by left).
  exists us1, us2. split; [done|]. by apply Permutation_app_inv in Hp.
Qed.

Lemma busy_workers_reordered ts ts' : ts ≡ₚ ts' → busy_workers ts = busy_workers ts'.
Proof. intros Hp. unfold busy_workers. by rewrite Hp. Qed.

Lemma step_reordered s1 s1' s2 :
  step cfg SplitHostPort s1 s1' → reordered s1 s2 →
  ∃ s2', step cfg SplitHostPort s2 s2' ∧ reordered s1' s2'.
Proof.
  destruct s2 as [g2 ts2 tr2]. intros Hstep (Hg & Htr & Hp).
  destruct Hstep as [g ts tr i w X o k g' x Hi Hen He|g ts1 w ts3 tr|g ts tr t work Hw Hb
    |g ts tr Hc Hw Hb|g ts tr rs1 r rs2 p Hr Hst|g ts tr r|g ts tr key|g ts tr]; simpl in *; subst g2 tr2.
  - destruct (lookup_split ts i _ Hi) as (l1 & l2 & -> & Hins).
    destruct (reordered_at _ _ _ _ Hp) as (u1 & u2 & -> & Hp').
    eexists. split; [by apply (step_act _ _ g _ tr (length u1) w X o k g' x);
      [apply list_lookup_middle|..]|].
    split_and!; [done..|]. simpl. rewrite Hins, insert_app_r_alt, Nat.sub_diag by done. simpl.
    by rewrite <-!Permutation_middle, Hp'.
  - destruct (reordered_at _ _ _ _ Hp) as (u1 & u2 & -> & Hp'). eexists. split; [by constructor|].
    by split_and!.
  - eexists. split; [apply step_worker; [exact Hw|by rewrite <-(busy_workers_reordered _ _ Hp)]|].
    split_and!; [done..|]. simpl. by rewrite Hp.
  - eexists. split; [apply step_worker_exit; [done..|by rewrite <-(busy_workers_reordered _ _ Hp)]|].
    by split_and!.
  - eexists. split; [by apply (step_go _ _ _ _ _ rs1 r rs2 p)|]. split_and!; [done..|].
    simpl. by rewrite Hp.
  - eexists. split; [apply (step_request _ _ _ _ _ r)|]. split_and!; [done..|]. simpl. by rewrite Hp.
  - eexists. split; [apply (step_notification _ _ _ _ _ key)|]. split_and!; [done..|].
    simpl. by rewrite Hp.
  - eexists. split; [apply step_stop|]. split_and!; [done..|]. simpl. by rewrite Hp.
Qed.

(** What is left of [Stop] is one more goroutine. *)
Definition stopping_thread (h : handler_at) : list thread :=
  match h with H_stopping p => [Thread false p] | _ => [] end.

Definition gateway_of p : sys :=
  Sys (s_g (p_sys p)) (s_threads (p_sys p) ++ stopping_thread (p_handler p)) (s_trace (p_sys p)).

Lemma busy_workers_idle ts h : busy_workers (ts ++ stopping_thread h) = busy_workers ts.
Proof.
  unfold busy_workers. rewrite filter_app, length_app.
  assert (filter (λ t, t_worker t = true) (stopping_thread h) = []) as -> by by destruct h.
  simpl. lia.
Qed.

(** A step of the gateway, with that goroutine beside it. *)
Lemma step_beside s s' h :
  step cfg SplitHostPort s s' →
  ∃ s1, step cfg SplitHostPort (Sys (s_g s) (s_threads s ++ stopping_thread h) (s_trace s)) s1 ∧
    reordered (Sys (s_g s') (s_threads s' ++ stopping_thread h) (s_trace s')) s1.
Proof.
  destruct 1 as [g ts tr i w X o k g' x Hi Hen He|g ts1 w ts3 tr|g ts tr t work Hw Hb
    |g ts tr Hc Hw Hb|g ts tr rs1 r rs2 p Hr Hst|g ts tr r|g ts tr key|g ts tr]; simpl.
  - eexists. split; [by apply (step_act _ _ g _ tr i w X o k g' x); [apply lookup_app_l_Some|..]|].
    split_and!; [done..|]. simpl. rewrite insert_app_l; [done|]. by eapply lookup_lt_Some.
  - rewrite <-(assoc_L (++)). eexists. split; [apply step_end|]. by rewrite <-(assoc_L (++)).
  - eexists. split; [apply step_worker; [exact Hw|by rewrite busy_workers_idle]|].
    split_and!; [done..|]. simpl. by rewrite <-!(assoc_L (++)), (Permutation_app_comm [_]).
  - eexists. split; [apply step_worker_exit; [done..|by rewrite busy_workers_idle]|done].
  - eexists. split; [by apply (step_go _ _ _ _ _ rs1 r rs2 p)|].
    split_and!; [done..|]. simpl. by rewrite <-!(assoc_L (++)), (Permutation_app_comm [_]).
  - eexists. split; [apply (step_request _ _ _ _ _ r)|].
    split_and!; [done..|]. simpl. by rewrite <-!(assoc_L (++)), (Permutation_app_comm [_]).
  - eexists. split; [apply (step_notification _ _ _ _ _ key)|].
    split_and!; [done..|]. simpl. by rewrite <-!(assoc_L (++)), (Permutation_app_comm [_]).
  - eexists. split; [apply step_stop|].
    split_and!; [done..|]. simpl. by rewrite <-!(assoc_L (++)), (Permutation_app_comm [_]).
Qed.

(** What one step of the process is to the gateway: at most one step of its own. *)
Definition follows p p' : Prop :=
  reordered (gateway_of p) (gateway_of p') ∨
  ∃ s', step cfg SplitHostPort (gateway_of p) s' ∧ reordered s' (gateway_of p').

Lemma follows_inner s s' m h sg c n t i e :
  step cfg SplitHostPort s s' → follows (Process s m h sg c n t i e) (Process s' m h sg c n t i e).
Proof.
  intros Hs. right. destruct (step_beside s s' h Hs) as (s1 & ? & Hg & Ht & Hp). exists s1.
  split; [done|]. by split_and!.
Qed.

Lemma stop_follows s m m' h c c' sg sg' n n' t t' i i' e e' :
  stopping_thread h = [] →
  follows (Process s m h sg c n t i e) (Process s m' (H_stopping Stop) sg' c' n' t' i' e').
Proof.
  intros Hh. right. exists (after_stop s). unfold gateway_of, after_stop. simpl. rewrite Hh, app_nil_r.
  split; [|done]. destruct s. apply step_stop.
Qed.

Lemma proc_step_follows p p' : proc_step p p' → follows p p'.
Proof.
  intros [Hs|Hs].
  - destruct Hs as [| | | | | | | | | | | |g ts tr m X o k g' x sg c n t i Hen He|s m sg c n t i];
      try (by left); try (by apply stop_follows).
    + right. eexists. split.
      * apply (step_act _ _ g _ tr (length ts) false X o k g' x); [|done..].
        by apply list_lookup_middle.
      * split_and!; [done..|]. simpl. by rewrite insert_app_r_alt, Nat.sub_diag.
    + right. exists (Sys (s_g s) (s_threads s ++ []) (s_trace s)). split; [apply step_end|done].
  - destruct Hs as [s s' m h sg c n t i [Hs _]| |r [g ts tr]| | | |]; try (by left).
    + by apply follows_inner.
    + apply follows_inner, step_request.
Qed.


(** ** A clean exit *)

(** What [OCloseAll] leaves: every registered connection is closed. *)
Definition all_closed (g : Goctopus S) : Prop :=
  ∀ k c cl, c ∈ conns_at (g_Conns g) k → g_clients g !! c = Some cl → c_closed cl = true.

Lemma CloseAll_closes g g' x : exec cfg OCloseAll g = (g', x) → all_closed g'.
Proof.
  intros [= <- _] k c cl Hc Hcl. simpl in Hc, Hcl. rewrite map_lookup_imap in Hcl.
  destruct (g_clients g !! c) as [cl0|]; [|done]. simpl in Hcl. injection Hcl as <-.
  rewrite decide_True; [unfold close; by destruct (c_closed cl0) eqn:Hcl0|].
  unfold conns_at in Hc. destruct (g_Conns g !! k) as [cs|] eqn:Hk.
  - apply elem_of_concat. exists cs. split; [|done]. apply list_elem_of_fmap. exists (k, cs).
    split; [done|]. by apply elem_of_map_to_list.
  - by apply not_elem_of_nil in Hc.
Qed.

(** Nothing takes the cancellation back. *)
Lemma step_cancelled s s' :
  step cfg SplitHostPort s s' → g_cancelled (s_g s) = true → g_cancelled (s_g s') = true.
Proof.
  destruct 1 as [g ts tr i w X o k g' x _ _ He| | | | | | | ]; try done. simpl. intros Hc.
  pose proof (exec_op_cancelled cfg o g Hc) as Ho. unfold exec in He. destruct (exec_op cfg o g).
  by injection He as <- _.
Qed.

Lemma proc_step_cancelled p p' :
  proc_step p p' → g_cancelled (s_g (p_sys p)) = true → g_cancelled (s_g (p_sys p')) = true.
Proof.
  intros [Hg|(s' & Hs & Hg)]%proc_step_follows Hc; destruct Hg as (Hg & _); simpl in Hg.
  - by rewrite <-Hg.
  - rewrite <-Hg. by apply (step_cancelled _ _ Hs).
Qed.

(** The stages of [Stop], by the number of actions left. *)
Inductive stopping : nat → prog op unit → Prop :=
| stopping_cancel : stopping 2 Stop
| stopping_close : stopping 1 (act OCloseAll)
| stopping_end : stopping 0 (Ret tt).

(** At some time [Stop] closed all connections, the context being cancelled and
    the server closing. *)
Definition stopped p0 p : Prop :=
  ∃ p1 p2, rtc proc_step p0 p1 ∧ proc_step p1 p2 ∧ rtc proc_step p2 p ∧
    p_handler p1 = H_stopping (act OCloseAll) ∧ p_closing p1 = true ∧
    g_cancelled (s_g (p_sys p2)) = true ∧ all_closed (s_g (p_sys p2)).

Lemma stopped_later p0 p p' : stopped p0 p → proc_step p p' → stopped p0 p'.
Proof.
  intros (p1 & p2 & Hr1 & Hr2 & Hr3 & ?) Hs. exists p1, p2. split; [done|]. split; [done|].
  split; [by eapply rtc_r|done].
Qed.

Definition handler_ok p0 p : Prop :=
  match p_handler p with
  | H_install | H_wait => p_closing p = false ∧ p_idleClosed p = false
  | H_shutdown d => p_closing p = true ∧ p_idleClosed p = false ∧ d ≤ p_now p + shutdownTimeout
  | H_stopping q => p_closing p = true ∧ p_idleClosed p = false ∧
      ∃ n, stopping n q ∧ ((n < 2)%nat → g_cancelled (s_g (p_sys p)) = true) ∧
        (n = 0%nat → stopped p0 p)
  | H_done => p_closing p = true ∧ p_idleClosed p = true ∧ stopped p0 p
  end.

Definition ending_ok p : Prop :=
  match p_end p with
  | None => True
  | Some (Exit x) =>
    x = 0 ∧ p_idleClosed p = true ∨ x = 1 ∧ ∃ e, p_main p = M_served (ServeError e)
  | Some Killed => p_handler p = H_install
  end.

Record proc_ok p0 p : Prop := {
  pk_path : rtc proc_step p0 p;
  pk_handler : handler_ok p0 p;
  pk_ending : ending_ok p;
}.

(** A step that leaves the goroutine and the server's mark alone. *)
Lemma handler_ok_stays p0 p p' :
  handler_ok p0 p → proc_step p p' → p_handler p' = p_handler p → p_closing p' = p_closing p →
  p_idleClosed p' = p_idleClosed p → p_now p ≤ p_now p' → handler_ok p0 p'.
Proof.
  unfold handler_ok. intros Hok Hs -> -> -> Hnow. destruct (p_handler p) as [| |d|q|]; [done|done| | |].
  - destruct Hok as (? & ? & ?). split_and!; [done..|lia].
  - destruct Hok as (? & ? & n & ? & Hc & Hst). split; [done|]. split; [done|]. exists n.
    split; [done|]. split; [|intros Hn; eapply stopped_later; [by apply Hst|done]].
    intros Hn. eapply proc_step_cancelled; [exact Hs|by apply Hc].
  - destruct Hok as (? & ? & ?). split; [done|]. split; [done|]. by eapply stopped_later.
Qed.

(** The actions of [Stop], in the goroutine. *)
Lemma stopping_step n q :
  stopping n q →
  match q with
  | Ret _ => n = 0%nat
  | Vis o k => ∀ g g' x, exec cfg o g = (g', x) →
      n = 2%nat ∧ stopping 1 (k x) ∧ g_cancelled g' = true ∨
      n = 1%nat ∧ q = act OCloseAll ∧ stopping 0 (k x) ∧ all_closed g'
  end.
Proof.
  destruct 1; simpl; [| |done]; intros g g' [] He.
  - left. split; [done|]. split; [apply stopping_close|]. by injection He as <-.
  - right. split; [done|]. split; [done|]. split; [apply stopping_end|]. by eapply CloseAll_closes.
Qed.

Lemma handler_ok_stop p0 g ts tr m (X : Set) (o : op X) k g' x sg c n t i :
  let p := Process (Sys g ts tr) m (H_stopping (Vis o k)) sg c n t i None in
  let p' := Process (Sys g' ts (tr ++ event_of o x)) m (H_stopping (k x)) sg c n t i None in
  rtc proc_step p0 p → handler_ok p0 p → enabled o g → exec cfg o g = (g', x) → handler_ok p0 p'.
Proof.
  intros p p' Hpath (Hcl & Hi & a & Ha & Hc & _) Hen He. split; [done|]. split; [done|].
  assert (proc_step p p') as Hstep by (left; by constructor).
  destruct (stopping_step _ _ Ha g g' x He) as [(-> & Hk & Hg)|(-> & Hq & Hk & Hg)].
  - exists 1%nat. split; [done|]. by split.
  - exists 0%nat. split; [done|].
    assert (g_cancelled (s_g (p_sys p')) = true) as Hc'
      by (eapply proc_step_cancelled; [exact Hstep|apply Hc; lia]).
    split; [done|]. intros _. exists p, p'. split_and!; [done..| |done|done|done].
    simpl. by rewrite Hq.
Qed.

Lemma handler_ok_step p0 p p' :
  rtc proc_step p0 p → handler_ok p0 p → proc_step p p' → handler_ok p0 p'.
Proof.
  intros Hpath Hh Hstep. destruct Hstep as [Hs|Hs]; pose proof Hs as Hs'; destruct Hs;
    try (eapply handler_ok_stays; [exact Hh|by (left + right)|done..|simpl; lia]).
  - done.
  - destruct Hh as [_ Hi]. simpl in Hi |- *. split_and!; [done..|]. simpl. lia.
  - destruct Hh as (Hc & Hi & _). split; [done|]. split; [done|]. exists 2%nat.
    split; [apply stopping_cancel|]. by split; [lia|].
  - destruct Hh as (Hc & Hi & _). split; [done|]. split; [done|]. exists 2%nat.
    split; [apply stopping_cancel|]. by split; [lia|].
  - by eapply handler_ok_stop.
  - destruct Hh as (Hc & Hi & a & Ha & _ & Hst). split; [done|]. split; [done|].
    eapply stopped_later; [|by left]. apply Hst. apply (stopping_step _ _ Ha).
Qed.

Lemma ending_ok_step p p' : proc_step p p' → ending_ok p'.
Proof.
  intros [[]|[]]; try exact I; try done.
  - destruct e as [|e]; simplify_eq/=. right. split; [done|]. by exists e.
  - by left.
Qed.

Lemma proc_reachable_ok p : proc_reachable p → ∃ p0, launched p0 ∧ proc_ok p0 p.
Proof.
  intros (p0 & Hl & Hsteps). exists p0. split; [done|].
  assert (proc_ok p0 p0) as H0p by (by destruct Hl as (s & t & _ & ->)).
  revert p Hsteps. apply rtc_ind_r; [done|]. intros p p' _ Hs [Hpath Hh _].
  split; [by eapply rtc_r|by eapply handler_ok_step|by eapply ending_ok_step].
Qed.

(** C23: The process ends with status 0 only after a signal was received and
    [Stop] went through: with the server closing, the context was cancelled and
    then every registered connection closed; a status other than 0 means
    that the server failed, and death by a signal that no handler was installed
    yet. *)
Theorem clean_exit p x :
  proc_reachable p → p_end p = Some x →
  match x with
  | Exit 0 => p_closing p = true ∧ p_handler p = H_done ∧
      ∃ p0 p1 p2, launched p0 ∧ rtc proc_step p0 p1 ∧ proc_step p1 p2 ∧ rtc proc_step p2 p ∧
        p_handler p1 = H_stopping (act OCloseAll) ∧ p_closing p1 = true ∧
        g_cancelled (s_g (p_sys p2)) = true ∧
        ∀ k c cl, c ∈ conns_at (g_Conns (s_g (p_sys p2))) k →
          g_clients (s_g (p_sys p2)) !! c = Some cl → c_closed cl = true
  | Exit status => status = 1 ∧ ∃ e, p_main p = M_served (ServeError e)
  | Killed => p_handler p = H_install
  end.
Proof.
  intros (p0 & Hl & [_ Hh He])%proc_reachable_ok Hx. unfold ending_ok in He. rewrite Hx in He.
  destruct x as [status|]; [|done]. destruct He as [[-> Hi]|[-> He]]; [|done].
  unfold handler_ok in Hh. destruct (p_handler p) as [| |d|q|] eqn:Hhp;
    try (destruct Hh as (? & Hi' & _); congruence); try (destruct Hh as (? & Hi'); congruence).
  destruct Hh as (Hc & _ & p1 & p2 & ?). split; [done|]. split; [done|]. by exists p0, p1, p2.
Qed.

(** ** The end of a shutdown *)

(** A signal is waiting for the goroutine, or was received. *)
Definition signalled p : Prop := p_handler p = H_wait ∧ p_sigs p = true ∨ p_closing p = true.

Definition main_left (m : main_at) : nat :=
  match m with M_listen => 4 | M_serving => 3 | M_served _ => 2 | M_wait => 1 end.
Definition stop_left (q : prog op unit) : nat :=
  match q with Ret _ => 0 | Vis o _ => match o with OCancel => 2 | _ => 1 end end.
Definition handler_left (h : handler_at) : nat :=
  match h with
  | H_install => 6 | H_wait => 5 | H_shutdown _ => 4 | H_stopping q => 1 + stop_left q | H_done => 0
  end.
Definition steps_left p : nat :=
  match p_end p with Some _ => 0 | None => main_left (p_main p) + handler_left (p_handler p) end.

Lemma stop_left_stage n q : stopping n q → stop_left q = n.
Proof. by destruct 1. Qed.

Lemma own_step_left p p' :
  proc_reachable p → own_step p p' → (steps_left p' < steps_left p)%nat.
Proof.
  intros (p0 & _ & [_ Hh _])%proc_reachable_ok Hs. unfold handler_ok in Hh.
  destruct Hs as [| | | | |e m s h sg c n t i He|e x s h sg c n t i He| | | | | |
    g ts tr m X o k g' x sg c n t i Hen He|]; unfold steps_left; simpl in *; try lia.
  - destruct e; simplify_eq/=. lia.
  - destruct Hh as (_ & _ & a & Ha & _).
    pose proof (stop_left_stage _ _ Ha) as Hl. simpl in Hl. rewrite Hl.
    destruct (stopping_step _ _ Ha g g' x He) as [(-> & Hk & _)|(-> & _ & Hk & _)];
      rewrite (stop_left_stage _ _ Hk); lia.
Qed.

Lemma world_step_left p p' : world_step p p' → (steps_left p' ≤ steps_left p)%nat.
Proof. destruct 1; unfold steps_left; simpl; lia. Qed.

Lemma signalled_step p p' : proc_step p p' → signalled p → signalled p'.
Proof.
  intros [Hs|Hs]; destruct Hs; unfold signalled; simpl; intros [[? ?]|?]; auto; try congruence.
Qed.

(** Until the process ends it can go on, or [Shutdown] waits for connections,
    until its deadline at most. *)
Lemma signalled_progress p :
  proc_reachable p → signalled p → p_end p = None →
  (∃ p', own_step p p') ∨
  ∃ d, p_handler p = H_shutdown d ∧ p_now p < d ≤ p_now p + shutdownTimeout ∧ p_active p ≠ 0%nat.
Proof.
  intros (p0 & _ & [_ Hh _])%proc_reachable_ok Hsig He.
  destruct p as [s m h sg c n t i e]. unfold handler_ok, signalled in *. simpl in *. subst e.
  destruct h as [| |d|q|]; simpl in *.
  - left. eexists. apply own_install.
  - destruct Hsig as [[_ ->]| ->]; [left; eexists; apply own_receive|]. by destruct Hh.
  - destruct n as [|n]; [left; eexists; apply own_drained|].
    destruct (decide (d ≤ t)); [left; eexists; by apply own_timeout|].
    right. exists d. split; [done|]. split; [lia|done].
  - left. destruct Hh as (_ & _ & a & Ha & _). destruct Ha, s as [g ts tr].
    + eexists. by apply own_stop with (o := OCancel).
    + eexists. by apply own_stop with (o := OCloseAll).
    + eexists. apply own_close.
  - left. destruct Hh as (-> & -> & _). destruct m as [| |[|e]|]; eexists.
    + apply own_listen_closed.
    + apply own_serve_closed.
    + by eapply own_served.
    + by eapply own_fatal.
    + apply own_return.
Qed.

(** A run of the process with [n] steps of [main] and its goroutine. *)
Inductive own_count : nat → process S → process S → Prop :=
| count_none p : own_count 0 p p
| count_own n p p' p'' : own_step p p' → own_count n p' p'' → own_count (Datatypes.S n) p p''
| count_world n p p' p'' : world_step p p' → own_count n p' p'' → own_count n p p''.

Lemma proc_reachable_step p p' : proc_reachable p → proc_step p p' → proc_reachable p'.
Proof. intros (p0 & ? & ?) Hs. exists p0. split; [done|]. by eapply rtc_r. Qed.

Lemma own_count_left n p p' : own_count n p p' → proc_reachable p → (n ≤ steps_left p)%nat.
Proof.
  induction 1 as [p|n p p' p'' Hs _ IH|n p p' p'' Hs _ IH]; intros Hr; [lia| |].
  - pose proof (own_step_left _ _ Hr Hs).
    assert (n ≤ steps_left p')%nat by (apply IH; eapply proc_reachable_step; [done|by left]). lia.
  - pose proof (world_step_left _ _ Hs).
    assert (n ≤ steps_left p')%nat by (apply IH; eapply proc_reachable_step; [done|by right]). lia.
Qed.

Lemma signalled_left p : proc_reachable p → signalled p → (steps_left p ≤ 9)%nat.
Proof.
  intros (p0 & _ & [_ Hh _])%proc_reachable_ok Hsig. unfold handler_ok, signalled, steps_left in *.
  assert (main_left (p_main p) ≤ 4)%nat as Hm by (destruct (p_main p); simpl; lia).
  destruct (p_end p); [lia|]. destruct (p_handler p) as [| |d|q|]; simpl; try lia.
  - destruct Hh, Hsig as [[? _]|?]; congruence.
  - destruct Hh as (_ & _ & a & Ha & _). rewrite (stop_left_stage _ _ Ha). destruct Ha; lia.
Qed.

(** C24: Once a signal has reached the handler, shutdown is inevitable: in every
    run from there [main] and its goroutine make at most nine steps; until the
    process has ended one of them can be made, whatever the gateway and the
    connections do, or [Shutdown] is waiting for connections, until ten seconds
    after it was called at most; and the process does not end by a signal. *)
Theorem shutdown_ends p :
  proc_reachable p → signalled p →
  (∀ n p', own_count n p p' → (n ≤ 9)%nat) ∧
  ∀ p', rtc proc_step p p' →
    match p_end p' with
    | None => (∃ p'', own_step p' p'') ∨
        ∃ d, p_handler p' = H_shutdown d ∧ p_now p' < d ≤ p_now p' + 10 * Second
    | Some x => x = Exit 0 ∨ x = Exit 1
    end.
Proof.
  intros Hr Hsig. split.
  - intros n p' Hn%own_count_left; [|done]. etrans; [exact Hn|]. by apply signalled_left.
  - intros p' Hsteps.
    assert (proc_reachable p' ∧ signalled p') as [Hr' Hsig'].
    { revert p' Hsteps. apply rtc_ind_r; [done|]. intros p1 p2 _ Hs [? ?].
      split; [by eapply proc_reachable_step|by eapply signalled_step]. }
    destruct (p_end p') as [x|] eqn:He.
    + apply proc_reachable_ok in Hr' as (p0 & _ & [_ Hh Hend]). unfold ending_ok in Hend.
      rewrite He in Hend. destruct x as [x|].
      * destruct Hend as [[-> _]|[-> _]]; auto.
      * unfold handler_ok in Hh. rewrite Hend in Hh. destruct Hsig' as [[Hw _]|Hc]; [congruence|].
        destruct Hh; congruence.
    + destruct (signalled_progress p' Hr' Hsig' He) as [?|(d & ? & ? & _)]; [by left|].
      right. by exists d.
Qed.
End process.

(** ** A shutdown *)

Module DemoProcess.
Import Demo.

Local Abbreviation own_step := (own_step cfg).
Local Abbreviation proc_step := (proc_step cfg SplitHostPort).
Local Abbreviation proc_reachable := (proc_reachable cfg SplitHostPort engines).
Local Abbreviation process := (process MemoryStorage).

Definition p0 : process := Process Demo.s0 M_listen H_install false false 0 0 false None.

(** The server accepts a connection, a signal arrives and is received. *)
Definition interrupted : process :=
  Process Demo.s0 M_serving (H_shutdown shutdownTimeout) false true 1 0 false None.

Lemma interrupted_reachable : proc_reachable interrupted.
Proof.
  exists p0. split.
  - exists Demo.s0, 0. split; [|done]. by exists start, 0%nat, 0%nat.
  - eapply rtc_l; [left; apply own_listen|].
    eapply rtc_l; [left; apply own_install|].
    eapply rtc_l; [right; apply world_accept|].
    eapply rtc_l; [right; by apply world_signal|].
    eapply rtc_l; [left; apply own_receive|]. done.
Qed.

(** The connection stays active: the deadline passes. *)
Definition timed_out : process :=
  Process Demo.s0 M_serving (H_shutdown shutdownTimeout) false true 1 shutdownTimeout false None.

Definition cancelled : Goctopus MemoryStorage := (exec cfg OCancel start).1.
Definition closed : Goctopus MemoryStorage := (exec cfg OCloseAll cancelled).1.

Definition ended : process :=
  Process (Sys closed (s_threads Demo.s0) []) M_wait H_done false true 1 shutdownTimeout true
    (Some (Exit 0)).

Lemma ended_reachable : proc_reachable ended.
Proof.
  destruct interrupted_reachable as (q & Hq & Hsteps). exists q. split; [done|].
  etrans; [exact Hsteps|]. apply (rtc_l _ _ timed_out); [right; by apply world_time|].
  eapply rtc_l; [left; by apply own_timeout|].
  eapply rtc_l; [left; by apply (own_stop cfg start _ _ _ _ OCancel _ cancelled tt)|].
  eapply rtc_l; [left; by apply (own_stop cfg cancelled _ _ _ _ OCloseAll _ closed tt)|].
  eapply rtc_l; [left; apply own_close|].
  eapply rtc_l; [left; apply own_serve_closed|].
  eapply rtc_l; [left; by apply own_served|].
  eapply rtc_l; [left; apply own_return|]. done.
Qed.


Lemma clean_exit_witness :
  p_closing ended = true ∧ p_handler ended = H_done ∧
  ∃ p0 p1 p2, launched cfg engines p0 ∧ rtc proc_step p0 p1 ∧ proc_step p1 p2 ∧
    rtc proc_step p2 ended ∧
    p_handler p1 = H_stopping (act OCloseAll) ∧ p_closing p1 = true ∧
    g_cancelled (s_g (p_sys p2)) = true ∧
    ∀ k c cl, c ∈ conns_at (g_Conns (s_g (p_sys p2))) k →
      g_clients (s_g (p_sys p2)) !! c = Some cl → c_closed cl = true.
Proof.
  apply (clean_exit cfg SplitHostPort engines ended (Exit 0)); [apply ended_reachable|reflexivity].
Defined.

Lemma shutdown_ends_witness :
  (∀ n p', own_count cfg SplitHostPort n interrupted p' → (n ≤ 9)%nat) ∧
  ∀ p', rtc proc_step interrupted p' →
    match p_end p' with
    | None => (∃ p'', own_step p' p'') ∨
        ∃ d, p_handler p' = H_shutdown d ∧ p_now p' < d ≤ p_now p' + 10 * Second
    | Some x => x = Exit 0 ∨ x = Exit 1
    end.
Proof.
  apply (shutdown_ends cfg SplitHostPort engines interrupted); [apply interrupted_reachable|by right].
Defined.
End DemoProcess.
