(* ===== verification/Shutdown.v ===== *)
(** * What a stop leaves behind

    [Stop] cancels the context and closes the connections; it does not wait for
    the workers, and [main] returns after it.  A worker returns once it finds the
    queue empty.  What is queued while a worker is left is still run
    ([Drain.accepted_is_stored_and_offered]); what is queued later never is, and
    a process that ends before the workers got to it ends without it. *)
From stdpp Require Import base numbers list gmap strings relations.
From S2P Require Import Prelude GoStd GoTime Topics Json Const Message Storage History Config.
From S2P Require Import Client Http RateLimit Authorizer Prog Engine Server System.
From S2P Require Import Invariants MemoryStorage Simulate Delivery Process.

#[local] Open Scope Z_scope.
#[local] Open Scope prog_scope.

(** ** The queue without workers *)

Section stranded.
Context {S : Type} `{!Storage S, !StorageSpec S, UuidLib, TimeText, JsonText, Env}.
Context (cfg : Config) (SplitHostPort : string → result string).
Context (engines : string → option (Config → result S)).
Implicit Types (s : sys (S:=S)).

Lemma exec_op_queue {X : Set} (o : op X) (g : Goctopus S) :
  g_work g `prefix_of` g_work (exec_op cfg o g).1.
Proof. destruct o; exec_frame; try done. by eexists. Qed.

(** All workers have returned, and [work] was in the queue. *)
Definition deserted (work : list task) s : Prop :=
  g_workers (s_g s) = 0 ∧ work `prefix_of` g_work (s_g s).

Lemma deserted_step work s s' : deserted work s → step cfg SplitHostPort s s' → deserted work s'.
Proof.
  intros [Hz Hq] Hs.
  destruct Hs as [g ts tr i w X o k g' x Hi _ He|g ts1 w ts2 tr|g ts tr t q Hwk Hb
    |g ts tr Hc Hwk Hb|g ts tr rs1 r rs2 p _ _|g ts tr r|g ts tr key|g ts tr]; try by split.
  - unfold exec in He. pose proof (exec_op_workers cfg o g) as Hw. pose proof (exec_op_queue o g) as Hp.
    destruct (exec_op cfg o g). injection He as <- <-. unfold deserted. simpl in *.
    split; [congruence|]. by etrans.
  - simpl in Hz. unfold busy_workers in Hb. lia.
  - simpl in Hz. unfold busy_workers in Hb. lia.
Qed.

(** When the workers have returned, which takes a stop and an empty queue, what is
    scheduled stays in the queue for ever, in order, until the queue is full. *)
Theorem work_after_stop_is_stranded s s' :
  reachable cfg SplitHostPort engines s → g_workers (s_g s) = 0 →
  rtc (step cfg SplitHostPort) s s' →
  g_cancelled (s_g s) = true ∧ g_workers (s_g s') = 0 ∧
  g_work (s_g s) `prefix_of` g_work (s_g s') ∧
  Z.of_nat (length (g_work (s_g s'))) ≤ queueCap cfg.
Proof.
  intros Hr Hz Hs. assert (g_cancelled (s_g s) = true) as Hc.
  { destruct (po_live _ _ (reachable_pool _ _ _ _ Hr)) as [Hc|Hw]; [done|].
    destruct Hr as (s0 & (g & ? & ? & Hg & _) & _). unfold Start in Hg. repeat case_match; simplify_eq; lia. }
  assert (deserted (g_work (s_g s)) s') as [? ?].
  { assert (deserted (g_work (s_g s)) s) as Hd by by split. revert Hd.
    generalize (g_work (s_g s)). intros work. clear Hr Hz Hc.
    induction Hs as [s|s s1 s2 Hstep _ IH]; [done|]. intros Hd. apply IH. by eapply deserted_step. }
  assert (reachable cfg SplitHostPort engines s') as Hr'.
  { destruct Hr as (s0 & ? & ?). exists s0. split; [done|]. by etrans. }
  split_and!; [done..|]. apply (po_queue _ _ (reachable_pool _ _ _ _ Hr')).
Qed.
End stranded.

(** ** An accepted message the process ends without *)

Section inner.
Context {S : Type} `{!Storage S, UuidLib, TimeText, JsonText, Env}.
Context (cfg : Config) (SplitHostPort : string → result string).
Implicit Types (s : sys (S:=S)).

(** The goroutines [l] of the gateway move while the process looks on. *)
Lemma acts_inner s (l : list nat) m h sg c n t i :
  rtc (proc_step cfg SplitHostPort) (Process s m h sg c n t i None)
    (Process (drive cfg SplitHostPort s (CAct <$> l)) m h sg c n t i None).
Proof.
  revert s. induction l as [|j l IH]; intros s; [done|].
  rewrite fmap_cons. change (drive cfg SplitHostPort s (CAct j :: (CAct <$> l))) with
    (drive cfg SplitHostPort (step_by cfg SplitHostPort s (CAct j)) (CAct <$> l)).
  etrans; [|apply IH]. clear IH. destruct s as [g ts tr]. simpl.
  destruct (ts !! j) as [[w [[]|X o k]]|] eqn:Hj; [| |done].
  - apply rtc_once. right. apply world_gateway. split.
    + rewrite <-(take_drop_middle ts j _ Hj) at 1. constructor.
    + pose proof (lookup_lt_Some _ _ _ Hj).
      split; [intros r|]; intros [=Heq]; apply (f_equal length) in Heq;
        rewrite ?length_app, ?length_take, ?length_drop in Heq; simpl in Heq; lia.
  - destruct (decide (enabled o g)); [|done]. destruct (exec cfg o g) as [g' x] eqn:He.
    apply rtc_once. right. apply world_gateway. split; [by econstructor|].
    split; [intros r|]; intros [=_ Heq]; apply (f_equal length) in Heq;
      rewrite length_app, length_insert in Heq; simpl in Heq; lia.
Qed.
End inner.

Module DemoShutdown.
Import Demo.

Local Abbreviation proc_step := (proc_step cfg SplitHostPort).
Local Abbreviation proc_reachable := (proc_reachable cfg SplitHostPort engines).
Local Abbreviation process := (process MemoryStorage).

(** A POST arrives and is handled; no worker has moved. *)
Definition arrived : sys (S:=MemoryStorage) := after_request cfg SplitHostPort s0 post_request.
Definition answered : sys (S:=MemoryStorage) :=
  drive cfg SplitHostPort arrived (CAct <$> replicate 12 0%nat).

(** Then a signal comes, the connection is idle, and [Stop] runs. *)
Definition cancelled : Goctopus MemoryStorage := (exec cfg OCancel (s_g answered)).1.
Definition closed : Goctopus MemoryStorage := (exec cfg OCloseAll cancelled).1.
Definition left_behind : process :=
  Process (Sys closed (s_threads answered) (s_trace answered)) M_wait H_done false true 0 0 true
    (Some (Exit 0)).

Lemma answered_reachable :
  proc_reachable (Process answered M_serving H_wait false false 1 0 false None).
Proof.
  exists (Process s0 M_listen H_install false false 0 0 false None). split.
  - exists s0, 0. split; [|done]. by exists start, 0%nat, 0%nat.
  - eapply rtc_l; [left; apply own_listen|].
    eapply rtc_l; [left; apply own_install|].
    eapply rtc_l; [right; apply world_accept|].
    eapply rtc_l; [right; apply (world_request cfg SplitHostPort post_request)|].
    apply acts_inner.
Qed.

Lemma left_behind_reachable : proc_reachable left_behind.
Proof.
  destruct answered_reachable as (q & Hq & Hsteps). exists q. split; [done|].
  etrans; [exact Hsteps|].
  eapply rtc_l; [right; by apply world_idle|].
  eapply rtc_l; [right; by apply world_signal|].
  eapply rtc_l; [left; apply own_receive|].
  eapply rtc_l; [left; apply own_drained|].
  assert (answered = Sys (s_g answered) (s_threads answered) (s_trace answered)) as ->
    by by destruct answered.
  eapply rtc_l; [left; by apply (own_stop cfg (s_g answered) _ _ _ _ OCancel _ cancelled tt)|].
  rewrite app_nil_r.
  eapply rtc_l; [left; by apply (own_stop cfg cancelled _ _ _ _ OCloseAll _ closed tt)|].
  rewrite app_nil_r.
  eapply rtc_l; [left; apply own_close|].
  eapply rtc_l; [left; apply own_serve_closed|].
  eapply rtc_l; [left; by apply own_served|].
  eapply rtc_l; [left; apply own_return|]. done.
Qed.

(** The process can end with status 0, after a complete shutdown, although a
    message it accepted was never handed to the storage: its delivery is in the
    queue of the workers, which [main] does not wait for. *)
Theorem clean_exit_drops_accepted :
  ∃ p m, proc_reachable p ∧ p_end p = Some (Exit 0) ∧
    EvRequest post_request ∈ s_trace (p_sys p) ∧
    (run cfg (ServeHTTP cfg SplitHostPort post_request) start).2 = status_only StatusAccepted ∧
    g_work (s_g (p_sys p)) = [TDeliver m ["a.b"]] ∧
    ∀ key m' err, EvAdd key m' err ∉ s_trace (p_sys p).
Proof.
  assert (∃ m, g_work (s_g (p_sys left_behind)) = [TDeliver m ["a.b"]]) as [m Hm]
    by (eexists; vm_compute; reflexivity).
  exists left_behind, m. split; [apply left_behind_reachable|]. split; [done|]. split_and!.
  - vm_compute. left.
  - vm_compute. reflexivity.
  - exact Hm.
  - intros key m' err Hin. vm_compute in Hin.
    repeat (apply elem_of_cons in Hin as [[=]|Hin]). by apply not_elem_of_nil in Hin.
Qed.
End DemoShutdown.
